(* ===== verification/_CoqProject ===== *)
-Q . S2P
Prelude.v
GlobalAddress.v
ArrayVar.v
RdmaSim.v
ThreadStats.v
Queue.v
MemoryServer.v
Slab.v
RdmaManager.v
LocalLock.v
KVBlock.v
FaunusNode.v
FaunusIndex.v
FaunusTree.v
FaunusRead.v
FaunusFrame.v
FaunusInsert.v
FaunusUpsert.v
FaunusInit.v
FaunusHeap.v
FaunusShape.v
FaunusSplit.v
FaunusGrow.v
FaunusMap.v
SimpleAllocator.v
RangeCache.v
RangeSpec.v
RangeEpoch.v
ShermanNode.v
ShermanIndex.v
ShermanRead.v
ShermanStuck.v
ShermanFrame.v
ShermanInsert.v
ShermanLock.v
ShermanForest.v
ShermanGrow.v
ShermanUpsert.v
ShermanInit.v
Workload.v
WorkloadClient.v
Config.v
Servers.v
Percentiles.v
Tally.v
Report.v
Runtime.v
ReportJson.v
CacheBench.v
