(* ===== verification/Prelude.v ===== *)
(** * Faunus: a verification library for an RDMA key-value index simulator

    The program (src/src/) simulates compute servers that keep a B+tree in the
    memory of memory servers and reach it only through one-sided RDMA verbs.  Its
    parts, bottom up:

    - memory servers own a byte memory and grant chunks of it (rdma/memory_server,
      rdma/rpc_allocator.hpp); a compute server cuts the chunks into slabs
      (rdma/local_allocator.hpp);
    - the RDMA manager (rdma/rdma_manager, rdma/rdma_simulation) performs READ,
      WRITE, CAS and FAA on the memories, alone or in batches, models delays, and
      counts into the statistics of the thread (util/thread_stats.hpp);
    - two indexes run on top: Faunus (kv_index/faunus_index), whose leaves are
      updated without locks by exchanging slot words, and Sherman
      (kv_index/sherman_index), a B-link tree of pages under a hierarchical lock:
      a ticket lock within the server (util/local_lock_manager.hpp) and a lock word
      in the page;
    - both use a lock-free range cache for inner nodes (cache/range_cache.hpp), and
      Faunus hands splits to maintenance threads through queues
      (util/maintenance_queue.hpp).

    ** Style

    A w-bit integer is a [Z] kept in range by [wrap w]; a key is the big-endian
    number of its bytes (ArrayVar.v shows that memcmp order is the order of these
    numbers).  Stateful code is a function in the state and error monad [M W A];
    a failed assertion, an exception, an access out of bounds, a null pointer, a
    division by zero and an exhausted bound are values of [fault].  Memory is a
    list of bytes; structs are written to it and read from it through explicit
    encoders and decoders.  What other threads do between two verbs is a list of
    actions in the state; protocols for many threads are step relations.  Code that
    is not in src/ (the concurrent queue, the skip list, operator new, random
    numbers, clocks, hashes of addresses, pow) is a parameter or a class with the laws
    the code relies on, and every class has a concrete instance.

    ** Files

    - Prelude.v: machine integers, bytes, slices of lists, the monad and its loops,
      the tactics and hints the other files share.
    - GlobalAddress.v: the packed 50-bit address.  ArrayVar.v: keys and values as
      byte arrays.
    - RdmaSim.v: the verbs on one memory.  RdmaManager.v: the manager, batches,
      statistics, delays, remote locks; mutual exclusion of the lock word for any
      interleaving.
    - ThreadStats.v: histograms and per-operation statistics.  Queue.v: the class
      ConcurrentQueue, a first-in first-out instance, and the maintenance queue.
    - MemoryServer.v: servers, worker loop and RPC allocator.  Slab.v: slabs and the
      local allocator over the class ChunkAllocator.  SimpleAllocator.v: the
      allocator on operator new that the range cache uses.
    - LocalLock.v: the ticket lock with hand-over, as operations and as a step
      relation of its atomic accesses.
    - KVBlock.v: fingerprints and the 64-bit slot word.
    - FaunusNode.v: node layouts and the computations on one node.  FaunusIndex.v:
      all handlers of FaunusIndex, over the class NodeCache.  FaunusTree.v: the
      predicate [stored] (the memories hold a tree) and the abstract map
      [contents].  FaunusRead.v, FaunusFrame.v, FaunusInsert.v, FaunusUpsert.v,
      FaunusInit.v: what read, insert and initialize do to it.  FaunusHeap.v: the
      blocks of the memories as a list of cells, and the verbs on them.
      FaunusShape.v: the upper levels of a tree while the lower ones change.
      FaunusSplit.v: a separator that goes up, with splits and a new root.
      FaunusGrow.v: the split of a leaf.  FaunusMap.v: inserts, requests and
      maintenance workers together, and histories from initialize on.
    - RangeCache.v: the range cache run by one thread, over the class SkipList.
      RangeSpec.v: what its operations guarantee; the instance of NodeCache.
      RangeEpoch.v: guards, retiring and reclaiming by many threads.
    - ShermanNode.v: page layouts, routing, insertion and splits.  ShermanIndex.v:
      all handlers of ShermanIndex, over NodeCache and RangedCache (both satisfied
      by the range cache).  ShermanRead.v: pages in memory and what read returns.
      ShermanFrame.v: the footprint of a stored tree.  ShermanInsert.v: an insert
      into a leaf with room.  ShermanForest.v: trees opened along a path.
      ShermanGrow.v: one page that gets a separator and is split.  ShermanUpsert.v:
      the whole insert with its splits.  ShermanInit.v: histories from initialize
      on.  ShermanStuck.v: a read that never returns.  ShermanLock.v: the remote
      lock.
    - Workload.v: samplers, keys, values and operations of a client, its warm-up and
      the barrier.  WorkloadClient.v: a client on the Sherman index.
    - Config.v: load_config over the class YAML.  Servers.v: the threads of a compute
      server as a step relation, their cores, and pinning over the class Kernel.
    - Percentiles.v: percentiles of latency histograms.  Tally.v: the class
      AccountedIndex (what an index leaves alone in the statistics), both indexes as
      instances, and the counts after a client's run.  Report.v: what the program
      computes from the statistics of all threads.  ReportJson.v: its JSON files.
    - Runtime.v: precise sleeping, the profiler and the log files.  CacheBench.v: the
      benchmark of the range cache.

    ** What is shown

    - The indexes: [read] of either index returns the value of the key in the
      finite map of the stored items (for Sherman also through a valid cache);
      [insert] of either index is an upsert of that map and keeps the invariant of
      tree, locks and allocator (by a thread alone, without cache; for Sherman
      without local lock manager).  A Faunus insert needs a free slot in the leaf or
      the key in it; over the split threshold it puts exactly one request into a
      maintenance queue, or splits the leaf itself when the maintenance is compiled out; a Sherman
      insert may split pages up to the root and grow a new one.  A leaf split of
      Faunus, with the splits of internal nodes and the new root it may lead to, keeps
      the map, and so does a run of a maintenance worker on its queue.  Every
      history of Faunus inserts, reads and maintenance runs, and of Sherman inserts
      and reads, from [initialize] on behaves as a finite map.
    - Nodes and pages: inserting a separator changes the routing exactly in its
      range; splits of inner nodes and leaves partition the entries, the fences
      meet, no entry is lost.
    - Concurrency: the remote lock word and the ticket lock are exclusive for every
      interleaving, the hand-over is consumed once and bounded; an entry of the cache
      is not reclaimed while a guard that reached it lasts.  The step relations
      interleave sequentially consistently; RangeEpoch.v thereby assumes more than the
      release stores and acquire loads of range_cache.hpp give.
    - The cache: every slab is in exactly one place, and none is lost; an add with a free
      slab makes just its range visible, an invalidation moves just its entry to the
      retired ones, a search finds the range that covers the key.
    - Memory: granted chunks and slabs never overlap; verbs change only the bytes
      they name; a batch is its operations in order.
    - Bookkeeping: slot words, statistics, queues.
    - Workload: different indices give different keys, samplers stay in the key
      space, sampling ends with the first usable draw, no client passes the barrier
      early and none is left waiting at its condition variable, and what a client puts into the Sherman index is what it gets.
    - Servers: a loaded configuration is in range; the servers of a program that
      starts get different existing cores; join returns after all workers, each of
      which ran once on its own statistics.
    - Statistics from the client to the report: on either index a run counts every
      put and get that it made (the log of log_index) twice and samples its latency
      twice if it succeeded; the totals of
      the report are those of all clients, merging the histograms of the threads
      gives the histogram of all samples, a percentile is within a factor of four of
      the sample of its rank, and the latencies in the JSON files are numbers.
    - Tools: a precise sleep ends within one reading of the clock after its target;
      profiles and logs lose nothing; the benchmark of the cache, whose workers
      interleave between the operations of the cache, finds no errors as long as no slab
      is reclaimed, and can only ever fail by checking a reclaimed entry.
    - Defects, as theorems: a Sherman read of an absent key behind a stale cached
      parent never returns; the unlock race of write_page_and_unlock; tags that do
      not exclude each other; a hand-over that crosses addresses; a result of
      the cache's search that is reclaimed before it is read; an add to a full cache that is always dropped; a slot
      word that truncates addresses; a first key of the key space that is never
      used; a check for isolated cores that accepts every core; a percentile that is
      not a number; byte totals of the report that are up to twice the right ones.

    ** Bounds

    Loops the source bounds (1000000 attempts) have the bound of the source.  Loops
    it does not bound take a bound [fuel] (and [spins], [depth]) and fault with
    [OutOfFuel] when it is exhausted.  The theorems about results show that the
    run ends: for a traversal it is enough that [fuel] exceeds the height of the
    tree, for a separator that goes up that [depth] does, for a worker that the
    number of its rounds is the number of requests in its queue, for the remote lock that it exceeds 1000002 rounds; the read that never
    returns is shown to exhaust every bound.

    ** Not modelled

    In apps/kv_test.cpp the construction of servers, indexes and caches, the
    directories and the lines on the terminal; the white space and the digits of the
    JSON files; the reporter thread of cache/bench.cpp; log time stamps; the printing of
    trees and the CSV output of the statistics; the profiler's scope guards, which are
    empty unless ENABLE_PROFILING is defined.

    ** Plan

    What could come next: Faunus operations of several threads on the stored tree, and
    Sherman's insert together with the local lock manager. *)

From Stdlib Require Export ZArith Lia.
From stdpp Require Export base tactics numbers list gmap sets option.

#[global] Open Scope Z_scope.

(** ** Machine integers: a [w]-bit unsigned integer is a [Z] reduced modulo [2^w] *)

Definition wrap (w z : Z) : Z := z mod 2 ^ w.

Declare Scope word_scope.
Delimit Scope word_scope with word.
Abbreviation u8 := (wrap 8).
Abbreviation u16 := (wrap 16).
Abbreviation u32 := (wrap 32).
Abbreviation u64 := (wrap 64).
Notation "a +u64 b" := (wrap 64 (a + b)) (at level 50, left associativity) : word_scope.
Notation "a *u64 b" := (wrap 64 (a * b)) (at level 40, left associativity) : word_scope.

(** [z] is the value of a [w]-bit unsigned integer. *)
Definition in_width (w z : Z) : Prop := 0 ≤ z < 2 ^ w.

#[global] Instance in_width_dec w z : Decision (in_width w z).
Proof. unfold in_width. apply _. Defined.

Create HintDb word.

Lemma wrap_small w z : in_width w z → wrap w z = z.
Proof. intros H. apply Z.mod_small, H. Qed.

Lemma wrap_in_width w z : 0 ≤ w → in_width w (wrap w z).
Proof. intros H. apply Z.mod_pos_bound. apply Z.pow_pos_nonneg; lia. Qed.

Lemma wrap_idemp w z : 0 ≤ w → wrap w (wrap w z) = wrap w z.
Proof. intros H. by apply wrap_small, wrap_in_width. Qed.

Lemma wrap_add_l w a b : wrap w (wrap w a + b) = wrap w (a + b).
Proof. unfold wrap. apply Zplus_mod_idemp_l. Qed.

Lemma wrap_add_r w a b : wrap w (a + wrap w b) = wrap w (a + b).
Proof. unfold wrap. apply Zplus_mod_idemp_r. Qed.

#[export] Hint Resolve wrap_small wrap_in_width : word.

(** A [w]-bit value has no bit at or above position [w]. *)
Lemma in_width_testbit w z i :
  in_width w z → w ≤ i → Z.testbit z i = false.
Proof.
  intros [H1 H2] Hi. destruct (decide (0 ≤ w)) as [Hw|Hw].
  - rewrite <-(Z.mod_small z (2 ^ w)) by done.
    by apply Z.mod_pow2_bits_high.
  - rewrite (Z.pow_neg_r 2 w) in H2 by lia. lia.
Qed.

Lemma lor_disjoint_add a b : Z.land a b = 0 → Z.lor a b = a + b.
Proof. intros H. by rewrite <-Z.lxor_lor, Z.add_nocarry_lxor. Qed.

(** ** Tactics *)

(** Case analysis on every boolean comparison of the goal, then [lia]. *)
Ltac bool_cases :=
  repeat match goal with
    | |- context [ ?a <? ?b ] => destruct (Z.ltb_spec a b)
    | |- context [ ?a <=? ?b ] => destruct (Z.leb_spec a b)
    | |- context [ ?a =? ?b ] => destruct (Z.eqb_spec a b)
    | |- context [ Nat.ltb ?a ?b ] => destruct (Nat.ltb_spec a b)
    | |- context [ Nat.leb ?a ?b ] => destruct (Nat.leb_spec a b)
    end.

(** Splits a boolean hypothesis into the facts it decides. *)
Ltac bool_hyps :=
  repeat match goal with
    | H : andb _ _ = true |- _ => apply andb_true_iff in H as [? ?]
    | H : orb _ _ = false |- _ => apply orb_false_iff in H as [? ?]
    | H : negb _ = true |- _ => apply negb_true_iff in H
    | H : negb _ = false |- _ => apply negb_false_iff in H
    | H : (_ <? _) = true |- _ => apply Z.ltb_lt in H
    | H : (_ <? _) = false |- _ => apply Z.ltb_ge in H
    | H : (_ <=? _) = true |- _ => apply Z.leb_le in H
    | H : (_ <=? _) = false |- _ => apply Z.leb_gt in H
    | H : (_ =? _) = true |- _ => apply Z.eqb_eq in H
    | H : (_ =? _) = false |- _ => apply Z.eqb_neq in H
    end.

(** ** Bytes: little-endian and big-endian readings of a byte string *)

Definition byte_ok (b : Z) : Prop := in_width 8 b.
Abbreviation bytes_ok := (Forall byte_ok).

(** The [n] low bytes of [z], least significant first. *)
Fixpoint le_bytes (n : nat) (z : Z) : list Z :=
  match n with
  | O => []
  | S n' => z mod 256 :: le_bytes n' (z / 256)
  end.

(** The number whose bytes, least significant first, are [l]. *)
Fixpoint le_val (l : list Z) : Z :=
  match l with
  | [] => 0
  | b :: l' => b + 256 * le_val l'
  end.

Definition be_bytes (n : nat) (z : Z) : list Z := rev (le_bytes n z).
Definition be_val (l : list Z) : Z := le_val (rev l).

Lemma length_le_bytes n z : length (le_bytes n z) = n.
Proof. revert z; induction n; intros; simpl; auto. Qed.

Lemma le_bytes_ok n z : bytes_ok (le_bytes n z).
Proof.
  revert z; induction n as [|n IH]; intros z; simpl; constructor; auto.
  unfold byte_ok, in_width. change (2 ^ 8) with 256. apply Z.mod_pos_bound. lia.
Qed.

Lemma le_val_range l : bytes_ok l → 0 ≤ le_val l < 256 ^ Z.of_nat (length l).
Proof.
  induction 1 as [|b l Hb Hl IH]; simpl le_val; simpl length.
  - simpl. lia.
  - rewrite Nat2Z.inj_succ, Z.pow_succ_r by lia.
    unfold byte_ok, in_width in Hb. change (2 ^ 8) with 256 in Hb. nia.
Qed.

Lemma le_val_le_bytes n z : le_val (le_bytes n z) = z mod 256 ^ Z.of_nat n.
Proof.
  revert z; induction n as [|n IH]; intros z; cbn [le_bytes le_val].
  - by rewrite Z.mod_1_r.
  - rewrite IH, Nat2Z.inj_succ, Z.pow_succ_r by lia.
    rewrite Z.rem_mul_r by lia. lia.
Qed.

Lemma le_bytes_le_val l : bytes_ok l → le_bytes (length l) (le_val l) = l.
Proof.
  induction 1 as [|b l Hb Hl IH]; cbn [le_bytes le_val length]; [done|].
  unfold byte_ok, in_width in Hb. change (2 ^ 8) with 256 in Hb.
  rewrite (Z.mul_comm 256), Z.mod_add, Z.mod_small by lia.
  by rewrite Z.div_add, Z.div_small, Z.add_0_l, IH by lia.
Qed.

Lemma le_val_app l1 l2 :
  le_val (l1 ++ l2) = le_val l1 + 256 ^ Z.of_nat (length l1) * le_val l2.
Proof.
  induction l1 as [|b l1 IH]; cbn [app le_val length]; [lia|].
  rewrite IH, Nat2Z.inj_succ, Z.pow_succ_r by lia. lia.
Qed.

Lemma length_be_bytes n z : length (be_bytes n z) = n.
Proof. unfold be_bytes. by rewrite length_rev, length_le_bytes. Qed.

Lemma be_bytes_ok n z : bytes_ok (be_bytes n z).
Proof. apply Forall_rev, le_bytes_ok. Qed.

Lemma be_val_be_bytes n z : be_val (be_bytes n z) = z mod 256 ^ Z.of_nat n.
Proof. unfold be_val, be_bytes. by rewrite rev_involutive, le_val_le_bytes. Qed.

Lemma be_bytes_be_val l : bytes_ok l → be_bytes (length l) (be_val l) = l.
Proof.
  intros Hl. unfold be_val, be_bytes.
  rewrite <-(length_rev l), le_bytes_le_val, rev_involutive; [done|].
  by apply Forall_rev.
Qed.

Lemma be_val_range l : bytes_ok l → 0 ≤ be_val l < 256 ^ Z.of_nat (length l).
Proof.
  intros Hl. unfold be_val. rewrite <-(length_rev l).
  by apply le_val_range, Forall_rev.
Qed.

Lemma be_val_cons b l : be_val (b :: l) = b * 256 ^ Z.of_nat (length l) + be_val l.
Proof.
  unfold be_val. cbn [rev]. rewrite le_val_app, length_rev.
  cbn [le_val]. lia.
Qed.

(** ** Regions: reading and overwriting a range of a byte array

    [slice off n l] is what [std::copy] reads from the range of [n] bytes at
    [off]; [splice off d l] is the array after [std::copy] wrote [d] there. *)
Definition slice {A} (off n : nat) (l : list A) : list A := take n (drop off l).

Definition splice {A} (off : nat) (d l : list A) : list A :=
  take off l ++ d ++ drop (off + length d) l.

Section regions.
Context {A : Type}.
Implicit Types (l d : list A) (off n : nat).

Lemma length_slice off n l :
  (off + n ≤ length l)%nat → length (slice off n l) = n.
Proof. intros. unfold slice. rewrite length_take, length_drop. lia. Qed.

Lemma length_splice off d l :
  (off + length d ≤ length l)%nat → length (splice off d l) = length l.
Proof.
  intros. unfold splice. rewrite !length_app, length_take, length_drop. lia.
Qed.

Lemma slice_splice_eq off d l :
  (off + length d ≤ length l)%nat → slice off (length d) (splice off d l) = d.
Proof.
  intros. unfold slice, splice.
  rewrite drop_app_length' by (rewrite length_take; lia).
  by rewrite take_app_length.
Qed.

Lemma lookup_splice off d l i :
  (off + length d ≤ length l)%nat →
  splice off d l !! i =
    if decide (off ≤ i < off + length d)%nat then d !! (i - off)%nat else l !! i.
Proof.
  intros Hlen. unfold splice. case_decide as Hi.
  - rewrite lookup_app_r by (rewrite length_take; lia).
    rewrite length_take, Nat.min_l by lia.
    by rewrite lookup_app_l by lia.
  - destruct (decide (i < off)%nat).
    + rewrite lookup_app_l by (rewrite length_take; lia).
      by rewrite lookup_take_lt.
    + rewrite lookup_app_r by (rewrite length_take; lia).
      rewrite length_take, Nat.min_l by lia.
      rewrite lookup_app_r by lia. rewrite lookup_drop. f_equal. lia.
Qed.

Lemma lookup_slice off n l i :
  slice off n l !! i = if decide (i < n)%nat then l !! (off + i)%nat else None.
Proof.
  unfold slice. case_decide.
  - by rewrite lookup_take_lt, lookup_drop.
  - rewrite lookup_take_ge; [done|lia].
Qed.

(** A write leaves every disjoint range as it was. *)
Lemma slice_splice_ne off d l off' n' :
  (off + length d ≤ length l)%nat →
  (off' + n' ≤ off ∨ off + length d ≤ off')%nat →
  slice off' n' (splice off d l) = slice off' n' l.
Proof.
  intros Hlen Hdis. apply list_eq. intros i. rewrite !lookup_slice.
  case_decide; [|done]. rewrite lookup_splice by done.
  case_decide; [lia|done].
Qed.

(** A write inside a range that is read back shows up at its place. *)
Lemma slice_splice_inside off d l off' n' :
  (off' ≤ off)%nat → (off + length d ≤ off' + n')%nat → (off' + n' ≤ length l)%nat →
  slice off' n' (splice off d l) = splice (off - off') d (slice off' n' l).
Proof.
  intros H1 H2 H3. apply list_eq. intros i.
  rewrite lookup_slice, !lookup_splice, lookup_slice
    by (rewrite ?length_slice; lia).
  repeat case_decide; try lia; try done.
  f_equal. lia.
Qed.

Lemma slice_app_l off n l1 l2 :
  (off + n ≤ length l1)%nat → slice off n (l1 ++ l2) = slice off n l1.
Proof.
  intros H. unfold slice. rewrite drop_app_le by lia.
  by rewrite take_app_le by (rewrite length_drop; lia).
Qed.

Lemma slice_app_r off n l1 l2 :
  (length l1 ≤ off)%nat → slice off n (l1 ++ l2) = slice (off - length l1) n l2.
Proof. intros H. unfold slice. by rewrite drop_app_ge by lia. Qed.

(** A piece of a concatenation. *)
Lemma slice_at pre x post l off n :
  l = pre ++ x ++ post → length pre = off → length x = n → slice off n l = x.
Proof.
  intros -> <- <-. unfold slice. rewrite drop_app_length. apply take_app_length.
Qed.

Lemma slice_full n l : length l = n → slice 0 n l = l.
Proof. intros <-. unfold slice. simpl. apply firstn_all. Qed.

(** The [i]-th of equally long pieces. *)
Lemma slice_concat (ls : list (list A)) sz : ∀ i x,
  Forall (λ y, length y = sz) ls → ls !! i = Some x → slice (sz * i) sz (concat ls) = x.
Proof.
  induction ls as [|y ls IH]; intros i x Hall Hi; [done|].
  apply Forall_cons_iff in Hall as [Hy Hall]. destruct i as [|i]; simpl in *; simplify_eq.
  - rewrite Nat.mul_0_r, slice_app_l by lia. by apply slice_full.
  - rewrite slice_app_r by lia. rewrite <-(IH i x Hall Hi). f_equal. lia.
Qed.

(** Writing behind the first part of a concatenation, or over one of its pieces. *)
Lemma splice_app_r off d l1 l2 :
  (length l1 ≤ off)%nat → splice off d (l1 ++ l2) = l1 ++ splice (off - length l1) d l2.
Proof.
  intros H. unfold splice. rewrite take_app_ge, drop_app_ge by lia.
  rewrite <-app_assoc. do 3 f_equal. f_equal. lia.
Qed.

Lemma splice_app_l off d l1 l2 :
  (off + length d ≤ length l1)%nat → splice off d (l1 ++ l2) = splice off d l1 ++ l2.
Proof.
  intros H. unfold splice. rewrite take_app_le, drop_app_le by lia. by rewrite <-!app_assoc.
Qed.

Lemma concat_insert (ls : list (list A)) sz x : ∀ i,
  Forall (λ y, length y = sz) ls → length x = sz → (i < length ls)%nat →
  concat (<[i := x]> ls) = splice (sz * i) x (concat ls).
Proof.
  induction ls as [|y ls IH]; intros i Hall Hx Hi; simpl in Hi; [lia|].
  apply Forall_cons_iff in Hall as [Hy Hall]. destruct i as [|i]; simpl.
  - rewrite Nat.mul_0_r, splice_app_l by lia. f_equal. unfold splice. simpl.
    rewrite drop_ge by lia. by rewrite app_nil_r.
  - rewrite splice_app_r by lia. f_equal. rewrite (IH i Hall Hx) by lia. f_equal. lia.
Qed.

Lemma length_concat_const (ls : list (list A)) sz :
  Forall (λ y, length y = sz) ls → length (concat ls) = (sz * length ls)%nat.
Proof. induction 1 as [|y ls Hy Hall IH]; simpl; [lia|]. rewrite length_app, IH, Hy. lia. Qed.
End regions.

(** Reads the field [x] that comes after the fields [pre]. *)
Ltac read_field pre x :=
  erewrite (slice_at pre x);
  [|rewrite <-?app_assoc; reflexivity
   |rewrite ?length_app; cbn [length]; lia
   |done].

Lemma splice_ok off d l : bytes_ok l → bytes_ok d → bytes_ok (splice off d l).
Proof.
  intros Hl Hd. unfold splice. rewrite !Forall_app.
  split_and!; [by apply Forall_take|done|by apply Forall_drop].
Qed.

Lemma slice_ok off n l : bytes_ok l → bytes_ok (slice off n l).
Proof. intros Hl. by apply Forall_take, Forall_drop. Qed.

#[export] Hint Resolve le_bytes_ok be_bytes_ok splice_ok slice_ok : word.

(** ** Lists whose elements are pairwise related *)

Fixpoint pairwise {A} (R : A → A → Prop) (l : list A) : Prop :=
  match l with [] => True | x :: l' => Forall (R x) l' ∧ pairwise R l' end.

Section pairwise.
Context {A : Type} (R : A → A → Prop).

Lemma pairwise_app l1 l2 :
  pairwise R (l1 ++ l2) ↔
  pairwise R l1 ∧ pairwise R l2 ∧ Forall (λ x, Forall (R x) l2) l1.
Proof.
  induction l1 as [|x l1 IH]; simpl.
  - split; [by intros|by intros (? & ? & ?)].
  - rewrite IH, Forall_app, Forall_cons_iff. tauto.
Qed.

Lemma pairwise_perm `{!Symmetric R} l1 l2 : l1 ≡ₚ l2 → pairwise R l1 → pairwise R l2.
Proof.
  induction 1 as [|x l1 l2 Hp IH|x y l|]; simpl; [done| | |by auto].
  - intros [H1 H2]. split; [by rewrite <-Hp|auto].
  - rewrite !Forall_cons_iff. intros [[H1 H2] [H3 H4]]. split_and!; auto.
Qed.
End pairwise.

Lemma pairwise_lookup {A} (R : A → A → Prop) l i j x y : pairwise R l → (i < j)%nat → l !! i = Some x → l !! j = Some y → R x y.
Proof.
  revert i j. induction l as [|z l IH]; intros i j Hp Hij Hi Hj; [done|]. destruct Hp as [Hz Hp]. destruct j as [|j]; [lia|].
  destruct i as [|i]; cbn in *; [|eapply (IH i j); try done; lia]. injection Hi as ->. rewrite list.Forall_forall in Hz.
  apply Hz. by eapply list_elem_of_lookup_2.
Qed.

Lemma Forall2_zip {A B} (R : A → B → Prop) l1 l2 : Forall2 R l1 l2 ↔ length l1 = length l2 ∧ Forall (λ x, R x.1 x.2) (zip l1 l2).
Proof.
  split.
  - induction 1 as [|x y l1 l2 Hxy _ [IH1 IH2]]; [done|]. cbn. split; [by f_equal|]. by constructor.
  - revert l2. induction l1 as [|x l1 IH]; intros [|y l2] [Hl Hz]; try done. cbn in Hz. apply Forall_cons_iff in Hz as [Hz1 Hz2].
    constructor; [done|]. apply IH. split; [by injection Hl|done].
Qed.

Lemma Forall2_pairs {A B} (R : A → B → Prop) (l : list (A * B)) : Forall2 R (map fst l) (map snd l) ↔ Forall (λ x, R x.1 x.2) l.
Proof.
  induction l as [|[x y] l IH]; [done|]. cbn [map fst snd]. rewrite Forall_cons_iff, <-IH. split.
  - by intros [? ?]%Forall2_cons_1.
  - intros [? ?]. by constructor.
Qed.

Lemma pairwise_le_insert l1 l2 b k b' :
  pairwise Z.le (l1 ++ b :: b' :: l2) → b ≤ k ≤ b' → pairwise Z.le (l1 ++ b :: k :: b' :: l2).
Proof.
  rewrite !pairwise_app. intros (H1 & [Hb [Hb' H2]] & H3) Hk. split; [done|]. split; [split; [|split; [|by split]]|].
  - apply Forall_cons_iff in Hb as [Hb Hb2]. constructor; [lia|]. by constructor.
  - constructor; [lia|]. eapply Forall_impl; [|exact Hb']. cbn. lia.
  - eapply Forall_impl; [|exact H3]. cbn. intros x Hx. apply Forall_cons_iff in Hx as [Hx1 Hx]. constructor; [done|]. constructor; [lia|done].
Qed.


(** ** Filters *)

Section filters.
Context {A : Type} (P : A → Prop) `{!∀ x, Decision (P x)}.

Lemma filter_all l : Forall P l → filter P l = l.
Proof. induction 1; [done|]. rewrite filter_cons_True by done. by f_equal. Qed.

Lemma filter_none l : Forall (λ x, ¬ P x) l → filter P l = [].
Proof. induction 1; [done|]. by rewrite filter_cons_False. Qed.

(** A list whose first part satisfies [P] and whose second part does not. *)
Lemma filter_prefix l1 l2 : Forall P l1 → Forall (λ x, ¬ P x) l2 → filter P (l1 ++ l2) = l1.
Proof. intros H1 H2. by rewrite list.filter_app, filter_all, filter_none, app_nil_r. Qed.

Lemma filter_suffix l1 l2 : Forall (λ x, ¬ P x) l1 → Forall P l2 → filter P (l1 ++ l2) = l2.
Proof. intros H1 H2. by rewrite list.filter_app, filter_none, filter_all. Qed.
End filters.

(** ** Stateful code that can stop

    A C++ function that reads and writes the shared state [W] is a function
    [W → outcome W A].  [Fault] is a run that does not return: an [assert] that
    fails, an uncaught exception, an access outside an array or through a null
    pointer, a conversion of a floating-point number that is out of the range of the
    integer type, or a loop that has used up the number of iterations the model
    gives it. *)
Inductive fault := AssertFailed | Thrown | OutOfBounds | NullPointer | DivideByZero | BadConversion | OutOfFuel.

#[global] Instance fault_eq_dec : EqDecision fault.
Proof. solve_decision. Defined.

Inductive outcome (W A : Type) :=
  | Done (a : A) (w : W)
  | Fault (f : fault) (w : W).
Arguments Done {_ _} _ _.
Arguments Fault {_ _} _ _.

Definition M (W A : Type) : Type := W → outcome W A.

#[global] Instance M_ret {W} : MRet (M W) := λ A a w, Done a w.
#[global] Instance M_bind {W} : MBind (M W) := λ A B k m w,
  match m w with Done a w' => k a w' | Fault f w' => Fault f w' end.

Definition get {W} : M W W := λ w, Done w w.
Definition gets {W A} (f : W → A) : M W A := λ w, Done (f w) w.
Definition modify {W} (f : W → W) : M W unit := λ w, Done tt (f w).
Definition raise {W A} (f : fault) : M W A := λ w, Fault f w.
Definition assert_ {W} (b : bool) : M W unit := if b then mret tt else raise AssertFailed.

(** Runs a computation on a component [S] of the state [W]. *)
Definition zoom {W S A} (proj : W → S) (put : S → W → W) (m : M S A) : M W A := λ w,
  match m (proj w) with
  | Done a s => Done a (put s w)
  | Fault f s => Fault f (put s w)
  end.

(** A loop of at most [p] iterations whose body either goes on with a new loop
    state ([inl]) or leaves the loop with a result ([inr]).  The bound is binary,
    so that the source's bound of 1000000 attempts can be run as it is. *)
Fixpoint loop {W S A} (p : positive) (body : S → M W (S + A)) (s : S) : M W (S + A) :=
  let again (q : positive) (r : S + A) : M W (S + A) :=
    match r with inl s' => loop q body s' | inr a => mret (inr a) end in
  match p with
  | xH => body s
  | xO q => loop q body s ≫= again q
  | xI q => body s ≫= λ r, again q r ≫= again q
  end.

(** [for (auto& x : l) body(x)] *)
Fixpoint for_each {W X} (l : list X) (body : X → M W unit) : M W unit :=
  match l with
  | [] => mret tt
  | x :: l' => body x ≫= λ _, for_each l' body
  end.

Section monad_laws.
Context {W A B C : Type}.

Lemma bind_ret (a : A) (k : A → M W B) w : (mret a ≫= k) w = k a w.
Proof. done. Qed.

Lemma bind_assoc (m : M W A) (k : A → M W B) (h : B → M W C) w :
  ((m ≫= k) ≫= h) w = (m ≫= λ a, k a ≫= h) w.
Proof. unfold mbind, M_bind. by destruct (m w). Qed.

Lemma bind_done (m : M W A) (k : A → M W B) w a w' :
  m w = Done a w' → (m ≫= k) w = k a w'.
Proof. unfold mbind, M_bind. by intros ->. Qed.

Lemma bind_fault (m : M W A) (k : A → M W B) w f w' :
  m w = Fault f w' → (m ≫= k) w = Fault f w'.
Proof. unfold mbind, M_bind. by intros ->. Qed.

Lemma bind_inv (m : M W A) (k : A → M W B) w b w' :
  (m ≫= k) w = Done b w' → ∃ a w1, m w = Done a w1 ∧ k a w1 = Done b w'.
Proof. unfold mbind, M_bind. destruct (m w); naive_solver. Qed.
End monad_laws.

(** The same loop with a unary bound, to reason about the iterations one by one. *)
Fixpoint loop_nat {W S A} (n : nat) (body : S → M W (S + A)) (s : S) : M W (S + A) :=
  match n with
  | O => mret (inl s)
  | Datatypes.S n' => body s ≫= λ r,
      match r with inl s' => loop_nat n' body s' | inr a => mret (inr a) end
  end.

Lemma loop_nat_add {W S A} (body : S → M W (S + A)) n1 n2 : ∀ s w,
  loop_nat (n1 + n2) body s w =
    (loop_nat n1 body s ≫= λ r,
       match r with inl s' => loop_nat n2 body s' | inr a => mret (inr a) end) w.
Proof.
  induction n1 as [|n1 IH]; intros s w; [done|].
  cbn [Nat.add loop_nat]. rewrite bind_assoc. unfold mbind, M_bind.
  destruct (body s w) as [[s'|a] w'|]; [|done..]. apply IH.
Qed.

Lemma loop_loop_nat {W S A} (body : S → M W (S + A)) p : ∀ s w,
  loop p body s w = loop_nat (Pos.to_nat p) body s w.
Proof.
  induction p as [q IH|q IH|]; intros s w.
  - rewrite Pos2Nat.inj_xI. cbn [loop loop_nat]. unfold mbind, M_bind.
    destruct (body s w) as [[s1|a] w1|]; [|done..].
    replace (2 * Pos.to_nat q)%nat with (Pos.to_nat q + Pos.to_nat q)%nat by lia.
    rewrite loop_nat_add, IH. unfold mbind, M_bind.
    by destruct (loop_nat (Pos.to_nat q) body s1 w1) as [[s2|a] w2|].
  - rewrite Pos2Nat.inj_xO. cbn [loop].
    replace (2 * Pos.to_nat q)%nat with (Pos.to_nat q + Pos.to_nat q)%nat by lia.
    rewrite loop_nat_add. unfold mbind, M_bind. rewrite IH.
    by destruct (loop_nat (Pos.to_nat q) body s w) as [[s2|a] w2|].
  - simpl. unfold mbind, M_bind. by destruct (body s w) as [[s'|a] w'|].
Qed.

(** The loop unrolls one iteration at a time. *)
Lemma loop_succ {W S A} (body : S → M W (S + A)) p s w :
  loop (Pos.succ p) body s w =
    (body s ≫= λ r, match r with inl s' => loop p body s' | inr a => mret (inr a) end) w.
Proof.
  rewrite loop_loop_nat, Pos2Nat.inj_succ. cbn [loop_nat]. unfold mbind, M_bind.
  destruct (body s w) as [[s'|a] w'|]; [|done..]. by rewrite loop_loop_nat.
Qed.

(** The first iteration of a bounded loop. *)
Lemma loop_unroll {W S A} (body : S → M W (S + A)) p s w :
  loop p body s w =
    match body s w with
    | Done (inl s') w' => if decide (p = xH) then Done (inl s') w'
                          else loop (Pos.pred p) body s' w'
    | o => o
    end.
Proof.
  destruct (decide (p = xH)) as [->|Hp].
  - simpl. by destruct (body s w) as [[]|].
  - rewrite <-(Pos.succ_pred p Hp) at 1. rewrite loop_succ.
    unfold mbind, M_bind. by destruct (body s w) as [[]|].
Qed.

(** A loop whose body leaves it at once returns that result. *)
Lemma loop_done {W S A} (body : S → M W (S + A)) p s w a w' :
  body s w = Done (inr a) w' → loop p body s w = Done (inr a) w'.
Proof. intros H. by rewrite loop_unroll, H. Qed.

(** A first iteration that ends with the result of [m] is [m]. *)
Lemma loop_finish {W S A} (body : S → M W (S + A)) p s w (m : M W A) w1 (g : S → M W A) :
  body s w = (a ← m; mret (inr a)) w1 →
  (r ← loop p body s; match r with inl s' => g s' | inr a => mret a end) w = m w1.
Proof.
  intros H. unfold mbind, M_bind in *. rewrite loop_unroll, H. by destruct (m w1).
Qed.

(** An invariant of the body is an invariant of the loop. *)
Lemma loop_inv {W S A} (I : S → W → Prop) (Q : A → W → Prop) (body : S → M W (S + A)) :
  (∀ s w r w', I s w → body s w = Done r w' →
     match r with inl s' => I s' w' | inr a => Q a w' end) →
  ∀ p s w r w', I s w → loop p body s w = Done r w' →
     match r with inl s' => I s' w' | inr a => Q a w' end.
Proof.
  intros Hbody p. induction p as [|p IH] using Pos.peano_ind; intros s w r w' HI Hrun.
  - exact (Hbody s w r w' HI Hrun).
  - rewrite loop_succ in Hrun. apply bind_inv in Hrun as (r1 & w1 & Hb & Hk).
    specialize (Hbody s w r1 w1 HI Hb).
    destruct r1 as [s'|a]; [exact (IH s' w1 r w' Hbody Hk)|]. by injection Hk as <- <-.
Qed.

(** ** Computations that leave an observation of the state alone *)

Definition keeps {W B A} (obs : W → B) (m : M W A) : Prop := ∀ w a w', m w = Done a w' → obs w' = obs w.

Create HintDb keeps discriminated.

Section keeps.
Context {W B : Type} (obs : W → B).

Lemma keeps_ret {A} (a : A) : keeps obs (mret a).
Proof. by intros w b w' [= _ <-]. Qed.
Lemma keeps_get : keeps obs get.
Proof. by intros w b w' [= _ <-]. Qed.
Lemma keeps_gets {A} (f : W → A) : keeps obs (gets f).
Proof. by intros w b w' [= _ <-]. Qed.
Lemma keeps_raise {A} f : keeps obs (raise (A := A) f).
Proof. by intros w b w'. Qed.
Lemma keeps_assert b : keeps obs (assert_ b).
Proof. destruct b; [apply keeps_ret|apply keeps_raise]. Qed.
Lemma keeps_modify f : (∀ w, obs (f w) = obs w) → keeps obs (modify f).
Proof. by intros H w b w' [= _ <-]. Qed.

Lemma keeps_bind {A A'} (m : M W A) (k : A → M W A') : keeps obs m → (∀ a, keeps obs (k a)) → keeps obs (m ≫= k).
Proof. intros Hm Hk w a w' (b & w1 & H1 & H2)%bind_inv. rewrite (Hk _ _ _ _ H2). by apply (Hm _ _ _ H1). Qed.

Lemma keeps_loop {S A} (body : S → M W (S + A)) p : (∀ s, keeps obs (body s)) → ∀ s, keeps obs (loop p body s).
Proof.
  intros Hb s w r w' H.
  assert (match r with inl _ => obs w' = obs w | inr _ => obs w' = obs w end) as Hr; [|by destruct r].
  eapply (loop_inv (λ _ v, obs v = obs w) (λ _ v, obs v = obs w) body); [|done|exact H].
  intros s0 v r0 v' Hv Hd. rewrite (Hb _ _ _ _ Hd) in *. by destruct r0.
Qed.
End keeps.

(** A computation on a component: the observation reads that component, or none of it. *)
Lemma keeps_zoom {W S A B B'} (proj : W → S) put (obs : S → B') (obs' : W → B) (m : M S A) :
  (∀ s w, obs s = obs (proj w) → obs' (put s w) = obs' w) → keeps obs m → keeps obs' (zoom proj put m).
Proof.
  intros Hp Hm w a w'. unfold zoom. destruct (m (proj w)) as [b s|] eqn:E; [|done]. intros [= _ <-].
  by apply Hp, (Hm _ _ _ E).
Qed.
Lemma keeps_zoom_free {W S A B} (proj : W → S) put (obs' : W → B) (m : M S A) :
  (∀ s w, obs' (put s w) = obs' w) → keeps obs' (zoom proj put m).
Proof. intros Hp. apply (keeps_zoom _ _ (λ _, tt)); [intros; apply Hp|done]. Qed.

#[export] Hint Resolve keeps_ret keeps_get keeps_gets keeps_raise keeps_assert keeps_bind keeps_loop : keeps.

(** Walks through a program: binds, choices, and calls with a lemma of their own. *)
Ltac keeps_step :=
  match goal with
  | |- keeps _ (if ?b then _ else _) => destruct b
  | |- keeps _ (match ?x with _ => _ end) => destruct x
  | |- keeps _ (_ ≫= _) => apply keeps_bind
  | |- keeps _ (loop _ _ _) => apply keeps_loop
  | |- keeps _ (let _ := _ in _) => intros
  | |- ∀ _, _ => intros
  | |- keeps _ _ => solve [auto with keeps]
  end.
Ltac keeps := repeat (cbv zeta; keeps_step).
