(* ===== verification/GlobalAddress.v ===== *)
(** * Global addresses (src/rdma/global_address.hpp)

    A [GlobalAddress] is a 50-bit word: an 8-bit memory-server index above a
    42-bit offset.  It is kept as the [Z] value of its bit-field [raw : 50] (the
    [padding] field is never read).  Every implicit conversion of the C++ type
    goes through [GlobalAddress(uint64_t)], which keeps the low 50 bits. *)

From S2P Require Import Prelude.

Abbreviation GlobalAddress := Z (only parsing).

(** The literal mask [0x0003FFFFFFFFFFULL]. *)
Definition offset_mask : Z := 0x0003FFFFFFFFFF.

(** [GlobalAddress(uint64_t address)] *)
Definition ga_of_u64 (address : Z) : GlobalAddress := wrap 50 address.

(** [GlobalAddress(uint8_t index, uint64_t off)] *)
Definition ga_make (index off : Z) : GlobalAddress :=
  wrap 50 (Z.lor (Z.shiftl (u8 index) 42) (Z.land off offset_mask)).

Definition server_index (a : GlobalAddress) : Z := u8 (Z.shiftr a 42).
Definition offset (a : GlobalAddress) : Z := Z.land a offset_mask.
Definition Null : GlobalAddress := ga_of_u64 0.

(** [leaf_address + n]: the address decays to [uintptr_t], the sum is 64-bit,
    and the result is converted back. *)
Definition ga_add (a : GlobalAddress) (n : Z) : GlobalAddress := ga_of_u64 (u64 (a + n)).

#[global] Arguments ga_make : simpl never.
#[global] Arguments server_index : simpl never.
#[global] Arguments offset : simpl never.
#[global] Arguments ga_add : simpl never.

Definition ga_ok (a : GlobalAddress) : Prop := in_width 50 a.

Lemma offset_mask_ones : offset_mask = Z.ones 42.
Proof. reflexivity. Qed.

Lemma offset_mod a : offset a = a mod 2 ^ 42.
Proof. unfold offset. rewrite offset_mask_ones. by apply Z.land_ones. Qed.

Lemma server_index_div a : ga_ok a → server_index a = a / 2 ^ 42.
Proof.
  intros [H1 H2]. unfold server_index. rewrite Z.shiftr_div_pow2 by lia.
  apply wrap_small. unfold in_width.
  split; [apply Z.div_pos; lia|]. apply Z.div_lt_upper_bound; lia.
Qed.

(** The constructor places the index above the offset. *)
Lemma ga_make_eq index off :
  ga_make index off = u8 index * 2 ^ 42 + off mod 2 ^ 42.
Proof.
  unfold ga_make. rewrite offset_mask_ones, Z.land_ones by lia.
  rewrite lor_disjoint_add.
  - rewrite Z.shiftl_mul_pow2 by lia. apply wrap_small. unfold in_width.
    pose proof (wrap_in_width 8 index ltac:(lia)) as [? ?].
    pose proof (Z.mod_pos_bound off (2 ^ 42) ltac:(lia)). lia.
  - apply Z.bits_inj'. intros i Hi.
    rewrite Z.land_spec, Z.bits_0, Z.shiftl_spec by lia.
    destruct (decide (i < 42)) as [Hlt|Hge].
    + rewrite Z.testbit_neg_r by lia. done.
    + rewrite (Z.mod_pow2_bits_high off) by lia. apply andb_false_r.
Qed.

Lemma ga_make_ok index off : ga_ok (ga_make index off).
Proof. apply wrap_in_width. lia. Qed.

Lemma ga_of_u64_ok a : ga_ok (ga_of_u64 a).
Proof. apply wrap_in_width. lia. Qed.

#[export] Hint Resolve ga_make_ok ga_of_u64_ok : word.

Lemma server_index_make index off :
  in_width 8 index → server_index (ga_make index off) = index.
Proof.
  intros Hi. rewrite server_index_div by auto with word.
  rewrite ga_make_eq, wrap_small by done.
  rewrite Z.div_add_l by lia. rewrite Z.div_small; [lia|].
  apply Z.mod_pos_bound. lia.
Qed.

Lemma offset_make index off :
  in_width 42 off → offset (ga_make index off) = off.
Proof.
  intros Ho. rewrite offset_mod, ga_make_eq, Z.add_comm, Z.mod_add by lia.
  rewrite Z.mod_mod by lia. by apply Z.mod_small.
Qed.

(** Packing a server index and an offset and unpacking them is the identity
    in both directions: the two accessors recover an 8-bit index and a 42-bit
    offset, and every 50-bit address is the packing of its own components. *)
Theorem ga_roundtrip index off a :
  in_width 8 index → in_width 42 off → ga_ok a →
  server_index (ga_make index off) = index ∧
  offset (ga_make index off) = off ∧
  ga_make (server_index a) (offset a) = a.
Proof.
  intros Hi Ho Ha. split_and!.
  - by apply server_index_make.
  - by apply offset_make.
  - rewrite ga_make_eq, server_index_div, offset_mod, Z.mod_mod by (done || lia).
    rewrite wrap_small.
    + rewrite (Z.div_mod a (2 ^ 42)) at 3 by lia. lia.
    + rewrite <-server_index_div by done. apply wrap_in_width. lia.
Qed.

Lemma ga_roundtrip_witness :
  server_index (ga_make 7 1024) = 7 ∧ offset (ga_make 7 1024) = 1024 ∧
  ga_make (server_index (ga_make 7 1024)) (offset (ga_make 7 1024)) = ga_make 7 1024.
Proof.
  apply (ga_roundtrip 7 1024 (ga_make 7 1024));
    unfold ga_ok, in_width; vm_compute; split; congruence.
Defined.

(** Address arithmetic inside one server's offset range: neither the server nor
    the position leaves it. *)
Lemma ga_add_make index off n :
  in_width 8 index → 0 ≤ off → 0 ≤ n → off + n < 2 ^ 42 →
  ga_add (ga_make index off) n = ga_make index (off + n).
Proof.
  intros Hi Ho Hn Hs. unfold ga_add, ga_of_u64.
  rewrite !ga_make_eq, !(wrap_small 8 index) by done.
  rewrite !(Z.mod_small _ (2 ^ 42)) by lia.
  unfold in_width in Hi. rewrite !wrap_small; unfold in_width; try lia.
  rewrite wrap_small; unfold in_width; lia.
Qed.

Lemma ga_add_small a n : ga_ok a → 0 ≤ n → a + n < 2 ^ 50 → ga_add a n = a + n.
Proof.
  intros [H1 H2] Hn Hs. unfold ga_add, ga_of_u64.
  rewrite (wrap_small 64), wrap_small; unfold in_width; lia.
Qed.
