(* ===== verification/ArrayVar.v ===== *)
(** * Fixed-size byte strings used as keys and values (src/util/array_var.hpp)

    [ArrayVar<N>] is modelled as the list of its [N] bytes, [data_[0]] first.  The
    theorems relate every operation to the big-endian number the bytes stand
    for: comparison by [memcmp] is the numeric order, and [+=], [-=] and the
    integer constructor are arithmetic modulo [256^N].  The index components rely
    on this file when they keep a key as that number. *)

From S2P Require Import Prelude.

Abbreviation ArrayVar := (list Z) (only parsing).

(** An [ArrayVar<N>] object: [N] bytes. *)
Definition av_ok (N : nat) (a : ArrayVar) : Prop := length a = N ∧ bytes_ok a.

(** [ArrayVar()] *)
Definition av_default (N : nat) : ArrayVar := replicate N 0.

(** [ArrayVar(uint64_t v)]: the loop over [i], which fills from the last byte. *)
Fixpoint of_u64_loop (N n i : nat) (data : list Z) (v : Z) : list Z :=
  match n with
  | O => data
  | S n' =>
      let idx := (N - 1 - i)%nat in
      if (i <? 8)%nat
      then of_u64_loop N n' (S i) (<[idx := u8 (Z.land v 0xFF)]> data) (Z.shiftr v 8)
      else of_u64_loop N n' (S i) (<[idx := 0]> data) v
  end.

Definition av_of_u64 (N : nat) (v : Z) : ArrayVar := of_u64_loop N N 0 (replicate N 0) v.

(** [ArrayVar(const uint8_t* src, size_t size)] *)
Definition av_of_bytes (N : nat) (src : list Z) (size : nat) : ArrayVar :=
  splice 0 (take (Nat.min size N) src) (replicate N 0).

(** [std::memcmp] on equally long byte strings: only the sign is specified. *)
Fixpoint memcmp (a b : list Z) : Z :=
  match a, b with
  | x :: a', y :: b' => if x <? y then -1 else if y <? x then 1 else memcmp a' b'
  | _, _ => 0
  end.

Definition av_eqb (a b : ArrayVar) : bool := memcmp a b =? 0.
Definition av_ltb (a b : ArrayVar) : bool := memcmp a b <? 0.
Definition av_leb (a b : ArrayVar) : bool := memcmp a b <=? 0.
Definition av_neb (a b : ArrayVar) : bool := negb (memcmp a b =? 0).
Definition av_gtb (a b : ArrayVar) : bool := 0 <? memcmp a b.
Definition av_geb (a b : ArrayVar) : bool := 0 <=? memcmp a b.

(** [operator+=]: byte-wise addition with a carry, from the last byte. *)
Fixpoint add_loop (N n i : nat) (data : list Z) (carry v : Z) : list Z :=
  match n with
  | O => data
  | S n' =>
      let idx := (N - 1 - i)%nat in
      let add := u16 (carry + (if (i <? 8)%nat then u8 (Z.land v 0xFF) else 0)) in
      let sum := u16 (data !!! idx + add) in
      add_loop N n' (S i) (<[idx := u8 (Z.land sum 0xFF)]> data)
        (if 0xFF <? sum then 1 else 0)
        (if (i <? 8)%nat then Z.shiftr v 8 else v)
  end.

Definition av_add (a : ArrayVar) (v : Z) : ArrayVar := add_loop (length a) (length a) 0 a 0 v.

(** [operator-=]: byte-wise subtraction with a borrow. *)
Fixpoint sub_loop (N n i : nat) (data : list Z) (borrow v : Z) : list Z :=
  match n with
  | O => data
  | S n' =>
      let idx := (N - 1 - i)%nat in
      let sub := borrow + (if (i <? 8)%nat then u8 (Z.land v 0xFF) else 0) in
      let cur := data !!! idx in
      let res := cur - sub in
      let '(res, borrow) := if res <? 0 then (res + 256, 1) else (res, 0) in
      sub_loop N n' (S i) (<[idx := u8 (Z.land res 0xFF)]> data) borrow
        (if (i <? 8)%nat then Z.shiftr v 8 else v)
  end.

Definition av_sub (a : ArrayVar) (v : Z) : ArrayVar := sub_loop (length a) (length a) 0 a 0 v.

(** [ArrayVar::min()] and [ArrayVar::max()] *)
Definition av_min (N : nat) : ArrayVar := replicate N 0.
Definition av_max (N : nat) : ArrayVar := replicate N 0xFF.

(** [std::hash<ArrayVar<N>>] *)
Definition av_hash (a : ArrayVar) : Z := fold_left (λ h b, u64 (h * 31 + b)) a 0.

(** ** Bytes and their big-endian value *)

Lemma u8_land_ff v : 0 ≤ v → u8 (Z.land v 0xFF) = v mod 256.
Proof.
  intros Hv. change 0xFF with (Z.ones 8). rewrite Z.land_ones by lia.
  apply wrap_small. unfold in_width. apply Z.mod_pos_bound. lia.
Qed.

Lemma shiftr_8 v : Z.shiftr v 8 = v / 256.
Proof. by rewrite Z.shiftr_div_pow2 by lia. Qed.

(** Overwriting the byte of weight [256^i]. *)
Lemma be_val_insert l i x :
  (i < length l)%nat →
  be_val (<[(length l - 1 - i)%nat := x]> l) =
    be_val l + (x - l !!! (length l - 1 - i)%nat) * 256 ^ Z.of_nat i.
Proof.
  induction l as [|b l IH]; simpl length; intros Hi; [lia|].
  destruct (decide (i = length l)) as [->|Hne].
  - replace (S (length l) - 1 - length l)%nat with O by lia. simpl.
    rewrite !be_val_cons. lia.
  - replace (S (length l) - 1 - i)%nat with (S (length l - 1 - i)) by lia. simpl.
    rewrite !be_val_cons, length_insert, IH by lia. lia.
Qed.

Lemma bytes_ok_insert i x l : byte_ok x → bytes_ok l → bytes_ok (<[i := x]> l).
Proof. intros Hx Hl. apply Forall_insert; auto. Qed.

Lemma bytes_ok_lookup_total l i : bytes_ok l → byte_ok (l !!! i).
Proof.
  intros Hl. destruct (decide (i < length l)%nat) as [Hi|Hi].
  - by apply Forall_lookup_total_1.
  - rewrite list_lookup_total_alt, lookup_ge_None_2 by lia.
    unfold byte_ok, in_width. simpl. lia.
Qed.

Lemma mod_256_ok v : byte_ok (v mod 256).
Proof. unfold byte_ok, in_width. apply (Z.mod_pos_bound v 256). lia. Qed.

Lemma bytes_ok_replicate n x : byte_ok x → bytes_ok (replicate n x).
Proof. intros Hx. apply Forall_replicate, Hx. Qed.

#[export] Hint Resolve bytes_ok_insert mod_256_ok bytes_ok_replicate : word.

(** The number still to be added is what is left of a 64-bit word. *)
Definition rest_ok (i : nat) (v : Z) : Prop := 0 ≤ v ∧ ((8 ≤ i)%nat → v = 0).

Lemma rest_ok_step i v :
  rest_ok i v → v < 2 ^ (64 - 8 * Z.of_nat i) ∨ (8 ≤ i)%nat →
  rest_ok (S i) (if (i <? 8)%nat then v / 256 else v) ∧
  ((if (i <? 8)%nat then v / 256 else v) < 2 ^ (64 - 8 * Z.of_nat (S i)) ∨ (8 ≤ S i)%nat) ∧
  v = (if (i <? 8)%nat then v mod 256 else 0) + 256 * (if (i <? 8)%nat then v / 256 else v).
Proof.
  intros [H0 H8] Hlt. destruct (Nat.ltb_spec i 8) as [Hi|Hi].
  - destruct Hlt as [Hlt|]; [|lia].
    assert (v / 256 < 2 ^ (64 - 8 * Z.of_nat (S i))) as Hq.
    { apply Z.div_lt_upper_bound; [lia|]. change 256 with (2 ^ 8).
      rewrite <-Z.pow_add_r by lia.
      replace (8 + (64 - 8 * Z.of_nat (S i))) with (64 - 8 * Z.of_nat i) by lia. done. }
    pose proof (Z.div_pos v 256). pose proof (Z.div_mod v 256).
    split_and!; [split; [lia|]|by left|lia].
    intros Hi'. replace (S i) with 8%nat in Hq by lia. simpl in Hq. lia.
  - specialize (H8 Hi) as ->. split_and!; [split; lia|right; lia|lia].
Qed.

Lemma add_loop_spec N n : ∀ i data carry v,
  (n + i = N)%nat → av_ok N data → 0 ≤ carry ≤ 1 → rest_ok i v →
  (v < 2 ^ (64 - 8 * Z.of_nat i) ∨ (8 ≤ i)%nat) →
  av_ok N (add_loop N n i data carry v) ∧
  be_val (add_loop N n i data carry v) mod 256 ^ Z.of_nat N =
    (be_val data + (carry + v) * 256 ^ Z.of_nat i) mod 256 ^ Z.of_nat N.
Proof.
  induction n as [|n IH]; intros i data carry v HN Hd Hc Hv Hlt; cbn [add_loop].
  - simpl in HN. subst i. split; [done|]. by rewrite Z.mod_add by lia.
  - destruct Hd as [Hlen Hok].
    destruct (rest_ok_step i v Hv Hlt) as (Hv' & Hlt' & Hsplit).
    rewrite shiftr_8, (u8_land_ff v) by apply Hv.
    set (low := if (i <? 8)%nat then v mod 256 else 0) in *.
    set (v' := if (i <? 8)%nat then v / 256 else v) in *.
    assert (0 ≤ low < 256) as Hlow.
    { unfold low. destruct (i <? 8)%nat; [apply Z.mod_pos_bound|]; lia. }
    set (idx := (N - 1 - i)%nat).
    pose proof (bytes_ok_lookup_total data idx Hok) as Hb.
    unfold byte_ok, in_width in Hb. change (2 ^ 8) with 256 in Hb.
    rewrite (wrap_small 16 (carry + low)), (wrap_small 16 (data !!! idx + _))
      by (unfold in_width; lia).
    set (sum := data !!! idx + (carry + low)).
    rewrite u8_land_ff by (unfold sum; lia).
    assert ((if 0xFF <? sum then 1 else 0) = sum / 256) as ->.
    { unfold sum in *. bool_cases; Z.div_mod_to_equations; lia. }
    destruct (IH (S i) (<[idx:=sum mod 256]> data) (sum / 256) v') as [IH1 IH2];
      [lia| |unfold sum; Z.div_mod_to_equations; lia|done|done|].
    { split; [by rewrite length_insert|auto with word]. }
    split; [done|]. rewrite IH2. f_equal.
    rewrite Nat2Z.inj_succ, Z.pow_succ_r by lia.
    unfold idx. rewrite <-Hlen, be_val_insert by lia.
    rewrite Hlen. fold idx. pose proof (Z.div_mod sum 256). unfold sum in *. nia.
Qed.

Lemma sub_loop_spec N n : ∀ i data borrow v,
  (n + i = N)%nat → av_ok N data → 0 ≤ borrow ≤ 1 → rest_ok i v →
  (v < 2 ^ (64 - 8 * Z.of_nat i) ∨ (8 ≤ i)%nat) →
  av_ok N (sub_loop N n i data borrow v) ∧
  be_val (sub_loop N n i data borrow v) mod 256 ^ Z.of_nat N =
    (be_val data - (borrow + v) * 256 ^ Z.of_nat i) mod 256 ^ Z.of_nat N.
Proof.
  induction n as [|n IH]; intros i data borrow v HN Hd Hc Hv Hlt; cbn [sub_loop].
  - simpl in HN. subst i. split; [done|].
    rewrite <-Z.add_opp_r, <-Z.mul_opp_l. by rewrite Z.mod_add by lia.
  - destruct Hd as [Hlen Hok].
    destruct (rest_ok_step i v Hv Hlt) as (Hv' & Hlt' & Hsplit).
    rewrite shiftr_8, (u8_land_ff v) by apply Hv.
    set (low := if (i <? 8)%nat then v mod 256 else 0) in *.
    set (v' := if (i <? 8)%nat then v / 256 else v) in *.
    assert (0 ≤ low < 256) as Hlow.
    { unfold low. destruct (i <? 8)%nat; [apply Z.mod_pos_bound|]; lia. }
    set (idx := (N - 1 - i)%nat).
    pose proof (bytes_ok_lookup_total data idx Hok) as Hb.
    unfold byte_ok, in_width in Hb. change (2 ^ 8) with 256 in Hb.
    set (res := data !!! idx - (borrow + low)).
    assert (∃ r b, (if res <? 0 then (res + 256, 1) else (res, 0)) = (r, b) ∧
      0 ≤ r < 256 ∧ 0 ≤ b ≤ 1 ∧ r = res + 256 * b) as (r & b & -> & Hr & Hbb & Hrb).
    { unfold res. destruct (Z.ltb_spec (data !!! idx - (borrow + low)) 0);
        eexists _, _; split_and!; try reflexivity; lia. }
    rewrite u8_land_ff, (Z.mod_small r) by lia.
    destruct (IH (S i) (<[idx:=r]> data) b v') as [IH1 IH2]; [lia| |done|done|done|].
    { split; [by rewrite length_insert|apply bytes_ok_insert; auto]. }
    split; [done|]. rewrite IH2. f_equal.
    rewrite Nat2Z.inj_succ, Z.pow_succ_r by lia.
    unfold idx. rewrite <-Hlen, be_val_insert by lia.
    rewrite Hlen. fold idx. unfold res in *. nia.
Qed.

Lemma of_u64_loop_spec N n : ∀ i data v,
  (n + i = N)%nat → av_ok N data → rest_ok i v →
  (v < 2 ^ (64 - 8 * Z.of_nat i) ∨ (8 ≤ i)%nat) →
  (∀ j, (j < N - i)%nat → data !!! j = 0) →
  av_ok N (of_u64_loop N n i data v) ∧
  be_val (of_u64_loop N n i data v) mod 256 ^ Z.of_nat N =
    (be_val data + v * 256 ^ Z.of_nat i) mod 256 ^ Z.of_nat N.
Proof.
  induction n as [|n IH]; intros i data v HN Hd Hv Hlt Hz; cbn [of_u64_loop].
  - simpl in HN. subst i. split; [done|]. by rewrite Z.mod_add by lia.
  - destruct Hd as [Hlen Hok].
    destruct (rest_ok_step i v Hv Hlt) as (Hv' & Hlt' & Hsplit).
    rewrite shiftr_8, (u8_land_ff v) by apply Hv.
    set (low := if (i <? 8)%nat then v mod 256 else 0) in *.
    set (v' := if (i <? 8)%nat then v / 256 else v) in *.
    set (idx := (N - 1 - i)%nat).
    replace (if (i <? 8)%nat then _ else _)
      with (of_u64_loop N n (S i) (<[idx:=low]> data) v')
      by (unfold low, v', idx; by destruct (i <? 8)%nat).
    assert (byte_ok low) as Hlow.
    { unfold low. destruct (i <? 8)%nat; [apply mod_256_ok|].
      unfold byte_ok, in_width. lia. }
    destruct (IH (S i) (<[idx:=low]> data) v') as [IH1 IH2]; [lia| |done|done| |].
    { split; [by rewrite length_insert|auto with word]. }
    { intros j Hj. rewrite list_lookup_total_insert_ne by lia. apply Hz. lia. }
    split; [done|]. rewrite IH2. f_equal.
    rewrite Nat2Z.inj_succ, Z.pow_succ_r by lia.
    unfold idx. rewrite <-Hlen, be_val_insert by lia.
    rewrite Hlen, Hz by lia. lia.
Qed.

Lemma av_ok_val_mod N a : av_ok N a → be_val a mod 256 ^ Z.of_nat N = be_val a.
Proof. intros [<- Hok]. by apply Z.mod_small, be_val_range. Qed.

Lemma be_val_inj a b :
  length a = length b → bytes_ok a → bytes_ok b → be_val a = be_val b → a = b.
Proof.
  intros Hl Ha Hb Heq. rewrite <-(be_bytes_be_val a), <-(be_bytes_be_val b) by done.
  by rewrite Hl, Heq.
Qed.

Lemma be_val_min N : be_val (av_min N) = 0.
Proof.
  unfold av_min. induction N as [|N IH]; [done|].
  simpl. rewrite be_val_cons, IH. lia.
Qed.

Lemma be_val_max N : be_val (av_max N) = 256 ^ Z.of_nat N - 1.
Proof.
  unfold av_max. induction N as [|N IH]; [done|].
  rewrite Nat2Z.inj_succ, Z.pow_succ_r by lia. simpl replicate.
  rewrite be_val_cons, IH, length_replicate. lia.
Qed.

Lemma u64_rest_ok v : in_width 64 v → rest_ok 0 v ∧ v < 2 ^ (64 - 8 * Z.of_nat 0).
Proof. intros [H1 H2]. split; [split; [done|lia]|done]. Qed.

(** The sign of [memcmp] is the sign of the comparison of the big-endian values. *)
Lemma memcmp_compare a b :
  length a = length b → bytes_ok a → bytes_ok b →
  memcmp a b = match be_val a ?= be_val b with Lt => -1 | Eq => 0 | Gt => 1 end.
Proof.
  revert b. induction a as [|x a IH]; intros [|y b] Hl Ha Hb; simpl in Hl; try lia; [done|].
  inversion Ha as [|?? Hx Ha']. inversion Hb as [|?? Hy Hb']. subst.
  rewrite !be_val_cons. simpl memcmp. injection Hl as Hl.
  pose proof (be_val_range a Ha') as Ra. pose proof (be_val_range b Hb') as Rb.
  rewrite <-Hl in Rb |- *. unfold byte_ok, in_width in *.
  set (p := 256 ^ Z.of_nat (length a)) in *.
  destruct (Z.ltb_spec x y) as [Hxy|Hxy].
  { assert (x * p + be_val a < y * p + be_val b) as Hlt by nia.
    by rewrite (proj2 (Z.compare_lt_iff _ _) Hlt). }
  destruct (Z.ltb_spec y x) as [Hyx|Hyx].
  { assert (y * p + be_val b < x * p + be_val a) as Hgt by nia.
    by rewrite (proj2 (Z.compare_gt_iff _ _) Hgt). }
  assert (x = y) as -> by lia. rewrite IH by done.
  by rewrite Z.add_compare_mono_l.
Qed.

(** Equality by [memcmp] is equality of the bytes. *)
Lemma av_eqb_val N a b : av_ok N a → av_ok N b → av_eqb a b = (be_val a =? be_val b).
Proof.
  intros [Hla Ha] [Hlb Hb]. unfold av_eqb. rewrite memcmp_compare by congruence.
  destruct (Z.compare_spec (be_val a) (be_val b)); bool_cases; try done; lia.
Qed.
Lemma av_eqb_true N a b : av_ok N a → av_ok N b → av_eqb a b = true ↔ a = b.
Proof.
  intros Ha Hb. rewrite (av_eqb_val N), Z.eqb_eq by done. destruct Ha, Hb.
  split; [|by intros ->]. apply be_val_inj; congruence.
Qed.

(** The six comparison operators of [ArrayVar<N>], which call [memcmp], are
    the comparisons of the big-endian numbers the two byte strings stand for;
    equality of the numbers is equality of the bytes. *)
Theorem av_compare_spec N a b :
  av_ok N a → av_ok N b →
  av_ltb a b = (be_val a <? be_val b) ∧ av_leb a b = (be_val a <=? be_val b) ∧
  av_eqb a b = (be_val a =? be_val b) ∧ av_neb a b = negb (be_val a =? be_val b) ∧
  av_gtb a b = (be_val b <? be_val a) ∧ av_geb a b = (be_val b <=? be_val a) ∧
  (av_eqb a b = true ↔ a = b).
Proof.
  intros Ha Hb. pose proof (av_eqb_val N a b Ha Hb) as Heqb. pose proof (av_eqb_true N a b Ha Hb) as Htrue.
  destruct Ha as [Hla Ha], Hb as [Hlb Hb]. rewrite Heqb in Htrue |- *.
  unfold av_ltb, av_leb, av_neb, av_gtb, av_geb. unfold av_eqb in Heqb. rewrite Heqb, memcmp_compare by congruence.
  split_and!; try done; (destruct (Z.compare_spec (be_val a) (be_val b)); bool_cases; try done; simpl in *; lia).
Qed.

Lemma av_compare_spec_witness :
  av_ltb [1; 200] [2; 3] = (be_val [1; 200] <? be_val [2; 3]) ∧
  av_ltb [1; 200] [2; 3] = true.
Proof.
  split; [|reflexivity].
  apply (av_compare_spec 2 [1; 200] [2; 3]); split; [done| |done|];
    repeat constructor; unfold byte_ok, in_width; simpl; lia.
Defined.

Lemma av_of_u64_spec N v :
  in_width 64 v →
  av_ok N (av_of_u64 N v) ∧ be_val (av_of_u64 N v) = v mod 256 ^ Z.of_nat N.
Proof.
  intros Hv. destruct (u64_rest_ok v Hv) as [Hr Hlt].
  destruct (of_u64_loop_spec N N 0 (replicate N 0) v) as [C1 C2]; [lia| |done|by left| |].
  { split; [apply length_replicate|]. apply bytes_ok_replicate.
    unfold byte_ok, in_width. lia. }
  { intros j Hj. by rewrite lookup_total_replicate_2 by lia. }
  split; [done|]. unfold av_of_u64.
  rewrite <-(av_ok_val_mod N), C2 by done. fold (av_min N). rewrite be_val_min.
  f_equal. lia.
Qed.

Lemma av_add_spec N a v :
  av_ok N a → in_width 64 v →
  av_ok N (av_add a v) ∧ be_val (av_add a v) = (be_val a + v) mod 256 ^ Z.of_nat N.
Proof.
  intros Ha Hv. destruct (u64_rest_ok v Hv) as [Hr Hlt].
  destruct (add_loop_spec N N 0 a 0 v) as [A1 A2]; [lia|done|lia|done|by left|].
  unfold av_add. rewrite (proj1 Ha). split; [done|].
  rewrite <-(av_ok_val_mod N), A2 by done. f_equal. lia.
Qed.

Lemma av_sub_spec N a v :
  av_ok N a → in_width 64 v →
  av_ok N (av_sub a v) ∧ be_val (av_sub a v) = (be_val a - v) mod 256 ^ Z.of_nat N.
Proof.
  intros Ha Hv. destruct (u64_rest_ok v Hv) as [Hr Hlt].
  destruct (sub_loop_spec N N 0 a 0 v) as [A1 A2]; [lia|done|lia|done|by left|].
  unfold av_sub. rewrite (proj1 Ha). split; [done|].
  rewrite <-(av_ok_val_mod N), A2 by done. f_equal. lia.
Qed.

(** The integer constructor, [+=] and [-=] are arithmetic modulo [256^N] on
    the big-endian value: the constructor stores [v mod 256^N], carries and
    borrows past the first byte are discarded, and subtracting what was added
    restores the bytes.  The results are [N] bytes. *)
Theorem av_arith_spec N a v :
  av_ok N a → in_width 64 v →
  (av_ok N (av_of_u64 N v) ∧ be_val (av_of_u64 N v) = v mod 256 ^ Z.of_nat N) ∧
  (av_ok N (av_add a v) ∧ be_val (av_add a v) = (be_val a + v) mod 256 ^ Z.of_nat N) ∧
  (av_ok N (av_sub a v) ∧ be_val (av_sub a v) = (be_val a - v) mod 256 ^ Z.of_nat N) ∧
  av_sub (av_add a v) v = a.
Proof.
  intros Ha Hv. destruct (av_add_spec N a v Ha Hv) as [A1 A2].
  pose proof (av_of_u64_spec N v Hv) as [? ?]. pose proof (av_sub_spec N a v Ha Hv) as [? ?].
  split_and!; try done.
  destruct (av_sub_spec N (av_add a v) v A1 Hv) as [[Sl S1] S2], Ha as [Hl Ha].
  apply be_val_inj; [congruence|done|done|].
  rewrite S2, A2, Zminus_mod_idemp_l. replace (be_val a + v - v) with (be_val a) by lia.
  by apply av_ok_val_mod.
Qed.

Lemma av_arith_spec_witness :
  be_val (av_add [0; 255; 255] 1) = (be_val [0; 255; 255] + 1) mod 256 ^ 3 ∧
  av_add [0; 255; 255] 1 = [1; 0; 0].
Proof.
  split; [|reflexivity].
  apply (av_arith_spec 3 [0; 255; 255] 1); [split; [done|]|unfold in_width; lia].
  repeat constructor; unfold byte_ok, in_width; simpl; lia.
Defined.
