(* ===== verification/RdmaSim.v ===== *)
(** * The simulated RDMA verbs (src/rdma/rdma_simulation.hpp, .cpp)

    One memory server's region is its byte array [memory_].  [rdma_read],
    [rdma_write], [rdma_cas] and [rdma_faa] are translated with their bound
    checks, which add in 64 bits; a word is eight bytes, least significant first,
    as on the x86-64 target.  A descriptor [RDMAOp] carries the union of the four
    operations; the buffer behind a pointer is its contents ([None] is a null
    pointer), and the variable behind [cas.expected] is its value, whose new
    value the verb returns. *)

From S2P Require Import Prelude GlobalAddress.

Inductive RDMAOpType := READ | WRITE | CAS | FAA.

#[global] Instance RDMAOpType_eq_dec : EqDecision RDMAOpType.
Proof. solve_decision. Defined.

(** The union of [RDMAOp]; [read_buffer] says whether the pointer is not null. *)
Inductive op_union :=
  | op_read (read_buffer : bool) (bytes : Z)
  | op_write (buffer : option (list Z)) (bytes : Z)
  | op_cas (expected desired : Z)
  | op_faa (increment : Z).

Record RDMAOp := mkOp { addr : GlobalAddress; op : op_union }.

Definition type_ (o : RDMAOp) : RDMAOpType :=
  match op o with
  | op_read _ _ => READ | op_write _ _ => WRITE | op_cas _ _ => CAS | op_faa _ => FAA
  end.

(** What a verb hands back through the pointers of its descriptor. *)
Inductive op_out :=
  | out_none
  | out_bytes (data : list Z)
  | out_expected (v : Z)
  | out_old (v : Z).

Abbreviation memory := (list Z) (only parsing).

Definition memory_size (m : memory) : Z := Z.of_nat (length m).

(** [RDMASimulation(size_t memory_size)] *)
Definition RDMASimulation_init (memory_size : nat) : memory := replicate memory_size 0.

(** [reinterpret_cast<uint64_t*>(&memory_[a])] *)
Definition load64 (a : Z) (m : memory) : Z := le_val (slice (Z.to_nat a) 8 m).
Definition store64 (a v : Z) (m : memory) : memory := splice (Z.to_nat a) (le_bytes 8 v) m.

Definition rdma_read (a : Z) (read_buffer : bool) (bytes : Z) : M memory (bool * op_out) :=
  m ← get;
  if (memory_size m <? u64 (a + bytes)) || negb read_buffer
  then raise AssertFailed
  else mret (true, out_bytes (slice (Z.to_nat a) (Z.to_nat bytes) m)).

Definition rdma_write (a : Z) (buffer : option (list Z)) (bytes : Z) : M memory (bool * op_out) :=
  m ← get;
  match buffer with
  | Some data =>
      if memory_size m <? u64 (a + bytes) then mret (false, out_none)
      else _ ← modify (splice (Z.to_nat a) (take (Z.to_nat bytes) data));
           mret (true, out_none)
  | None => mret (false, out_none)
  end.

Definition rdma_cas (a expected desired : Z) : M memory (bool * op_out) :=
  m ← get;
  if memory_size m <? u64 (a + 8) then mret (false, out_expected expected)
  else
    let cur := load64 a m in
    if cur =? expected
    then _ ← modify (store64 a desired); mret (true, out_expected expected)
    else mret (true, out_expected cur).

(** Returns the previous value, 0 when the word is out of range. *)
Definition rdma_faa (a increment : Z) : M memory Z :=
  m ← get;
  if u64 (a + 8) <=? memory_size m
  then _ ← modify (store64 a (u64 (load64 a m + increment))); mret (load64 a m)
  else mret 0.

(** The verb of a descriptor, its address already local. *)
Definition rdma_verb (o : RDMAOp) : M memory (bool * op_out) :=
  match op o with
  | op_read buf bytes => rdma_read (addr o) buf bytes
  | op_write buf bytes => rdma_write (addr o) buf bytes
  | op_cas expected desired => rdma_cas (addr o) expected desired
  | op_faa increment => old ← rdma_faa (addr o) increment; mret (true, out_old old)
  end.

(** [coalesce_ops]: the results are dropped. *)
Definition coalesce_ops (ops : list RDMAOp) : M memory unit :=
  for_each ops (λ o, _ ← rdma_verb o; mret tt).

(** ** Well-formed memories and descriptors *)

Definition mem_ok (m : memory) : Prop := bytes_ok m ∧ memory_size m < 2 ^ 62.

(** Descriptors as the program builds them: a buffer holds at least [bytes]
    bytes, sizes fit the address space, words are 64-bit. *)
Definition op_ok (o : RDMAOp) : Prop :=
  0 ≤ addr o < 2 ^ 50 ∧
  match op o with
  | op_read _ bytes => 0 ≤ bytes < 2 ^ 62
  | op_write buf bytes => 0 ≤ bytes < 2 ^ 62 ∧
      match buf with Some d => bytes_ok d ∧ bytes ≤ Z.of_nat (length d) | None => True end
  | op_cas e d => in_width 64 e ∧ in_width 64 d
  | op_faa _ => True
  end.

(** The range of bytes a verb may change. *)
Definition op_range (o : RDMAOp) : Z * Z :=
  match op o with
  | op_read _ _ => (addr o, 0)
  | op_write _ bytes => (addr o, bytes)
  | op_cas _ _ | op_faa _ => (addr o, 8)
  end.

Lemma u64_sum_small a n : 0 ≤ a < 2 ^ 50 → 0 ≤ n < 2 ^ 62 → u64 (a + n) = a + n.
Proof. intros. apply wrap_small. unfold in_width. lia. Qed.

Lemma length_store64 a v m :
  0 ≤ a → a + 8 ≤ memory_size m → length (store64 a v m) = length m.
Proof.
  intros Ha Hr. apply length_splice. rewrite length_le_bytes. unfold memory_size in Hr. lia.
Qed.

Lemma load64_store64 a v m :
  0 ≤ a → a + 8 ≤ memory_size m → in_width 64 v → load64 a (store64 a v m) = v.
Proof.
  intros Ha Hr Hv. unfold load64, store64.
  rewrite <-(length_le_bytes 8 v) at 1.
  rewrite slice_splice_eq by (rewrite length_le_bytes; unfold memory_size in Hr; lia).
  rewrite le_val_le_bytes. apply Z.mod_small. apply Hv.
Qed.

Lemma store64_load64 a m :
  bytes_ok m → 0 ≤ a → a + 8 ≤ memory_size m → store64 a (load64 a m) m = m.
Proof.
  intros Hm Ha Hr. unfold load64, store64, memory_size in *.
  set (s := slice (Z.to_nat a) 8 m).
  assert (length s = 8%nat) as Hs by (apply length_slice; lia).
  rewrite <-Hs, le_bytes_le_val by (apply slice_ok, Hm).
  apply list_eq. intros i. rewrite lookup_splice by lia. case_decide; [|done].
  unfold s. rewrite lookup_slice, decide_True by lia. f_equal. lia.
Qed.

(** The last store to a word wins. *)
Lemma store64_store64 a v w m :
  0 ≤ a → a + 8 ≤ memory_size m → store64 a v (store64 a w m) = store64 a v m.
Proof.
  intros Ha Hr. unfold store64, memory_size in *. apply list_eq. intros i.
  rewrite !lookup_splice by (rewrite ?length_splice, ?length_le_bytes; lia || rewrite length_le_bytes; lia).
  rewrite !length_le_bytes. by case_decide.
Qed.

Lemma load64_range a m : bytes_ok m → 0 ≤ a → a + 8 ≤ memory_size m → in_width 64 (load64 a m).
Proof.
  intros Hm Ha Hr. unfold load64, in_width, memory_size in *.
  pose proof (le_val_range (slice (Z.to_nat a) 8 m) (slice_ok _ _ _ Hm)) as H.
  rewrite length_slice in H by lia. apply H.
Qed.

(** Words that do not overlap are independent. *)
Lemma load64_store64_ne a b v m :
  0 ≤ a → 0 ≤ b → b + 8 ≤ memory_size m → (a + 8 ≤ b ∨ b + 8 ≤ a) →
  load64 a (store64 b v m) = load64 a m.
Proof.
  intros Ha Hb Hr Hd. unfold load64, store64, memory_size in *.
  rewrite slice_splice_ne; [done|rewrite length_le_bytes; lia..].
Qed.

Lemma store64_ok a v m : bytes_ok m → bytes_ok (store64 a v m).
Proof. intros. apply splice_ok; auto with word. Qed.

(** How every verb returns: it faults only on a READ outside the region. *)
Lemma rdma_verb_cases o m :
  op_ok o → mem_ok m →
  (∃ r, rdma_verb o m = Done r m) ∨
  rdma_verb o m = Fault AssertFailed m ∨
  (∃ d out, rdma_verb o m = Done (true, out) (splice (Z.to_nat (addr o)) d m) ∧
     bytes_ok d ∧ Z.of_nat (length d) = (op_range o).2 ∧
     addr o + (op_range o).2 ≤ memory_size m).
Proof.
  intros [Ha Ho] Hm. unfold rdma_verb, op_range.
  destruct o as [a [buf bytes|buf bytes|e d|inc]]; simpl in *;
    unfold rdma_read, rdma_write, rdma_cas, rdma_faa, mbind, M_bind, get, mret, M_ret,
      modify, raise.
  - rewrite u64_sum_small by lia. destruct (_ || _); eauto.
  - destruct Ho as [Hb Hbuf]. destruct buf as [d|]; [|eauto].
    rewrite u64_sum_small by lia. bool_cases; [eauto|]. right. right.
    exists (take (Z.to_nat bytes) d), out_none. split_and!; [done| | |lia].
    + by apply Forall_take, Hbuf.
    + rewrite length_take. lia.
  - rewrite u64_sum_small by lia. bool_cases; [eauto| |eauto]. right. right.
    exists (le_bytes 8 d), (out_expected e). unfold store64.
    split_and!; [done|auto with word|by rewrite length_le_bytes|lia].
  - rewrite u64_sum_small by lia. bool_cases; [|eauto]. right. right.
    eexists (le_bytes 8 _), _. unfold store64.
    split_and!; [done|auto with word|by rewrite length_le_bytes|lia].
Qed.

Lemma verb_preserves_ok o m r m' :
  op_ok o → mem_ok m → rdma_verb o m = Done r m' →
  mem_ok m' ∧ length m' = length m.
Proof.
  intros Ho Hm Hrun. destruct (rdma_verb_cases o m Ho Hm)
    as [[r' H]|[H|(d & out & H & Hd & Hlen & Hr)]]; rewrite H in Hrun; simplify_eq.
  - done.
  - unfold mem_ok, memory_size in *. destruct Ho as [Ha _].
    rewrite length_splice by lia. destruct Hm. split_and!; auto using splice_ok.
Qed.

(** C27: every verb that returns keeps the region a byte array of its size and
    changes no byte outside the range its descriptor names (none for a READ). *)
Theorem rdma_verb_frame o m r m' a n :
  op_ok o → mem_ok m → rdma_verb o m = Done r m' →
  0 ≤ a → 0 ≤ n → a + n ≤ memory_size m →
  (a + n ≤ (op_range o).1 ∨ (op_range o).1 + (op_range o).2 ≤ a) →
  mem_ok m' ∧ length m' = length m ∧
  slice (Z.to_nat a) (Z.to_nat n) m' = slice (Z.to_nat a) (Z.to_nat n) m.
Proof.
  intros Ho Hm Hrun Ha Hn Hr Hdis.
  destruct (verb_preserves_ok o m r m' Ho Hm Hrun) as [Hm' Hlen'].
  split_and!; [done|done|].
  destruct (rdma_verb_cases o m Ho Hm)
    as [[r' H]|[H|(d & out & H & Hd & Hlen & Hrr)]]; rewrite H in Hrun; simplify_eq; [done|].
  assert ((op_range o).1 = addr o) as Hfst by (unfold op_range; by destruct (op o)).
  destruct Ho as [Hao _]. unfold memory_size in *. apply slice_splice_ne; lia.
Qed.

Lemma rdma_verb_frame_witness :
  let m := RDMASimulation_init 32 in
  let o := mkOp 8 (op_write (Some [1; 2; 3]) 3) in
  slice 0 8 (splice 8 [1; 2; 3] m) = slice 0 8 m.
Proof.
  intros m o.
  apply (rdma_verb_frame o m (true, out_none) (splice 8 [1; 2; 3] m) 0 8).
  - split; [simpl; lia|]. simpl. split; [lia|]. split; [|lia].
    repeat constructor; unfold byte_ok, in_width; lia.
  - split; [|vm_compute; congruence]. apply Forall_replicate.
    unfold byte_ok, in_width. lia.
  - reflexivity.
  - lia.
  - lia.
  - unfold memory_size. simpl. lia.
  - simpl. lia.
Defined.

(** Functional behaviour of the four verbs inside the region: READ after
    WRITE returns the bytes written; CAS installs [desired] exactly when the word
    equals [expected] and otherwise reports the word and writes nothing; FAA adds
    modulo [2^64] and returns the previous word. *)
Theorem rdma_verbs_spec a m (data : list Z) e d inc :
  mem_ok m → 0 ≤ a < 2 ^ 50 → bytes_ok data → in_width 64 e → in_width 64 d →
  let n := Z.of_nat (length data) in
  a + n ≤ memory_size m → a + 8 ≤ memory_size m →
  (∃ m', rdma_write a (Some data) n m = Done (true, out_none) m' ∧
         rdma_read a true n m' = Done (true, out_bytes data) m') ∧
  (∃ m', rdma_cas a e d m =
           Done (true, out_expected (load64 a m)) m' ∧
         load64 a m' = (if load64 a m =? e then d else load64 a m) ∧
         (load64 a m ≠ e → m' = m)) ∧
  (∃ m', rdma_faa a inc m = Done (load64 a m) m' ∧
         load64 a m' = u64 (load64 a m + inc)).
Proof.
  intros [Hm Hsz] Ha Hdata He Hd n Hn H8.
  unfold rdma_write, rdma_read, rdma_cas, rdma_faa, mbind, M_bind, get, mret, M_ret,
    modify, raise.
  assert (0 ≤ n < 2 ^ 62) by (unfold n in *; lia).
  rewrite (u64_sum_small a n), (u64_sum_small a 8) by lia.
  rewrite !(proj2 (Z.ltb_ge _ _)) by lia. rewrite (proj2 (Z.leb_le _ _)) by lia.
  unfold n. rewrite Nat2Z.id, firstn_all. split_and!.
  - eexists. split; [done|].
    assert (memory_size (splice (Z.to_nat a) data m) = memory_size m) as ->.
    { unfold memory_size. rewrite length_splice; [done|]. unfold memory_size, n in *. lia. }
    rewrite (proj2 (Z.ltb_ge _ _)) by lia. simpl.
    rewrite slice_splice_eq; [done|]. unfold memory_size, n in *. lia.
  - destruct (Z.eqb_spec (load64 a m) e) as [<-|Hne].
    + exists (store64 a d m). split_and!; [done|apply load64_store64; lia || done|done].
    + by exists m.
  - eexists. split; [done|]. apply load64_store64; [lia|lia|apply wrap_in_width; lia].
Qed.

Lemma rdma_verbs_spec_witness :
  ∃ m', rdma_cas 8 0 77 (RDMASimulation_init 32) =
          Done (true, out_expected (load64 8 (RDMASimulation_init 32))) m' ∧ load64 8 m' = 77.
Proof.
  destruct (rdma_verbs_spec 8 (RDMASimulation_init 32) [1; 2] 0 77 1)
    as (_ & (m' & H & H' & _) & _);
    try (unfold in_width; simpl; lia); try (unfold memory_size; simpl; lia).
  - split; [|vm_compute; congruence]. apply Forall_replicate.
    unfold byte_ok, in_width. lia.
  - repeat constructor; unfold byte_ok, in_width; lia.
  - exists m'. split; [exact H|]. rewrite H'. reflexivity.
Defined.
