(* ===== verification/ThreadStats.v ===== *)
(** * Statistics (src/util/thread_stats.hpp, src/util/histogram_latency_sampler.hpp,
    and the recording done by src/util/benchmark.hpp and src/apps/kv_test.cpp)

    The three histograms, the per-operation entries, [ThreadStats] and the
    [ThreadStatsTracker] that accumulates RDMA counters between the beginning and
    the end of an index operation.  Counters keep their widths and wrap.  The
    tracker holds a reference to its [ThreadStats]: here the tracker owns the
    object, and code that updates it through another reference updates it there.

    Latencies are the nanosecond counts the program divides by 1000 to get
    [latency_us]; the bucket of a latency is computed exactly on them, where the
    program rounds [std::log] in double precision. *)

From Stdlib Require Import QArith.
From S2P Require Import Prelude GlobalAddress RdmaSim.
Local Open Scope Z_scope.

(** [a[i]++] on an array of 64-bit counters. *)
Definition incr (i : nat) (l : list Z) : list Z := alter (λ c, u64 (c + 1)) i l.

(** ** DiscreteHistogram *)
Module Discrete.
Definition NUM_BUCKETS : nat := 256.

Record DiscreteHistogram := mk { buckets_ : list Z; total_samples_ : Z }.

Definition init : DiscreteHistogram := mk (replicate NUM_BUCKETS 0) 0.

Definition bucket_idx (value : Z) : nat := Nat.min (Z.to_nat value) (NUM_BUCKETS - 1).

Definition record (value : Z) (h : DiscreteHistogram) : DiscreteHistogram :=
  mk (incr (bucket_idx value) (buckets_ h)) (u64 (total_samples_ h + 1)).

Definition get_count (value : Z) (h : DiscreteHistogram) : Z :=
  buckets_ h !!! bucket_idx value.

Definition get_overflow_count (h : DiscreteHistogram) : Z :=
  buckets_ h !!! (NUM_BUCKETS - 1)%nat.

Definition get_average (h : DiscreteHistogram) : Q :=
  if total_samples_ h =? 0 then 0%Q
  else
    let sum := fold_left (λ acc i, u64 (acc + Z.of_nat i * buckets_ h !!! i))
                 (seq 0 (NUM_BUCKETS - 1)) 0 in
    (inject_Z (u64 (sum + 255 * buckets_ h !!! (NUM_BUCKETS - 1)%nat))
     / inject_Z (total_samples_ h))%Q.

Definition get_distribution (h : DiscreteHistogram) : list (Z * Z) :=
  omap (λ i, let c := buckets_ h !!! i in
             if 0 <? c then Some (Z.of_nat i, c) else None) (seq 0 NUM_BUCKETS).

Definition reset (h : DiscreteHistogram) : DiscreteHistogram := init.
End Discrete.

(** ** LogarithmicByteHistogram *)
Module LogBytes.
Definition NUM_BUCKETS : nat := 32.

Record LogarithmicByteHistogram :=
  mk { buckets_ : list Z; total_samples_ : Z; total_bytes_ : Z }.

Definition init : LogarithmicByteHistogram := mk (replicate NUM_BUCKETS 0) 0 0.

(** The [while] loop of [get_bucket_index]; [bucket] never passes 31. *)
Fixpoint bucket_loop (fuel bucket : nat) (bytes : Z) : nat :=
  match fuel with
  | O => bucket
  | S fuel' =>
      if (Z.shiftl 1 (Z.of_nat bucket) <? bytes) && (bucket <? NUM_BUCKETS - 1)%nat
      then bucket_loop fuel' (S bucket) bytes else bucket
  end.

Definition get_bucket_index (bytes : Z) : nat :=
  if bytes =? 0 then O else bucket_loop NUM_BUCKETS 0 bytes.

Definition get_bucket_center (bucket_idx : nat) : Z :=
  if (bucket_idx =? 0)%nat then 0 else u64 (Z.shiftl 1 (Z.of_nat bucket_idx - 1)).

Definition record (bytes : Z) (h : LogarithmicByteHistogram) : LogarithmicByteHistogram :=
  mk (incr (get_bucket_index bytes) (buckets_ h))
     (u64 (total_samples_ h + 1)) (u64 (total_bytes_ h + bytes)).

(** The value [get_distribution] reports for bucket [i]. *)
Definition bucket_value (i : nat) : Z :=
  if (i =? 0)%nat then 0 else u64 (Z.shiftl 1 (Z.of_nat i)).

Definition get_distribution (h : LogarithmicByteHistogram) : list (Z * Z) :=
  omap (λ i, let c := buckets_ h !!! i in
             if 0 <? c then Some (bucket_value i, c) else None) (seq 0 NUM_BUCKETS).

Definition get_average_bytes (h : LogarithmicByteHistogram) : Q :=
  if total_samples_ h =? 0 then 0%Q
  else (inject_Z (total_bytes_ h) / inject_Z (total_samples_ h))%Q.

Definition reset (h : LogarithmicByteHistogram) : LogarithmicByteHistogram := init.
End LogBytes.

(** ** CacheStats *)
Module CacheStats.
Record t := mk { hits_ : Z; misses_ : Z }.
Definition init : t := mk 0 0.
Definition record_hit (c : t) : t := mk (u64 (hits_ c + 1)) (misses_ c).
Definition record_miss (c : t) : t := mk (hits_ c) (u64 (misses_ c + 1)).
Definition total_accesses (c : t) : Z := u64 (hits_ c + misses_ c).
Definition hit_rate (c : t) : Q :=
  if 0 <? total_accesses c then (inject_Z (hits_ c) / inject_Z (total_accesses c))%Q else 0%Q.
End CacheStats.

(** ** HistogramLatencySampler *)
Module Latency.
Definition NUM_BUCKETS : nat := 32.
(** [MIN_LATENCY_US = 0.5], in nanoseconds. *)
Definition MIN_LATENCY_NS : Z := 500.

Record HistogramLatencySampler :=
  mk { buckets_ : list Z; total_samples_ : Z; overflow_samples_ : Z }.

Definition init : HistogramLatencySampler := mk (replicate NUM_BUCKETS 0) 0 0.

(** [min(floor(log2(latency / MIN)), 31)], and 0 below the minimum. *)
Definition get_bucket_index (latency_ns : Z) : nat :=
  if latency_ns <? MIN_LATENCY_NS then O
  else Nat.min (Z.to_nat (Z.log2 (latency_ns / MIN_LATENCY_NS))) (NUM_BUCKETS - 1).

Definition get_bucket_upper_bound (bucket_idx : nat) : Z :=
  MIN_LATENCY_NS * 2 ^ Z.of_nat bucket_idx.

Definition get_bucket_lower_bound (bucket_idx : nat) : Z :=
  if (bucket_idx =? 0)%nat then 0 else MIN_LATENCY_NS * 2 ^ (Z.of_nat bucket_idx - 1).

Definition add_sample (latency_ns : Z) (h : HistogramLatencySampler) : HistogramLatencySampler :=
  let i := get_bucket_index latency_ns in
  if (i =? NUM_BUCKETS - 1)%nat && (get_bucket_upper_bound i <? latency_ns)
  then mk (buckets_ h) (u64 (total_samples_ h + 1)) (u64 (overflow_samples_ h + 1))
  else mk (incr i (buckets_ h)) (u64 (total_samples_ h + 1)) (overflow_samples_ h).

Definition sample_count (h : HistogramLatencySampler) : Z := total_samples_ h.
Definition has_samples (h : HistogramLatencySampler) : bool := 0 <? total_samples_ h.
End Latency.

(** ** ThreadStats *)

Inductive OperationKind := Insert | Read | Update | Delete.

#[global] Instance OperationKind_eq_dec : EqDecision OperationKind.
Proof. solve_decision. Defined.

Definition kind_idx (k : OperationKind) : nat :=
  match k with Insert => 0 | Read => 1 | Update => 2 | Delete => 3 end.

Definition type_idx (t : RDMAOpType) : nat :=
  match t with READ => 0 | WRITE => 1 | CAS => 2 | FAA => 3 end.

Record OperationEntry := mkEntry {
  successes : Z;
  failures : Z;
  latency_samples : Latency.HistogramLatencySampler;
  rtt_counts_per_op : Discrete.DiscreteHistogram;
  rdma_op_counts_per_op : list Discrete.DiscreteHistogram;
  bytes_read_per_op : LogBytes.LogarithmicByteHistogram;
  bytes_written_per_op : LogBytes.LogarithmicByteHistogram;
  cache_stats : CacheStats.t;
  retry_counts_per_op : Discrete.DiscreteHistogram;
  local_lock_acquisitions : Z;
  local_lock_handovers : Z
}.

Definition entry_init : OperationEntry :=
  mkEntry 0 0 Latency.init Discrete.init (replicate 4 Discrete.init)
    LogBytes.init LogBytes.init CacheStats.init Discrete.init 0 0.

Definition entry_record_operation (latency_ns : Z) (success : bool) (e : OperationEntry)
    : OperationEntry :=
  let '(mkEntry s f l r o br bw c rt la lh) := e in
  if success then mkEntry (u64 (s + 1)) f (Latency.add_sample latency_ns l) r o br bw c rt la lh
  else mkEntry s (u64 (f + 1)) l r o br bw c rt la lh.

Definition entry_record_rtt_count (n : Z) (e : OperationEntry) : OperationEntry :=
  let '(mkEntry s f l r o br bw c rt la lh) := e in
  mkEntry s f l (Discrete.record n r) o br bw c rt la lh.

Definition entry_record_rdma_operation (t : nat) (count : Z) (e : OperationEntry) : OperationEntry :=
  let '(mkEntry s f l r o br bw c rt la lh) := e in
  if (t <? length o)%nat
  then mkEntry s f l r (alter (Discrete.record count) t o) br bw c rt la lh else e.

Definition entry_record_bytes_read (n : Z) (e : OperationEntry) : OperationEntry :=
  let '(mkEntry s f l r o br bw c rt la lh) := e in
  mkEntry s f l r o (LogBytes.record n br) bw c rt la lh.

Definition entry_record_bytes_written (n : Z) (e : OperationEntry) : OperationEntry :=
  let '(mkEntry s f l r o br bw c rt la lh) := e in
  mkEntry s f l r o br (LogBytes.record n bw) c rt la lh.

Definition entry_record_cache (hit : bool) (e : OperationEntry) : OperationEntry :=
  let '(mkEntry s f l r o br bw c rt la lh) := e in
  mkEntry s f l r o br bw
    (if hit then CacheStats.record_hit c else CacheStats.record_miss c) rt la lh.

Definition entry_record_retry_count (n : Z) (e : OperationEntry) : OperationEntry :=
  let '(mkEntry s f l r o br bw c rt la lh) := e in
  mkEntry s f l r o br bw c (Discrete.record n rt) la lh.

Definition entry_record_local_lock_acquisition (was_handover : bool) (e : OperationEntry)
    : OperationEntry :=
  let '(mkEntry s f l r o br bw c rt la lh) := e in
  mkEntry s f l r o br bw c rt (u64 (la + 1)) (if was_handover then u64 (lh + 1) else lh).

(** [OperationEntry::reset] writes every field. *)
Definition entry_reset (e : OperationEntry) : OperationEntry :=
  mkEntry 0 0 Latency.init (Discrete.reset (rtt_counts_per_op e))
    (map Discrete.reset (rdma_op_counts_per_op e))
    (LogBytes.reset (bytes_read_per_op e)) (LogBytes.reset (bytes_written_per_op e))
    CacheStats.init (Discrete.reset (retry_counts_per_op e)) 0 0.

(** [std::array<OperationEntry, Count> per_op] *)
Abbreviation ThreadStats := (list OperationEntry) (only parsing).
Definition stats_init : ThreadStats := replicate 4 entry_init.
Definition on_kind (k : OperationKind) (f : OperationEntry → OperationEntry) (s : ThreadStats)
  : ThreadStats := alter f (kind_idx k) s.
Definition stats_reset (s : ThreadStats) : ThreadStats := map entry_reset s.

(** ** ThreadStatsTracker *)
Record ThreadStatsTracker := mkTracker {
  stats_ : ThreadStats;
  current_op_ : OperationKind;
  tracking_active_ : bool;
  rtt_count_ : Z;
  rdma_op_counts_ : list Z;
  bytes_read_ : Z;
  bytes_written_ : Z;
  retry_count_ : Z
}.

(** [ThreadStatsTracker(stats)]: [current_op_] is not initialised; it is not read
    before [begin_operation] sets it. *)
Definition tracker_init (s : ThreadStats) (garbage : OperationKind) : ThreadStatsTracker :=
  mkTracker s garbage false 0 (replicate 4 0) 0 0 0.

Definition begin_operation (kind : OperationKind) (t : ThreadStatsTracker) : ThreadStatsTracker :=
  mkTracker (stats_ t) kind true 0 (replicate 4 0) 0 0 0.

Definition with_stats (f : ThreadStats → ThreadStats) (t : ThreadStatsTracker) : ThreadStatsTracker :=
  mkTracker (f (stats_ t)) (current_op_ t) (tracking_active_ t) (rtt_count_ t)
    (rdma_op_counts_ t) (bytes_read_ t) (bytes_written_ t) (retry_count_ t).

Definition end_operation (latency_ns : Z) (success : bool) (t : ThreadStatsTracker)
    : ThreadStatsTracker :=
  if negb (tracking_active_ t) then t
  else
    let k := current_op_ t in
    let s := on_kind k (entry_record_operation latency_ns success) (stats_ t) in
    let s := on_kind k (entry_record_rtt_count (rtt_count_ t)) s in
    let s := fold_left (λ s i, let c := rdma_op_counts_ t !!! i in
                         if 0 <? c then on_kind k (entry_record_rdma_operation i c) s else s)
               (seq 0 (length (rdma_op_counts_ t))) s in
    let s := on_kind k (entry_record_bytes_read (bytes_read_ t)) s in
    let s := on_kind k (entry_record_bytes_written (bytes_written_ t)) s in
    let s := on_kind k (entry_record_retry_count (retry_count_ t)) s in
    mkTracker s k false (rtt_count_ t) (rdma_op_counts_ t) (bytes_read_ t)
      (bytes_written_ t) (retry_count_ t).

(** The counter updates for one descriptor, shared by the two recording methods. *)
Definition count_op (o : RDMAOp) (t : ThreadStatsTracker) : ThreadStatsTracker :=
  let ti := type_idx (type_ o) in
  let counts := if (ti <? length (rdma_op_counts_ t))%nat
                then alter (λ c, u32 (c + 1)) ti (rdma_op_counts_ t) else rdma_op_counts_ t in
  mkTracker (stats_ t) (current_op_ t) (tracking_active_ t) (rtt_count_ t) counts
    (match op o with op_read _ n => u64 (bytes_read_ t + n) | _ => bytes_read_ t end)
    (match op o with op_write _ n => u64 (bytes_written_ t + n) | _ => bytes_written_ t end)
    (retry_count_ t).

Definition count_rtt (t : ThreadStatsTracker) : ThreadStatsTracker :=
  mkTracker (stats_ t) (current_op_ t) (tracking_active_ t) (u32 (rtt_count_ t + 1))
    (rdma_op_counts_ t) (bytes_read_ t) (bytes_written_ t) (retry_count_ t).

Definition record_rdma_op (o : RDMAOp) (t : ThreadStatsTracker) : ThreadStatsTracker :=
  if negb (tracking_active_ t) then t else count_op o (count_rtt t).

Definition record_rdma_ops (ops : list RDMAOp) (t : ThreadStatsTracker) : ThreadStatsTracker :=
  if negb (tracking_active_ t) then t else fold_left (λ t o, count_op o t) ops (count_rtt t).

Definition record_cache_hit (t : ThreadStatsTracker) : ThreadStatsTracker :=
  if tracking_active_ t then with_stats (on_kind (current_op_ t) (entry_record_cache true)) t else t.

Definition record_cache_miss (t : ThreadStatsTracker) : ThreadStatsTracker :=
  if tracking_active_ t then with_stats (on_kind (current_op_ t) (entry_record_cache false)) t else t.

Definition record_retry (t : ThreadStatsTracker) : ThreadStatsTracker :=
  if tracking_active_ t
  then mkTracker (stats_ t) (current_op_ t) true (rtt_count_ t) (rdma_op_counts_ t)
         (bytes_read_ t) (bytes_written_ t) (u32 (retry_count_ t + 1))
  else t.

Definition record_local_lock_acquisition (h : bool) (t : ThreadStatsTracker) : ThreadStatsTracker :=
  if tracking_active_ t
  then with_stats (on_kind (current_op_ t) (entry_record_local_lock_acquisition h)) t else t.

(** [OperationRecorder::record_result]: updates the same [ThreadStats] object. *)
Definition record_result (kind : OperationKind) (latency_ns : Z) (success : bool)
  : ThreadStatsTracker → ThreadStatsTracker :=
  with_stats (on_kind kind (entry_record_operation latency_ns success)).

(** The bookkeeping of [perform_put] and [perform_get] in kv_test.cpp around an
    index operation whose own recording is [body]. *)
Definition perform_recorded (kind : OperationKind) (latency_ns : Z) (ok : bool)
    (body : ThreadStatsTracker → ThreadStatsTracker) (t : ThreadStatsTracker) : ThreadStatsTracker :=
  record_result kind latency_ns ok (end_operation latency_ns ok (body (begin_operation kind t))).

(** ** Histograms count every sample exactly once *)

Fixpoint sum_list (l : list Z) : Z :=
  match l with [] => 0 | x :: l' => x + sum_list l' end.

Lemma sum_list_alter l i f x :
  l !! i = Some x → sum_list (alter f i l) = sum_list l + (f x - x).
Proof.
  revert i. induction l as [|y l IH]; intros [|i] Hi; simpl in *; simplify_eq; [lia|].
  change (list_alter f i l) with (alter f i l). rewrite (IH i Hi). lia.
Qed.

(** Incrementing a 64-bit counter changes the sum by one modulo [2^64]. *)
Lemma sum_list_incr i l :
  (i < length l)%nat → u64 (sum_list (incr i l)) = u64 (sum_list l + 1).
Proof.
  intros Hi. destruct (lookup_lt_is_Some_2 l i Hi) as [x Hx].
  unfold incr. rewrite (sum_list_alter _ _ _ x Hx). unfold wrap.
  rewrite <-(Zplus_mod_idemp_r ((x + 1) mod _ - x)), Zminus_mod_idemp_l, Zplus_mod_idemp_r.
  f_equal. lia.
Qed.

Lemma length_incr i l : length (incr i l) = length l.
Proof. unfold incr. apply length_alter. Qed.

Definition discrete_ok (h : Discrete.DiscreteHistogram) : Prop :=
  length (Discrete.buckets_ h) = Discrete.NUM_BUCKETS ∧
  Discrete.total_samples_ h = u64 (sum_list (Discrete.buckets_ h)).

Definition logbytes_ok (h : LogBytes.LogarithmicByteHistogram) : Prop :=
  length (LogBytes.buckets_ h) = LogBytes.NUM_BUCKETS ∧
  LogBytes.total_samples_ h = u64 (sum_list (LogBytes.buckets_ h)).

Definition latency_ok (h : Latency.HistogramLatencySampler) : Prop :=
  length (Latency.buckets_ h) = Latency.NUM_BUCKETS ∧
  Latency.total_samples_ h = u64 (sum_list (Latency.buckets_ h) + Latency.overflow_samples_ h).

Lemma bucket_loop_bounds fuel : ∀ b bytes,
  (b ≤ LogBytes.NUM_BUCKETS - 1)%nat → (LogBytes.NUM_BUCKETS - 1 - b ≤ fuel)%nat →
  (b = O ∨ 2 ^ (Z.of_nat b - 1) < bytes) →
  let r := LogBytes.bucket_loop fuel b bytes in
  (r ≤ LogBytes.NUM_BUCKETS - 1)%nat ∧
  (bytes ≤ 2 ^ Z.of_nat r ∨ r = (LogBytes.NUM_BUCKETS - 1)%nat) ∧
  (r = O ∨ 2 ^ (Z.of_nat r - 1) < bytes).
Proof.
  unfold LogBytes.NUM_BUCKETS.
  induction fuel as [|fuel IH]; intros b bytes Hb Hf Hlow; cbn [LogBytes.bucket_loop].
  - split_and!; [done|right; lia|done].
  - rewrite Z.shiftl_1_l.
    destruct (Z.ltb_spec (2 ^ Z.of_nat b) bytes) as [Hlt|Hge]; simpl.
    + destruct (Nat.ltb_spec b 31) as [Hb'|Hb'].
      * apply IH; [lia|lia|right]. by replace (Z.of_nat (S b) - 1) with (Z.of_nat b) by lia.
      * split_and!; [done|right; lia|done].
    + split_and!; [done|by left|done].
Qed.

Lemma log_bucket_index_bounds bytes :
  0 ≤ bytes →
  let b := LogBytes.get_bucket_index bytes in
  (b ≤ 31)%nat ∧ (bytes ≤ 2 ^ Z.of_nat b ∨ b = 31%nat) ∧
  (b = O ∨ 2 ^ (Z.of_nat b - 1) < bytes).
Proof.
  intros Hb. unfold LogBytes.get_bucket_index. destruct (Z.eqb_spec bytes 0) as [->|Hne].
  - split_and!; [lia|by left|by left].
  - apply (bucket_loop_bounds LogBytes.NUM_BUCKETS 0 bytes); unfold LogBytes.NUM_BUCKETS;
      [lia|lia|by left].
Qed.

Lemma latency_bucket_lt n : (Latency.get_bucket_index n < Latency.NUM_BUCKETS)%nat.
Proof. unfold Latency.get_bucket_index, Latency.NUM_BUCKETS. destruct (_ <? _); lia. Qed.

(** Recording a sample in any of the three histograms keeps the number of
    buckets and keeps [total_samples_] equal to the number of samples held by
    the buckets (and, for latencies, by the overflow counter), whatever the
    sample. *)
Theorem histogram_record_ok v h1 h2 h3 :
  0 ≤ v → discrete_ok h1 → logbytes_ok h2 → latency_ok h3 →
  discrete_ok (Discrete.record v h1) ∧ logbytes_ok (LogBytes.record v h2) ∧
  latency_ok (Latency.add_sample v h3).
Proof.
  intros Hv [L1 T1] [L2 T2] [L3 T3]. split_and!.
  - split; simpl; rewrite ?length_incr; [done|].
    rewrite sum_list_incr, T1, wrap_add_l; [done|].
    rewrite L1. unfold Discrete.bucket_idx, Discrete.NUM_BUCKETS. lia.
  - split; simpl; rewrite ?length_incr; [done|].
    rewrite sum_list_incr, T2, wrap_add_l; [done|].
    rewrite L2. destruct (log_bucket_index_bounds v Hv) as [? _].
    unfold LogBytes.NUM_BUCKETS. lia.
  - unfold Latency.add_sample. destruct (_ && _); split; simpl; rewrite ?length_incr; try done.
    + rewrite T3, wrap_add_l, wrap_add_r. f_equal. lia.
    + rewrite <-(wrap_add_l _ (sum_list _)), sum_list_incr, wrap_add_l, T3, wrap_add_l;
        [f_equal; lia|]. rewrite L3. apply latency_bucket_lt.
Qed.

Lemma histogram_record_ok_witness :
  discrete_ok (Discrete.record 300 Discrete.init) ∧
  logbytes_ok (LogBytes.record 300 LogBytes.init) ∧
  latency_ok (Latency.add_sample 300 Latency.init).
Proof.
  apply (histogram_record_ok 300 Discrete.init LogBytes.init Latency.init);
    [lia|split; vm_compute; reflexivity..].
Defined.

Lemma bucket_index_unique bytes b c :
  (b = O ∨ 2 ^ (Z.of_nat b - 1) < bytes) → bytes ≤ 2 ^ Z.of_nat b →
  (c = O ∨ 2 ^ (Z.of_nat c - 1) < bytes) → bytes ≤ 2 ^ Z.of_nat c → b = c.
Proof.
  intros Hb1 Hb2 Hc1 Hc2. destruct (lt_eq_lt_dec b c) as [[Hlt|]|Hlt]; [exfalso|done|exfalso].
  - assert (2 ^ Z.of_nat b ≤ 2 ^ (Z.of_nat c - 1)) by (apply Z.pow_le_mono_r; lia). lia.
  - assert (2 ^ Z.of_nat c ≤ 2 ^ (Z.of_nat b - 1)) by (apply Z.pow_le_mono_r; lia). lia.
Qed.

(** A byte count lands in the bucket whose range (2^(b-1), 2^b] holds it, the
    last bucket taking everything larger; and the value [get_distribution]
    reports for a bucket is counted in that same bucket when kv_test.cpp feeds
    it back, so that re-aggregating a distribution preserves its buckets. *)
Theorem log_bucket_spec bytes i :
  0 ≤ bytes → (i < LogBytes.NUM_BUCKETS)%nat →
  let b := LogBytes.get_bucket_index bytes in
  (b < LogBytes.NUM_BUCKETS)%nat ∧
  (bytes ≤ 2 ^ Z.of_nat b ∨ b = 31%nat) ∧ (b = O ∨ 2 ^ (Z.of_nat b - 1) < bytes) ∧
  LogBytes.get_bucket_index (LogBytes.bucket_value i) = i.
Proof.
  intros Hb Hi b. unfold LogBytes.NUM_BUCKETS in *.
  destruct (log_bucket_index_bounds bytes Hb) as (B1 & B2 & B3).
  split_and!; [unfold b; lia|done|done|].
  unfold LogBytes.bucket_value. destruct (Nat.eqb_spec i 0) as [->|Hi0]; [done|].
  rewrite Z.shiftl_1_l, wrap_small.
  2:{ split; [apply Z.pow_nonneg; lia|apply Z.pow_lt_mono_r; lia]. }
  destruct (log_bucket_index_bounds (2 ^ Z.of_nat i)) as (C1 & C2 & C3);
    [apply Z.pow_nonneg; lia|].
  destruct C2 as [C2|C2].
  - apply (bucket_index_unique (2 ^ Z.of_nat i)); [done|done| |lia].
    right. apply Z.pow_lt_mono_r; lia.
  - rewrite C2 in *. destruct C3 as [|C3]; [done|].
    destruct (decide (i = 31%nat)) as [->|]; [done|exfalso].
    assert (2 ^ Z.of_nat i ≤ 2 ^ (Z.of_nat 31 - 1)) by (apply Z.pow_le_mono_r; lia). lia.
Qed.

Lemma log_bucket_spec_witness :
  LogBytes.get_bucket_index 1000 = 10%nat ∧
  LogBytes.get_bucket_index (LogBytes.bucket_value 10) = 10%nat.
Proof.
  split; [reflexivity|]. apply (log_bucket_spec 1000 10); [lia|].
  unfold LogBytes.NUM_BUCKETS. lia.
Defined.

(** ** What one tracked operation adds to the statistics *)

(** What an index operation reports to its tracker while it runs. *)
Inductive event :=
  | EvOp (o : RDMAOp)
  | EvBatch (ops : list RDMAOp)
  | EvRetry
  | EvCache (hit : bool).

Definition apply_event (t : ThreadStatsTracker) (e : event) : ThreadStatsTracker :=
  match e with
  | EvOp o => record_rdma_op o t
  | EvBatch ops => record_rdma_ops ops t
  | EvRetry => record_retry t
  | EvCache true => record_cache_hit t
  | EvCache false => record_cache_miss t
  end.

Definition op_bytes_read (o : RDMAOp) : Z := match op o with op_read _ n => n | _ => 0 end.
Definition op_bytes_written (o : RDMAOp) : Z := match op o with op_write _ n => n | _ => 0 end.

Definition round_trips (e : event) : Z := match e with EvOp _ | EvBatch _ => 1 | _ => 0 end.
Definition retries (e : event) : Z := match e with EvRetry => 1 | _ => 0 end.
Definition read_bytes (e : event) : Z :=
  match e with
  | EvOp o => op_bytes_read o | EvBatch ops => sum_list (map op_bytes_read ops) | _ => 0
  end.
Definition written_bytes (e : event) : Z :=
  match e with
  | EvOp o => op_bytes_written o | EvBatch ops => sum_list (map op_bytes_written ops) | _ => 0
  end.
Definition total (f : event → Z) (evs : list event) : Z := sum_list (map f evs).

Lemma on_kind_lookup k f (s : ThreadStats) :
  on_kind k f s !! kind_idx k = f <$> s !! kind_idx k.
Proof. apply list_lookup_alter_eq. Qed.

Lemma on_kind_lookup_ne k k' f (s : ThreadStats) :
  k ≠ k' → on_kind k f s !! kind_idx k' = s !! kind_idx k'.
Proof. intros. apply list_lookup_alter_ne. by destruct k, k'. Qed.

(** The counters of a tracker relative to a baseline. *)
Definition counts (t : ThreadStatsTracker) : Z * Z * Z * Z :=
  (rtt_count_ t, bytes_read_ t, bytes_written_ t, retry_count_ t).

Lemma count_op_counts o t :
  stats_ (count_op o t) = stats_ t ∧ current_op_ (count_op o t) = current_op_ t ∧
  tracking_active_ (count_op o t) = tracking_active_ t ∧
  rtt_count_ (count_op o t) = rtt_count_ t ∧ retry_count_ (count_op o t) = retry_count_ t ∧
  u64 (bytes_read_ (count_op o t)) = u64 (bytes_read_ t + op_bytes_read o) ∧
  u64 (bytes_written_ (count_op o t)) = u64 (bytes_written_ t + op_bytes_written o).
Proof.
  unfold count_op, op_bytes_read, op_bytes_written. simpl.
  split_and!; try done; destruct (op o); rewrite ?Z.add_0_r, ?wrap_idemp by lia; done.
Qed.

Lemma count_ops_counts ops : ∀ t,
  let t' := fold_left (λ t o, count_op o t) ops t in
  stats_ t' = stats_ t ∧ current_op_ t' = current_op_ t ∧
  tracking_active_ t' = tracking_active_ t ∧
  rtt_count_ t' = rtt_count_ t ∧ retry_count_ t' = retry_count_ t ∧
  u64 (bytes_read_ t') = u64 (bytes_read_ t + sum_list (map op_bytes_read ops)) ∧
  u64 (bytes_written_ t') = u64 (bytes_written_ t + sum_list (map op_bytes_written ops)).
Proof.
  induction ops as [|o ops IH]; intros t; simpl.
  - rewrite !Z.add_0_r. done.
  - destruct (IH (count_op o t)) as (I1 & I2 & I3 & I4 & I5 & I6 & I7).
    destruct (count_op_counts o t) as (C1 & C2 & C3 & C4 & C5 & C6 & C7).
    rewrite I1, I2, I3, I4, I5, I6, I7. split_and!; try done.
    + rewrite <-wrap_add_l, C6, wrap_add_l. f_equal. lia.
    + rewrite <-wrap_add_l, C7, wrap_add_l. f_equal. lia.
Qed.

(** Counters after a list of events, while tracking is active. *)
Lemma apply_events_counts evs : ∀ t,
  tracking_active_ t = true →
  let t' := fold_left apply_event evs t in
  tracking_active_ t' = true ∧ current_op_ t' = current_op_ t ∧
  u32 (rtt_count_ t') = u32 (rtt_count_ t + total round_trips evs) ∧
  u32 (retry_count_ t') = u32 (retry_count_ t + total retries evs) ∧
  u64 (bytes_read_ t') = u64 (bytes_read_ t + total read_bytes evs) ∧
  u64 (bytes_written_ t') = u64 (bytes_written_ t + total written_bytes evs) ∧
  stats_ t' = fold_left (λ s e, match e with
     | EvCache h => on_kind (current_op_ t) (entry_record_cache h) s | _ => s end) evs (stats_ t).
Proof.
  unfold total. induction evs as [|e evs IH]; intros t Hact; simpl.
  - rewrite !Z.add_0_r. done.
  - assert (tracking_active_ (apply_event t e) = true ∧
      current_op_ (apply_event t e) = current_op_ t ∧
      u32 (rtt_count_ (apply_event t e)) = u32 (rtt_count_ t + round_trips e) ∧
      u32 (retry_count_ (apply_event t e)) = u32 (retry_count_ t + retries e) ∧
      u64 (bytes_read_ (apply_event t e)) = u64 (bytes_read_ t + read_bytes e) ∧
      u64 (bytes_written_ (apply_event t e)) = u64 (bytes_written_ t + written_bytes e) ∧
      stats_ (apply_event t e) = match e with
        | EvCache h => on_kind (current_op_ t) (entry_record_cache h) (stats_ t)
        | _ => stats_ t end) as (E1 & E2 & E3 & E4 & E5 & E6 & E7).
    { destruct e as [o|ops| |[]]; cbn [apply_event round_trips retries read_bytes written_bytes].
      - unfold record_rdma_op. rewrite Hact. cbn [negb].
        destruct (count_op_counts o (count_rtt t)) as (C1 & C2 & C3 & C4 & C5 & C6 & C7).
        rewrite C1, C2, C3, C4, C5, C6, C7. simpl. rewrite wrap_idemp, Z.add_0_r by lia. done.
      - unfold record_rdma_ops. rewrite Hact. cbn [negb].
        destruct (count_ops_counts ops (count_rtt t)) as (C1 & C2 & C3 & C4 & C5 & C6 & C7).
        rewrite C1, C2, C3, C4, C5, C6, C7. simpl. rewrite wrap_idemp, Z.add_0_r by lia. done.
      - unfold record_retry. rewrite Hact. simpl. rewrite wrap_idemp, !Z.add_0_r by lia. done.
      - unfold record_cache_hit. rewrite Hact. simpl. rewrite Hact, !Z.add_0_r. done.
      - unfold record_cache_miss. rewrite Hact. simpl. rewrite Hact, !Z.add_0_r. done. }
    destruct (IH (apply_event t e) E1) as (I1 & I2 & I3 & I4 & I5 & I6 & I7).
    rewrite I1, I2, I3, I4, I5, I6, I7, E2, E7. split_and!; try done.
    + rewrite <-wrap_add_l, E3, wrap_add_l. f_equal. lia.
    + rewrite <-wrap_add_l, E4, wrap_add_l. f_equal. lia.
    + rewrite <-wrap_add_l, E5, wrap_add_l. f_equal. lia.
    + rewrite <-wrap_add_l, E6, wrap_add_l. f_equal. lia.
Qed.

(** The recording of the per-type counters in [end_operation]. *)
Definition record_type_counts (counts : list Z) (e : OperationEntry) : OperationEntry :=
  fold_left (λ e i, let c := counts !!! i in
               if 0 <? c then entry_record_rdma_operation i c e else e)
    (seq 0 (length counts)) e.

Lemma fold_on_kind k (counts : list Z) l : ∀ s : ThreadStats,
  (fold_left (λ s i, let c := counts !!! i in
      if 0 <? c then on_kind k (entry_record_rdma_operation i c) s else s) l s) !! kind_idx k =
  (λ e, fold_left (λ e i, let c := counts !!! i in
      if 0 <? c then entry_record_rdma_operation i c e else e) l e) <$> s !! kind_idx k.
Proof.
  induction l as [|i l IH]; intros s; simpl.
  - by destruct (s !! kind_idx k).
  - rewrite IH. destruct (0 <? counts !!! i); [|done].
    rewrite on_kind_lookup. by destruct (s !! kind_idx k).
Qed.

(** [end_operation] as one update of the entry of the current kind. *)
Definition entry_end (latency_ns : Z) (ok : bool) (t : ThreadStatsTracker) (e : OperationEntry) :=
  entry_record_retry_count (retry_count_ t)
    (entry_record_bytes_written (bytes_written_ t)
      (entry_record_bytes_read (bytes_read_ t)
        (record_type_counts (rdma_op_counts_ t)
          (entry_record_rtt_count (rtt_count_ t)
            (entry_record_operation latency_ns ok e))))).

Lemma end_operation_entry latency_ns ok t e :
  tracking_active_ t = true → stats_ t !! kind_idx (current_op_ t) = Some e →
  stats_ (end_operation latency_ns ok t) !! kind_idx (current_op_ t) =
    Some (entry_end latency_ns ok t e).
Proof.
  intros Hact He. unfold end_operation. rewrite Hact. cbn [negb stats_].
  rewrite !on_kind_lookup, fold_on_kind, !on_kind_lookup, He. done.
Qed.

Lemma record_type_counts_fields counts e :
  let e' := record_type_counts counts e in
  successes e' = successes e ∧ failures e' = failures e ∧
  rtt_counts_per_op e' = rtt_counts_per_op e ∧ bytes_read_per_op e' = bytes_read_per_op e ∧
  bytes_written_per_op e' = bytes_written_per_op e ∧ cache_stats e' = cache_stats e ∧
  retry_counts_per_op e' = retry_counts_per_op e.
Proof.
  unfold record_type_counts. generalize (seq 0 (length counts)). intros l.
  revert e. induction l as [|i l IH]; intros e; simpl; [done|].
  destruct (0 <? counts !!! i); [|apply IH].
  destruct (IH (entry_record_rdma_operation i (counts !!! i) e)) as (-> & -> & -> & -> & -> & -> & ->).
  destruct e. simpl. by destruct (_ <? _)%nat.
Qed.

Definition fold_cache (evs : list event) (c : CacheStats.t) : CacheStats.t :=
  fold_left (λ c e, match e with
    | EvCache true => CacheStats.record_hit c | EvCache false => CacheStats.record_miss c
    | _ => c end) evs c.

Lemma fold_cache_events k evs : ∀ (s : ThreadStats) e,
  s !! kind_idx k = Some e →
  ∃ e', (fold_left (λ s ev, match ev with
     | EvCache h => on_kind k (entry_record_cache h) s | _ => s end) evs s) !! kind_idx k
    = Some e' ∧ cache_stats e' = fold_cache evs (cache_stats e) ∧
    successes e' = successes e ∧ failures e' = failures e ∧
    rtt_counts_per_op e' = rtt_counts_per_op e ∧ bytes_read_per_op e' = bytes_read_per_op e ∧
    bytes_written_per_op e' = bytes_written_per_op e ∧
    retry_counts_per_op e' = retry_counts_per_op e.
Proof.
  induction evs as [|ev evs IH]; intros s e He; simpl; [by exists e|].
  destruct ev as [o|ops| |h]; [by apply IH..|].
  destruct (IH (on_kind k (entry_record_cache h) s) (entry_record_cache h e))
    as (e' & H1 & H2 & H3 & H4 & H5 & H6 & H7 & H8); [by rewrite on_kind_lookup, He|].
  exists e'. rewrite H2, H3, H4, H5, H6, H7, H8. by destruct e, h.
Qed.

(** Accounting of one tracked operation.  Between [begin_operation] and
    [end_operation], whatever the operation reports (single RDMA operations,
    batches, retries, cache hits and misses), its entry gains exactly one
    success or failure, one round-trip sample equal to the number of operations
    and batches, one sample of the bytes read and one of the bytes written, one
    retry sample, and the cache counts; tracking ends. *)
Theorem tracked_operation_accounting t kind evs latency_ns ok e :
  stats_ t !! kind_idx kind = Some e →
  let t' := end_operation latency_ns ok (fold_left apply_event evs (begin_operation kind t)) in
  tracking_active_ t' = false ∧
  ∃ e', stats_ t' !! kind_idx kind = Some e' ∧
    successes e' = (if ok then u64 (successes e + 1) else successes e) ∧
    failures e' = (if ok then failures e else u64 (failures e + 1)) ∧
    (∃ n, u32 n = u32 (total round_trips evs) ∧
       rtt_counts_per_op e' = Discrete.record n (rtt_counts_per_op e)) ∧
    (∃ n, u64 n = u64 (total read_bytes evs) ∧
       bytes_read_per_op e' = LogBytes.record n (bytes_read_per_op e)) ∧
    (∃ n, u64 n = u64 (total written_bytes evs) ∧
       bytes_written_per_op e' = LogBytes.record n (bytes_written_per_op e)) ∧
    (∃ n, u32 n = u32 (total retries evs) ∧
       retry_counts_per_op e' = Discrete.record n (retry_counts_per_op e)) ∧
    cache_stats e' = fold_cache evs (cache_stats e).
Proof.
  intros He t'.
  destruct (apply_events_counts evs (begin_operation kind t) eq_refl)
    as (E1 & E2 & E3 & E4 & E5 & E6 & E7).
  simpl in E2, E7. set (t1 := fold_left apply_event evs (begin_operation kind t)) in *.
  destruct (fold_cache_events kind evs (stats_ t) e He)
    as (e1 & F1 & F2 & F3 & F4 & F5 & F6 & F7 & F8). rewrite <-E7 in F1.
  split; [unfold t', end_operation; by rewrite E1|].
  exists (entry_end latency_ns ok t1 e1). unfold t'.
  rewrite <-E2 in F1 |- *. split; [by apply end_operation_entry|].
  unfold entry_end.
  destruct (record_type_counts_fields (rdma_op_counts_ t1)
    (entry_record_rtt_count (rtt_count_ t1) (entry_record_operation latency_ns ok e1)))
    as (R1 & R2 & R3 & R4 & R5 & R6 & R7).
  destruct (record_type_counts _ _) as [s f l r o br bw c rt la lh]. simpl in *.
  subst s f r br bw c rt. destruct e1; simpl in *. rewrite F2, F3, F4, F5, F6, F7, F8.
  destruct ok; simpl; split_and!; try done; eexists; (split; [|reflexivity]);
    rewrite ?E3, ?E4, ?E5, ?E6; f_equal; simpl; lia.
Qed.

Lemma tracked_operation_accounting_witness :
  let t := tracker_init stats_init Insert in
  let evs := [EvOp (mkOp 0 (op_read true 64)); EvCache true; EvRetry] in
  tracking_active_ (end_operation 900 true (fold_left apply_event evs (begin_operation Read t)))
    = false.
Proof.
  intros t evs.
  apply (tracked_operation_accounting t Read evs 900 true entry_init). reflexivity.
Defined.

(** [perform_put] and [perform_get] of kv_test.cpp record every operation
    twice in the same [ThreadStats]: once in [end_operation] and once in
    [record_result], so one performed operation raises the sum of successes and
    failures of its kind by two. *)
Theorem perform_recorded_counts_twice t kind latency_ns ok evs e :
  stats_ t !! kind_idx kind = Some e →
  ∃ e', stats_ (perform_recorded kind latency_ns ok (λ t, fold_left apply_event evs t) t)
          !! kind_idx kind = Some e' ∧
    u64 (successes e' + failures e') = u64 (successes e + failures e + 2).
Proof.
  intros He. unfold perform_recorded, record_result, with_stats. cbn [stats_].
  destruct (apply_events_counts evs (begin_operation kind t) eq_refl)
    as (E1 & E2 & _ & _ & _ & _ & E7). simpl in E2, E7.
  set (t1 := fold_left apply_event evs (begin_operation kind t)) in *.
  destruct (fold_cache_events kind evs (stats_ t) e He)
    as (e1 & F1 & _ & F3 & F4 & _). rewrite <-E7 in F1.
  rewrite on_kind_lookup, <-E2, (end_operation_entry _ _ t1 e1) by (done || by rewrite E2).
  eexists. split; [reflexivity|]. unfold entry_end.
  destruct (record_type_counts_fields (rdma_op_counts_ t1)
    (entry_record_rtt_count (rtt_count_ t1) (entry_record_operation latency_ns ok e1)))
    as (R1 & R2 & _).
  destruct (record_type_counts _ _) as [s f l r o br bw c rt la lh]. simpl in *.
  subst s f. destruct e1; simpl in *. rewrite F3, F4. destruct ok; simpl;
    unfold wrap; rewrite ?Zplus_mod_idemp_l, ?Zplus_mod_idemp_r;
    rewrite <-?Z.add_assoc, ?Zplus_mod_idemp_l, ?Zplus_mod_idemp_r; f_equal; lia.
Qed.

Lemma perform_recorded_counts_twice_witness :
  ∃ e', stats_ (perform_recorded Insert 900 true (λ t, fold_left apply_event [] t)
                  (tracker_init stats_init Read)) !! 0%nat = Some e' ∧
    u64 (successes e' + failures e') = u64 (0 + 0 + 2).
Proof.
  apply (perform_recorded_counts_twice (tracker_init stats_init Read) Insert 900 true []
           entry_init). reflexivity.
Defined.
