(* ===== verification/Queue.v ===== *)
(** * Concurrent queues: the interface the code relies on, and MaintenanceQueue

    [moodycamel::ConcurrentQueue] is third-party code (externals/concurrentqueue).
    What the program uses of it is the class [ConcurrentQueue]: [enqueue] adds an
    element, [try_dequeue] removes some element and fails only on an empty queue
    (calls that do not overlap an [enqueue]), [size_approx] counts the elements.  Its documentation promises no order
    between producers, so the laws speak of the multiset of elements.  [fifo] is a
    concrete queue that satisfies them.

    [MaintenanceQueue] models src/util/maintenance_queue.hpp. *)

From S2P Require Import Prelude.

Class ConcurrentQueue (Q : Type → Type) := {
  q_empty : ∀ {A}, Q A;
  q_enqueue : ∀ {A}, A → Q A → Q A;
  q_try_dequeue : ∀ {A}, Q A → option (A * Q A);
  (** The elements a queue holds, in no particular order. *)
  q_contents : ∀ {A}, Q A → list A;
  q_contents_empty : ∀ A, q_contents (@q_empty A) = [];
  q_contents_enqueue : ∀ A (x : A) q, q_contents (q_enqueue x q) ≡ₚ x :: q_contents q;
  q_dequeue_some : ∀ A (q : Q A) x q',
    q_try_dequeue q = Some (x, q') → q_contents q ≡ₚ x :: q_contents q';
  q_dequeue_none : ∀ A (q : Q A), q_try_dequeue q = None → q_contents q = [];
  (** The size is exact while no other thread uses the queue. *)
  q_size_approx : ∀ {A}, Q A → nat;
  q_size_approx_spec : ∀ A (q : Q A), q_size_approx q = length (q_contents q)
}.

(** A first-in first-out queue kept as the list of its elements. *)
Definition fifo (A : Type) : Type := list A.

#[global] Instance fifo_queue : ConcurrentQueue fifo.
Proof.
  refine {| q_empty := λ A, []; q_enqueue := λ A x q, q ++ [x];
            q_try_dequeue := λ A q, match q with [] => None | x :: q' => Some (x, q') end;
            q_contents := λ A q, q; q_size_approx := λ A q, length q |}.
  - done.
  - intros A x q. by rewrite Permutation_app_comm.
  - intros A [|y q] x q' H; [done|]. by simplify_eq.
  - by intros A [|x q].
  - done.
Defined.

Section queue_lemmas.
Context {Q : Type → Type} `{!ConcurrentQueue Q}.

Lemma q_dequeue_length {A} (q : Q A) x q' :
  q_try_dequeue q = Some (x, q') → length (q_contents q) = S (length (q_contents q')).
Proof. intros H%q_dequeue_some. by rewrite H. Qed.

Lemma q_dequeue_nonempty {A} (q : Q A) :
  q_contents q ≠ [] → ∃ x q', q_try_dequeue q = Some (x, q').
Proof.
  intros H. destruct (q_try_dequeue q) as [[x q']|] eqn:E; [eauto|].
  by apply q_dequeue_none in E.
Qed.

Definition q_enqueue_all {A} (l : list A) (q : Q A) : Q A :=
  fold_left (λ q x, q_enqueue x q) l q.

Lemma q_contents_enqueue_all {A} (l : list A) : ∀ q,
  q_contents (q_enqueue_all l q) ≡ₚ l ++ q_contents q.
Proof.
  induction l as [|x l IH]; intros q; simpl; [done|].
  unfold q_enqueue_all in *. simpl. rewrite IH, q_contents_enqueue.
  by rewrite Permutation_middle.
Qed.
End queue_lemmas.

(** ** MaintenanceQueue (src/util/maintenance_queue.hpp) *)
Module MaintenanceQueue.
Section maintenance.
Context {Q : Type → Type} `{!ConcurrentQueue Q} {T : Type}.

Definition enqueue (rpc : T) : M (Q T) unit := modify (q_enqueue rpc).

Definition try_dequeue : M (Q T) (option T) := λ q,
  match q_try_dequeue q with
  | Some (x, q') => Done (Some x) q'
  | None => Done None q
  end.

(** [wait_dequeue]: 1000 polls with a yield, then polls with a sleep, which
    have no bound in the code; [polls] bounds them here.  Another thread may
    enqueue between two polls: [arrivals] gives what arrives before each. *)
Fixpoint wait_dequeue (polls : nat) (arrivals : nat → list T) : M (Q T) T :=
  match polls with
  | O => raise OutOfFuel
  | S polls' =>
      _ ← modify (q_enqueue_all (arrivals O));
      r ← try_dequeue;
      match r with
      | Some rpc => mret rpc
      | None => wait_dequeue polls' (λ n, arrivals (S n))
      end
  end.

(** [empty()] calls [try_dequeue] on the queue itself. *)
Definition empty : M (Q T) bool :=
  r ← try_dequeue; mret (match r with Some _ => false | None => true end).

Lemma try_dequeue_spec (q : Q T) r q' :
  try_dequeue q = Done r q' →
  match r with
  | Some x => q_contents q ≡ₚ x :: q_contents q'
  | None => q' = q ∧ q_contents q = []
  end.
Proof.
  unfold try_dequeue. destruct (q_try_dequeue q) as [[x q1]|] eqn:E; intros H; simplify_eq.
  - by apply q_dequeue_some.
  - split; [done|by apply q_dequeue_none].
Qed.

Lemma try_dequeue_done (q : Q T) : ∃ r q', try_dequeue q = Done r q'.
Proof. unfold try_dequeue. destruct (q_try_dequeue q) as [[]|]; eauto. Qed.

(** [wait_dequeue] returns as soon as an element is in the queue or has
    arrived at one of the polls, however late, and what it returns is one of
    the elements that were enqueued; nothing else is removed. *)
Theorem wait_dequeue_returns (k : nat) : ∀ (arrivals : nat → list T) (q : Q T),
  (q_contents q ≠ [] ∨ arrivals k ≠ []) →
  ∃ x q' n, wait_dequeue (S k) arrivals q = Done x q' ∧ (n ≤ k)%nat ∧
    concat (map arrivals (seq 0 (S n))) ++ q_contents q ≡ₚ x :: q_contents q'.
Proof.
  induction k as [|k IH]; intros arrivals q Hne; cbn [wait_dequeue];
    unfold mbind, M_bind, modify;
    set (q0 := q_enqueue_all (arrivals 0%nat) q);
    (assert (q_contents q0 ≡ₚ arrivals 0%nat ++ q_contents q) as Hq0
       by apply q_contents_enqueue_all);
    destruct (try_dequeue q0) as [r q1|f q1] eqn:E;
    try (exfalso; destruct (try_dequeue_done q0) as (? & ? & ?); congruence);
    pose proof (try_dequeue_spec _ _ _ E) as Hr; destruct r as [x|].
  - exists x, q1, O. simpl. rewrite app_nil_r, <-Hq0. done.
  - exfalso. destruct Hr as [_ Hr]. rewrite Hr in Hq0.
    apply Permutation_nil, app_eq_nil in Hq0 as [Ha Hq]. by destruct Hne.
  - exists x, q1, O. simpl. rewrite app_nil_r, <-Hq0. split_and!; [done|lia|done].
  - destruct Hr as [-> Hr]. rewrite Hr in Hq0.
    apply Permutation_nil, app_eq_nil in Hq0 as [Ha Hq].
    destruct (IH (λ n, arrivals (S n)) q0) as (x & q' & n & Hrun & Hn & Hp).
    { right. destruct Hne as [Hne|Hne]; [done|exact Hne]. }
    exists x, q', (S n). split_and!; [exact Hrun|lia|].
    rewrite <-Hp, Hr, Hq, !app_nil_r. cbn [seq map concat]. rewrite Ha, app_nil_l.
    by rewrite <-seq_shift, map_map.
Qed.

(** [empty] is not an observer: when the queue holds anything it answers
    [false] and removes one element, which is lost. *)
Theorem empty_drops_an_element (q : Q T) :
  (q_contents q = [] → empty q = Done true q) ∧
  (q_contents q ≠ [] → ∃ x q', empty q = Done false q' ∧ q_contents q ≡ₚ x :: q_contents q').
Proof.
  unfold empty, try_dequeue, mbind, M_bind. split.
  - intros Hq. destruct (q_try_dequeue q) as [[x q']|] eqn:E; [|done].
    apply q_dequeue_some in E. rewrite Hq in E. by apply Permutation_nil_cons in E.
  - intros (x & q' & E)%q_dequeue_nonempty. rewrite E.
    exists x, q'. split; [done|]. by apply q_dequeue_some.
Qed.
End maintenance.

Definition late_arrival (k : nat) : list nat := if (k =? 2)%nat then [7%nat] else [].

Lemma wait_dequeue_returns_witness :
  ∃ x q' n, wait_dequeue (Q := fifo) 3 late_arrival q_empty = Done x q' ∧ (n ≤ 2)%nat ∧
    concat (map late_arrival (seq 0 (S n))) ++ q_contents (Q := fifo) q_empty
      ≡ₚ x :: q_contents q'.
Proof.
  apply (wait_dequeue_returns (Q := fifo) 2 late_arrival q_empty).
  right. vm_compute. discriminate.
Defined.

Lemma empty_drops_an_element_witness :
  ∃ x q', empty (Q := fifo) (q_enqueue 1%nat q_empty) = Done false q' ∧
    q_contents (Q := fifo) (q_enqueue 1%nat q_empty) ≡ₚ x :: q_contents q'.
Proof.
  apply (empty_drops_an_element (Q := fifo) (q_enqueue 1%nat q_empty)).
  vm_compute. discriminate.
Defined.
End MaintenanceQueue.
