(* ===== verification/MemoryServer.v ===== *)
(** * Memory servers and the RPC allocator (src/rdma/memory_server.hpp, .cpp,
    src/rdma/rpc_allocator.hpp)

    A [MemoryServer] owns its RDMA region and a bump allocator behind two request
    queues that its worker thread drains.  [RPCAllocator] sends a request to one
    server, round robin, and waits for the promise.  [ChunkAllocator] is the
    interface of the abstract class [Allocator] (src/rdma/local_allocator.hpp)
    with the law its clients rely on; the RPC allocator is proved to satisfy it. *)

From S2P Require Import Prelude GlobalAddress RdmaSim Queue.

(** ** The interface [Allocator]

    [ca_used s a]: the byte at address [a] has been given out.  [ca_ready s n]: a
    request for [n] bytes can be served. *)
Class ChunkAllocator (S : Type) := {
  ca_allocate : Z → M S Z;
  ca_free : Z → Z → M S unit;
  ca_ok : S → Prop;
  ca_ready : S → Z → Prop;
  ca_used : S → Z → Prop;
  (** A request that can be served returns, fails with -1 or grants a range of
      unused bytes, and never takes a granted byte back. *)
  ca_allocate_spec : ∀ s size, ca_ok s → ca_ready s size →
    ∃ off s', ca_allocate size s = Done off s' ∧ ca_ok s' ∧
      (∀ a, ca_used s a → ca_used s' a) ∧
      (off = -1 ∨ 0 ≤ off ∧ off + size ≤ 2 ^ 50 ∧
        ∀ a, off ≤ a < off + size → ¬ ca_used s a ∧ ca_used s' a)
}.

Section server.
Context {Q : Type → Type} `{!ConcurrentQueue Q}.

(** A promise is named by a number; [promises] maps a promise to its value. *)
Record MemoryServer := mkServer {
  rdma_ : memory;
  next_offset_ : Z;
  allocated_ : gset Z;
  alloc_queue_ : Q (Z * nat);
  free_queue_ : Q Z;
  stop_ : bool
}.

Definition server_init (memory_size : nat) : MemoryServer :=
  mkServer (RDMASimulation_init memory_size) 0 ∅ q_empty q_empty false.

Definition set_rdma (m : memory) (s : MemoryServer) : MemoryServer :=
  mkServer m (next_offset_ s) (allocated_ s) (alloc_queue_ s) (free_queue_ s) (stop_ s).

(** [MemoryServer::allocate]: a bump of [next_offset_]; no bound is checked. *)
Definition server_allocate (size : Z) : M MemoryServer Z := λ s,
  let offset := next_offset_ s in
  Done offset (mkServer (rdma_ s) (u64 (next_offset_ s + size)) ({[offset]} ∪ allocated_ s)
                 (alloc_queue_ s) (free_queue_ s) (stop_ s)).

(** [MemoryServer::free] *)
Definition server_free (offset : Z) : M MemoryServer unit := λ s,
  Done tt (mkServer (rdma_ s) (next_offset_ s) (allocated_ s ∖ {[offset]})
             (alloc_queue_ s) (free_queue_ s) (stop_ s)).

Definition enqueue_alloc (size : Z) (promise : nat) : M MemoryServer unit := λ s,
  Done tt (mkServer (rdma_ s) (next_offset_ s) (allocated_ s)
             (q_enqueue (size, promise) (alloc_queue_ s)) (free_queue_ s) (stop_ s)).

Definition enqueue_free (offset : Z) : M MemoryServer unit := λ s,
  Done tt (mkServer (rdma_ s) (next_offset_ s) (allocated_ s)
             (alloc_queue_ s) (q_enqueue offset (free_queue_ s)) (stop_ s)).

Definition try_dequeue_alloc : M MemoryServer (option (Z * nat)) := λ s,
  match q_try_dequeue (alloc_queue_ s) with
  | Some (x, q) => Done (Some x) (mkServer (rdma_ s) (next_offset_ s) (allocated_ s) q
                                    (free_queue_ s) (stop_ s))
  | None => Done None s
  end.

Definition try_dequeue_free : M MemoryServer (option Z) := λ s,
  match q_try_dequeue (free_queue_ s) with
  | Some (x, q) => Done (Some x) (mkServer (rdma_ s) (next_offset_ s) (allocated_ s)
                                    (alloc_queue_ s) q (stop_ s))
  | None => Done None s
  end.

(** Worker state: the server and the promises it fulfils. *)
Abbreviation worker_state := (MemoryServer * gmap nat Z)%type.
Definition on_server {A} (m : M MemoryServer A) : M worker_state A :=
  zoom fst (λ s w, (s, w.2)) m.

(** [promise.set_value(v)]; a second call throws. *)
Definition set_value (promise : nat) (v : Z) : M worker_state unit :=
  w ← get;
  match w.2 !! promise with
  | Some _ => raise Thrown
  | None => modify (λ w, (w.1, <[promise := v]> w.2))
  end.

(** The two inner [while] loops of [worker_loop]; a queue of [n] requests needs
    [n] iterations. *)
Fixpoint process_allocs (fuel : nat) (has_work : bool) : M worker_state bool :=
  item ← on_server try_dequeue_alloc;
  match item with
  | None => mret has_work
  | Some (size, promise) =>
      offset ← on_server (server_allocate size);
      _ ← set_value promise offset;
      match fuel with
      | O => raise OutOfFuel
      | S fuel' => process_allocs fuel' true
      end
  end.

Fixpoint process_frees (fuel : nat) (has_work : bool) : M worker_state bool :=
  item ← on_server try_dequeue_free;
  match item with
  | None => mret has_work
  | Some offset =>
      _ ← on_server (server_free offset);
      match fuel with
      | O => raise OutOfFuel
      | S fuel' => process_frees fuel' true
      end
  end.

(** One iteration of [worker_loop] (the timed wait of an idle worker has no
    effect on the state). *)
Definition worker_iteration : M worker_state bool :=
  w ← get;
  has_work ← process_allocs (length (q_contents (alloc_queue_ w.1))) false;
  w ← get;
  process_frees (length (q_contents (free_queue_ w.1))) has_work.

(** ** RPCAllocator *)

(** The servers, the static round-robin counter and the promises. *)
Record Cluster := mkCluster {
  servers_ : list MemoryServer;
  rr : Z;
  promises : gmap nat Z;
  next_promise : nat
}.

(** [servers_[i]]: an index past the end is outside the vector. *)
Definition at_server {A} (i : nat) (m : M worker_state A) : M Cluster A := λ c,
  match servers_ c !! i with
  | None => Fault OutOfBounds c
  | Some s =>
      match m (s, promises c) with
      | Done a (s', ps) => Done a (mkCluster (<[i := s']> (servers_ c)) (rr c) ps (next_promise c))
      | Fault f (s', ps) => Fault f (mkCluster (<[i := s']> (servers_ c)) (rr c) ps (next_promise c))
      end
  end.

(** [rr++ % servers_.size()] *)
Definition pick_server : M Cluster nat := λ c,
  let n := Z.of_nat (length (servers_ c)) in
  if n =? 0 then Fault OutOfBounds c
  else Done (Z.to_nat (rr c mod n))
         (mkCluster (servers_ c) (u64 (rr c + 1)) (promises c) (next_promise c)).

Definition new_promise : M Cluster nat := λ c,
  Done (next_promise c) (mkCluster (servers_ c) (rr c) (promises c) (S (next_promise c))).

(** [fut.get()] after the server's worker has run. *)
Definition future_get (promise : nat) : M Cluster Z := λ c,
  match promises c !! promise with Some v => Done v c | None => Fault OutOfFuel c end.

Definition rpc_allocate (chunk_size : Z) : M Cluster Z :=
  server_idx ← pick_server;
  promise ← new_promise;
  _ ← at_server server_idx (on_server (enqueue_alloc chunk_size promise));
  _ ← at_server server_idx worker_iteration;
  offset ← future_get promise;
  mret (ga_make (u8 (Z.of_nat server_idx)) offset).

Definition rpc_free (chunk_size off : Z) : M Cluster unit :=
  let server_idx := server_index (ga_of_u64 off) in
  let local_offset := offset (ga_of_u64 off) in
  at_server (Z.to_nat server_idx) (on_server (enqueue_free local_offset)).

(** ** The RPC allocator implements the interface *)

Definition cluster_ok (c : Cluster) : Prop :=
  (0 < length (servers_ c) ≤ 256)%nat ∧ 0 ≤ rr c ∧
  (∀ p, (next_promise c ≤ p)%nat → promises c !! p = None) ∧
  Forall (λ s, 0 ≤ next_offset_ s ≤ 2 ^ 42 ∧ q_contents (alloc_queue_ s) = []) (servers_ c).

(** There is room for [size] more bytes below [2^42] on every server. *)
Definition cluster_ready (c : Cluster) (size : Z) : Prop :=
  0 ≤ size ∧ Forall (λ s, next_offset_ s + size ≤ 2 ^ 42) (servers_ c).

(** Every byte below the bump pointer of its server has been given out. *)
Definition cluster_used (c : Cluster) (a : Z) : Prop :=
  0 ≤ a ∧ ∃ s, servers_ c !! Z.to_nat (a / 2 ^ 42) = Some s ∧ a mod 2 ^ 42 < next_offset_ s.

Lemma process_frees_server fuel : ∀ b w,
  (length (q_contents (free_queue_ w.1)) ≤ fuel)%nat →
  ∃ b' s', process_frees fuel b w = Done b' (s', w.2) ∧
    rdma_ s' = rdma_ w.1 ∧ next_offset_ s' = next_offset_ w.1 ∧
    alloc_queue_ s' = alloc_queue_ w.1.
Proof.
  induction fuel as [|fuel IH]; intros b [s ps] Hlen; simpl in *;
    unfold mbind, M_bind, on_server, zoom, try_dequeue_free, mret, M_ret; simpl;
    destruct (q_try_dequeue (free_queue_ s)) as [[off q]|] eqn:E; simpl; eauto 10.
  - apply q_dequeue_length in E. lia.
  - apply q_dequeue_length in E.
    destruct (IH true (mkServer (rdma_ s) (next_offset_ s) (allocated_ s ∖ {[off]})
                        (alloc_queue_ s) q (stop_ s), ps))
      as (b' & s' & H1 & H2 & H3 & H4); [simpl; lia|].
    exists b', s'. simpl in *. by rewrite H1.
Qed.

(** The worker serves a single pending request with the bump pointer. *)
Lemma worker_iteration_one s ps size p :
  q_contents (alloc_queue_ s) ≡ₚ [(size, p)] → ps !! p = None →
  ∃ b s', worker_iteration (s, ps) = Done b (s', <[p := next_offset_ s]> ps) ∧
    next_offset_ s' = u64 (next_offset_ s + size) ∧ rdma_ s' = rdma_ s ∧
    q_contents (alloc_queue_ s') = [].
Proof.
  intros Hq Hp. unfold worker_iteration, mbind, M_bind, get. simpl.
  rewrite (Permutation_length Hq). simpl length. cbn [process_allocs].
  unfold mbind, M_bind, on_server, zoom, try_dequeue_alloc. simpl.
  destruct (q_try_dequeue (alloc_queue_ s)) as [[[size' p'] q]|] eqn:E.
  2:{ apply q_dequeue_none in E. rewrite E in Hq. by apply Permutation_nil_cons in Hq. }
  apply q_dequeue_some in E. rewrite E in Hq.
  assert (q_contents q = []) as Hq'.
  { apply Permutation_length in Hq. simpl in Hq. by apply length_zero_iff_nil; lia. }
  rewrite Hq' in Hq. apply Permutation_singleton_inj in Hq. simplify_eq.
  unfold server_allocate, set_value, mbind, M_bind, get, modify. simpl. rewrite Hp. simpl.
  destruct (q_try_dequeue q) as [[? ?]|] eqn:Eq.
  { apply q_dequeue_length in Eq. rewrite Hq' in Eq. simpl in Eq. lia. }
  unfold mret, M_ret. simpl.
  match goal with |- context [process_frees ?n true ?w] =>
    destruct (process_frees_server n true w) as (b & s' & H1 & H2 & H3 & H4) end; [done|].
  exists b, s'. simpl in *. by rewrite H1, H2, H3, H4.
Qed.

(** The run of [rpc_allocate]: the chosen server's bump pointer is returned and
    advanced, and no other server changes. *)
Lemma rpc_allocate_run c size :
  cluster_ok c → cluster_ready c size →
  ∃ i s s' c', servers_ c !! i = Some s ∧ (i < 256)%nat ∧
    rpc_allocate size c = Done (ga_make (Z.of_nat i) (next_offset_ s)) c' ∧
    servers_ c' = <[i := s']> (servers_ c) ∧
    next_offset_ s' = next_offset_ s + size ∧ rdma_ s' = rdma_ s ∧
    q_contents (alloc_queue_ s') = [] ∧ 0 ≤ rr c' ∧
    (∀ p, (next_promise c' ≤ p)%nat → promises c' !! p = None).
Proof.
  intros (Hn & Hrr & Hp & Hs) [Hsize Hroom].
  set (n := Z.of_nat (length (servers_ c))).
  assert (0 < n ≤ 256) as Hn' by (unfold n; lia).
  set (i := Z.to_nat (rr c mod n)).
  assert (i < length (servers_ c))%nat as Hi.
  { pose proof (Z.mod_pos_bound (rr c) n). unfold i, n in *. lia. }
  destruct (lookup_lt_is_Some_2 _ _ Hi) as [s Hlook].
  rewrite Forall_lookup in Hs. destruct (Hs i s Hlook) as [Hoff Hq].
  rewrite Forall_lookup in Hroom. specialize (Hroom i s Hlook).
  set (s1 := mkServer (rdma_ s) (next_offset_ s) (allocated_ s)
               (q_enqueue (size, next_promise c) (alloc_queue_ s)) (free_queue_ s) (stop_ s)).
  destruct (worker_iteration_one s1 (promises c) size (next_promise c))
    as (b & s' & Hw & Hs1 & Hs2 & Hs3).
  { simpl. by rewrite q_contents_enqueue, Hq. }
  { apply Hp. lia. }
  exists i, s, s'. eexists. split_and!; [done|lia| |..].
  - unfold rpc_allocate, mbind, M_bind, pick_server. fold n.
    rewrite (proj2 (Z.eqb_neq n 0)) by lia. fold i. cbn [new_promise].
    unfold at_server at 1. simpl. rewrite Hlook. simpl. fold s1.
    unfold at_server. simpl. rewrite list_lookup_insert_eq by done. rewrite Hw.
    unfold future_get. simpl. rewrite lookup_insert_eq, wrap_small.
    + reflexivity.
    + unfold in_width. lia.
  - simpl. by rewrite list_insert_insert_eq.
  - rewrite Hs1. simpl. apply wrap_small. unfold in_width. lia.
  - done.
  - done.
  - simpl. apply wrap_in_width. lia.
  - simpl. intros p Hle. rewrite lookup_insert_ne by lia. apply Hp. lia.
Qed.

(** The byte at offset [o] of server [i]. *)
Lemma ga_split (i : nat) o a :
  0 ≤ o < 2 ^ 42 → a = Z.of_nat i * 2 ^ 42 + o → a / 2 ^ 42 = Z.of_nat i ∧ a mod 2 ^ 42 = o.
Proof.
  intros Ho ->. split; [rewrite Z.div_add_l, Z.div_small by lia; lia|].
  by rewrite Z.add_comm, Z.mod_add, Z.mod_small by lia.
Qed.

Lemma rpc_allocate_spec c size :
  cluster_ok c → cluster_ready c size →
  ∃ off c', rpc_allocate size c = Done off c' ∧ cluster_ok c' ∧
    (∀ a, cluster_used c a → cluster_used c' a) ∧
    (off = -1 ∨ 0 ≤ off ∧ off + size ≤ 2 ^ 50 ∧
      ∀ a, off ≤ a < off + size → ¬ cluster_used c a ∧ cluster_used c' a).
Proof.
  intros Hok Hready.
  destruct (rpc_allocate_run c size Hok Hready)
    as (i & s & s' & c' & Hlook & Hi & Hrun & Hsrv & Hoff' & _ & Hq' & Hrr' & Hp').
  destruct Hok as (Hn & _ & _ & Hs), Hready as [Hsize Hroom].
  pose proof (proj1 (Forall_lookup _ _) Hs i s Hlook) as [Hoff _].
  pose proof (proj1 (Forall_lookup _ _) Hroom i s Hlook) as Hr. simpl in Hr, Hoff.
  pose proof (lookup_lt_Some _ _ _ Hlook) as Hilt.
  eexists _, c'. split; [exact Hrun|]. split_and!.
  - split; [rewrite Hsrv, length_insert; lia|]. split_and!; [done|done|].
    rewrite Hsrv. apply Forall_insert; [done|]. split; [lia|done].
  - intros a [Ha (t & Ht & Hlt)]. split; [done|]. rewrite Hsrv.
    destruct (decide (i = Z.to_nat (a / 2 ^ 42))) as [Heq|Hne].
    + rewrite <-Heq, list_lookup_insert_eq by done. rewrite <-Heq, Hlook in Ht.
      simplify_eq. exists s'. split; [done|lia].
    + rewrite list_lookup_insert_ne by done. eauto.
  - right. rewrite ga_make_eq, wrap_small by (unfold in_width; lia).
    destruct (decide (size = 0)) as [->|Hsz].
    { rewrite Z.add_0_r. pose proof (Z.mod_pos_bound (next_offset_ s) (2 ^ 42)).
      split_and!; [lia|lia|]. intros a Ha. lia. }
    rewrite Z.mod_small by lia. split_and!; [lia|lia|].
    intros a Ha. destruct (ga_split i (a - Z.of_nat i * 2 ^ 42) a) as [Hd Hm]; [lia|lia|].
    unfold cluster_used. rewrite Hd, Hm, Nat2Z.id, Hsrv.
    rewrite list_lookup_insert_eq, Hlook by done. split.
    + intros [_ (t & Ht & Hlt)]. simplify_eq. lia.
    + split; [lia|]. exists s'. split; [done|lia].
Qed.

#[global] Instance rpc_chunk_allocator : ChunkAllocator Cluster := {|
  ca_allocate := rpc_allocate;
  ca_free := rpc_free;
  ca_ok := cluster_ok;
  ca_ready := cluster_ready;
  ca_used := cluster_used;
  ca_allocate_spec := rpc_allocate_spec
|}.
End server.

Arguments MemoryServer : clear implicits.
Arguments Cluster : clear implicits.
Arguments mkServer {Q}.
Arguments mkCluster {Q}.

(** [num_ms] fresh servers of [mem_per_server] bytes, as kv_test.cpp makes them. *)
Definition cluster_init {Q} `{!ConcurrentQueue Q} (num_ms mem_per_server : nat) : Cluster Q :=
  mkCluster (replicate num_ms (server_init mem_per_server)) 0 ∅ 0.

Lemma cluster_init_ok {Q} `{!ConcurrentQueue Q} n size :
  (0 < n ≤ 256)%nat → cluster_ok (Q := Q) (cluster_init n size).
Proof.
  intros Hn. split_and!; simpl; rewrite ?length_replicate; try lia; [done|].
  apply Forall_replicate. simpl. split; [lia|apply q_contents_empty].
Qed.

(** C25: when no other request is pending ([cluster_ok]) and each server stays below
    [2^42] bytes ([cluster_ready]), an allocation request to the RPC allocator returns,
    and the address range it grants consists of bytes no earlier request was given;
    earlier grants stay granted.  (The server chosen is the round-robin one.) *)
Theorem rpc_allocate_grants_fresh {Q} `{!ConcurrentQueue Q} (c : Cluster Q) size :
  cluster_ok c → cluster_ready c size →
  ∃ off c', rpc_allocate size c = Done off c' ∧ cluster_ok c' ∧
    0 ≤ off ∧ off + size ≤ 2 ^ 50 ∧
    (∀ a, cluster_used c a → cluster_used c' a) ∧
    (∀ a, off ≤ a < off + size → ¬ cluster_used c a ∧ cluster_used c' a).
Proof.
  intros Hok Hready.
  destruct (rpc_allocate_spec c size Hok Hready) as (off & c' & H1 & H2 & H3 & H4).
  exists off, c'. destruct H4 as [->|(H4 & H5 & H6)]; [exfalso|by split_and!].
  destruct (rpc_allocate_run c size Hok Hready) as (i & s & s' & c1 & _ & _ & Hrun & _).
  rewrite Hrun in H1. injection H1 as Hm _.
  pose proof (ga_make_ok (Z.of_nat i) (next_offset_ s)) as [Hp _]. lia.
Qed.

Lemma rpc_allocate_grants_fresh_witness :
  ∃ off c', rpc_allocate 1024 (cluster_init (Q := fifo) 2 4096) = Done off c' ∧ cluster_ok c' ∧
    0 ≤ off ∧ off + 1024 ≤ 2 ^ 50 ∧
    (∀ a, cluster_used (cluster_init (Q := fifo) 2 4096) a → cluster_used c' a) ∧
    (∀ a, off ≤ a < off + 1024 →
       ¬ cluster_used (cluster_init (Q := fifo) 2 4096) a ∧ cluster_used c' a).
Proof.
  apply (rpc_allocate_grants_fresh (cluster_init (Q := fifo) 2 4096) 1024).
  - apply cluster_init_ok. lia.
  - split; [lia|]. apply Forall_replicate. simpl. lia.
Defined.
