(* ===== verification/Slab.v ===== *)
(** * Slab allocators (src/rdma/local_allocator.hpp)

    [SlabAllocator] hands out equally sized slabs of chunks it gets from an
    [Allocator]; [LocalAllocator] keeps one slab allocator per size.  Both are
    written against the interface [ChunkAllocator], so the theorems hold for the
    RPC allocator of MemoryServer.v. *)

From S2P Require Import Prelude GlobalAddress Queue MemoryServer.

(** Two address ranges [(offset, size)] share no byte. *)
Definition disjoint_range (r1 r2 : Z * Z) : Prop :=
  r1.1 + r1.2 ≤ r2.1 ∨ r2.1 + r2.2 ≤ r1.1.

#[global] Instance disjoint_range_sym : Symmetric disjoint_range.
Proof. unfold disjoint_range. intros ?? H. lia. Qed.

Section slab.
Context {Q : Type → Type} `{!ConcurrentQueue Q} {S : Type} `{!ChunkAllocator S}.

Record SlabAllocator := mkSlab {
  slab_size_ : Z;
  num_slabs_ : Z;
  free_list_ : Q Z
}.

(** The allocator together with the chunk allocator it points to. *)
Abbreviation slab_state := (SlabAllocator * S)%type.

Definition slab_try_dequeue : M slab_state (option Z) := λ st,
  match q_try_dequeue (free_list_ st.1) with
  | Some (off, q) => Done (Some off) (mkSlab (slab_size_ st.1) (num_slabs_ st.1) q, st.2)
  | None => Done None st
  end.

(** [for (offset = start; offset < start + chunk_size; offset += slab_size_)];
    [chunk_size / slab_size_ + 1] tests of the condition are enough. *)
Fixpoint offsets_loop (fuel : nat) (off end_ step : Z) : M slab_state (list Z) :=
  if off <? end_ then
    match fuel with
    | O => raise OutOfFuel
    | Datatypes.S fuel' => offs ← offsets_loop fuel' (u64 (off + step)) end_ step; mret (off :: offs)
    end
  else mret [].

Definition get_offsets_from_chunk (start_offset chunk_size : Z) : M slab_state (list Z) :=
  st ← get;
  offsets_loop (Z.to_nat (chunk_size / slab_size_ st.1)) (u64 start_offset)
    (u64 (start_offset + chunk_size)) (slab_size_ st.1).

Definition get_slabs_nolock (slabs_to_add : Z) : M slab_state unit :=
  st ← get;
  let chunk_size := slabs_to_add * slab_size_ st.1 in
  new_chunk ← zoom snd (λ s st, (st.1, s)) (ca_allocate (u64 chunk_size));
  if new_chunk =? -1 then mret tt
  else
    new_offsets ← get_offsets_from_chunk new_chunk (u64 chunk_size);
    modify (λ st, (mkSlab (slab_size_ st.1)
                     (u64 (num_slabs_ st.1 + Z.of_nat (length new_offsets)))
                     (q_enqueue_all new_offsets (free_list_ st.1)), st.2)).

Definition slab_allocate_nogrowth : M slab_state Z :=
  r ← slab_try_dequeue; mret (match r with Some off => off | None => -1 end).

Definition slab_allocate : M slab_state Z :=
  r ← slab_try_dequeue;
  match r with
  | Some off => mret off
  | None =>
      r ← slab_try_dequeue;       (* again, under [growth_mu_] *)
      match r with
      | Some off => mret off
      | None =>
          st ← get;
          _ ← get_slabs_nolock (num_slabs_ st.1);
          r ← slab_try_dequeue;
          mret (match r with Some off => off | None => -1 end)
      end
  end.

Definition slab_free (off : Z) : M slab_state unit :=
  modify (λ st, (mkSlab (slab_size_ st.1) (num_slabs_ st.1)
                   (q_enqueue off (free_list_ st.1)), st.2)).

Definition slab_free_count : M slab_state Z := gets (λ st, Z.of_nat (q_size_approx (free_list_ st.1))).

(** [SlabAllocator(slab_size, num_slabs, allocator)] *)
Definition slab_init (slab_size num_slabs : Z) : M S SlabAllocator := λ s,
  match get_slabs_nolock num_slabs (mkSlab slab_size num_slabs q_empty, s) with
  | Done _ (sl, s') => Done sl s'
  | Fault f (_, s') => Fault f s'
  end.

(** ** LocalAllocator *)

Abbreviation local_state := (gmap Z SlabAllocator * S)%type.

(** The constructor: one slab allocator per size, in the order of the set. *)
Fixpoint local_init (sizes : list Z) (num_chunks_per_slab : Z) : M local_state unit :=
  match sizes with
  | [] => mret tt
  | sz :: sizes' =>
      sl ← zoom snd (λ s st, (st.1, s)) (slab_init sz num_chunks_per_slab);
      _ ← modify (λ st, (<[sz := sl]> st.1, st.2));
      local_init sizes' num_chunks_per_slab
  end.

Definition local_allocate (size : Z) : M local_state Z := λ st,
  match st.1 !! size with
  | None => Done (-1) st
  | Some sl =>
      match slab_allocate (sl, st.2) with
      | Done off (sl', s') => Done off (<[size := sl']> st.1, s')
      | Fault f (sl', s') => Fault f (<[size := sl']> st.1, s')
      end
  end.

Definition local_free (size off : Z) : M local_state unit := λ st,
  match st.1 !! size with
  | None => Done tt st
  | Some sl =>
      match slab_free off (sl, st.2) with
      | Done _ (sl', s') => Done tt (<[size := sl']> st.1, s')
      | Fault f (sl', s') => Fault f (<[size := sl']> st.1, s')
      end
  end.

(** ** The slabs of a chunk *)

(** [n] slabs of [step] bytes from [start]. *)
Definition slots (start step : Z) (n : nat) : list Z :=
  map (λ i : nat, start + Z.of_nat i * step) (seq 0 n).

Lemma slots_S start step n : slots start step (Datatypes.S n) = start :: slots (start + step) step n.
Proof.
  unfold slots. cbn [seq map]. f_equal; [lia|].
  rewrite <-seq_shift, map_map. apply map_ext. intros i. lia.
Qed.

Lemma offsets_loop_slots n : ∀ fuel off step st,
  (n ≤ fuel)%nat → 0 ≤ off → 0 < step → off + Z.of_nat n * step < 2 ^ 63 →
  offsets_loop fuel off (off + Z.of_nat n * step) step st = Done (slots off step n) st.
Proof.
  induction n as [|n IH]; intros fuel off step st Hf Ho Hs Hb.
  - replace (off + Z.of_nat 0 * step) with off by lia.
    destruct fuel; simpl; by rewrite (proj2 (Z.ltb_ge _ _)) by lia.
  - destruct fuel as [|fuel]; [lia|]. cbn [offsets_loop].
    rewrite (proj2 (Z.ltb_lt _ _)) by lia.
    rewrite wrap_small by (unfold in_width; nia).
    replace (off + Z.of_nat (Datatypes.S n) * step) with (off + step + Z.of_nat n * step) by lia.
    unfold mbind, M_bind. rewrite IH by lia. by rewrite slots_S.
Qed.

Lemma slots_bounds start step n o :
  0 < step → o ∈ slots start step n → start ≤ o ∧ o + step ≤ start + Z.of_nat n * step.
Proof.
  intros Hs. unfold slots. rewrite list_elem_of_fmap. intros (i & -> & Hi%elem_of_seq). nia.
Qed.

Lemma slots_disjoint start step n :
  0 < step → pairwise disjoint_range (map (λ o, (o, step)) (slots start step n)).
Proof.
  intros Hs. revert start. induction n as [|n IH]; intros start; [done|].
  rewrite slots_S. cbn [map pairwise]. split; [|apply IH].
  apply Forall_map, list.Forall_forall. intros o Ho.
  apply slots_bounds in Ho; [|done]. left. simpl. lia.
Qed.

(** ** Invariant: the slabs in the free list are unused ranges of granted memory *)

Definition ranges (sl : SlabAllocator) : list (Z * Z) :=
  map (λ o, (o, slab_size_ sl)) (q_contents (free_list_ sl)).

(** A range whose bytes were all granted by the chunk allocator. *)
Definition granted (s : S) (r : Z * Z) : Prop :=
  0 < r.2 ∧ ∀ a, r.1 ≤ a < r.1 + r.2 → ca_used s a.

(** The next growth request of a slab allocator is one the backing allocator
    can serve. *)
Definition growth_ready (sl : SlabAllocator) (s : S) : Prop :=
  0 < num_slabs_ sl ∧ num_slabs_ sl * slab_size_ sl < 2 ^ 50 ∧
  ca_ready s (num_slabs_ sl * slab_size_ sl).

(** Growing adds the slabs of a fresh chunk, or nothing. *)
Lemma get_slabs_spec sl s n :
  ca_ok s → 0 < slab_size_ sl → 0 < n → n * slab_size_ sl < 2 ^ 50 →
  ca_ready s (n * slab_size_ sl) →
  ∃ sl' s' new, get_slabs_nolock n (sl, s) = Done tt (sl', s') ∧ ca_ok s' ∧
    slab_size_ sl' = slab_size_ sl ∧ (∀ a, ca_used s a → ca_used s' a) ∧
    q_contents (free_list_ sl') ≡ₚ new ++ q_contents (free_list_ sl) ∧
    pairwise disjoint_range (map (λ o, (o, slab_size_ sl)) new) ∧
    (∀ o, o ∈ new → 0 ≤ o ∧ ∀ a, o ≤ a < o + slab_size_ sl → ¬ ca_used s a ∧ ca_used s' a) ∧
    (new = [] → ca_allocate (n * slab_size_ sl) s = Done (-1) s').
Proof.
  intros Hok Hsz Hn Hb Hready. unfold get_slabs_nolock, mbind, M_bind, get, zoom. simpl.
  rewrite (wrap_small 64 (n * slab_size_ sl)) by (unfold in_width; nia).
  destruct (ca_allocate_spec s (n * slab_size_ sl) Hok Hready)
    as (off & s' & Hrun & Hok' & Hmono & Hoff). rewrite Hrun. simpl.
  destruct (Z.eqb_spec off (-1)) as [->|Hne].
  { exists sl, s', []. split_and!; try done. intros o Ho. by apply not_elem_of_nil in Ho. }
  destruct Hoff as [|(Hoff & Hend & Hfresh)]; [done|].
  unfold get_offsets_from_chunk, mbind, M_bind, get. simpl.
  rewrite Z.div_mul, !wrap_small by (unfold in_width; lia).
  replace (off + n * slab_size_ sl) with (off + Z.of_nat (Z.to_nat n) * slab_size_ sl) by lia.
  rewrite offsets_loop_slots by (rewrite ?Z2Nat.id; lia).
  unfold modify. simpl.
  eexists _, s', (slots off (slab_size_ sl) (Z.to_nat n)).
  split_and!; [reflexivity|done|done|done|..]; simpl.
  - apply q_contents_enqueue_all.
  - by apply slots_disjoint.
  - intros o Ho. apply slots_bounds in Ho; [|done]. split; [lia|].
    intros a Ha. apply Hfresh. lia.
  - intros Hnil%(f_equal length). unfold slots in Hnil. rewrite length_map, length_seq in Hnil. cbn in Hnil. lia.
Qed.

Lemma slab_try_dequeue_spec sl s :
  (∃ o sl', slab_try_dequeue (sl, s) = Done (Some o) (sl', s) ∧
     slab_size_ sl' = slab_size_ sl ∧ num_slabs_ sl' = num_slabs_ sl ∧
     q_contents (free_list_ sl) ≡ₚ o :: q_contents (free_list_ sl')) ∨
  (slab_try_dequeue (sl, s) = Done None (sl, s) ∧ q_contents (free_list_ sl) = []).
Proof.
  unfold slab_try_dequeue. simpl.
  destruct (q_try_dequeue (free_list_ sl)) as [[o q]|] eqn:E.
  - left. apply q_dequeue_some in E. eexists o, _. split_and!; [reflexivity|done..].
  - right. by apply q_dequeue_none in E.
Qed.

(** What [allocate] does to the free list: it takes one slab out of the list
    extended with the slabs of a fresh chunk (or with none). *)
Lemma slab_allocate_spec sl s :
  ca_ok s → 0 < slab_size_ sl → (q_contents (free_list_ sl) = [] → growth_ready sl s) →
  ∃ off sl' s' new, slab_allocate (sl, s) = Done off (sl', s') ∧ ca_ok s' ∧
    slab_size_ sl' = slab_size_ sl ∧ (∀ a, ca_used s a → ca_used s' a) ∧
    pairwise disjoint_range (map (λ o, (o, slab_size_ sl)) new) ∧
    (∀ o, o ∈ new → 0 ≤ o ∧ ∀ a, o ≤ a < o + slab_size_ sl → ¬ ca_used s a ∧ ca_used s' a) ∧
    ((off = -1 ∧ new ++ q_contents (free_list_ sl) = [] ∧ q_contents (free_list_ sl') = [] ∧
      ca_allocate (num_slabs_ sl * slab_size_ sl) s = Done (-1) s') ∨
     new ++ q_contents (free_list_ sl) ≡ₚ off :: q_contents (free_list_ sl')).
Proof.
  intros Hok Hsz Hgr. unfold slab_allocate, mbind, M_bind, get, mret, M_ret.
  destruct (slab_try_dequeue_spec sl s) as [(o & sl' & Hd & Hs1 & Hs2 & Hp)|[Hd Hnil]];
    rewrite Hd; simpl.
  { exists o, sl', s, []. split_and!; try done; [|by right].
    intros o' Ho'. by apply not_elem_of_nil in Ho'. }
  rewrite Hd. cbn [fst snd]. destruct (Hgr Hnil) as (Hn & Hb & Hready).
  destruct (get_slabs_spec sl s (num_slabs_ sl) Hok Hsz Hn Hb Hready)
    as (sl1 & s1 & new & Hg & Hok1 & Hsz1 & Hmono & Hcont & Hdis & Hfresh & Hnone).
  rewrite Hg.
  destruct (slab_try_dequeue_spec sl1 s1) as [(o & sl2 & Hd2 & Hs1 & Hs2 & Hp)|[Hd2 Hnil2]];
    rewrite Hd2.
  - exists o, sl2, s1, new. split_and!; try done; [congruence|].
    right. by rewrite <-Hp, Hcont.
  - assert (new ++ q_contents (free_list_ sl) = []) as Hemp by (apply Permutation_nil; by rewrite <-Hcont, Hnil2).
    exists (-1), sl1, s1, new. split_and!; try done. left. split_and!; [done|done|done|]. apply Hnone. by apply app_nil in Hemp as [-> _].
Qed.

(** ** The local allocator never hands out overlapping blocks *)

Definition avail (slabs : gmap Z SlabAllocator) : list (Z * Z) :=
  concat (map (λ p, ranges p.2) (map_to_list slabs)).

(** [live] lists the blocks given to the program and not yet freed. *)
Definition local_inv (st : local_state) (live : list (Z * Z)) : Prop :=
  ca_ok st.2 ∧
  (∀ sz sl, st.1 !! sz = Some sl → slab_size_ sl = sz ∧ 0 < sz) ∧
  pairwise disjoint_range (avail st.1 ++ live) ∧
  Forall (granted st.2) (avail st.1 ++ live).

Lemma avail_insert slabs sz sl :
  avail (<[sz := sl]> slabs) ≡ₚ ranges sl ++ avail (delete sz slabs).
Proof.
  unfold avail. rewrite <-insert_delete_eq.
  rewrite map_to_list_insert by apply lookup_delete_eq. done.
Qed.

Lemma avail_lookup slabs sz sl :
  slabs !! sz = Some sl → avail slabs ≡ₚ ranges sl ++ avail (delete sz slabs).
Proof. intros H. rewrite <-avail_insert. by rewrite insert_id. Qed.

Lemma granted_mono s s' r :
  (∀ a, ca_used s a → ca_used s' a) → granted s r → granted s' r.
Proof. intros Hm [H1 H2]. split; [done|]. intros a Ha. by apply Hm, H2. Qed.

(** Fresh slabs are disjoint from every range granted before. *)
Lemma fresh_disjoint s o sz rs :
  0 < sz → Forall (granted s) rs → (∀ a, o ≤ a < o + sz → ¬ ca_used s a) →
  Forall (disjoint_range (o, sz)) rs.
Proof.
  intros Hsz Hrs Hf. apply (Forall_impl _ (P := granted s)); [|done]. intros [o' n'] [Hn' Hg'].
  unfold disjoint_range. simpl in *.
  destruct (decide (o + sz ≤ o' ∨ o' + n' ≤ o)) as [|Hno]; [done|exfalso].
  apply (Hf (Z.max o o')); [lia|]. apply Hg'. lia.
Qed.

Lemma local_inv_grow slabs s s' live sz sl new :
  local_inv (slabs, s) live → slabs !! sz = Some sl →
  (∀ a, ca_used s a → ca_used s' a) →
  pairwise disjoint_range (map (λ o, (o, sz)) new) →
  (∀ o, o ∈ new → 0 ≤ o ∧ ∀ a, o ≤ a < o + sz → ¬ ca_used s a ∧ ca_used s' a) →
  let all := map (λ o, (o, sz)) (new ++ q_contents (free_list_ sl)) ++
             avail (delete sz slabs) ++ live in
  pairwise disjoint_range all ∧ Forall (granted s') all.
Proof.
  intros (Hok & Hsz & Hdis & Hgr) Hsl Hmono Hnew Hfresh all. simpl in *.
  destruct (Hsz sz sl Hsl) as [Hszeq Hpos].
  assert (avail slabs ++ live ≡ₚ
    map (λ o, (o, sz)) (q_contents (free_list_ sl)) ++ avail (delete sz slabs) ++ live) as Hperm.
  { rewrite (avail_lookup _ _ _ Hsl). unfold ranges. by rewrite Hszeq, app_assoc. }
  unfold all. rewrite map_app, <-app_assoc.
  apply (pairwise_perm _ _ _ Hperm) in Hdis. rewrite Hperm in Hgr. split.
  - rewrite pairwise_app. split_and!; [done|done|].
    apply Forall_map, list.Forall_forall. intros o Ho.
    eapply fresh_disjoint; [done|done|]. intros a Ha. by apply (Hfresh o Ho).
  - rewrite Forall_app. split.
    + apply Forall_map, list.Forall_forall. intros o Ho. split; [done|].
      intros a Ha. by apply (Hfresh o Ho).
    + apply (Forall_impl _ (P := granted s)); [|done]. intros r. by apply granted_mono.
Qed.

(** The constructor's step for one size establishes the invariant. *)
Lemma slab_init_inv slabs s live sz n :
  local_inv (slabs, s) live → slabs !! sz = None → 0 < sz → 0 < n → n * sz < 2 ^ 50 →
  ca_ready s (n * sz) →
  ∃ sl s', slab_init sz n s = Done sl s' ∧ local_inv (<[sz := sl]> slabs, s') live.
Proof.
  intros Hinv Hnone Hsz Hn Hb Hready. pose proof Hinv as (Hok & Hsizes & Hdis & Hgr).
  destruct (get_slabs_spec (mkSlab sz n q_empty) s n Hok Hsz Hn Hb Hready)
    as (sl & s' & new & Hrun & Hok' & Hsz' & Hmono & Hcont & Hnew & Hfresh & _).
  exists sl, s'. unfold slab_init. rewrite Hrun. split; [done|]. simpl in *.
  rewrite q_contents_empty, app_nil_r in Hcont.
  assert (avail (<[sz:=sl]> slabs) ++ live ≡ₚ
    map (λ o, (o, sz)) new ++ avail slabs ++ live) as Hperm.
  { rewrite avail_insert, delete_id by done. unfold ranges.
    by rewrite Hsz', Hcont, app_assoc. }
  split_and!; simpl; [done| | |].
  - intros sz' sl'. rewrite lookup_insert. case_decide; [intros; simplify_eq; lia|apply Hsizes].
  - eapply pairwise_perm; [apply _|symmetry; exact Hperm|]. rewrite pairwise_app.
    split_and!; [done|done|]. apply Forall_map, list.Forall_forall. intros o Ho.
    apply (fresh_disjoint s); [done|done|]. intros a Ha. by apply (Hfresh o Ho).
  - rewrite Hperm, Forall_app. split.
    + apply Forall_map, list.Forall_forall. intros o Ho. split; [done|].
      intros a Ha. by apply (Hfresh o Ho).
    + apply (Forall_impl _ (P := granted s)); [|done]. intros r. by apply granted_mono.
Qed.

Lemma local_inv_empty s : ca_ok s → local_inv (∅, s) [].
Proof.
  intros Hok. unfold local_inv, avail. simpl. rewrite map_to_list_empty. simpl.
  split_and!; [done|intros ? ?; by rewrite lookup_empty|done|done].
Qed.

(** The allocator after the free list of one size became [l] and the program's
    blocks became [live'], when together they are the blocks [blocks]. *)
Lemma local_inv_put (slabs : gmap Z SlabAllocator) (s : S) blocks size sl l live :
  ca_ok s → (∀ sz sl0, slabs !! sz = Some sl0 → slab_size_ sl0 = sz ∧ 0 < sz) → 0 < size → slab_size_ sl = size →
  q_contents (free_list_ sl) ≡ₚ l → pairwise disjoint_range blocks → Forall (granted s) blocks →
  blocks ≡ₚ (map (λ o, (o, size)) l ++ avail (delete size slabs)) ++ live → local_inv (<[size := sl]> slabs, s) live.
Proof.
  intros Hok Hsz Hpos Hs Hl Hd Hg Hp.
  assert (avail (<[size := sl]> slabs) ++ live ≡ₚ (map (λ o, (o, size)) l ++ avail (delete size slabs)) ++ live) as Hperm.
  { rewrite avail_insert. unfold ranges. by rewrite Hs, Hl. }
  split_and!; simpl; [done| | |].
  - intros sz sl0. rewrite lookup_insert. case_decide; [intros; simplify_eq; lia|apply Hsz].
  - eapply pairwise_perm; [apply _| |exact Hd]. by rewrite Hperm, Hp.
  - by rewrite Hperm, <-Hp.
Qed.

(** Freeing a block of a managed size makes it available again. *)
Lemma local_free_run st live o size sl :
  local_inv st ((o, size) :: live) → st.1 !! size = Some sl →
  ∃ st', local_free size o st = Done tt st' ∧ local_inv st' live ∧ (o, size) ∈ avail st'.1.
Proof.
  destruct st as [slabs s]. intros (Hok & Hsz & Hdis & Hgr) Hsl. simpl in *. destruct (Hsz size sl Hsl) as [Heq Hpos].
  unfold local_free. simpl. rewrite Hsl. simpl. set (sl' := mkSlab (slab_size_ sl) (num_slabs_ sl) (q_enqueue o (free_list_ sl))).
  exists (<[size := sl']> slabs, s). split; [done|]. split.
  - eapply (local_inv_put _ _ _ _ _ (o :: q_contents (free_list_ sl)));
      [done|done|done|done|apply q_contents_enqueue|exact Hdis|exact Hgr|].
    rewrite (avail_lookup _ _ _ Hsl). unfold ranges. rewrite Heq. simpl. rewrite <-Permutation_middle. done.
  - simpl. rewrite avail_insert. apply elem_of_app. left. unfold ranges, sl'. simpl. rewrite q_contents_enqueue, Heq. left.
Qed.

Lemma local_inv_live_perm st live live' : live ≡ₚ live' → local_inv st live → local_inv st live'.
Proof.
  intros Hp (H1 & H2 & H3 & H4). split_and!; [done|done| |by rewrite <-Hp].
  eapply pairwise_perm; [apply _| |exact H3]. by rewrite Hp.
Qed.

(** C24: [LocalAllocator::allocate] in any state in which no memory is in two blocks
    at once.  For a size it does not manage it returns -1 and changes nothing.  For a
    size it manages, provided that, when it has to grow, the request for the chunk is
    one the chunk allocator can answer, it returns: either a block that overlaps no
    block in use and no free slab of any size and lies in memory granted by the chunk
    allocator, or -1, which happens only when its free list was empty and the chunk
    allocator refused the growth, and hands out nothing.  And freeing any block in use
    of a managed size puts just this block back among the free ones.  After each of
    these, no memory is in two blocks at once. *)
Theorem local_allocate_no_overlap st live size :
  local_inv st live → (∀ sl, st.1 !! size = Some sl → q_contents (free_list_ sl) = [] → growth_ready sl st.2) →
  (∃ off st', local_allocate size st = Done off st' ∧
    match st.1 !! size with
    | None => off = -1 ∧ st' = st
    | Some sl =>
        (local_inv st' ((off, size) :: live) ∧ Forall (disjoint_range (off, size)) live) ∨
        (off = -1 ∧ q_contents (free_list_ sl) = [] ∧ ca_allocate (num_slabs_ sl * size) st.2 = Done (-1) st'.2 ∧ local_inv st' live)
    end) ∧
  (∀ o live', live ≡ₚ (o, size) :: live' → is_Some (st.1 !! size) →
    ∃ st', local_free size o st = Done tt st' ∧ local_inv st' live' ∧ (o, size) ∈ avail st'.1).
Proof.
  destruct st as [slabs s]. intros Hinv Hready. simpl in *. split; cycle 1.
  { intros o live' Hp [sl Hsl]. eapply local_free_run; [by eapply local_inv_live_perm|done]. }
  unfold local_allocate. simpl. destruct (slabs !! size) as [sl|] eqn:Hsl; [|by exists (-1), (slabs, s)].
  pose proof Hinv as (Hok & Hsz & _). destruct (Hsz size sl Hsl) as [Heq Hpos].
  destruct (slab_allocate_spec sl s Hok ltac:(lia) (Hready sl eq_refl))
    as (off & sl' & s' & new & Hrun & Hok' & Hsz' & Hmono & Hnew & Hfresh & Hcase).
  rewrite Heq in *.
  destruct (local_inv_grow slabs s s' live size sl new Hinv Hsl Hmono Hnew Hfresh)
    as [Hdis Hgr].
  exists off, (<[size := sl']> slabs, s'). rewrite Hrun. split; [done|].
  destruct Hcase as [(-> & Hnil & Hnil' & Hca)|Hperm].
  - right. split; [done|]. split; [by apply app_nil in Hnil as [_ ->]|]. split; [done|].
    eapply (local_inv_put _ _ _ _ _ []); [done|done|done|done|by rewrite Hnil'|exact Hdis|exact Hgr|].
    by rewrite Hnil, <-app_assoc.
  - left.
    assert (map (λ o, (o, size)) (new ++ q_contents (free_list_ sl)) ++
              avail (delete size slabs) ++ live ≡ₚ
            (map (λ o, (o, size)) (q_contents (free_list_ sl')) ++ avail (delete size slabs))
              ++ (off, size) :: live) as Hall.
    { rewrite Hperm. simpl. rewrite app_assoc. by rewrite Permutation_middle. }
    split; [by eapply local_inv_put|]. apply (pairwise_perm _ _ _ Hall) in Hdis.
    by apply pairwise_app in Hdis as (_ & [Hd _] & _).
Qed.
End slab.

Arguments SlabAllocator : clear implicits.
Arguments mkSlab {Q}.

(** A local allocator for 8-byte blocks, four at a time, over two servers. *)
Definition demo_local : gmap Z (SlabAllocator fifo) * Cluster fifo :=
  match local_init [8] 4 (∅, cluster_init 2 4096) with Done _ st | Fault _ st => st end.

(** A block is allocated and given back. *)
Lemma local_allocate_no_overlap_witness :
  ∃ off st' st'', local_allocate 8 demo_local = Done off st' ∧ local_inv st' [(off, 8)] ∧
    local_free 8 off st' = Done tt st'' ∧ local_inv st'' [] ∧ (off, 8) ∈ avail st''.1.
Proof.
  assert (cluster_ok (cluster_init (Q := fifo) 2 4096)) as Hok by (apply cluster_init_ok; lia).
  destruct (slab_init_inv (Q := fifo) ∅ (cluster_init 2 4096) [] 8 4) as (sl & s' & Hrun & Hinv);
    [by apply local_inv_empty|done|lia|lia|lia| |].
  { split; [lia|]. apply Forall_replicate. simpl. lia. }
  assert (demo_local = (<[8 := sl]> ∅, s')) as Hd.
  { unfold demo_local. cbn [local_init]. unfold mbind, M_bind, zoom. cbn [snd]. by rewrite Hrun. }
  rewrite <-Hd in Hinv. clear Hrun Hd.
  assert (match demo_local.1 !! 8 with Some sl => bool_decide (q_contents (free_list_ sl) ≠ []) | None => false end = true) as Hne
    by (vm_compute; reflexivity).
  assert (match local_allocate 8 demo_local with
          | Done _ st' => match st'.1 !! 8 with Some sl => bool_decide (q_contents (free_list_ sl) ≠ []) | None => false end
          | _ => false end = true) as Hne' by (vm_compute; reflexivity).
  revert Hinv Hne Hne'. generalize demo_local. intros st0 Hinv Hne Hne'.
  destruct (st0.1 !! 8) as [sl0|] eqn:Hsl; [|discriminate]. apply bool_decide_eq_true in Hne.
  destruct (local_allocate_no_overlap st0 [] 8 Hinv) as [(off & st' & Hr & Hc) _].
  { intros sl1 H1 H2. rewrite Hsl in H1. injection H1 as <-. destruct (Hne H2). }
  rewrite Hsl in Hc. destruct Hc as [[Hi _]|(_ & He & _)]; [|destruct (Hne He)]. rewrite Hr in Hne'.
  destruct (st'.1 !! 8) as [sl1|] eqn:Hsl'; [|discriminate]. apply bool_decide_eq_true in Hne'.
  destruct (local_allocate_no_overlap st' [(off, 8)] 8 Hi) as [_ Hf].
  { intros sl2 H1 H2. rewrite Hsl' in H1. injection H1 as <-. destruct (Hne' H2). }
  destruct (Hf off [] (reflexivity _)) as (st'' & H1 & H2 & H3); [exists sl1; exact Hsl'|].
  exists off, st', st''. split_and!; assumption.
Defined.
