(* ===== verification/RdmaManager.v ===== *)
(** * The RDMA manager (src/rdma/rdma_manager.hpp, .cpp)

    [RDMAManager] maps global addresses to memory servers, runs single
    operations and batches, models queueing delay and bandwidth, and counts
    operations per thread.  [Net] is the state one thread sees: the manager, the
    servers, the thread's id and tracker, the clock it reads, and [others], what
    the other threads do to the remote memories: before each operation of this
    thread executes, the next element of [others] is applied.  Sequential runs
    have [others = []].

    The [compare_exchange_weak] loop of [get_server_time_delay] is the load and
    the successful exchange of one iteration.  A sleep advances [slept_ns_].
    Bandwidth delays are exact integer divisions: the long double quotient of the
    source rounds down to the same integer for every size below [2^34] bytes. *)

From S2P Require Import Prelude GlobalAddress RdmaSim ThreadStats Queue MemoryServer.

Record RDMAThreadStats := mkRTS { thread_id : Z; op_counts : list Z; total_rtt_ns : Z }.

Record RDMAManager := mkMgr {
  base_rtt_ns_ : Z;
  sleep_enabled_ : bool;
  server_finish_times_ : gmap nat Z;
  thread_stats_ : list RDMAThreadStats;
  tls_stats : gmap Z nat;                       (* thread id to its entry *)
  thread_stats_tracker_ : option ThreadStatsTracker;
  clock_ : nat → Z;                             (* the [n]-th reading of the clock *)
  clock_reads_ : nat;
  slept_ns_ : Z
}.

Definition SIMULATED_BW_BPS : Z := 12500000000.

(** [RDMAManager(...)]; [reset_stats] finds no entry to reset. *)
Definition manager_init (base_rtt_ns : Z) (clock : nat → Z) : RDMAManager :=
  mkMgr base_rtt_ns true ∅ [] ∅ None clock 0 0.

Definition set_sleep (b : bool) (m : RDMAManager) : RDMAManager :=
  mkMgr (base_rtt_ns_ m) b (server_finish_times_ m) (thread_stats_ m) (tls_stats m)
    (thread_stats_tracker_ m) (clock_ m) (clock_reads_ m) (slept_ns_ m).

Definition set_thread_stats_tracker (t : option ThreadStatsTracker) (m : RDMAManager) : RDMAManager :=
  mkMgr (base_rtt_ns_ m) (sleep_enabled_ m) (server_finish_times_ m) (thread_stats_ m)
    (tls_stats m) t (clock_ m) (clock_reads_ m) (slept_ns_ m).

Definition calculate_bw_delay_ns (o : RDMAOp) : Z :=
  let bytes := match op o with
               | op_read _ n | op_write _ n => n
               | op_cas _ _ | op_faa _ => 8
               end in
  u64 (bytes * 1000000000 / SIMULATED_BW_BPS).

(** [steady_clock::now()] *)
Definition get_current_time_ns : M RDMAManager Z := λ m,
  Done (clock_ m (clock_reads_ m))
    (mkMgr (base_rtt_ns_ m) (sleep_enabled_ m) (server_finish_times_ m) (thread_stats_ m)
       (tls_stats m) (thread_stats_tracker_ m) (clock_ m) (S (clock_reads_ m)) (slept_ns_ m)).

Definition sleep_ns (interval : Z) : M RDMAManager unit :=
  modify (λ m, if sleep_enabled_ m
               then mkMgr (base_rtt_ns_ m) (sleep_enabled_ m) (server_finish_times_ m)
                      (thread_stats_ m) (tls_stats m) (thread_stats_tracker_ m) (clock_ m)
                      (clock_reads_ m) (slept_ns_ m + interval)
               else m).

Definition put_finish_time (server : nat) (t : Z) : M RDMAManager unit :=
  modify (λ m, mkMgr (base_rtt_ns_ m) (sleep_enabled_ m)
                 (<[server := t]> (server_finish_times_ m)) (thread_stats_ m) (tls_stats m)
                 (thread_stats_tracker_ m) (clock_ m) (clock_reads_ m) (slept_ns_ m)).

Definition get_server_time_delay (server : nat) (T_trans : Z) : M RDMAManager Z :=
  m ← get;
  let T_prev_finish := default 0 (server_finish_times_ m !! server) in
  T_now ← get_current_time_ns;
  let T_server_free := if T_now <? T_prev_finish then T_prev_finish else T_now in
  let T_expected_finish := u64 (T_server_free + T_trans) in
  _ ← put_finish_time server T_expected_finish;
  let T_queue := if T_now <? T_prev_finish then u64 (T_prev_finish - T_now) else 0 in
  mret (u64 (T_queue + T_trans)).

(** [ensure_thread_stats()]: the index of the calling thread's entry. *)
Definition ensure_thread_stats (tid : Z) : M RDMAManager nat := λ m,
  match tls_stats m !! tid with
  | Some i => Done i m
  | None =>
      let i := length (thread_stats_ m) in
      Done i (mkMgr (base_rtt_ns_ m) (sleep_enabled_ m) (server_finish_times_ m)
                (thread_stats_ m ++ [mkRTS tid (replicate 4 0) 0]) (<[tid := i]> (tls_stats m))
                (thread_stats_tracker_ m) (clock_ m) (clock_reads_ m) (slept_ns_ m))
  end.

(** [stats.op_counts[type]++; stats.total_rtt_ns += rtt] *)
Definition add_stats (i : nat) (t : RDMAOpType) (rtt : Z) : M RDMAManager unit :=
  modify (λ m, mkMgr (base_rtt_ns_ m) (sleep_enabled_ m) (server_finish_times_ m)
    (alter (λ e, mkRTS (thread_id e) (incr (type_idx t) (op_counts e))
                   (u64 (total_rtt_ns e + rtt))) i (thread_stats_ m))
    (tls_stats m) (thread_stats_tracker_ m) (clock_ m) (clock_reads_ m) (slept_ns_ m)).

Definition on_tracker (f : ThreadStatsTracker → ThreadStatsTracker) : M RDMAManager unit :=
  modify (λ m, set_thread_stats_tracker (f <$> thread_stats_tracker_ m) m).

(** [collect_stats()]: totals over the threads, and one snapshot per thread. *)
Definition collect_stats (m : RDMAManager) : list Z * Z * list RDMAThreadStats :=
  fold_left (λ '(counts, rtt, per_thread) e,
    (zip_with (λ a b, u64 (a + b)) counts (op_counts e), u64 (rtt + total_rtt_ns e),
     per_thread ++ [e])) (thread_stats_ m) (replicate 4 0, 0, []).

Definition reset_stats (m : RDMAManager) : RDMAManager :=
  mkMgr (base_rtt_ns_ m) (sleep_enabled_ m) (server_finish_times_ m)
    (map (λ e, mkRTS (thread_id e) (map (λ _, 0) (op_counts e)) 0) (thread_stats_ m))
    (tls_stats m) (thread_stats_tracker_ m) (clock_ m) (clock_reads_ m) (slept_ns_ m).

Section net.
Context {Q : Type → Type} `{!ConcurrentQueue Q}.

Definition mems (c : Cluster Q) : list memory := map rdma_ (servers_ c).

Definition set_mems (ms : list memory) (c : Cluster Q) : Cluster Q :=
  mkCluster (imap (λ i s, set_rdma (default (rdma_ s) (ms !! i)) s) (servers_ c))
    (rr c) (promises c) (next_promise c).

Record Net := mkNet {
  mgr : RDMAManager;
  cluster : Cluster Q;
  tid : Z;
  others : list (list memory → list memory)
}.

Definition on_mgr {A} (m : M RDMAManager A) : M Net A :=
  zoom mgr (λ x n, mkNet x (cluster n) (tid n) (others n)) m.

(** The next action of the other threads. *)
Definition interfere : M Net unit := λ n,
  match others n with
  | [] => Done tt n
  | f :: fs => Done tt (mkNet (mgr n) (set_mems (f (mems (cluster n))) (cluster n)) (tid n) fs)
  end.

(** [get_server]: the server's position and the local address. *)
Definition get_server (gaddr : GlobalAddress) (n : Net) : option nat * Z :=
  let server_id := Z.to_nat (server_index gaddr) in
  (if (server_id <? length (servers_ (cluster n)))%nat then Some server_id else None,
   offset gaddr).

(** Runs a verb on the region of server [i]. *)
Definition on_region {A} (i : nat) (m : M memory A) : M Net A := λ n,
  match servers_ (cluster n) !! i with
  | None => Fault OutOfBounds n
  | Some s =>
      let put x := mkNet (mgr n) (mkCluster (<[i := set_rdma x s]> (servers_ (cluster n)))
                     (rr (cluster n)) (promises (cluster n)) (next_promise (cluster n)))
                     (tid n) (others n) in
      match m (rdma_ s) with
      | Done a x => Done a (put x)
      | Fault f x => Fault f (put x)
      end
  end.

(** The FAA case reports success whatever the verb did. *)
Definition execute_rdma (o : RDMAOp) : M Net (bool * op_out) :=
  _ ← interfere;
  n ← get;
  match get_server (addr o) n with
  | (None, _) => mret (false, out_none)
  | (Some server, local_addr) => on_region server (rdma_verb (mkOp local_addr (op o)))
  end.

Definition perform_op (o : RDMAOp) : M Net (bool * op_out) :=
  n ← get;
  _ ← assert_ (Z.to_nat (server_index (addr o)) <? length (servers_ (cluster n)))%nat;
  match get_server (addr o) n with
  | (None, _) => mret (false, out_none)
  | (Some server, _) =>
      let one_way_ns := base_rtt_ns_ (mgr n) / 2 in
      let bw_delay_ns := calculate_bw_delay_ns o in
      server_delay ← on_mgr (get_server_time_delay server bw_delay_ns);
      let pre_op_sleep := u64 (one_way_ns + server_delay) in
      _ ← on_mgr (sleep_ns pre_op_sleep);
      result ← execute_rdma o;
      let post_op_sleep :=
        u64 (one_way_ns + (if decide (type_ o = READ) then bw_delay_ns else 0)) in
      _ ← on_mgr (sleep_ns post_op_sleep);
      stats ← on_mgr (ensure_thread_stats (tid n));
      _ ← on_mgr (add_stats stats (type_ o) (u64 (pre_op_sleep + post_op_sleep)));
      _ ← on_mgr (on_tracker (record_rdma_op o));
      mret result
  end.

(** The loop of [perform_batch]: the outputs so far, and whether every
    operation succeeded. *)
Fixpoint batch_loop (one_way_ns : Z) (stats : nat) (ops : list RDMAOp)
    (max_server_path_ns : Z) : M Net (bool * list op_out * Z) :=
  match ops with
  | [] => mret (true, [], max_server_path_ns)
  | o :: ops' =>
      n ← get;
      match get_server (addr o) n with
      | (None, _) => mret (false, [], max_server_path_ns)
      | (Some server, _) =>
          let bw_delay_ns := calculate_bw_delay_ns o in
          server_delay ← on_mgr (get_server_time_delay server bw_delay_ns);
          let max_server_path_ns := Z.max max_server_path_ns server_delay in
          result ← execute_rdma o;
          if negb result.1 then mret (false, [result.2], max_server_path_ns)
          else
            _ ← on_mgr (add_stats stats (type_ o) (u64 (one_way_ns + server_delay + one_way_ns)));
            r ← batch_loop one_way_ns stats ops' max_server_path_ns;
            mret (r.1.1, result.2 :: r.1.2, r.2)
      end
  end.

Definition perform_batch (ops : list RDMAOp) : M Net (bool * list op_out) :=
  match ops with
  | [] => mret (true, [])
  | _ =>
      n ← get;
      stats ← on_mgr (ensure_thread_stats (tid n));
      let one_way_ns := base_rtt_ns_ (mgr n) / 2 in
      _ ← on_mgr (sleep_ns one_way_ns);
      r ← batch_loop one_way_ns stats ops 0;
      if negb r.1.1 then mret (false, r.1.2)
      else
        _ ← on_mgr (sleep_ns (u64 (r.2 + one_way_ns)));
        _ ← on_mgr (on_tracker (record_rdma_ops ops));
        mret (true, r.1.2)
  end.

(** ** Object access and remote locks *)

(** [rdma_read_object]/[rdma_write_object] on the bytes of the object. *)
Definition rdma_read_object (gaddr : GlobalAddress) (size : Z) : M Net (bool * list Z) :=
  r ← perform_op (mkOp gaddr (op_read true size));
  mret (r.1, match r.2 with out_bytes d => d | _ => [] end).

Definition rdma_write_object (gaddr : GlobalAddress) (obj : list Z) : M Net bool :=
  r ← perform_op (mkOp gaddr (op_write (Some obj) (Z.of_nat (length obj))));
  mret r.1.

Definition get_read_batch (gaddrs : list GlobalAddress) (size : Z) : list RDMAOp :=
  map (λ a, mkOp a (op_read true size)) gaddrs.

Definition get_write_batch (gaddrs : list GlobalAddress) (objs : list (list Z)) : list RDMAOp :=
  zip_with (λ a obj, mkOp a (op_write (Some obj) (Z.of_nat (length obj)))) gaddrs objs.

Definition rdma_read_batch (gaddrs : list GlobalAddress) (size : Z) : M Net (bool * list (list Z)) :=
  r ← perform_batch (get_read_batch gaddrs size);
  mret (r.1, map (λ o, match o with out_bytes d => d | _ => [] end) r.2).

Definition rdma_write_batch (gaddrs : list GlobalAddress) (objs : list (list Z)) : M Net bool :=
  r ← perform_batch (get_write_batch gaddrs objs); mret r.1.

(** The value of [expected] after a CAS. *)
Definition expected_after (e : Z) (o : op_out) : Z :=
  match o with out_expected v => v | _ => e end.

Definition rdma_try_acquire_lock (lock_address : GlobalAddress) : M Net bool :=
  r ← perform_op (mkOp lock_address (op_cas 0 1));
  _ ← assert_ r.1;
  mret (expected_after 0 r.2 =? 0).

(** [perform_op(op) == 1] compares the [bool] the operation returned. *)
Definition rdma_release_lock (lock_address : GlobalAddress) : M Net bool :=
  r ← perform_op (mkOp lock_address (op_faa (-1))); mret r.1.

Definition rdma_cas_release_lock (lock_address : GlobalAddress) : M Net bool :=
  r ← perform_op (mkOp lock_address (op_write (Some (le_bytes 8 0)) 8)); mret r.1.

(** ** The effect of the manager on the remote memories *)

(** The cluster with the region of server [i] replaced. *)
Definition put_region (i : nat) (x : memory) (c : Cluster Q) : Cluster Q :=
  mkCluster (alter (set_rdma x) i (servers_ c)) (rr c) (promises c) (next_promise c).

(** The cluster as an operation finds it: after the next action of the others. *)
Definition cluster_at (n : Net) : Cluster Q :=
  match others n with
  | [] => cluster n
  | f :: _ => set_mems (f (mems (cluster n))) (cluster n)
  end.

Lemma on_mgr_done {A} (m : M RDMAManager A) n a g :
  m (mgr n) = Done a g → on_mgr m n = Done a (mkNet g (cluster n) (tid n) (others n)).
Proof. unfold on_mgr, zoom. by intros ->. Qed.

Lemma get_server_length (o : RDMAOp) n n' :
  length (servers_ (cluster n')) = length (servers_ (cluster n)) →
  get_server (addr o) n' = get_server (addr o) n.
Proof. unfold get_server. by intros ->. Qed.

Lemma length_cluster_at n : length (servers_ (cluster_at n)) = length (servers_ (cluster n)).
Proof. unfold cluster_at, set_mems. destruct (others n); simpl; rewrite ?length_imap; done. Qed.

Lemma put_region_insert i x (c : Cluster Q) s :
  servers_ c !! i = Some s →
  put_region i x c = mkCluster (<[i := set_rdma x s]> (servers_ c)) (rr c) (promises c) (next_promise c).
Proof.
  intros H. unfold put_region. f_equal. apply list_eq. intros j.
  destruct (decide (i = j)) as [<-|Hne].
  - rewrite list_lookup_alter_eq, H, list_lookup_insert_eq by (by eapply lookup_lt_Some). done.
  - by rewrite list_lookup_alter_ne, list_lookup_insert_ne by done.
Qed.

Lemma get_server_time_delay_run server T_trans m :
  let prev := default 0 (server_finish_times_ m !! server) in
  let now := clock_ m (clock_reads_ m) in
  get_server_time_delay server T_trans m =
    Done (u64 ((if now <? prev then u64 (prev - now) else 0) + T_trans))
      (mkMgr (base_rtt_ns_ m) (sleep_enabled_ m)
         (<[server := u64 ((if now <? prev then prev else now) + T_trans)]> (server_finish_times_ m))
         (thread_stats_ m) (tls_stats m) (thread_stats_tracker_ m) (clock_ m)
         (S (clock_reads_ m)) (slept_ns_ m)).
Proof. reflexivity. Qed.

(** What [execute_rdma] does, in the presence of the other threads. *)
Lemma execute_rdma_run o n i s :
  Z.to_nat (server_index (addr o)) = i →
  servers_ (cluster_at n) !! i = Some s →
  execute_rdma o n =
    match rdma_verb (mkOp (offset (addr o)) (op o)) (rdma_ s) with
    | Done r x => Done r (mkNet (mgr n) (put_region i x (cluster_at n)) (tid n) (tail (others n)))
    | Fault f x => Fault f (mkNet (mgr n) (put_region i x (cluster_at n)) (tid n) (tail (others n)))
    end.
Proof.
  intros Hi Hs. unfold execute_rdma.
  rewrite (bind_done _ _ n tt (mkNet (mgr n) (cluster_at n) (tid n) (tail (others n)))).
  2:{ unfold interfere, cluster_at. destruct n as [g c t [|f fs]]; done. }
  erewrite bind_done by (unfold get; reflexivity).
  unfold get_server. rewrite Hi. cbn [cluster].
  rewrite (proj2 (Nat.ltb_lt _ _)) by (by eapply lookup_lt_Some).
  unfold on_region. cbn [cluster]. rewrite Hs.
  destruct (rdma_verb _ _) as [r x|f x]; by rewrite (put_region_insert i x _ s Hs).
Qed.

(** The thread has a statistics tracker. *)
Definition tracked (g : RDMAManager) : bool :=
  match thread_stats_tracker_ g with Some _ => true | None => false end.

(** The manager's bookkeeping always returns, and leaves the thread its tracker. *)
Definition total {A} (m : M RDMAManager A) : Prop :=
  ∀ g, ∃ a g', m g = Done a g' ∧ tracked g' = tracked g.

Lemma time_delay_total server T : total (get_server_time_delay server T).
Proof. intros g. do 2 eexists. split; [apply get_server_time_delay_run|done]. Qed.

Lemma modify_total f : (∀ g, tracked (f g) = tracked g) → total (modify f).
Proof. intros H g. by exists tt, (f g). Qed.

Lemma sleep_total ns : total (sleep_ns ns).
Proof. apply modify_total. intros g. by destruct (sleep_enabled_ g). Qed.

Lemma add_stats_total i t rtt : total (add_stats i t rtt).
Proof. by apply modify_total. Qed.

Lemma on_tracker_total f : total (on_tracker f).
Proof. apply modify_total. intros g. unfold tracked. simpl. by destruct (thread_stats_tracker_ g). Qed.

Lemma ensure_total t : total (ensure_thread_stats t).
Proof. intros g. unfold ensure_thread_stats. destruct (tls_stats g !! t); eauto. Qed.

Lemma on_mgr_total {A B} (m : M RDMAManager A) (k : A → M Net B) n :
  total m → ∃ a g, (on_mgr m ≫= k) n = k a (mkNet g (cluster n) (tid n) (others n)) ∧
                   tracked g = tracked (mgr n).
Proof.
  intros Ht. destruct (Ht (mgr n)) as (a & g & H & Htr). exists a, g.
  split; [|done]. by apply bind_done, on_mgr_done.
Qed.

(** One step of the bookkeeping: its result and the new manager are some values. *)
Ltac mgr_step a g H :=
  match goal with |- context [(on_mgr ?m ≫= ?k) ?n] =>
    destruct (on_mgr_total m k n) as (a & g & -> & H);
      [first [apply time_delay_total | apply ensure_total | apply sleep_total
             | apply add_stats_total | apply on_tracker_total]|]
  end; cbn [cluster tid others mgr] in *.

(** [perform_op] is the verb on the region of the server its address names; the
    delay model and the counters change the manager only. *)
Lemma perform_op_run o n i s :
  Z.to_nat (server_index (addr o)) = i →
  servers_ (cluster_at n) !! i = Some s →
  match rdma_verb (mkOp (offset (addr o)) (op o)) (rdma_ s) with
  | Done r x => ∃ g, perform_op o n =
      Done r (mkNet g (put_region i x (cluster_at n)) (tid n) (tail (others n))) ∧
      tracked g = tracked (mgr n)
  | Fault f x => ∃ g, perform_op o n =
      Fault f (mkNet g (put_region i x (cluster_at n)) (tid n) (tail (others n)))
  end.
Proof.
  intros Hid Hs. assert (i < length (servers_ (cluster n)))%nat as Hi.
  { rewrite <-length_cluster_at. by eapply lookup_lt_Some. }
  unfold perform_op. rewrite (bind_done get _ n n n) by done.
  rewrite Hid, (proj2 (Nat.ltb_lt _ _) Hi). rewrite (bind_done (assert_ true) _ n tt n) by done.
  unfold get_server. rewrite Hid, (proj2 (Nat.ltb_lt _ _) Hi). cbv zeta.
  mgr_step d g1 T1. mgr_step u g2 T2.
  pose proof (execute_rdma_run o (mkNet g2 (cluster n) (tid n) (others n)) i s Hid Hs) as Hex.
  destruct (rdma_verb _ _) as [r y|f y].
  - rewrite (bind_done _ _ _ _ _ Hex).
    mgr_step a3 g3 T3. mgr_step a4 g4 T4. mgr_step a5 g5 T5. mgr_step a6 g6 T6.
    exists g6. split; [done|congruence].
  - rewrite (bind_fault _ _ _ _ _ Hex). by eexists.
Qed.

Lemma put_region_lookup i x (c : Cluster Q) j s :
  servers_ c !! i = Some s →
  mems (put_region i x c) !! j = if decide (i = j) then Some x else mems c !! j.
Proof.
  intros Hs. unfold mems, put_region. simpl. rewrite !list_lookup_fmap.
  case_decide as Hij; [subst j|].
  - by rewrite list_lookup_alter_eq, Hs.
  - by rewrite list_lookup_alter_ne.
Qed.

(** ** Batches *)

(** The operations one by one, as single operations, until one fails: the
    reference the batch is compared with. *)
Fixpoint ops_in_order (ops : list RDMAOp) (c : Cluster Q) : outcome (Cluster Q) (bool * list op_out) :=
  match ops with
  | [] => Done (true, []) c
  | o :: ops' =>
      let i := Z.to_nat (server_index (addr o)) in
      match servers_ c !! i with
      | None => Done (false, []) c
      | Some s =>
          match rdma_verb (mkOp (offset (addr o)) (op o)) (rdma_ s) with
          | Done (false, out) x => Done (false, [out]) (put_region i x c)
          | Done (true, out) x =>
              match ops_in_order ops' (put_region i x c) with
              | Done (b, outs) c' => Done (b, out :: outs) c'
              | Fault f c' => Fault f c'
              end
          | Fault f x => Fault f (put_region i x c)
          end
      end
  end.

(** [out] is [r] with the cluster [c] of the net it ends in. *)
Definition ends_like {A B} (out : outcome Net A) (proj : A → B) (r : outcome (Cluster Q) B)
    (g0 : RDMAManager) (t : Z) : Prop :=
  match r with
  | Done b c => ∃ a g, out = Done a (mkNet g c t []) ∧ proj a = b ∧ tracked g = tracked g0
  | Fault f c => ∃ g, out = Fault f (mkNet g c t [])
  end.

Lemma batch_loop_run ops : ∀ one_way stats mx g c t,
  ends_like (batch_loop one_way stats ops mx (mkNet g c t [])) fst (ops_in_order ops c) g t.
Proof.
  induction ops as [|o ops IH]; intros one_way stats mx g c t.
  { by exists (true, [], mx), g. }
  cbn [batch_loop ops_in_order]. rewrite (bind_done get _ _ _ _ eq_refl).
  unfold get_server. cbn [cluster].
  destruct (servers_ c !! Z.to_nat (server_index (addr o))) as [s|] eqn:Hs.
  2:{ apply lookup_ge_None in Hs. rewrite (proj2 (Nat.ltb_ge _ _) Hs).
      by exists (false, [], mx), g. }
  rewrite (proj2 (Nat.ltb_lt _ _)) by (by eapply lookup_lt_Some). cbv zeta.
  mgr_step d g1 T1.
  pose proof (execute_rdma_run o (mkNet g1 c t []) _ s eq_refl Hs) as Hex.
  destruct (rdma_verb _ _) as [[[] out] y|f y];
    [|rewrite (bind_done _ _ _ _ _ Hex)|rewrite (bind_fault _ _ _ _ _ Hex)].
  - rewrite (bind_done _ _ _ _ _ Hex). cbn [negb fst snd]. mgr_step a3 g3 T3.
    specialize (IH one_way stats (Z.max mx d) g3
      (put_region (Z.to_nat (server_index (addr o))) y c) t). unfold ends_like in *.
    destruct (ops_in_order ops _) as [[b outs] c'|f c'].
    + destruct IH as ([[b' outs'] mx'] & g' & Hl & Hp & Ht). simpl in Hp. simplify_eq.
      eexists (_, _, _), g'. split; [exact (bind_done _ _ _ _ _ Hl)|]. split; [reflexivity|congruence].
    + destruct IH as [g' Hl]. exists g'. exact (bind_fault _ _ _ _ _ Hl).
  - by exists (false, [out], Z.max mx d), g1.
  - by exists g1.
Qed.

Lemma perform_batch_run ops g c t :
  ends_like (perform_batch ops (mkNet g c t [])) id (ops_in_order ops c) g t.
Proof.
  destruct ops as [|o ops]; [by eexists _, g|].
  unfold perform_batch. rewrite (bind_done get _ _ _ _ eq_refl). cbn [tid mgr].
  mgr_step i g1 T1. cbv zeta. mgr_step u g2 T2.
  pose proof (batch_loop_run (o :: ops) (base_rtt_ns_ g / 2) i 0 g2 c t) as Hb.
  unfold ends_like in *. destruct (ops_in_order (o :: ops) c) as [[b outs] c'|f c'].
  - destruct Hb as ([[b' outs'] mx] & g3 & Hl & Hp & T3). simpl in Hp. simplify_eq.
    rewrite (bind_done _ _ _ _ _ Hl). cbn [fst snd]. destruct b; cbn [negb].
    + mgr_step u4 g4 T4. mgr_step u5 g5 T5. exists (true, outs), g5. split_and!; [done|done|congruence].
    + exists (false, outs), g3. split_and!; [done|done|congruence].
  - destruct Hb as [g3 Hl]. rewrite (bind_fault _ _ _ _ _ Hl). by eexists.
Qed.
End net.

Arguments Net : clear implicits.
Arguments mkNet {Q}.

Lemma server_init_mem_ok {Q} `{!ConcurrentQueue Q} size :
  Z.of_nat size < 2 ^ 62 → mem_ok (rdma_ (server_init (Q := Q) size)).
Proof.
  intros H. split; simpl; unfold RDMASimulation_init, memory_size; rewrite ?length_replicate; [|done].
  apply Forall_replicate. unfold byte_ok, in_width. lia.
Qed.

(** Two servers of 64 bytes, as the witnesses use them. *)
Definition demo_net : Net fifo :=
  mkNet (manager_init 1000 (λ n, Z.of_nat n)) (cluster_init 2 64) 7 [].

Section theorems.
Context {Q : Type → Type} `{!ConcurrentQueue Q}.

(** A single operation is exactly the verb on the region of the server its
    global address names, at the moment the other threads have acted: its result
    and its faults are the verb's, that region becomes what the verb leaves, and
    no other server's region changes, whatever the delays, the clock and the
    statistics are.  An address of a server that does not exist fails the
    assertion before anything happens. *)
Theorem perform_op_effect (o : RDMAOp) (n : Net Q) :
  let i := Z.to_nat (server_index (addr o)) in
  let c := cluster_at n in
  match servers_ c !! i with
  | None => perform_op o n = Fault AssertFailed n
  | Some s =>
      match rdma_verb (mkOp (offset (addr o)) (op o)) (rdma_ s) with
      | Done r x => ∃ n', perform_op o n = Done r n' ∧ tid n' = tid n ∧
          ∀ j, mems (cluster n') !! j = if decide (i = j) then Some x else mems c !! j
      | Fault f x => ∃ n', perform_op o n = Fault f n'
      end
  end.
Proof.
  intros i c. destruct (servers_ c !! i) as [s|] eqn:Hs.
  - pose proof (perform_op_run o n i s eq_refl Hs) as H. fold c in H.
    destruct (rdma_verb _ _) as [r x|f x]; [destruct H as (g & H & _)|destruct H as [g H]; by eexists].
    eexists. split_and!; [exact H|done|]. intros j. cbn [cluster]. by eapply put_region_lookup.
  - apply lookup_ge_None in Hs. unfold c in Hs. rewrite length_cluster_at in Hs.
    unfold perform_op. rewrite (bind_done get _ n n n) by done.
    fold i. by rewrite (proj2 (Nat.ltb_ge _ _) Hs).
Qed.

(** C26: a batch without interference is the operations one by one in order,
    up to and including the first that fails or names no server: the same
    outputs, the same memories, the same fault; the empty batch does nothing. *)
Theorem perform_batch_in_order (ops : list RDMAOp) (n : Net Q) :
  others n = [] →
  match ops_in_order ops (cluster n) with
  | Done r c => ∃ n', perform_batch ops n = Done r n' ∧ cluster n' = c
  | Fault f c => ∃ n', perform_batch ops n = Fault f n' ∧ cluster n' = c
  end.
Proof.
  intros Hn. destruct n as [g c t os]. simpl in Hn. subst os. cbn [cluster].
  pose proof (perform_batch_run ops g c t) as H. unfold ends_like in H.
  destruct (ops_in_order ops c) as [r c'|f c'].
  - destruct H as (a & g' & H & <- & _). by eexists.
  - destruct H as [g' H]. by eexists.
Qed.

End theorems.

Lemma perform_batch_in_order_witness :
  ∃ n', perform_batch [mkOp 8 (op_write (Some [1; 2]) 2); mkOp (ga_make 1 0) (op_faa 5);
                       mkOp 8 (op_read true 2)] demo_net =
        Done (true, [out_none; out_old 0; out_bytes [1; 2]]) n'.
Proof.
  destruct (perform_batch_in_order [mkOp 8 (op_write (Some [1; 2]) 2); mkOp (ga_make 1 0) (op_faa 5);
    mkOp 8 (op_read true 2)] demo_net eq_refl) as (n' & H & _). exists n'. exact H.
Defined.

(** ** The remote lock word *)

Section remote_lock.
Context {Q : Type → Type} `{!ConcurrentQueue Q}.

Lemma cas_zero_one a m :
  mem_ok m → 0 ≤ a → a + 8 ≤ memory_size m →
  rdma_verb (mkOp a (op_cas 0 1)) m =
    Done (true, out_expected (load64 a m)) (if load64 a m =? 0 then store64 a 1 m else m).
Proof.
  intros [_ Hsz] Ha Hr. unfold rdma_verb, rdma_cas, mbind, M_bind, get, mret, M_ret, modify. simpl.
  rewrite wrap_small by (unfold in_width; lia). rewrite (proj2 (Z.ltb_ge _ _)) by lia.
  by destruct (Z.eqb_spec (load64 a m) 0) as [->|Hne].
Qed.

Lemma faa_minus_one a m :
  mem_ok m → 0 ≤ a → a + 8 ≤ memory_size m →
  rdma_verb (mkOp a (op_faa (-1))) m =
    Done (true, out_old (load64 a m)) (store64 a (u64 (load64 a m - 1)) m).
Proof.
  intros [_ Hsz] Ha Hr. unfold rdma_verb, rdma_faa, mbind, M_bind, get, mret, M_ret, modify. simpl.
  rewrite wrap_small by (unfold in_width; lia). by rewrite (proj2 (Z.leb_le _ _)) by lia.
Qed.

Lemma write_zero a m :
  mem_ok m → 0 ≤ a → a + 8 ≤ memory_size m →
  rdma_verb (mkOp a (op_write (Some (le_bytes 8 0)) 8)) m = Done (true, out_none) (store64 a 0 m).
Proof.
  intros [_ Hsz] Ha Hr. unfold rdma_verb, rdma_write, mbind, M_bind, get, mret, M_ret, modify. simpl.
  rewrite wrap_small by (unfold in_width; lia). by rewrite (proj2 (Z.ltb_ge _ _)) by lia.
Qed.

(** The runs of the three lock operations, the word being inside a region. *)
Lemma try_acquire_run la (n : Net Q) i a s :
  Z.to_nat (server_index la) = i → offset la = a →
  servers_ (cluster_at n) !! i = Some s → mem_ok (rdma_ s) → 0 ≤ a → a + 8 ≤ memory_size (rdma_ s) →
  let v := load64 a (rdma_ s) in
  ∃ g, rdma_try_acquire_lock la n =
    Done (v =? 0) (mkNet g (put_region i (if v =? 0 then store64 a 1 (rdma_ s) else rdma_ s) (cluster_at n))
                     (tid n) (tail (others n))) ∧ tracked g = tracked (mgr n).
Proof.
  intros Hi Ha' Hs Hm Ha Hr v.
  pose proof (perform_op_run (mkOp la (op_cas 0 1)) n i s Hi Hs) as H.
  cbn [addr op] in H. rewrite Ha', cas_zero_one in H by done.
  destruct H as (g & H & Ht). exists g. split; [|done]. unfold rdma_try_acquire_lock.
  by rewrite (bind_done _ _ _ _ _ H).
Qed.

Lemma release_run la (n : Net Q) i a s :
  Z.to_nat (server_index la) = i → offset la = a →
  servers_ (cluster_at n) !! i = Some s → mem_ok (rdma_ s) → 0 ≤ a → a + 8 ≤ memory_size (rdma_ s) →
  ∃ g, rdma_release_lock la n =
    Done true (mkNet g (put_region i (store64 a (u64 (load64 a (rdma_ s) - 1)) (rdma_ s)) (cluster_at n))
                 (tid n) (tail (others n))) ∧ tracked g = tracked (mgr n).
Proof.
  intros Hi Ha' Hs Hm Ha Hr.
  pose proof (perform_op_run (mkOp la (op_faa (-1))) n i s Hi Hs) as H.
  cbn [addr op] in H. rewrite Ha', faa_minus_one in H by done.
  destruct H as (g & H & Ht). exists g. split; [|done]. unfold rdma_release_lock.
  by rewrite (bind_done _ _ _ _ _ H).
Qed.

Lemma put_region_twice i x y (c : Cluster Q) : put_region i y (put_region i x c) = put_region i y c.
Proof.
  unfold put_region. simpl. f_equal. apply list_eq. intros j.
  destruct (decide (i = j)) as [<-|Hne]; rewrite ?list_lookup_alter_eq, ?list_lookup_alter_ne by done;
    [|done]. by destruct (servers_ c !! i).
Qed.

Lemma put_region_same i (c : Cluster Q) s : servers_ c !! i = Some s → put_region i (rdma_ s) c = c.
Proof.
  intros Hs. rewrite (put_region_insert i _ c s Hs). destruct c, s. simpl in *. f_equal.
  by apply list_insert_id.
Qed.

(** Taking the remote lock succeeds exactly when the word is 0 at that
    moment, and then sets it to 1, otherwise it changes nothing; and a release
    right after a successful acquisition puts the whole memory back. *)
Theorem remote_lock_acquire_release la (n : Net Q) i a s :
  Z.to_nat (server_index la) = i → offset la = a →
  servers_ (cluster n) !! i = Some s → mem_ok (rdma_ s) → others n = [] →
  0 ≤ a → a + 8 ≤ memory_size (rdma_ s) →
  ∃ n1, rdma_try_acquire_lock la n = Done (load64 a (rdma_ s) =? 0) n1 ∧
    (load64 a (rdma_ s) ≠ 0 → cluster n1 = cluster n) ∧
    (load64 a (rdma_ s) = 0 →
       load64 a (default [] (mems (cluster n1) !! i)) = 1 ∧
       ∃ n2, rdma_release_lock la n1 = Done true n2 ∧ cluster n2 = cluster n).
Proof.
  intros Hi Ha' Hs Hm Ho Ha Hr. destruct n as [g c t os]. cbn [others cluster] in Ho, Hs. subst os.
  destruct (try_acquire_run la (mkNet g c t []) i a s Hi Ha' Hs Hm Ha Hr) as (g1 & H1 & _).
  eexists. split; [exact H1|]. cbn [cluster]. unfold cluster_at. cbn [others cluster].
  split; [intros Hne|intros Hz].
  - rewrite (proj2 (Z.eqb_neq _ _) Hne). by apply put_region_same.
  - rewrite (proj2 (Z.eqb_eq _ _) Hz). rewrite (put_region_lookup i _ c i s Hs), decide_True by done.
    simpl default. rewrite load64_store64 by (done || (unfold in_width; lia)). split; [done|].
    set (s1 := set_rdma (store64 a 1 (rdma_ s)) s).
    destruct (release_run la (mkNet g1 (put_region i (rdma_ s1) c) t []) i a s1) as (g2 & H2 & _).
    + done.
    + done.
    + unfold cluster_at, put_region. simpl. by rewrite list_lookup_alter_eq, Hs.
    + simpl. split; [apply store64_ok, Hm|]. unfold memory_size.
      rewrite length_store64 by done. apply Hm.
    + done.
    + simpl. unfold memory_size. rewrite length_store64 by done. apply Hr.
    + eexists. split; [exact H2|]. cbn [cluster]. unfold cluster_at. cbn [others cluster].
      rewrite put_region_twice. unfold s1. cbn [rdma_ set_rdma].
      rewrite load64_store64 by (done || (unfold in_width; lia)).
      assert (store64 a (u64 (1 - 1)) (store64 a 1 (rdma_ s)) = rdma_ s) as ->.
      { change (u64 (1 - 1)) with 0. rewrite <-Hz at 1.
        rewrite store64_store64 by done. apply store64_load64; [apply Hm|done|done]. }
      by apply put_region_same.
Qed.
End remote_lock.

Lemma remote_lock_acquire_release_witness :
  ∃ n1 n2, rdma_try_acquire_lock (ga_make 1 8) demo_net = Done true n1 ∧
    rdma_release_lock (ga_make 1 8) n1 = Done true n2 ∧ cluster n2 = cluster demo_net.
Proof.
  destruct (remote_lock_acquire_release (ga_make 1 8) demo_net 1 8 (server_init 64))
    as (n1 & H & _ & H2).
  - reflexivity.
  - reflexivity.
  - reflexivity.
  - apply server_init_mem_ok. lia.
  - reflexivity.
  - vm_compute. congruence.
  - vm_compute. congruence.
  - assert (load64 8 (rdma_ (server_init (Q := fifo) 64)) = 0) as Hz
      by (vm_compute; reflexivity).
    rewrite Hz in H. destruct (H2 Hz) as (_ & n2 & H3 & H4). by exists n1, n2.
Defined.

(** ** Many threads and one lock word

    The state is one server's region and the threads that hold the lock at [a].
    Threads interleave at the granularity of a verb. *)
Inductive lock_step (a : Z) : memory * list Z → memory * list Z → Prop :=
  | step_acquired t m H m' :                    (* [rdma_try_acquire_lock] returns true *)
      rdma_verb (mkOp a (op_cas 0 1)) m = Done (true, out_expected 0) m' →
      lock_step a (m, H) (m', t :: H)
  | step_busy v m H m' :                        (* it returns false *)
      rdma_verb (mkOp a (op_cas 0 1)) m = Done (true, out_expected v) m' → v ≠ 0 →
      lock_step a (m, H) (m', H)
  | step_release t old m H H' m' :              (* [rdma_release_lock] by a holder *)
      H ≡ₚ t :: H' → rdma_verb (mkOp a (op_faa (-1))) m = Done (true, out_old old) m' →
      lock_step a (m, H) (m', H')
  | step_write_release t m H H' m' :            (* [rdma_cas_release_lock] by a holder *)
      H ≡ₚ t :: H' →
      rdma_verb (mkOp a (op_write (Some (le_bytes 8 0)) 8)) m = Done (true, out_none) m' →
      lock_step a (m, H) (m', H')
  | step_other o r m H m' :                     (* a verb that leaves the word alone *)
      op_ok o → (a + 8 ≤ (op_range o).1 ∨ (op_range o).1 + (op_range o).2 ≤ a) →
      rdma_verb o m = Done r m' → lock_step a (m, H) (m', H).

Definition lock_inv (a : Z) (st : memory * list Z) : Prop :=
  mem_ok st.1 ∧ 0 ≤ a ∧ a + 8 ≤ memory_size st.1 ∧
  load64 a st.1 = Z.of_nat (length st.2) ∧ (length st.2 ≤ 1)%nat.

Lemma load64_frame o r m m' a :
  op_ok o → mem_ok m → rdma_verb o m = Done r m' → 0 ≤ a → a + 8 ≤ memory_size m →
  (a + 8 ≤ (op_range o).1 ∨ (op_range o).1 + (op_range o).2 ≤ a) → load64 a m' = load64 a m.
Proof.
  intros Ho Hm Hrun Ha Hr Hdis.
  destruct (rdma_verb_cases o m Ho Hm)
    as [[r' H]|[H|(d & out & H & Hd & Hlen & Hrr)]]; rewrite H in Hrun; simplify_eq; [done|].
  assert ((op_range o).1 = addr o) as Hfst by (unfold op_range; by destruct (op o)).
  destruct Ho as [Hao _]. unfold memory_size, load64 in *. f_equal. apply slice_splice_ne; lia.
Qed.

Lemma store_inv a v m n :
  mem_ok m → 0 ≤ a → a + 8 ≤ memory_size m → v = Z.of_nat (length n) → (length n ≤ 1)%nat →
  lock_inv a (store64 a v m, n).
Proof.
  intros Hm Ha Hr -> Hn. unfold lock_inv, mem_ok, memory_size in *. simpl.
  rewrite length_store64 by done.
  split_and!; try (done || apply Hm); [apply store64_ok, Hm|].
  apply load64_store64; [done|done|unfold in_width; lia].
Qed.

Lemma lock_step_inv a st st' : lock_inv a st → lock_step a st st' → lock_inv a st'.
Proof.
  intros (Hm & Ha & Hr & Hw & Hlen) Hstep.
  destruct Hstep as [t m H m' E|v m H m' E Hv|t old m H H' m' HH E|t m H H' m' HH E|o r m H m' Ho Hd E];
    simpl in *.
  - rewrite cas_zero_one in E by done. simplify_eq. rewrite Hw in *.
    destruct H as [|x H]; [|simpl in *; lia]. by apply store_inv.
  - rewrite cas_zero_one in E by done. simplify_eq.
    rewrite (proj2 (Z.eqb_neq _ _)) by done. by split_and!.
  - rewrite faa_minus_one in E by done. simplify_eq.
    apply Permutation_length in HH. simpl in HH. rewrite Hw, HH.
    apply store_inv; try done; [|lia]. rewrite wrap_small by (unfold in_width; lia). lia.
  - rewrite write_zero in E by done. simplify_eq.
    apply Permutation_length in HH. simpl in HH. apply store_inv; (done || lia).
  - destruct (verb_preserves_ok o m r m' Ho Hm E) as [Hm' Hlen'].
    unfold lock_inv. simpl. rewrite (load64_frame o r m m' a) by done.
    unfold memory_size in *. rewrite Hlen'. by split_and!.
Qed.

(** C12: mutual exclusion of the remote lock: starting from a free word, however
    the threads interleave their attempts, releases and other verbs that do not
    touch the word, at most one thread holds it at any time, and the word is 1
    exactly while one does. *)
Theorem remote_lock_mutual_exclusion a m st :
  mem_ok m → 0 ≤ a → a + 8 ≤ memory_size m → load64 a m = 0 →
  rtc (lock_step a) (m, []) st →
  (length st.2 ≤ 1)%nat ∧ load64 a st.1 = Z.of_nat (length st.2).
Proof.
  intros Hm Ha Hr Hz Hrtc.
  assert (lock_inv a (m, [])) as Hinv by (unfold lock_inv; simpl; split_and!; (done || lia)).
  assert (lock_inv a st) as (_ & _ & _ & Hw & Hlen); [|by split].
  revert Hinv. induction Hrtc; eauto using lock_step_inv.
Qed.

Lemma remote_lock_mutual_exclusion_witness :
  let m := RDMASimulation_init 16 in
  load64 8 (store64 8 1 m) = Z.of_nat (length [5]).
Proof.
  intros m. apply (remote_lock_mutual_exclusion 8 m (store64 8 1 m, [5])).
  - apply (server_init_mem_ok (Q := fifo) 16). lia.
  - lia.
  - vm_compute. congruence.
  - reflexivity.
  - eapply rtc_l; [|apply rtc_refl]. by apply step_acquired.
Defined.

(** ** Queueing delay *)

(** [get_server_time_delay] for a sequence of requests at one server: for each,
    the clock reading and the delay. *)
Fixpoint request_delays (server : nat) (Ts : list Z) : M RDMAManager (list (Z * Z * Z)) :=
  match Ts with
  | [] => mret []
  | T :: Ts' =>
      now ← gets (λ m, clock_ m (clock_reads_ m));
      d ← get_server_time_delay server T;
      rest ← request_delays server Ts';
      mret ((now, d, T) :: rest)
  end.

(** The interval in which the server transfers a request: it ends [d] after the
    reading and lasts [T]. *)
Definition slot (r : Z * Z * Z) : Z * Z := let '(now, d, T) := r in (now + d - T, now + d).

Definition slot_before (r1 r2 : Z * Z * Z) : Prop := (slot r1).2 ≤ (slot r2).1.

(** One request starts when the server is free and not before the clock. *)
Lemma request_slot server T m d m' :
  let prev := default 0 (server_finish_times_ m !! server) in
  let now := clock_ m (clock_reads_ m) in
  get_server_time_delay server T m = Done d m' →
  0 ≤ prev → 0 ≤ now → 0 ≤ T → Z.max prev now + T < 2 ^ 64 →
  now + d = Z.max prev now + T ∧ default 0 (server_finish_times_ m' !! server) = now + d ∧
  clock_ m' = clock_ m.
Proof.
  intros prev now Hrun Hp Hn HT Hmax. rewrite get_server_time_delay_run in Hrun.
  fold prev now in Hrun.
  destruct (Z.ltb_spec now prev);
    rewrite !wrap_small in Hrun by (unfold in_width; rewrite ?wrap_small; unfold in_width; lia);
    simplify_eq; simpl; rewrite lookup_insert_eq; simpl; split_and!; (done || lia).
Qed.

(** The delay model is a first-come first-served queue: for requests to one
    server, whatever the clock reads at each of them, each request is transferred
    for its own duration, not before it was issued (its delay covers the wait and
    the transfer), and the intervals in which the server transfers are disjoint and
    in the order of the requests, after those already queued. *)
Theorem server_slots_fifo server Ts m rs m' B :
  request_delays server Ts m = Done rs m' →
  Forall (λ T, 0 ≤ T) Ts → (∀ k, 0 ≤ clock_ m k ≤ B) →
  0 ≤ default 0 (server_finish_times_ m !! server) ≤ B →
  B + foldr Z.add 0 Ts < 2 ^ 64 →
  pairwise slot_before rs ∧
  Forall (λ r, r.1.1 ≤ (slot r).1 ∧
               default 0 (server_finish_times_ m !! server) ≤ (slot r).1) rs ∧
  map snd rs = Ts.
Proof.
  revert m rs B. induction Ts as [|T Ts IH]; intros m rs B Hrun HT Hc Hp HB.
  { unfold request_delays, mret, M_ret in Hrun. by simplify_eq. }
  cbn [request_delays] in Hrun. unfold gets in Hrun.
  erewrite bind_done in Hrun by reflexivity.
  apply bind_inv in Hrun as (d & m1 & Hd & Hrun).
  apply bind_inv in Hrun as (rest & m2 & Hrest & Hrun). injection Hrun as <- <-.
  apply Forall_cons_iff in HT as [HT0 HT]. simpl foldr in HB.
  assert (0 ≤ foldr Z.add 0 Ts) by (clear -HT; induction HT; simpl; lia).
  pose proof (Hc (clock_reads_ m)).
  destruct (request_slot server T m d m1 Hd) as (Hs & Hf & Hcl); [lia..|].
  destruct (IH m1 rest (B + T) Hrest HT) as (IH1 & IH2 & IH3).
  { intros k. rewrite Hcl. specialize (Hc k). lia. }
  { rewrite Hf. lia. }
  { lia. }
  rewrite Hf in IH2. split_and!; simpl.
  - split; [|done]. eapply Forall_impl; [|exact IH2]. intros r [_ Hr]. exact Hr.
  - constructor; [simpl; lia|]. eapply Forall_impl; [|exact IH2]. simpl. intros r [H1 H2].
    split; [done|]. lia.
  - by rewrite IH3.
Qed.

Lemma server_slots_fifo_witness :
  pairwise slot_before [(0, 10, 10); (1, 14, 5); (2, 14, 1)].
Proof.
  refine (proj1 (server_slots_fifo 0 [10; 5; 1] (manager_init 1000 (λ n, Z.of_nat (Nat.min n 3)))
    [(0, 10, 10); (1, 14, 5); (2, 14, 1)] _ 3 _ _ _ _ _)).
  - vm_compute. reflexivity.
  - repeat constructor; lia.
  - intros k. simpl. lia.
  - vm_compute. split; congruence.
  - vm_compute. congruence.
Defined.
