(* ===== verification/LocalLock.v ===== *)
(** * Local locks with hand-over (src/util/local_lock_manager.hpp)

    A compute server serialises its own threads on one ticket lock per index, and
    a releasing thread may hand the remote lock over to the next waiter.  The
    operations are translated on the 64-bit ticket word (next ticket in the low
    half, ticket being served in the high half), the 8-bit hand-over counter and
    the circular array of flags.  [acquire] and [release] are the composed
    operations; the step relation [step] runs their atomic accesses for many
    threads in any interleaving. *)

From S2P Require Import Prelude GlobalAddress.

Definition kLockChipMemSize : Z := 256 * 1024.
Definition kNumOfLock : Z := kLockChipMemSize / 8.
Definition kMaxHandOverTime : Z := 8.
Definition kHandoverFlagSlots : Z := 1024.

(** [handed_over] of the flags; a slot that is not in the map holds [false]. *)
Record LocalLockNode := mkNode {
  ticket_lock : Z;
  handover_count : Z;
  handover_flags : gmap Z bool
}.

Definition node_init : LocalLockNode := mkNode 0 0 ∅.

(** ** The atomic accesses of [acquire] and [release] *)

(** [node.ticket_lock.fetch_add(1)]: the ticket is the low half before. *)
Definition take_ticket (n : LocalLockNode) : Z * LocalLockNode :=
  (u32 (ticket_lock n), mkNode (u64 (ticket_lock n + 1)) (handover_count n) (handover_flags n)).

Definition current_serving (n : LocalLockNode) : Z := u32 (Z.shiftr (ticket_lock n) 32).
Definition next_ticket (n : LocalLockNode) : Z := u32 (Z.land (ticket_lock n) 0xFFFFFFFF).

Definition flag (slot : Z) (n : LocalLockNode) : bool := default false (handover_flags n !! slot).
Definition set_flag (slot : Z) (b : bool) (n : LocalLockNode) : LocalLockNode :=
  mkNode (ticket_lock n) (handover_count n) (<[slot := b]> (handover_flags n)).

(** The slot is read and cleared. *)
Definition consume_flag (my_ticket : Z) (n : LocalLockNode) : bool * LocalLockNode :=
  let slot := my_ticket mod kHandoverFlagSlots in (flag slot n, set_flag slot false n).

Definition waiters (n : LocalLockNode) : Z := u32 (next_ticket n - current_serving n - 1).

(** The condition of [release], which is also [can_hand_over]. *)
Definition hand_over_wanted (n : LocalLockNode) : bool :=
  (0 <? waiters n) && (handover_count n <? kMaxHandOverTime).

(** The stores of the two branches of [release], before the ticket advances. *)
Definition mark_release (serving : Z) (hand_over : bool) (n : LocalLockNode) : LocalLockNode :=
  if hand_over then
    let n1 := set_flag (u32 (serving + 1) mod kHandoverFlagSlots) true n in
    mkNode (ticket_lock n1) (u8 (handover_count n1 + 1)) (handover_flags n1)
  else mkNode (ticket_lock n) 0 (handover_flags n).

(** [node.ticket_lock.fetch_add(1ULL << 32)] *)
Definition advance_serving (n : LocalLockNode) : LocalLockNode :=
  mkNode (u64 (ticket_lock n + 2 ^ 32)) (handover_count n) (handover_flags n).

(** ** LocalLockManager *)

(** The array has [num_ms * kNumOfLock] nodes, all initialised alike. *)
Record LocalLockManager := mkLLM {
  num_ms : Z;
  local_locks_ : gmap Z LocalLockNode;
  cs_rdma_tag_ : Z
}.

(** [hash_val] is the hash of the manager's address. *)
Definition manager_new (num_ms hash_val : Z) : LocalLockManager :=
  let tag := u64 hash_val in mkLLM num_ms ∅ (if tag =? 0 then 1 else tag).

Definition get_lock_index (addr : GlobalAddress) : Z :=
  server_index addr * kNumOfLock + offset addr mod kNumOfLock.

(** [local_locks_[idx]] *)
Definition on_node {A} (idx : Z) (f : LocalLockNode → A * LocalLockNode) : M LocalLockManager A := λ m,
  if (0 <=? idx) && (idx <? num_ms m * kNumOfLock) then
    let r := f (default node_init (local_locks_ m !! idx)) in
    Done r.1 (mkLLM (num_ms m) (<[idx := r.2]> (local_locks_ m)) (cs_rdma_tag_ m))
  else Fault OutOfBounds m.

(** The spin of [acquire], [spins] polls of it. *)
Fixpoint spin (spins : nat) (idx my_ticket : Z) : M LocalLockManager unit :=
  serving ← on_node idx (λ n, (current_serving n, n));
  if my_ticket =? serving then mret tt
  else match spins with O => raise OutOfFuel | S spins' => spin spins' idx my_ticket end.

Definition acquire (spins : nat) (addr : GlobalAddress) : M LocalLockManager bool :=
  let idx := get_lock_index addr in
  my_ticket ← on_node idx take_ticket;
  _ ← spin spins idx my_ticket;
  on_node idx (consume_flag my_ticket).

Definition release (addr : GlobalAddress) : M LocalLockManager bool :=
  on_node (get_lock_index addr) (λ n,
    let hand_over := hand_over_wanted n in
    (hand_over, advance_serving (mark_release (current_serving n) hand_over n))).

Definition can_hand_over (addr : GlobalAddress) : M LocalLockManager bool :=
  on_node (get_lock_index addr) (λ n, (hand_over_wanted n, n)).

(** ** Threads interleaving on one node *)

Inductive phase :=
  | Idle
  | Waiting (t : Z)                   (* has ticket [t], polls *)
  | Entered (t : Z)                   (* saw its ticket served *)
  | Holding (t : Z) (handed : bool)   (* [acquire] returned [handed] *)
  | Decided (t : Z) (keep : bool)     (* [release] has evaluated its condition *)
  | Marked (t : Z) (keep : bool).     (* ... and stored the flag and the counter *)

Definition ticket_of (p : phase) : option Z :=
  match p with
  | Idle => None
  | Waiting t | Entered t | Holding t _ | Decided t _ | Marked t _ => Some t
  end.

(** The thread is between the end of its spin and the advance of the ticket. *)
Definition inside (p : phase) : bool :=
  match p with Idle | Waiting _ => false | _ => true end.

(** [releases] is what the completed calls of [release] returned, newest first. *)
Record sys := mkSys { node : LocalLockNode; phases : gmap nat phase; releases : list bool }.

Definition phase_of (s : sys) (i : nat) : phase := default Idle (phases s !! i).

(** A ticket is taken only while the low half has room for one more. *)
Inductive step : sys → sys → Prop :=
  | s_take s i t n' :
      phase_of s i = Idle → take_ticket (node s) = (t, n') → next_ticket (node s) < 2 ^ 32 - 1 →
      step s (mkSys n' (<[i := Waiting t]> (phases s)) (releases s))
  | s_enter s i t :
      phase_of s i = Waiting t → t = current_serving (node s) →
      step s (mkSys (node s) (<[i := Entered t]> (phases s)) (releases s))
  | s_consume s i t b n' :
      phase_of s i = Entered t → consume_flag t (node s) = (b, n') →
      step s (mkSys n' (<[i := Holding t b]> (phases s)) (releases s))
  | s_decide s i t h :
      phase_of s i = Holding t h →
      step s (mkSys (node s) (<[i := Decided t (hand_over_wanted (node s))]> (phases s)) (releases s))
  | s_mark s i t b :
      phase_of s i = Decided t b →
      step s (mkSys (mark_release (current_serving (node s)) b (node s))
                (<[i := Marked t b]> (phases s)) (releases s))
  | s_advance s i t b :
      phase_of s i = Marked t b →
      step s (mkSys (advance_serving (node s)) (<[i := Idle]> (phases s)) (b :: releases s)).

Definition sys_init : sys := mkSys node_init ∅ [].

(** What the last [release] returned, and how many returned [true] in a row. *)
Definition last_release (l : list bool) : bool := default false (head l).
Fixpoint streak (l : list bool) : Z :=
  match l with true :: l' => 1 + streak l' | _ => 0 end.

Lemma streak_nonneg l : 0 ≤ streak l.
Proof. induction l as [|[] l IH]; simpl; lia. Qed.

(** ** The invariant *)

(** The word holds the ticket served and the next ticket. *)
Definition word (S N : Z) (n : LocalLockNode) : Prop :=
  ticket_lock n = S * 2 ^ 32 + N ∧ 0 ≤ S ≤ N ∧ N < 2 ^ 32.

Lemma word_serving S N n : word S N n → current_serving n = S.
Proof.
  intros (Hw & HS & HN). unfold current_serving. rewrite Hw, Z.shiftr_div_pow2 by lia.
  rewrite Z.div_add_l, Z.div_small, Z.add_0_r by lia. apply wrap_small. unfold in_width. lia.
Qed.

Lemma word_next S N n : word S N n → next_ticket n = N.
Proof.
  intros (Hw & HS & HN). unfold next_ticket. rewrite Hw. change 0xFFFFFFFF with (Z.ones 32).
  rewrite Z.land_ones by lia. rewrite Z.add_comm, Z.mod_add, Z.mod_small by lia.
  apply wrap_small. unfold in_width. lia.
Qed.

Lemma word_waiters S N n : word S N n → S < N → waiters n = N - S - 1.
Proof.
  intros Hw Hlt. unfold waiters. rewrite (word_serving S N n Hw), (word_next S N n Hw).
  destruct Hw as (_ & ? & ?). apply wrap_small. unfold in_width. lia.
Qed.

Lemma word_take S N n t n' :
  word S N n → N < 2 ^ 32 - 1 → take_ticket n = (t, n') → t = N ∧ word S (N + 1) n' ∧
    handover_count n' = handover_count n ∧ handover_flags n' = handover_flags n.
Proof.
  intros (Hw & HS & HN) Hlt H. unfold take_ticket in H. simplify_eq. rewrite Hw. split; [|split; [|done]].
  - unfold wrap. by rewrite Z.add_comm, Z.mod_add, Z.mod_small by lia.
  - unfold word. simpl. rewrite wrap_small by (unfold in_width; lia). lia.
Qed.

Lemma word_advance S N n :
  word S N n → S < N → word (S + 1) N (advance_serving n).
Proof.
  intros (Hw & HS & HN) Hlt. unfold word, advance_serving. simpl. rewrite Hw.
  rewrite wrap_small by (unfold in_width; lia). lia.
Qed.

(** The phase of the thread being served, [Idle] when none is inside. *)
Definition served (s : sys) (p : phase) : Prop :=
  (∃ i, phase_of s i = p ∧ inside p = true) ∨
  (p = Idle ∧ ∀ i, inside (phase_of s i) = false).

(** Only one slot may be set, and its value is what the last (or, once marked,
    the current) [release] decided. *)
Definition flags_are (slot : Z) (b : bool) (n : LocalLockNode) : Prop :=
  ∀ x, flag x n = bool_decide (x = slot mod kHandoverFlagSlots) && b.

Definition baton_ok (S N : Z) (p : phase) (rs : list bool) (n : LocalLockNode) : Prop :=
  match p with
  | Idle | Waiting _ | Entered _ =>
      flags_are S (last_release rs) n ∧ handover_count n = streak rs ∧ streak rs ≤ kMaxHandOverTime ∧
      (last_release rs = true → S < N)
  | Holding _ b =>
      flags_are S false n ∧ b = last_release rs ∧ handover_count n = streak rs ∧
      streak rs ≤ kMaxHandOverTime
  | Decided _ b =>
      flags_are S false n ∧ handover_count n = streak rs ∧ streak rs ≤ kMaxHandOverTime ∧
      (b = true → S + 1 < N ∧ streak rs < kMaxHandOverTime)
  | Marked _ b =>
      flags_are (S + 1) b n ∧ handover_count n = streak (b :: rs) ∧
      Z.max (streak rs) (streak (b :: rs)) ≤ kMaxHandOverTime ∧ (b = true → S + 1 < N)
  end.

Record inv (S N : Z) (p : phase) (s : sys) : Prop := mkInv {
  inv_word : word S N (node s);
  inv_range : ∀ i t, ticket_of (phase_of s i) = Some t → S ≤ t < N;
  inv_uniq : ∀ i j t, ticket_of (phase_of s i) = Some t → ticket_of (phase_of s j) = Some t → i = j;
  inv_cover : ∀ t, S ≤ t < N → ∃ i, ticket_of (phase_of s i) = Some t;
  inv_inside : ∀ i, inside (phase_of s i) = true → ticket_of (phase_of s i) = Some S;
  inv_served : served s p;
  inv_baton : baton_ok S N p (releases s) (node s)
}.

Lemma phase_of_insert n ps rs i j p :
  phase_of (mkSys n (<[i := p]> ps) rs) j = if decide (i = j) then p else default Idle (ps !! j).
Proof. unfold phase_of. simpl. case_decide; [subst; by rewrite lookup_insert_eq|by rewrite lookup_insert_ne]. Qed.

(** The served thread is the one with the served ticket: nobody else is inside. *)
Lemma served_unique S N p s i :
  inv S N p s → inside (phase_of s i) = true → phase_of s i = p.
Proof.
  intros H Hi. destruct (inv_served _ _ _ _ H) as [(j & <- & Hj)|[-> Hno]].
  - f_equal. eapply (inv_uniq _ _ _ _ H); by apply (inv_inside _ _ _ _ H).
  - by rewrite Hno in Hi.
Qed.

(** A thread moves between phases with the same ticket: what concerns tickets stays. *)
Lemma inv_same_ticket S N p s i q n rs q' :
  inv S N p s → ticket_of (phase_of s i) = Some S → ticket_of q = Some S → inside q = true →
  (q' = q) → word S N n → baton_ok S N q rs n →
  inv S N q' (mkSys n (<[i := q]> (phases s)) rs).
Proof.
  intros H Hi Hq Hin -> Hw Hb. split; try done.
  - intros j t. rewrite phase_of_insert. case_decide.
    + rewrite Hq. intros [= <-]. by apply (inv_range _ _ _ _ H i).
    + apply (inv_range _ _ _ _ H).
  - intros j k t. rewrite !phase_of_insert. repeat case_decide; subst; try done.
    + rewrite Hq. intros [= <-] Hk. by eapply (inv_uniq _ _ _ _ H).
    + rewrite Hq. intros Hk [= <-]. by eapply (inv_uniq _ _ _ _ H).
    + apply (inv_uniq _ _ _ _ H).
  - intros t Ht. destruct (inv_cover _ _ _ _ H t Ht) as [j Hj]. exists j.
    rewrite phase_of_insert. case_decide; [subst j; congruence|done].
  - intros j. rewrite phase_of_insert. case_decide; [done|]. apply (inv_inside _ _ _ _ H).
  - left. exists i. rewrite phase_of_insert. by rewrite decide_True.
Qed.

Lemma flag_set x slot b n : flag x (set_flag slot b n) = if decide (x = slot) then b else flag x n.
Proof.
  unfold flag, set_flag. simpl. case_decide; [subst; by rewrite lookup_insert_eq|].
  by rewrite lookup_insert_ne by congruence.
Qed.

Lemma flags_are_clear slot b n : flags_are slot b n →
  flags_are slot false (set_flag (slot mod kHandoverFlagSlots) false n).
Proof. intros H x. rewrite flag_set, andb_false_r. case_decide; [done|]. by rewrite H, bool_decide_false. Qed.

Lemma flags_are_set S S' b n : flags_are S false n →
  flags_are S' b (set_flag (S' mod kHandoverFlagSlots) b n).
Proof.
  intros H x. rewrite flag_set. case_decide; [by rewrite bool_decide_true|].
  by rewrite H, andb_false_r, bool_decide_false.
Qed.

Lemma flags_are_false S S' n : flags_are S false n → flags_are S' false n.
Proof. intros H x. by rewrite H, !andb_false_r. Qed.

(** The baton survives another thread taking a ticket. *)
Lemma baton_grow S N p rs n n' :
  baton_ok S N p rs n → handover_count n' = handover_count n → handover_flags n' = handover_flags n →
  baton_ok S (N + 1) p rs n'.
Proof.
  intros Hb Hc Hf.
  assert (∀ s b, flags_are s b n → flags_are s b n') as Hfl.
  { intros s b H x. specialize (H x). unfold flag in *. by rewrite Hf. }
  destruct p; simpl in *; rewrite ?Hc; destruct Hb as (H1 & H2 & H3 & H4);
    split_and!; auto; intros E; specialize (H4 E); lia.
Qed.

Lemma step_take_inv S N p s i t n' :
  inv S N p s → phase_of s i = Idle → take_ticket (node s) = (t, n') →
  next_ticket (node s) < 2 ^ 32 - 1 →
  inv S (N + 1) p (mkSys n' (<[i := Waiting t]> (phases s)) (releases s)).
Proof.
  intros H Hi Ht Hn. pose proof (inv_word _ _ _ _ H) as Hw. rewrite (word_next _ _ _ Hw) in Hn.
  destruct (word_take _ _ _ _ _ Hw Hn Ht) as (-> & Hw' & Hc & Hf). split; try done.
  - intros j t. rewrite phase_of_insert. case_decide.
    + intros [= <-]. destruct Hw as (_ & ? & ?). lia.
    + intros Hj. apply (inv_range _ _ _ _ H) in Hj. lia.
  - intros j k t. rewrite !phase_of_insert. repeat case_decide; subst; try done.
    + intros [= <-] Hk. apply (inv_range _ _ _ _ H) in Hk. lia.
    + intros Hk [= <-]. apply (inv_range _ _ _ _ H) in Hk. lia.
    + apply (inv_uniq _ _ _ _ H).
  - intros t Ht'. destruct (decide (t = N)) as [->|Hne].
    + exists i. by rewrite phase_of_insert, decide_True.
    + destruct (inv_cover _ _ _ _ H t) as [j Hj]; [lia|]. exists j.
      rewrite phase_of_insert. case_decide; [subst; by rewrite Hi in Hj|done].
  - intros j. rewrite phase_of_insert. case_decide; [done|]. apply (inv_inside _ _ _ _ H).
  - destruct (inv_served _ _ _ _ H) as [(j & Hj & Hin)|[-> Hno]]; [left|right].
    + exists j. rewrite phase_of_insert. case_decide; [|done]. subst. by rewrite Hi in Hin.
    + split; [done|]. intros j. rewrite phase_of_insert. case_decide; [done|]. apply Hno.
  - by apply (baton_grow _ _ _ _ (node s)); [apply (inv_baton _ _ _ _ H)|..].
Qed.

Lemma step_advance_inv S N p s i t b :
  inv S N p s → phase_of s i = Marked t b →
  inv (S + 1) N Idle (mkSys (advance_serving (node s)) (<[i := Idle]> (phases s)) (b :: releases s)).
Proof.
  intros H Hi. pose proof (inv_inside _ _ _ _ H i) as Ht. rewrite Hi in Ht.
  specialize (Ht eq_refl). simpl in Ht. simplify_eq.
  pose proof (inv_range _ _ _ _ H i S) as Hr. rewrite Hi in Hr. specialize (Hr eq_refl).
  pose proof (served_unique _ _ _ _ i H) as Hp. rewrite Hi in Hp. specialize (Hp eq_refl).
  assert (∀ j t, j ≠ i → ticket_of (phase_of s j) = Some t → t ≠ S) as Hother.
  { intros j t Hne Hj ->. apply Hne. apply (inv_uniq _ _ _ _ H j i S); [done|by rewrite Hi]. }
  split.
  - apply word_advance; [apply (inv_word _ _ _ _ H)|lia].
  - intros j t. rewrite phase_of_insert. case_decide as Hne; [done|]. intros Hj.
    pose proof (inv_range _ _ _ _ H j t Hj). pose proof (Hother j t (not_eq_sym Hne) Hj). lia.
  - intros j k t. rewrite !phase_of_insert. repeat case_decide; subst; try done.
    apply (inv_uniq _ _ _ _ H).
  - intros t Ht. destruct (inv_cover _ _ _ _ H t) as [j Hj]; [lia|]. exists j.
    rewrite phase_of_insert. case_decide; [subst; rewrite Hi in Hj; simplify_eq/=; lia|done].
  - intros j. rewrite phase_of_insert. case_decide as Hne; [done|]. intros Hj. exfalso.
    by apply (Hother j S (not_eq_sym Hne)); [apply (inv_inside _ _ _ _ H)|].
  - right. split; [done|]. intros j. rewrite phase_of_insert. case_decide as Hne; [done|].
    destruct (inside _) eqn:Hj; [|done]. exfalso.
    by apply (Hother j S (not_eq_sym Hne)); [apply (inv_inside _ _ _ _ H)|].
  - pose proof (inv_baton _ _ _ _ H) as Hb. rewrite <-Hp in Hb. simpl in Hb.
    destruct Hb as (H1 & H2 & H3 & H4). simpl in *. split_and!; (done || lia).
Qed.

(** The served thread's own steps. *)
Lemma step_inside_inv S N p s i q n' :
  inv S N p s → ticket_of (phase_of s i) = Some S →
  word S N n' → (inside (phase_of s i) = true → baton_ok S N (phase_of s i) (releases s) (node s) →
                 baton_ok S N q (releases s) n') →
  ticket_of q = Some S → inside q = true → inside (phase_of s i) = true →
  inv S N q (mkSys n' (<[i := q]> (phases s)) (releases s)).
Proof.
  intros H Hi Hw Hb Hq Hin Hins. eapply inv_same_ticket; try done. apply Hb; [done|].
  rewrite (served_unique _ _ _ _ _ H Hins). apply (inv_baton _ _ _ _ H).
Qed.

(** Nobody is inside when a waiting thread sees its ticket served. *)
Lemma enter_served S N p s i t :
  inv S N p s → phase_of s i = Waiting t → t = S → p = Idle.
Proof.
  intros H Hi ->. destruct (inv_served _ _ _ _ H) as [(j & Hj & Hin)|[-> _]]; [|done].
  exfalso. subst p. pose proof (inv_inside _ _ _ _ H j Hin) as Ht.
  assert (j = i) as -> by (eapply (inv_uniq _ _ _ _ H); [done|by rewrite Hi]).
  by rewrite Hi in Hin.
Qed.

Lemma step_inv s s' : (∃ S N p, inv S N p s) → step s s' → ∃ S N p, inv S N p s'.
Proof.
  intros (S & N & p & H) Hstep. pose proof (inv_word _ _ _ _ H) as Hw.
  destruct Hstep as [s i t n' Hi Ht Hn|s i t Hi Ht|s i t b n' Hi Hc|s i t h Hi|s i t b Hi|s i t b Hi].
  - do 3 eexists. by eapply step_take_inv.
  - rewrite (word_serving _ _ _ Hw) in Ht. subst t.
    rewrite (enter_served _ _ _ _ _ _ H Hi eq_refl) in H.
    exists S, N, (Entered S). eapply inv_same_ticket; try done; [by rewrite Hi|].
    apply (inv_baton _ _ _ _ H).
  - pose proof (inv_inside _ _ _ _ H i) as Ht. rewrite Hi in Ht. specialize (Ht eq_refl).
    simpl in Ht. simplify_eq. unfold consume_flag in Hc. simplify_eq.
    exists S, N, (Holding S (flag (S mod kHandoverFlagSlots) (node s))).
    apply (step_inside_inv _ _ _ _ i _ _ H); try (by rewrite ?Hi).
    rewrite Hi. simpl. intros _ (H1 & H2 & H3 & H4).
    split_and!; [by eapply flags_are_clear| |done|done].
    rewrite H1, bool_decide_true by done. done.
  - pose proof (inv_inside _ _ _ _ H i) as Ht. rewrite Hi in Ht. specialize (Ht eq_refl).
    pose proof (inv_range _ _ _ _ H i S) as Hr. rewrite Hi in Hr. specialize (Hr Ht).
    simpl in Ht. simplify_eq. do 3 eexists.
    apply (step_inside_inv _ _ _ _ i _ _ H); try (by rewrite ?Hi).
    rewrite Hi. simpl. intros _ (H1 & H2 & H3 & H4). split_and!; try done.
    all: unfold hand_over_wanted; intros [Hwt Hlt]%andb_true_iff; bool_hyps;
      rewrite (word_waiters _ _ _ Hw) in Hwt; lia.
  - pose proof (inv_inside _ _ _ _ H i) as Ht. rewrite Hi in Ht. specialize (Ht eq_refl).
    simpl in Ht. simplify_eq. rewrite (word_serving _ _ _ Hw).
    do 3 eexists. apply (step_inside_inv _ _ _ _ i _ _ H); try (by rewrite ?Hi).
    + destruct b; exact Hw.
    + rewrite Hi. simpl. intros _ (H1 & H2 & H3 & H4). destruct b; simpl.
      * destruct (H4 eq_refl) as [H5 H6]. destruct Hw as (_ & ? & ?).
        pose proof (streak_nonneg (releases s)).
        unfold kMaxHandOverTime in *.
        rewrite !wrap_small by (unfold in_width; lia).
        split_and!; [by eapply flags_are_set|lia|lia|done].
      * pose proof (streak_nonneg (releases s)).
        split_and!; [by eapply flags_are_false|done|lia|done].
  - do 3 eexists. by eapply step_advance_inv.
Qed.

Lemma init_inv : inv 0 0 Idle sys_init.
Proof.
  assert (∀ i, phase_of sys_init i = Idle) as Hi by (intros i; unfold phase_of; cbn [phases sys_init]; by rewrite lookup_empty).
  split.
  - unfold word. simpl. lia.
  - intros i t. by rewrite Hi.
  - intros i j t. by rewrite Hi.
  - intros t ?. lia.
  - intros i. by rewrite Hi.
  - right. split; [done|]. intros i. by rewrite Hi.
  - simpl. unfold kMaxHandOverTime. split_and!; try done. intros x. by rewrite andb_false_r.
Qed.

Lemma reachable_inv s : rtc step sys_init s → ∃ S N p, inv S N p s.
Proof.
  intros H. assert (∃ S N p, inv S N p sys_init) as H0 by eauto using init_inv.
  revert H0. induction H; eauto using step_inv.
Qed.

(** C13: however the threads of a compute server interleave their calls on one
    local lock (fewer than [2^32] tickets in all), at most one of them is between
    the end of its [acquire] and the end of its [release], and while tickets are
    out, the ticket being served belongs to some thread: none is lost. *)
Theorem local_lock_mutual_exclusion s i j :
  rtc step sys_init s →
  (inside (phase_of s i) = true → inside (phase_of s j) = true → i = j) ∧
  (current_serving (node s) < next_ticket (node s) →
     ∃ k, ticket_of (phase_of s k) = Some (current_serving (node s))).
Proof.
  intros (S & N & p & H)%reachable_inv. pose proof (inv_word _ _ _ _ H) as Hw.
  rewrite (word_serving _ _ _ Hw), (word_next _ _ _ Hw). split.
  - intros Hi Hj. eapply (inv_uniq _ _ _ _ H); by apply (inv_inside _ _ _ _ H).
  - intros Hlt. apply (inv_cover _ _ _ _ H). lia.
Qed.

(** A step to a state given in normal form. *)
Lemma step_then s s1 s2 s3 : step s s1 → s1 = s2 → rtc step s2 s3 → rtc step s s3.
Proof. intros H ->. by apply rtc_l. Qed.

Ltac run_step c := eapply step_then; [eapply c; vm_compute; reflexivity|vm_compute; reflexivity|].

(** Two threads: the first takes the lock, the second waits, the first releases
    with a hand-over, the second gets the lock. *)
Lemma handover_run :
  ∃ s, rtc step sys_init s ∧ phase_of s 1 = Holding 1 true ∧ releases s = [true].
Proof.
  eexists. split; [|split].
  - run_step (s_take sys_init 0). run_step (λ s, s_enter s 0). run_step (λ s, s_consume s 0).
    run_step (λ s, s_take s 1). run_step (λ s, s_decide s 0). run_step (λ s, s_mark s 0).
    run_step (λ s, s_advance s 0). run_step (λ s, s_enter s 1). run_step (λ s, s_consume s 1).
    apply rtc_refl.
  - vm_compute. reflexivity.
  - vm_compute. reflexivity.
Qed.

Lemma local_lock_mutual_exclusion_witness :
  ∃ s, inside (phase_of s 1) = true ∧ inside (phase_of s 0) ≠ true.
Proof.
  destruct handover_run as (s & Hrun & H1 & _). exists s. rewrite H1. split; [reflexivity|].
  intros H0. discriminate (proj1 (local_lock_mutual_exclusion s 1 0 Hrun) (f_equal inside H1) H0).
Defined.

(** C14: the hand-over protocol: in every reachable state a thread holds the lock
    with exactly the answer the previous [release] gave (so the next holder skips taking
    the remote lock precisely when that [release] returned true), a [release] that
    returned true leaves a thread with the next ticket to take it over, and at most
    [kMaxHandOverTime] calls of [release] in a row return true. *)
Theorem handover_protocol s :
  rtc step sys_init s →
  (∀ i t handed, phase_of s i = Holding t handed → handed = last_release (releases s)) ∧
  (last_release (releases s) = true → (∀ i, inside (phase_of s i) = false) →
     ∃ k, phase_of s k = Waiting (current_serving (node s))) ∧
  streak (releases s) ≤ kMaxHandOverTime.
Proof.
  intros (S & N & p & H)%reachable_inv. pose proof (inv_word _ _ _ _ H) as Hw.
  pose proof (inv_baton _ _ _ _ H) as Hb. rewrite (word_serving _ _ _ Hw). split_and!.
  - intros i t handed Hi. pose proof (served_unique _ _ _ _ i H) as Hp.
    rewrite Hi in Hp. rewrite <-(Hp eq_refl) in Hb. apply Hb.
  - intros Hl Hno. destruct (inv_served _ _ _ _ H) as [(j & <- & Hj)|[-> _]].
    { by rewrite Hno in Hj. }
    destruct Hb as (_ & _ & _ & Hlt). destruct (inv_cover _ _ _ _ H S) as [k Hk].
    { specialize (Hlt Hl). lia. }
    exists k. specialize (Hno k). destruct (phase_of s k); by simplify_eq/=.
  - destruct p; simpl in Hb; try apply Hb.
    destruct Hb as (_ & _ & H3 & _). lia.
Qed.

Lemma handover_protocol_witness :
  ∃ s, rtc step sys_init s ∧ last_release (releases s) = true ∧ streak (releases s) ≤ kMaxHandOverTime.
Proof.
  destruct handover_run as (s & Hrun & H1 & Hr). exists s. split_and!; [exact Hrun| |].
  - by rewrite Hr.
  - exact (proj2 (proj2 (handover_protocol s Hrun))).
Defined.

(** ** Lock indices *)

Lemma lock_index_range addr :
  ga_ok addr → server_index addr * kNumOfLock ≤ get_lock_index addr < (server_index addr + 1) * kNumOfLock.
Proof.
  intros H. unfold get_lock_index. pose proof (Z.mod_pos_bound (offset addr) kNumOfLock) as Hm.
  change kNumOfLock with 32768 in *. lia.
Qed.

(** The lock of an address of an existing memory server is inside the array
    of [num_ms * kNumOfLock] nodes, and addresses of different servers never share
    a lock. *)
Theorem lock_index_in_bounds a b n :
  ga_ok a → ga_ok b → server_index a < n →
  0 ≤ get_lock_index a < n * kNumOfLock ∧
  (server_index a ≠ server_index b → get_lock_index a ≠ get_lock_index b).
Proof.
  intros Ha Hb Hn. pose proof (lock_index_range a Ha). pose proof (lock_index_range b Hb).
  assert (0 ≤ server_index a) by (apply wrap_in_width; lia).
  change kNumOfLock with 32768 in *. split; [nia|]. intros Hne Heq.
  assert (server_index a < server_index b ∨ server_index b < server_index a) as [|] by lia; nia.
Qed.

Lemma lock_index_in_bounds_witness :
  0 ≤ get_lock_index (ga_make 1 70000) < 2 * kNumOfLock ∧
  (server_index (ga_make 1 70000) ≠ server_index (ga_make 0 70000) →
   get_lock_index (ga_make 1 70000) ≠ get_lock_index (ga_make 0 70000)).
Proof. apply (lock_index_in_bounds (ga_make 1 70000) (ga_make 0 70000) 2); vm_compute; intuition congruence. Defined.

(** A release with a waiter behind the holder: the next ticket is served at once, and
    its [acquire] is told that the remote lock was handed over. *)
Lemma release_hands_over a m n S N :
  0 ≤ get_lock_index a < num_ms m * kNumOfLock → local_locks_ m !! get_lock_index a = Some n →
  word S N n → S + 1 < N → handover_count n < kMaxHandOverTime →
  ∃ m', release a m = Done true m' ∧
    ∀ spins, ∃ m'', spin spins (get_lock_index a) (S + 1) m' = Done tt m'' ∧
      ∃ m3, on_node (get_lock_index a) (consume_flag (S + 1)) m'' = Done true m3.
Proof.
  intros Hb Hn Hw HN Hc. set (idx := get_lock_index a) in *.
  assert (∀ A f (m' : LocalLockManager), num_ms m' = num_ms m →
    on_node (A := A) idx f m' = let r := f (default node_init (local_locks_ m' !! idx)) in
      Done r.1 (mkLLM (num_ms m') (<[idx := r.2]> (local_locks_ m')) (cs_rdma_tag_ m'))) as Hon.
  { intros A f m' E. unfold on_node. rewrite E.
    by rewrite (proj2 (Z.leb_le _ _)), (proj2 (Z.ltb_lt _ _)) by lia. }
  assert (hand_over_wanted n = true) as Hh.
  { unfold hand_over_wanted. rewrite (word_waiters S N n Hw) by lia.
    by rewrite !(proj2 (Z.ltb_lt _ _)) by lia. }
  eexists. split.
  { unfold release. fold idx. rewrite Hon by done. cbv zeta. rewrite Hn.
    cbn [default from_option id fst snd]. rewrite Hh. reflexivity. }
  rewrite (word_serving S N n Hw). set (n' := advance_serving (mark_release S true n)).
  assert (word (S + 1) N n') as Hw' by (apply word_advance; [exact Hw|lia]).
  intros spins. eexists. split.
  { destruct spins; cbn [spin]; (erewrite bind_done by (rewrite Hon by done; reflexivity));
      cbn [local_locks_]; rewrite lookup_insert_eq; cbn [default from_option id fst];
      rewrite (word_serving _ _ _ Hw'), Z.eqb_refl; reflexivity. }
  eexists. rewrite Hon by done. cbn [local_locks_ num_ms cs_rdma_tag_].
  rewrite !lookup_insert_eq. cbn [default from_option id fst snd consume_flag]. f_equal.
  destruct Hw as (_ & ? & ?). unfold n', advance_serving, mark_release, flag. cbn [handover_flags ticket_lock set_flag].
  by rewrite wrap_small, lookup_insert_eq by (unfold in_width; lia).
Qed.

(** The lock of an address is chosen by its offset modulo [kNumOfLock], so
    addresses 32768 bytes apart share it; when the holder of [a] releases and a
    waiter is behind it, the next thread served is told that the remote lock was
    handed over to it, also when it waits for the other address. *)
Theorem handover_crosses_addresses server off m n S N t :
  0 ≤ server < 256 → 0 ≤ off → off + kNumOfLock < 2 ^ 42 →
  let a := ga_make server off in let b := ga_make server (off + kNumOfLock) in
  server < num_ms m → local_locks_ m !! get_lock_index a = Some n →
  word S N n → S + 1 < N → handover_count n < kMaxHandOverTime → t = S + 1 →
  a ≠ b ∧ ∃ m', release a m = Done true m' ∧
    ∃ m'', spin 0 (get_lock_index b) t m' = Done tt m'' ∧
      ∃ m3, on_node (get_lock_index b) (consume_flag t) m'' = Done true m3.
Proof.
  intros Hs Ho Hr a b Hms Hn Hw HN Hc ->.
  assert (kNumOfLock = 32768) as Hk by reflexivity.
  assert (server_index a = server ∧ server_index b = server) as [Hsa Hsb]
    by (split; apply server_index_make; unfold in_width; lia).
  assert (offset a = off ∧ offset b = off + kNumOfLock) as [Hoa Hob]
    by (split; apply offset_make; unfold in_width; lia).
  assert (get_lock_index b = get_lock_index a) as Hidx.
  { unfold get_lock_index. rewrite Hsa, Hsb, Hoa, Hob. rewrite <-(Z.mul_1_l kNumOfLock) at 2.
    by rewrite Z.mod_add by lia. }
  split; [intros E; rewrite E in Hoa; lia|].
  assert (0 ≤ get_lock_index a < num_ms m * kNumOfLock) as Hb.
  { unfold get_lock_index. rewrite Hsa. pose proof (Z.mod_pos_bound (offset a) kNumOfLock).
    rewrite Hk in *. nia. }
  rewrite Hidx. destruct (release_hands_over a m n S N Hb Hn Hw HN Hc) as (m' & H1 & H2). exists m'. split; [done|apply H2].
Qed.

Lemma handover_crosses_addresses_witness :
  let m := mkLLM 1 {[get_lock_index (ga_make 0 64) := mkNode 2 0 ∅]} 1 in
  ∃ m', release (ga_make 0 64) m = Done true m'.
Proof.
  intros m. edestruct (handover_crosses_addresses 0 64 m (mkNode 2 0 ∅) 0 2 1) as (_ & m' & H & _);
    try (vm_compute; intuition congruence).
  exists m'. exact H.
Defined.
