(* ===== verification/KVBlock.v ===== *)
(** * Fingerprints and leaf slots of the Faunus index (src/kv_index/faunus_index.hpp)

    A slot of a Faunus leaf is one 64-bit word: a fingerprint in bits 52..63, the
    address of the key-value item in bits 2..51, a "free" bit and a "locked" bit.
    The word is a [Z], and the accessors and setters are the source's masks and
    shifts. *)

From S2P Require Import Prelude GlobalAddress.

(** ** Fingerprint *)

(** [Fingerprint(uint16_t v)] *)
Definition Fingerprint_of_u16 (v : Z) : Z := Z.land v 0x0FFF.

(** [Fingerprint(const Key&)]: the exclusive or of the bytes of the key. *)
Definition Fingerprint_of_key (key : list Z) : Z :=
  Z.land (fold_left (λ hash b, u16 (Z.lxor hash b)) key 0) 0x0FFF.

(** ** KVBlock *)

Abbreviation KVBlock := Z (only parsing).

Definition getFingerprint (raw : KVBlock) : Z := Fingerprint_of_u16 (u16 (Z.shiftr raw 52)).
Definition getAddr (raw : KVBlock) : GlobalAddress :=
  ga_of_u64 (Z.shiftr (Z.land raw 0x000FFFFFFFFFFFFF) 2).
Definition isFree (raw : KVBlock) : bool := negb (Z.shiftr (Z.land raw 0x2) 1 =? 0).
Definition isLocked (raw : KVBlock) : bool := negb (Z.land raw 0x1 =? 0).

Definition setFingerprint (fp : Z) (raw : KVBlock) : KVBlock :=
  Z.lor (Z.land raw 0x000FFFFFFFFFFFFF) (u64 (Z.shiftl fp 52)).
(** Both masks have fifteen digits in the source. *)
Definition setAddr (ptr : GlobalAddress) (raw : KVBlock) : KVBlock :=
  Z.lor (Z.land raw 0xFFF000000000003) (Z.land (u64 (Z.shiftl ptr 2)) 0x000FFFFFFFFFFFC).
Definition setFree (free : bool) (raw : KVBlock) : KVBlock :=
  Z.lor (Z.land raw 0xFFFFFFFFFFFFFFFD) (Z.shiftl (Z.b2z free) 1).
Definition setLocked (locked : bool) (raw : KVBlock) : KVBlock :=
  Z.lor (Z.land raw 0xFFFFFFFFFFFFFFFE) (Z.b2z locked).

(** [KVBlock(Fingerprint fp, GlobalAddress ptr, bool free, bool locked)] *)
Definition KVBlock_make (fp : Z) (ptr : GlobalAddress) (free locked : bool) : KVBlock :=
  setLocked locked (setFree free (setAddr ptr (setFingerprint fp 0))).

(** [util::thread_rand64] draws from the calling thread's generator, here the
    numbers still to come. *)
Definition rand_state : Type := (nat → Z) * nat.
Definition thread_rand64 : M rand_state Z := λ r, Done (u64 (r.1 r.2)) (r.1, S r.2).

(** [do x = make(rand()) while (x == avoid)], at most [p] draws. *)
Definition draw_different (p : positive) (make : Z → Z) (avoid : Z) : M rand_state Z :=
  r ← loop p (λ _ : unit, x ← thread_rand64;
                          mret (if make x =? avoid then inl tt else inr (make x))) tt;
  match r with inl _ => raise OutOfFuel | inr x => mret x end.

Definition setDifferentRandomFpAddr (p : positive) (raw : KVBlock) : M rand_state KVBlock :=
  new_fp ← draw_different p (λ x, Fingerprint_of_u16 (Z.land x 0x0FFF)) (getFingerprint raw);
  let raw := setFingerprint new_fp raw in
  new_addr ← draw_different p (λ x, ga_of_u64 (Z.land x 0x0003FFFFFFFFFF)) (getAddr raw);
  mret (setAddr new_addr raw).

(** ** Bit-level reasoning *)

Lemma testbit_u64 z i : 0 ≤ i → Z.testbit (u64 z) i = (i <? 64) && Z.testbit z i.
Proof.
  intros Hi. unfold wrap. destruct (Z.ltb_spec i 64).
  - by rewrite Z.mod_pow2_bits_low by lia.
  - by rewrite Z.mod_pow2_bits_high by lia.
Qed.

Lemma testbit_wrap w z i : 0 ≤ w → 0 ≤ i → Z.testbit (wrap w z) i = (i <? w) && Z.testbit z i.
Proof.
  intros Hw Hi. unfold wrap. destruct (Z.ltb_spec i w).
  - by rewrite Z.mod_pow2_bits_low by lia.
  - by rewrite Z.mod_pow2_bits_high by lia.
Qed.

Lemma testbit_field lo n i : 0 ≤ lo → 0 ≤ n → 0 ≤ i →
  Z.testbit (Z.shiftl (Z.ones n) lo) i = (lo <=? i) && (i <? lo + n).
Proof.
  intros. rewrite Z.shiftl_spec by lia. rewrite Z.testbit_ones by lia. bool_cases; simpl; lia.
Qed.

Lemma testbit_b2z b i : 0 ≤ i → Z.testbit (Z.b2z b) i = (i =? 0) && b.
Proof.
  intros Hi. destruct (Z.eqb_spec i 0) as [->|Hne]; [by destruct b|].
  replace i with (Z.succ (i - 1)) by lia. destruct b; simpl.
  - change 1 with (2 * 0 + 1). by rewrite Z.testbit_odd_succ, Z.testbit_0_l by lia.
  - apply Z.testbit_0_l.
Qed.

(** The masks of the source as fields of bits. *)
Lemma mask_low52 : 0x000FFFFFFFFFFFFF = Z.ones 52. Proof. reflexivity. Qed.
Lemma mask_addr_keep : 0xFFF000000000003 = Z.lor (Z.shiftl (Z.ones 12) 48) (Z.ones 2).
Proof. reflexivity. Qed.
Lemma mask_addr : 0x000FFFFFFFFFFFC = Z.shiftl (Z.ones 46) 2. Proof. reflexivity. Qed.
Lemma mask_not_free : 0xFFFFFFFFFFFFFFFD = Z.lor (Z.shiftl (Z.ones 62) 2) (Z.ones 1).
Proof. reflexivity. Qed.
Lemma mask_not_locked : 0xFFFFFFFFFFFFFFFE = Z.shiftl (Z.ones 63) 1. Proof. reflexivity. Qed.
Lemma mask_fp : 0x0FFF = Z.ones 12. Proof. reflexivity. Qed.

Section bits.
Variable i : Z.
Hypothesis Hi : 0 ≤ i.

Lemma testbit_setFingerprint fp raw :
  Z.testbit (setFingerprint fp raw) i =
    (i <? 52) && Z.testbit raw i || (i <? 64) && Z.testbit fp (i - 52).
Proof using Hi.
  unfold setFingerprint. rewrite mask_low52, Z.lor_spec, Z.land_spec, testbit_u64 by done.
  rewrite Z.testbit_ones, Z.shiftl_spec by lia. bool_cases; try lia; simpl; by rewrite ?andb_true_r, ?andb_false_r.
Qed.

Lemma testbit_setAddr ptr raw :
  Z.testbit (setAddr ptr raw) i =
    ((48 <=? i) && (i <? 60) || (i <? 2)) && Z.testbit raw i ||
    (2 <=? i) && (i <? 48) && Z.testbit ptr (i - 2).
Proof using Hi.
  unfold setAddr. rewrite mask_addr_keep, mask_addr, !Z.lor_spec, !Z.land_spec, Z.lor_spec by done.
  rewrite testbit_u64, !testbit_field, Z.testbit_ones, Z.shiftl_spec by lia.
  bool_cases; try lia; simpl; by rewrite ?andb_true_r, ?andb_false_r, ?orb_false_r.
Qed.

Lemma testbit_setFree b raw :
  Z.testbit (setFree b raw) i = if i =? 1 then b else (i <? 64) && Z.testbit raw i.
Proof using Hi.
  unfold setFree. rewrite mask_not_free, !Z.lor_spec, Z.land_spec, Z.lor_spec by done.
  rewrite testbit_field, Z.testbit_ones, Z.shiftl_spec by lia.
  destruct (Z.leb_spec 1 i); [rewrite testbit_b2z by lia|rewrite (Z.testbit_neg_r (Z.b2z b)) by lia];
    bool_cases; try lia; simpl; by rewrite ?andb_true_r, ?andb_false_r, ?orb_false_r.
Qed.

Lemma testbit_setLocked b raw :
  Z.testbit (setLocked b raw) i = if i =? 0 then b else (i <? 64) && Z.testbit raw i.
Proof using Hi.
  unfold setLocked. rewrite mask_not_locked, !Z.lor_spec, Z.land_spec by done.
  rewrite testbit_field, testbit_b2z by lia.
  bool_cases; try lia; simpl; by rewrite ?andb_true_r, ?andb_false_r, ?orb_false_r.
Qed.

Lemma testbit_getFingerprint raw :
  Z.testbit (getFingerprint raw) i = (i <? 12) && Z.testbit raw (i + 52).
Proof using Hi.
  unfold getFingerprint, Fingerprint_of_u16. rewrite mask_fp, Z.land_spec, Z.testbit_ones by lia.
  rewrite testbit_wrap, Z.shiftr_spec by lia.
  bool_cases; try lia; simpl; by rewrite ?andb_true_r, ?andb_false_r.
Qed.

Lemma testbit_getAddr raw :
  Z.testbit (getAddr raw) i = (i <? 50) && Z.testbit raw (i + 2).
Proof using Hi.
  unfold getAddr, ga_of_u64. rewrite mask_low52, testbit_wrap, Z.shiftr_spec, Z.land_spec by lia.
  rewrite Z.testbit_ones by lia. bool_cases; try lia; simpl; by rewrite ?andb_true_r, ?andb_false_r.
Qed.
End bits.

Lemma isLocked_bit raw : isLocked raw = Z.testbit raw 0.
Proof.
  unfold isLocked. assert (Z.land raw 1 = Z.b2z (Z.testbit raw 0)) as ->.
  { rewrite Z.bit0_mod. change 1 with (Z.ones 1). by rewrite Z.land_ones by lia. }
  by destruct (Z.testbit raw 0).
Qed.

Lemma isFree_bit raw : isFree raw = Z.testbit raw 1.
Proof.
  unfold isFree. assert (Z.shiftr (Z.land raw 2) 1 = Z.b2z (Z.testbit raw 1)) as ->.
  { apply Z.bits_inj'. intros i Hi. rewrite Z.shiftr_spec, Z.land_spec, testbit_b2z by lia.
    change 2 with (Z.shiftl (Z.ones 1) 1). rewrite testbit_field by lia.
    bool_cases; subst; try lia; simpl; by rewrite ?andb_true_r, ?andb_false_r. }
  by destruct (Z.testbit raw 1).
Qed.

(** Decides an equality of words bit by bit: the setters and accessors become
    conditions on the position. *)
Ltac bits_step :=
  rewrite ?testbit_getFingerprint, ?testbit_getAddr, ?testbit_setLocked, ?testbit_setFree,
    ?testbit_setAddr, ?testbit_setFingerprint, ?Z.testbit_0_l by lia.
Ltac bits_eq :=
  apply Z.bits_inj'; intros ? ?; bits_step; bool_cases; try lia; simpl;
  rewrite ?andb_true_r, ?andb_false_r, ?orb_false_r; try done.

Lemma isFree_set raw b : isFree (setFree b raw) = b.
Proof. by rewrite isFree_bit, testbit_setFree by lia. Qed.
Lemma isFree_setLocked raw b : isFree (setLocked b raw) = isFree raw.
Proof. by rewrite !isFree_bit, testbit_setLocked by lia. Qed.
Lemma isLocked_set raw b : isLocked (setLocked b raw) = b.
Proof. by rewrite isLocked_bit, testbit_setLocked by lia. Qed.
Lemma isLocked_setFree raw b : isLocked (setFree b raw) = isLocked raw.
Proof. by rewrite !isLocked_bit, testbit_setFree by lia. Qed.
Lemma isFree_setAddr raw a : isFree (setAddr a raw) = isFree raw.
Proof. rewrite !isFree_bit, testbit_setAddr by lia. simpl. by rewrite orb_false_r. Qed.
Lemma isLocked_setAddr raw a : isLocked (setAddr a raw) = isLocked raw.
Proof. rewrite !isLocked_bit, testbit_setAddr by lia. simpl. by rewrite orb_false_r. Qed.

Lemma getAddr_setFlags raw b c : getAddr (setLocked b (setFree c raw)) = getAddr raw.
Proof. bits_eq. Qed.
Lemma getAddr_setLocked raw b : getAddr (setLocked b raw) = getAddr raw.
Proof. bits_eq. Qed.
Lemma getFingerprint_setLocked raw b : getFingerprint (setLocked b raw) = getFingerprint raw.
Proof. bits_eq. Qed.

#[export] Hint Rewrite isFree_set isFree_setLocked isLocked_set isLocked_setFree isFree_setAddr
  isLocked_setAddr getAddr_setLocked getFingerprint_setLocked : kvblock.

Lemma in_width_testbit_high w z i : in_width w z → w ≤ i → Z.testbit z i = false.
Proof. apply in_width_testbit. Qed.

Lemma u64_bits raw : (∀ i, 64 ≤ i → Z.testbit raw i = false) → 0 ≤ raw → in_width 64 raw.
Proof.
  intros H H0. assert (raw = u64 raw) as ->; [|apply wrap_in_width; lia].
  apply Z.bits_inj'. intros i Hi. rewrite testbit_u64 by done. destruct (Z.ltb_spec i 64); [done|].
  by rewrite H by lia.
Qed.

Lemma setLocked_width b raw : in_width 64 raw → in_width 64 (setLocked b raw).
Proof.
  intros [H1 H2]. apply u64_bits.
  - intros i Hi. rewrite testbit_setLocked by lia. bool_cases; (done || lia).
  - unfold setLocked. apply Z.lor_nonneg. split; [apply Z.land_nonneg; lia|by destruct b].
Qed.

Lemma setFree_width b raw : in_width 64 raw → in_width 64 (setFree b raw).
Proof.
  intros [H1 H2]. apply u64_bits.
  - intros i Hi. rewrite testbit_setFree by lia. bool_cases; (done || lia).
  - unfold setFree. apply Z.lor_nonneg. split; [apply Z.land_nonneg; lia|by destruct b].
Qed.

Lemma setAddr_width a raw : in_width 64 (setAddr a raw).
Proof.
  apply u64_bits.
  - intros i Hi. rewrite testbit_setAddr by lia. bool_cases; (done || lia).
  - unfold setAddr. apply Z.lor_nonneg. split; apply Z.land_nonneg; lia.
Qed.

Lemma setFingerprint_width fp raw : in_width 64 (setFingerprint fp raw).
Proof.
  apply u64_bits.
  - intros i Hi. rewrite testbit_setFingerprint by lia. bool_cases; (done || lia).
  - unfold setFingerprint. apply Z.lor_nonneg. split; [apply Z.land_nonneg; lia|].
    apply wrap_in_width. lia.
Qed.

#[export] Hint Resolve setLocked_width setFree_width setAddr_width setFingerprint_width : word.

(** What a new block stores: 46 bits of the address and 8 of the fingerprint. *)
Lemma getAddr_make fp a f l : 0 ≤ a → getAddr (KVBlock_make fp a f l) = a mod 2 ^ 46.
Proof.
  intros Ha. unfold KVBlock_make. rewrite getAddr_setFlags.
  apply Z.bits_inj'. intros i Hi. bits_step.
  destruct (Z.ltb_spec i 46).
  - rewrite Z.mod_pow2_bits_low by lia. replace (i + 2 - 2) with i by lia.
    bool_cases; try lia; simpl. by rewrite ?andb_true_r, ?andb_false_r.
  - rewrite Z.mod_pow2_bits_high by lia. bool_cases; try lia; simpl; try done.
    all: by rewrite (Z.testbit_neg_r fp) by lia.
Qed.

Lemma getFingerprint_make fp a f l : in_width 12 fp → getFingerprint (KVBlock_make fp a f l) = fp mod 2 ^ 8.
Proof.
  intros Hfp. unfold KVBlock_make. apply Z.bits_inj'. intros i Hi. bits_step.
  destruct (Z.ltb_spec i 8).
  - rewrite Z.mod_pow2_bits_low by lia. replace (i + 52 - 52) with i by lia.
    bool_cases; try lia; simpl; by rewrite ?orb_false_r.
  - rewrite Z.mod_pow2_bits_high by lia. bool_cases; try lia; simpl; try done;
      rewrite ?Z.testbit_neg_r by lia; done.
Qed.

(** ** Fingerprints of keys *)

Lemma lxor_width8 a b : in_width 8 a → in_width 8 b → in_width 8 (Z.lxor a b).
Proof.
  intros [Ha1 Ha2] [Hb1 Hb2]. split; [apply Z.lxor_nonneg; lia|].
  destruct (decide (Z.lxor a b = 0)) as [->|Hne]; [lia|].
  assert (0 ≤ Z.lxor a b) by (apply Z.lxor_nonneg; lia).
  apply Z.log2_lt_pow2; [lia|]. eapply Z.le_lt_trans; [apply Z.log2_lxor; lia|].
  assert (∀ x, 0 ≤ x < 2 ^ 8 → Z.log2 x < 8) as Hl.
  { intros x Hx. destruct (decide (x = 0)) as [->|]; [done|]. apply Z.log2_lt_pow2; lia. }
  apply Z.max_lub_lt; apply Hl; lia.
Qed.

Lemma fingerprint_key_small key : bytes_ok key → in_width 8 (Fingerprint_of_key key).
Proof.
  intros Hk. unfold Fingerprint_of_key. set (h := fold_left _ key 0).
  assert (in_width 8 h) as Hh.
  { unfold h. assert (in_width 8 0) as H0 by (unfold in_width; lia). revert H0.
    generalize 0 at 1 2. induction Hk as [|b key Hb Hk IH]; intros z Hz; simpl; [done|].
    apply IH. pose proof (lxor_width8 z b Hz Hb) as Hx.
    rewrite wrap_small; [done|]. unfold in_width in *. lia. }
  change 0x0FFF with (Z.ones 12). rewrite Z.land_ones by lia.
  rewrite Z.mod_small; [done|]. unfold in_width in Hh. lia.
Qed.

(** ** The properties of a slot word *)

(** A slot made for a key and an address of one of the first 16 memory
    servers is a 64-bit word from which the key's fingerprint, the address and both
    flags are read back unchanged. *)
Theorem kvblock_roundtrip (key : list Z) (a : GlobalAddress) (f l : bool) :
  bytes_ok key → ga_ok a → server_index a < 16 →
  let kvb := KVBlock_make (Fingerprint_of_key key) a f l in
  in_width 64 kvb ∧ getFingerprint kvb = Fingerprint_of_key key ∧ getAddr kvb = a ∧
  isFree kvb = f ∧ isLocked kvb = l.
Proof.
  intros Hk Ha Hs kvb. pose proof (fingerprint_key_small key Hk) as Hfp.
  rewrite server_index_div in Hs by done. unfold kvb. split_and!.
  - unfold KVBlock_make. auto with word.
  - rewrite getFingerprint_make by (unfold in_width in *; lia). by apply Z.mod_small.
  - rewrite getAddr_make by apply Ha. apply Z.mod_small. destruct Ha.
    pose proof (Z.div_mod a (2 ^ 42)). pose proof (Z.mod_pos_bound a (2 ^ 42)). lia.
  - unfold KVBlock_make. by autorewrite with kvblock.
  - unfold KVBlock_make. by autorewrite with kvblock.
Qed.

Lemma kvblock_roundtrip_witness :
  let kvb := KVBlock_make (Fingerprint_of_key [1; 2; 3; 200]) (ga_make 3 4096) true false in
  getAddr kvb = ga_make 3 4096 ∧ isFree kvb = true ∧ isLocked kvb = false.
Proof.
  destruct (kvblock_roundtrip [1; 2; 3; 200] (ga_make 3 4096) true false) as (_ & _ & H1 & H2 & H3).
  - repeat constructor; unfold byte_ok, in_width; lia.
  - apply ga_make_ok.
  - vm_compute. reflexivity.
  - by split_and!.
Defined.

(** The mask of [setAddr] keeps 46 bits: the address read back from a slot is
    the address stored exactly when its server index is below 16. *)
Theorem kvblock_truncates_address fp (a : GlobalAddress) f l :
  ga_ok a → (getAddr (KVBlock_make fp a f l) = a ↔ server_index a < 16).
Proof.
  intros Ha. rewrite server_index_div, getAddr_make by (done || apply Ha). destruct Ha as [H1 H2].
  pose proof (Z.div_mod a (2 ^ 42)). pose proof (Z.mod_pos_bound a (2 ^ 42)).
  pose proof (Z.mod_pos_bound a (2 ^ 46)). split; intros Hx; [lia|]. apply Z.mod_small. lia.
Qed.

Lemma kvblock_truncates_address_witness :
  getAddr (KVBlock_make 0 (ga_make 16 64) false false) ≠ ga_make 16 64.
Proof.
  rewrite kvblock_truncates_address by apply ga_make_ok. vm_compute. congruence.
Defined.

Lemma setLocked_add raw : in_width 64 raw → isLocked raw = false → raw + 1 = setLocked true raw.
Proof.
  intros Hr Hl. rewrite isLocked_bit in Hl.
  assert (Z.land raw 1 = 0) as Hland.
  { change 1 with (Z.ones 1). rewrite Z.land_ones by lia. change (2 ^ 1) with 2.
    rewrite <-Z.bit0_mod, Hl. done. }
  rewrite <-(lor_disjoint_add raw 1 Hland). apply Z.bits_inj'. intros i Hi.
  rewrite testbit_setLocked, Z.lor_spec by done. change 1 with (Z.b2z true) at 1.
  rewrite testbit_b2z by done. bool_cases; subst; simpl; rewrite ?orb_true_r, ?orb_false_r; try done.
  apply in_width_testbit with 64; [done|lia].
Qed.

Lemma setLocked_same raw : in_width 64 raw → setLocked (isLocked raw) raw = raw.
Proof.
  intros Hr. apply Z.bits_inj'. intros i Hi. rewrite testbit_setLocked, isLocked_bit by done.
  bool_cases; subst; try done. symmetry. apply in_width_testbit with 64; [done|lia].
Qed.

Lemma setLocked_twice b c raw : in_width 64 raw → setLocked b (setLocked c raw) = setLocked b raw.
Proof. intros Hr. bits_eq. Qed.

(** A fetch-and-add of 1 to the word of an unlocked slot sets its lock bit and
    changes nothing else, and a fetch-and-add of -1 gives the word back: the
    slot locks of a leaf split are taken and released this way. *)
Theorem kvblock_faa_lock raw :
  in_width 64 raw → isLocked raw = false →
  let locked := u64 (raw + 1) in
  locked = setLocked true raw ∧ getFingerprint locked = getFingerprint raw ∧
  getAddr locked = getAddr raw ∧ isFree locked = isFree raw ∧ isLocked locked = true ∧
  u64 (locked - 1) = raw.
Proof.
  intros Hr Hl locked. pose proof (setLocked_add raw Hr Hl) as Hadd.
  assert (locked = raw + 1) as Hlk.
  { unfold locked. apply wrap_small. rewrite Hadd. auto with word. }
  rewrite Hlk. rewrite Hadd at 1 2 3 4 5. autorewrite with kvblock. split_and!; try done.
  replace (raw + 1 - 1) with raw by lia. by apply wrap_small.
Qed.

Lemma kvblock_faa_lock_witness :
  isLocked (u64 (KVBlock_make 5 64 false false + 1)) = true ∧
  u64 (u64 (KVBlock_make 5 64 false false + 1) - 1) = KVBlock_make 5 64 false false.
Proof.
  destruct (kvblock_faa_lock (KVBlock_make 5 64 false false)) as (_ & _ & _ & _ & H1 & H2).
  - unfold KVBlock_make. auto with word.
  - reflexivity.
  - by split.
Defined.

(** ** Cleared slots *)

Lemma draw_different_spec p make avoid r x r' :
  draw_different p make avoid r = Done x r' → x ≠ avoid ∧ ∃ y, x = make (u64 y).
Proof.
  unfold draw_different. intros (res & r1 & Hl & Hk)%bind_inv.
  destruct res as [?|x']; [done|]. injection Hk as -> <-.
  refine (loop_inv (λ _ _, True) (λ x _, x ≠ avoid ∧ ∃ y, x = make (u64 y)) _ _ p tt r _ _ I Hl).
  intros s w res w' _. unfold mbind, M_bind, thread_rand64, mret, M_ret. intros [= <- <-].
  destruct (Z.eqb_spec (make (u64 (w.1 w.2))) avoid) as [|Hne]; [done|]. split; [done|by eexists].
Qed.

(** The draws do not stay on one value for [p] draws in a row. *)
Definition rand_fair (p : positive) (r : nat → Z) : Prop :=
  ∀ pos avoid, ∃ k, (k < Pos.to_nat p)%nat ∧ Z.land (u64 (r (pos + k)%nat)) 0xFFF ≠ avoid.

Lemma draw_loop_done make avoid r : ∀ n pos,
  (∃ k, (k < n)%nat ∧ make (u64 (r (pos + k)%nat)) ≠ avoid) →
  ∃ x pos', loop_nat n (λ _ : unit, x ← thread_rand64;
      mret (if make x =? avoid then inl tt else inr (make x))) tt (r, pos) = Done (inr x) (r, pos').
Proof.
  induction n as [|n IH]; intros pos (k & Hk & Hne); [lia|].
  cbn [loop_nat]. erewrite bind_done by reflexivity. cbn [fst snd].
  destruct (Z.eqb_spec (make (u64 (r pos))) avoid) as [He|He]; [|by do 2 eexists].
  apply (IH (S pos)). destruct k as [|k]; [rewrite Nat.add_0_r in Hne; done|].
  exists k. split; [lia|]. by replace (S pos + k)%nat with (pos + S k)%nat by lia.
Qed.

Lemma draw_different_done p make avoid r pos :
  (∃ k, (k < Pos.to_nat p)%nat ∧ make (u64 (r (pos + k)%nat)) ≠ avoid) →
  ∃ x pos', draw_different p make avoid (r, pos) = Done x (r, pos').
Proof.
  intros H. destruct (draw_loop_done make avoid r _ pos H) as (x & pos' & Hl).
  exists x, pos'. unfold draw_different. erewrite bind_done by (rewrite loop_loop_nat; exact Hl). done.
Qed.

(** Clearing a slot returns when the generator is fair. *)
Lemma setDifferentRandomFpAddr_done p raw r pos :
  rand_fair p r → ∃ raw' pos', setDifferentRandomFpAddr p raw (r, pos) = Done raw' (r, pos').
Proof.
  intros Hfair. unfold setDifferentRandomFpAddr.
  destruct (draw_different_done p (λ x, Fingerprint_of_u16 (Z.land x 0x0FFF)) (getFingerprint raw) r pos)
    as (fp & pos1 & H1).
  { destruct (Hfair pos (getFingerprint raw)) as (k & Hk & Hne). exists k. split; [done|].
    unfold Fingerprint_of_u16. by rewrite <-Z.land_assoc. }
  erewrite bind_done by exact H1. cbv zeta. set (raw1 := setFingerprint fp raw).
  destruct (draw_different_done p (λ x, ga_of_u64 (Z.land x 0x0003FFFFFFFFFF)) (getAddr raw1) r pos1)
    as (a & pos2 & H2).
  { destruct (Hfair pos1 (Z.land (getAddr raw1) 0xFFF)) as (k & Hk & Hne). exists k. split; [done|].
    intros E. apply Hne. rewrite <-E. unfold ga_of_u64. apply Z.bits_inj'. intros i Hi.
    cbv beta. change 0x0003FFFFFFFFFF with (Z.ones 42).
    rewrite mask_fp, !Z.land_spec, !testbit_wrap, ?Z.land_spec, ?testbit_wrap by lia.
    rewrite !Z.testbit_ones by lia. bool_cases; try lia; simpl; by rewrite ?andb_true_r, ?andb_false_r. }
  erewrite bind_done by exact H2. by do 2 eexists.
Qed.

Lemma getAddr_setAddr a raw : 0 ≤ a < 2 ^ 46 → getAddr raw < 2 ^ 46 → getAddr (setAddr a raw) = a.
Proof.
  intros Ha Hr. apply Z.bits_inj'. intros i Hi. bits_step. replace (i + 2 - 2) with i by lia.
  destruct (Z.ltb_spec i 46).
  - bool_cases; try lia. simpl. by rewrite andb_true_r || done.
  - rewrite (in_width_testbit 46 a i) by (unfold in_width; lia). rewrite !andb_false_r, orb_false_r.
    assert (Z.testbit (getAddr raw) i = false) as Hb.
    { apply in_width_testbit with 46; [|lia]. split; [|done]. apply wrap_in_width. lia. }
    rewrite testbit_getAddr in Hb by done. bool_cases; try lia; simpl in *; try done.
Qed.

Lemma getAddr_setFingerprint fp raw : getAddr (setFingerprint fp raw) = getAddr raw.
Proof.
  bits_eq. all: rewrite (Z.testbit_neg_r fp) by lia; by rewrite ?andb_false_r, ?orb_false_r.
Qed.

(** A slot that is cleared with random contents never gets its old word
    back, whatever flags it is then given: a compare-and-swap that still expects
    the old word fails.  (The address of every slot made by the constructor is
    below [2^46].) *)
Theorem random_block_differs p raw rnd raw' rnd' free locked :
  in_width 64 raw → getAddr raw < 2 ^ 46 →
  setDifferentRandomFpAddr p raw rnd = Done raw' rnd' →
  getAddr raw' ≠ getAddr raw ∧ setFree free (setLocked locked raw') ≠ raw ∧
  getAddr raw' < 2 ^ 46 ∧ in_width 64 raw'.
Proof.
  intros Hw Hr Hrun. unfold setDifferentRandomFpAddr in Hrun.
  apply bind_inv in Hrun as (fp & r1 & H1 & Hrun).
  apply bind_inv in Hrun as (a & r2 & H2 & Hrun). injection Hrun as <- <-.
  apply draw_different_spec in H2 as [Hne [y Hy]]. rewrite getAddr_setFingerprint in Hne.
  assert (0 ≤ a < 2 ^ 46) as Ha.
  { subst a. unfold ga_of_u64. change 0x0003FFFFFFFFFF with (Z.ones 42). rewrite Z.land_ones by lia.
    pose proof (Z.mod_pos_bound (u64 y) (2 ^ 42)). rewrite wrap_small by (unfold in_width; lia). lia. }
  rewrite getAddr_setAddr by (done || by rewrite getAddr_setFingerprint).
  split_and!; [done| |lia|auto with word]. intros E. apply Hne.
  rewrite <-E at 1. assert (∀ x, getAddr (setFree free x) = getAddr x) as Hf by (intros; bits_eq).
  by rewrite Hf, getAddr_setLocked, getAddr_setAddr by (done || by rewrite getAddr_setFingerprint).
Qed.

Lemma random_block_differs_witness :
  ∃ raw' rnd', setDifferentRandomFpAddr 10 0 (λ n, Z.of_nat n, 0%nat) = Done raw' rnd' ∧
    setFree true (setLocked false raw') ≠ 0.
Proof.
  eexists _, _. split; [vm_compute; reflexivity|].
  eapply (random_block_differs 10 0 (λ n, Z.of_nat n, 0%nat) _ _ true false);
    [unfold in_width; lia|vm_compute; reflexivity|vm_compute; reflexivity].
Defined.
