(* ===== verification/FaunusNode.v ===== *)
(** * Nodes of the Faunus index (src/kv_index/faunus_index.hpp, .cpp, kv_index.hpp)

    Headers, leaves, internal nodes and key-value items with their layout in
    memory, and the computations of the index that work on one node at a time: the
    child search of [find_node], the entry insertion and the split of an internal
    node, the distribution of the entries of a split leaf, the collection of slots
    with a fingerprint.  A key is the big-endian number of its bytes, whose order
    is the order of [memcmp] (ArrayVar.v).

    A struct is laid out as the x86-64 ABI lays it out ([ArrayVar] and
    [GlobalAddress] are packed and need no alignment); padding is written as zeros
    and never read. *)

From S2P Require Import Prelude GlobalAddress KVBlock.

(** The compile-time parameters.  [split_threshold] is
    [static_cast<size_t>(branch_factor * FAUNUS_SPLIT_WATERMARK)]. *)
Class FaunusConfig := {
  KEY_SIZE : nat;
  VALUE_SIZE : nat;
  branch_factor : nat;
  split_threshold : nat;
  FAUNUS_MAINTENANCE_ENABLED : bool
}.

Record Header := mkHeader {
  lock : Z;
  level : Z;
  fence_first : Z;
  fence_second : Z;
  last_index : Z
}.

Record LeafNode := mkLeaf { lheader : Header; kv_blocks : list KVBlock }.
Record InternalEntry := mkEntry { ekey : Z; child : GlobalAddress }.
Record InternalNode := mkInternal { iheader : Header; entries : list InternalEntry }.
Record KVItem := mkItem { item_key : Z; item_value : Z }.

Definition header0 : Header := mkHeader 0 0 0 0 0.
Definition entry0 : InternalEntry := mkEntry 0 Null.

Definition set_level v h := mkHeader (lock h) v (fence_first h) (fence_second h) (last_index h).
Definition set_fence f s h := mkHeader (lock h) (level h) f s (last_index h).
Definition set_last_index v h := mkHeader (lock h) (level h) (fence_first h) (fence_second h) v.

Section node.
Context {cfg : FaunusConfig}.

(** [Key::min()] and [Key::max()] *)
Definition key_min : Z := 0.
Definition key_max : Z := 256 ^ Z.of_nat KEY_SIZE - 1.

Definition Fingerprint (key : Z) : Z := Fingerprint_of_key (be_bytes KEY_SIZE key).

(** [LeafNode()] and [InternalNode{}] *)
Definition LeafNode_init : LeafNode :=
  mkLeaf header0 (replicate branch_factor (KVBlock_make 0 0 true false)).
Definition InternalNode_init : InternalNode :=
  mkInternal header0 (replicate branch_factor entry0).

(** ** Layout *)

Definition align8 (n : nat) : nat := (8 * ((n + 7) / 8))%nat.
Definition offsetof_last_index : nat := align8 (16 + 2 * KEY_SIZE).
Definition sizeof_Header : nat := (offsetof_last_index + 8)%nat.
Definition sizeof_Entry : nat := (KEY_SIZE + 8)%nat.
Definition sizeof_LeafNode : nat := (sizeof_Header + 8 * branch_factor)%nat.
Definition sizeof_InternalNode : nat := align8 (sizeof_Header + sizeof_Entry * branch_factor).
Definition sizeof_KVItem : nat := (KEY_SIZE + VALUE_SIZE)%nat.

(** [OFFSET_OF_ARRAY_ELEM(LeafNode, kv_blocks, index)] *)
Definition kv_block_offset (index : nat) : Z := Z.of_nat (sizeof_Header + 8 * index).

Definition pad_to (n : nat) (l : list Z) : list Z := l ++ replicate (n - length l) 0.

Definition enc_Header (h : Header) : list Z :=
  pad_to offsetof_last_index
    (le_bytes 8 (lock h) ++ le_bytes 8 (level h) ++ be_bytes KEY_SIZE (fence_first h) ++
     be_bytes KEY_SIZE (fence_second h)) ++ le_bytes 8 (last_index h).

Definition dec_Header (b : list Z) : Header :=
  mkHeader (le_val (slice 0 8 b)) (le_val (slice 8 8 b)) (be_val (slice 16 KEY_SIZE b))
    (be_val (slice (16 + KEY_SIZE) KEY_SIZE b)) (le_val (slice offsetof_last_index 8 b)).

Definition enc_LeafNode (n : LeafNode) : list Z :=
  enc_Header (lheader n) ++ concat (map (le_bytes 8) (kv_blocks n)).

Definition dec_LeafNode (b : list Z) : LeafNode :=
  mkLeaf (dec_Header b)
    (map (λ i, le_val (slice (sizeof_Header + 8 * i) 8 b)) (seq 0 branch_factor)).

Definition enc_Entry (e : InternalEntry) : list Z :=
  be_bytes KEY_SIZE (ekey e) ++ le_bytes 8 (child e).

Definition dec_Entry (b : list Z) : InternalEntry :=
  mkEntry (be_val (slice 0 KEY_SIZE b)) (ga_of_u64 (le_val (slice KEY_SIZE 8 b))).

Definition enc_InternalNode (n : InternalNode) : list Z :=
  pad_to sizeof_InternalNode (enc_Header (iheader n) ++ concat (map enc_Entry (entries n))).

Definition dec_InternalNode (b : list Z) : InternalNode :=
  mkInternal (dec_Header b)
    (map (λ i, dec_Entry (slice (sizeof_Header + sizeof_Entry * i) sizeof_Entry b))
       (seq 0 branch_factor)).

Definition enc_KVItem (kv : KVItem) : list Z :=
  be_bytes KEY_SIZE (item_key kv) ++ be_bytes VALUE_SIZE (item_value kv).

(** A READ of only the key leaves the value of the default-constructed item. *)
Definition dec_KVItem (b : list Z) : KVItem :=
  mkItem (be_val (slice 0 KEY_SIZE b)) (be_val (slice KEY_SIZE VALUE_SIZE b)).

(** ** Search in an internal node *)

(** [for (i = 0; !found && i <= last_index; i++)]: [None] is an access outside
    the array. *)
Fixpoint child_loop (key : Z) (es : list InternalEntry) (i n : nat) : option (option GlobalAddress) :=
  match n with
  | O => Some None
  | S n' =>
      match es !! i with
      | None => None
      | Some e => if key <? ekey e then Some (Some (child e)) else child_loop key es (S i) n'
      end
  end.

Definition find_child (key : Z) (n : InternalNode) : option GlobalAddress :=
  let last := Z.to_nat (last_index (iheader n)) in
  match child_loop key (entries n) 0 (S last) with
  | None => None
  | Some (Some c) => Some c
  | Some None => child <$> entries n !! last
  end.

(** ** Insertion into an internal node *)

(** [for (i = last_index; i >= 0; i--) if (entries[i].key == key)] *)
Definition has_key (key : Z) (n : InternalNode) : bool :=
  existsb (λ e, ekey e =? key) (take (S (Z.to_nat (last_index (iheader n)))) (entries n)).

(** [for (i = last_index - 1; i >= 0; i--) if (entries[i].key < key) index = i + 1] *)
Fixpoint insert_index (key : Z) (es : list InternalEntry) (n : nat) : nat :=
  match n with
  | O => O
  | S i => if ekey (default entry0 (es !! i)) <? key then S i else insert_index key es i
  end.

Definition set_key (i : nat) (k : Z) (es : list InternalEntry) : list InternalEntry :=
  alter (λ e, mkEntry k (child e)) i es.
Definition set_child (i : nat) (c : GlobalAddress) (es : list InternalEntry) : list InternalEntry :=
  alter (λ e, mkEntry (ekey e) c) i es.
Definition key_at (es : list InternalEntry) (i : nat) : Z := ekey (default entry0 (es !! i)).
Definition child_at (es : list InternalEntry) (i : nat) : GlobalAddress :=
  child (default entry0 (es !! i)).

(** [for (; i > index; i--)]: at [i = 1] the key of [entries[-1]] is read; [junk]
    is what is found there. *)
Fixpoint shift_loop (junk : Z) (index i : nat) (es : list InternalEntry) : list InternalEntry :=
  match i with
  | O => es
  | S i' =>
      if (index <? i)%nat then
        let es := set_key i' (match i' with O => junk | S j => key_at es j end) es in
        let es := set_child i (child_at es i') es in
        shift_loop junk index i' es
      else es
  end.

(** The entries after a shift from [n] and the two stores. *)
Definition put_entry (junk key : Z) (new_child : GlobalAddress) (last : nat)
    (es : list InternalEntry) : list InternalEntry :=
  let index := insert_index key es last in
  let es := shift_loop junk index (S last) es in
  set_key index key (set_child (S index) new_child es).

Definition insert_entry (junk key : Z) (new_child : GlobalAddress) (n : InternalNode) : InternalNode :=
  let last := Z.to_nat (last_index (iheader n)) in
  mkInternal (set_last_index (last_index (iheader n) + 1) (iheader n))
    (put_entry junk key new_child last (entries n)).

(** ** Split of an internal node: the node, the new node and the middle key. *)
Definition split_node (junk key : Z) (new_child : GlobalAddress) (n : InternalNode) :
    InternalNode * InternalNode * Z :=
  let last := Z.to_nat (last_index (iheader n)) in
  let es := put_entry junk key new_child last (take (S last) (entries n) ++ [entry0]) in
  let middle := (branch_factor / 2)%nat in
  let middle_key := key_at es middle in
  let h := iheader n in
  (* the loop from [middle + 1] on fills the new node and clears the old one, the
     loop up to [middle] fills the old one *)
  let right := drop (S middle) es in
  let node' := mkInternal (mkHeader (lock h) (level h) (fence_first h) middle_key (Z.of_nat middle))
                 (take (S middle) es ++ replicate (branch_factor - S middle) entry0) in
  let new_node := mkInternal (mkHeader 0 (level h) middle_key (fence_second h)
                                (Z.of_nat (branch_factor - middle - 1)))
                    (right ++ drop (length right) (entries InternalNode_init)) in
  (node', new_node, middle_key).

(** ** Leaves *)

(** The loop of [get_fingerprint_collisions] from slot [i] on: the candidates, and
    whether a slot is locked. *)
Fixpoint collisions_loop (fp : Z) (i : nat) (blocks : list KVBlock) : list (nat * GlobalAddress) * bool :=
  match blocks with
  | [] => ([], false)
  | b :: blocks' =>
      let '(candidates, found_smo) := collisions_loop fp (S i) blocks' in
      (if negb (isFree b) && (getFingerprint b =? fp) then (i, getAddr b) :: candidates else candidates,
       isLocked b || found_smo)
  end.

Definition get_fingerprint_collisions (leaf : LeafNode) (fp : Z) : list (nat * GlobalAddress) * bool :=
  collisions_loop fp 0 (kv_blocks leaf).

(** [std::map<Key, KVBlock>]: [entries_map[k] = b] on the sorted contents. *)
Fixpoint map_put (k : Z) (b : KVBlock) (l : list (Z * KVBlock)) : list (Z * KVBlock) :=
  match l with
  | [] => [(k, b)]
  | (k', b') :: l' =>
      if k <? k' then (k, b) :: l
      else if k' <? k then (k', b') :: map_put k b l'
      else (k, b) :: l'
  end.

Definition entries_map (kbs : list (Z * KVBlock)) : list (Z * KVBlock) :=
  fold_left (λ m '(k, b), map_put k b m) kbs [].

(** [setDifferentRandomFpAddr(); setLocked(false); setFree(true)] *)
Definition clear_block (p : positive) (b : KVBlock) : M rand_state KVBlock :=
  b ← setDifferentRandomFpAddr p b; mret (setFree true (setLocked false b)).

(** The last loop of the distribution: slots [i >= middle] of the leaf, and those
    of the new leaf that hold no entry. *)
Fixpoint clear_loop (p : positive) (first_new : nat) (i n : nat) (old new : list KVBlock) :
    M rand_state (list KVBlock * list KVBlock) :=
  match n with
  | O => mret (old, new)
  | S n' =>
      b ← clear_block p (default 0 (old !! i));
      let old := <[i := b]> old in
      new ← (if (first_new <=? i)%nat
             then c ← clear_block p (default 0 (new !! i)); mret (<[i := c]> new)
             else mret new);
      clear_loop p first_new (S i) n' old new
  end.

(** The distribution of the sorted entries over the leaf and the new leaf. *)
Definition distribute (p : positive) (es : list (Z * KVBlock)) (leaf : LeafNode) :
    M rand_state (LeafNode * LeafNode * Z) :=
  let middle := (length es / 2)%nat in
  let middle_key := fst (default (0, 0) (es !! middle)) in
  let unlocked i := setLocked false (snd (default (0, 0) (es !! i))) in
  let odd := (length es mod 2 =? 1)%nat in
  let old := map unlocked (seq 0 middle) ++ drop middle (kv_blocks leaf) in
  let new0 := kv_blocks LeafNode_init in
  let new := map (λ i, unlocked (i + middle)%nat) (seq 0 middle) ++ drop middle new0 in
  let new := if odd then <[middle := unlocked (length es - 1)%nat]> new else new in
  r ← clear_loop p (if odd then S middle else middle) middle (branch_factor - middle) old new;
  let h := lheader leaf in
  mret (mkLeaf (set_fence (fence_first h) middle_key h) r.1,
        mkLeaf (set_fence middle_key (fence_second h) header0) r.2, middle_key).

(** ** Slot order of [insert] *)

(** [mix64] *)
Definition mix64 (x : Z) : Z :=
  let x := Z.lxor x (Z.shiftr x 33) in
  let x := u64 (x * 0xff51afd7ed558ccd) in
  let x := Z.lxor x (Z.shiftr x 33) in
  let x := u64 (x * 0xc4ceb9fe1a85ec53) in
  Z.lxor x (Z.shiftr x 33).

(** [(i ^ seed) & (branch_factor - 1)] *)
Definition slot_index (seed : Z) (i : nat) : nat :=
  Z.to_nat (Z.land (Z.lxor (Z.of_nat i) seed) (Z.of_nat branch_factor - 1)).

(** The slots that hold an entry. *)
Definition num_used (leaf : LeafNode) : nat :=
  length (filter (λ b, isFree b = false) (kv_blocks leaf)).
End node.

(** ** Encoding *)

Section layout.
Context {cfg : FaunusConfig}.

Definition key_ok (k : Z) : Prop := 0 ≤ k < 256 ^ Z.of_nat KEY_SIZE.

Definition header_ok (h : Header) : Prop :=
  in_width 64 (lock h) ∧ in_width 64 (level h) ∧ key_ok (fence_first h) ∧
  key_ok (fence_second h) ∧ in_width 64 (last_index h).
Definition leaf_ok (n : LeafNode) : Prop :=
  header_ok (lheader n) ∧ length (kv_blocks n) = branch_factor ∧ Forall (in_width 64) (kv_blocks n).
Definition entry_ok (e : InternalEntry) : Prop := key_ok (ekey e) ∧ ga_ok (child e).
Definition node_ok (n : InternalNode) : Prop :=
  header_ok (iheader n) ∧ length (entries n) = branch_factor ∧ Forall entry_ok (entries n).
Definition item_ok (kv : KVItem) : Prop :=
  key_ok (item_key kv) ∧ 0 ≤ item_value kv < 256 ^ Z.of_nat VALUE_SIZE.

Lemma align8_ge n : (n ≤ align8 n)%nat.
Proof. unfold align8. pose proof (Nat.div_mod (n + 7) 8). pose proof (Nat.mod_upper_bound (n + 7) 8). lia. Qed.

Lemma length_pad_to n l : (length l ≤ n)%nat → length (pad_to n l) = n.
Proof. intros. unfold pad_to. rewrite length_app, length_replicate. lia. Qed.

Lemma le64_roundtrip v : in_width 64 v → le_val (le_bytes 8 v) = v.
Proof. intros H. rewrite le_val_le_bytes. apply Z.mod_small. apply H. Qed.

Lemma key_roundtrip k : key_ok k → be_val (be_bytes KEY_SIZE k) = k.
Proof. intros H. rewrite be_val_be_bytes. by apply Z.mod_small. Qed.

Lemma ga_roundtrip64 a : ga_ok a → ga_of_u64 (le_val (le_bytes 8 a)) = a.
Proof.
  intros H. rewrite le64_roundtrip; [by apply wrap_small|].
  unfold ga_ok, in_width in *. lia.
Qed.

Lemma length_enc_Header h : length (enc_Header h) = sizeof_Header.
Proof.
  unfold enc_Header, sizeof_Header, offsetof_last_index. rewrite length_app, length_pad_to, length_le_bytes; [done|].
  rewrite !length_app, !length_le_bytes, !length_be_bytes.
  pose proof (align8_ge (16 + 2 * KEY_SIZE)). lia.
Qed.

Lemma length_enc_Entry e : length (enc_Entry e) = sizeof_Entry.
Proof.
  unfold enc_Entry, sizeof_Entry. by rewrite length_app, length_be_bytes, length_le_bytes.
Qed.

Lemma dec_enc_Header h rest : header_ok h → dec_Header (enc_Header h ++ rest) = h.
Proof.
  intros (H1 & H2 & H3 & H4 & H5). unfold dec_Header, enc_Header, pad_to.
  pose proof (align8_ge (16 + 2 * KEY_SIZE)) as Hal. unfold offsetof_last_index.
  destruct h as [lk lv f1 f2 li]. cbn [lock level fence_first fence_second last_index] in *.
  set (A := le_bytes 8 lk). set (B := le_bytes 8 lv).
  set (C := be_bytes KEY_SIZE f1). set (D := be_bytes KEY_SIZE f2).
  set (P := replicate _ 0). set (E := le_bytes 8 li).
  assert (length A = 8 ∧ length B = 8 ∧ length E = 8)%nat as (HA & HB & HE)
    by (split_and!; apply length_le_bytes).
  assert (length C = KEY_SIZE ∧ length D = KEY_SIZE) as [HC HD] by (split; apply length_be_bytes).
  assert (length P = align8 (16 + 2 * KEY_SIZE) - (16 + 2 * KEY_SIZE))%nat as HP.
  { unfold P. rewrite length_replicate, !length_app. lia. }
  f_equal.
  - read_field (@nil Z) A. by apply le64_roundtrip.
  - read_field A B. by apply le64_roundtrip.
  - read_field (A ++ B) C. by apply key_roundtrip.
  - read_field (A ++ B ++ C) D. by apply key_roundtrip.
  - read_field (A ++ B ++ C ++ D ++ P) E. by apply le64_roundtrip.
Qed.

Lemma dec_enc_Entry e : entry_ok e → dec_Entry (enc_Entry e) = e.
Proof.
  intros [H1 H2]. unfold dec_Entry, enc_Entry. destruct e as [k c]. cbn [ekey child] in *. f_equal.
  - rewrite slice_app_l, slice_full by (rewrite ?length_be_bytes; lia). by apply key_roundtrip.
  - rewrite slice_app_r, length_be_bytes, Nat.sub_diag, slice_full
      by (rewrite ?length_be_bytes, ?length_le_bytes; lia). by apply ga_roundtrip64.
Qed.

(** An array of equally sized elements after a header. *)
Lemma dec_array {A} (enc : A → list Z) (dec : list Z → A) (hdr rest : list Z) sz (l : list A) n :
  (∀ x, x ∈ l → length (enc x) = sz ∧ dec (enc x) = x) → length l = n →
  map (λ i, dec (slice (length hdr + sz * i) sz (hdr ++ concat (map enc l) ++ rest))) (seq 0 n) = l.
Proof.
  intros Hl <-.
  assert (length (concat (map enc l)) = sz * length l)%nat as Hlen.
  { rewrite (length_concat_const _ sz), length_map; [done|].
    apply list.Forall_forall. intros y (z & -> & Hz)%list_elem_of_fmap. by apply Hl. }
  apply list_eq. intros i. rewrite list_lookup_fmap.
  destruct (decide (i < length l)%nat) as [Hi|Hi].
  - rewrite lookup_seq_lt by done. simpl. destruct (lookup_lt_is_Some_2 l i Hi) as [x Hx].
    rewrite Hx. f_equal. rewrite slice_app_r by lia.
    replace (length hdr + sz * i - length hdr)%nat with (sz * i)%nat by lia.
    rewrite slice_app_l by (rewrite Hlen; nia).
    rewrite (slice_concat _ _ i (enc x)).
    + apply Hl. by eapply list_elem_of_lookup_2.
    + apply list.Forall_forall. intros y (z & -> & Hz)%list_elem_of_fmap. by apply Hl.
    + by rewrite list_lookup_fmap, Hx.
  - rewrite lookup_seq_ge, lookup_ge_None_2 by lia. done.
Qed.

Lemma dec_enc_LeafNode n : leaf_ok n → dec_LeafNode (enc_LeafNode n) = n.
Proof.
  intros (Hh & Hlen & Hb). unfold dec_LeafNode, enc_LeafNode. rewrite dec_enc_Header by done.
  destruct n as [h bs]. cbn [lheader kv_blocks] in *. f_equal.
  rewrite <-(length_enc_Header h), <-(app_nil_r (concat _)). apply (dec_array (le_bytes 8) le_val); [|done].
  intros x Hx. rewrite length_le_bytes. split; [done|]. apply le64_roundtrip.
  rewrite list.Forall_forall in Hb. by apply Hb.
Qed.

Lemma dec_enc_InternalNode n : node_ok n → dec_InternalNode (enc_InternalNode n) = n.
Proof.
  intros (Hh & Hlen & Hb). unfold dec_InternalNode, enc_InternalNode, pad_to.
  rewrite <-app_assoc, dec_enc_Header by done.
  destruct n as [h es]. cbn [iheader entries] in *. f_equal.
  rewrite <-(length_enc_Header h). apply (dec_array enc_Entry dec_Entry); [|done].
  intros x Hx. rewrite length_enc_Entry. split; [done|]. apply dec_enc_Entry.
  rewrite list.Forall_forall in Hb. by apply Hb.
Qed.

Lemma dec_enc_KVItem kv : item_ok kv → dec_KVItem (enc_KVItem kv) = kv.
Proof.
  intros [H1 H2]. unfold dec_KVItem, enc_KVItem. destruct kv as [k v]. cbn [item_key item_value] in *.
  f_equal.
  - rewrite slice_app_l, slice_full by (rewrite ?length_be_bytes; lia). by apply key_roundtrip.
  - rewrite slice_app_r, length_be_bytes, Nat.sub_diag, slice_full by (rewrite ?length_be_bytes; lia).
    rewrite be_val_be_bytes. by apply Z.mod_small.
Qed.

Lemma length_enc_LeafNode n : length (kv_blocks n) = branch_factor → length (enc_LeafNode n) = sizeof_LeafNode.
Proof.
  intros H. unfold enc_LeafNode, sizeof_LeafNode. rewrite length_app, length_enc_Header.
  rewrite (length_concat_const _ 8), length_map, H; [done|].
  apply list.Forall_forall. intros y (z & -> & Hz)%list_elem_of_fmap. apply length_le_bytes.
Qed.

Lemma length_enc_InternalNode n :
  length (entries n) = branch_factor → length (enc_InternalNode n) = sizeof_InternalNode.
Proof.
  intros H. unfold enc_InternalNode. apply length_pad_to. rewrite length_app, length_enc_Header.
  rewrite (length_concat_const _ sizeof_Entry), length_map, H; [apply align8_ge|].
  apply list.Forall_forall. intros y (z & -> & Hz)%list_elem_of_fmap. apply length_enc_Entry.
Qed.

Lemma key_ok_0 : key_ok 0.
Proof. unfold key_ok. lia. Qed.

Lemma header0_ok : header_ok header0.
Proof. unfold header_ok, in_width. simpl. split_and!; try lia; apply key_ok_0. Qed.

Lemma LeafNode_init_ok : leaf_ok LeafNode_init.
Proof.
  split; [apply header0_ok|]. simpl. split; [apply length_replicate|].
  apply Forall_replicate. unfold KVBlock_make. auto with word.
Qed.

End layout.

(** A small configuration: 8-byte keys and values, four entries per node. *)
Definition demo_cfg : FaunusConfig := {|
  KEY_SIZE := 8; VALUE_SIZE := 8; branch_factor := 4; split_threshold := 3;
  FAUNUS_MAINTENANCE_ENABLED := false |}.

(** ** Routing *)

Section routing.
Context {cfg : FaunusConfig}.

(** The separators and the children of an internal node; the key of the last
    entry is not a separator. *)
Definition last_nat (n : InternalNode) : nat := Z.to_nat (last_index (iheader n)).
Definition seps (n : InternalNode) : list Z := take (last_nat n) (map ekey (entries n)).
Definition kids (n : InternalNode) : list GlobalAddress := take (S (last_nat n)) (map child (entries n)).

(** The position of [key]: the first separator above it. *)
Fixpoint rank (ks : list Z) (key : Z) : nat :=
  match ks with [] => O | k :: ks' => if key <? k then O else S (rank ks' key) end.

Definition route (ks : list Z) (cs : list GlobalAddress) (key : Z) : option GlobalAddress :=
  cs !! rank ks key.

Definition sorted (ks : list Z) : Prop := pairwise Z.lt ks.

Lemma rank_le ks key : (rank ks key ≤ length ks)%nat.
Proof. induction ks as [|k ks IH]; simpl; [lia|]. bool_cases; lia. Qed.

Lemma child_loop_rank key es : ∀ n i,
  (i + n ≤ length es)%nat →
  child_loop key es i n =
    let r := rank (slice i n (map ekey es)) key in
    if (r <? n)%nat then Some (child <$> es !! (i + r)%nat) else Some None.
Proof.
  induction n as [|n IH]; intros i Hlen; [done|].
  cbn [child_loop]. destruct (lookup_lt_is_Some_2 es i) as [e He]; [lia|]. rewrite He.
  assert (slice i (S n) (map ekey es) = ekey e :: slice (S i) n (map ekey es)) as ->.
  { unfold slice. erewrite (drop_S _ _ i); [done|]. by rewrite list_lookup_fmap, He. }
  cbn [rank]. destruct (Z.ltb_spec key (ekey e)) as [Hlt|Hge].
  - rewrite Nat.add_0_r, He. by rewrite (proj2 (Nat.ltb_lt _ _)) by lia.
  - rewrite IH by lia. cbv zeta. rewrite Nat.add_succ_r.
    destruct (Nat.ltb_spec (rank (slice (S i) n (map ekey es)) key) n).
    + by rewrite (proj2 (Nat.ltb_lt _ _)) by lia.
    + by rewrite (proj2 (Nat.ltb_ge _ _)) by lia.
Qed.

Lemma rank_app ks k key :
  rank (ks ++ [k]) key = if decide (rank ks key = length ks) then (if key <? k then length ks else S (length ks)) else rank ks key.
Proof.
  induction ks as [|k' ks IH]; simpl; [by bool_cases|].
  destruct (Z.ltb_spec key k'); [by rewrite decide_False by lia|].
  rewrite IH. repeat case_decide; try lia. by bool_cases.
Qed.

(** The search loop of [find_node] is routing: the key of the last entry, which
    the loop also compares, makes no difference. *)
Lemma find_child_route key n :
  (last_nat n < length (entries n))%nat → find_child key n = route (seps n) (kids n) key.
Proof.
  intros Hlen. unfold find_child. fold (last_nat n). set (L := last_nat n) in *.
  rewrite child_loop_rank by lia. cbv zeta. unfold slice. rewrite drop_0.
  destruct (lookup_lt_is_Some_2 (entries n) L Hlen) as [e He].
  assert (take (S L) (map ekey (entries n)) = seps n ++ [ekey e]) as ->.
  { unfold seps. fold L. apply take_S_r. by rewrite list_lookup_fmap, He. }
  assert (length (seps n) = L) as Hseps.
  { unfold seps. rewrite length_take, length_map. fold L. lia. }
  rewrite rank_app, Hseps. unfold route, kids. fold L.
  pose proof (rank_le (seps n) key) as Hle. rewrite Hseps in Hle.
  rewrite lookup_take_lt, list_lookup_fmap by lia. simpl.
  case_decide as Heq.
  - rewrite Heq, He. simpl. destruct (Z.ltb_spec key (ekey e)); simpl.
    + rewrite (proj2 (Nat.ltb_lt _ _)) by lia. by rewrite He.
    + by rewrite (proj2 (Nat.ltb_ge _ _)) by lia.
  - rewrite (proj2 (Nat.ltb_lt _ _)) by lia.
    destruct (lookup_lt_is_Some_2 (entries n) (rank (seps n) key)) as [e' He']; [lia|].
    by rewrite He'.
Qed.

(** ** The shift of an insertion *)

Lemma key_at_set_key es i k j :
  (i < length es)%nat → key_at (set_key i k es) j = if decide (i = j) then k else key_at es j.
Proof.
  intros Hi. unfold key_at, set_key. case_decide as Hij; [subst j|].
  - rewrite list_lookup_alter_eq. by destruct (lookup_lt_is_Some_2 es i Hi) as [e ->].
  - by rewrite list_lookup_alter_ne.
Qed.
Lemma child_at_set_key es i k j : child_at (set_key i k es) j = child_at es j.
Proof.
  unfold child_at, set_key. destruct (decide (i = j)) as [->|Hne].
  - rewrite list_lookup_alter_eq. by destruct (es !! j).
  - by rewrite list_lookup_alter_ne.
Qed.
Lemma key_at_set_child es i c j : key_at (set_child i c es) j = key_at es j.
Proof.
  unfold key_at, set_child. destruct (decide (i = j)) as [->|Hne].
  - rewrite list_lookup_alter_eq. by destruct (es !! j).
  - by rewrite list_lookup_alter_ne.
Qed.
Lemma child_at_set_child es i c j :
  (i < length es)%nat → child_at (set_child i c es) j = if decide (i = j) then c else child_at es j.
Proof.
  intros Hi. unfold child_at, set_child. case_decide as Hij; [subst j|].
  - rewrite list_lookup_alter_eq. by destruct (lookup_lt_is_Some_2 es i Hi) as [e ->].
  - by rewrite list_lookup_alter_ne.
Qed.
Lemma length_set_key i k es : length (set_key i k es) = length es.
Proof. apply length_alter. Qed.
Lemma length_set_child i c es : length (set_child i c es) = length es.
Proof. apply length_alter. Qed.

Lemma length_shift_loop junk index i : ∀ es, length (shift_loop junk index i es) = length es.
Proof.
  induction i as [|i IH]; intros es; [done|]. cbn [shift_loop]. destruct (index <? S i)%nat; [|done].
  by rewrite IH, length_set_child, length_set_key.
Qed.

Lemma shift_loop_spec junk index i : ∀ es,
  (i < length es)%nat →
  (∀ j, key_at (shift_loop junk index i es) j =
          if decide (index ≤ j < i)%nat then match j with O => junk | S j' => key_at es j' end
          else key_at es j) ∧
  (∀ j, child_at (shift_loop junk index i es) j =
          if decide (index < j ≤ i)%nat then child_at es (j - 1) else child_at es j).
Proof.
  induction i as [|i IH]; intros es Hi.
  { split; intros j; simpl; (rewrite decide_False by lia); done. }
  cbn [shift_loop]. destruct (Nat.ltb_spec index (S i)) as [Hlt|Hge].
  2:{ split; intros j; (rewrite decide_False by lia); done. }
  set (es1 := set_key i _ es). set (es2 := set_child (S i) _ es1).
  assert (length es2 = length es) as Hl2.
  { unfold es2, es1. by rewrite length_set_child, length_set_key. }
  destruct (IH es2) as [IHk IHc]; [lia|].
  assert (∀ j, key_at es2 j = if decide (i = j) then match i with O => junk | S j' => key_at es j' end else key_at es j) as Hk.
  { intros j. unfold es2. rewrite key_at_set_child. unfold es1. by rewrite key_at_set_key by lia. }
  assert (∀ j, child_at es2 j = if decide (S i = j) then child_at es i else child_at es j) as Hc.
  { intros j. unfold es2. rewrite child_at_set_child by (unfold es1; rewrite length_set_key; lia).
    unfold es1. by rewrite !child_at_set_key. }
  split; intros j.
  - rewrite IHk. destruct (decide (index ≤ j < i)%nat).
    + rewrite decide_True by lia. destruct j as [|j]; [done|]. rewrite Hk, decide_False by lia. done.
    + rewrite Hk. case_decide as Hij; [subst j; by rewrite decide_True by lia|].
      by rewrite decide_False by lia.
  - rewrite IHc. destruct (decide (index < j ≤ i)%nat).
    + rewrite decide_True by lia. rewrite Hc, decide_False by lia. done.
    + rewrite Hc. case_decide as Hij.
      * subst j. rewrite decide_True by lia. f_equal. lia.
      * by rewrite decide_False by lia.
Qed.

(** [x] put in front of the element at position [i]. *)
Definition insert_at {A} (i : nat) (x : A) (l : list A) : list A := take i l ++ x :: drop i l.

Lemma lookup_insert_at {A} i (x : A) l j :
  (i ≤ length l)%nat →
  insert_at i x l !! j =
    if decide (j < i)%nat then l !! j else if decide (j = i) then Some x else l !! (j - 1)%nat.
Proof.
  intros Hi. unfold insert_at. repeat case_decide.
  - rewrite lookup_app_l by (rewrite length_take; lia). by apply lookup_take_lt.
  - subst j. rewrite lookup_app_r by (rewrite length_take; lia).
    rewrite length_take, Nat.min_l, Nat.sub_diag by lia. done.
  - rewrite lookup_app_r by (rewrite length_take; lia). rewrite length_take, Nat.min_l by lia.
    destruct (j - i)%nat as [|d] eqn:E; [lia|]. simpl. rewrite lookup_drop. f_equal. lia.
Qed.

Lemma length_insert_at {A} i (x : A) l : length (insert_at i x l) = S (length l).
Proof. unfold insert_at. rewrite length_app. simpl. rewrite length_take, length_drop. lia. Qed.

Lemma insert_at_elem {A} i (x : A) l : insert_at i x l ≡ₚ x :: l.
Proof. unfold insert_at. by rewrite <-Permutation_middle, take_drop. Qed.

(** The rank in a list with one more separator. *)
Lemma rank_insert_at ks key x :
  rank (insert_at (rank ks key) key ks) x = if key <=? x then S (rank ks x) else rank ks x.
Proof.
  induction ks as [|k ks IH]; unfold insert_at in *; simpl; [bool_cases; (done || lia)|].
  destruct (Z.ltb_spec key k) as [Hlt|Hge]; simpl.
  - bool_cases; try lia; done.
  - rewrite IH. bool_cases; try lia; done.
Qed.

Lemma sorted_insert_at ks key :
  sorted ks → key ∉ ks → sorted (insert_at (rank ks key) key ks).
Proof.
  unfold sorted. induction ks as [|k ks IH]; [done|]. intros [Hk Hs] Hni.
  rewrite elem_of_cons in Hni. simpl. destruct (Z.ltb_spec key k) as [Hlt|Hge].
  - unfold insert_at. simpl. split; [|done]. constructor; [done|].
    eapply Forall_impl; [|exact Hk]. simpl. lia.
  - unfold insert_at. simpl. split; [|apply IH; tauto].
    change (Forall (Z.lt k) (insert_at (rank ks key) key ks)). rewrite insert_at_elem.
    constructor; [|done]. destruct (decide (key = k)); [tauto|lia].
Qed.

Lemma rank_all ks key : Forall (λ k, k ≤ key) ks → rank ks key = length ks.
Proof. induction 1; simpl; [done|]. bool_cases; lia. Qed.

Lemma lookup_map_ekey es j : (j < length es)%nat → map ekey es !! j = Some (key_at es j).
Proof. intros Hj. rewrite list_lookup_fmap. unfold key_at. by destruct (lookup_lt_is_Some_2 es j Hj) as [e ->]. Qed.
Lemma lookup_map_child es j : (j < length es)%nat → map child es !! j = Some (child_at es j).
Proof. intros Hj. rewrite list_lookup_fmap. unfold child_at. by destruct (lookup_lt_is_Some_2 es j Hj) as [e ->]. Qed.

(** The position search of the insertion is the rank. *)
Lemma insert_index_rank key es n :
  (n ≤ length es)%nat → sorted (take n (map ekey es)) → key ∉ take n (map ekey es) →
  insert_index key es n = rank (take n (map ekey es)) key.
Proof.
  induction n as [|n IH]; intros Hn Hs Hni; [done|].
  pose proof (lookup_map_ekey es n ltac:(lia)) as Hl.
  rewrite (take_S_r _ _ _ Hl) in Hs, Hni |- *.
  unfold sorted in Hs. rewrite pairwise_app in Hs. destruct Hs as (Hs1 & _ & Hs2).
  rewrite not_elem_of_app, list_elem_of_singleton in Hni. destruct Hni as [Hni1 Hni2].
  cbn [insert_index]. fold (key_at es n).
  assert (length (take n (map ekey es)) = n) as Hlen by (rewrite length_take, length_map; lia).
  rewrite rank_app, Hlen. destruct (Z.ltb_spec (key_at es n) key) as [Hlt|Hge].
  - assert (rank (take n (map ekey es)) key = n) as Hr.
    { rewrite rank_all; [done|]. eapply Forall_impl; [|exact Hs2]. simpl.
      intros k Hk. apply Forall_cons_iff in Hk as [Hk _]. lia. }
    rewrite decide_True by done. by rewrite (proj2 (Z.ltb_ge _ _)) by lia.
  - rewrite IH by (done || lia). case_decide as Hr; [|done].
    by rewrite (proj2 (Z.ltb_lt _ _)) by lia.
Qed.

(** The entries after an insertion, whatever was read in front of the array. *)
Lemma put_entry_spec junk key c last es :
  let ks := take last (map ekey es) in let cs := take (S last) (map child es) in
  (S last < length es)%nat → sorted ks → key ∉ ks →
  let es' := put_entry junk key c last es in
  take (S last) (map ekey es') = insert_at (rank ks key) key ks ∧
  take (S (S last)) (map child es') = insert_at (S (rank ks key)) c cs ∧
  length es' = length es.
Proof.
  intros ks cs Hlen Hs Hni es'.
  assert (length ks = last) as Hks by (unfold ks; rewrite length_take, length_map; lia).
  assert (length cs = S last) as Hcs by (unfold cs; rewrite length_take, length_map; lia).
  pose proof (rank_le ks key) as Hr. rewrite Hks in Hr.
  assert (insert_index key es last = rank ks key) as Hidx by (apply insert_index_rank; (done || lia)).
  set (i := rank ks key) in *.
  assert (es' = set_key i key (set_child (S i) c (shift_loop junk i (S last) es))) as He
    by (unfold es', put_entry; by rewrite Hidx).
  clearbody es'. subst es'.
  destruct (shift_loop_spec junk i (S last) es Hlen) as [Hsk Hsc].
  pose proof (length_shift_loop junk i (S last) es) as Hl1. set (es1 := shift_loop _ _ _ _) in *.
  set (es' := set_key i key _).
  assert (length es' = length es) as Hl by (unfold es'; by rewrite length_set_key, length_set_child).
  split_and!; [| |done]; apply list_eq; intros j.
  - rewrite lookup_insert_at by lia. destruct (decide (j < S last)%nat) as [Hj|Hj].
    + rewrite lookup_take_lt, lookup_map_ekey by lia. unfold es'.
      rewrite key_at_set_key, key_at_set_child, Hsk by (rewrite length_set_child; lia).
      unfold ks. repeat case_decide; try lia;
        rewrite ?lookup_take_lt, ?lookup_map_ekey by lia; try done.
      destruct j as [|j]; [lia|]. by replace (S j - 1)%nat with j by lia.
    + rewrite lookup_take_ge by lia. rewrite !decide_False by lia.
      by rewrite lookup_ge_None_2 by lia.
  - rewrite lookup_insert_at by lia. destruct (decide (j < S (S last))%nat) as [Hj|Hj].
    + rewrite lookup_take_lt, lookup_map_child by lia. unfold es'.
      rewrite child_at_set_key, child_at_set_child, Hsc by lia.
      unfold cs. repeat case_decide; try lia;
        rewrite ?lookup_take_lt, ?lookup_map_child by lia; done.
    + rewrite lookup_take_ge by lia. rewrite !decide_False by lia.
      by rewrite lookup_ge_None_2 by lia.
Qed.

Lemma rank_cut ks1 ks2 key :
  Forall (λ k, k ≤ key) ks1 → match ks2 with [] => True | k :: _ => key < k end → rank (ks1 ++ ks2) key = length ks1.
Proof.
  intros H Hk. induction H as [|k ks1 Hle _ IH]; cbn [app rank length].
  - destruct ks2 as [|k ks2]; [done|]. cbn. by rewrite (proj2 (Z.ltb_lt _ _)).
  - rewrite (proj2 (Z.ltb_ge _ _)) by lia. by rewrite IH.
Qed.

(** Routing through separators with one more entry. *)
Lemma route_insert_at ks cs key c x :
  length cs = S (length ks) →
  route (insert_at (rank ks key) key ks) (insert_at (S (rank ks key)) c cs) x =
    if decide (rank ks x = rank ks key ∧ key ≤ x) then Some c else route ks cs x.
Proof.
  intros Hlen. unfold route. pose proof (rank_le ks key). pose proof (rank_le ks x).
  rewrite rank_insert_at, lookup_insert_at by lia.
  destruct (Z.leb_spec key x) as [Hle|Hlt].
  - assert (rank ks key ≤ rank ks x)%nat.
    { clear -Hle. induction ks as [|k ks IH]; simpl; [lia|]. bool_cases; lia. }
    destruct (decide (rank ks x = rank ks key)) as [Heq|Hne].
    + rewrite !decide_False, !decide_True by lia. done.
    + rewrite !(decide_False (P := (_ ∧ _))), !decide_False by lia.
      f_equal. lia.
  - assert (rank ks x ≤ rank ks key)%nat.
    { clear -Hlt. induction ks as [|k ks IH]; simpl; [lia|]. bool_cases; lia. }
    rewrite (decide_True (P := (_ < _)%nat)) by lia. by rewrite decide_False by lia.
Qed.
End routing.

Section node_theorems.
Context {cfg : FaunusConfig}.

(** [n] has room for its entries and its separators are in order. *)
Definition node_sorted (n : InternalNode) : Prop :=
  (last_nat n < length (entries n))%nat ∧ 0 ≤ last_index (iheader n) ∧ sorted (seps n).

Lemma length_seps n : (last_nat n < length (entries n))%nat → length (seps n) = last_nat n.
Proof. intros. unfold seps. rewrite length_take, length_map. lia. Qed.
Lemma length_kids n : (last_nat n < length (entries n))%nat → length (kids n) = S (last_nat n).
Proof. intros. unfold kids. rewrite length_take, length_map. lia. Qed.

Lemma insert_entry_spec junk key c n :
  node_sorted n → (S (last_nat n) < length (entries n))%nat → key ∉ seps n →
  let n' := insert_entry junk key c n in
  seps n' = insert_at (rank (seps n) key) key (seps n) ∧
  kids n' = insert_at (S (rank (seps n) key)) c (kids n) ∧
  length (entries n') = length (entries n) ∧ last_nat n' = S (last_nat n).
Proof.
  intros (Hl & H0 & Hs) Hroom Hni n'.
  assert (last_nat n' = S (last_nat n)) as Hlast.
  { unfold last_nat, n'. simpl. lia. }
  destruct (put_entry_spec junk key c (last_nat n) (entries n) Hroom Hs Hni) as (H1 & H2 & H3).
  unfold seps at 1, kids at 1. rewrite Hlast. by split_and!.
Qed.

(** C18: inserting an entry into an internal node with room keeps its separators
    in order and changes the routing of exactly the keys from the new separator
    up to the next one, which now go to the new child; every other key goes where
    it went.  What the shift loop reads in front of the array when the entry
    becomes the first one ([junk]) has no influence. *)
Theorem insert_entry_routing junk key c n :
  node_sorted n → (S (last_nat n) < length (entries n))%nat → key ∉ seps n →
  let n' := insert_entry junk key c n in
  node_sorted n' ∧ length (entries n') = length (entries n) ∧
  last_index (iheader n') = last_index (iheader n) + 1 ∧
  ∀ x, find_child x n' =
         if decide (rank (seps n) x = rank (seps n) key ∧ key ≤ x) then Some c else find_child x n.
Proof.
  intros Hn Hroom Hni n'.
  destruct (insert_entry_spec junk key c n Hn Hroom Hni) as (Hs' & Hk' & Hlen & Hlast).
  fold n' in Hs', Hk', Hlen, Hlast. destruct Hn as (Hl & H0 & Hs).
  split; [|split; [done|split; [done|]]].
  - split_and!; [lia|simpl; lia|]. rewrite Hs'. by apply sorted_insert_at.
  - intros x. rewrite !find_child_route by lia. rewrite Hs', Hk'. apply route_insert_at.
    by rewrite length_kids, length_seps.
Qed.

(** ** Splitting a full internal node *)

Lemma rank_take ks m k x :
  ks !! m = Some k → x < k → rank (take m ks) x = rank ks x.
Proof.
  revert m. induction ks as [|k' ks IH]; intros m Hm Hlt; [done|].
  destruct m as [|m]; simpl in *; simplify_eq; [by bool_cases; try lia|].
  destruct (Z.ltb_spec x k'); [done|]. by rewrite IH.
Qed.

Lemma rank_drop ks m k x :
  sorted ks → ks !! m = Some k → k ≤ x → (rank (drop (S m) ks) x + S m)%nat = rank ks x.
Proof.
  revert m. induction ks as [|k' ks IH]; intros m Hs Hm Hle; [done|].
  destruct Hs as [Hk Hs]. destruct m as [|m]; simpl in *; simplify_eq.
  - rewrite (proj2 (Z.ltb_ge _ _)), drop_0 by lia. lia.
  - rewrite Forall_lookup in Hk. pose proof (Hk m k Hm).
    rewrite (proj2 (Z.ltb_ge _ _)) by lia. rewrite <-(IH m Hs Hm Hle). lia.
Qed.

Lemma route_split ks cs m k x :
  sorted ks → length cs = S (length ks) → ks !! m = Some k →
  route ks cs x = if x <? k then route (take m ks) (take (S m) cs) x
                  else route (drop (S m) ks) (drop (S m) cs) x.
Proof.
  intros Hs Hlen Hm. unfold route. destruct (Z.ltb_spec x k) as [Hlt|Hge].
  - pose proof (rank_le (take m ks) x) as Hle. rewrite length_take in Hle.
    rewrite (rank_take ks m k x) in * by done. by rewrite lookup_take_lt by lia.
  - rewrite lookup_drop. f_equal. rewrite <-(rank_drop ks m k x) by done. lia.
Qed.

(** The two halves of a split, as separators and children. *)
Lemma split_node_spec junk key c n :
  node_sorted n → length (entries n) = branch_factor → S (last_nat n) = branch_factor →
  (3 ≤ branch_factor)%nat → key ∉ seps n →
  let ks := insert_at (rank (seps n) key) key (seps n) in
  let cs := insert_at (S (rank (seps n) key)) c (kids n) in
  let m := (branch_factor / 2)%nat in
  let '(n', new, mk) := split_node junk key c n in
  ks !! m = Some mk ∧ seps n' = take m ks ∧ kids n' = take (S m) cs ∧
  seps new = drop (S m) ks ∧ kids new = drop (S m) cs ∧
  length (entries n') = branch_factor ∧ length (entries new) = branch_factor ∧
  last_nat n' = m ∧ last_nat new = (branch_factor - m - 1)%nat ∧ length ks = branch_factor.
Proof.
  intros (Hl & H0 & Hs) Hlen Hfull H3 Hni ks cs m. unfold split_node. fold (last_nat n).
  assert (m < branch_factor - 1)%nat as Hm.
  { unfold m. pose proof (Nat.div_mod branch_factor 2). pose proof (Nat.mod_upper_bound branch_factor 2). lia. }
  assert (length ks = branch_factor) as Hks by (unfold ks; rewrite length_insert_at, length_seps; lia).
  assert (length cs = S branch_factor) as Hcs by (unfold cs; rewrite length_insert_at, length_kids; lia).
  set (v := take (S (last_nat n)) (entries n) ++ [entry0]).
  assert (length v = S branch_factor) as Hv by (unfold v; rewrite length_app, length_take; cbn [length]; lia).
  assert (take (last_nat n) (map ekey v) = seps n) as Hvs.
  { unfold v, seps. rewrite map_app, <-firstn_map. rewrite take_app_le by (rewrite length_take, length_map; lia).
    rewrite take_take. f_equal. lia. }
  assert (take (S (last_nat n)) (map child v) = kids n) as Hvk.
  { unfold v, kids. rewrite map_app, <-firstn_map. rewrite take_app_le by (rewrite length_take, length_map; lia).
    rewrite take_take. f_equal. lia. }
  destruct (put_entry_spec junk key c (last_nat n) v) as (Hp1 & Hp2 & Hp3);
    rewrite ?Hvs; [lia|done|done|].
  rewrite Hvs in Hp1, Hp2. rewrite Hvk in Hp2. fold ks in Hp1. fold cs in Hp2.
  set (es := put_entry junk key c (last_nat n) v) in *. rewrite Hfull in Hp1, Hp2.
  fold m. rewrite <-Hp1, <-Hp2. rewrite Hv in Hp3.
  assert (length (drop (S m) es) = branch_factor - m)%nat as Hr by (rewrite length_drop; lia).
  split_and!.
  - rewrite lookup_take_lt by lia. apply lookup_map_ekey. lia.
  - unfold seps, last_nat. cbn [iheader last_index entries]. rewrite Nat2Z.id.
    rewrite map_app, take_app_le by (rewrite length_map, length_take; lia).
    rewrite <-firstn_map, !take_take. f_equal. lia.
  - unfold kids, last_nat. cbn [iheader last_index entries]. rewrite Nat2Z.id.
    rewrite map_app, take_app_le by (rewrite length_map, length_take; lia).
    rewrite <-firstn_map, !take_take. f_equal. lia.
  - unfold seps, last_nat. cbn [iheader last_index entries]. rewrite Nat2Z.id.
    rewrite map_app, take_app_le by (rewrite length_map; lia).
    rewrite <-skipn_map, take_drop_commute. f_equal. f_equal. lia.
  - unfold kids, last_nat. cbn [iheader last_index entries]. rewrite Nat2Z.id.
    rewrite map_app, take_app_le by (rewrite length_map; lia).
    rewrite <-skipn_map, take_drop_commute. f_equal. f_equal. lia.
  - cbn [entries]. rewrite length_app, length_take, length_replicate. lia.
  - cbn [entries InternalNode_init]. rewrite length_app, Hr, length_drop, length_replicate. lia.
  - unfold last_nat. cbn [iheader last_index]. apply Nat2Z.id.
  - unfold last_nat. cbn [iheader last_index]. apply Nat2Z.id.
  - rewrite length_take, length_map. lia.
Qed.

(** C19: splitting a full internal node while inserting an entry: the middle
    key separates the two halves, both are in order, the fences meet at the
    middle key and cover the old range, and together they route every key as the
    node with the new entry would have: keys below the middle key through the old
    node, the others through the new one. *)
Theorem split_node_routing junk key c n :
  node_sorted n → length (entries n) = branch_factor → S (last_nat n) = branch_factor →
  (3 ≤ branch_factor)%nat → key ∉ seps n →
  let '(n', new, mk) := split_node junk key c n in
  node_sorted n' ∧ node_sorted new ∧
  (S (last_nat n') < branch_factor)%nat ∧ (S (last_nat new) < branch_factor)%nat ∧
  fence_first (iheader n') = fence_first (iheader n) ∧ fence_second (iheader n') = mk ∧
  fence_first (iheader new) = mk ∧ fence_second (iheader new) = fence_second (iheader n) ∧
  ∀ x, (if x <? mk then find_child x n' else find_child x new) =
         if decide (rank (seps n) x = rank (seps n) key ∧ key ≤ x) then Some c else find_child x n.
Proof.
  intros Hn Hlen Hfull H3 Hni.
  pose proof (split_node_spec junk key c n Hn Hlen Hfull H3 Hni) as Hspec.
  destruct (split_node junk key c n) as [[n' new] mk] eqn:E.
  destruct Hspec as (Hmk & Hs1 & Hk1 & Hs2 & Hk2 & Hl1 & Hl2 & Hi1 & Hi2 & Hks).
  set (ks := insert_at _ key _) in *. set (cs := insert_at _ c _) in *. set (m := (branch_factor / 2)%nat) in *.
  pose proof (lookup_lt_Some _ _ _ Hmk) as Hm.
  assert (1 ≤ m < branch_factor - 1)%nat as Hm'.
  { unfold m. pose proof (Nat.div_mod branch_factor 2). pose proof (Nat.mod_upper_bound branch_factor 2). lia. }
  destruct Hn as (Hl & H0 & Hs). pose proof (sorted_insert_at (seps n) key Hs Hni) as Hss. fold ks in Hss.
  unfold split_node in E. injection E as <- <- <-. cbn [iheader fence_first fence_second].
  assert (sorted (take m ks ++ drop m ks)) as Hss' by (by rewrite take_drop).
  unfold sorted in Hss'. rewrite pairwise_app in Hss'. destruct Hss' as (Hst & Hsd & _).
  rewrite (drop_S _ _ _ Hmk) in Hsd. destruct Hsd as [_ Hsd].
  split; [|split; [|do 6 (split; [done || lia|])]].
  - split_and!; [lia|cbn [iheader last_index]; lia|]. by rewrite Hs1.
  - split_and!; [lia|cbn [iheader last_index]; lia|]. by rewrite Hs2.
  - intros x. rewrite !find_child_route by lia. rewrite Hs1, Hk1, Hs2, Hk2.
    rewrite <-route_split by (done || unfold cs; rewrite length_insert_at, length_kids; lia).
    unfold ks, cs. apply route_insert_at. by rewrite length_kids, length_seps.
Qed.
End node_theorems.

(** An internal node with the separators 10 and 20, with and without room. *)
Definition demo_node : InternalNode :=
  mkInternal (mkHeader 0 1 0 1000 2) [mkEntry 10 100; mkEntry 20 200; mkEntry 0 300; mkEntry 0 0].
Definition demo_full : InternalNode :=
  mkInternal (mkHeader 1 1 0 1000 3) [mkEntry 10 100; mkEntry 20 200; mkEntry 30 300; mkEntry 0 400].

Lemma insert_entry_routing_witness :
  find_child 17 (insert_entry 77 15 150 demo_node) = Some 150 ∧
  (∀ x, find_child x (insert_entry 77 15 150 demo_node) =
    if decide (rank [10; 20] x = 1%nat ∧ 15 ≤ x) then Some 150 else find_child x demo_node).
Proof.
  split; [reflexivity|].
  refine (proj2 (proj2 (proj2 (insert_entry_routing 77 15 150 demo_node _ _ _)))).
  - split; [vm_compute; lia|split; [vm_compute; congruence|]]. vm_compute. repeat constructor.
  - vm_compute. lia.
  - refine (bool_decide_unpack _ _). vm_compute. exact I.
Defined.

Lemma split_node_routing_witness :
  ∃ n' new mk, split_node (cfg := demo_cfg) 77 15 150 demo_full = (n', new, mk) ∧
  ∀ x, (if x <? mk then find_child x n' else find_child x new) =
    if decide (rank [10; 20; 30] x = 1%nat ∧ 15 ≤ x) then Some 150 else find_child x demo_full.
Proof.
  pose proof (split_node_routing (cfg := demo_cfg) 77 15 150 demo_full) as H.
  destruct (split_node (cfg := demo_cfg) 77 15 150 demo_full) as [[n' new] mk].
  exists n', new, mk. split; [reflexivity|].
  refine (proj2 (proj2 (proj2 (proj2 (proj2 (proj2 (proj2 (proj2 (H _ _ _ _ _))))))))).
  - split; [vm_compute; lia|split; [vm_compute; congruence|]]. vm_compute. repeat constructor.
  - reflexivity.
  - reflexivity.
  - vm_compute. lia.
  - refine (bool_decide_unpack _ _). vm_compute. exact I.
Defined.

(** ** Leaves *)

Section leaf.
Context {cfg : FaunusConfig}.

(** The keys of the sorted contents of a [std::map]. *)
Definition mkeys (l : list (Z * KVBlock)) : list Z := map fst l.

Lemma map_put_keys k b l x : x ∈ mkeys (map_put k b l) ↔ x = k ∨ x ∈ mkeys l.
Proof.
  unfold mkeys. induction l as [|[k' b'] l IH]; simpl; [set_solver|].
  destruct (Z.ltb_spec k k'), (Z.ltb_spec k' k); simpl; rewrite ?elem_of_cons, ?IH; try tauto.
  assert (k' = k) as -> by lia. tauto.
Qed.

Lemma map_put_sorted k b l : sorted (mkeys l) → sorted (mkeys (map_put k b l)).
Proof.
  unfold sorted. induction l as [|[k' b'] l IH]; simpl; [done|]. intros [Hk Hs].
  destruct (Z.ltb_spec k k'), (Z.ltb_spec k' k); simpl; try lia.
  - split; [|done]. constructor; [done|]. eapply Forall_impl; [|exact Hk]. simpl. lia.
  - split; [|by apply IH]. apply list.Forall_forall. intros x [->|Hx]%map_put_keys; [done|].
    rewrite list.Forall_forall in Hk. by apply Hk.
  - assert (k' = k) as -> by lia. done.
Qed.

(** What [entries_map[k]] holds: the last assignment wins. *)
Fixpoint mfind (k : Z) (l : list (Z * KVBlock)) : option KVBlock :=
  match l with [] => None | (k', b) :: l' => if k =? k' then Some b else mfind k l' end.

Lemma mfind_put k b l k' :
  sorted (mkeys l) → mfind k' (map_put k b l) = if k' =? k then Some b else mfind k' l.
Proof.
  induction l as [|[k1 b1] l IH]; [done|]. intros [Hk Hs]. simpl.
  destruct (Z.ltb_spec k k1), (Z.ltb_spec k1 k); simpl; try lia.
  - done.
  - rewrite IH by done. bool_cases; subst; try lia; done.
  - assert (k1 = k) as -> by lia. bool_cases; done.
Qed.

Lemma entries_map_snoc kbs k b : entries_map (kbs ++ [(k, b)]) = map_put k b (entries_map kbs).
Proof. unfold entries_map. by rewrite fold_left_app. Qed.

Lemma entries_map_spec kbs :
  sorted (mkeys (entries_map kbs)) ∧
  (∀ x, x ∈ mkeys (entries_map kbs) ↔ x ∈ mkeys kbs) ∧
  (∀ k, mfind k (entries_map kbs) = mfind k (rev kbs)).
Proof.
  induction kbs as [|[k b] kbs (IH1 & IH2 & IH3)] using rev_ind; [done|].
  rewrite entries_map_snoc. split_and!.
  - by apply map_put_sorted.
  - intros x. rewrite map_put_keys, IH2. unfold mkeys. rewrite map_app, elem_of_app. cbn [map fst].
    rewrite list_elem_of_singleton. tauto.
  - intros k'. rewrite mfind_put, IH3, rev_app_distr by done. done.
Qed.

(** ** Clearing the unused slots *)

Definition cleared (b : KVBlock) : Prop := isFree b = true ∧ isLocked b = false ∧ in_width 64 b.

Lemma clear_block_done p b r pos :
  rand_fair p r → ∃ b' pos', clear_block p b (r, pos) = Done b' (r, pos') ∧ cleared b'.
Proof.
  intros Hf. destruct (setDifferentRandomFpAddr_done p b r pos Hf) as (b1 & pos1 & H1).
  eexists _, pos1. unfold clear_block. erewrite bind_done by exact H1. split; [done|].
  assert (in_width 64 b1).
  { unfold setDifferentRandomFpAddr in H1. apply bind_inv in H1 as (fp & r1 & _ & H1).
    apply bind_inv in H1 as (a & r2 & _ & H1). injection H1 as <- _. auto with word. }
  unfold cleared. autorewrite with kvblock. auto with word.
Qed.

(** After the clearing loop from [i] over [n] slots. *)
Lemma clear_loop_done p first_new r : rand_fair p r → ∀ n i old new pos,
  (i + n ≤ length old)%nat → (i + n ≤ length new)%nat →
  ∃ old' new' pos', clear_loop p first_new i n old new (r, pos) = Done (old', new') (r, pos') ∧
    length old' = length old ∧ length new' = length new ∧
    (∀ j, (j < i ∨ i + n ≤ j)%nat → old' !! j = old !! j) ∧
    (∀ j, (j < i ∨ i + n ≤ j ∨ j < first_new)%nat → new' !! j = new !! j) ∧
    (∀ j b, (i ≤ j < i + n)%nat → old' !! j = Some b → cleared b) ∧
    (∀ j b, (i ≤ j < i + n)%nat → (first_new ≤ j)%nat → new' !! j = Some b → cleared b).
Proof.
  intros Hf. induction n as [|n IH]; intros i old new pos Ho Hn.
  { exists old, new, pos. split_and!; (done || intros; lia). }
  cbn [clear_loop]. destruct (clear_block_done p (default 0 (old !! i)) r pos Hf) as (b & pos1 & H1 & Hb).
  erewrite bind_done by exact H1. cbv zeta.
  assert (∃ new1 pos2, (if (first_new <=? i)%nat
      then c ← clear_block p (default 0 (new !! i)); mret (<[i := c]> new) else mret new) (r, pos1) =
      Done new1 (r, pos2) ∧ length new1 = length new ∧
      (∀ j, (j ≠ i ∨ i < first_new)%nat → new1 !! j = new !! j) ∧
      (first_new ≤ i → ∀ c, new1 !! i = Some c → cleared c)%nat)
    as (new1 & pos2 & H2 & Hl2 & Hne2 & Hc2).
  { destruct (Nat.leb_spec first_new i).
    - destruct (clear_block_done p (default 0 (new !! i)) r pos1 Hf) as (c & pos2 & Hc & Hcc).
      exists (<[i := c]> new), pos2. erewrite bind_done by exact Hc. split_and!; [done|apply length_insert| |].
      + intros j Hj. apply list_lookup_insert_ne. lia.
      + intros _ c'. rewrite list_lookup_insert_eq by lia. by intros [= <-].
    - exists new, pos1. split_and!; (done || intros; lia). }
  erewrite bind_done by exact H2.
  destruct (IH (S i) (<[i := b]> old) new1 pos2) as (old' & new' & pos' & H3 & Hl3 & Hl4 & E1 & E2 & E3 & E4);
    [rewrite length_insert; lia|lia|].
  exists old', new', pos'. rewrite length_insert in Hl3.
  split_and!; [done|lia|lia| | | |].
  - intros j Hj. rewrite E1 by lia. apply list_lookup_insert_ne. lia.
  - intros j Hj. destruct (decide (j = i)) as [->|].
    + rewrite E2 by lia. apply Hne2. lia.
    + rewrite E2 by lia. apply Hne2. lia.
  - intros j b' Hj Hlook. destruct (decide (j = i)) as [->|]; [|by eapply E3; [|exact Hlook]; lia].
    rewrite E1, list_lookup_insert_eq in Hlook by lia. by simplify_eq.
  - intros j c Hj Hfn Hlook. destruct (decide (j = i)) as [->|]; [|by eapply (E4 j); [lia|lia|]].
    rewrite E2 in Hlook by lia. by apply Hc2.
Qed.

Lemma map_seq_slice {A B} (g : A → B) d (es : list A) a n :
  (a + n ≤ length es)%nat →
  map (λ i, g (default d (es !! (i + a)%nat))) (seq 0 n) = map g (slice a n es).
Proof.
  intros H. apply list_eq. intros i. rewrite !list_lookup_fmap, lookup_slice.
  case_decide as Hi.
  - rewrite lookup_seq_lt by done. simpl. destruct (lookup_lt_is_Some_2 es (i + a)) as [x Hx]; [lia|].
    rewrite Hx. by rewrite Nat.add_comm, Hx.
  - by rewrite lookup_seq_ge by lia.
Qed.

Definition live (leaf : LeafNode) : list KVBlock := filter (λ b, isFree b = false) (kv_blocks leaf).
Definition unlock (e : Z * KVBlock) : KVBlock := setLocked false e.2.

(** A slot array whose first slots are live and whose other slots are cleared. *)
Lemma live_prefix bs pre :
  Forall (λ b, isFree b = false) pre → take (length pre) bs = pre →
  (∀ j b, (length pre ≤ j)%nat → bs !! j = Some b → cleared b) →
  filter (λ b, isFree b = false) bs = pre.
Proof.
  intros Hpre Htake Hc. rewrite <-(take_drop (length pre) bs), Htake. apply filter_prefix; [done|].
  apply list.Forall_forall. intros b [j Hj]%list_elem_of_lookup. rewrite lookup_drop in Hj.
  destruct (Hc (length pre + j)%nat b ltac:(lia) Hj) as [Hb _]. by rewrite Hb.
Qed.

Lemma unlocked_prefix bs pre :
  Forall (λ b, isLocked b = false ∧ in_width 64 b) pre → take (length pre) bs = pre →
  (∀ j b, (length pre ≤ j)%nat → bs !! j = Some b → cleared b) →
  Forall (λ b, isLocked b = false ∧ in_width 64 b) bs.
Proof.
  intros Hpre Htake Hc. rewrite <-(take_drop (length pre) bs), Htake, Forall_app. split; [done|].
  apply list.Forall_forall. intros b [j Hj]%list_elem_of_lookup. rewrite lookup_drop in Hj.
  destruct (Hc (length pre + j)%nat b ltac:(lia) Hj) as (_ & H1 & H2). done.
Qed.

(** What the array of the new leaf starts with before the clearing loop. *)
Lemma new_prefix (es : list (Z * KVBlock)) (rest : list KVBlock) :
  let m := (length es / 2)%nat in
  let unlocked i := setLocked false (snd (default (0, 0) (es !! i))) in
  let new := map (λ i, unlocked (i + m)%nat) (seq 0 m) ++ rest in
  let new' := if (length es mod 2 =? 1)%nat then <[m := unlocked (length es - 1)%nat]> new else new in
  (length es ≤ m + m + length rest)%nat →
  take (length es - m) new' = map unlock (drop m es) ∧ length new' = length new.
Proof.
  intros m unlocked new new' Hrest.
  pose proof (Nat.div_mod (length es) 2 ltac:(lia)) as Hdm. fold m in Hdm.
  pose proof (Nat.mod_upper_bound (length es) 2 ltac:(lia)).
  assert (new = map unlock (slice m m es) ++ rest) as Hnew.
  { unfold new. f_equal. apply (map_seq_slice unlock). lia. }
  assert (length (map unlock (slice m m es)) = m) as Hlen by (rewrite length_map, length_slice; lia).
  assert (length new' = length new) as Hl.
  { unfold new'. destruct (_ =? 1)%nat; [apply length_insert|done]. }
  split; [|done]. assert (length new = m + length rest)%nat as Hln by (rewrite Hnew, length_app; lia).
  apply list_eq. intros j. rewrite list_lookup_fmap, lookup_drop.
  destruct (decide (j < length es - m)%nat) as [Hj|Hj].
  2:{ rewrite lookup_take_ge by lia. by rewrite lookup_ge_None_2 by lia. }
  rewrite lookup_take_lt by done.
  destruct (lookup_lt_is_Some_2 es (m + j)) as [e He]; [lia|]. rewrite He. simpl.
  destruct (decide (j < m)%nat) as [Hjm|Hjm].
  - assert (new' !! j = new !! j) as ->.
    { unfold new'. destruct (_ =? 1)%nat; [|done]. apply list_lookup_insert_ne. lia. }
    rewrite Hnew, lookup_app_l by lia. by rewrite list_lookup_fmap, lookup_slice, decide_True, He by lia.
  - unfold new'. rewrite (proj2 (Nat.eqb_eq _ _)) by lia.
    assert (j = m) as -> by lia. rewrite list_lookup_insert_eq by lia.
    unfold unlocked, unlock. replace (length es - 1)%nat with (m + m)%nat by lia. by rewrite He.
Qed.

Lemma sorted_take_drop (es : list (Z * KVBlock)) m e :
  sorted (mkeys es) → es !! m = Some e →
  Forall (λ x, x.1 < e.1) (take m es) ∧ Forall (λ x, e.1 ≤ x.1) (drop m es).
Proof.
  intros Hs He. unfold sorted, mkeys in Hs. rewrite <-(take_drop m es), map_app, pairwise_app in Hs.
  rewrite (drop_S _ _ _ He) in *. simpl in Hs. destruct Hs as (_ & [Hs1 _] & Hs2). split.
  - rewrite Forall_map in Hs2. eapply Forall_impl; [|exact Hs2]. simpl.
    intros x Hx. by apply Forall_cons_iff in Hx as [? _].
  - constructor; [lia|]. rewrite Forall_map in Hs1. eapply Forall_impl; [|exact Hs1]. simpl. lia.
Qed.

(** Lists that agree on their first [n] elements. *)
Lemma take_agree {A} (l l' : list A) n : (∀ j, (j < n)%nat → l !! j = l' !! j) → take n l = take n l'.
Proof.
  intros H. apply list_eq. intros j. destruct (decide (j < n)%nat);
    [rewrite !lookup_take_lt by lia; by apply H|by rewrite !lookup_take_ge by lia].
Qed.

(** A sorted list cut at the key of its element [m]. *)
Lemma sorted_cut es m (e : Z * KVBlock) : sorted (mkeys es) → es !! m = Some e →
  filter (λ x, x.1 < e.1) es = take m es ∧ filter (λ x, e.1 ≤ x.1) es = drop m es.
Proof.
  intros Hs He. pose proof (sorted_take_drop es m e Hs He) as [Ht Hd].
  rewrite <-(take_drop m es) at 1 3. split; [apply filter_prefix|apply filter_suffix]; try done.
  - eapply Forall_impl; [|exact Hd]. simpl. intros x Hx. lia.
  - eapply Forall_impl; [|exact Ht]. simpl. intros x Hx. lia.
Qed.

(** The unlocked words of live entries. *)
Lemma unlock_live (es l : list (Z * KVBlock)) :
  Forall (λ e, isFree e.2 = false ∧ in_width 64 e.2) es → l ⊆ es →
  Forall (λ b, isFree b = false) (map unlock l) ∧ Forall (λ b, isLocked b = false ∧ in_width 64 b) (map unlock l).
Proof.
  intros Hes Hl. rewrite list.Forall_forall in Hes. rewrite !Forall_map. unfold unlock.
  split; apply list.Forall_forall; intros x Hx; destruct (Hes x (Hl x Hx)); autorewrite with kvblock; auto with word.
Qed.

(** The two leaves of a split, as halves of the entries. *)
Lemma distribute_spec p (es : list (Z * KVBlock)) leaf r pos :
  rand_fair p r → length (kv_blocks leaf) = branch_factor →
  (2 ≤ length es ≤ branch_factor)%nat →
  Forall (λ e, isFree e.2 = false ∧ in_width 64 e.2) es →
  ∃ leaf' new mk pos', distribute p es leaf (r, pos) = Done (leaf', new, mk) (r, pos') ∧
    live leaf' = map unlock (take (length es / 2) es) ∧ live new = map unlock (drop (length es / 2) es) ∧
    Forall (λ b, isLocked b = false ∧ in_width 64 b) (kv_blocks leaf' ++ kv_blocks new) ∧
    length (kv_blocks leaf') = branch_factor ∧ length (kv_blocks new) = branch_factor ∧
    fst <$> es !! (length es / 2)%nat = Some mk ∧
    lheader leaf' = set_fence (fence_first (lheader leaf)) mk (lheader leaf) ∧
    lheader new = mkHeader 0 0 mk (fence_second (lheader leaf)) 0.
Proof.
  intros Hf Hbs Hlen Hes. unfold distribute. set (m := (length es / 2)%nat).
  pose proof (Nat.div_mod (length es) 2 ltac:(lia)) as Hdm. fold m in Hdm.
  pose proof (Nat.mod_upper_bound (length es) 2 ltac:(lia)).
  destruct (lookup_lt_is_Some_2 es m) as [e He]; [lia|]. rewrite He. cbn [default from_option id].
  destruct (new_prefix es (drop m (kv_blocks LeafNode_init))) as [Hn1 Hn2].
  { fold m. cbn [kv_blocks LeafNode_init]. rewrite length_drop, length_replicate. lia. }
  fold m in Hn1, Hn2.
  set (old := map (λ i, setLocked false (default (0, 0) (es !! i)).2) (seq 0 m) ++ _).
  set (new := if (length es mod 2 =? 1)%nat then _ else _) in *.
  assert (length new = branch_factor) as Hnl.
  { rewrite Hn2. simpl. rewrite length_app, length_map, length_seq, length_drop, length_replicate. lia. }
  assert (length old = branch_factor) as Hol.
  { unfold old. rewrite length_app, length_map, length_seq, length_drop. lia. }
  assert (take m old = map unlock (take m es)) as Ho1.
  { unfold old. rewrite take_app_length' by (by rewrite length_map, length_seq).
    change (take m es) with (slice 0 m es).
    rewrite <-(map_seq_slice unlock (0, 0) es 0 m) by lia. apply map_ext. intros i. by rewrite Nat.add_0_r. }
  assert ((if (length es mod 2 =? 1)%nat then S m else m) = length es - m)%nat as ->.
  { destruct (Nat.eqb_spec (length es mod 2) 1); lia. }
  destruct (clear_loop_done p (length es - m) r Hf (branch_factor - m) m old new pos)
    as (old' & new' & pos' & Hrun & Hl1 & Hl2 & E1 & E2 & E3 & E4); [lia|lia|].
  eexists _, _, e.1, pos'. erewrite bind_done by exact Hrun. split; [reflexivity|].
  cbn [kv_blocks lheader fst snd].
  assert (take m old' = map unlock (take m es)) as Ho2.
  { rewrite <-Ho1. apply take_agree. intros j Hj. apply E1. lia. }
  assert (take (length es - m) new' = map unlock (drop m es)) as Hn3.
  { rewrite <-Hn1. apply take_agree. intros j Hj. apply E2. lia. }
  destruct (unlock_live es (take m es) Hes) as [Hf1 Hu1]; [intros x; apply subseteq_take|].
  destruct (unlock_live es (drop m es) Hes) as [Hf2 Hu2]; [intros x; apply subseteq_drop|].
  assert (length (map unlock (take m es)) = m) as Hlt by (rewrite length_map, length_take; lia).
  assert (length (map unlock (drop m es)) = length es - m)%nat as Hld by (rewrite length_map, length_drop; lia).
  assert (∀ j b, (length (map unlock (take m es)) ≤ j)%nat → old' !! j = Some b → cleared b) as Hc1.
  { intros j b Hj Hb. pose proof (lookup_lt_Some _ _ _ Hb). eapply E3; [|exact Hb]. lia. }
  assert (∀ j b, (length (map unlock (drop m es)) ≤ j)%nat → new' !! j = Some b → cleared b) as Hc2.
  { intros j b Hj Hb. pose proof (lookup_lt_Some _ _ _ Hb). eapply E4; [| |exact Hb]; lia. }
  split_and!; try done; try lia.
  - unfold live. cbn [kv_blocks]. apply live_prefix; [done|by rewrite Hlt|done].
  - unfold live. cbn [kv_blocks]. apply live_prefix; [done|by rewrite Hld|done].
  - rewrite Forall_app. split.
    + eapply unlocked_prefix; [exact Hu1|by rewrite Hlt|exact Hc1].
    + eapply unlocked_prefix; [exact Hu2|by rewrite Hld|exact Hc2].
Qed.

(** C20: the split of a leaf distributes its entries: from the entries sorted by
    key, without duplicates, the leaf keeps exactly those below the middle key and
    the new leaf gets exactly the others; every other slot is free, no slot is
    locked, and the two fences meet at the middle key and cover the old range.  It
    returns for every random generator whose low 12 bits do not stay on one value for
    [p] draws in a row. *)
Theorem distribute_partitions p (es : list (Z * KVBlock)) leaf r pos :
  rand_fair p r → length (kv_blocks leaf) = branch_factor →
  (2 ≤ length es ≤ branch_factor)%nat → sorted (mkeys es) →
  Forall (λ e, isFree e.2 = false ∧ in_width 64 e.2) es →
  ∃ leaf' new mk pos', distribute p es leaf (r, pos) = Done (leaf', new, mk) (r, pos') ∧
    live leaf' = map unlock (filter (λ e, e.1 < mk) es) ∧
    live new = map unlock (filter (λ e, mk ≤ e.1) es) ∧
    Forall (λ b, isLocked b = false ∧ in_width 64 b) (kv_blocks leaf' ++ kv_blocks new) ∧
    length (kv_blocks leaf') = branch_factor ∧ length (kv_blocks new) = branch_factor ∧
    mk ∈ mkeys es ∧
    lheader leaf' = set_fence (fence_first (lheader leaf)) mk (lheader leaf) ∧
    lheader new = mkHeader 0 0 mk (fence_second (lheader leaf)) 0.
Proof.
  intros Hf Hbs Hlen Hs Hes.
  destruct (distribute_spec p es leaf r pos Hf Hbs Hlen Hes) as (leaf' & new & mk & pos' & Hrun & Hl & Hn & Hu & Hb1 & Hb2 & Hm & Hh1 & Hh2).
  exists leaf', new, mk, pos'. apply fmap_Some in Hm as (e & He & ->). destruct (sorted_cut es _ e Hs He) as [-> ->].
  split_and!; try done. unfold mkeys. apply list_elem_of_fmap. exists e. split; [done|by eapply list_elem_of_lookup_2].
Qed.
End leaf.

Lemma distribute_partitions_witness :
  ∃ leaf' new mk pos',
    distribute (cfg := demo_cfg) 2 [(3, 4); (5, 8); (9, 12)] (LeafNode_init (cfg := demo_cfg))
      (λ n, Z.of_nat (n mod 2), 0%nat) = Done (leaf', new, mk) (λ n, Z.of_nat (n mod 2), pos') ∧
    live new = map unlock (filter (λ e, mk ≤ e.1) [(3, 4); (5, 8); (9, 12)]).
Proof.
  destruct (distribute_partitions (cfg := demo_cfg) 2 [(3, 4); (5, 8); (9, 12)]
    (LeafNode_init (cfg := demo_cfg))
    (λ n, Z.of_nat (n mod 2)) 0) as (leaf' & new & mk & pos' & H1 & _ & H2 & _).
  - intros pos avoid. assert (pos mod 2 = 0 ∨ pos mod 2 = 1)%nat as Hp.
    { pose proof (Nat.mod_upper_bound pos 2). lia. }
    destruct (decide (avoid = Z.of_nat (pos mod 2))) as [->|Hne].
    + exists 1%nat. split; [simpl; lia|]. rewrite <-Nat.Div0.add_mod_idemp_l.
      destruct Hp as [-> | ->]; vm_compute; congruence.
    + exists 0%nat. split; [simpl; lia|]. rewrite Nat.add_0_r. intros E. apply Hne. rewrite <-E.
      destruct Hp as [-> | ->]; reflexivity.
  - reflexivity.
  - simpl. lia.
  - repeat constructor.
  - repeat constructor; vm_compute; congruence.
  - exists leaf', new, mk, pos'. split; [exact H1|exact H2].
Defined.

Section slots.
Context {cfg : FaunusConfig}.

Lemma slot_index_xor seed i k :
  branch_factor = (2 ^ k)%nat → (i < branch_factor)%nat →
  Z.of_nat (slot_index seed i) = Z.lxor (Z.of_nat i) (seed mod 2 ^ Z.of_nat k).
Proof.
  intros Hbf Hi. unfold slot_index.
  assert (Z.of_nat branch_factor = 2 ^ Z.of_nat k) as HZ by (rewrite Hbf, Nat2Z.inj_pow; done).
  assert (Z.of_nat branch_factor - 1 = Z.ones (Z.of_nat k)) as ->.
  { rewrite HZ, Z.ones_equiv. lia. }
  rewrite Z2Nat.id.
  2:{ rewrite Z.land_ones by lia. apply Z.mod_pos_bound. lia. }
  apply Z.bits_inj'. intros n Hn. rewrite Z.land_spec, !Z.lxor_spec, Z.testbit_ones by lia.
  destruct (Z.ltb_spec n (Z.of_nat k)).
  - rewrite Z.mod_pow2_bits_low, (proj2 (Z.leb_le _ _)) by lia. by rewrite andb_true_r.
  - rewrite Z.mod_pow2_bits_high, (in_width_testbit (Z.of_nat k)) by (unfold in_width; lia).
    by rewrite !andb_false_r.
Qed.

Lemma slot_index_lt seed i k :
  branch_factor = (2 ^ k)%nat → (slot_index seed i < branch_factor)%nat.
Proof.
  intros Hbf. unfold slot_index.
  assert (Z.of_nat branch_factor = 2 ^ Z.of_nat k) as HZ by (rewrite Hbf, Nat2Z.inj_pow; done).
  assert (Z.of_nat branch_factor - 1 = Z.ones (Z.of_nat k)) as -> by (rewrite HZ, Z.ones_equiv; lia).
  rewrite Z.land_ones by lia. pose proof (Z.mod_pos_bound (Z.lxor (Z.of_nat i) seed) (2 ^ Z.of_nat k)). lia.
Qed.

Lemma slot_order_perm seed k :
  branch_factor = (2 ^ k)%nat →
  map (slot_index seed) (seq 0 branch_factor) ≡ₚ seq 0 branch_factor.
Proof.
  intros Hbf. apply (NoDup_Permutation_bis (l := map (slot_index seed) (seq 0 branch_factor))).
  - apply NoDup_ListNoDup, NoDup_fmap_2_strong; [|apply NoDup_seq].
    intros x y Hx Hy E. apply elem_of_seq in Hx, Hy. apply (f_equal Z.of_nat) in E.
    rewrite !(slot_index_xor seed _ k) in E by (done || lia).
    apply (f_equal (λ z, Z.lxor z (seed mod 2 ^ Z.of_nat k))) in E. simpl in E.
    rewrite !Z.lxor_assoc, Z.lxor_nilpotent, !Z.lxor_0_r in E. lia.
  - by rewrite length_map.
  - intros x Hx. apply list_elem_of_In in Hx. apply list_elem_of_fmap in Hx as (i & -> & Hi).
    apply list_elem_of_In, elem_of_seq. pose proof (slot_index_lt seed i k Hbf). lia.
Qed.

(** Every slot is visited. *)
Lemma slot_index_onto seed k j :
  branch_factor = (2 ^ k)%nat → (j < branch_factor)%nat →
  ∃ i, (i < branch_factor)%nat ∧ slot_index seed i = j.
Proof.
  intros Hbf Hj. assert (j ∈ map (slot_index seed) (seq 0 branch_factor)) as Hin.
  { rewrite (slot_order_perm seed k Hbf). apply elem_of_seq. lia. }
  apply list_elem_of_fmap in Hin as (i & -> & Hi%elem_of_seq). exists i. split; [lia|done].
Qed.

(** For a branch factor that is a power of two, the order in which an insert
    visits the slots, [(i ^ seed) & (branch_factor - 1)], is a permutation of the
    slots for every seed: an insert that finds no free slot has looked at all of
    them. *)
Theorem slot_order_permutation seed k :
  branch_factor = (2 ^ k)%nat →
  map (slot_index seed) (seq 0 branch_factor) ≡ₚ seq 0 branch_factor.
Proof. apply slot_order_perm. Qed.
End slots.

Lemma slot_order_permutation_witness :
  map (slot_index (cfg := demo_cfg) 0x1234567) (seq 0 4) ≡ₚ seq 0 4.
Proof. apply (slot_order_permutation (cfg := demo_cfg) 0x1234567 2). reflexivity. Defined.
