(* ===== verification/FaunusIndex.v ===== *)
(** * The Faunus index (src/kv_index/faunus_index.cpp, kv_index.hpp)

    The handlers of [FaunusIndex] as state-passing programs: every RDMA operation,
    allocation, random draw, cache access and statistics call of the source, in
    its order, with its assertions, retries and early returns.

    [World] is what one thread of a compute server works on: the network with the
    memory servers (RdmaManager.v), the slabs of its allocator (Slab.v), its random
    generator, the cache if there is one, and the static maintenance queues.  The
    node cache is used through the class [NodeCache].  Loops of the source that are
    bounded by 1000000 attempts have that bound; loops without a bound ([find_node],
    [try_update_kvblock], the draws of random slots) get the bound [fuel], and the
    recursion of an internal split towards the root gets the number of levels
    [depth]. *)

From S2P Require Import Prelude GlobalAddress RdmaSim ThreadStats Queue MemoryServer Slab RdmaManager KVBlock FaunusNode.

(** ** The cache, as the index uses it (src/cache/range_cache.hpp)

    [search] returns an entry and the item it holds, [add] may drop or evict
    entries, [invalidate] removes an entry.  [cached c (s, e, i)]: the cache holds
    item [i] for the range from [s] to [e]. *)
Class NodeCache (C Ent Item : Type) := {
  cache_search : Z → C → option (Ent * Item) * C;
  cache_add : Z → Z → Item → C → C;
  cache_invalidate : Ent → C → C;
  cached : C → Z * Z * Item → Prop;
  cache_search_some : ∀ c k e i c',
    cache_search k c = (Some (e, i), c') → ∃ s t, cached c (s, t, i) ∧ s ≤ k < t;
  cache_search_cached : ∀ c k r c' x, cache_search k c = (r, c') → cached c' x → cached c x;
  cache_add_cached : ∀ c s e i x, cached (cache_add s e i c) x → cached c x ∨ x = (s, e, i);
  cache_invalidate_cached : ∀ c e x, cached (cache_invalidate e c) x → cached c x
}.

Inductive OpType := SPLIT | MERGE | STOP.
Record FaunusMaintenanceRPC := mkRPC { rpc_op : OpType; leaf_address : GlobalAddress }.

Inductive FindNodeResult := FOUND | LOCKED | NO_SUCH_LEVEL | UNKNOWN.

#[global] Instance FindNodeResult_eq_dec : EqDecision FindNodeResult.
Proof. solve_decision. Defined.

(** [hash_int] *)
Definition hash_int (x : Z) : Z :=
  let x := u64 (Z.lxor x (Z.shiftr x 30) * 0xbf58476d1ce4e5b9) in
  let x := u64 (Z.lxor x (Z.shiftr x 27) * 0x94d049bb133111eb) in
  Z.lxor x (Z.shiftr x 31).

Section index.
Context {cfg : FaunusConfig}.
Context {Q : Type → Type} `{!ConcurrentQueue Q}.
Context {C Ent : Type} `{!NodeCache C Ent (GlobalAddress * InternalNode)}.

(** Bounds for loops the source does not bound, what is read in front of an
    array (see [shift_loop]), and the address of a local variable as a number
    (see [try_delete_kvblock]). *)
Variables (fuel : positive) (depth : nat) (junk : Z) (local_ptr : Z).

Record World := mkWorld {
  w_net : Net Q;
  w_slabs : gmap Z (@SlabAllocator Q);
  w_rand : rand_state;
  root_offset_pointer_ : GlobalAddress;
  faunus_cache_ : option C;
  maintenance_queues : list (Q FaunusMaintenanceRPC);
  w_tid_hash : Z
}.

Definition on_net {A} (m : M (Net Q) A) : M World A :=
  zoom w_net (λ n w, mkWorld n (w_slabs w) (w_rand w) (root_offset_pointer_ w) (faunus_cache_ w)
                       (maintenance_queues w) (w_tid_hash w)) m.

Definition on_rand {A} (m : M rand_state A) : M World A :=
  zoom w_rand (λ r w, mkWorld (w_net w) (w_slabs w) r (root_offset_pointer_ w) (faunus_cache_ w)
                        (maintenance_queues w) (w_tid_hash w)) m.

(** The allocator works on its slabs and, through RPCs, on the servers. *)
Definition on_alloc {A} (m : M (gmap Z (@SlabAllocator Q) * Cluster Q) A) : M World A :=
  zoom (λ w, (w_slabs w, cluster (w_net w)))
    (λ st w, mkWorld (mkNet (mgr (w_net w)) st.2 (tid (w_net w)) (others (w_net w))) st.1
               (w_rand w) (root_offset_pointer_ w) (faunus_cache_ w) (maintenance_queues w)
               (w_tid_hash w)) m.

Definition set_cache (c : option C) (w : World) : World :=
  mkWorld (w_net w) (w_slabs w) (w_rand w) (root_offset_pointer_ w) c (maintenance_queues w)
    (w_tid_hash w).
Definition set_root_pointer (a : GlobalAddress) (w : World) : World :=
  mkWorld (w_net w) (w_slabs w) (w_rand w) a (faunus_cache_ w) (maintenance_queues w) (w_tid_hash w).
Definition set_queues (qs : list (Q FaunusMaintenanceRPC)) (w : World) : World :=
  mkWorld (w_net w) (w_slabs w) (w_rand w) (root_offset_pointer_ w) (faunus_cache_ w) qs (w_tid_hash w).

(** ** Short names for the calls of the handlers *)

Definition perform (o : RDMAOp) : M World (bool * op_out) := on_net (perform_op o).
Definition perform_all (ops : list RDMAOp) : M World (bool * list op_out) := on_net (perform_batch ops).
Definition read_object (a : GlobalAddress) (size : nat) : M World (bool * list Z) :=
  on_net (rdma_read_object a (Z.of_nat size)).
Definition write_object (a : GlobalAddress) (obj : list Z) : M World bool :=
  on_net (rdma_write_object a obj).

(** [allocator_->allocate(size)] as a [GlobalAddress]; a failure (-1) becomes the
    highest address. *)
Definition allocate (size : nat) : M World GlobalAddress :=
  off ← on_alloc (local_allocate (Z.of_nat size)); mret (ga_of_u64 (u64 off)).
Definition free (size : nat) (a : GlobalAddress) : M World unit :=
  on_alloc (local_free (Z.of_nat size) a).

(** [stats_tracker_->f()]: the tracker of the thread, which the manager also has. *)
Definition stats (f : ThreadStatsTracker → ThreadStatsTracker) : M World unit :=
  w ← get;
  match thread_stats_tracker_ (mgr (w_net w)) with
  | None => raise NullPointer
  | Some _ => on_net (on_mgr (on_tracker f))
  end.
Definition stats_if (f : ThreadStatsTracker → ThreadStatsTracker) : M World unit :=
  on_net (on_mgr (on_tracker f)).

Definition search_cache (key : Z) : M World (option (Ent * (GlobalAddress * InternalNode))) := λ w,
  match faunus_cache_ w with
  | None => Done None w
  | Some c => let r := cache_search key c in Done r.1 (set_cache (Some r.2) w)
  end.
Definition add_cache (s e : Z) (i : GlobalAddress * InternalNode) : M World unit :=
  modify (λ w, set_cache (cache_add s e i <$> faunus_cache_ w) w).
Definition invalidate_cache (e : option Ent) : M World unit :=
  match e with
  | None => mret tt
  | Some e => modify (λ w, set_cache (cache_invalidate e <$> faunus_cache_ w) w)
  end.

Definition out_data (o : option op_out) : list Z :=
  match o with Some (out_bytes d) => d | _ => [] end.

(** The byte address of slot [index] of a leaf, and of the lock of a node. *)
Definition kvblock_address (leaf : GlobalAddress) (index : nat) : GlobalAddress :=
  ga_add leaf (kv_block_offset index).
Definition lock_address (node : GlobalAddress) : GlobalAddress := ga_add node 0.

(** ** The root pointer *)

Definition get_root_offset : M World GlobalAddress :=
  w ← get;
  r ← perform (mkOp (root_offset_pointer_ w) (op_read true 8));
  _ ← assert_ r.1;
  mret (ga_of_u64 (le_val (out_data (Some r.2)))).

(** The [bool] that becomes the returned [GlobalAddress] and then a [bool] again. *)
Definition update_root_offset (new_root_offset : GlobalAddress) : M World bool :=
  old_root_offset ← get_root_offset;
  w ← get;
  r ← perform (mkOp (root_offset_pointer_ w) (op_cas old_root_offset new_root_offset));
  if negb r.1 then mret false
  else mret (expected_after old_root_offset r.2 =? old_root_offset).

Definition create_maintenance_queues (num_queues : nat) : list (Q FaunusMaintenanceRPC) :=
  replicate num_queues q_empty.

Definition initialize (num_maintenance_queues : nat) : M World bool :=
  root_ptr ← allocate 8;
  _ ← modify (set_root_pointer root_ptr);
  root_offset ← allocate sizeof_LeafNode;
  let root := mkLeaf (set_fence key_min key_max header0) (kv_blocks LeafNode_init) in
  success ← write_object root_offset (enc_LeafNode root);
  if negb success then mret false
  else
    success ← update_root_offset root_offset;
    _ ← (if (0 <? num_maintenance_queues)%nat
         then modify (set_queues (create_maintenance_queues num_maintenance_queues))
         else mret tt);
    mret success.

(** ** Traversal *)

(** The state of the traversal loop: the address, the node when it came from the
    cache, and [in_root]. *)
Definition find_state : Type := GlobalAddress * option InternalNode * bool.

Definition find_step (key level_ : Z) (from_smo : bool) (cached_entry : option Ent)
    (st : find_state) : M World (find_state + (FindNodeResult * GlobalAddress)) :=
  let '(node_address, cached_node, in_root) := st in
  node ← (match cached_node with
          | Some node => mret node
          | None =>
              r ← read_object node_address sizeof_InternalNode;
              let node := dec_InternalNode r.2 in
              _ ← (if (lock (iheader node) =? 0) && (level (iheader node) =? (if from_smo then 2 else 1))
                   then add_cache (fence_first (iheader node)) (fence_second (iheader node))
                          (node_address, node)
                   else mret tt);
              mret node
          end);
  let h := iheader node in
  if negb (lock h =? 0) && (negb from_smo || (level_ <? level h)) then
    _ ← invalidate_cache cached_entry; mret (inr (LOCKED, node_address))
  else if level h =? level_ then mret (inr (FOUND, node_address))
  else if level h <? level_ then
    _ ← assert_ in_root;
    _ ← invalidate_cache cached_entry;
    mret (inr (NO_SUCH_LEVEL, node_address))
  else
    match find_child key node with
    | None => raise OutOfBounds
    | Some next_address =>
        _ ← assert_ (negb (node_address =? next_address));
        if level h =? u64 (level_ + 1) then mret (inr (FOUND, next_address))
        else mret (inl (next_address, None, false))
    end.

Definition find_node (key level_ : Z) (from_smo use_cache : bool) :
    M World (FindNodeResult * GlobalAddress * option Ent) :=
  hit ← (if use_cache then search_cache key else mret None);
  let cached_entry := fst <$> hit in
  let traverse (start : GlobalAddress * option InternalNode) :=
    root ← (match start.2 with Some _ => mret start.1 | None => get_root_offset end);
    r ← loop fuel (find_step key level_ from_smo cached_entry)
          (root, start.2, match start.2 with Some _ => false | None => true end);
    match r with
    | inl _ => raise OutOfFuel
    | inr (res, a) => mret (res, a, cached_entry)
    end in
  match hit with
  | None => traverse (Null, None)
  | Some (e, (cached_address, cached_node)) =>
      let h := iheader cached_node in
      _ ← assert_ ((fence_first h <=? key) && (key <? fence_second h));
      if (level_ <=? level h) && ((lock h =? 0) || from_smo) then
        if level h =? level_ then mret (FOUND, cached_address, cached_entry)
        else traverse (cached_address, Some cached_node)
      else
        _ ← invalidate_cache cached_entry;
        traverse (Null, None)
  end.

(** ** Key-value items of a leaf *)

(** The candidates with their items, or [None] when a slot is locked. *)
Definition get_candidate_kvs (leaf : LeafNode) (fp : Z) (from_insert from_read : bool) :
    M World (bool * list (nat * KVItem)) :=
  let '(candidates_entries, found_smo) := get_fingerprint_collisions leaf fp in
  if found_smo && negb from_read then mret (false, [])
  else if from_insert && (length candidates_entries =? 1)%nat then mret (true, [])
  else match candidates_entries with
  | [] => mret (true, [])
  | _ =>
      (* without [from_read] only the keys are read *)
      let ops := map (λ '(_, a), mkOp a (op_read true (Z.of_nat (if from_read then sizeof_KVItem else KEY_SIZE))))
                   candidates_entries in
      r ← perform_all ops;
      _ ← assert_ r.1;
      mret (true, zip_with (λ '(i, _) o, (i, dec_KVItem (out_data (Some o)))) candidates_entries r.2)
  end.

Definition try_update_step (kvblock : GlobalAddress) (new_kvblock : KVBlock)
    (st : KVBlock * KVBlock) : M World (KVBlock * KVBlock + bool) :=
  let '(tmp_expected_kvb, expected_kvb) := st in
  if (getFingerprint tmp_expected_kvb =? getFingerprint expected_kvb) &&
     negb (isFree tmp_expected_kvb) && negb (isLocked tmp_expected_kvb) then
    let expected_kvb := tmp_expected_kvb in
    r ← perform (mkOp kvblock (op_cas tmp_expected_kvb new_kvblock));
    _ ← assert_ r.1;
    let tmp_expected_kvb := expected_after tmp_expected_kvb r.2 in
    if tmp_expected_kvb =? expected_kvb then
      _ ← free sizeof_KVItem (getAddr expected_kvb); mret (inr true)
    else mret (inl (tmp_expected_kvb, expected_kvb))
  else mret (inr false).

Definition try_update_kvblock (kvblock : GlobalAddress) (expected_kvb new_kvblock : KVBlock) : M World bool :=
  r ← loop fuel (try_update_step kvblock new_kvblock) (expected_kvb, expected_kvb);
  match r with inl _ => raise OutOfFuel | inr b => mret b end.

(** The result compares the old word with [op.op.cas.expected], which is the
    address of the variable that held it. *)
Definition try_delete_kvblock (kvblock : GlobalAddress) (expected_kvb : KVBlock) : M World bool :=
  rnd ← on_rand (setDifferentRandomFpAddr fuel 0);
  let new_kvb := setFree true (setLocked (isLocked expected_kvb) rnd) in
  r ← perform (mkOp kvblock (op_cas expected_kvb new_kvb));
  _ ← assert_ r.1;
  if expected_kvb =? local_ptr then
    _ ← free sizeof_KVItem (getAddr expected_kvb); mret true
  else mret false.

(** The loop over the candidates: [found] is the value found so far. *)
Fixpoint dupes_loop (key : Z) (leaf_addr : GlobalAddress) (leaf : LeafNode) (new_kvblock : KVBlock)
    (from_update : bool) (candidates : list (nat * KVItem)) (found : option Z) :
    M World (bool * option Z) :=
  match candidates with
  | [] => mret (true, found)
  | (index, kv) :: rest =>
      let block := default 0 (kv_blocks leaf !! index) in
      if item_key kv =? key then
        match found with
        | None =>
            if from_update then
              b ← try_update_kvblock (kvblock_address leaf_addr index) block new_kvblock;
              mret (b, Some (item_value kv))
            else dupes_loop key leaf_addr leaf new_kvblock from_update rest (Some (item_value kv))
        | Some _ =>
            _ ← try_delete_kvblock (kvblock_address leaf_addr index) block;
            dupes_loop key leaf_addr leaf new_kvblock from_update rest found
        end
      else dupes_loop key leaf_addr leaf new_kvblock from_update rest found
  end.

(** Returns the success flag and, when the key was found, its value. *)
Definition handle_local_remove_dupes (key : Z) (leaf_addr : GlobalAddress) (leaf : LeafNode)
    (new_kvblock : KVBlock) (from_insert from_read from_update : bool) : M World (bool * option Z) :=
  let h := lheader leaf in
  if (key <? fence_first h) || (fence_second h <=? key) then mret (false, None)
  else if negb (lock h =? 0) && negb from_read then mret (false, None)
  else
    c ← get_candidate_kvs leaf (Fingerprint key) from_insert from_read;
    match c.2 with
    | [] => mret (c.1, None)
    | candidates => dupes_loop key leaf_addr leaf new_kvblock from_update candidates None
    end.

(** ** Read *)

Definition MAX_ATTEMPTS : positive := 1000000.

(** One attempt: the attempt number and the cache entry of the previous one. *)
Definition read_attempt (key : Z) (st : Z * option Ent) : M World (Z * option Ent + option Z) :=
  let '(attempt, cached_entry) := st in
  _ ← (if 0 <? attempt then
         _ ← stats record_retry;
         match cached_entry with Some _ => stats record_cache_miss | None => mret tt end
       else mret tt);
  f ← find_node key 0 false (attempt =? 0);
  let '(find_result, leaf_addr, cached_entry) := f in
  _ ← assert_ (bool_decide (find_result ≠ UNKNOWN) && bool_decide (find_result ≠ NO_SUCH_LEVEL));
  if bool_decide (find_result ≠ FOUND) then mret (inl (attempt + 1, cached_entry))
  else
    r ← read_object leaf_addr sizeof_LeafNode;
    let leaf := dec_LeafNode r.2 in
    d ← handle_local_remove_dupes key leaf_addr leaf 0 false true false;
    if negb d.1 then mret (inl (attempt + 1, cached_entry))
    else
      _ ← (match cached_entry with Some _ => stats record_cache_hit | None => mret tt end);
      mret (inr d.2).

(** [read]: [Some v] is [true] with [value_out = v]. *)
Definition read (key : Z) : M World (option Z) :=
  r ← loop MAX_ATTEMPTS (read_attempt key) (0, None);
  match r with inl _ => raise AssertFailed | inr v => mret v end.

Definition del (key : Z) : M World bool := mret false.

(** ** Structure modifications *)

Definition trylock_node (node : GlobalAddress) : M World bool :=
  on_net (rdma_try_acquire_lock (lock_address node)).

Definition get_release_node_op (node : GlobalAddress) : RDMAOp :=
  mkOp (lock_address node) (op_faa (-1)).

Definition get_lock_unlock_kvblocks (leaf_addr : GlobalAddress) (to_lock : bool) : list RDMAOp :=
  map (λ i, mkOp (kvblock_address leaf_addr i) (op_faa (if to_lock then 1 else -1)))
    (seq 0 branch_factor).

Definition write_op (a : GlobalAddress) (obj : list Z) : RDMAOp :=
  mkOp a (op_write (Some obj) (Z.of_nat (length obj))).

Definition setup_new_root (key : Z) (right_child : GlobalAddress) (level_ : Z) : M World bool :=
  new_root_address ← allocate sizeof_InternalNode;
  old_root ← get_root_offset;
  let new_root := mkInternal (mkHeader 0 level_ key_min key_max 1)
    (set_child 1 right_child (set_child 0 old_root (set_key 0 key (entries InternalNode_init)))) in
  success ← write_object new_root_address (enc_InternalNode new_root);
  _ ← assert_ success;
  success ← update_root_offset new_root_address;
  _ ← assert_ success;
  mret true.

(** The calls of [insert_internal_entry] one level up are [insert_up]. *)
Definition split_internal_node (insert_up : Z → GlobalAddress → Z → M World bool)
    (node_address : GlobalAddress) (node : InternalNode) (key : Z) (new_child_addr : GlobalAddress) :
    M World bool :=
  _ ← assert_ (S (S (last_nat node)) =? S branch_factor)%nat;
  let '(node', new_node, middle_key) := split_node junk key new_child_addr node in
  _ ← assert_ (last_nat node' <? branch_factor - 1)%nat;
  new_node_address ← allocate sizeof_InternalNode;
  success ← on_net (rdma_write_batch [new_node_address; node_address]
                      [enc_InternalNode new_node; enc_InternalNode node']);
  _ ← assert_ success;
  success ← insert_up middle_key new_node_address (u64 (level (iheader node') + 1));
  _ ← assert_ success;
  mret false.

(** One attempt: its number and the cache entry of the previous one. *)
Definition insert_internal_attempt (insert_up : Z → GlobalAddress → Z → M World bool)
    (key : Z) (new_child_addr : GlobalAddress) (level_ : Z) (st : Z * option Ent) :
    M World (Z * option Ent + bool) :=
  let '(attempt, cached_entry) := st in
  _ ← (if 0 <? attempt then invalidate_cache cached_entry else mret tt);
  f ← find_node key level_ true (attempt =? 0);
  let '(find_result, node_address, cached_entry) := f in
  _ ← assert_ (bool_decide (find_result ≠ UNKNOWN));
  if bool_decide (find_result = NO_SUCH_LEVEL) then
    b ← setup_new_root key new_child_addr level_; mret (inr b)
  else if bool_decide (find_result ≠ FOUND) then mret (inl (attempt + 1, cached_entry))
  else
    _ ← (if attempt =? 0
         then match cached_entry with
              | Some _ => stats_if record_cache_hit
              | None => stats_if record_cache_miss
              end
         else mret tt);
    r ← perform_all [mkOp (lock_address node_address) (op_cas 0 1);
                     mkOp node_address (op_read true (Z.of_nat sizeof_InternalNode))];
    _ ← assert_ r.1;
    let expected := match r.2 !! 0%nat with Some o => expected_after 0 o | None => 0 end in
    if negb (expected =? 0) then mret (inl (attempt + 1, cached_entry))
    else
      let node := dec_InternalNode (out_data (r.2 !! 1%nat)) in
      let h := iheader node in
      _ ← assert_ (level h =? level_);
      if (key <? fence_first h) || (fence_second h <=? key) then
        released ← on_net (rdma_release_lock (lock_address node_address));
        _ ← assert_ released;
        mret (inl (attempt + 1, cached_entry))
      else if negb (last_index h <? Z.of_nat branch_factor) then raise OutOfBounds
      else
        let found := has_key key node in
        batch_ops ← (if negb found && (Z.of_nat branch_factor <=? last_index h + 1) then
                       _ ← split_internal_node insert_up node_address node key new_child_addr;
                       mret []
                     else if negb found then
                       mret [write_op node_address
                               (enc_InternalNode (insert_entry junk key new_child_addr node))]
                     else mret []);
        r ← perform_all (batch_ops ++ [get_release_node_op node_address]);
        _ ← assert_ r.1;
        mret (inr true).

Fixpoint insert_internal_entry (levels : nat) (key : Z) (new_child_addr : GlobalAddress)
    (level_ : Z) : M World bool :=
  match levels with
  | O => raise OutOfFuel
  | S levels' =>
      r ← loop MAX_ATTEMPTS
            (insert_internal_attempt (insert_internal_entry levels') key new_child_addr level_)
            (0, None);
      match r with inl _ => mret false | inr b => mret b end
  end.

Definition split_leaf (leaf_addr : GlobalAddress) : M World bool :=
  success ← trylock_node leaf_addr;
  if negb success then mret false
  else
    r ← perform_all (get_lock_unlock_kvblocks leaf_addr true ++
                     [mkOp leaf_addr (op_read true (Z.of_nat sizeof_LeafNode))]);
    _ ← assert_ r.1;
    let leaf := dec_LeafNode (out_data (r.2 !! branch_factor)) in
    _ ← assert_ (negb (lock (lheader leaf) =? 0));
    _ ← assert_ (forallb isLocked (kv_blocks leaf));
    let taken := filter (λ b, isFree b = false) (kv_blocks leaf) in
    k ← on_net (rdma_read_batch (map getAddr taken) (Z.of_nat KEY_SIZE));
    _ ← assert_ k.1;
    let leaf_keys := map be_val k.2 in
    let entries := entries_map (zip leaf_keys taken) in
    if (length entries <=? branch_factor / 2)%nat then
      r ← perform_all (get_lock_unlock_kvblocks leaf_addr false ++ [get_release_node_op leaf_addr]);
      _ ← assert_ r.1;
      mret false
    else
      new_leaf_address ← allocate sizeof_LeafNode;
      d ← on_rand (distribute fuel entries leaf);
      let '(leaf', new_leaf, middle_key) := d in
      success ← on_net (rdma_write_batch [new_leaf_address; leaf_addr]
                          [enc_LeafNode new_leaf; enc_LeafNode leaf']);
      _ ← assert_ success;
      success ← insert_internal_entry depth middle_key new_leaf_address 1;
      _ ← assert_ success;
      r ← perform (get_release_node_op leaf_addr);
      _ ← assert_ r.1;
      mret true.

(** ** Maintenance *)

Definition num_maintenance_queues : M World nat := gets (λ w, length (maintenance_queues w)).

Definition on_queue {A} (i : nat) (m : M (Q FaunusMaintenanceRPC) A) : M World A := λ w,
  match maintenance_queues w !! i with
  | None => Fault NullPointer w
  | Some q =>
      match m q with
      | Done a q' => Done a (set_queues (<[i := q']> (maintenance_queues w)) w)
      | Fault f q' => Fault f (set_queues (<[i := q']> (maintenance_queues w)) w)
      end
  end.

Definition request_smo (op : OpType) (leaf_addr : GlobalAddress) : M World bool :=
  if FAUNUS_MAINTENANCE_ENABLED then
    num_queues ← num_maintenance_queues;
    if (num_queues =? 0)%nat then mret false
    else
      let queue_idx := Z.to_nat (hash_int leaf_addr mod Z.of_nat num_queues) in
      _ ← on_queue queue_idx (MaintenanceQueue.enqueue (mkRPC op leaf_addr));
      mret true
  else mret true.

Definition stop_maintenance (threads_per_queue : nat) : M World unit :=
  modify (λ w, set_queues
    (map (q_enqueue_all (replicate threads_per_queue (mkRPC STOP Null))) (maintenance_queues w)) w).

Definition finalize (num_maintenance_threads_per_queue : nat) : M World bool :=
  _ ← stop_maintenance num_maintenance_threads_per_queue; mret true.

(** One iteration of [maintenance_worker] on the queue [cs_id]: [None] when the
    worker stops, else the result for the promise of the request.  The wait polls
    at most [polls] times, [arrivals] being what other threads enqueue between two
    polls; [latency] is what the clock gives for the operation. *)
Definition maintenance_iteration (cs_id polls : nat) (arrivals : nat → list FaunusMaintenanceRPC)
    (latency : Z) : M World (option bool) :=
  rpc ← on_queue cs_id (MaintenanceQueue.wait_dequeue polls arrivals);
  match rpc_op rpc with
  | STOP => mret None
  | MERGE => _ ← stats_if (begin_operation Insert); raise AssertFailed
  | SPLIT =>
      _ ← stats_if (begin_operation Insert);
      result ← split_leaf (leaf_address rpc);
      _ ← stats_if (end_operation latency result);
      mret (Some result)
  end.

(** [maintenance_worker]: the number of operations processed, for at most [n]
    requests. *)
Fixpoint maintenance_worker (n : nat) (cs_id polls : nat) (arrivals : nat → list FaunusMaintenanceRPC)
    (latency : Z) (operations_processed : Z) : M World Z :=
  w ← get;
  match maintenance_queues w !! cs_id with
  | None => mret operations_processed
  | Some _ =>
      match n with
      | O => raise OutOfFuel
      | S n' =>
          r ← maintenance_iteration cs_id polls arrivals latency;
          match r with
          | None => mret operations_processed
          | Some _ => maintenance_worker n' cs_id polls arrivals latency (operations_processed + 1)
          end
      end
  end.

(** ** Insert *)

(** The loop over the slots: the first slot in the thread's order that is locked
    ([inl]) or free ([inr]). *)
Fixpoint pick_slot (leaf : LeafNode) (seed : Z) (i n : nat) : option (nat + nat) :=
  match n with
  | O => None
  | S n' =>
      let index := slot_index seed i in
      let block := default 0 (kv_blocks leaf !! index) in
      if isLocked block then Some (inl index)
      else if isFree block then Some (inr index)
      else pick_slot leaf seed (S i) n'
  end.

Definition record_cache_access (cached_entry : option Ent) : M World unit :=
  match cached_entry with Some _ => stats record_cache_hit | None => stats record_cache_miss end.

(** The first candidate with the key, with its slot. *)
Definition find_existing (key : Z) (candidates : list (nat * KVItem)) : option nat :=
  fst <$> head (filter (λ c, item_key c.2 = key) candidates).

Definition in_fence (key : Z) (h : Header) : bool := (fence_first h <=? key) && (key <? fence_second h).

(** The loop variables of [insert]. *)
Record insert_state := mkIS {
  is_attempt : Z;
  is_wrote_kvitem : bool;
  is_leaf_read : bool;
  is_leaf : LeafNode;
  is_leaf_address : GlobalAddress;
  is_cached_entry : option Ent
}.

(** The part of an attempt that finds and reads the leaf: [None] is a
    [continue]. *)
Definition insert_locate (key : Z) (kvitem : KVItem) (kvitem_address : GlobalAddress)
    (st : insert_state) : M World (insert_state * bool) :=
  _ ← (if 0 <? is_attempt st then
         _ ← stats record_retry; invalidate_cache (is_cached_entry st)
       else mret tt);
  f ← find_node key 0 false (is_attempt st =? 0);
  let '(find_result, leaf_addr, cached_entry) := f in
  _ ← assert_ (bool_decide (find_result ≠ UNKNOWN) && bool_decide (find_result ≠ NO_SUCH_LEVEL));
  if bool_decide (find_result ≠ FOUND) then
    mret (mkIS (is_attempt st) (is_wrote_kvitem st) false (is_leaf st) leaf_addr cached_entry, false)
  else
    r ← perform_all (mkOp leaf_addr (op_read true (Z.of_nat sizeof_LeafNode)) ::
           (if is_wrote_kvitem st then [] else [write_op kvitem_address (enc_KVItem kvitem)]));
    _ ← assert_ r.1;
    let leaf := dec_LeafNode (out_data (r.2 !! 0%nat)) in
    _ ← assert_ (level (lheader leaf) =? 0);
    mret (mkIS (is_attempt st) true false leaf leaf_addr cached_entry,
          (lock (lheader leaf) =? 0) && in_fence key (lheader leaf)).

(** The part of an attempt after a successful compare-and-swap. *)
Definition insert_finish (key : Z) (leaf_addr : GlobalAddress) (leaf : LeafNode)
    (cached_entry : option Ent) : M World bool :=
  let h := lheader leaf in
  if negb (lock h =? 0) || negb (in_fence key h) then
    _ ← record_cache_access cached_entry; mret true
  else if (split_threshold <? num_used leaf)%nat then
    success ← (if FAUNUS_MAINTENANCE_ENABLED then request_smo SPLIT leaf_addr
               else _ ← split_leaf leaf_addr; mret true);
    _ ← assert_ success;
    _ ← record_cache_access cached_entry; mret true
  else
    _ ← handle_local_remove_dupes key leaf_addr leaf 0 true false false;
    _ ← record_cache_access cached_entry; mret true.

Definition insert_attempt (key : Z) (kvitem : KVItem) (kvitem_address : GlobalAddress)
    (kvb : KVBlock) (st : insert_state) : M World (insert_state + bool) :=
  l ← (if is_leaf_read st then mret (st, true) else insert_locate key kvitem kvitem_address st);
  let '(st, go_on) := l in
  let next leaf leaf_read :=
    mkIS (is_attempt st + 1) (is_wrote_kvitem st) leaf_read leaf (is_leaf_address st) (is_cached_entry st) in
  let leaf := is_leaf st in
  if negb go_on then mret (inl (next leaf false))
  else
    c ← get_candidate_kvs leaf (Fingerprint key) false false;
    if negb c.1 then mret (inl (next leaf false))
    else match find_existing key c.2 with
    | Some index =>
        success ← try_update_kvblock (kvblock_address (is_leaf_address st) index)
                    (default 0 (kv_blocks leaf !! index)) kvb;
        _ ← record_cache_access (is_cached_entry st);
        mret (inr success)
    | None =>
        w ← get;
        let seed := mix64 (Z.lxor (w_tid_hash w) (is_attempt st)) in
        match pick_slot leaf seed 0 branch_factor with
        | None | Some (inl _) => mret (inl (next leaf false))
        | Some (inr index) =>
            let expected := default 0 (kv_blocks leaf !! index) in
            r ← perform_all [mkOp (kvblock_address (is_leaf_address st) index) (op_cas expected kvb);
                             mkOp (is_leaf_address st) (op_read true (Z.of_nat sizeof_LeafNode))];
            _ ← assert_ r.1;
            let success := match r.2 !! 0%nat with
                           | Some o => expected_after expected o =? expected | None => true end in
            let leaf := dec_LeafNode (out_data (r.2 !! 1%nat)) in
            let leaf_read := (lock (lheader leaf) =? 0) && in_fence key (lheader leaf) in
            if negb success then mret (inl (next leaf leaf_read))
            else
              b ← insert_finish key (is_leaf_address st) leaf (is_cached_entry st);
              mret (inr b)
        end
    end.

Definition insert (key value : Z) : M World bool :=
  let fp := Fingerprint key in
  kvitem_address ← allocate sizeof_KVItem;
  let kvb := KVBlock_make fp kvitem_address false false in
  r ← loop MAX_ATTEMPTS (insert_attempt key (mkItem key value) kvitem_address kvb)
        (mkIS 0 false false LeafNode_init Null None);
  match r with inl _ => raise AssertFailed | inr b => mret b end.
End index.

Arguments World : clear implicits.
Arguments mkWorld {Q C}.

(** ** A concrete cache: the list of its entries, numbered, newest first *)

Definition list_cache (Item : Type) : Type := list (nat * (Z * Z * Item)).

Definition covers {Item} (k : Z) (x : nat * (Z * Z * Item)) : bool :=
  let '(_, (s, e, _)) := x in (s <=? k) && (k <? e).

#[global] Instance list_cache_ops {Item} : NodeCache (list_cache Item) nat Item.
Proof.
  refine {| cache_search := λ k c, (match List.find (covers k) c with
                                    | Some (n, (_, _, i)) => Some (n, i) | None => None end, c);
            cache_add := λ s e i c, (length c, (s, e, i)) :: c;
            cache_invalidate := λ n c, List.filter (λ x, negb (fst x =? n)%nat) c;
            cached := λ c x, ∃ n, (n, x) ∈ c |}.
  - intros c k e i c'. destruct (List.find (covers k) c) as [[n [[s t] i']]|] eqn:E; [|done].
    intros H. simplify_eq. apply find_some in E as [Hin Hc]. simpl in Hc. bool_hyps.
    exists s, t. split; [|lia]. exists e. by apply list_elem_of_In.
  - intros c k r c' x H. by simplify_eq.
  - intros c s e i x [n Hn]. apply elem_of_cons in Hn as [Hn|Hn]; [right|left; by exists n].
    by simplify_eq.
  - intros c e x [n Hn]. exists n. apply list_elem_of_In in Hn. apply filter_In in Hn as [Hn _].
    by apply list_elem_of_In.
Defined.

(** [std::set<size_t>::insert] on the sorted contents. *)
Fixpoint set_put (x : Z) (l : list Z) : list Z :=
  match l with
  | [] => [x]
  | y :: l' => if x <? y then x :: l else if y <? x then y :: set_put x l' else l
  end.

Definition get_required_sizes {cfg : FaunusConfig} : list Z :=
  fold_left (λ l n, set_put (Z.of_nat n) l)
    [8; VALUE_SIZE; sizeof_LeafNode; sizeof_InternalNode; sizeof_KVItem]%nat [].

(** A compute server with fresh slabs for every size the index asks for, on
    [num_ms] servers of [mem] bytes, with no other thread running. *)
Definition world_init {cfg : FaunusConfig} {Q} `{!ConcurrentQueue Q} {C} (num_ms mem : nat)
    (slabs_per_size : Z) (cache : option C) (rnd : nat → Z) (tracker : option ThreadStatsTracker) :
    option (World Q C) :=
  match local_init get_required_sizes slabs_per_size (∅, cluster_init num_ms mem) with
  | Done _ (slabs, c) =>
      Some (mkWorld (mkNet (set_thread_stats_tracker tracker (manager_init 1000 (λ n, Z.of_nat n))) c 0 [])
              slabs (rnd, 0%nat) Null cache [] 12345)
  | Fault _ _ => None
  end.
