(* ===== verification/FaunusTree.v ===== *)
(** * The Faunus tree in remote memory

    [stored c l lo hi t] says that the memories of the cluster [c] hold the tree
    [t] of height [l] for the keys from [lo] up to [hi]: every node is encoded at
    its address, unlocked, with the level and the fences of its position, routes
    to its children, and the items of the leaves are where the slots point to.  The
    abstract state of the index is [contents t], the finite map of its items.
    [stored_check] decides the predicate on a concrete memory, so that the states
    the code itself reaches can be shown to satisfy it by evaluation. *)

From S2P Require Import Prelude GlobalAddress RdmaSim ThreadStats Queue MemoryServer Slab RdmaManager KVBlock FaunusNode FaunusIndex.

Section tree.
Context {cfg : FaunusConfig}.
Context {Q : Type → Type} `{!ConcurrentQueue Q}.

(** ** Bytes in remote memory *)

(** The region that holds address [a], when [n] bytes fit from there on. *)
Definition region_at (c : Cluster Q) (a : GlobalAddress) (n : nat) (m : memory) : Prop :=
  ∃ s, servers_ c !! Z.to_nat (server_index a) = Some s ∧ rdma_ s = m ∧ mem_ok m ∧
       0 ≤ offset a ∧ offset a + Z.of_nat n ≤ memory_size m.

Definition readable (c : Cluster Q) (a : GlobalAddress) (n : nat) : Prop := ∃ m, region_at c a n m.

Definition holds (c : Cluster Q) (a : GlobalAddress) (l : list Z) : Prop :=
  ∃ m, region_at c a (length l) m ∧ slice (Z.to_nat (offset a)) (length l) m = l.

(** ** Trees *)

#[warnings="-register-all"]
Inductive tree :=
  | TLeaf (a : GlobalAddress) (leaf : LeafNode) (items : list KVItem)
  | TNode (a : GlobalAddress) (n : InternalNode) (ts : list tree).

Definition addr_of (t : tree) : GlobalAddress :=
  match t with TLeaf a _ _ | TNode a _ _ => a end.

Fixpoint items_of (t : tree) : list KVItem :=
  match t with
  | TLeaf _ _ items => items
  | TNode _ _ ts => concat (map items_of ts)
  end.

(** The addresses of the leaves, from left to right. *)
Fixpoint leaf_addrs (t : tree) : list GlobalAddress :=
  match t with
  | TLeaf a _ _ => [a]
  | TNode _ _ ts => concat (map leaf_addrs ts)
  end.

(** The abstract state: the finite map of the items. *)
Definition pairs (l : list KVItem) : list (Z * Z) := map (λ kv, (item_key kv, item_value kv)) l.
Definition contents (t : tree) : gmap Z Z := list_to_map (pairs (items_of t)).

(** A slot points to an item with its fingerprint. *)
Definition item_at (c : Cluster Q) (b : KVBlock) (kv : KVItem) : Prop :=
  holds c (getAddr b) (enc_KVItem kv) ∧ item_ok kv ∧ getFingerprint b = Fingerprint (item_key kv).

(** The bounds of the children: [lo], the separators, [hi]. *)
Definition bounds (lo hi : Z) (n : InternalNode) : list Z := lo :: seps n ++ [hi].

(** The keys of the entries that are no separators: [has_key] compares with the
    first of them too, and later insertions make the next one the first. *)
Definition spare_ok (lo hi : Z) (n : InternalNode) : Prop :=
  Forall (λ k, k ≤ lo ∨ hi ≤ k) (drop (last_nat n) (map ekey (entries n))).

Inductive stored (c : Cluster Q) : nat → Z → Z → tree → Prop :=
  | stored_leaf a leaf items lo hi li :
      holds c a (enc_LeafNode leaf) → leaf_ok leaf →
      lheader leaf = mkHeader 0 0 lo hi li →
      Forall2 (item_at c) (live leaf) items →
      Forall (λ b, isLocked b = false) (kv_blocks leaf) →
      NoDup (map item_key items) → Forall (λ kv, lo ≤ item_key kv < hi) items →
      stored c 0 lo hi (TLeaf a leaf items)
  | stored_node a n ts l lo hi :
      holds c a (enc_InternalNode n) → node_ok n → node_sorted n →
      lock (iheader n) = 0 → level (iheader n) = Z.of_nat (S l) →
      fence_first (iheader n) = lo → fence_second (iheader n) = hi →
      pairwise Z.le (bounds lo hi n) → spare_ok lo hi n → kids n = map addr_of ts → a ∉ kids n →
      (∀ i t b b', ts !! i = Some t → bounds lo hi n !! i = Some b →
                   bounds lo hi n !! S i = Some b' → stored c l b b' t) →
      stored c (S l) lo hi (TNode a n ts).

(** The subtree [n] levels down on the path of [key]. *)
Fixpoint descend (n : nat) (key : Z) (t : tree) : option tree :=
  match n, t with
  | O, _ => Some t
  | S n', TNode _ nd ts => match ts !! rank (seps nd) key with Some t' => descend n' key t' | None => None end
  | S _, TLeaf _ _ _ => None
  end.

(** ** Routing and contents *)

Lemma pairwise_le_lookup l : ∀ i j x y, pairwise Z.le l → (i ≤ j)%nat →
  l !! i = Some x → l !! j = Some y → x ≤ y.
Proof.
  induction l as [|z l IH]; intros i j x y Hp Hij Hi Hj; [done|]. destruct Hp as [Hz Hp].
  destruct i as [|i], j as [|j]; simpl in *; simplify_eq; try lia.
  - rewrite Forall_lookup in Hz. by eapply Hz.
  - by eapply (IH i j); [|lia|..].
Qed.

(** The child of a key has bounds around it. *)
Lemma rank_bounds lo hi ks key :
  lo ≤ key < hi →
  ∃ b b', (lo :: ks ++ [hi]) !! rank ks key = Some b ∧ (lo :: ks ++ [hi]) !! S (rank ks key) = Some b' ∧
          b ≤ key < b'.
Proof.
  revert lo. induction ks as [|k ks IH]; intros lo Hk; simpl.
  - exists lo, hi. split; [done|]. by split.
  - destruct (Z.ltb_spec key k) as [Hlt|Hge].
    + exists lo, k. split; [done|]. split; [done|lia].
    + destruct (IH k) as (b & b' & H1 & H2 & H3); [lia|]. exists b, b'. split; [done|]. by split.
Qed.

(** Items in ranges: only the range of a key can contain it. *)
Definition in_ranges (bs : list Z) (lss : list (list KVItem)) : Prop :=
  ∀ i l b b', lss !! i = Some l → bs !! i = Some b → bs !! S i = Some b' → ∀ kv, kv ∈ l → b ≤ item_key kv < b'.

Lemma ranges_covered bs lss lo hi kv :
  pairwise Z.le bs → length bs = S (length lss) → in_ranges bs lss → bs !! 0%nat = Some lo → bs !! length lss = Some hi →
  kv ∈ concat lss → lo ≤ item_key kv < hi.
Proof.
  intros Hb Hlen Hr Hlo Hhi Hkv. apply list_elem_of_In, in_concat in Hkv as (l & Hl & Hkv).
  apply list_elem_of_In in Hl, Hkv. apply list_elem_of_lookup in Hl as [i Hi]. pose proof (lookup_lt_Some _ _ _ Hi) as Hilt.
  destruct (lookup_lt_is_Some_2 bs i) as [b Hb1]; [lia|]. destruct (lookup_lt_is_Some_2 bs (S i)) as [b' Hb2]; [lia|].
  specialize (Hr i l b b' Hi Hb1 Hb2 kv Hkv).
  pose proof (pairwise_le_lookup _ 0 i lo b Hb ltac:(lia) Hlo Hb1).
  pose proof (pairwise_le_lookup _ (S i) (length lss) b' hi Hb ltac:(lia) Hb2 Hhi). lia.
Qed.

Lemma ranges_lookup bs lss i l b b' key :
  pairwise Z.le bs → length bs = S (length lss) → in_ranges bs lss →
  lss !! i = Some l → bs !! i = Some b → bs !! S i = Some b' → b ≤ key < b' →
  (list_to_map (pairs (concat lss)) : gmap Z Z) !! key = (list_to_map (pairs l) : gmap Z Z) !! key.
Proof.
  intros Hb Hlen Hr Hi Hb1 Hb2 Hkey.
  assert (∀ lss', (∀ l', l' ∈ lss' → ∃ j, lss !! j = Some l' ∧ j ≠ i) →
    (list_to_map (pairs (concat lss')) : gmap Z Z) !! key = None) as Hnone.
  { intros lss' Hin. apply not_elem_of_list_to_map. intros ([k v] & Hkk & Hx)%list_elem_of_fmap. simpl in Hkk. subst k.
    apply list_elem_of_fmap in Hx as (kv & Hkv & Hx). simplify_eq.
    apply list_elem_of_In, in_concat in Hx as (l' & Hl' & Hx). apply list_elem_of_In in Hl', Hx.
    destruct (Hin l' Hl') as (j & Hj & Hne). pose proof (lookup_lt_Some _ _ _ Hj) as Hjlt.
    destruct (lookup_lt_is_Some_2 bs j) as [d Hd1]; [lia|]. destruct (lookup_lt_is_Some_2 bs (S j)) as [d' Hd2]; [lia|].
    pose proof (Hr j l' d d' Hj Hd1 Hd2 kv Hx). destruct (decide (j < i)%nat).
    - pose proof (pairwise_le_lookup _ (S j) i d' b Hb ltac:(lia) Hd2 Hb1). lia.
    - pose proof (pairwise_le_lookup _ (S i) j b' d Hb ltac:(lia) Hb2 Hd1). lia. }
  assert (concat lss = concat (take i lss) ++ l ++ concat (drop (S i) lss)) as ->.
  { rewrite <-(take_drop_middle lss i l Hi) at 1. by rewrite concat_app. }
  unfold pairs. rewrite !map_app, !list_to_map_app.
  rewrite lookup_union_r, lookup_union_l; [done| |]; apply Hnone; intros l' [j Hj]%list_elem_of_lookup.
  - rewrite lookup_drop in Hj. eexists. split; [exact Hj|lia].
  - pose proof (lookup_lt_Some _ _ _ Hj) as Hlt. rewrite length_take in Hlt. rewrite lookup_take_lt in Hj by lia.
    exists j. split; [done|lia].
Qed.

Lemma pairs_contents_perm its1 its2 : its1 ≡ₚ its2 → NoDup (map item_key its1) → (list_to_map (pairs its1) : gmap Z Z) = list_to_map (pairs its2).
Proof.
  intros Hp Hnd. apply list_to_map_proper; [|unfold pairs; by rewrite Hp]. unfold pairs. change (map ?f ?l).*1 with (map fst (map f l)).
  by rewrite map_map.
Qed.

Lemma length_bounds lo hi n : length (bounds lo hi n) = S (S (length (seps n))).
Proof. unfold bounds. simpl. rewrite length_app. simpl. lia. Qed.
Lemma bounds_last lo hi n : bounds lo hi n !! S (length (seps n)) = Some hi.
Proof. unfold bounds. simpl. by rewrite lookup_app_r, Nat.sub_diag by lia. Qed.

Lemma stored_kids c l lo hi a n ts : stored c (S l) lo hi (TNode a n ts) → length ts = S (length (seps n)).
Proof.
  inversion 1 as [|? ? ? ? ? ? _ _ (Hsl & _) _ _ _ _ _ _ Hk]; subst. by rewrite <-(length_map addr_of), <-Hk, length_kids, length_seps by done.
Qed.

Lemma stored_items c l lo hi t :
  stored c l lo hi t → ∀ kv, kv ∈ items_of t → lo ≤ item_key kv < hi.
Proof.
  intros Hst. induction Hst as [a leaf items lo hi li _ _ _ _ _ _ Hr
                              |a n ts l lo hi Hh Hok Hs Hlk Hlv Hf1 Hf2 Hb Hsp Hk Hna Hts IH]; intros kv Hkv.
  - rewrite list.Forall_forall in Hr. by apply Hr.
  - assert (length ts = S (length (seps n))) as Hlen by (eapply stored_kids; by eapply stored_node).
    eapply (ranges_covered (bounds lo hi n) (map items_of ts)); try done.
    + by rewrite length_bounds, length_map, Hlen.
    + intros i l' b b' Hi Hb1 Hb2 kv' Hkv'. rewrite list_lookup_fmap in Hi. apply fmap_Some in Hi as (t & Ht & ->).
      by eapply IH.
    + rewrite length_map, Hlen. apply bounds_last.
Qed.

(** Only the child of the key can contain it. *)
Lemma contents_child c l lo hi a n ts key t' :
  stored c (S l) lo hi (TNode a n ts) → lo ≤ key < hi → ts !! rank (seps n) key = Some t' →
  contents (TNode a n ts) !! key = contents t' !! key ∧
  ∃ b b', stored c l b b' t' ∧ b ≤ key < b'.
Proof.
  intros Hst Hkey Ht'. pose proof (stored_kids _ _ _ _ _ _ _ Hst) as Hlen.
  inversion Hst as [|? ? ? ? ? ? Hh Hok Hs Hlk Hlv Hf1 Hf2 Hb Hsp Hk Hna Hts]; subst.
  destruct (rank_bounds _ _ (seps n) key Hkey) as (b & b' & Hb1 & Hb2 & Hbk).
  split; [|exists b, b'; split; [by eapply Hts|done]]. unfold contents. cbn [items_of].
  eapply (ranges_lookup (bounds _ _ n) (map items_of ts)); [done| | |by rewrite list_lookup_fmap, Ht'|done|done|done].
  - by rewrite length_bounds, length_map, Hlen.
  - intros i l' d d' Hi Hd1 Hd2 kv' Hkv'. rewrite list_lookup_fmap in Hi. apply fmap_Some in Hi as (t & Ht & ->).
    eapply stored_items; [by eapply Hts|done].
Qed.

Lemma descend_stored c key n : ∀ l lo hi t,
  stored c l lo hi t → lo ≤ key < hi → (n ≤ l)%nat →
  ∃ t' lo' hi', descend n key t = Some t' ∧ stored c (l - n) lo' hi' t' ∧ lo' ≤ key < hi' ∧
    contents t !! key = contents t' !! key.
Proof.
  induction n as [|n IH]; intros l lo hi t Hst Hkey Hn.
  { exists t, lo, hi. rewrite Nat.sub_0_r. done. }
  destruct l as [|l]; [lia|]. destruct t as [|a nd ts]; [inversion Hst|].
  assert (∃ t1, ts !! rank (seps nd) key = Some t1) as [t1 Ht1].
  { inversion Hst as [|? ? ? ? ? ? Hh Hok Hs Hlk Hlv Hf1 Hf2 Hb Hsp Hk Hna Hts]; subst.
    apply lookup_lt_is_Some_2. rewrite <-(length_map addr_of), <-Hk, length_kids by apply Hs.
    pose proof (rank_le (seps nd) key) as Hr. rewrite length_seps in Hr by apply Hs. lia. }
  destruct (contents_child c l lo hi a nd ts key t1 Hst Hkey Ht1) as (Hc & b & b' & Hst1 & Hb).
  destruct (IH l b b' t1 Hst1 Hb ltac:(lia)) as (t' & lo' & hi' & Hd & Hst' & Hk' & Hc').
  exists t', lo', hi'. simpl. rewrite Ht1. split_and!; [done|done|lia|lia|congruence].
Qed.
End tree.

(** ** The index of a compute server *)

Section index.
Context {cfg : FaunusConfig}.
Context {Q : Type → Type} `{!ConcurrentQueue Q}.
Context {C : Type}.

Definition cl (w : World Q C) : Cluster Q := cluster (w_net w).

(** The index of [w] is the tree [t] of height [l]. *)
Record index_ok (w : World Q C) (l : nat) (t : tree) : Prop := mkIndexOk {
  ix_others : others (w_net w) = [];
  ix_root : holds (cl w) (root_offset_pointer_ w) (le_bytes 8 (addr_of t));
  ix_root_ok : ga_ok (addr_of t);
  ix_tree : stored (cl w) l key_min key_max t;
  ix_level : Z.of_nat l < 2 ^ 64;
  (* the traversal reads the root as an internal node, also when it is a leaf *)
  ix_readable : readable (cl w) (addr_of t) sizeof_InternalNode
}.
End index.

(** ** Deciding the predicates on a concrete memory *)

#[export] Instance Header_eq_dec : EqDecision Header.
Proof. solve_decision. Defined.
#[export] Instance in_width_dec w z : Decision (in_width w z).
Proof. unfold in_width. apply _. Defined.
#[export] Instance pairwise_dec {A} (R : A → A → Prop) `{∀ x y, Decision (R x y)} l : Decision (pairwise R l).
Proof. induction l; simpl; apply _. Defined.

Section check.
Context {cfg : FaunusConfig}.
Context {Q : Type → Type} `{!ConcurrentQueue Q}.

#[export] Instance header_ok_dec h : Decision (header_ok h).
Proof. unfold header_ok, key_ok. apply _. Defined.
#[export] Instance leaf_ok_dec n : Decision (leaf_ok n).
Proof. unfold leaf_ok. apply _. Defined.
#[export] Instance entry_ok_dec e : Decision (entry_ok e).
Proof. unfold entry_ok, key_ok, ga_ok. apply _. Defined.
#[export] Instance node_ok_dec n : Decision (node_ok n).
Proof. unfold node_ok. apply _. Defined.
#[export] Instance item_ok_dec kv : Decision (item_ok kv).
Proof. unfold item_ok, key_ok. apply _. Defined.
#[export] Instance node_sorted_dec n : Decision (node_sorted n).
Proof. unfold node_sorted, sorted. apply _. Defined.
#[export] Instance spare_ok_dec lo hi n : Decision (spare_ok lo hi n).
Proof. unfold spare_ok. apply _. Defined.

Definition region_of (c : Cluster Q) (a : GlobalAddress) : memory :=
  match servers_ c !! Z.to_nat (server_index a) with Some s => rdma_ s | None => [] end.

(** The [n] bytes at [a] can be read and start with [l]. *)
Definition holds_check (c : Cluster Q) (a : GlobalAddress) (n : nat) (l : list Z) : bool :=
  match servers_ c !! Z.to_nat (server_index a) with
  | None => false
  | Some s => forallb (λ b, (0 <=? b) && (b <? 256)) (rdma_ s) && (memory_size (rdma_ s) <? 2 ^ 62) &&
              (0 <=? offset a) && (offset a + Z.of_nat n <=? memory_size (rdma_ s)) &&
              bool_decide (slice (Z.to_nat (offset a)) (length l) (rdma_ s) = l)
  end.

Lemma mem_ok_check m :
  forallb (λ b, (0 <=? b) && (b <? 256)) m && (memory_size m <? 2 ^ 62) = true → mem_ok m.
Proof.
  intros [H1 H2]%andb_true_iff. split; [|by apply Z.ltb_lt].
  apply list.Forall_forall. intros b Hb. rewrite forallb_forall in H1.
  specialize (H1 b (proj1 (list_elem_of_In _ _) Hb)). bool_hyps. unfold byte_ok, in_width. lia.
Qed.

Lemma holds_check_region (c : Cluster Q) a n l :
  holds_check c a n l = true → ∃ m, region_at c a n m ∧ slice (Z.to_nat (offset a)) (length l) m = l.
Proof.
  unfold holds_check. destruct (servers_ c !! _) as [s|] eqn:E; [|done].
  rewrite !andb_true_iff. intros ((((Hm & Hs) & H1) & H2) & H3%bool_decide_eq_true_1).
  exists (rdma_ s). split; [|done]. exists s.
  split; [done|]. split; [done|]. split; [apply mem_ok_check; by rewrite Hm, Hs|]. bool_hyps. by split.
Qed.

Lemma holds_check_holds (c : Cluster Q) a l : holds_check c a (length l) l = true → holds c a l.
Proof. intros (m & Hm)%holds_check_region. by exists m. Qed.

Definition item_check (c : Cluster Q) (b : KVBlock) (kv : KVItem) : bool :=
  holds_check c (getAddr b) (length (enc_KVItem kv)) (enc_KVItem kv) && bool_decide (item_ok kv) &&
  (getFingerprint b =? Fingerprint (item_key kv)).

Fixpoint items_check (c : Cluster Q) (bs : list KVBlock) (items : list KVItem) : bool :=
  match bs, items with
  | [], [] => true
  | b :: bs', kv :: items' => item_check c b kv && items_check c bs' items'
  | _, _ => false
  end.

Definition leaf_check (c : Cluster Q) (lo hi : Z) (a : GlobalAddress) (leaf : LeafNode) (items : list KVItem) : bool :=
  holds_check c a (length (enc_LeafNode leaf)) (enc_LeafNode leaf) &&
  bool_decide (leaf_ok leaf) &&
  bool_decide (lheader leaf = mkHeader 0 0 lo hi (last_index (lheader leaf))) &&
  items_check c (live leaf) items &&
  bool_decide (Forall (λ b, isLocked b = false) (kv_blocks leaf)) &&
  bool_decide (NoDup (map item_key items)) &&
  bool_decide (Forall (λ kv, lo ≤ item_key kv < hi) items).

Definition node_check (c : Cluster Q) (l : nat) (lo hi : Z) (a : GlobalAddress) (n : InternalNode) (ts : list tree) : bool :=
  holds_check c a (length (enc_InternalNode n)) (enc_InternalNode n) &&
  bool_decide (node_ok n) && bool_decide (node_sorted n) &&
  (lock (iheader n) =? 0) && (level (iheader n) =? Z.of_nat (S l)) &&
  (fence_first (iheader n) =? lo) && (fence_second (iheader n) =? hi) &&
  bool_decide (pairwise Z.le (bounds lo hi n)) && bool_decide (spare_ok lo hi n) && bool_decide (kids n = map addr_of ts) &&
  bool_decide (a ∉ kids n).

Fixpoint stored_check (c : Cluster Q) (l : nat) (lo hi : Z) (t : tree) : bool :=
  match l, t with
  | O, TLeaf a leaf items => leaf_check c lo hi a leaf items
  | S l', TNode a n ts =>
      node_check c l' lo hi a n ts &&
      forallb (λ x, stored_check c l' x.1.1 x.1.2 x.2)
        (zip (zip (bounds lo hi n) (tail (bounds lo hi n))) ts)
  | _, _ => false
  end.

Lemma items_check_sound c bs items : items_check c bs items = true → Forall2 (item_at c) bs items.
Proof.
  revert items. induction bs as [|b bs IH]; intros [|kv items]; simpl; try done.
  unfold item_check. rewrite !andb_true_iff. intros (((Hh & Hok) & Hfp) & Hrest).
  constructor; [|by apply IH].
  split; [by apply holds_check_holds|]. split; [by eapply bool_decide_eq_true_1|by apply Z.eqb_eq].
Qed.

Lemma leaf_check_sound c lo hi a leaf items :
  leaf_check c lo hi a leaf items = true → stored c 0 lo hi (TLeaf a leaf items).
Proof.
  unfold leaf_check. rewrite !andb_true_iff, !bool_decide_eq_true.
  intros ((((((Hh & Hok) & Hhd) & Hit) & Hlk) & Hnd) & Hrg).
  eapply stored_leaf; eauto using holds_check_holds, items_check_sound.
Qed.

Lemma stored_check_sound c : ∀ l lo hi t, stored_check c l lo hi t = true → stored c l lo hi t.
Proof.
  induction l as [|l IH]; intros lo hi [a leaf items|a n ts]; cbn [stored_check]; try done.
  - apply leaf_check_sound.
  - unfold node_check. rewrite !andb_true_iff, !bool_decide_eq_true, !Z.eqb_eq, forallb_forall.
    intros (((((((((((Hh & Hok) & Hs) & Hlk) & Hlv) & Hf1) & Hf2) & Hb) & Hsp) & Hk) & Hna) & Hts).
    apply stored_node; auto using holds_check_holds.
    intros i t b b' Hi Hb1 Hb2. apply IH. apply (Hts (b, b', t)), list_elem_of_In, list_elem_of_lookup.
    exists i. rewrite !lookup_zip_with, lookup_tail, Hb1, Hb2, Hi. done.
Qed.

(** The tree of an index, read out of the memories. *)
Fixpoint load_tree (fuel : nat) (c : Cluster Q) (a : GlobalAddress) : option tree :=
  match fuel with
  | O => None
  | S fuel' =>
      let leaf := dec_LeafNode (slice (Z.to_nat (offset a)) sizeof_LeafNode (region_of c a)) in
      if level (dec_Header (slice (Z.to_nat (offset a)) sizeof_Header (region_of c a))) =? 0
      then Some (TLeaf a leaf (map (λ b, dec_KVItem (slice (Z.to_nat (offset (getAddr b))) sizeof_KVItem
                                                       (region_of c (getAddr b)))) (live leaf)))
      else
        let n := dec_InternalNode (slice (Z.to_nat (offset a)) sizeof_InternalNode (region_of c a)) in
        ts ← mapM (load_tree fuel' c) (kids n); Some (TNode a n ts)
  end.

(** The index of [w] is a tree of height [l], as a computation. *)
Definition index_check {C} (w : World Q C) (l : nat) (t : tree) : bool :=
  match others (w_net w) with [] => true | _ => false end &&
  holds_check (cl w) (root_offset_pointer_ w) (length (le_bytes 8 (addr_of t))) (le_bytes 8 (addr_of t)) &&
  bool_decide (in_width 50 (addr_of t)) && stored_check (cl w) l key_min key_max t && (Z.of_nat l <? 2 ^ 64) &&
  holds_check (cl w) (addr_of t) sizeof_InternalNode [].

Lemma index_check_sound {C} (w : World Q C) l t : index_check w l t = true → index_ok w l t.
Proof.
  unfold index_check. rewrite !andb_true_iff, bool_decide_eq_true. intros (((((Ho & Hr) & Hg) & Ht) & Hl%Z.ltb_lt) & Hrd).
  split; [by destruct (others _)|by apply holds_check_holds|done|by apply stored_check_sound|done|].
  destruct (holds_check_region _ _ _ _ Hrd) as (m & Hm & _). by exists m.
Qed.
End check.

(** ** A concrete index: two servers, eight keys inserted by the code itself *)

Abbreviation demo_cache := (list_cache (GlobalAddress * InternalNode)) (only parsing).

Definition demo_keys : list (Z * Z) :=
  [(5, 50); (7, 70); (3, 30); (11, 110); (1, 10); (9, 90); (13, 130); (5, 55)].

Definition demo_world : option (World fifo demo_cache) :=
  match world_init (cfg := demo_cfg) 2 1024 4 None (λ n, Z.of_nat (7 * n + 3)) (Some (tracker_init stats_init Read)) with
  | None => None
  | Some w =>
      match (_ ← initialize (cfg := demo_cfg) 0;
             for_each demo_keys (λ kv, _ ← insert (cfg := demo_cfg) 20 5 77 0 kv.1 kv.2; mret tt)) w with
      | Done _ w' => Some w'
      | Fault _ _ => None
      end
  end.

(** The index the code reaches is a tree of height one with the inserted items. *)
Lemma demo_index :
  ∃ w t, demo_world = Some w ∧ index_ok (cfg := demo_cfg) w 1 t ∧ faunus_cache_ w = None ∧
         contents t !! 5 = Some 55 ∧ contents t !! 4 = None.
Proof.
  assert (match demo_world with
          | Some w =>
              match load_tree (cfg := demo_cfg) 3 (cl w)
                      (le_val (slice (Z.to_nat (offset (root_offset_pointer_ w))) 8 (region_of (cl w) (root_offset_pointer_ w)))) with
              | Some t => index_check (cfg := demo_cfg) w 1 t && bool_decide (contents t !! 5 = Some 55) &&
                          bool_decide (contents t !! 4 = None) &&
                          match faunus_cache_ w with None => true | Some _ => false end
              | None => false
              end
          | None => false
          end = true) as H by (vm_compute; reflexivity).
  destruct demo_world as [w|]; [|done]. destruct (load_tree _ _ _) as [t|]; [|done].
  rewrite !andb_true_iff, !bool_decide_eq_true in H. destruct H as (((H1 & H2) & H3) & H4).
  exists w, t. split; [done|]. split; [by apply index_check_sound|].
  split; [by destruct (faunus_cache_ w)|done].
Qed.
