(* ===== verification/FaunusRead.v ===== *)
(** * What find_node and read do on a stored tree

    Sequential runs of the traversal and of the read handler of
    src/kv_index/faunus_index.cpp on an index that holds a tree
    ([FaunusTree]): a thread that runs alone and has no cache. *)

From S2P Require Import Prelude GlobalAddress RdmaSim ThreadStats Queue MemoryServer Slab RdmaManager KVBlock FaunusNode FaunusIndex FaunusTree.

(** ** Sequential runs *)

Section runs.
Context {cfg : FaunusConfig}.
Context {Q : Type → Type} `{!ConcurrentQueue Q}.
Context {C Ent : Type} `{!NodeCache C Ent (GlobalAddress * InternalNode)}.
Implicit Types w : World Q C.

(** [w'] is [w] after operations that change only the manager's bookkeeping. *)
Record quiet (w w' : World Q C) : Prop := mkQuiet {
  q_cluster : cluster (w_net w') = cluster (w_net w);
  q_tid : tid (w_net w') = tid (w_net w);
  q_others : others (w_net w') = others (w_net w);
  q_tracked : tracked (mgr (w_net w')) = tracked (mgr (w_net w));
  q_slabs : w_slabs w' = w_slabs w;
  q_rand : w_rand w' = w_rand w;
  q_root : root_offset_pointer_ w' = root_offset_pointer_ w;
  q_cache : faunus_cache_ w' = faunus_cache_ w;
  q_queues : maintenance_queues w' = maintenance_queues w;
  q_hash : w_tid_hash w' = w_tid_hash w
}.

#[global] Instance quiet_preorder : PreOrder quiet.
Proof.
  split.
  - intros w. by split.
  - intros w1 w2 w3 [] []. split; congruence.
Qed.

Lemma on_net_done {A} (m : M (Net Q) A) w a g :
  m (w_net w) = Done a (mkNet g (cl w) (tid (w_net w)) []) → others (w_net w) = [] →
  tracked g = tracked (mgr (w_net w)) →
  ∃ w', on_net (C := C) m w = Done a w' ∧ quiet w w'.
Proof.
  intros H Ho Ht. unfold on_net, zoom. rewrite H. eexists. split; [reflexivity|]. by split.
Qed.

Lemma stats_if_run f w : ∃ w', stats_if (C := C) f w = Done tt w' ∧ quiet w w'.
Proof.
  destruct (on_tracker_total f (mgr (w_net w))) as ([] & g & Hg & Hgt).
  unfold stats_if, on_net, on_mgr, zoom. rewrite Hg. eexists. split; [reflexivity|]. by split.
Qed.

(** A READ inside a region returns its bytes and changes nothing. *)
Lemma read_verb a n m : mem_ok m → 0 ≤ a → a + Z.of_nat n ≤ memory_size m →
  rdma_verb (mkOp a (op_read true (Z.of_nat n))) m = Done (true, out_bytes (slice (Z.to_nat a) n m)) m.
Proof.
  intros [_ Hm] Ha Hr. unfold rdma_verb, rdma_read, mbind, M_bind, get. cbn [addr op].
  rewrite wrap_small by (unfold in_width; lia). rewrite (proj2 (Z.ltb_ge _ _)) by lia. simpl.
  by rewrite Nat2Z.id.
Qed.

Lemma perform_read w a n m :
  others (w_net w) = [] → region_at (cl w) a n m →
  ∃ w', perform (C := C) (mkOp a (op_read true (Z.of_nat n))) w =
          Done (true, out_bytes (slice (Z.to_nat (offset a)) n m)) w' ∧ quiet w w'.
Proof.
  intros Ho (s & Hs & Hm & Hok & H0 & Hr).
  assert (cluster_at (w_net w) = cl w) as Hc by (unfold cluster_at; by rewrite Ho).
  pose proof (perform_op_run (mkOp a (op_read true (Z.of_nat n))) (w_net w) _ s eq_refl) as H.
  rewrite Hc in H. specialize (H Hs). cbn [addr op] in H. rewrite Hm, read_verb in H by done.
  destruct H as (g & H & Ht). rewrite <-Hm, put_region_same, Ho in H by done.
  subst m. by apply (on_net_done _ _ _ g).
Qed.

Lemma read_object_run w a n m :
  others (w_net w) = [] → region_at (cl w) a n m →
  ∃ w', read_object (C := C) a n w = Done (true, slice (Z.to_nat (offset a)) n m) w' ∧ quiet w w'.
Proof.
  intros Ho Hr. destruct (perform_read w a n m Ho Hr) as (w' & H & Hq). exists w'. split; [|done].
  unfold read_object, perform, on_net, zoom, rdma_read_object in *.
  destruct (perform_op _ (w_net w)) as [r n'|f n'] eqn:E; [|done].
  rewrite (bind_done _ _ _ _ _ E). simplify_eq. done.
Qed.

(** Reading an encoded object gives its bytes. *)
Lemma read_object_holds w a l n :
  others (w_net w) = [] → holds (cl w) a l → length l = n →
  ∃ w', read_object (C := C) a n w = Done (true, l) w' ∧ quiet w w'.
Proof.
  intros Ho (m & Hr & Hsl) <-. destruct (read_object_run w a (length l) m Ho Hr) as (w' & H & Hq).
  exists w'. by rewrite Hsl in H.
Qed.

Lemma sizes_header : (sizeof_Header ≤ sizeof_LeafNode ∧ sizeof_Header ≤ sizeof_InternalNode)%nat.
Proof.
  unfold sizeof_LeafNode, sizeof_InternalNode.
  pose proof (align8_ge (sizeof_Header + sizeof_Entry * branch_factor)). lia.
Qed.

(** The header at the address of a leaf, read as an internal node. *)
Lemma leaf_header_as_node c a leaf m :
  holds (Q := Q) c a (enc_LeafNode leaf) → leaf_ok leaf → region_at c a sizeof_InternalNode m →
  iheader (dec_InternalNode (slice (Z.to_nat (offset a)) sizeof_InternalNode m)) = lheader leaf.
Proof.
  intros (m' & (s' & Hs' & Hm' & _ & _ & Hr') & Hsl) (Hh & Hlen & _) (s & Hs & Hm & _ & _ & Hr).
  rewrite Hs in Hs'. injection Hs' as <-. subst m m'. unfold dec_InternalNode. cbn [iheader].
  set (o := Z.to_nat (offset a)) in *. pose proof sizes_header as [H1 H2].
  rewrite length_enc_LeafNode in Hsl, Hr' by done.
  assert (take sizeof_Header (slice o sizeof_InternalNode (rdma_ s)) = enc_Header (lheader leaf)) as Ht.
  { unfold slice in *. rewrite take_take, Nat.min_l by done.
    rewrite <-(Nat.min_l sizeof_Header sizeof_LeafNode), <-take_take, Hsl by done.
    unfold enc_LeafNode. by rewrite take_app_length' by (by rewrite length_enc_Header). }
  rewrite <-(take_drop sizeof_Header (slice o _ _)), Ht. by apply dec_enc_Header.
Qed.

Lemma node_at c a n m :
  holds (Q := Q) c a (enc_InternalNode n) → node_ok n → region_at c a sizeof_InternalNode m →
  dec_InternalNode (slice (Z.to_nat (offset a)) sizeof_InternalNode m) = n.
Proof.
  intros (m' & (s' & Hs' & <- & _) & Hsl) Hok (s & Hs & <- & _). rewrite Hs in Hs'. injection Hs' as <-.
  rewrite length_enc_InternalNode in Hsl by apply Hok. rewrite Hsl. by apply dec_enc_InternalNode.
Qed.

(** ** find_node *)

Lemma set_cache_same w : set_cache (faunus_cache_ w) w = w.
Proof. by destruct w. Qed.

(** Without a cache nothing is added to it. *)
Lemma add_nothing w (P : bool) f1 f2 i :
  faunus_cache_ w = None → (if P then add_cache (C := C) (Ent := Ent) f1 f2 i else mret tt) w = Done tt w.
Proof.
  intros Hc. destruct P; [|done]. unfold add_cache, modify. rewrite Hc. cbn [fmap option_fmap option_map].
  by rewrite <-Hc, set_cache_same.
Qed.

(** One step of the traversal at an internal node above the target level. *)
Lemma find_step_down key j smo w a n l b x :
  others (w_net w) = [] → faunus_cache_ w = None →
  holds (cl w) a (enc_InternalNode n) → node_ok n → node_sorted n → lock (iheader n) = 0 → level (iheader n) = Z.of_nat (S l) →
  (j ≤ l)%nat → Z.of_nat (S l) < 2 ^ 64 → route (seps n) (kids n) key = Some x → a ≠ x →
  ∃ w', find_step (C := C) (Ent := Ent) key (Z.of_nat j) smo None (a, None, b) w =
          Done (if (l =? j)%nat then inr (FOUND, x) else inl (x, None, false)) w' ∧ quiet w w'.
Proof.
  intros Ho Hcache Hh Hok Hs Hlk Hlv Hj Hl Hx Hne.
  destruct (read_object_holds w a (enc_InternalNode n) sizeof_InternalNode Ho Hh) as (w1 & Hr & Hq).
  { apply length_enc_InternalNode, Hok. }
  exists w1. split; [|done]. unfold find_step.
  erewrite bind_done.
  2:{ erewrite bind_done by exact Hr. cbn [snd]. rewrite dec_enc_InternalNode by done.
      erewrite bind_done by (apply add_nothing; by rewrite (q_cache _ _ Hq)). reflexivity. }
  rewrite Hlk. cbn [Z.eqb negb andb]. rewrite Hlv.
  rewrite (proj2 (Z.eqb_neq _ _)) by lia. rewrite (proj2 (Z.ltb_ge _ _)) by lia.
  rewrite find_child_route, Hx by apply Hs.
  rewrite (proj2 (Z.eqb_neq _ _) Hne). cbn [negb assert_].
  erewrite bind_done by reflexivity.
  rewrite wrap_small by (unfold in_width; lia).
  destruct (Nat.eqb_spec l j) as [->|Hlj].
  - by rewrite (proj2 (Z.eqb_eq _ _)) by lia.
  - by rewrite (proj2 (Z.eqb_neq _ _)) by lia.
Qed.

Lemma find_step_node key j smo w a n ts l lo hi b t' :
  others (w_net w) = [] → faunus_cache_ w = None →
  stored (cl w) (S l) lo hi (TNode a n ts) → lo ≤ key < hi → (j ≤ l)%nat → Z.of_nat (S l) < 2 ^ 64 →
  ts !! rank (seps n) key = Some t' →
  ∃ w', find_step (C := C) (Ent := Ent) key (Z.of_nat j) smo None (a, None, b) w =
          Done (if (l =? j)%nat then inr (FOUND, addr_of t') else inl (addr_of t', None, false)) w' ∧
        quiet w w'.
Proof.
  intros Ho Hcache Hst Hkey Hj Hl Ht'.
  inversion Hst as [|? ? ? ? ? ? Hh Hok Hs Hlk Hlv Hf1 Hf2 Hb Hsp Hk Hna Hts]; subst.
  apply (find_step_down key j smo w a n l); try done.
  - unfold route. by rewrite Hk, list_lookup_fmap, Ht'.
  - intros ->. apply Hna. rewrite Hk. apply list_elem_of_fmap. exists t'. split; [done|]. by eapply list_elem_of_lookup_2.
Qed.

(** The traversal from a node above the target level. *)
Lemma find_loop_down key j smo : ∀ d l lo hi t w b p,
  l = (S d + j)%nat → others (w_net w) = [] → faunus_cache_ w = None →
  stored (cl w) l lo hi t → lo ≤ key < hi → Z.of_nat l < 2 ^ 64 → (S d ≤ Pos.to_nat p)%nat →
  ∃ t' w', loop p (find_step (C := C) (Ent := Ent) key (Z.of_nat j) smo None) (addr_of t, None, b) w =
             Done (inr (FOUND, addr_of t')) w' ∧ quiet w w' ∧ descend (S d) key t = Some t'.
Proof.
  induction d as [|d IH]; intros l lo hi t w b p -> Ho Hc Hst Hkey Hl Hp;
    (destruct t as [|a n ts]; [inversion Hst|]).
  - destruct (descend_stored _ key 1 _ _ _ _ Hst Hkey ltac:(lia)) as (t' & ? & ? & Hd & _).
    simpl in Hd. destruct (ts !! rank (seps n) key) as [t1|] eqn:Ht1; [|done]. simplify_eq.
    destruct (find_step_node key j smo w a n ts j lo hi b t' Ho Hc Hst Hkey ltac:(lia) Hl Ht1) as (w' & Hs & Hq).
    rewrite Nat.eqb_refl in Hs. exists t', w'. split; [by apply loop_done|]. split; [done|]. simpl. by rewrite Ht1.
  - destruct (descend_stored _ key 1 _ _ _ _ Hst Hkey ltac:(lia)) as (t1 & lo1 & hi1 & Hd & Hst1 & Hk1 & _).
    simpl in Hd. destruct (ts !! rank (seps n) key) as [t1'|] eqn:Ht1; [|done]. simplify_eq.
    destruct (find_step_node key j smo w a n ts (S d + j) lo hi b t1 Ho Hc Hst Hkey ltac:(lia) Hl Ht1) as (w1 & Hs & Hq).
    rewrite (proj2 (Nat.eqb_neq _ _)) in Hs by lia.
    destruct (IH (S d + j)%nat lo1 hi1 t1 w1 false (Pos.pred p)) as (t' & w' & Hl' & Hq' & Hd'); try lia.
    + by rewrite (q_others _ _ Hq).
    + by rewrite (q_cache _ _ Hq).
    + unfold cl. rewrite (q_cluster _ _ Hq).
      by replace (S (S d) + j - 1)%nat with (S d + j)%nat in Hst1 by lia.
    + exists t', w'. cbn [addr_of]. rewrite loop_unroll, Hs, decide_False by (intros ->; simpl in Hp; lia).
      split; [done|]. split; [by etrans|]. simpl. by rewrite Ht1.
Qed.

(** At the target level the traversal stops, below it the level does not exist. *)
Lemma find_step_stop key j smo w a l m b :
  others (w_net w) = [] → faunus_cache_ w = None → region_at (cl w) a sizeof_InternalNode m →
  let h := iheader (dec_InternalNode (slice (Z.to_nat (offset a)) sizeof_InternalNode m)) in
  (lock h = 0 ∨ smo = true) → level h = Z.of_nat l → (l ≤ j)%nat → (l < j → b = true)%nat →
  ∃ w', find_step (C := C) (Ent := Ent) key (Z.of_nat j) smo None (a, None, b) w =
          Done (inr (if (l =? j)%nat then FOUND else NO_SUCH_LEVEL, a)) w' ∧ quiet w w'.
Proof.
  intros Ho Hcache Hrg h Hlk Hlv Hlj Hb.
  destruct (read_object_run w a sizeof_InternalNode m Ho Hrg) as (w1 & Hr & Hq).
  exists w1. split; [|done]. unfold find_step.
  erewrite bind_done.
  2:{ erewrite bind_done by exact Hr. cbn [snd]. erewrite bind_done by (apply add_nothing; by rewrite (q_cache _ _ Hq)). reflexivity. }
  fold h. rewrite Hlv, (proj2 (Z.ltb_ge _ _)), orb_false_r by lia.
  assert (negb (lock h =? 0) && negb smo = false) as -> by (destruct Hlk as [-> | ->]; [done|by rewrite andb_false_r]).
  destruct (Nat.eqb_spec l j) as [->|Hne].
  - by rewrite Z.eqb_refl.
  - rewrite (proj2 (Z.eqb_neq _ _)), (proj2 (Z.ltb_lt _ _)), Hb by lia. done.
Qed.

Lemma find_step_here key j smo w l lo hi t b :
  others (w_net w) = [] → faunus_cache_ w = None → stored (cl w) l lo hi t →
  readable (cl w) (addr_of t) sizeof_InternalNode → (l ≤ j)%nat → (l < j → b = true)%nat →
  ∃ w', find_step (C := C) (Ent := Ent) key (Z.of_nat j) smo None (addr_of t, None, b) w =
          Done (inr (if (l =? j)%nat then FOUND else NO_SUCH_LEVEL, addr_of t)) w' ∧ quiet w w'.
Proof.
  intros Ho Hcache Hst [m Hrg]. apply (find_step_stop key j smo w (addr_of t) l m b); try done.
  - left. destruct Hst as [a leaf items lo hi li Hh Hok Hhd|a n ts l lo hi Hh Hok Hs Hlk Hlv]; cbn [addr_of] in *.
    + by rewrite (leaf_header_as_node (cl w) a leaf m Hh Hok Hrg), Hhd.
    + by rewrite (node_at (cl w) a n m Hh Hok Hrg).
  - destruct Hst as [a leaf items lo hi li Hh Hok Hhd|a n ts l lo hi Hh Hok Hs Hlk Hlv]; cbn [addr_of] in *.
    + by rewrite (leaf_header_as_node (cl w) a leaf m Hh Hok Hrg), Hhd.
    + by rewrite (node_at (cl w) a n m Hh Hok Hrg).
Qed.

Lemma index_ok_quiet w w' l t : quiet w w' → index_ok w l t → index_ok w' l t.
Proof.
  intros Hq [H1 H2 H3 H4 H5 H6]. split; unfold cl; rewrite ?(q_cluster _ _ Hq), ?(q_root _ _ Hq); try done.
  by rewrite (q_others _ _ Hq).
Qed.

Lemma get_root_offset_holds w v :
  others (w_net w) = [] → holds (cl w) (root_offset_pointer_ w) (le_bytes 8 v) → ga_ok v →
  ∃ w', get_root_offset (C := C) w = Done v w' ∧ quiet w w'.
Proof.
  intros Ho (m & Hr & Hsl) Hga. rewrite length_le_bytes in Hr, Hsl.
  destruct (perform_read w (root_offset_pointer_ w) 8 m Ho Hr) as (w' & H & Hq).
  exists w'. split; [|done]. unfold get_root_offset. erewrite bind_done by reflexivity.
  change 8 with (Z.of_nat 8) at 1. erewrite bind_done by exact H. cbn [fst snd assert_ out_data].
  erewrite bind_done by reflexivity. rewrite Hsl. by rewrite ga_roundtrip64.
Qed.

Lemma get_root_offset_run w l t :
  index_ok w l t → ∃ w', get_root_offset (C := C) w = Done (addr_of t) w' ∧ quiet w w'.
Proof. intros [Ho Hr Hga _ _ _]. by apply get_root_offset_holds. Qed.

Lemma find_node_run fuel key j smo use_cache w l t :
  index_ok w l t → faunus_cache_ w = None → key_min ≤ key < key_max → (j ≤ l)%nat →
  (l < Pos.to_nat fuel)%nat →
  ∃ t' w', find_node (C := C) (Ent := Ent) fuel key (Z.of_nat j) smo use_cache w =
             Done (FOUND, addr_of t', None) w' ∧ quiet w w' ∧ descend (l - j) key t = Some t'.
Proof.
  intros Hix Hc Hkey Hj Hf. unfold find_node.
  assert ((if use_cache then search_cache (C := C) (Ent := Ent) key else mret None) w = Done None w) as Hhit.
  { destruct use_cache; [|done]. unfold search_cache. by rewrite Hc. }
  erewrite bind_done by exact Hhit. cbn [fmap option_fmap option_map snd].
  destruct (get_root_offset_run w l t Hix) as (w1 & H1 & Hq1).
  erewrite bind_done by exact H1.
  pose proof (index_ok_quiet _ _ _ _ Hq1 Hix) as [Ho1 _ _ Hst1 Hlv1 Hrd1].
  assert (faunus_cache_ w1 = None) as Hc1 by (by rewrite (q_cache _ _ Hq1)).
  destruct (decide (l = j)) as [->|Hne].
  - destruct (find_step_here key j smo w1 j key_min key_max t true Ho1 Hc1 Hst1 Hrd1) as (w2 & H2 & Hq2); [lia|lia|].
    rewrite Nat.eqb_refl in H2. exists t, w2. rewrite Nat.sub_diag.
    erewrite bind_done by (by apply loop_done). split; [done|]. split; [by etrans|done].
  - destruct (find_loop_down key j smo (l - j - 1) l key_min key_max t w1 true fuel) as (t' & w2 & H2 & Hq2 & Hd);
      try done; try lia.
    exists t', w2. erewrite bind_done by exact H2. split; [done|]. split; [by etrans|].
    by replace (l - j)%nat with (S (l - j - 1)) by lia.
Qed.

(** ** Items of a leaf *)

(** A batch of READs. *)
Lemma ops_in_order_reads (c : Cluster Q) (l : list (GlobalAddress * nat)) ds :
  Forall2 (λ x d, ∃ m, region_at c x.1 x.2 m ∧ slice (Z.to_nat (offset x.1)) x.2 m = d) l ds →
  ops_in_order (map (λ x, mkOp x.1 (op_read true (Z.of_nat x.2))) l) c = Done (true, map out_bytes ds) c.
Proof.
  induction 1 as [|[a n] d l ds (m & (s & Hs & Hm & Hok & H0 & Hr) & Hd) Hl IH]; [done|].
  cbn [map ops_in_order addr op fst snd] in *. rewrite Hs, Hm, read_verb by done.
  rewrite <-Hm, put_region_same by done. rewrite IH. subst m. by rewrite Hd.
Qed.

Lemma perform_reads w (l : list (GlobalAddress * nat)) ds :
  others (w_net w) = [] →
  Forall2 (λ x d, ∃ m, region_at (cl w) x.1 x.2 m ∧ slice (Z.to_nat (offset x.1)) x.2 m = d) l ds →
  ∃ w', perform_all (C := C) (map (λ x, mkOp x.1 (op_read true (Z.of_nat x.2))) l) w =
          Done (true, map out_bytes ds) w' ∧ quiet w w'.
Proof.
  intros Ho Hl. pose proof (ops_in_order_reads (cl w) l ds Hl) as H.
  pose proof (perform_batch_run (map (λ x, mkOp x.1 (op_read true (Z.of_nat x.2))) l) (mgr (w_net w)) (cl w)
    (tid (w_net w))) as Hb. unfold ends_like in Hb. rewrite H in Hb.
  destruct Hb as (r & g & Hb & Hr & Ht). simpl in Hr. subst r.
  apply (on_net_done _ _ _ g); [|done|done]. rewrite <-Hb. unfold cl. f_equal.
  destruct (w_net w) as [g0 c0 t0 os0]. cbn [others] in Ho. by subst os0.
Qed.

(** What a READ of [n] bytes at an item sees. *)
Definition seen (full : bool) (kv : KVItem) : KVItem := if full then kv else mkItem (item_key kv) 0.

Lemma dec_seen (full : bool) kv : item_ok kv →
  dec_KVItem (take (if full then sizeof_KVItem else KEY_SIZE) (enc_KVItem kv)) = seen full kv.
Proof.
  intros Hok. destruct full; simpl.
  - rewrite take_ge; [by apply dec_enc_KVItem|].
    unfold enc_KVItem, sizeof_KVItem. by rewrite length_app, !length_be_bytes.
  - unfold enc_KVItem, dec_KVItem. rewrite take_app_length' by (by rewrite length_be_bytes).
    rewrite slice_full by apply length_be_bytes. unfold slice.
    rewrite drop_ge by (by rewrite length_be_bytes). rewrite take_nil. f_equal.
    apply key_roundtrip, Hok.
Qed.

Lemma read_prefix c a l n :
  holds (Q := Q) c a l → (n ≤ length l)%nat →
  ∃ m, region_at c a n m ∧ slice (Z.to_nat (offset a)) n m = take n l.
Proof.
  intros (m & (s & Hs & Hm & Hok & H0 & Hr) & Hsl) Hn. exists m. split.
  - exists s. split_and!; try done. lia.
  - rewrite <-Hsl. unfold slice. rewrite take_take. f_equal. lia.
Qed.

(** The candidates for a fingerprint are the live slots of the items with it. *)
Lemma collisions_spec c fp : ∀ bs i items,
  Forall2 (item_at c) (filter (λ b, isFree b = false) bs) items → Forall (λ b, isLocked b = false) bs →
  (collisions_loop fp i bs).2 = false ∧
  Forall2 (λ x kv, (∃ b, bs !! (x.1 - i)%nat = Some b ∧ (i ≤ x.1)%nat ∧ x.2 = getAddr b ∧ isFree b = false ∧
                         getFingerprint b = fp) ∧
                   holds (Q := Q) c x.2 (enc_KVItem kv) ∧ item_ok kv)
    (collisions_loop fp i bs).1 (filter (λ kv, Fingerprint (item_key kv) = fp) items).
Proof.
  induction bs as [|b bs IH]; intros i items Hit Hlk.
  { apply Forall2_nil_inv_l in Hit. subst. done. }
  apply Forall_cons_iff in Hlk as [Hlk Hlks]. cbn [collisions_loop].
  assert (∀ r its, Forall2 (λ x kv, (∃ b', bs !! (x.1 - S i)%nat = Some b' ∧ (S i ≤ x.1)%nat ∧ x.2 = getAddr b' ∧
      isFree b' = false ∧ getFingerprint b' = fp) ∧ holds (Q := Q) c x.2 (enc_KVItem kv) ∧ item_ok kv) r its →
    Forall2 (λ x kv, (∃ b', (b :: bs) !! (x.1 - i)%nat = Some b' ∧ (i ≤ x.1)%nat ∧ x.2 = getAddr b' ∧
      isFree b' = false ∧ getFingerprint b' = fp) ∧ holds (Q := Q) c x.2 (enc_KVItem kv) ∧ item_ok kv) r its) as Hshift.
  { intros r its. apply Forall2_impl. intros x kv ((b' & H1 & H2 & H3 & H4 & H5) & H6). split; [|done].
    exists b'. split_and!; try done; [|lia]. by replace (x.1 - i)%nat with (S (x.1 - S i)) by lia. }
  destruct (isFree b) eqn:Hf.
  - rewrite filter_cons_False in Hit by (by rewrite Hf). destruct (IH (S i) items Hit Hlks) as [IH1 IH2].
    destruct (collisions_loop fp (S i) bs) as [r smo]. cbn [fst snd negb andb] in *. rewrite Hlk, IH1. split; [done|by apply Hshift].
  - rewrite filter_cons_True in Hit by done. apply Forall2_cons_inv_l in Hit as (kv & its & Hkv & Hit & ->).
    destruct (IH (S i) its Hit Hlks) as [IH1 IH2]. destruct Hkv as (Hh & Hok & Hfp).
    destruct (collisions_loop fp (S i) bs) as [r smo]. cbn [fst snd negb andb] in *. rewrite Hlk, IH1. split; [done|].
    destruct (Z.eqb_spec (getFingerprint b) fp) as [He|He].
    + rewrite filter_cons_True by congruence. constructor; [|by apply Hshift]. cbn [fst snd].
      split; [|done]. exists b. rewrite Nat.sub_diag. by split_and!.
    + rewrite filter_cons_False by congruence. by apply Hshift.
Qed.

(** The candidates of a key: the slot numbers and the items read. *)
Lemma get_candidate_kvs_run (w : World Q C) leaf items fp full :
  others (w_net w) = [] → Forall2 (item_at (cl w)) (live leaf) items →
  Forall (λ b, isLocked b = false) (kv_blocks leaf) →
  ∃ idx w', get_candidate_kvs (C := C) leaf fp false full w =
      Done (true, zip idx (map (seen full) (filter (λ kv, Fingerprint (item_key kv) = fp) items))) w' ∧
    quiet w w' ∧ length idx = length (filter (λ kv, Fingerprint (item_key kv) = fp) items) ∧
    Forall2 (λ i kv, ∃ b, kv_blocks leaf !! i = Some b ∧ isFree b = false ∧ getFingerprint b = fp ∧
                          holds (cl w) (getAddr b) (enc_KVItem kv))
      idx (filter (λ kv, Fingerprint (item_key kv) = fp) items).
Proof.
  intros Ho Hit Hlk. unfold get_candidate_kvs, get_fingerprint_collisions.
  destruct (collisions_spec (cl w) fp (kv_blocks leaf) 0 items Hit Hlk) as [Hsmo Hc].
  set (its := filter _ items) in *.
  destruct (collisions_loop fp 0 (kv_blocks leaf)) as [cands smo]. cbn [fst snd] in *. subst smo.
  cbn [andb]. exists (map fst cands).
  assert (length (map fst cands) = length its) as Hlen by (rewrite length_map; by eapply Forall2_length).
  assert (Forall2 (λ i kv, ∃ b, kv_blocks leaf !! i = Some b ∧ isFree b = false ∧ getFingerprint b = fp ∧
                          holds (cl w) (getAddr b) (enc_KVItem kv)) (map fst cands) its) as Hidx.
  { rewrite Forall2_fmap_l. eapply Forall2_impl; [|exact Hc].
    intros [i a] kv ((b & H1 & _ & H3 & H4 & H5) & H6 & _). cbn [fst snd] in *. rewrite Nat.sub_0_r in H1.
    subst a. by exists b. }
  destruct cands as [|c0 cands'] eqn:Ecs.
  { apply Forall2_nil_inv_l in Hc. rewrite Hc. exists w. done. }
  rewrite <-Ecs in *. clear Ecs. set (n := if full then sizeof_KVItem else KEY_SIZE).
  destruct (perform_reads w (map (λ x, (x.2, n)) cands) (map (λ kv, take n (enc_KVItem kv)) its) Ho) as (w' & Hr & Hq).
  { rewrite Forall2_fmap_l, Forall2_fmap_r. eapply Forall2_impl; [|exact Hc].
    intros x kv (_ & Hh & _). cbn [fst snd]. apply read_prefix; [done|].
    unfold enc_KVItem. rewrite length_app, !length_be_bytes. unfold n, sizeof_KVItem. destruct full; lia. }
  exists w'. split; [|done].
  rewrite map_map in Hr. cbn [fst snd] in Hr.
  erewrite bind_done.
  2:{ rewrite <-Hr. f_equal. apply map_ext. by intros []. }
  cbn [fst snd assert_]. erewrite bind_done by reflexivity. unfold mret, M_ret. do 2 f_equal.
  rewrite map_map. clear -Hc. induction Hc as [|[i a] kv cs ks (_ & _ & Hok) Hcs IH]; [done|].
  cbn [map zip_with fst snd out_data]. f_equal; [|exact IH]. unfold n. by rewrite dec_seen.
Qed.

(** With distinct keys the loop over the candidates finds the value and deletes
    nothing. *)
Lemma dupes_loop_run fuel local_ptr key la leaf nb : ∀ cands found (w : World Q C),
  NoDup (map (λ x : nat * KVItem, item_key x.2) cands) →
  (is_Some found → key ∉ map (λ x : nat * KVItem, item_key x.2) cands) →
  dupes_loop (C := C) fuel local_ptr key la leaf nb false cands found w =
    Done (true, match found with Some v => Some v
                | None => item_value <$> head (filter (λ kv, item_key kv = key) (map snd cands)) end) w.
Proof.
  induction cands as [|[i kv] cands IH]; intros found w Hnd Hf; [by destruct found|].
  cbn [map fst snd dupes_loop] in *. apply list.NoDup_cons in Hnd as [Hni Hnd].
  destruct (Z.eqb_spec (item_key kv) key) as [He|He].
  - destruct found as [v|]; [exfalso; apply Hf; [done|]; rewrite He; by apply list_elem_of_here|].
    rewrite IH; [|done|by rewrite He in Hni]. by rewrite filter_cons_True by done.
  - rewrite IH; [|done|].
    + destruct found; [done|]. by rewrite filter_cons_False by done.
    + intros Hs Hin. apply Hf; [done|]. by apply list_elem_of_further.
Qed.

Lemma contents_lookup items key :
  (list_to_map (pairs items) : gmap Z Z) !! key =
    item_value <$> head (filter (λ kv, item_key kv = key) items).
Proof.
  induction items as [|kv items IH]; [done|]. unfold pairs in *. simpl.
  destruct (decide (item_key kv = key)) as [He|He].
  - rewrite He, lookup_insert_eq, filter_cons_True by done. done.
  - rewrite lookup_insert_ne, IH, filter_cons_False by done. done.
Qed.

Lemma filter_fp_key key (items : list KVItem) :
  filter (λ kv, item_key kv = key) (filter (λ kv, Fingerprint (item_key kv) = Fingerprint key) items) =
  filter (λ kv, item_key kv = key) items.
Proof.
  induction items as [|kv items IH]; [done|].
  destruct (decide (item_key kv = key)) as [He|He].
  - rewrite (filter_cons_True (λ kv, item_key kv = key)) by done.
    rewrite filter_cons_True by (by rewrite He). rewrite filter_cons_True by done. by f_equal.
  - rewrite (filter_cons_False (λ kv, item_key kv = key) kv items) by done.
    destruct (decide (Fingerprint (item_key kv) = Fingerprint key)).
    + rewrite filter_cons_True by done. by rewrite filter_cons_False by done.
    + by rewrite filter_cons_False by done.
Qed.

(** Looking a key up in the leaf that is responsible for it. *)
Lemma lookup_in_leaf fuel local_ptr (w : World Q C) a leaf items lo hi key nb :
  others (w_net w) = [] → stored (cl w) 0 lo hi (TLeaf a leaf items) → lo ≤ key < hi →
  ∃ w', handle_local_remove_dupes (C := C) fuel local_ptr key a leaf nb false true false w =
          Done (true, contents (TLeaf a leaf items) !! key) w' ∧ quiet w w'.
Proof.
  intros Ho Hst Hkey. inversion Hst as [? ? ? ? ? li Hh Hok Hhd Hit Hlk Hnd Hrange|]; subst.
  unfold handle_local_remove_dupes. rewrite Hhd. cbn [fence_first fence_second lock].
  rewrite (proj2 (Z.ltb_ge _ _)), (proj2 (Z.leb_gt _ _)) by lia. cbn [orb Z.eqb negb andb].
  destruct (get_candidate_kvs_run w leaf items (Fingerprint key) true Ho Hit Hlk) as (idx & w' & Hg & Hq & Hlen & _).
  erewrite bind_done by exact Hg. cbn [fst snd]. exists w'. split; [|done].
  set (its := filter _ items) in *. assert (map (seen true) its = its) as -> by (apply map_id).
  assert (contents (TLeaf a leaf items) !! key = item_value <$> head (filter (λ kv, item_key kv = key) its)) as ->.
  { unfold contents, its. cbn [items_of]. by rewrite contents_lookup, filter_fp_key. }
  destruct (zip idx its) as [|x xs] eqn:Ez.
  { destruct idx, its; simplify_eq/=; done. }
  rewrite <-Ez. assert (map (λ x : nat * KVItem, item_key x.2) (zip idx its) = map item_key its) as Hkeys.
  { rewrite <-(map_map snd item_key). f_equal. apply snd_zip. lia. }
  rewrite dupes_loop_run.
  - do 3 f_equal. f_equal. f_equal. apply snd_zip. lia.
  - rewrite Hkeys. unfold its. clear -Hnd. induction items as [|kv items IH]; [done|].
    cbn [map] in Hnd. apply list.NoDup_cons in Hnd as [Hni Hnd].
    destruct (decide (Fingerprint (item_key kv) = Fingerprint key));
      [rewrite filter_cons_True by done|rewrite filter_cons_False by done; by apply IH].
    cbn [map]. apply list.NoDup_cons. split; [|by apply IH]. intros Hx. apply Hni.
    apply list_elem_of_fmap in Hx as (y & -> & Hy). apply list_elem_of_filter in Hy as [_ Hy].
    apply list_elem_of_fmap. by exists y.
  - by intros [? ?].
Qed.

Lemma read_run fuel local_ptr (w : World Q C) l t key :
  index_ok w l t → faunus_cache_ w = None → key_min ≤ key < key_max → (l < Pos.to_nat fuel)%nat →
  ∃ w', read_attempt (C := C) (Ent := Ent) fuel local_ptr key (0, None) w = Done (inr (contents t !! key)) w' ∧
        read (C := C) (Ent := Ent) fuel local_ptr key w = Done (contents t !! key) w' ∧ quiet w w'.
Proof.
  intros Hix Hc Hkey Hf.
  destruct (find_node_run fuel key 0 false true w l t Hix Hc Hkey ltac:(lia) Hf) as (t' & w1 & Hfind & Hq1 & Hd).
  pose proof (index_ok_quiet _ _ _ _ Hq1 Hix) as Hix1.
  destruct (descend_stored _ key (l - 0) _ _ _ _ (ix_tree _ _ _ Hix1) Hkey ltac:(lia))
    as (t1 & lo' & hi' & Hd' & Hst & Hk' & Hcont).
  rewrite Hd in Hd'. injection Hd' as <-. rewrite Nat.sub_0_r, Nat.sub_diag in Hst.
  destruct t' as [a leaf items|]; [|inversion Hst]. cbn [addr_of] in *.
  inversion Hst as [? ? ? ? ? li Hh Hok Hhd Hit Hlk Hnd Hrange|]; subst.
  destruct (read_object_holds w1 a (enc_LeafNode leaf) sizeof_LeafNode (ix_others _ _ _ Hix1) Hh)
    as (w2 & Hrd & Hq2); [apply length_enc_LeafNode, Hok|].
  destruct (lookup_in_leaf fuel local_ptr w2 a leaf items lo' hi' key 0) as (w3 & Hl & Hq3); [| |done|].
  { by rewrite (q_others _ _ Hq2), (ix_others _ _ _ Hix1). }
  { unfold cl. by rewrite (q_cluster _ _ Hq2). }
  exists w3. assert (read_attempt (C := C) (Ent := Ent) fuel local_ptr key (0, None) w = Done (inr (contents t !! key)) w3) as Hatt;
    [|split; [exact Hatt|split; [|by do 2 (etrans; [eassumption|])]]; unfold read;
      rewrite (bind_done _ _ w (inr (contents t !! key)) w3); [done|by apply loop_done]].
  unfold read_attempt. cbn [Z.ltb Z.compare].
  erewrite bind_done by reflexivity. cbn [Z.eqb]. change (Z.of_nat 0) with 0 in Hfind.
  erewrite bind_done by exact Hfind. cbn beta iota.
  change (bool_decide (FOUND ≠ UNKNOWN) && bool_decide (FOUND ≠ NO_SUCH_LEVEL)) with true.
  change (bool_decide (FOUND ≠ FOUND)) with false. erewrite bind_done by reflexivity. cbv iota.
  erewrite bind_done by exact Hrd. cbn [fst snd]. rewrite dec_enc_LeafNode by done.
  erewrite bind_done by exact Hl. cbn [fst snd negb]. erewrite bind_done by reflexivity.
  by rewrite Hcont.
Qed.

(** The traversal: in an index that holds the tree [t] of height [l], when no
    other thread runs and there is no cache, [find_node] for a key and a level [j]
    of the tree terminates, reports [FOUND] and returns the address of the node of
    level [j] that is responsible for the key: the node stored there has fences
    around the key.  Nothing in memory changes. *)
Theorem find_node_routes fuel key j smo use_cache (w : World Q C) l t :
  index_ok w l t → faunus_cache_ w = None → key_min ≤ key < key_max → (j ≤ l)%nat →
  (l < Pos.to_nat fuel)%nat →
  ∃ t' lo hi w', find_node (C := C) (Ent := Ent) fuel key (Z.of_nat j) smo use_cache w =
                   Done (FOUND, addr_of t', None) w' ∧
    stored (cl w') j lo hi t' ∧ lo ≤ key < hi ∧ index_ok w' l t ∧ cl w' = cl w.
Proof.
  intros Hix Hc Hkey Hj Hf.
  destruct (find_node_run fuel key j smo use_cache w l t Hix Hc Hkey Hj Hf) as (t' & w' & Hrun & Hq & Hd).
  pose proof (index_ok_quiet _ _ _ _ Hq Hix) as Hix'.
  destruct (descend_stored _ key (l - j) _ _ _ _ (ix_tree _ _ _ Hix') Hkey ltac:(lia))
    as (t1 & lo & hi & Hd' & Hst & Hk & _).
  rewrite Hd in Hd'. injection Hd' as <-. replace (l - (l - j))%nat with j in Hst by lia.
  exists t', lo, hi, w'. split; [done|]. split; [done|]. split; [done|]. split; [done|].
  apply (q_cluster _ _ Hq).
Qed.

(** C2: [read] implements the abstract map, for a thread that runs alone and an
    index without a cache: in an
    index that holds the tree [t], the first attempt of a read of any key below
    the maximal one, and so the read itself, ends and returns exactly what
    [contents t] says, the value of the key or that it is absent; the index still
    holds [t] and the memories are unchanged. *)
Theorem read_returns_contents fuel local_ptr (w : World Q C) l t key :
  index_ok w l t → faunus_cache_ w = None → key_min ≤ key < key_max → (l < Pos.to_nat fuel)%nat →
  ∃ w', read_attempt (C := C) (Ent := Ent) fuel local_ptr key (0, None) w = Done (inr (contents t !! key)) w' ∧
        read (C := C) (Ent := Ent) fuel local_ptr key w = Done (contents t !! key) w' ∧
        index_ok w' l t ∧ cl w' = cl w.
Proof.
  intros Hix Hc Hkey Hf. destruct (read_run fuel local_ptr w l t key Hix Hc Hkey Hf) as (w' & Hatt & Hrun & Hq).
  exists w'. split; [done|]. split; [done|]. split; [by eapply index_ok_quiet|apply (q_cluster _ _ Hq)].
Qed.
End runs.

(** ** At the concrete index *)

Lemma find_node_routes_witness :
  ∃ (w : World fifo demo_cache) t, demo_world = Some w ∧ index_ok (cfg := demo_cfg) w 1 t ∧
  ∃ t' lo hi w', find_node (cfg := demo_cfg) (C := demo_cache) (Ent := nat) 10 5 0 false true w =
                   Done (FOUND, addr_of t', None) w' ∧ stored (cfg := demo_cfg) (cl w') 0 lo hi t' ∧ lo ≤ 5 < hi ∧
                   index_ok (cfg := demo_cfg) w' 1 t ∧ cl w' = cl w.
Proof.
  destruct demo_index as (w & t & Hw & Hix & Hc & _). exists w, t. split; [exact Hw|]. split; [exact Hix|].
  apply (find_node_routes (cfg := demo_cfg) 10 5 0 false true w 1 t);
    [exact Hix|exact Hc|vm_compute; split; congruence|lia|lia].
Defined.

Lemma read_returns_contents_witness :
  ∃ (w : World fifo demo_cache) t, demo_world = Some w ∧ index_ok (cfg := demo_cfg) w 1 t ∧
  ∃ w', read_attempt (cfg := demo_cfg) (C := demo_cache) (Ent := nat) 10 0 5 (0, None) w = Done (inr (Some 55)) w' ∧
        read (cfg := demo_cfg) (C := demo_cache) (Ent := nat) 10 0 5 w = Done (Some 55) w' ∧
        index_ok (cfg := demo_cfg) w' 1 t ∧ cl w' = cl w.
Proof.
  destruct demo_index as (w & t & Hw & Hix & Hc & H5 & _). exists w, t. split; [exact Hw|]. split; [exact Hix|].
  rewrite <-H5.
  apply (read_returns_contents (cfg := demo_cfg) 10 0 w 1 t 5);
    [exact Hix|exact Hc|vm_compute; split; congruence|lia].
Defined.
