(* ===== verification/FaunusFrame.v ===== *)
(** * Writes into the remote memories, and what they leave alone

    [write_at c a bs] is the cluster [c] after the bytes [bs] were stored at the
    global address [a].  A stored tree ([FaunusTree]) depends only on the blocks of
    its footprint [blocks_of]: it survives every write outside of them, and a write
    into one leaf turns it into the tree with that leaf replaced. *)

From S2P Require Import Prelude GlobalAddress RdmaSim ThreadStats Queue MemoryServer Slab RdmaManager KVBlock FaunusNode FaunusIndex FaunusTree.

Section writes.
Context {Q : Type → Type} `{!ConcurrentQueue Q}.
Implicit Types (c : Cluster Q) (a b : GlobalAddress) (bs l : list Z) (r : Z * Z).

(** At most 16 servers, whose memories hold everything they granted and stay
    below the 42 bits of an offset. *)
Record fits c : Prop := mkFits {
  fits_servers : (length (servers_ c) ≤ 16)%nat;
  fits_memory : Forall (λ s, mem_ok (rdma_ s) ∧ next_offset_ s ≤ memory_size (rdma_ s) < 2 ^ 42) (servers_ c)
}.

Lemma fits_region c a n m : fits c → region_at c a n m → memory_size m < 2 ^ 42 ∧ server_index a < 16.
Proof.
  intros [Hlen Hm] (s & Hs & <- & _ & _ & _). rewrite list.Forall_forall in Hm.
  pose proof (Hm s (list_elem_of_lookup_2 _ _ _ Hs)) as [_ ?]. apply lookup_lt_Some in Hs. lia.
Qed.

Definition write_at c a bs : Cluster Q :=
  put_region (Z.to_nat (server_index a)) (splice (Z.to_nat (offset a)) bs (region_of c a)) c.

Lemma region_at_of c a n m : region_at c a n m → region_of c a = m.
Proof. intros (s & Hs & <- & _). unfold region_of. by rewrite Hs. Qed.

Lemma write_at_servers c a bs j :
  servers_ (write_at c a bs) !! j =
    if decide (Z.to_nat (server_index a) = j)
    then set_rdma (splice (Z.to_nat (offset a)) bs (region_of c a)) <$> servers_ c !! j
    else servers_ c !! j.
Proof.
  unfold write_at, put_region. cbn [servers_]. case_decide as Hij.
  - by rewrite Hij, list_lookup_alter_eq.
  - by rewrite list_lookup_alter_ne.
Qed.

(** The region behind an address after a write. *)
Lemma region_at_write c a bs ma b n m :
  region_at c a (length bs) ma → bytes_ok bs → region_at c b n m →
  region_at (write_at c a bs) b n
    (if decide (Z.to_nat (server_index a) = Z.to_nat (server_index b))
     then splice (Z.to_nat (offset a)) bs m else m).
Proof.
  intros Ha Hbs (s & Hs & Hm & Hok & H0 & Hr). pose proof (region_at_of _ _ _ _ Ha) as Hra.
  destruct Ha as (sa & Hsa & Hma & Hoka & H0a & Hra').
  unfold region_at. rewrite write_at_servers. case_decide as Hij; [|by exists s].
  rewrite Hij, Hs in Hsa. injection Hsa as <-. rewrite Hs, Hra. subst m ma.
  assert (length (splice (Z.to_nat (offset a)) bs (rdma_ s)) = length (rdma_ s)) as Hlen.
  { apply length_splice. unfold memory_size in Hra'. lia. }
  eexists. split; [reflexivity|]. split; [done|]. unfold mem_ok, memory_size in *. rewrite Hlen.
  split; [|by split]. destruct Hok. split; [by apply splice_ok|done].
Qed.

Lemma holds_write c a bs m :
  region_at c a (length bs) m → bytes_ok bs → holds (write_at c a bs) a bs.
Proof.
  intros Hr Hbs. pose proof (region_at_write _ _ _ _ _ _ _ Hr Hbs Hr) as H. rewrite decide_True in H by done.
  eexists. split; [exact H|]. destruct Hr as (s & _ & <- & _ & H0 & Hr').
  apply slice_splice_eq. unfold memory_size in Hr'. lia.
Qed.

Lemma ga_parts a : ga_ok a → a = server_index a * 2 ^ 42 + offset a ∧ 0 ≤ server_index a ∧ 0 ≤ offset a < 2 ^ 42.
Proof.
  intros Ha. rewrite server_index_div, offset_mod by done.
  pose proof (Z.div_mod a (2 ^ 42) ltac:(lia)). pose proof (Z.mod_pos_bound a (2 ^ 42) ltac:(lia)).
  unfold ga_ok, in_width in Ha. pose proof (Z.div_pos a (2 ^ 42)). lia.
Qed.

(** An address inside an object. *)
Lemma ga_add_inside c a n m i :
  fits c → ga_ok a → region_at c a n m → 0 ≤ i → i ≤ Z.of_nat n →
  ga_add a i = a + i ∧ server_index (ga_add a i) = server_index a ∧ offset (ga_add a i) = offset a + i ∧ ga_ok (ga_add a i).
Proof.
  intros Hf Ha Hr Hi Hn. pose proof (fits_region _ _ _ _ Hf Hr) as [Hm Hs].
  destruct Hr as (s & _ & _ & _ & H0 & Hr). destruct (ga_parts a Ha) as (Heq & Hs0 & Ho).
  assert (a + i < 2 ^ 50) as Hlt by lia.
  rewrite ga_add_small by done. assert (ga_ok (a + i)) as Hok by (unfold ga_ok, in_width in *; lia).
  split; [done|]. rewrite server_index_div, offset_mod by done.
  replace (a + i) with (offset a + i + server_index a * 2 ^ 42) by lia.
  rewrite Z.div_add, Z.mod_add, Z.div_small, Z.mod_small by lia.
  split; [lia|]. split; [lia|]. by replace (offset a + i + server_index a * 2 ^ 42) with (a + i) by lia.
Qed.

(** ** Agreement outside a list of ranges *)

Definition apart (W : list (Z * Z)) r : Prop := Forall (disjoint_range r) W.

Record agree (W : list (Z * Z)) c c' : Prop := mkAgree {
  ag_holds : ∀ a l, ga_ok a → holds c a l → apart W (a, Z.of_nat (length l)) → holds c' a l;
  ag_readable : ∀ a n, readable c a n → readable c' a n
}.

Lemma agree_refl W c : agree W c c.
Proof. by split. Qed.

Lemma agree_trans W1 W2 c1 c2 c3 : agree W1 c1 c2 → agree W2 c2 c3 → agree (W1 ++ W2) c1 c3.
Proof.
  intros [H1 R1] [H2 R2]. split; [|eauto]. intros a l Ha Hh Hw. apply Forall_app in Hw as [Hw1 Hw2]. eauto.
Qed.

Lemma agree_write c a bs m :
  fits c → ga_ok a → region_at c a (length bs) m → bytes_ok bs →
  agree [(a, Z.of_nat (length bs))] c (write_at c a bs).
Proof.
  intros Hf Ha Hr Hbs. split.
  - intros b l Hb (mb & Hrb & Hsl) Hd. apply Forall_cons_iff in Hd as [Hd _].
    pose proof (region_at_write _ _ _ _ _ _ _ Hr Hbs Hrb) as H. eexists. split; [exact H|].
    case_decide as Hij; [|done]. rewrite slice_splice_ne; [done|..].
    + destruct Hr as (s & Hs & <- & _ & H0 & Hr), Hrb as (sb & Hsb & <- & _).
      rewrite Hij, Hsb in Hs. injection Hs as <-. unfold memory_size in Hr. lia.
    + destruct (ga_parts a Ha) as (Heq & Hs0 & Ho), (ga_parts b Hb) as (Heqb & Hs0b & Hob).
      assert (server_index a = server_index b) as He by lia.
      unfold disjoint_range in Hd. cbn [fst snd] in Hd.
      destruct Hr as (s & _ & _ & _ & H0 & _), Hrb as (sb & _ & _ & _ & H0b & _). lia.
  - intros b n [mb Hb]. eexists. by eapply region_at_write.
Qed.

(** A write into an object that is held. *)
Lemma holds_patch c a l i bs :
  fits c → ga_ok a → holds c a l → bytes_ok bs → (i + length bs ≤ length l)%nat →
  holds (write_at c (ga_add a (Z.of_nat i)) bs) a (splice i bs l).
Proof.
  intros Hf Ha (m & Hr & Hsl) Hbs Hi.
  destruct (ga_add_inside c a (length l) m (Z.of_nat i) Hf Ha Hr) as (_ & Hsi & Hoff & _); [lia|lia|].
  assert (region_at c (ga_add a (Z.of_nat i)) (length bs) m) as Hr'.
  { destruct Hr as (s & Hs & Hm & Hok & H0 & Hr). exists s. rewrite Hsi, Hoff.
    split; [done|]. split; [done|]. split; [done|]. split; lia. }
  pose proof (region_at_write _ _ _ _ _ _ _ Hr' Hbs Hr) as H. rewrite Hsi, decide_True in H by done.
  unfold holds. rewrite length_splice by done. eexists. split; [exact H|].
  destruct Hr as (s & _ & _ & _ & H0 & Hr). rewrite Hoff.
  rewrite slice_splice_inside, Hsl by (unfold memory_size in Hr; lia). f_equal. lia.
Qed.

Lemma fits_write c a bs m : fits c → region_at c a (length bs) m → bytes_ok bs → fits (write_at c a bs).
Proof.
  intros [Hlen Hm] Hr Hbs. split.
  - unfold write_at, put_region. cbn [servers_]. by rewrite length_alter.
  - apply Forall_lookup. intros j s. rewrite write_at_servers.
    rewrite Forall_lookup in Hm. case_decide as Hij; [|by intros; apply (Hm j)].
    intros (s0 & Hs0 & ->)%fmap_Some_1. pose proof (region_at_of _ _ _ _ Hr) as Hra.
    destruct Hr as (sa & Hsa & Hma & Hok & H0 & Hr). rewrite Hij, Hs0 in Hsa. injection Hsa as <-.
    destruct (Hm _ _ Hs0) as [Hok0 Hb0]. unfold set_rdma. cbn [rdma_ next_offset_].
    rewrite Hra. subst m. unfold mem_ok, memory_size in *. rewrite length_splice by lia.
    split; [|done]. destruct Hok0. split; [by apply splice_ok|done].
Qed.

(** The allocator's bookkeeping does not see the memories. *)
Lemma put_region_used i x c a : ca_used (put_region i x c) a ↔ ca_used c a.
Proof.
  cbn [ca_used rpc_chunk_allocator]. unfold cluster_used, put_region. cbn [servers_].
  set (j := Z.to_nat (a / 2 ^ 42)). destruct (decide (i = j)) as [->|Hne].
  - rewrite list_lookup_alter_eq. destruct (servers_ c !! j) as [s|]; simpl; split; intros (Ha & s' & Hs & Hlt);
      simplify_eq; split; eauto.
  - by rewrite list_lookup_alter_ne.
Qed.

Lemma put_region_ok i x c : ca_ok c → ca_ok (put_region i x c).
Proof.
  cbn [ca_ok rpc_chunk_allocator]. intros (Hl & Hr & Hp & Hs). unfold put_region. split; cbn [servers_ rr promises next_promise].
  - by rewrite length_alter.
  - split; [done|]. split; [done|]. apply Forall_alter; [done|]. intros s _ Hs0. exact Hs0.
Qed.

Lemma local_inv_write (slabs : gmap Z (SlabAllocator Q)) c live a bs :
  local_inv (slabs, c) live → local_inv (slabs, write_at c a bs) live.
Proof.
  intros (Hok & Hsz & Hd & Hg). split; [by apply put_region_ok|]. split; [done|]. split; [done|].
  eapply Forall_impl; [|exact Hg]. intros r [H1 H2]. split; [done|]. intros x Hx.
  apply put_region_used. by apply H2.
Qed.

(** A granted range lies in the memory of one server. *)
Lemma granted_readable c a n :
  ca_ok c → fits c → 0 ≤ a → granted c (a, n) → ga_ok a ∧ a < 2 ^ 46 ∧ readable c a (Z.to_nat n).
Proof.
  intros Hok Hf H0 [Hn Hg]. cbn [fst snd] in *. pose proof Hf as [Hlen Hm].
  assert (∀ x, a ≤ x < a + n → ∃ s, servers_ c !! Z.to_nat (x / 2 ^ 42) = Some s ∧ mem_ok (rdma_ s) ∧
            x mod 2 ^ 42 < memory_size (rdma_ s) < 2 ^ 42) as Hbyte.
  { intros x Hx. destruct (Hg x Hx) as (_ & s & Hs & Hlt). exists s. split; [done|].
    rewrite Forall_lookup in Hm. destruct (Hm _ _ Hs). split; [done|lia]. }
  assert (∀ x, a ≤ x < a + n → x / 2 ^ 42 = a / 2 ^ 42) as Hsame.
  { intros x Hx. destruct (Z.le_gt_cases (x / 2 ^ 42) (a / 2 ^ 42)) as [Hle|Hgt].
    - pose proof (Z.div_le_mono a x (2 ^ 42)). lia.
    - exfalso. set (y := (a / 2 ^ 42 + 1) * 2 ^ 42 - 1).
      pose proof (Z.div_mod a (2 ^ 42) ltac:(lia)). pose proof (Z.mod_pos_bound a (2 ^ 42) ltac:(lia)).
      pose proof (Z.div_mod x (2 ^ 42) ltac:(lia)). pose proof (Z.mod_pos_bound x (2 ^ 42) ltac:(lia)).
      destruct (Hbyte y) as (s & _ & _ & Hb & Hb'); [unfold y; nia|].
      assert (y mod 2 ^ 42 = 2 ^ 42 - 1) as Hy.
      { unfold y. replace ((a / 2 ^ 42 + 1) * 2 ^ 42 - 1) with (2 ^ 42 - 1 + (a / 2 ^ 42) * 2 ^ 42) by lia.
        by rewrite Z.mod_add, Z.mod_small by lia. }
      lia. }
  destruct (Hbyte a ltac:(lia)) as (s & Hs & Hmok & Hb).
  pose proof (lookup_lt_Some _ _ _ Hs) as Hlt. pose proof (Z.div_pos a (2 ^ 42) H0 ltac:(lia)).
  pose proof (Z.div_mod a (2 ^ 42) ltac:(lia)). pose proof (Z.mod_pos_bound a (2 ^ 42) ltac:(lia)).
  assert (a < 2 ^ 46) as Ha46 by lia.
  assert (ga_ok a) as Ha by (unfold ga_ok, in_width; lia). split; [done|]. split; [done|].
  exists (rdma_ s), s. rewrite server_index_div, offset_mod by done. split; [done|]. split; [done|]. split; [done|].
  split; [lia|]. destruct (Hbyte (a + n - 1)) as (s' & Hs' & _ & Hb'); [lia|].
  rewrite (Hsame (a + n - 1)) in Hs' by lia. rewrite Hs in Hs'. injection Hs' as <-.
  pose proof (Z.div_mod (a + n - 1) (2 ^ 42) ltac:(lia)). rewrite (Hsame (a + n - 1)) in * by lia. lia.
Qed.
Lemma apart_one r r' : disjoint_range r r' → apart [r'] r.
Proof. intros. by constructor. Qed.

Lemma apart_inside r a i n N :
  disjoint_range r (a, N) → 0 ≤ i → i + n ≤ N → apart [(a + i, n)] r.
Proof. intros Hd Hi Hn. apply apart_one. unfold disjoint_range in *. cbn [fst snd] in *. lia. Qed.

Lemma agree_weaken W W' c c' : agree W c c' → (∀ r, apart W' r → apart W r) → agree W' c c'.
Proof. intros [Hh Hr] Hw. split; [|done]. intros a l Ha Hl Hap. by apply Hh, Hw. Qed.

(** A write into a held object. *)
Lemma patch_ok c a l i bs :
  fits c → ga_ok a → holds c a l → bytes_ok bs → (i + length bs ≤ length l)%nat →
  let c' := write_at c (ga_add a (Z.of_nat i)) bs in
  holds c' a (splice i bs l) ∧ fits c' ∧ agree [(a, Z.of_nat (length l))] c c' ∧ ∃ m, region_at c (ga_add a (Z.of_nat i)) (length bs) m.
Proof.
  intros Hf Ha Hh Hbs Hi c'. pose proof (holds_patch c a l i bs Hf Ha Hh Hbs Hi) as Hnew. destruct Hh as (m & Hr & _).
  destruct (ga_add_inside c a (length l) m (Z.of_nat i) Hf Ha Hr) as (Hadd & Hsi & Hoff & Hok); [lia|lia|].
  assert (region_at c (ga_add a (Z.of_nat i)) (length bs) m) as Hr'.
  { destruct Hr as (s & Hs & Hm & Hmok & H0 & Hr). exists s. rewrite Hsi, Hoff.
    split; [done|]. split; [done|]. split; [done|]. split; lia. }
  split; [done|]. split; [by eapply fits_write|]. split; [|by exists m].
  eapply agree_weaken; [by eapply agree_write|]. intros r Hd. apply Forall_cons_iff in Hd as [Hd _].
  rewrite Hadd. apply (apart_inside r a _ _ (Z.of_nat (length l))); [done|lia|lia].
Qed.

(** A write at the start of a held object. *)
Lemma patch_start c a l bs :
  fits c → ga_ok a → holds c a l → bytes_ok bs → (length bs ≤ length l)%nat →
  let c' := write_at c a bs in
  holds c' a (splice 0 bs l) ∧ fits c' ∧ agree [(a, Z.of_nat (length l))] c c' ∧ ∃ m, region_at c a (length bs) m.
Proof.
  intros Hf Ha Hh Hbs Hi. pose proof (patch_ok c a l 0 bs Hf Ha Hh Hbs ltac:(lia)) as H. destruct Hh as (m & Hr & _).
  destruct (ga_add_inside c a (length l) m (Z.of_nat 0) Hf Ha Hr) as (Hadd & _); [lia|lia|].
  rewrite Z.add_0_r in Hadd. by rewrite Hadd in H.
Qed.

Lemma holds_slice (c : Cluster Q) a l : holds c a l → slice (Z.to_nat (offset a)) (length l) (region_of c a) = l.
Proof. intros (m & Hr & Hs). by rewrite (region_at_of _ _ _ _ Hr). Qed.

Lemma holds_prefix c a l1 l2 : holds c a (l1 ++ l2) → holds c a l1.
Proof.
  intros (m & (s & Hs & Hm & Hok & H0 & Hr) & Hsl). rewrite length_app in Hr, Hsl. exists m. split.
  - exists s. split_and!; try done. lia.
  - apply (f_equal (take (length l1))) in Hsl. rewrite take_app_length in Hsl. etrans; [|exact Hsl].
    unfold slice. rewrite take_take. f_equal. lia.
Qed.

(** A write over a whole block. *)
Lemma patch_whole c a bs :
  fits c → ga_ok a → readable c a (length bs) → bytes_ok bs →
  let c' := write_at c a bs in
  holds c' a bs ∧ fits c' ∧ agree [(a, Z.of_nat (length bs))] c c' ∧ ∃ m, region_at c a (length bs) m.
Proof.
  intros Hf Ha [m Hr] Hbs c'. split; [by eapply holds_write|]. split; [by eapply fits_write|].
  split; [by eapply agree_write|by exists m].
Qed.

Lemma holds_readable c a l : holds c a l → readable c a (length l).
Proof. intros (m & Hr & _). by exists m. Qed.

Lemma holds_bytes c a l : holds c a l → bytes_ok l.
Proof. intros (m & (s & _ & _ & [Hm _] & _) & <-). unfold slice. by apply Forall_take, Forall_drop. Qed.

Lemma live_apart (slabs : gmap Z (SlabAllocator Q)) c (live rs : list (Z * Z)) :
  local_inv (slabs, c) (live ++ rs) → pairwise disjoint_range rs ∧ Forall (λ r, Forall (disjoint_range r) rs) live.
Proof. intros (_ & _ & Hd & _). cbn [fst] in Hd. by apply pairwise_app in Hd as (_ & (_ & H1 & H2)%pairwise_app & _). Qed.

(** Blocks that are pairwise disjoint. *)
Lemma alloc_apart (slabs : gmap Z (SlabAllocator Q)) (c : Cluster Q) r live : local_inv (slabs, c) (r :: live) → Forall (λ r', disjoint_range r' r) live.
Proof.
  intros H. destruct (live_apart slabs c [r] live H) as [_ Hr]. apply Forall_cons_iff in Hr as [Hr _].
  eapply Forall_impl; [|exact Hr]. intros r' Hd. by symmetry.
Qed.

(** ** Free blocks *)

(** The number of free blocks of size [n]. *)
Definition nfree (slabs : gmap Z (SlabAllocator Q)) (n : nat) : nat := length (filter (λ r, r.2 = Z.of_nat n) (avail slabs)).

Lemma nfree_slab (slabs : gmap Z (SlabAllocator Q)) (c : Cluster Q) live n :
  local_inv (slabs, c) live → (0 < nfree slabs n)%nat → ∃ sl, slabs !! Z.of_nat n = Some sl ∧ q_contents (free_list_ sl) ≠ [].
Proof.
  intros (_ & Hsz & _). cbn [fst] in Hsz. unfold nfree. destruct (filter _ _) as [|r l] eqn:E; [cbn; lia|]. intros _.
  assert (r ∈ filter (λ r : Z * Z, r.2 = Z.of_nat n) (avail slabs)) as Hr by (rewrite E; left).
  apply list_elem_of_filter in Hr as [Hrn Hr]. unfold avail in Hr. apply list_elem_of_In, in_concat in Hr as (rs & Hrs & Hr).
  apply in_map_iff in Hrs as ([sz sl] & <- & Hin). apply list_elem_of_In, elem_of_map_to_list in Hin. cbn [snd] in Hr.
  unfold ranges in Hr. apply in_map_iff in Hr as (o & <- & Ho). cbn [snd] in Hrn. destruct (Hsz _ _ Hin) as [Hs _].
  exists sl. rewrite <-Hrn, Hs. split; [done|]. intros Hnil. by rewrite Hnil in Ho.
Qed.

Lemma nfree_take (slabs slabs' : gmap Z (SlabAllocator Q)) r n : avail slabs ≡ₚ r :: avail slabs' → (nfree slabs n ≤ S (nfree slabs' n))%nat.
Proof.
  intros Hp. unfold nfree. rewrite (filter_Permutation _ _ _ Hp), filter_cons. case_decide; cbn [length]; lia.
Qed.

End writes.

(** ** Footprints *)

Section footprint.
Context {cfg : FaunusConfig}.
Context {Q : Type → Type} `{!ConcurrentQueue Q}.
Implicit Types (c : Cluster Q) (t : tree).

Definition item_block (b : KVBlock) : Z * Z := (getAddr b, Z.of_nat sizeof_KVItem).

(** The blocks of memory a tree occupies. *)
Fixpoint blocks_of t : list (Z * Z) :=
  match t with
  | TLeaf a leaf _ => (a, Z.of_nat sizeof_LeafNode) :: map item_block (live leaf)
  | TNode a _ ts => (a, Z.of_nat sizeof_InternalNode) :: concat (map blocks_of ts)
  end.

Lemma getAddr_ok b : ga_ok (getAddr b).
Proof. apply ga_of_u64_ok. Qed.

Lemma length_enc_KVItem i : length (enc_KVItem i) = sizeof_KVItem.
Proof. unfold enc_KVItem, sizeof_KVItem. by rewrite length_app, !length_be_bytes. Qed.

Lemma enc_KVItem_bytes i : bytes_ok (enc_KVItem i).
Proof. unfold enc_KVItem. apply Forall_app. split; apply be_bytes_ok. Qed.

Lemma enc_LeafNode_bytes leaf : bytes_ok (enc_LeafNode leaf).
Proof.
  unfold enc_LeafNode, enc_Header, pad_to. rewrite !Forall_app. split; [|apply Forall_concat, Forall_map, list.Forall_forall; intros b _; apply le_bytes_ok].
  split; [|apply le_bytes_ok]. split; [|by apply Forall_replicate].
  split; [apply le_bytes_ok|]. split; [apply le_bytes_ok|]. split; apply be_bytes_ok.
Qed.

Lemma enc_InternalNode_bytes n : bytes_ok (enc_InternalNode n).
Proof.
  unfold enc_InternalNode, enc_Header, pad_to. rewrite !Forall_app. split; [|by apply Forall_replicate].
  split; [|apply Forall_concat, Forall_map, list.Forall_forall; intros e _; apply Forall_app; split; [apply be_bytes_ok|apply le_bytes_ok]].
  split; [|apply le_bytes_ok]. split; [|by apply Forall_replicate].
  split; [apply le_bytes_ok|]. split; [apply le_bytes_ok|]. split; apply be_bytes_ok.
Qed.

Lemma item_at_agree W c c' bs items :
  agree W c c' → Forall (apart W) (map item_block bs) →
  Forall2 (item_at c) bs items → Forall2 (item_at c') bs items.
Proof.
  intros Ha Hw. rewrite Forall_map in Hw. induction 1 as [|b kv bs items (Hh & Hok & Hfp) _ IH]; [constructor|].
  apply Forall_cons_iff in Hw as [Hb Hw]. constructor; [|by apply IH]. split; [|done].
  eapply ag_holds; [done|apply getAddr_ok|done|]. unfold enc_KVItem. by rewrite length_app, !length_be_bytes.
Qed.

(** The children of a stored node have proper addresses. *)
Lemma child_addr_ok n ts i t :
  node_ok n → kids n = map addr_of ts → ts !! i = Some t → ga_ok (addr_of t).
Proof.
  intros (_ & _ & He) Hk Hi.
  assert (addr_of t ∈ kids n) as Hin.
  { rewrite Hk. apply list_elem_of_fmap. exists t. split; [done|]. by eapply list_elem_of_lookup_2. }
  unfold kids in Hin. apply elem_of_take in Hin as (j & Hj & _). rewrite list_lookup_fmap in Hj.
  apply fmap_Some_1 in Hj as (e & Hj & ->). rewrite Forall_lookup in He. apply (He _ _ Hj).
Qed.

Lemma descend_addr_ok c key n : ∀ l lo hi t t0,
  stored c l lo hi t → ga_ok (addr_of t) → descend n key t = Some t0 → ga_ok (addr_of t0).
Proof.
  induction n as [|n IH]; intros l lo hi t t0 Hst Ha Hd; [by simplify_eq/=|].
  destruct t as [|a nd ts]; [done|]. cbn [descend] in Hd.
  destruct (ts !! rank (seps nd) key) as [t'|] eqn:Ht; [|done].
  inversion Hst as [|? ? ? l' ? ? Hh Hok Hs Hlk Hlv Hf1 Hf2 Hb Hsp Hk Hna Hts]; subst.
  assert (length ts = S (length (seps nd))) as Hlen.
  { rewrite <-(length_map addr_of), <-Hk, length_kids, length_seps by apply Hs. done. }
  pose proof (lookup_lt_Some _ _ _ Ht) as Hlt. set (bd := bounds (fence_first (iheader nd)) (fence_second (iheader nd)) nd) in *.
  assert (length bd = S (S (length (seps nd)))) as Hbl by (unfold bd, bounds; simpl; rewrite length_app; simpl; lia).
  destruct (lookup_lt_is_Some_2 bd (rank (seps nd) key)) as [b Hb1]; [lia|].
  destruct (lookup_lt_is_Some_2 bd (S (rank (seps nd) key))) as [b' Hb2]; [lia|].
  eapply (IH l' b b' t'); [by eapply Hts|by eapply child_addr_ok|done].
Qed.

(** A stored tree survives every write outside its blocks. *)
Lemma stored_agree W c c' l lo hi t :
  agree W c c' → stored c l lo hi t → ga_ok (addr_of t) → Forall (apart W) (blocks_of t) →
  stored c' l lo hi t.
Proof.
  intros Ha Hst. induction Hst as [a leaf items lo hi li Hh Hok Hhd Hit Hlk Hnd Hrg
                                  |a n ts l lo hi Hh Hok Hs Hlk Hlv Hf1 Hf2 Hb Hsp Hk Hna Hts IH];
    intros Haddr Hw; cbn [blocks_of addr_of] in *; apply Forall_cons_iff in Hw as [Hw0 Hw].
  - eapply stored_leaf; eauto using item_at_agree.
    apply (ag_holds W c c' Ha); [done|done|]. by rewrite length_enc_LeafNode by apply Hok.
  - apply stored_node; try done.
    + apply (ag_holds W c c' Ha); [done|done|]. by rewrite length_enc_InternalNode by apply Hok.
    + intros i t b b' Hi Hb1 Hb2. eapply IH; [done..|by eapply child_addr_ok|].
      apply list.Forall_forall. intros r Hr. rewrite list.Forall_forall in Hw. apply Hw.
      apply list_elem_of_In, in_concat. exists (blocks_of t). split; [|by apply list_elem_of_In].
      apply list_elem_of_In, list_elem_of_fmap. exists t. split; [done|]. by eapply list_elem_of_lookup_2.
Qed.

(** ** Replacing one subtree *)

(** [t] with the subtree [n] levels down on the path of [key] replaced by [t1]. *)
Fixpoint upd (n : nat) (key : Z) (t1 t : tree) : tree :=
  match n, t with
  | O, _ => t1
  | S n', TNode a nd ts => TNode a nd (alter (upd n' key t1) (rank (seps nd) key) ts)
  | S _, TLeaf _ _ _ => t
  end.

Lemma leaf_addrs_upd key t1 n : ∀ t t0,
  descend n key t = Some t0 → leaf_addrs t1 = leaf_addrs t0 → leaf_addrs (upd n key t1 t) = leaf_addrs t.
Proof.
  induction n as [|n IH]; intros t t0 H He; [by destruct t; cbn in *; simplify_eq|].
  destruct t as [|a nd ts]; [done|]. cbn [descend upd leaf_addrs] in *. f_equal. set (i := rank (seps nd) key) in *. clearbody i.
  destruct (ts !! i) as [t'|] eqn:Ht; [|done]. apply list_eq. intros j. rewrite !list_lookup_fmap.
  destruct (decide (j = i)) as [->|Hj]; [|by rewrite list_lookup_alter_ne]. rewrite list_lookup_alter_eq, Ht. cbn. f_equal. by eapply IH.
Qed.

(** The blocks of [t] outside that subtree. *)
Fixpoint rest_blocks (n : nat) (key : Z) (t : tree) : list (Z * Z) :=
  match n, t with
  | O, _ => []
  | S n', TNode a nd ts =>
      let i := rank (seps nd) key in
      (a, Z.of_nat sizeof_InternalNode) ::
        concat (map blocks_of (take i ts)) ++ concat (map blocks_of (drop (S i) ts)) ++
        match ts !! i with Some t' => rest_blocks n' key t' | None => [] end
  | S _, TLeaf _ _ _ => []
  end.

Lemma alter_middle {A} (f : A → A) i (l : list A) x :
  l !! i = Some x → alter f i l = take i l ++ f x :: drop (S i) l.
Proof.
  intros H. pose proof (lookup_lt_Some _ _ _ H). rewrite <-insert_take_drop by done. apply list_eq. intros j.
  destruct (decide (i = j)) as [<-|Hne].
  - by rewrite list_lookup_alter_eq, H, list_lookup_insert_eq.
  - by rewrite list_lookup_alter_ne, list_lookup_insert_ne.
Qed.

Lemma blocks_of_middle a nd ts i t' :
  ts !! i = Some t' →
  blocks_of (TNode a nd ts) ≡ₚ
    ((a, Z.of_nat sizeof_InternalNode) :: concat (map blocks_of (take i ts)) ++ concat (map blocks_of (drop (S i) ts)))
      ++ blocks_of t'.
Proof.
  intros H. cbn [blocks_of]. rewrite <-(take_drop_middle ts i t' H) at 1.
  rewrite map_app, concat_app. cbn [map concat app]. constructor. rewrite <-app_assoc. f_equiv. apply Permutation_app_comm.
Qed.

Lemma blocks_descend key n : ∀ t t0,
  descend n key t = Some t0 → blocks_of t ≡ₚ rest_blocks n key t ++ blocks_of t0.
Proof.
  induction n as [|n IH]; intros t t0 H.
  { simpl in H. simplify_eq. by destruct t0. }
  destruct t as [|a nd ts]; [done|]. cbn [descend rest_blocks] in *.
  destruct (ts !! rank (seps nd) key) as [t'|] eqn:Ht; [|done].
  rewrite (blocks_of_middle a nd ts _ t' Ht), (IH t' t0 H). cbn [app]. constructor. by rewrite <-!app_assoc.
Qed.

Lemma blocks_upd key t1 n : ∀ t t0,
  descend n key t = Some t0 → blocks_of (upd n key t1 t) ≡ₚ rest_blocks n key t ++ blocks_of t1.
Proof.
  induction n as [|n IH]; intros t t0 H; [by destruct t|].
  destruct t as [|a nd ts]; [done|]. cbn [descend rest_blocks upd] in *.
  destruct (ts !! rank (seps nd) key) as [t'|] eqn:Ht; [|done].
  rewrite (blocks_of_middle a nd _ (rank (seps nd) key) (upd n key t1 t')).
  2:{ by rewrite list_lookup_alter_eq, Ht. }
  pose proof (lookup_lt_Some _ _ _ Ht).
  rewrite (alter_middle _ _ _ _ Ht), take_app_length' by (rewrite length_take; lia).
  rewrite drop_app_ge, length_take by (rewrite length_take; lia).
  replace (S (rank (seps nd) key) - rank (seps nd) key `min` length ts)%nat with 1%nat by lia.
  rewrite (IH t' t0 H). cbn [app drop]. constructor. by rewrite drop_0, <-!app_assoc.
Qed.

Lemma addr_of_upd key t1 n : ∀ t t0,
  descend n key t = Some t0 → addr_of t1 = addr_of t0 → addr_of (upd n key t1 t) = addr_of t.
Proof. destruct n; intros [] t0 H Ha; simpl in *; simplify_eq; done. Qed.

(** A change inside the subtree on the path of [key] changes the stored tree there. *)
Lemma stored_upd W c c' key t0 t1 n : agree W c c' → ∀ l lo hi t,
  stored c l lo hi t → ga_ok (addr_of t) → lo ≤ key < hi → descend n key t = Some t0 →
  addr_of t1 = addr_of t0 → Forall (apart W) (rest_blocks n key t) →
  (∀ b b', stored c (l - n) b b' t0 → b ≤ key < b' → stored c' (l - n) b b' t1) →
  stored c' l lo hi (upd n key t1 t).
Proof.
  intros Hag. induction n as [|n IH]; intros l lo hi t Hst Hga Hkey Hd Ha Hw H1.
  { simpl in Hd. simplify_eq. rewrite Nat.sub_0_r in H1. destruct t0; by apply H1. }
  destruct t as [|a nd ts]; [done|]. cbn [descend rest_blocks upd] in *.
  destruct (ts !! rank (seps nd) key) as [t'|] eqn:Ht; [|done].
  inversion Hst as [|? ? ? l' ? ? Hh Hok Hs Hlk Hlv Hf1 Hf2 Hb Hsp Hk Hna Hts]; subst. cbn [addr_of] in *.
  apply Forall_cons_iff in Hw as [Hw0 Hw]. rewrite !Forall_app in Hw. destruct Hw as (Hwl & Hwr & Hwc).
  assert (map addr_of (alter (upd n key t1) (rank (seps nd) key) ts) = map addr_of ts) as Hmap.
  { apply list_eq. intros j. rewrite !list_lookup_fmap.
    destruct (decide (rank (seps nd) key = j)) as [<-|Hne]; [|by rewrite list_lookup_alter_ne].
    rewrite list_lookup_alter_eq, Ht. simpl. f_equal. by eapply addr_of_upd. }
  apply stored_node; try done.
  - apply (ag_holds W c c' Hag); [done|done|]. by rewrite length_enc_InternalNode by apply Hok.
  - by rewrite Hmap.
  - intros j t b b' Hj Hb1 Hb2. destruct (decide (rank (seps nd) key = j)) as [<-|Hne].
    + rewrite list_lookup_alter_eq, Ht in Hj. simpl in Hj. simplify_eq.
      destruct (rank_bounds _ _ (seps nd) key Hkey) as (b0 & b0' & Hb01 & Hb02 & Hbk).
      unfold bounds in Hb1, Hb2. rewrite Hb01 in Hb1. rewrite Hb02 in Hb2. simplify_eq.
      apply IH; try done; [by eapply Hts|by eapply child_addr_ok].
    + rewrite list_lookup_alter_ne in Hj by done.
      apply (stored_agree W c c'); [done|by eapply Hts|by eapply child_addr_ok|].
      apply list.Forall_forall. intros r Hr.
      assert (r ∈ concat (map blocks_of (take (rank (seps nd) key) ts)) ∨
              r ∈ concat (map blocks_of (drop (S (rank (seps nd) key)) ts))) as [Hin|Hin].
      { destruct (decide (j < rank (seps nd) key)%nat); [left|right];
          apply list_elem_of_In, in_concat; exists (blocks_of t);
          (split; [|by apply list_elem_of_In]); apply list_elem_of_In, list_elem_of_fmap;
          exists t; (split; [done|]); apply list_elem_of_lookup.
        - exists j. by rewrite lookup_take_lt.
        - exists (j - S (rank (seps nd) key))%nat. rewrite lookup_drop. rewrite <-Hj. f_equal. lia. }
      * rewrite list.Forall_forall in Hwl. by apply Hwl.
      * rewrite list.Forall_forall in Hwr. by apply Hwr.
Qed.

(** Descending in the changed tree. *)
Lemma descend_upd k key t0 t1 n : ∀ t,
  descend n key t = Some t0 →
  (descend n k t = Some t0 ∧ descend n k (upd n key t1 t) = Some t1) ∨
  (descend n k (upd n key t1 t) = descend n k t ∧ k ≠ key).
Proof.
  induction n as [|n IH]; intros t H; [left; by destruct t|].
  destruct t as [|a nd ts]; [done|]. cbn [descend upd] in *.
  destruct (ts !! rank (seps nd) key) as [t'|] eqn:Ht; [|done].
  destruct (decide (rank (seps nd) key = rank (seps nd) k)) as [He|Hne].
  - rewrite <-He, list_lookup_alter_eq, Ht. simpl. by apply IH.
  - right. rewrite list_lookup_alter_ne by done. split; [done|congruence].
Qed.

Lemma contents_outside c l lo hi t k : stored c l lo hi t → ¬ (lo ≤ k < hi) → contents t !! k = None.
Proof.
  intros Hst Hk. unfold contents. apply not_elem_of_list_to_map_1. intros Hin.
  apply list_elem_of_fmap in Hin as ([k' v] & -> & Hin). apply list_elem_of_fmap in Hin as (kv & Heq & Hkv).
  simplify_eq/=. by apply Hk, (stored_items c l lo hi t Hst).
Qed.

(** If the new subtree maps [key] to [v] and is the old one elsewhere, so does the
    whole tree. *)
Lemma contents_upd c c' l lo hi t t0 t1 n key v :
  stored c l lo hi t → stored c' l lo hi (upd n key t1 t) → lo ≤ key < hi → (n ≤ l)%nat →
  descend n key t = Some t0 → contents t1 = <[key := v]> (contents t0) →
  contents (upd n key t1 t) = <[key := v]> (contents t).
Proof.
  intros Hst Hst' Hkey Hn Hd Hc. apply map_eq. intros k.
  destruct (decide (lo ≤ k < hi)) as [Hk|Hk].
  - destruct (descend_stored c k n l lo hi t Hst Hk Hn) as (ta & _ & _ & Hda & _ & _ & Hca).
    destruct (descend_stored c' k n l lo hi _ Hst' Hk Hn) as (tb & _ & _ & Hdb & _ & _ & Hcb).
    rewrite Hcb. destruct (descend_upd k key t0 t1 n t Hd) as [[H1 H2]|[H1 Hne]].
    + rewrite H1 in Hda. rewrite H2 in Hdb. simplify_eq. rewrite Hc.
      destruct (decide (key = k)) as [->|]; [by rewrite !lookup_insert_eq|by rewrite !lookup_insert_ne].
    + rewrite H1, Hda in Hdb. simplify_eq. by rewrite lookup_insert_ne.
  - rewrite (contents_outside c' l lo hi _ k Hst' Hk).
    rewrite lookup_insert_ne by (intros ->; lia). symmetry. by eapply contents_outside.
Qed.
End footprint.
