(* ===== verification/FaunusInsert.v ===== *)
(** * What insert does on a stored tree

    Sequential runs of the insert handler of src/kv_index/faunus_index.cpp on an
    index that holds a tree: the key-value item is written to a fresh block, the
    slot word of the leaf is exchanged, and the replaced item is given back to the
    allocator.  This file has the steps on the memories; the whole handler and the
    invariant [index_inv] are in FaunusUpsert.v. *)

From S2P Require Import Prelude GlobalAddress RdmaSim ThreadStats Queue MemoryServer Slab RdmaManager KVBlock FaunusNode FaunusIndex FaunusTree FaunusRead FaunusFrame.

(** ** Verbs inside a region *)

Section verbs.
Context {Q : Type → Type} `{!ConcurrentQueue Q}.
Implicit Types (c : Cluster Q) (a : GlobalAddress).

Lemma write_verb off bs m :
  mem_ok m → 0 ≤ off → off + Z.of_nat (length bs) ≤ memory_size m →
  rdma_verb (mkOp off (op_write (Some bs) (Z.of_nat (length bs)))) m =
    Done (true, out_none) (splice (Z.to_nat off) bs m).
Proof.
  intros [_ Hm] H0 Hr. unfold rdma_verb, rdma_write, mbind, M_bind, get. cbn [addr op].
  rewrite wrap_small by (unfold in_width; lia). rewrite (proj2 (Z.ltb_ge _ _)) by lia. unfold modify, mret, M_ret.
  by rewrite Nat2Z.id, firstn_all.
Qed.

Lemma cas_verb off e d m :
  mem_ok m → 0 ≤ off → off + 8 ≤ memory_size m → in_width 64 e → slice (Z.to_nat off) 8 m = le_bytes 8 e →
  rdma_verb (mkOp off (op_cas e d)) m = Done (true, out_expected e) (splice (Z.to_nat off) (le_bytes 8 d) m).
Proof.
  intros [_ Hm] H0 Hr He Hs. unfold rdma_verb, rdma_cas, mbind, M_bind, get. cbn [addr op].
  rewrite wrap_small by (unfold in_width; lia). rewrite (proj2 (Z.ltb_ge _ _)) by lia.
  assert (load64 off m = e) as ->.
  { unfold load64. rewrite Hs, le_val_le_bytes. apply Z.mod_small, He. }
  by rewrite Z.eqb_refl.
Qed.

Definition cons_out (o : op_out) (r : outcome (Cluster Q) (bool * list op_out)) :
    outcome (Cluster Q) (bool * list op_out) :=
  match r with Done (b, outs) c => Done (b, o :: outs) c | Fault f c => Fault f c end.

Lemma ops_read c a l n ops :
  holds c a l → length l = n →
  ops_in_order (mkOp a (op_read true (Z.of_nat n)) :: ops) c = cons_out (out_bytes l) (ops_in_order ops c).
Proof.
  intros (m & (s & Hs & Hm & Hok & H0 & Hr) & Hsl) <-. cbn [ops_in_order addr op]. rewrite Hs, Hm, read_verb by done.
  by rewrite <-Hm, put_region_same, Hm, Hsl by done.
Qed.

Lemma ops_write c a bs m ops :
  region_at c a (length bs) m →
  ops_in_order (write_op a bs :: ops) c = cons_out out_none (ops_in_order ops (write_at c a bs)).
Proof.
  intros Hr. pose proof (region_at_of _ _ _ _ Hr) as Ho. destruct Hr as (s & Hs & Hm & Hok & H0 & Hr).
  unfold write_op. cbn [ops_in_order addr op]. rewrite Hs, Hm, write_verb by done.
  unfold write_at. by rewrite Ho.
Qed.

Lemma ops_cas c a e d ops :
  holds c a (le_bytes 8 e) → in_width 64 e →
  ops_in_order (mkOp a (op_cas e d) :: ops) c =
    cons_out (out_expected e) (ops_in_order ops (write_at c a (le_bytes 8 d))).
Proof.
  intros (m & Hr & Hsl) He. pose proof (region_at_of _ _ _ _ Hr) as Ho. destruct Hr as (s & Hs & Hm & Hok & H0 & Hr).
  rewrite length_le_bytes in Hr, Hsl. cbn [ops_in_order addr op].
  rewrite Hs, Hm, (cas_verb _ e d m) by (done || lia). unfold write_at. by rewrite Ho.
Qed.
End verbs.

(** ** Runs that move memory *)

Section moves.
Context {cfg : FaunusConfig}.
Context {Q : Type → Type} `{!ConcurrentQueue Q}.
Context {C Ent : Type} `{!NodeCache C Ent (GlobalAddress * InternalNode)}.
Implicit Types w : World Q C.

(** [w] with other memories and slabs. *)
Definition relocate (c : Cluster Q) (slabs : gmap Z (SlabAllocator Q)) w : World Q C :=
  mkWorld (mkNet (mgr (w_net w)) c (tid (w_net w)) (others (w_net w))) slabs (w_rand w)
    (root_offset_pointer_ w) (faunus_cache_ w) (maintenance_queues w) (w_tid_hash w).

Lemma quiet_relocate c slabs w w' : quiet w w' → quiet (relocate c slabs w) (relocate c slabs w').
Proof. intros []. by split. Qed.

Lemma perform_all_run w ops outs c' :
  others (w_net w) = [] → ops_in_order ops (cl w) = Done (true, outs) c' →
  ∃ w', perform_all (C := C) ops w = Done (true, outs) w' ∧ quiet (relocate c' (w_slabs w) w) w'.
Proof.
  intros Ho H. pose proof (perform_batch_run ops (mgr (w_net w)) (cl w) (tid (w_net w))) as Hb.
  unfold ends_like in Hb. rewrite H in Hb. destruct Hb as (r & g & Hb & Hr & Ht). simpl in Hr. subst r.
  assert (mkNet (mgr (w_net w)) (cl w) (tid (w_net w)) [] = w_net w) as Hn
    by (unfold cl; destruct (w_net w) as [? ? ? os]; simpl in Ho; by subst os).
  rewrite Hn in Hb. unfold perform_all, on_net, zoom. rewrite Hb. eexists. split; [reflexivity|]. by split.
Qed.

Lemma perform_run w o out c' :
  others (w_net w) = [] → ops_in_order [o] (cl w) = Done (true, [out]) c' →
  ∃ w', perform (C := C) o w = Done (true, out) w' ∧ quiet (relocate c' (w_slabs w) w) w'.
Proof.
  intros Ho H. cbn [ops_in_order] in H.
  assert (cluster_at (w_net w) = cl w) as Hc by (unfold cluster_at; by rewrite Ho).
  destruct (servers_ (cl w) !! _) as [s|] eqn:Hs; [|done].
  pose proof (perform_op_run o (w_net w) _ s eq_refl) as Hp. rewrite Hc in Hp. specialize (Hp Hs).
  destruct (rdma_verb _ _) as [[[] out'] x|f x]; simplify_eq.
  destruct Hp as (g & Hp & Ht). unfold perform, on_net, zoom. rewrite Hp. eexists. split; [reflexivity|].
  split; try done. simpl. by rewrite Ho.
Qed.

(** ** The allocator *)

Lemma avail_take (slabs : gmap Z (SlabAllocator Q)) sz sl sl' o :
  slabs !! sz = Some sl → slab_size_ sl = sz → slab_size_ sl' = sz →
  q_contents (free_list_ sl) ≡ₚ o :: q_contents (free_list_ sl') →
  avail slabs ≡ₚ (o, sz) :: avail (<[sz := sl']> slabs).
Proof.
  intros Hs Hsz Hsz' Hp. rewrite (avail_lookup _ _ _ Hs), avail_insert. unfold ranges. by rewrite Hsz, Hsz', Hp.
Qed.

(** Moving a block between the free list and the program's blocks. *)
Lemma local_inv_move (slabs slabs' : gmap Z (SlabAllocator Q)) (c : Cluster Q) sz sl' live live' :
  local_inv (slabs, c) live → slabs' = <[sz := sl']> slabs → slab_size_ sl' = sz → is_Some (slabs !! sz) →
  avail slabs ++ live ≡ₚ avail slabs' ++ live' → local_inv (slabs', c) live'.
Proof.
  intros (Hok & Hsz & Hd & Hg) -> Hs [sl Hsl] Hp. split; [done|]. split; [|split].
  - intros k s. cbn [fst]. rewrite lookup_insert. case_decide; [|by apply Hsz]. intros. simplify_eq.
    split; [done|]. by apply (Hsz _ sl).
  - cbn [fst] in *. by eapply pairwise_perm; [apply _|exact Hp|].
  - cbn [fst snd] in *. by rewrite <-Hp.
Qed.

(** The allocator without growth: a block of the free list becomes the program's. *)
Lemma local_allocate_run w n sl live :
  w_slabs w !! Z.of_nat n = Some sl → q_contents (free_list_ sl) ≠ [] →
  local_inv (w_slabs w, cl w) live → fits (cl w) →
  ∃ x slabs', on_alloc (C := C) (local_allocate (Z.of_nat n)) w = Done x (relocate (cl w) slabs' w) ∧
    local_inv (slabs', cl w) ((x, Z.of_nat n) :: live) ∧ is_Some (slabs' !! Z.of_nat n) ∧
    ga_ok x ∧ x < 2 ^ 46 ∧ readable (cl w) x n ∧ (∀ k, k ≠ Z.of_nat n → slabs' !! k = w_slabs w !! k) ∧
    avail (w_slabs w) ≡ₚ (x, Z.of_nat n) :: avail slabs'.
Proof.
  intros Hsl Hne Hinv Hf. pose proof Hinv as (Hok & Hsz & _ & Hg). destruct (Hsz _ _ Hsl) as [Hsize Hpos].
  destruct (slab_try_dequeue_spec sl (cl w)) as [(o & sl' & Hd & Hs1 & Hs2 & Hp)|[_ Hnil]]; [|done].
  pose proof (avail_take (w_slabs w) (Z.of_nat n) sl sl' o Hsl Hsize ltac:(congruence) Hp) as Hav.
  assert (granted (cl w) (o, Z.of_nat n)) as Hgo.
  { rewrite list.Forall_forall in Hg. apply Hg. cbn [fst]. rewrite Hav. apply list_elem_of_here. }
  assert (0 ≤ o) as Ho by (destruct Hgo as [_ Hgo]; cbn [fst snd] in Hgo; by apply (Hgo o); lia).
  destruct (granted_readable (cl w) o (Z.of_nat n) Hok Hf Ho Hgo) as (Hga & H46 & Hrd). rewrite Nat2Z.id in Hrd.
  exists o, (<[Z.of_nat n := sl']> (w_slabs w)). split.
  { unfold on_alloc, zoom, local_allocate. cbn [fst snd]. rewrite Hsl.
    unfold slab_allocate, mbind, M_bind. fold (cl w). by rewrite Hd. }
  split; [|split; [rewrite lookup_insert_eq; by eexists|]].
  2:{ split; [done|]. split; [done|]. split; [done|]. split; [|exact Hav]. intros k Hk. by rewrite lookup_insert_ne. }
  eapply local_inv_move; [exact Hinv|done|congruence|by eexists|]. rewrite Hav. cbn [app]. apply Permutation_middle.
Qed.

Lemma allocate_run w n sl live :
  w_slabs w !! Z.of_nat n = Some sl → q_contents (free_list_ sl) ≠ [] →
  local_inv (w_slabs w, cl w) live → fits (cl w) →
  ∃ x slabs', allocate (C := C) n w = Done x (relocate (cl w) slabs' w) ∧
    local_inv (slabs', cl w) ((x, Z.of_nat n) :: live) ∧ is_Some (slabs' !! Z.of_nat n) ∧
    ga_ok x ∧ x < 2 ^ 46 ∧ readable (cl w) x n ∧ (∀ k, k ≠ Z.of_nat n → slabs' !! k = w_slabs w !! k) ∧
    avail (w_slabs w) ≡ₚ (x, Z.of_nat n) :: avail slabs'.
Proof.
  intros Hsl Hne Hinv Hf. destruct (local_allocate_run w n sl live Hsl Hne Hinv Hf) as (x & slabs' & H & Hi & Hs & Hga & H46 & Hrest).
  exists x, slabs'. split; [|done]. unfold allocate. rewrite (bind_done _ _ _ _ _ H). unfold mret, M_ret. f_equal.
  unfold ga_ok, in_width in Hga. unfold ga_of_u64. rewrite (wrap_small 64 x) by (unfold in_width; lia). by apply wrap_small.
Qed.

Lemma free_run w n x live :
  is_Some (w_slabs w !! Z.of_nat n) → local_inv (w_slabs w, cl w) ((x, Z.of_nat n) :: live) →
  ∃ slabs', free (C := C) n x w = Done tt (relocate (cl w) slabs' w) ∧ local_inv (slabs', cl w) live ∧
    avail slabs' ≡ₚ (x, Z.of_nat n) :: avail (w_slabs w).
Proof.
  intros [sl Hsl] Hinv. pose proof Hinv as (_ & Hsz & _). destruct (Hsz _ _ Hsl) as [Hsize Hpos].
  exists (<[Z.of_nat n := mkSlab (slab_size_ sl) (num_slabs_ sl) (q_enqueue x (free_list_ sl))]> (w_slabs w)). split.
  { unfold free, on_alloc, zoom, local_free. cbn [fst snd]. by rewrite Hsl. }
  assert (avail (<[Z.of_nat n := mkSlab (slab_size_ sl) (num_slabs_ sl) (q_enqueue x (free_list_ sl))]> (w_slabs w)) ≡ₚ
          (x, Z.of_nat n) :: avail (w_slabs w)) as Hav.
  { rewrite (avail_lookup _ _ _ Hsl), avail_insert. unfold ranges. cbn [slab_size_ free_list_].
    rewrite q_contents_enqueue. cbn [map app]. by rewrite Hsize. }
  split; [|done]. eapply local_inv_move; [exact Hinv|reflexivity|exact Hsize|by eexists|].
  rewrite Hav. symmetry. apply Permutation_middle.
Qed.
End moves.

(** ** Exchanging one slot of a leaf *)

Section slot.
Context {cfg : FaunusConfig}.
Context {Q : Type → Type} `{!ConcurrentQueue Q}.
Implicit Types c : Cluster Q.

Definition put_slot (i : nat) (b : KVBlock) (leaf : LeafNode) : LeafNode :=
  mkLeaf (lheader leaf) (<[i := b]> (kv_blocks leaf)).

Lemma enc_put_slot i b leaf :
  length (kv_blocks leaf) = branch_factor → (i < branch_factor)%nat →
  enc_LeafNode (put_slot i b leaf) = splice (sizeof_Header + 8 * i) (le_bytes 8 b) (enc_LeafNode leaf).
Proof.
  intros Hlen Hi. unfold enc_LeafNode, put_slot. cbn [lheader kv_blocks].
  rewrite splice_app_r, length_enc_Header by (rewrite length_enc_Header; lia). f_equal.
  replace (sizeof_Header + 8 * i - sizeof_Header)%nat with (8 * i)%nat by lia.
  rewrite <-(concat_insert _ 8).
  - by rewrite <-list_fmap_insert.
  - apply Forall_map, list.Forall_forall. intros x _. apply length_le_bytes.
  - apply length_le_bytes.
  - rewrite length_map. lia.
Qed.

Lemma slot_bytes i b leaf :
  length (kv_blocks leaf) = branch_factor → kv_blocks leaf !! i = Some b →
  slice (sizeof_Header + 8 * i) 8 (enc_LeafNode leaf) = le_bytes 8 b.
Proof.
  intros Hlen Hb. unfold enc_LeafNode. rewrite slice_app_r, length_enc_Header by (rewrite length_enc_Header; lia).
  replace (sizeof_Header + 8 * i - sizeof_Header)%nat with (8 * i)%nat by lia. apply slice_concat.
  - apply Forall_map, list.Forall_forall. intros x _. apply length_le_bytes.
  - by rewrite list_lookup_fmap, Hb.
Qed.

Lemma put_slot_ok i b leaf : leaf_ok leaf → in_width 64 b → leaf_ok (put_slot i b leaf).
Proof.
  intros (Hh & Hlen & Hw) Hb. split; [done|]. split; [by cbn; rewrite length_insert|].
  by apply Forall_insert.
Qed.

(** The live slots around slot [i]. *)
Definition live_of (bs : list KVBlock) : list KVBlock := filter (λ b, isFree b = false) bs.

Lemma live_split leaf i b :
  kv_blocks leaf !! i = Some b →
  live leaf = live_of (take i (kv_blocks leaf)) ++ live_of [b] ++ live_of (drop (S i) (kv_blocks leaf)).
Proof.
  intros Hb. unfold live, live_of. rewrite <-(take_drop_middle _ _ _ Hb) at 1.
  rewrite list.filter_app. f_equal. apply (list.filter_app _ [b]).
Qed.

Lemma live_put_slot leaf i b b' :
  kv_blocks leaf !! i = Some b →
  live (put_slot i b' leaf) =
    live_of (take i (kv_blocks leaf)) ++ live_of [b'] ++ live_of (drop (S i) (kv_blocks leaf)).
Proof.
  intros Hb. pose proof (lookup_lt_Some _ _ _ Hb) as Hi. unfold live, put_slot. cbn [kv_blocks].
  rewrite insert_take_drop by done. unfold live_of. rewrite list.filter_app. f_equal. apply (list.filter_app _ [b']).
Qed.

Lemma live_of_one b : live_of [b] = if isFree b then [] else [b].
Proof. unfold live_of. destruct (isFree b) eqn:E; [by rewrite filter_cons_False by congruence|by rewrite filter_cons_True]. Qed.

Lemma holds_unique c a l1 l2 : holds c a l1 → holds c a l2 → length l1 = length l2 → l1 = l2.
Proof.
  intros (m1 & (s1 & Hs1 & <- & _) & Hl1) (m2 & (s2 & Hs2 & <- & _) & Hl2) Hlen.
  rewrite Hs1 in Hs2. injection Hs2 as <-. congruence.
Qed.

Lemma item_unique c a kv1 kv2 :
  holds c a (enc_KVItem kv1) → holds c a (enc_KVItem kv2) → item_ok kv1 → item_ok kv2 → kv1 = kv2.
Proof.
  intros H1 H2 Hok1 Hok2. rewrite <-(dec_enc_KVItem kv1), <-(dec_enc_KVItem kv2) by done. f_equal.
  eapply holds_unique; [done..|]. unfold enc_KVItem. by rewrite !length_app, !length_be_bytes.
Qed.

(** Replacing the items with a key by one item. *)
Lemma contents_replace i1 old i2 kv :
  item_key kv ∉ map item_key (i1 ++ i2) → Forall (λ x, item_key x = item_key kv) old →
  (list_to_map (pairs (i1 ++ [kv] ++ i2)) : gmap Z Z) =
    <[item_key kv := item_value kv]> (list_to_map (pairs (i1 ++ old ++ i2))).
Proof.
  intros Hni Hold. apply map_eq. intros k. rewrite contents_lookup, !list.filter_app.
  destruct (decide (item_key kv = k)) as [<-|Hne].
  - rewrite lookup_insert_eq. rewrite (filter_none _ i1).
    { cbn [app]. by rewrite filter_cons_True. }
    apply list.Forall_forall. intros x Hx He. apply Hni. rewrite map_app. apply elem_of_app. left.
    rewrite <-He. apply list_elem_of_fmap. by exists x.
  - rewrite lookup_insert_ne, contents_lookup, !list.filter_app by done.
    rewrite (filter_cons_False _ kv) by done. rewrite (filter_none _ old); [done|].
    eapply Forall_impl; [|exact Hold]. simpl. congruence.
Qed.

Lemma stored_leaf_put c c' a leaf items lo hi i b0 kvb kv :
  stored c 0 lo hi (TLeaf a leaf items) → kv_blocks leaf !! i = Some b0 →
  isFree kvb = false → isLocked kvb = false → in_width 64 kvb →
  holds c' a (enc_LeafNode (put_slot i kvb leaf)) →
  item_at c' kvb kv → Forall2 (item_at c') (live leaf) items → lo ≤ item_key kv < hi →
  (if isFree b0 then item_key kv ∉ map item_key items
   else ∃ kv0, holds c' (getAddr b0) (enc_KVItem kv0) ∧ item_ok kv0 ∧ item_key kv0 = item_key kv) →
  ∃ items', stored c' 0 lo hi (TLeaf a (put_slot i kvb leaf) items') ∧
    contents (TLeaf a (put_slot i kvb leaf) items') =
      <[item_key kv := item_value kv]> (contents (TLeaf a leaf items)).
Proof.
  intros Hst Hb0 Hfree Hlock Hw Hh Hkv Hits Hkey Hb0k.
  inversion Hst as [? ? ? ? ? li _ Hok Hhd _ Hlk Hnd Hrg|]; subst.
  rewrite (live_split leaf i b0 Hb0) in Hits.
  apply Forall2_app_inv_l in Hits as (i1 & r & Hi1 & Hr2 & ->).
  apply Forall2_app_inv_l in Hr2 as (old & i2 & Hold & Hi2 & ->).
  assert ((item_key kv ∉ map item_key (i1 ++ i2)) ∧ Forall (λ x, item_key x = item_key kv) old) as [Hni Hsame].
  { rewrite live_of_one in Hold. destruct (isFree b0).
    - apply Forall2_nil_inv_l in Hold. subst old. by split.
    - apply Forall2_cons_inv_l in Hold as (kv1 & old' & (Hh1 & Hok1 & _) & Hold' & ->).
      apply Forall2_nil_inv_l in Hold'. subst old'. destruct Hb0k as (kv0 & Hh0 & Hok0 & Hk0).
      assert (kv1 = kv0) as -> by (by eapply item_unique). split; [|by constructor].
      rewrite map_app in Hnd. cbn [map app] in Hnd. rewrite map_app, <-Hk0.
      apply NoDup_ListNoDup, List.NoDup_remove_2 in Hnd. by rewrite list_elem_of_In. }
  exists (i1 ++ [kv] ++ i2). split; [|by apply contents_replace].
  eapply stored_leaf; [done|by apply put_slot_ok|done| | | |].
  - rewrite (live_put_slot leaf i b0 kvb Hb0), live_of_one, Hfree.
    apply Forall2_app; [done|]. apply Forall2_app; [constructor; [exact Hkv|constructor]|done].
  - cbn. by apply Forall_insert.
  - rewrite !map_app in *. cbn [map app]. apply NoDup_ListNoDup, List.NoDup_Add with (a := item_key kv) (l := map item_key i1 ++ map item_key i2).
    + apply List.Add_app.
    + split; [|by rewrite <-list_elem_of_In]. apply NoDup_ListNoDup.
      apply list.NoDup_app in Hnd as (H1 & H2 & H3). apply list.NoDup_app in H3 as (_ & _ & H3).
      apply list.NoDup_app. split; [done|]. split; [|done]. intros x Hx Hx2. apply (H2 x Hx). apply elem_of_app. by right.
  - rewrite !Forall_app in *. destruct Hrg as (? & ? & ?). split; [done|]. split; [by constructor|done].
Qed.
End slot.

(** ** The memory during an insert *)

Section memory.
Context {cfg : FaunusConfig}.
Context {Q : Type → Type} `{!ConcurrentQueue Q}.
Implicit Types (c : Cluster Q) (t : tree).

(** The memories of an index with root pointer [root]. *)
Record memory_ok c (root : GlobalAddress) (l : nat) t : Prop := mkMemoryOk {
  mo_fits : fits c;
  mo_root : holds c root (le_bytes 8 (addr_of t));
  mo_root_ok : ga_ok root;
  mo_addr_ok : ga_ok (addr_of t);
  mo_tree : stored c l key_min key_max t;
  mo_readable : readable c (addr_of t) sizeof_InternalNode
}.

(** The blocks the index itself uses. *)
Definition index_blocks (root : GlobalAddress) t : list (Z * Z) := (root, 8) :: blocks_of t.

(** Filling a block that the index does not use. *)
Lemma write_fresh c root l t x bs :
  memory_ok c root l t → ga_ok x → readable c x (length bs) → bytes_ok bs →
  Forall (disjoint_range (x, Z.of_nat (length bs))) (index_blocks root t) →
  memory_ok (write_at c x bs) root l t ∧ holds (write_at c x bs) x bs.
Proof.
  intros [Hf Hr Hrok Haok Ht Hrdr] Hx [m Hm] Hbs Hd. pose proof (agree_write c x bs m Hf Hx Hm Hbs) as Hag.
  apply Forall_cons_iff in Hd as [Hdr Hd]. split; [|by eapply holds_write]. split; try done.
  - by eapply fits_write.
  - apply (ag_holds _ _ _ Hag); [done|done|]. by apply apart_one.
  - apply (stored_agree _ _ _ _ _ _ _ Hag); [done|done|].
    eapply Forall_impl; [|exact Hd]. intros r Hr'. by apply apart_one.
  - by apply (ag_readable _ _ _ Hag).
Qed.

Lemma kvblock_address_inside c a leaf i :
  fits c → ga_ok a → holds c a (enc_LeafNode leaf) → length (kv_blocks leaf) = branch_factor → (i < branch_factor)%nat →
  kvblock_address a i = a + Z.of_nat (sizeof_Header + 8 * i) ∧ ga_ok (kvblock_address a i) ∧
  ∀ b, kv_blocks leaf !! i = Some b → holds c (kvblock_address a i) (le_bytes 8 b).
Proof.
  intros Hf Ha (m & Hr & Hsl) Hlen Hi. pose proof Hr as Hr0. rewrite length_enc_LeafNode in Hr0 by done.
  unfold kvblock_address, kv_block_offset. set (o := (sizeof_Header + 8 * i)%nat).
  assert (o + 8 ≤ sizeof_LeafNode)%nat as Ho by (unfold o, sizeof_LeafNode; lia).
  destruct (ga_add_inside c a _ m (Z.of_nat o) Hf Ha Hr0) as (H1 & H2 & H3 & H4); [lia|lia|].
  split; [done|]. split; [done|]. intros b Hb. exists m.
  rewrite length_le_bytes. destruct Hr0 as (s & Hs & Hm & Hok & H0 & Hr1). split.
  - exists s. rewrite H2, H3. split; [done|]. split; [done|]. split; [done|]. lia.
  - rewrite H3. replace (Z.to_nat (offset a + Z.of_nat o)) with (Z.to_nat (offset a) + o)%nat by lia.
    rewrite <-(slot_bytes i b leaf) by done. rewrite <-Hsl, length_enc_LeafNode by done.
    apply list_eq. intros j. rewrite !lookup_slice. repeat case_decide; try done; [|unfold o in Ho; lia].
    f_equal. unfold o. lia.
Qed.

(** The tree with one slot of a leaf exchanged. *)
Definition put_key (l : nat) (key : Z) (a : GlobalAddress) (i : nat) (kvb : KVBlock) (leaf : LeafNode)
    (items : list KVItem) (t : tree) : tree := upd l key (TLeaf a (put_slot i kvb leaf) items) t.

Lemma pairwise_apart_rest root l t key a leaf items :
  pairwise disjoint_range (index_blocks root t) → descend l key t = Some (TLeaf a leaf items) →
  Forall (λ r, disjoint_range r (a, Z.of_nat sizeof_LeafNode))
    ((root, 8) :: rest_blocks l key t ++ map item_block (live leaf)).
Proof.
  intros Hd Hde. pose proof (blocks_descend key l t _ Hde) as Hp. cbn [blocks_of] in Hp.
  assert (index_blocks root t ≡ₚ (a, Z.of_nat sizeof_LeafNode) :: (root, 8) :: rest_blocks l key t ++ map item_block (live leaf)) as Hq.
  { unfold index_blocks. rewrite Hp. rewrite perm_swap. constructor. symmetry. apply Permutation_middle. }
  apply (pairwise_perm _ _ _ Hq) in Hd. destruct Hd as [Hd _].
  eapply Forall_impl; [|exact Hd]. intros r Hr. by symmetry.
Qed.

(** Exchanging the slot of a leaf on the path of [key]. *)
Lemma exchange_slot c root l t key a leaf items i b0 kvb kv :
  memory_ok c root l t → pairwise disjoint_range (index_blocks root t) →
  key_min ≤ key < key_max → descend l key t = Some (TLeaf a leaf items) → item_key kv = key →
  kv_blocks leaf !! i = Some b0 → isFree kvb = false → isLocked kvb = false → in_width 64 kvb →
  item_at c kvb kv → disjoint_range (item_block kvb) (a, Z.of_nat sizeof_LeafNode) →
  (if isFree b0 then key ∉ map item_key items
   else ∃ kv0, holds c (getAddr b0) (enc_KVItem kv0) ∧ item_ok kv0 ∧ item_key kv0 = key) →
  ∃ items', let c' := write_at c (kvblock_address a i) (le_bytes 8 kvb) in
    memory_ok c' root l (put_key l key a i kvb leaf items' t) ∧
    contents (put_key l key a i kvb leaf items' t) = <[key := item_value kv]> (contents t) ∧
    holds c' a (enc_LeafNode (put_slot i kvb leaf)).
Proof.
  intros [Hf Hr Hrok Haok Ht Hrdr] Hpw Hkey Hde Hk Hb0 Hfree Hlock Hw Hkv Hdkv Hb0k.
  pose proof (pairwise_apart_rest root l t key a leaf items Hpw Hde) as Hap.
  destruct (descend_stored c key l l _ _ t Ht Hkey ltac:(lia)) as (t0 & lo & hi & Hde' & Hst & Hk0 & _).
  rewrite Hde in Hde'. injection Hde' as <-. rewrite Nat.sub_diag in Hst.
  inversion Hst as [? ? ? ? ? li Hh Hok Hhd Hits Hlk Hnd Hrg|]; subst.
  pose proof Hok as (_ & Hlen & _). pose proof (lookup_lt_Some _ _ _ Hb0) as Hi. rewrite Hlen in Hi.
  assert (ga_ok a) as Ha by exact (descend_addr_ok _ _ _ _ _ _ _ _ Ht Haok Hde).
  destruct (kvblock_address_inside c a leaf i Hf Ha Hh Hlen Hi) as (Hsa & Hsaok & Hsl).
  destruct (Hsl b0 Hb0) as (m & Hm & _).
  assert (bytes_ok (le_bytes 8 kvb)) as Hbs by apply le_bytes_ok.
  assert (length (le_bytes 8 b0) = length (le_bytes 8 kvb)) as Hl8 by (by rewrite !length_le_bytes).
  rewrite Hl8 in Hm. pose proof (agree_write c _ _ m Hf Hsaok Hm Hbs) as Hag.
  set (c' := write_at c (kvblock_address a i) (le_bytes 8 kvb)) in *. rewrite length_le_bytes in Hag.
  assert (∀ r, disjoint_range r (a, Z.of_nat sizeof_LeafNode) → apart [(kvblock_address a i, Z.of_nat 8)] r) as Hins.
  { intros r Hdr. rewrite Hsa. eapply apart_inside; [done|lia|]. unfold sizeof_LeafNode. lia. }
  assert (holds c' a (enc_LeafNode (put_slot i kvb leaf))) as Hh'.
  { rewrite enc_put_slot by done. apply holds_patch; [done|done|done|done|].
    rewrite length_le_bytes, length_enc_LeafNode by done. unfold sizeof_LeafNode. lia. }
  apply Forall_cons_iff in Hap as [Hapr Hap]. apply Forall_app in Hap as [Hrest Hitems].
  assert (Forall2 (item_at c') (live leaf) items) as Hits'.
  { eapply item_at_agree; [exact Hag| |exact Hits]. eapply Forall_impl; [|exact Hitems]. auto. }
  assert (item_at c' kvb kv) as Hkv'.
  { assert (Forall2 (item_at c') [kvb] [kv]) as HF.
    { eapply item_at_agree; [exact Hag| |by constructor]. cbn. constructor; [by apply Hins|constructor]. }
    by inversion HF. }
  destruct (stored_leaf_put c c' a leaf items lo hi i b0 kvb kv) as (items' & Hst' & Hc'); try done.
  { destruct (isFree b0) eqn:Hfb0; [done|]. destruct Hb0k as (kv0 & Hh0 & Hrest0). exists kv0. split; [|done].
    assert (b0 ∈ live leaf) as Hin.
    { apply list_elem_of_filter. split; [done|]. by eapply list_elem_of_lookup_2. }
    apply (ag_holds _ _ _ Hag); [apply getAddr_ok|done|]. apply Hins.
    rewrite Forall_map, list.Forall_forall in Hitems. specialize (Hitems b0 Hin).
    unfold item_block in Hitems. unfold enc_KVItem. by rewrite length_app, !length_be_bytes. }
  exists items'. cbn zeta.
  assert (stored c' l key_min key_max (put_key l (item_key kv) a i kvb leaf items' t)) as Hstt.
  { apply (stored_upd _ c c' (item_key kv) (TLeaf a leaf items) _ l Hag l key_min key_max t); try done.
    - eapply Forall_impl; [|exact Hrest]. auto.
    - intros b b' Hb Hkb. rewrite Nat.sub_diag in *. inversion Hb as [? ? ? ? ? li' _ _ Hhd' _ _ _ _|]; subst.
      rewrite Hhd in Hhd'. by simplify_eq. }
  split; [|split; [|done]].
  - split; [by eapply fits_write| |done| |done|].
    + unfold put_key. rewrite (addr_of_upd _ _ _ _ _ Hde) by done.
      apply (ag_holds _ _ _ Hag); [done|done|]. by apply Hins.
    + unfold put_key. by rewrite (addr_of_upd _ _ _ _ _ Hde).
    + unfold put_key. rewrite (addr_of_upd _ _ _ _ _ Hde) by done. by apply (ag_readable _ _ _ Hag).
  - by eapply (contents_upd c c' l key_min key_max t (TLeaf a leaf items)).
Qed.
End memory.
