(* ===== verification/FaunusUpsert.v ===== *)
(** * The insert handler implements the update of a finite map

    The runs of [insert] and its parts (src/kv_index/faunus_index.cpp) by a thread
    that runs alone and has no cache, on an index whose leaf has the key or a free
    slot: both paths (the key is there, the key is new) reach an index whose contents
    are the old contents with the key mapped to the value, and the allocator's
    invariant holds again.  What a new key may lead to in [insert_finish], a request
    or a split, is in FaunusMap.v. *)

From S2P Require Import Prelude GlobalAddress RdmaSim ThreadStats Queue MemoryServer Slab RdmaManager KVBlock FaunusNode FaunusIndex FaunusTree FaunusRead FaunusFrame FaunusInsert.

Section upsert.
Context {cfg : FaunusConfig}.
Context {Q : Type → Type} `{!ConcurrentQueue Q}.
Context {C Ent : Type} `{!NodeCache C Ent (GlobalAddress * InternalNode)}.
Implicit Types w : World Q C.

(** ** The parts of an attempt *)

Lemma pick_slot_locked_free leaf seed : ∀ n i,
  Forall (λ b, isLocked b = false) (kv_blocks leaf) →
  (∀ j, (i ≤ j < i + n)%nat → (slot_index seed j < length (kv_blocks leaf))%nat) →
  (∃ j b, (i ≤ j < i + n)%nat ∧ kv_blocks leaf !! slot_index seed j = Some b ∧ isFree b = true) →
  ∃ idx b, pick_slot leaf seed i n = Some (inr idx) ∧ kv_blocks leaf !! idx = Some b ∧ isFree b = true.
Proof.
  induction n as [|n IH]; intros i Hlk Hlt (j & b & Hj & Hb & Hf); [lia|]. cbn [pick_slot].
  destruct (lookup_lt_is_Some_2 (kv_blocks leaf) (slot_index seed i)) as [b0 Hb0]; [by apply Hlt; lia|].
  cbv zeta. rewrite Hb0. simpl default. pose proof Hlk as Hlk'. rewrite Forall_lookup in Hlk'.
  rewrite (Hlk' _ _ Hb0). destruct (isFree b0) eqn:Hf0; [by exists (slot_index seed i), b0|].
  apply IH; [done|intros; apply Hlt; lia|]. exists j, b. split; [|done].
  destruct (decide (j = i)) as [->|]; [|lia]. rewrite Hb0 in Hb. simplify_eq. congruence.
Qed.

Lemma pick_slot_free leaf seed k :
  branch_factor = (2 ^ k)%nat → length (kv_blocks leaf) = branch_factor →
  Forall (λ b, isLocked b = false) (kv_blocks leaf) → (length (live leaf) < branch_factor)%nat →
  ∃ idx b, pick_slot leaf seed 0 branch_factor = Some (inr idx) ∧ kv_blocks leaf !! idx = Some b ∧ isFree b = true.
Proof.
  intros Hbf Hlen Hlk Hroom. apply pick_slot_locked_free; [done| |].
  { intros j _. rewrite Hlen. by eapply slot_index_lt. }
  assert (∃ idx b, kv_blocks leaf !! idx = Some b ∧ isFree b = true) as (idx & b & Hb & Hf).
  { rewrite <-Hlen in Hroom. unfold live in Hroom. clear -Hroom. induction (kv_blocks leaf) as [|b bs IH]; [simpl in *; lia|].
    destruct (isFree b) eqn:Hf; [by exists 0%nat, b|]. rewrite filter_cons_True in Hroom by done. simpl in Hroom.
    destruct IH as (i & b' & H1 & H2); [lia|]. by exists (S i), b'. }
  pose proof (lookup_lt_Some _ _ _ Hb) as Hlt. rewrite Hlen in Hlt.
  destruct (slot_index_onto seed k idx Hbf Hlt) as (i & Hi & <-). exists i, b. split; [lia|done].
Qed.

Lemma stats_run f w :
  tracked (mgr (w_net w)) = true → ∃ w', stats (C := C) f w = Done tt w' ∧ quiet w w'.
Proof.
  intros Ht. unfold stats. erewrite bind_done by reflexivity. unfold tracked in Ht.
  destruct (thread_stats_tracker_ (mgr (w_net w))) as [tr|] eqn:E; [|done].
  destruct (on_tracker_total f (mgr (w_net w))) as ([] & g & Hg & Hgt).
  unfold on_net, on_mgr, zoom. rewrite Hg. eexists. split; [reflexivity|]. by split.
Qed.

Lemma record_cache_access_run ce w :
  tracked (mgr (w_net w)) = true → ∃ w', record_cache_access (C := C) (Ent := Ent) ce w = Done tt w' ∧ quiet w w'.
Proof. intros. destruct ce; by apply stats_run. Qed.

(** The candidates when exactly one of them is not worth reading. *)
Lemma get_candidate_kvs_insert leaf fp full w :
  get_candidate_kvs (C := C) leaf fp true full w = get_candidate_kvs leaf fp false full w ∨
  ∃ b, get_candidate_kvs (C := C) leaf fp true full w = Done (b, []) w.
Proof.
  unfold get_candidate_kvs. destruct (get_fingerprint_collisions leaf fp) as [cands smo].
  destruct (smo && negb full); [by left|]. cbn [andb]. destruct (length cands =? 1)%nat; [right; by eexists|by left].
Qed.

Lemma filter_keys_NoDup (P : KVItem → Prop) `{!∀ x, Decision (P x)} (l : list KVItem) :
  NoDup (map item_key l) → NoDup (map item_key (filter P l)).
Proof.
  induction l as [|kv l IH]; [done|]. cbn [map]. intros [Hni Hnd]%list.NoDup_cons.
  destruct (decide (P kv)); [rewrite filter_cons_True by done|rewrite filter_cons_False by done; by apply IH].
  cbn [map]. apply list.NoDup_cons. split; [|by apply IH]. intros Hx. apply Hni.
  apply list_elem_of_fmap in Hx as (y & -> & Hy). apply list_elem_of_filter in Hy as [_ Hy].
  apply list_elem_of_fmap. by exists y.
Qed.

(** Removing duplicates from a leaf without duplicates. *)
Lemma remove_dupes_run fuel local_ptr w a leaf items lo hi key nb :
  others (w_net w) = [] → stored (cl w) 0 lo hi (TLeaf a leaf items) →
  ∃ r w', handle_local_remove_dupes (C := C) fuel local_ptr key a leaf nb true false false w = Done r w' ∧ quiet w w'.
Proof.
  intros Ho Hst. inversion Hst as [? ? ? ? ? li Hh Hok Hhd Hit Hlk Hnd Hrg|]; subst.
  unfold handle_local_remove_dupes. destruct (_ || _); [by eexists _, w|]. rewrite Hhd. cbn [lock Z.eqb negb andb].
  destruct (get_candidate_kvs_insert leaf (Fingerprint key) false w) as [He|[b He]].
  2:{ erewrite bind_done by exact He. by eexists _, w. }
  destruct (get_candidate_kvs_run w leaf items (Fingerprint key) false Ho Hit Hlk) as (idx & w' & Hg & Hq & Hlen & _).
  rewrite Hg in He. erewrite bind_done by exact He. cbn [fst snd].
  set (its := filter _ items) in *.
  assert (map (λ x : nat * KVItem, item_key x.2) (zip idx (map (seen false) its)) = map item_key its) as Hkeys.
  { rewrite <-(map_map snd item_key), snd_zip, map_map by (rewrite length_map; lia). done. }
  destruct (zip idx (map (seen false) its)) as [|x xs] eqn:Ez; [by eexists _, w'|]. rewrite <-Ez in *.
  eexists _, w'. split; [|done]. apply dupes_loop_run.
  - rewrite Hkeys. by apply filter_keys_NoDup.
  - by intros [? ?].
Qed.

(** Exchanging a live slot word gives the old item back. *)
Lemma try_update_run fuel w sa b0 kvb live :
  others (w_net w) = [] → holds (cl w) sa (le_bytes 8 b0) → in_width 64 b0 → isFree b0 = false → isLocked b0 = false →
  is_Some (w_slabs w !! Z.of_nat sizeof_KVItem) →
  local_inv (w_slabs w, cl w) (item_block b0 :: live) →
  let c' := write_at (cl w) sa (le_bytes 8 kvb) in
  ∃ slabs' w', try_update_kvblock (C := C) fuel sa b0 kvb w = Done true w' ∧
    quiet (relocate c' slabs' w) w' ∧ local_inv (slabs', c') live ∧ ∀ m, (nfree (w_slabs w) m ≤ nfree slabs' m)%nat.
Proof.
  intros Ho Hh Hw Hf Hl Hsl Hinv c'.
  destruct (perform_run w (mkOp sa (op_cas b0 kvb)) (out_expected b0) c' Ho) as (w1 & Hp & Hq).
  { by rewrite (ops_cas (cl w) sa b0 kvb [] Hh Hw). }
  assert (cl w1 = c') as Hc1 by (unfold cl; by rewrite (q_cluster _ _ Hq)).
  destruct (free_run w1 sizeof_KVItem (getAddr b0) live) as (slabs' & Hfree & Hinv' & Hav).
  { by rewrite (q_slabs _ _ Hq). }
  { rewrite (q_slabs _ _ Hq), Hc1. by apply local_inv_write. }
  exists slabs', (relocate (cl w1) slabs' w1). rewrite Hc1 in *. split; [|split; [|split; [done|]]].
  - unfold try_update_kvblock. rewrite (bind_done _ _ w (inr true) (relocate c' slabs' w1)); [done|]. apply loop_done. unfold try_update_step.
    rewrite Z.eqb_refl, Hf, Hl. cbn [negb andb]. erewrite bind_done by exact Hp. cbn [fst snd].
    erewrite bind_done by reflexivity. cbn [expected_after]. rewrite Z.eqb_refl.
    erewrite bind_done by exact Hfree. done.
  - destruct Hq. by split.
  - intros m. unfold nfree. rewrite (filter_Permutation _ _ _ Hav), (q_slabs _ _ Hq), filter_cons. cbn. case_decide; cbn [length]; lia.
Qed.

(** The search for the key among the candidates. *)
Lemma find_existing_spec (P : nat → KVItem → Prop) key : ∀ idx its,
  Forall2 P idx its →
  match find_existing key (zip idx (map (seen false) its)) with
  | Some i => ∃ kv, P i kv ∧ kv ∈ its ∧ item_key kv = key
  | None => key ∉ map item_key its
  end.
Proof.
  unfold find_existing. induction 1 as [|i kv idx its Hi Hits IH]; [simpl; apply not_elem_of_nil|].
  cbn [map zip_with]. destruct (decide (item_key kv = key)) as [He|He].
  - rewrite filter_cons_True by done. simpl. exists kv. split; [done|]. split; [apply list_elem_of_here|done].
  - rewrite filter_cons_False by done. destruct (fst <$> _) as [j|].
    + destruct IH as (kv' & H1 & H2 & H3). exists kv'. split; [done|]. split; [by apply list_elem_of_further|done].
    + rewrite elem_of_cons. intros [Heq|Hin]; [congruence|done].
Qed.

(** The slot word of a new item. *)
Lemma new_slot_word (key x : Z) :
  ga_ok x → x < 2 ^ 46 →
  let kvb := KVBlock_make (Fingerprint key) x false false in
  getAddr kvb = x ∧ getFingerprint kvb = Fingerprint key ∧ isFree kvb = false ∧ isLocked kvb = false ∧ in_width 64 kvb.
Proof.
  intros Hx H46 kvb. unfold kvb.
  assert (in_width 8 (Fingerprint key)) as Hfp by (apply fingerprint_key_small, be_bytes_ok).
  unfold ga_ok, in_width in *. split; [rewrite getAddr_make, Z.mod_small by lia; done|].
  split; [rewrite getFingerprint_make, Z.mod_small by (unfold in_width; lia); done|].
  unfold KVBlock_make. split; [by rewrite isFree_setLocked, isFree_set|]. split; [by rewrite isLocked_set|].
  apply setLocked_width, setFree_width, setAddr_width.
Qed.

(** What the exchange of a slot does to the blocks of the index. *)
Lemma blocks_put_key root l key a i kvb b0 leaf items items' t :
  descend l key t = Some (TLeaf a leaf items) → kv_blocks leaf !! i = Some b0 → isFree kvb = false →
  item_block kvb :: index_blocks root t ≡ₚ
    map item_block (live_of [b0]) ++ index_blocks root (put_key l key a i kvb leaf items' t).
Proof.
  intros Hd Hb0 Hf. unfold index_blocks, put_key. rewrite (blocks_descend key l t _ Hd), (blocks_upd key _ l t _ Hd).
  cbn [blocks_of]. rewrite (live_split leaf i b0 Hb0), (live_put_slot leaf i b0 kvb Hb0), (live_of_one kvb), Hf.
  rewrite !map_app. cbn [map app]. solve_Permutation.
Qed.

Lemma local_inv_perm (slabs : gmap Z (SlabAllocator Q)) (c : Cluster Q) live live' :
  local_inv (slabs, c) live → live ≡ₚ live' → local_inv (slabs, c) live'.
Proof.
  intros (Hok & Hsz & Hd & Hg) Hp. split; [done|]. split; [done|]. split.
  - eapply pairwise_perm; [apply _| |exact Hd]. by rewrite Hp.
  - by rewrite <-Hp.
Qed.

Lemma local_inv_tail (slabs : gmap Z (SlabAllocator Q)) (c : Cluster Q) r live :
  local_inv (slabs, c) (r :: live) → local_inv (slabs, c) live.
Proof.
  intros (Hok & Hsz & Hd & Hg). split; [done|]. split; [done|]. cbn [fst snd] in *. split.
  - apply pairwise_app in Hd as (H1 & [_ H2] & H3). apply pairwise_app. split; [done|]. split; [done|].
    eapply Forall_impl; [|exact H3]. intros y [_ Hy]%Forall_cons_iff. exact Hy.
  - rewrite Forall_app, Forall_cons_iff in Hg. rewrite Forall_app. by destruct Hg as (? & _ & ?).
Qed.

(** ** The invariant of an index with its allocator *)

Record index_inv w (l : nat) (t : tree) : Prop := mkIndexInv {
  iv_others : others (w_net w) = [];
  iv_level : Z.of_nat l < 2 ^ 64;
  iv_memory : memory_ok (cl w) (root_offset_pointer_ w) l t;
  iv_alloc : local_inv (w_slabs w, cl w) (index_blocks (root_offset_pointer_ w) t)
}.

Lemma index_inv_ok w l t : index_inv w l t → index_ok w l t.
Proof. intros [Ho Hl [] _]. by split. Qed.

Lemma index_inv_quiet w w' l t : quiet w w' → index_inv w l t → index_inv w' l t.
Proof.
  intros Hq []. pose proof (q_cluster _ _ Hq) as Hc. fold (cl w') (cl w) in Hc.
  split; rewrite ?Hc, ?(q_others _ _ Hq), ?(q_slabs _ _ Hq), ?(q_root _ _ Hq); done.
Qed.

(** The state between the location of the leaf and the exchange of the slot: the
    item [kv] is in the block of the slot word [kvb], which the index does not use
    yet. *)
Record located w (l : nat) (t : tree) (a : GlobalAddress) (leaf : LeafNode) (items : list KVItem)
    (kvb : KVBlock) (kv : KVItem) : Prop := mkLocated {
  lo_others : others (w_net w) = [];
  lo_memory : memory_ok (cl w) (root_offset_pointer_ w) l t;
  lo_alloc : local_inv (w_slabs w, cl w) (item_block kvb :: index_blocks (root_offset_pointer_ w) t);
  lo_slab : is_Some (w_slabs w !! Z.of_nat sizeof_KVItem);
  lo_leaf : descend l (item_key kv) t = Some (TLeaf a leaf items);
  lo_key : key_min ≤ item_key kv < key_max;
  lo_item : item_at (cl w) kvb kv;
  lo_free : isFree kvb = false;
  lo_unlocked : isLocked kvb = false;
  lo_width : in_width 64 kvb
}.

Lemma located_quiet w w' l t a leaf items kvb kv :
  quiet w w' → located w l t a leaf items kvb kv → located w' l t a leaf items kvb kv.
Proof.
  intros Hq []. pose proof (q_cluster _ _ Hq) as Hc. fold (cl w') (cl w) in Hc.
  split; rewrite ?Hc, ?(q_others _ _ Hq), ?(q_slabs _ _ Hq), ?(q_root _ _ Hq); done.
Qed.

(** The leaf of a located state. *)
Lemma located_leaf w l t a leaf items kvb kv :
  located w l t a leaf items kvb kv →
  ∃ lo hi, stored (cl w) 0 lo hi (TLeaf a leaf items) ∧ lo ≤ item_key kv < hi ∧ ga_ok a ∧
    length (kv_blocks leaf) = branch_factor ∧
    pairwise disjoint_range (index_blocks (root_offset_pointer_ w) t) ∧
    disjoint_range (item_block kvb) (a, Z.of_nat sizeof_LeafNode).
Proof.
  intros [_ [Hf Hr Hrok Haok Ht _] (_ & _ & Hd & _) _ Hde Hkey _ _ _ _].
  destruct (descend_stored _ (item_key kv) l l _ _ t Ht Hkey ltac:(lia)) as (t0 & lo & hi & Hde' & Hst & Hk0 & _).
  rewrite Hde in Hde'. injection Hde' as <-. rewrite Nat.sub_diag in Hst. exists lo, hi.
  split; [done|]. split; [done|]. split; [exact (descend_addr_ok _ _ _ _ _ _ _ _ Ht Haok Hde)|].
  split; [inversion Hst; subst; by match goal with H : leaf_ok leaf |- _ => apply H end|].
  cbn [fst] in Hd. apply pairwise_app in Hd as (_ & Hd & _). destruct Hd as [Hd0 Hd]. split; [done|].
  unfold index_blocks in Hd0. rewrite (blocks_descend _ _ _ _ Hde) in Hd0. cbn [blocks_of] in Hd0.
  rewrite !Forall_cons_iff, Forall_app, Forall_cons_iff in Hd0. by destruct Hd0 as (_ & _ & ? & _).
Qed.

(** [w'] is [w] after the key of [kv] was mapped to its value, which makes [t'] of
    [t]. *)
Record upserted w w' (l : nat) (t t' : tree) (kv : KVItem) : Prop := mkUpserted {
  up_quiet : quiet (relocate (cl w') (w_slabs w') w) w';
  up_memory : memory_ok (cl w') (root_offset_pointer_ w) l t';
  up_alloc : local_inv (w_slabs w', cl w') (index_blocks (root_offset_pointer_ w) t');
  up_contents : contents t' = <[item_key kv := item_value kv]> (contents t);
  up_leaves : leaf_addrs t' = leaf_addrs t;
  up_free : ∀ m, (nfree (w_slabs w) m ≤ nfree (w_slabs w') m)%nat
}.

Lemma upserted_quiet w w1 w2 l t t' kv : quiet w1 w2 → upserted w w1 l t t' kv → upserted w w2 l t t' kv.
Proof.
  intros Hq [H1 H2 H3 H4 H5 H6]. pose proof (q_cluster _ _ Hq) as Hc. fold (cl w1) (cl w2) in Hc.
  split; rewrite ?Hc, ?(q_slabs _ _ Hq); try done. by etrans.
Qed.

Lemma upserted_start w w1 w2 l t t' kv : quiet w w1 → upserted w1 w2 l t t' kv → upserted w w2 l t t' kv.
Proof.
  intros Hq [H1 H2 H3 H4 H5 H6]. rewrite (q_root _ _ Hq) in *. rewrite (q_slabs _ _ Hq) in H6.
  split; try done. etrans; [apply quiet_relocate; exact Hq|exact H1].
Qed.

(** The loop variables after the leaf was read. *)
Abbreviation ready leaf a := (mkIS (Ent := Ent) 0 true false leaf a None).

(** The key is there: its slot is exchanged and the old item given back. *)
Lemma attempt_existing fuel w l t a leaf items kvb kv i b0 kv0 :
  located w l t a leaf items kvb kv → tracked (mgr (w_net w)) = true →
  kv_blocks leaf !! i = Some b0 → isFree b0 = false → holds (cl w) (getAddr b0) (enc_KVItem kv0) → item_ok kv0 →
  item_key kv0 = item_key kv →
  ∃ w', (success ← try_update_kvblock (C := C) fuel (kvblock_address a i) (default 0 (kv_blocks leaf !! i)) kvb;
         _ ← record_cache_access (C := C) (Ent := Ent) None; mret (inr success : insert_state (Ent := Ent) + bool)) w =
        Done (inr true) w' ∧ ∃ t', upserted w w' l t t' kv.
Proof.
  intros Hlo Htr Hb0 Hf0 Hh0 Hok0 Hk0. pose proof Hlo as [Ho Hmem Hal Hsl Hde Hkey Hit Hfr Hun Hwd].
  destruct (located_leaf _ _ _ _ _ _ _ _ Hlo) as (lo & hi & Hst & Hk & Ha & Hlen & Hpw & Hdj).
  pose proof (lookup_lt_Some _ _ _ Hb0) as Hi. rewrite Hlen in Hi.
  inversion Hst as [? ? ? ? ? li Hh Hok Hhd Hits Hlk Hnd Hrg|]; subst.
  destruct (kvblock_address_inside (cl w) a leaf i (mo_fits _ _ _ _ Hmem) Ha Hh Hlen Hi) as (_ & _ & Hslot).
  destruct (exchange_slot (cl w) (root_offset_pointer_ w) l t (item_key kv) a leaf items i b0 kvb kv)
    as (items' & Hmem' & Hcont & _); try done.
  { rewrite Hf0. by exists kv0. }
  destruct Hok as (_ & _ & Hws). rewrite Forall_lookup in Hws, Hlk.
  destruct (try_update_run fuel w (kvblock_address a i) b0 kvb
              (index_blocks (root_offset_pointer_ w) (put_key l (item_key kv) a i kvb leaf items' t)))
    as (slabs' & w1 & Hrun & Hq & Hinv' & Hnf); try done; [by eapply Hslot|by eapply Hws|by eapply Hlk| |].
  { eapply local_inv_perm; [exact Hal|]. rewrite (blocks_put_key _ l _ a i kvb b0 leaf items items' t Hde Hb0 Hfr).
    by rewrite live_of_one, Hf0. }
  destruct (record_cache_access_run None w1) as (w2 & Hrec & Hq2); [by rewrite (q_tracked _ _ Hq)|].
  exists w2. rewrite Hb0. simpl default. split.
  - erewrite bind_done by exact Hrun. by erewrite bind_done by exact Hrec.
  - exists (put_key l (item_key kv) a i kvb leaf items' t). eapply upserted_quiet; [etrans; [exact Hq|exact Hq2]|].
    split; try done. by apply (leaf_addrs_upd _ _ _ _ _ Hde).
Qed.

Lemma num_used_put_slot leaf i b0 kvb :
  kv_blocks leaf !! i = Some b0 → isFree b0 = true → isFree kvb = false →
  num_used (put_slot i kvb leaf) = S (length (live leaf)).
Proof.
  intros Hb Hf Hk. change (num_used (put_slot i kvb leaf)) with (length (live (put_slot i kvb leaf))).
  rewrite (live_put_slot leaf i b0 kvb Hb), (live_split leaf i b0 Hb), !live_of_one, Hf, Hk, !length_app. simpl. lia.
Qed.

(** After the exchange, with no more entries than the threshold. *)
Lemma insert_finish_run fuel depth junk local_ptr w a leaf items lo hi key :
  others (w_net w) = [] → tracked (mgr (w_net w)) = true → stored (cl w) 0 lo hi (TLeaf a leaf items) →
  lo ≤ key < hi → (num_used leaf ≤ split_threshold)%nat →
  ∃ w', insert_finish (C := C) (Ent := Ent) fuel depth junk local_ptr key a leaf None w = Done true w' ∧ quiet w w'.
Proof.
  intros Ho Ht Hst Hk Hn. inversion Hst as [? ? ? ? ? li Hh Hok Hhd Hits Hlk Hnd Hrg|]; subst.
  unfold insert_finish, in_fence. rewrite Hhd. cbn [lock fence_first fence_second Z.eqb negb orb].
  rewrite (proj2 (Z.leb_le _ _)), (proj2 (Z.ltb_lt _ _)) by lia. cbn [andb negb].
  rewrite (proj2 (Nat.ltb_ge _ _)) by done.
  destruct (remove_dupes_run fuel local_ptr w a leaf items lo hi key 0 Ho Hst) as (r & w1 & H1 & Hq1).
  destruct (record_cache_access_run None w1) as (w2 & H2 & Hq2); [by rewrite (q_tracked _ _ Hq1)|].
  exists w2. erewrite bind_done by exact H1. erewrite bind_done by exact H2. split; [done|by etrans].
Qed.

(** The key is new: a free slot is taken. *)
Lemma attempt_new w l t a leaf items kvb kv i b0 :
  located w l t a leaf items kvb kv → tracked (mgr (w_net w)) = true →
  kv_blocks leaf !! i = Some b0 → isFree b0 = true → item_key kv ∉ map item_key items →
  ∃ t' items' w', perform_all (C := C) [mkOp (kvblock_address a i) (op_cas b0 kvb);
                        mkOp a (op_read true (Z.of_nat sizeof_LeafNode))] w =
             Done (true, [out_expected b0; out_bytes (enc_LeafNode (put_slot i kvb leaf))]) w' ∧
    leaf_ok (put_slot i kvb leaf) ∧ descend l (item_key kv) t' = Some (TLeaf a (put_slot i kvb leaf) items') ∧
    upserted w w' l t t' kv.
Proof.
  intros Hlo Htr Hb0 Hf0 Hnew. pose proof Hlo as [Ho Hmem Hal Hsl Hde Hkey Hit Hfr Hun Hwd].
  destruct (located_leaf _ _ _ _ _ _ _ _ Hlo) as (lo & hi & Hst & Hk & Ha & Hlen & Hpw & Hdj).
  pose proof (lookup_lt_Some _ _ _ Hb0) as Hi. rewrite Hlen in Hi.
  inversion Hst as [? ? ? ? ? li Hh Hok Hhd Hits Hlk Hnd Hrg|]; subst.
  destruct (kvblock_address_inside (cl w) a leaf i (mo_fits _ _ _ _ Hmem) Ha Hh Hlen Hi) as (_ & _ & Hslot).
  destruct (exchange_slot (cl w) (root_offset_pointer_ w) l t (item_key kv) a leaf items i b0 kvb kv)
    as (items' & Hmem' & Hcont & Hh'); try done; [by rewrite Hf0|].
  set (c' := write_at (cl w) (kvblock_address a i) (le_bytes 8 kvb)) in *.
  pose proof (put_slot_ok i kvb leaf Hok Hwd) as Hok'.
  assert (in_width 64 b0) as Hw0 by (destruct Hok as (_ & _ & Hws); rewrite Forall_lookup in Hws; by eapply Hws).
  destruct (perform_all_run w [mkOp (kvblock_address a i) (op_cas b0 kvb); mkOp a (op_read true (Z.of_nat sizeof_LeafNode))]
    [out_expected b0; out_bytes (enc_LeafNode (put_slot i kvb leaf))] c' Ho) as (w1 & Hrun & Hq1).
  { rewrite (ops_cas (cl w) _ b0 kvb _ (Hslot b0 Hb0) Hw0). fold c'.
    rewrite (ops_read c' a _ sizeof_LeafNode [] Hh') by (apply length_enc_LeafNode, Hok'). done. }
  assert (cl w1 = c') as Hc1 by (unfold cl; by rewrite (q_cluster _ _ Hq1)).
  set (t' := put_key l (item_key kv) a i kvb leaf items' t) in *.
  assert (descend l (item_key kv) t' = Some (TLeaf a (put_slot i kvb leaf) items')) as Hde'.
  { destruct (descend_upd (item_key kv) (item_key kv) _ (TLeaf a (put_slot i kvb leaf) items') l t Hde) as [[_ ?]|[_ ?]]; done. }
  exists t', items', w1. split; [done|]. split; [done|]. split; [done|]. eapply upserted_quiet; [exact Hq1|].
  split; try done; [|by apply (leaf_addrs_upd _ _ _ _ _ Hde)].
  apply local_inv_write. eapply local_inv_perm; [exact Hal|].
  rewrite (blocks_put_key _ l _ a i kvb b0 leaf items items' t Hde Hb0 Hfr). by rewrite live_of_one, Hf0.
Qed.

(** Finding and reading the leaf while the item is written. *)
Lemma insert_locate_run fuel w l t kv x :
  index_inv w l t → faunus_cache_ w = None → key_min ≤ item_key kv < key_max → item_ok kv →
  (l < Pos.to_nat fuel)%nat → ga_ok x → readable (cl w) x sizeof_KVItem →
  Forall (disjoint_range (x, Z.of_nat sizeof_KVItem)) (index_blocks (root_offset_pointer_ w) t) →
  ∃ a leaf items w1, insert_locate (C := C) (Ent := Ent) fuel (item_key kv) kv x (mkIS 0 false false LeafNode_init Null None) w =
      Done (ready leaf a, true) w1 ∧
    quiet (relocate (write_at (cl w) x (enc_KVItem kv)) (w_slabs w) w) w1 ∧
    descend l (item_key kv) t = Some (TLeaf a leaf items) ∧
    memory_ok (cl w1) (root_offset_pointer_ w) l t ∧ holds (cl w1) x (enc_KVItem kv).
Proof.
  intros Hinv Hc Hkey Hkv Hf Hx Hrd Hdj. pose proof (index_inv_ok _ _ _ Hinv) as Hix.
  assert (length (enc_KVItem kv) = sizeof_KVItem) as Hlkv by (unfold enc_KVItem; by rewrite length_app, !length_be_bytes).
  assert (bytes_ok (enc_KVItem kv)) as Hbs by (apply Forall_app; split; apply be_bytes_ok).
  destruct (write_fresh (cl w) _ l t x (enc_KVItem kv) (iv_memory _ _ _ Hinv)) as [Hmem Hhx]; try done; try by rewrite Hlkv.
  destruct (find_node_run fuel (item_key kv) 0 false true w l t Hix Hc Hkey ltac:(lia) Hf) as (t' & w1 & Hfind & Hq1 & Hd).
  rewrite Nat.sub_0_r in Hd. change (Z.of_nat 0) with 0 in Hfind.
  destruct (descend_stored _ (item_key kv) l _ _ _ _ (ix_tree _ _ _ Hix) Hkey ltac:(lia))
    as (t1 & lo & hi & Hd' & Hst & Hk & _).
  rewrite Hd in Hd'. injection Hd' as <-. rewrite Nat.sub_diag in Hst.
  destruct t' as [a leaf items|]; [|inversion Hst]. cbn [addr_of] in *.
  inversion Hst as [? ? ? ? ? li Hh Hok Hhd Hit Hlk Hnd Hrange|]; subst.
  assert (cl w1 = cl w) as Hc1 by apply (q_cluster _ _ Hq1). destruct Hrd as [m Hrd]. rewrite <-Hlkv in Hrd.
  destruct (perform_all_run w1 [mkOp a (op_read true (Z.of_nat sizeof_LeafNode)); write_op x (enc_KVItem kv)]
    [out_bytes (enc_LeafNode leaf); out_none] (write_at (cl w) x (enc_KVItem kv))) as (w2 & Hrun & Hq2).
  { by rewrite (q_others _ _ Hq1), (ix_others _ _ _ Hix). }
  { rewrite Hc1, (ops_read (cl w) a _ sizeof_LeafNode _ Hh) by (apply length_enc_LeafNode, Hok).
    by rewrite (ops_write (cl w) x _ m [] Hrd). }
  assert (quiet (relocate (write_at (cl w) x (enc_KVItem kv)) (w_slabs w) w) w2) as Hq.
  { etrans; [|exact Hq2]. rewrite (q_slabs _ _ Hq1). by apply quiet_relocate. }
  exists a, leaf, items, w2. split; [|split; [exact Hq|split; [done|]]].
  - unfold insert_locate. cbn [is_attempt is_wrote_kvitem Z.ltb Z.compare Z.eqb].
    erewrite bind_done by reflexivity. erewrite bind_done by exact Hfind. cbn beta iota.
    change (bool_decide (FOUND ≠ UNKNOWN) && bool_decide (FOUND ≠ NO_SUCH_LEVEL)) with true.
    change (bool_decide (FOUND ≠ FOUND)) with false. erewrite bind_done by reflexivity. cbv iota.
    erewrite bind_done by exact Hrun. cbn [fst snd assert_]. erewrite bind_done by reflexivity.
    cbn [lookup list_lookup out_data]. rewrite dec_enc_LeafNode by done. rewrite Hhd. cbn [level lock Z.eqb assert_ andb].
    erewrite bind_done by reflexivity. unfold in_fence. cbn [fence_first fence_second].
    by rewrite (proj2 (Z.leb_le _ _)), (proj2 (Z.ltb_lt _ _)) by lia.
  - assert (cl w2 = write_at (cl w) x (enc_KVItem kv)) as -> by apply (q_cluster _ _ Hq). done.
Qed.

(** The candidates of the key: the slot that holds it, or its absence. *)
Lemma candidates_run w l t a leaf items kvb kv :
  located w l t a leaf items kvb kv →
  ∃ cs w', get_candidate_kvs (C := C) leaf (Fingerprint (item_key kv)) false false w = Done (true, cs) w' ∧ quiet w w' ∧
    match find_existing (item_key kv) cs with
    | Some i => ∃ b0 kv0, kv_blocks leaf !! i = Some b0 ∧ isFree b0 = false ∧
                          holds (cl w) (getAddr b0) (enc_KVItem kv0) ∧ item_ok kv0 ∧ item_key kv0 = item_key kv ∧
                          item_key kv ∈ map item_key items
    | None => item_key kv ∉ map item_key items
    end.
Proof.
  intros Hlo. destruct (located_leaf _ _ _ _ _ _ _ _ Hlo) as (lo & hi & Hst & _).
  inversion Hst as [? ? ? ? ? li Hh Hok Hhd Hits Hlk Hnd Hrg|]; subst.
  destruct (get_candidate_kvs_run w leaf items (Fingerprint (item_key kv)) false (lo_others _ _ _ _ _ _ _ _ Hlo) Hits Hlk)
    as (idx & w' & Hg & Hq & _ & Hidx).
  eexists _, w'. split; [exact Hg|]. split; [done|].
  pose proof (find_existing_spec _ (item_key kv) _ _ Hidx) as Hfe. destruct (find_existing _ _) as [i|].
  - destruct Hfe as (kv0 & (b0 & Hb0 & Hf0 & _ & Hh0) & Hin & Hk0). exists b0, kv0. do 3 (split; [done|]).
    apply list_elem_of_filter in Hin as [_ Hin]. split; [|split; [done|rewrite <-Hk0; by apply list_elem_of_fmap_2]]. apply list_elem_of_lookup in Hin as [j Hj].
    destruct (Forall2_lookup_r _ _ _ _ _ Hits Hj) as (b & _ & _ & Hokv & _). exact Hokv.
  - intros Hin. apply Hfe. apply list_elem_of_fmap in Hin as (kv0 & Hk0 & Hin). apply list_elem_of_fmap.
    exists kv0. split; [done|]. apply list_elem_of_filter. by rewrite Hk0.
Qed.

(** The leaf can take the key: it has it already or a free slot. *)
Definition has_slot (key : Z) (t : tree) : Prop :=
  match t with
  | TLeaf _ leaf items => key ∈ map item_key items ∨ (length (live leaf) < branch_factor)%nat
  | TNode _ _ _ => False
  end.

(** An attempt either has exchanged the slot of the key, or has taken a free slot
    and goes on with [insert_finish]. *)
Lemma insert_attempt_run fuel depth junk local_ptr w w1 l t a leaf items kvb kv x k st :
  insert_locate (C := C) (Ent := Ent) fuel (item_key kv) kv x st w = Done (ready leaf a, true) w1 → is_leaf_read st = false →
  located w1 l t a leaf items kvb kv → tracked (mgr (w_net w1)) = true →
  branch_factor = (2 ^ k)%nat → has_slot (item_key kv) (TLeaf a leaf items) →
  let run := insert_attempt (C := C) (Ent := Ent) fuel depth junk local_ptr (item_key kv) kv x kvb st w in
  ∃ t' w', upserted w1 w' l t t' kv ∧
    (run = Done (inr true) w' ∧ item_key kv ∈ map item_key items ∨
     item_key kv ∉ map item_key items ∧
     ∃ leaf' items', descend l (item_key kv) t' = Some (TLeaf a leaf' items') ∧ num_used leaf' = S (length (live leaf)) ∧
       run = (b ← insert_finish (C := C) (Ent := Ent) fuel depth junk local_ptr (item_key kv) a leaf' None; mret (inr b)) w').
Proof.
  intros Hl Hst Hlo Htr Hbf Hroom. cbv zeta. unfold insert_attempt. rewrite Hst. erewrite bind_done by exact Hl. cbn beta iota.
  cbn [negb is_leaf is_leaf_address is_cached_entry is_attempt]. destruct (candidates_run _ _ _ _ _ _ _ _ Hlo) as (cs & w2 & Hg & Hq & Hfe).
  pose proof (located_quiet _ _ _ _ _ _ _ _ _ Hq Hlo) as Hlo2.
  assert (tracked (mgr (w_net w2)) = true) as Htr2 by (by rewrite (q_tracked _ _ Hq)).
  assert (cl w2 = cl w1) as Hc by apply (q_cluster _ _ Hq).
  erewrite bind_done by exact Hg. cbn [fst snd negb]. destruct (find_existing _ _) as [i|].
  - destruct Hfe as (b0 & kv0 & Hb0 & Hf0 & Hh0 & Hok0 & Hk0 & Hink). rewrite <-Hc in Hh0.
    destruct (attempt_existing fuel w2 l t a leaf items kvb kv i b0 kv0) as (w' & Hrun & t' & Hu); try done.
    exists t', w'. split; [by eapply upserted_start|by left].
  - destruct Hroom as [Hin|Hr1]; [done|].
    destruct (located_leaf _ _ _ _ _ _ _ _ Hlo2) as (lo & hi & Hstd & Hk & Ha & Hlen & _).
    inversion Hstd as [? ? ? ? ? li Hh Hok Hhd Hits Hlk Hnd Hrg|]; subst.
    erewrite bind_done by reflexivity. cbv zeta.
    destruct (pick_slot_free leaf (mix64 (Z.lxor (w_tid_hash w2) 0)) k Hbf Hlen Hlk Hr1) as (i & b0 & Hp & Hb0 & Hf0).
    rewrite Hp, Hb0. simpl default.
    destruct (attempt_new w2 l t a leaf items kvb kv i b0) as (t' & items' & w' & Hrun & Hok' & Hde & Hu); try done.
    exists t', w'. split; [by eapply upserted_start|]. right. split; [done|]. exists (put_slot i kvb leaf), items'.
    split; [done|]. split; [apply (num_used_put_slot leaf i b0 kvb Hb0 Hf0), Hlo|].
    erewrite bind_done by exact Hrun. cbn [fst snd assert_].
    erewrite bind_done by reflexivity. cbn [lookup list_lookup out_data expected_after]. rewrite Z.eqb_refl.
    rewrite dec_enc_LeafNode by done. done.
Qed.

(** What an insert has done before [insert_finish]. *)
Record inserted w w' (l : nat) (t t' : tree) (key value : Z) : Prop := mkInserted {
  in_inv : index_inv w' l t';
  in_contents : contents t' = <[key := value]> (contents t);
  in_leaves : leaf_addrs t' = leaf_addrs t;
  in_cache : faunus_cache_ w' = None;
  in_tracked : tracked (mgr (w_net w')) = true;
  in_queues : maintenance_queues w' = maintenance_queues w;
  in_rand : (w_rand w').1 = (w_rand w).1;
  in_free : ∀ m, (nfree (w_slabs w) m ≤ S (nfree (w_slabs w') m))%nat
}.

Lemma inserted_quiet w w1 w2 l t t' key value : quiet w1 w2 → inserted w w1 l t t' key value → inserted w w2 l t t' key value.
Proof.
  intros Hq []. split; rewrite ?(q_slabs _ _ Hq), ?(q_cache _ _ Hq), ?(q_tracked _ _ Hq), ?(q_queues _ _ Hq), ?(q_rand _ _ Hq); try done.
  by eapply index_inv_quiet.
Qed.

(** An insert either exchanges the slot of the key and is done, or takes a free slot
    of the leaf of the key, which then holds one entry more, and finishes there. *)
Lemma insert_run fuel depth junk local_ptr w l t key value k :
  index_inv w l t → faunus_cache_ w = None → tracked (mgr (w_net w)) = true →
  key_min ≤ key < key_max → 0 ≤ value < 256 ^ Z.of_nat VALUE_SIZE → (l < Pos.to_nat fuel)%nat →
  branch_factor = (2 ^ k)%nat → (∀ t0, descend l key t = Some t0 → has_slot key t0) →
  (0 < nfree (w_slabs w) sizeof_KVItem)%nat →
  let run := insert (C := C) (Ent := Ent) fuel depth junk local_ptr key value w in
  ∃ t' w', inserted w w' l t t' key value ∧
    ∃ a leaf items, descend l key t = Some (TLeaf a leaf items) ∧
    (run = Done true w' ∧ key ∈ map item_key items ∨
     key ∉ map item_key items ∧
     ∃ leaf' items', descend l key t' = Some (TLeaf a leaf' items') ∧ num_used leaf' = S (length (live leaf)) ∧
       run = insert_finish (C := C) (Ent := Ent) fuel depth junk local_ptr key a leaf' None w').
Proof.
  intros Hinv Hc Htr Hkey Hval Hf Hbf Hroom Hfree. set (kv := mkItem key value). cbv zeta.
  assert (item_ok kv) as Hkv by (unfold item_ok, key_ok, key_min, key_max in *; cbn; lia).
  pose proof Hinv as [Ho Hlv Hmem Hal]. destruct (nfree_slab _ _ _ _ Hal Hfree) as (sl & Hsl & Hne).
  destruct (allocate_run w sizeof_KVItem sl _ Hsl Hne Hal (mo_fits _ _ _ _ Hmem)) as (x & slabs' & Hrun & Hal' & Hsl' & Hx & H46 & Hrd & _ & Hav).
  set (w0 := relocate (cl w) slabs' w) in *.
  assert (Forall (disjoint_range (x, Z.of_nat sizeof_KVItem)) (index_blocks (root_offset_pointer_ w) t)) as Hdj.
  { destruct Hal' as (_ & _ & Hd & _). apply pairwise_app in Hd as (_ & Hd & _). apply Hd. }
  assert (index_inv w0 l t) as Hinv0.
  { split; [done|done|done|]. eapply local_inv_tail. exact Hal'. }
  destruct (insert_locate_run fuel w0 l t kv x) as (a & leaf & items & w1 & Hl & Hq & Hd & Hm1 & Hh1); try done.
  destruct (new_slot_word key x Hx H46) as (Hga & Hfp & Hfr & Hun & Hwd). set (kvb := KVBlock_make (Fingerprint key) x false false) in *.
  assert (cl w1 = write_at (cl w) x (enc_KVItem kv)) as Hc1 by apply (q_cluster _ _ Hq).
  assert (located w1 l t a leaf items kvb kv) as Hlo.
  { split; try done.
    - by rewrite (q_others _ _ Hq).
    - by rewrite (q_root _ _ Hq).
    - rewrite (q_slabs _ _ Hq), (q_root _ _ Hq), Hc1. unfold item_block. rewrite Hga. by apply local_inv_write.
    - by rewrite (q_slabs _ _ Hq).
    - split; [by rewrite Hga|done]. }
  destruct (insert_attempt_run fuel depth junk local_ptr w0 w1 l t a leaf items kvb kv x k (mkIS 0 false false LeafNode_init Null None))
    as (t' & w' & [U1 U2 U3 U4 U5 U6] & Hatt); try done; [by rewrite (q_tracked _ _ Hq)|by apply Hroom|].
  assert (∀ m, (nfree (w_slabs w) m ≤ S (nfree slabs' m))%nat) as Hnf by (intros m; by eapply nfree_take).
  assert (quiet (relocate (cl w') (w_slabs w') w) w') as HQ.
  { etrans; [|exact U1]. exact (quiet_relocate (cl w') (w_slabs w') _ _ Hq). }
  exists t', w'. split.
  - split; try done; [|by rewrite (q_cache _ _ HQ)|by rewrite (q_tracked _ _ HQ)|by rewrite (q_queues _ _ HQ)|by rewrite (q_rand _ _ HQ)|].
    + assert (root_offset_pointer_ w' = root_offset_pointer_ w1) as Hro by apply (q_root _ _ U1).
      split; [by rewrite (q_others _ _ HQ)|done|by rewrite Hro..].
    + intros m. specialize (Hnf m). specialize (U6 m). rewrite (q_slabs _ _ Hq) in U6. cbn in U6. lia.
  - exists a, leaf, items. split; [done|]. unfold insert. erewrite bind_done by exact Hrun. cbv zeta. fold kvb.
    destruct Hatt as [[Hatt Hin]|(Hnin & leaf' & items' & Hd' & Hn & Hatt)].
    + left. split; [|done]. rewrite (bind_done _ _ w0 (inr true) w'); [done|]. by apply loop_done.
    + right. split; [done|]. exists leaf', items'. do 2 (split; [done|]). by apply loop_finish.
Qed.

End upsert.

(** ** The concrete index satisfies the invariant *)

#[export] Instance disjoint_range_dec : RelDecision disjoint_range.
Proof. intros r r'. unfold disjoint_range. apply _. Defined.

Section check.
Context {cfg : FaunusConfig}.
Context {Q : Type → Type} `{!ConcurrentQueue Q}.

(** A range in the granted part of one server. *)
Definition granted_check (c : Cluster Q) (r : Z * Z) : bool :=
  (0 <? r.2) && (0 <=? r.1) &&
  match servers_ c !! Z.to_nat (r.1 / 2 ^ 42) with
  | Some s => (r.1 mod 2 ^ 42 + r.2 <=? next_offset_ s) && (next_offset_ s <=? 2 ^ 42)
  | None => false
  end.

Lemma granted_check_sound (c : Cluster Q) r : granted_check c r = true → granted c r.
Proof.
  destruct r as [a n]. unfold granted_check. cbn [fst snd].
  rewrite !andb_true_iff. intros [[Hn%Z.ltb_lt Ha%Z.leb_le] H].
  destruct (servers_ c !! _) as [s|] eqn:Hs; [|done]. apply andb_true_iff in H as [Hr%Z.leb_le Ho%Z.leb_le].
  split; cbn [fst snd]; [done|]. intros x Hx. split; [lia|].
  pose proof (Z.div_mod a (2 ^ 42) ltac:(lia)). pose proof (Z.mod_pos_bound a (2 ^ 42) ltac:(lia)).
  assert (x / 2 ^ 42 = a / 2 ^ 42) as Hd by (symmetry; apply (Z.div_unique x (2 ^ 42) _ (x - 2 ^ 42 * (a / 2 ^ 42))); lia).
  exists s. rewrite Hd. split; [done|]. pose proof (Z.div_mod x (2 ^ 42) ltac:(lia)). lia.
Qed.

Definition cluster_check (c : Cluster Q) : bool :=
  bool_decide ((0 < length (servers_ c) ≤ 16)%nat) && (0 <=? rr c) &&
  bool_decide (map_Forall (λ p _, (p < next_promise c)%nat) (promises c)) &&
  forallb (λ s, (0 <=? next_offset_ s) && (next_offset_ s <=? memory_size (rdma_ s)) &&
                (memory_size (rdma_ s) <? 2 ^ 42) && bool_decide (bytes_ok (rdma_ s)) &&
                match q_contents (alloc_queue_ s) with [] => true | _ => false end) (servers_ c).

Lemma cluster_check_sound (c : Cluster Q) : cluster_check c = true → cluster_ok c ∧ fits c.
Proof.
  unfold cluster_check. rewrite !andb_true_iff, !bool_decide_eq_true, forallb_forall.
  intros (((Hl & Hr%Z.leb_le) & Hp) & Hs).
  assert (∀ s, s ∈ servers_ c → (0 ≤ next_offset_ s ≤ memory_size (rdma_ s)) ∧ memory_size (rdma_ s) < 2 ^ 42 ∧
            bytes_ok (rdma_ s) ∧ q_contents (alloc_queue_ s) = []) as Hs'.
  { intros s Hin%list_elem_of_In. specialize (Hs s Hin).
    rewrite !andb_true_iff, bool_decide_eq_true, !Z.leb_le, Z.ltb_lt in Hs. destruct Hs as ((((? & ?) & ?) & ?) & ?).
    split; [done|]. split; [done|]. split; [done|]. by destruct (q_contents _). }
  split.
  - split; [lia|]. split; [done|]. split.
    + intros p Hlt. destruct (promises c !! p) eqn:E; [|done]. apply Hp in E. lia.
    + apply list.Forall_forall. intros s Hin. destruct (Hs' s Hin) as (? & ? & ? & ?). split; [lia|done].
  - split; [lia|]. apply list.Forall_forall. intros s Hin. destruct (Hs' s Hin) as (? & ? & ? & ?).
    split; [|lia]. split; [done|]. lia.
Qed.

(** The invariant as a computation. *)
Definition inv_check {C} (w : World Q C) (l : nat) (t : tree) : bool :=
  index_check w l t && cluster_check (cl w) &&
  bool_decide (map_Forall (λ sz sl, slab_size_ sl = sz ∧ 0 < sz) (w_slabs w)) &&
  (let blocks := avail (w_slabs w) ++ index_blocks (root_offset_pointer_ w) t in
   bool_decide (pairwise disjoint_range blocks) && forallb (granted_check (cl w)) blocks).

Lemma inv_check_sound {C} (w : World Q C) l t : inv_check w l t = true → index_inv w l t.
Proof.
  unfold inv_check. rewrite !andb_true_iff, !bool_decide_eq_true, forallb_forall.
  intros (((Hix%index_check_sound & Hc) & Hsz) & Hd & Hg). apply cluster_check_sound in Hc as [Hcok Hfit].
  assert (Forall (granted (cl w)) (avail (w_slabs w) ++ index_blocks (root_offset_pointer_ w) t)) as Hgr.
  { apply list.Forall_forall. intros r Hr. apply granted_check_sound, Hg. by apply list_elem_of_In. }
  destruct Hix as [Ho Hr Hrok Ht Hl Hrd]. split; [done|done| |].
  - split; try done. pose proof Hgr as Hgr'. rewrite Forall_app in Hgr'. destruct Hgr' as [_ [Hroot _]%Forall_cons_iff].
    destruct (granted_readable (cl w) (root_offset_pointer_ w) 8 Hcok Hfit) as (? & _); [|done|done].
    destruct Hroot as [_ Hroot]. cbn [fst snd] in Hroot. by destruct (Hroot (root_offset_pointer_ w) ltac:(lia)).
  - split; [done|]. split; [|done]. intros sz sl Hsl. by apply (Hsz sz sl).
Qed.
End check.

#[export] Instance has_slot_dec {cfg : FaunusConfig} key t : Decision (has_slot key t).
Proof. destruct t; simpl; apply _. Defined.
