(* ===== verification/FaunusInit.v ===== *)
(** * Creating an index

    [initialize] of src/kv_index/faunus_index.cpp on memories that are still zero:
    it ends in an index that holds the tree of one empty leaf, with the invariant
    ([index_inv]) the other operations preserve. *)

From S2P Require Import Prelude GlobalAddress RdmaSim ThreadStats Queue MemoryServer Slab RdmaManager KVBlock FaunusNode FaunusIndex FaunusTree FaunusRead FaunusFrame FaunusInsert FaunusUpsert.

Section init.
Context {cfg : FaunusConfig}.
Context {Q : Type → Type} `{!ConcurrentQueue Q}.
Context {C Ent : Type} `{!NodeCache C Ent (GlobalAddress * InternalNode)}.
Implicit Types w : World Q C.

(** Fresh memories: all bytes are zero, and an internal node fits behind every
    granted byte (the traversal reads the root as an internal node). *)
Definition fresh (c : Cluster Q) : Prop :=
  Forall (λ s, Forall (λ b, b = 0) (rdma_ s) ∧
               next_offset_ s + Z.of_nat sizeof_InternalNode ≤ memory_size (rdma_ s)) (servers_ c).

(** All bytes are zero. *)
Definition zeroed (c : Cluster Q) : Prop := Forall (λ s, Forall (λ b, b = 0) (rdma_ s)) (servers_ c).

Lemma zeroed_holds c a n : zeroed c → readable c a n → holds c a (replicate n 0).
Proof.
  intros Hf (m & Hr). pose proof Hr as (s & Hs & <- & _ & H0 & Hr'). exists (rdma_ s).
  rewrite length_replicate. split; [done|]. unfold zeroed in Hf. rewrite Forall_lookup in Hf. specialize (Hf _ _ Hs).
  symmetry. apply replicate_as_elem_of. split; [apply length_slice; unfold memory_size in Hr'; lia|].
  intros x Hx. rewrite list.Forall_forall in Hf. apply Hf.
  unfold slice in Hx. apply list_elem_of_lookup in Hx as [i Hi]. apply lookup_take_Some in Hi as [Hi _].
  rewrite lookup_drop in Hi. by eapply list_elem_of_lookup_2.
Qed.

Lemma fresh_zero c a n : fresh c → readable c a n → holds c a (replicate n 0).
Proof. intros Hf. apply zeroed_holds. eapply Forall_impl; [|exact Hf]. by intros s [? _]. Qed.

Lemma granted_leaf_readable (c : Cluster Q) a n :
  fits c → fresh c → ga_ok a → granted c (a, n) → readable c a sizeof_InternalNode.
Proof.
  intros Hfit Hf Ha [Hn Hg]. cbn [fst snd] in *. destruct (Hg a ltac:(lia)) as (_ & s & Hs & Hlt).
  unfold fresh in Hf. rewrite Forall_lookup in Hf. destruct (Hf _ _ Hs) as [_ Hr].
  destruct Hfit as [_ Hm]. rewrite Forall_lookup in Hm. destruct (Hm _ _ Hs) as [Hmok _].
  exists (rdma_ s), s. rewrite server_index_div, offset_mod by done. split; [done|]. split; [done|]. split; [done|].
  pose proof (Z.mod_pos_bound a (2 ^ 42) ltac:(lia)). lia.
Qed.

(** The root pointer moves from [old] to [a]. *)
Lemma update_root_run w old a :
  others (w_net w) = [] → holds (cl w) (root_offset_pointer_ w) (le_bytes 8 old) → ga_ok old →
  ∃ w', update_root_offset (C := C) a w = Done true w' ∧
    quiet (relocate (write_at (cl w) (root_offset_pointer_ w) (le_bytes 8 a)) (w_slabs w) w) w'.
Proof.
  intros Ho Hh Hold. destruct (get_root_offset_holds w old Ho Hh Hold) as (w1 & H1 & Hq1).
  assert (cl w1 = cl w) as Hc by apply (q_cluster _ _ Hq1).
  destruct (perform_run w1 (mkOp (root_offset_pointer_ w) (op_cas old a)) (out_expected old)
              (write_at (cl w) (root_offset_pointer_ w) (le_bytes 8 a))) as (w2 & H2 & Hq2).
  { by rewrite (q_others _ _ Hq1). }
  { rewrite Hc, (ops_cas (cl w) _ old a [] Hh) by (unfold ga_ok, in_width in *; lia). done. }
  exists w2. split.
  - unfold update_root_offset. erewrite bind_done by exact H1. erewrite bind_done by reflexivity.
    rewrite (q_root _ _ Hq1). erewrite bind_done by exact H2. cbn [fst snd negb expected_after]. by rewrite Z.eqb_refl.
  - etrans; [|exact Hq2]. rewrite (q_slabs _ _ Hq1). by apply quiet_relocate.
Qed.

Lemma write_object_run w a bs m :
  others (w_net w) = [] → region_at (cl w) a (length bs) m →
  ∃ w', write_object (C := C) a bs w = Done true w' ∧ quiet (relocate (write_at (cl w) a bs) (w_slabs w) w) w'.
Proof.
  intros Ho Hr. destruct (perform_run w (write_op a bs) out_none (write_at (cl w) a bs) Ho) as (w' & H & Hq).
  { by rewrite (ops_write _ _ _ _ _ Hr). }
  exists w'. split; [|done]. unfold write_object, perform, on_net, zoom, rdma_write_object in *. unfold write_op in H.
  destruct (perform_op _ (w_net w)) as [r n'|f n'] eqn:E; [|done].
  rewrite (bind_done _ _ _ _ _ E). simplify_eq. done.
Qed.

(** The leaf [initialize] writes. *)
Definition root_leaf : LeafNode := mkLeaf (set_fence key_min key_max header0) (kv_blocks LeafNode_init).

Lemma root_leaf_ok : (0 < KEY_SIZE)%nat → leaf_ok root_leaf.
Proof.
  intros Hk. destruct LeafNode_init_ok as ((H1 & H2 & _ & _ & H5) & H6 & H7). split; [|by split].
  unfold header_ok, root_leaf, set_fence. cbn. split; [done|]. split; [done|].
  unfold key_ok, key_min, key_max. pose proof (Z.pow_pos_nonneg 256 (Z.of_nat KEY_SIZE)). split; [lia|]. by split; [lia|].
Qed.

Lemma root_leaf_empty : live root_leaf = [] ∧ Forall (λ b, isLocked b = false) (kv_blocks root_leaf).
Proof.
  unfold live, root_leaf. cbn. assert (isFree (KVBlock_make 0 0 true false) = true) as Hf by reflexivity.
  split; [|by apply Forall_replicate]. induction branch_factor as [|n IH]; [done|].
  cbn [replicate]. rewrite filter_cons_False by (rewrite Hf; done). exact IH.
Qed.

(** An empty leaf at [a], with the root pointer at [x]. *)
Lemma empty_leaf_memory (c : Cluster Q) x a :
  fits c → ga_ok x → ga_ok a → (0 < KEY_SIZE)%nat →
  holds c x (le_bytes 8 a) → holds c a (enc_LeafNode root_leaf) → readable c a sizeof_InternalNode →
  memory_ok c x 0 (TLeaf a root_leaf []).
Proof.
  intros Hf Hx Ha Hk Hr Hl Hrd. destruct root_leaf_empty as [Hlive Hlk]. split; try done.
  eapply stored_leaf; [done|by apply root_leaf_ok|reflexivity| |done|constructor|constructor].
  rewrite Hlive. constructor.
Qed.

Lemma initialize_run w n sl8 sll :
  local_inv (w_slabs w, cl w) [] → fits (cl w) → fresh (cl w) → others (w_net w) = [] → (0 < KEY_SIZE)%nat →
  w_slabs w !! 8 = Some sl8 → q_contents (free_list_ sl8) ≠ [] →
  w_slabs w !! Z.of_nat sizeof_LeafNode = Some sll → q_contents (free_list_ sll) ≠ [] →
  ∃ a w', initialize (C := C) n w = Done true w' ∧ index_inv w' 0 (TLeaf a root_leaf []) ∧
          faunus_cache_ w' = faunus_cache_ w ∧ tracked (mgr (w_net w')) = tracked (mgr (w_net w)) ∧
          maintenance_queues w' = (if (0 <? n)%nat then create_maintenance_queues n else maintenance_queues w) ∧ w_rand w' = w_rand w.
Proof.
  intros Hinv Hfit Hfr Ho Hk Hs8 Hne8 Hsl Hnel.
  destruct (allocate_run w 8 sl8 [] Hs8 Hne8 Hinv Hfit) as (x & slabs1 & Hal1 & Hinv1 & _ & Hx & _ & Hrx & Hoth & _).
  set (w1 := set_root_pointer x (relocate (cl w) slabs1 w)).
  assert (Z.of_nat sizeof_LeafNode ≠ 8) as Hn8 
    by (unfold sizeof_LeafNode, sizeof_Header, offsetof_last_index; pose proof (align8_ge (16 + 2 * KEY_SIZE)); lia).
  rewrite <-(Hoth _ Hn8) in Hsl.
  destruct (allocate_run w1 sizeof_LeafNode sll [(x, Z.of_nat 8)] Hsl Hnel Hinv1 Hfit)
    as (a & slabs2 & Hal2 & Hinv2 & _ & Ha & _ & Hra & _). change (cl w1) with (cl w) in *.
  pose proof Hinv2 as (_ & _ & Hd & Hg). cbn [fst snd] in Hd, Hg. apply pairwise_app in Hd as (_ & [Hax _] & _).
  apply Forall_cons_iff in Hax as [Hax _]. apply Forall_app in Hg as [_ [Hga _]%Forall_cons_iff].
  set (w2 := relocate (cl w) slabs2 w1) in *. set (bs := enc_LeafNode root_leaf).
  assert (length bs = sizeof_LeafNode) as Hlbs by (apply length_enc_LeafNode; cbn; apply length_replicate).
  assert (bytes_ok bs) as Hbs by apply enc_LeafNode_bytes.
  destruct Hra as [ma Hra]. rewrite <-Hlbs in Hra, Hax.
  destruct (write_object_run w2 a bs ma Ho Hra) as (w3 & Hwr & Hq3). change (cl w2) with (cl w) in Hq3.
  pose proof (agree_write (cl w) a bs ma Hfit Ha Hra Hbs) as Hag. pose proof (holds_write _ _ _ _ Hra Hbs) as Hha.
  pose proof (fits_write _ _ _ _ Hfit Hra Hbs) as Hfit1. set (c1 := write_at (cl w) a bs) in *.
  assert (cl w3 = c1) as Hc3 by apply (q_cluster _ _ Hq3).
  assert (holds c1 x (le_bytes 8 0)) as Hx0.
  { apply (ag_holds _ _ _ Hag); [done|by apply (fresh_zero (cl w) x 8)|]. apply apart_one. by symmetry. }
  destruct (update_root_run w3 0 a) as (w4 & Hup & Hq4).
  { by rewrite (q_others _ _ Hq3). }
  { by rewrite Hc3, (q_root _ _ Hq3). }
  { unfold ga_ok, in_width. lia. }
  rewrite Hc3, (q_root _ _ Hq3) in Hq4. change (root_offset_pointer_ (relocate c1 (w_slabs w2) w2)) with x in Hq4.
  pose proof Hx0 as (mx & Hrx1 & _). assert (length (le_bytes 8 a) = length (le_bytes 8 0)) as Hl8 by (by rewrite !length_le_bytes).
  rewrite <-Hl8 in Hrx1.
  pose proof (agree_write c1 x (le_bytes 8 a) mx Hfit1 Hx Hrx1 (le_bytes_ok _ _)) as Hag2.
  assert (index_inv (relocate (write_at c1 x (le_bytes 8 a)) slabs2 w2) 0 (TLeaf a root_leaf [])) as Hix.
  { assert (memory_ok (write_at c1 x (le_bytes 8 a)) x 0 (TLeaf a root_leaf [])) as Hmem; [|split; [exact Ho|lia|exact Hmem|]].
    - apply empty_leaf_memory; [exact (fits_write _ _ _ _ Hfit1 Hrx1 (le_bytes_ok _ _))|done|done|done|exact (holds_write _ _ _ _ Hrx1 (le_bytes_ok _ _))| |].
      + apply (ag_holds _ _ _ Hag2); [done|done|]. by apply apart_one.
      + apply (ag_readable _ _ _ Hag2), (ag_readable _ _ _ Hag). by eapply granted_leaf_readable.
    - unfold index_blocks. cbn [blocks_of]. rewrite (proj1 root_leaf_empty). cbn [map]. apply local_inv_write, local_inv_write.
      eapply local_inv_perm; [exact Hinv2|apply perm_swap]. }
  assert (quiet (relocate (write_at c1 x (le_bytes 8 a)) slabs2 w2) w4) as Hq.
  { etrans; [|exact Hq4]. rewrite (q_slabs _ _ Hq3). exact (quiet_relocate _ _ _ _ Hq3). }
  exists a, (if (0 <? n)%nat then set_queues (create_maintenance_queues n) w4 else w4). split; [|split; [|split; [|split; [|split]]]].
  - unfold initialize. erewrite bind_done by exact Hal1. erewrite bind_done by reflexivity. fold w1.
    erewrite bind_done by exact Hal2. fold root_leaf. cbv zeta. fold w2. erewrite bind_done by exact Hwr. cbn [negb].
    erewrite bind_done by exact Hup. destruct (0 <? n)%nat; by erewrite bind_done by reflexivity.
  - pose proof (index_inv_quiet _ _ _ _ Hq Hix) as [H1 H2 H3 H4]. destruct (0 <? n)%nat; by split.
  - transitivity (faunus_cache_ w4); [by destruct (0 <? n)%nat|]. by rewrite (q_cache _ _ Hq).
  - transitivity (tracked (mgr (w_net w4))); [by destruct (0 <? n)%nat|]. by rewrite (q_tracked _ _ Hq).
  - destruct (0 <? n)%nat; [done|]. by rewrite (q_queues _ _ Hq).
  - transitivity (w_rand w4); [by destruct (0 <? n)%nat|]. by rewrite (q_rand _ _ Hq).
Qed.

(** [initialize] creates an empty index: on zeroed memories, with a block for
    the root pointer and one for a leaf in the free lists, it reports success and
    leaves an index that satisfies the invariant of the other operations and whose
    contents are empty: the tree is one leaf for all keys, the root pointer points
    to it, and both are blocks the allocator gave out and that overlap nothing. *)
Theorem initialize_empty w n sl8 sll :
  local_inv (w_slabs w, cl w) [] → fits (cl w) → fresh (cl w) → others (w_net w) = [] → (0 < KEY_SIZE)%nat →
  w_slabs w !! 8 = Some sl8 → q_contents (free_list_ sl8) ≠ [] →
  w_slabs w !! Z.of_nat sizeof_LeafNode = Some sll → q_contents (free_list_ sll) ≠ [] →
  ∃ t w', initialize (C := C) n w = Done true w' ∧ index_inv w' 0 t ∧ contents t = ∅ ∧
          length (maintenance_queues w') = (if (0 <? n)%nat then n else length (maintenance_queues w)).
Proof.
  intros Hinv Hfit Hfr Ho Hk Hs8 Hne8 Hsl Hnel.
  destruct (initialize_run w n sl8 sll) as (a & w' & Hrun & Hix & _ & _ & Hqs & _); try done.
  exists (TLeaf a root_leaf []), w'. split_and!; try done. rewrite Hqs. destruct (0 <? n)%nat; [apply length_replicate|done].
Qed.
End init.

(** ** At the concrete memories *)

Section check.
Context {cfg : FaunusConfig}.
Context {Q : Type → Type} `{!ConcurrentQueue Q}.

Definition fresh_check (c : Cluster Q) : bool :=
  forallb (λ s, forallb (Z.eqb 0) (rdma_ s) &&
                (next_offset_ s + Z.of_nat sizeof_InternalNode <=? memory_size (rdma_ s))) (servers_ c).

Lemma fresh_check_sound (c : Cluster Q) : fresh_check c = true → fresh c.
Proof.
  unfold fresh_check. rewrite forallb_forall. intros H. apply list.Forall_forall. intros s Hs%list_elem_of_In.
  specialize (H s Hs). rewrite andb_true_iff, forallb_forall, Z.leb_le in H. destruct H as [Hz Hr]. split; [|done].
  apply list.Forall_forall. intros b Hb%list_elem_of_In. specialize (Hz b Hb). lia.
Qed.

(** The allocator's invariant with nothing given out. *)
Definition alloc_check (slabs : gmap Z (SlabAllocator Q)) (c : Cluster Q) : bool :=
  cluster_check c && bool_decide (map_Forall (λ sz sl, slab_size_ sl = sz ∧ 0 < sz) slabs) &&
  bool_decide (pairwise disjoint_range (avail slabs)) && forallb (granted_check c) (avail slabs).

Lemma alloc_check_sound slabs (c : Cluster Q) : alloc_check slabs c = true → local_inv (slabs, c) [] ∧ fits c.
Proof.
  unfold alloc_check. rewrite !andb_true_iff, !bool_decide_eq_true, forallb_forall.
  intros (((Hc & Hsz) & Hd) & Hg). apply cluster_check_sound in Hc as [Hcok Hfit]. split; [|done].
  split; [done|]. split; [intros sz sl; apply (Hsz sz sl)|]. cbn [fst snd]. rewrite app_nil_r. split; [done|].
  apply list.Forall_forall. intros r Hr%list_elem_of_In. by apply granted_check_sound, Hg.
Qed.
End check.

Definition slab_ready {Q} `{!ConcurrentQueue Q} (slabs : gmap Z (SlabAllocator Q)) (n : Z) : bool :=
  match slabs !! n with
  | Some sl => match q_contents (free_list_ sl) with [] => false | _ => true end
  | None => false
  end.

Lemma slab_ready_sound {Q} `{!ConcurrentQueue Q} (slabs : gmap Z (SlabAllocator Q)) n :
  slab_ready slabs n = true → ∃ sl, slabs !! n = Some sl ∧ q_contents (free_list_ sl) ≠ [].
Proof. unfold slab_ready. destruct (slabs !! n) as [sl|]; [|done]. exists sl. split; [done|]. by destruct (q_contents _). Qed.

Lemma initialize_empty_witness :
  ∃ (w : World fifo demo_cache), world_init (cfg := demo_cfg) 2 1024 4 None (λ n, Z.of_nat n) None = Some w ∧
  ∃ t w', initialize (cfg := demo_cfg) 3 w = Done true w' ∧ index_inv (cfg := demo_cfg) w' 0 t ∧ contents t = ∅ ∧
          length (maintenance_queues w') = 3%nat.
Proof.
  assert (match world_init (cfg := demo_cfg) (C := demo_cache) (Q := fifo) 2 1024 4 None (λ n, Z.of_nat n) None with
          | Some w => alloc_check (w_slabs w) (cl w) && fresh_check (cfg := demo_cfg) (cl w) &&
                      slab_ready (w_slabs w) 8 && slab_ready (w_slabs w) (Z.of_nat (sizeof_LeafNode (cfg := demo_cfg))) &&
                      match others (w_net w) with [] => true | _ => false end
          | None => false
          end = true) as H by (vm_compute; reflexivity).
  destruct (world_init _ _ _ _ _ _) as [w|]; [|exfalso; discriminate H]. exists w. split; [reflexivity|].
  apply andb_true_iff in H as [H Ho]. apply andb_true_iff in H as [H Hl]. apply andb_true_iff in H as [H H8].
  apply andb_true_iff in H as [Ha Hf]. apply alloc_check_sound in Ha as [Hinv Hfit].
  apply fresh_check_sound in Hf. apply slab_ready_sound in H8 as (sl8 & Hs8 & Hn8). apply slab_ready_sound in Hl as (sll & Hsl & Hnl).
  apply (initialize_empty (cfg := demo_cfg) w 3 sl8 sll);
    [exact Hinv|exact Hfit|exact Hf|destruct (others (w_net w)); [reflexivity|discriminate Ho]|cbn; lia
    |exact Hs8|exact Hn8|exact Hsl|exact Hnl].
Defined.
