(* ===== verification/FaunusHeap.v ===== *)
(** * The blocks of the remote memories and their contents

    [heap w cs]: the cells [cs], addresses with the bytes stored there, are exactly
    the blocks the program has from its allocator, and the memories hold their
    bytes.  The cells overlap neither each other nor a free block, so a verb on one
    cell leaves the others as they are.  The lemmas of this file run the verbs, the
    batches and the allocator of a thread that works alone on such a description. *)

From S2P Require Import Prelude GlobalAddress RdmaSim ThreadStats Queue MemoryServer Slab RdmaManager KVBlock FaunusNode FaunusIndex FaunusTree FaunusRead FaunusFrame FaunusInsert FaunusUpsert FaunusInit.

Abbreviation cell := (GlobalAddress * list Z)%type.

Definition extent (x : cell) : Z * Z := (x.1, Z.of_nat (length x.2)).

(** ** Verbs on cells *)

Section memory.
Context {Q : Type → Type} `{!ConcurrentQueue Q}.
Implicit Types (c : Cluster Q) (a : GlobalAddress) (l bs : list Z) (cs : list cell).

Record blocks (slabs : gmap Z (SlabAllocator Q)) c cs : Prop := mkBlocks {
  bk_fits : fits c;
  bk_alloc : local_inv (slabs, c) (map extent cs);
  bk_holds : Forall (λ x, holds c x.1 x.2) cs
}.

Lemma blocks_perm slabs c cs cs' : cs ≡ₚ cs' → blocks slabs c cs → blocks slabs c cs'.
Proof.
  intros Hp [Hf Ha Hh]. split; [done| |by rewrite <-Hp]. eapply local_inv_perm; [exact Ha|]. by rewrite Hp.
Qed.

#[global] Instance blocks_proper : Proper (eq ==> eq ==> Permutation ==> iff) blocks.
Proof. intros s ? <- c ? <- cs cs' Hp. split; by apply blocks_perm. Qed.

Lemma blocks_cell slabs c cs x : blocks slabs c cs → x ∈ cs → ga_ok x.1 ∧ holds c x.1 x.2 ∧ (0 < length x.2)%nat.
Proof.
  intros [Hf (Hok & _ & _ & Hg) Hh] Hx. cbn [fst snd] in *. apply Forall_app in Hg as [_ Hg].
  rewrite Forall_map in Hg. rewrite list.Forall_forall in Hg, Hh. specialize (Hg x Hx). specialize (Hh x Hx).
  pose proof Hg as [Hn Hu]. unfold extent in Hn, Hu. cbn [fst snd] in Hn, Hu.
  assert (0 ≤ x.1) as H0 by (by apply (Hu x.1); lia). destruct (granted_readable c _ _ Hok Hf H0 Hg) as (Ha & _).
  split; [done|]. split; [done|lia].
Qed.

Lemma blocks_addrs slabs c cs : blocks slabs c cs → NoDup (map fst cs).
Proof.
  intros Hb. pose proof Hb as [_ (_ & _ & Hd & _) _]. cbn [fst] in Hd. apply pairwise_app in Hd as (_ & Hd & _).
  assert (Forall (λ x : cell, (0 < length x.2)%nat) cs) as Hpos.
  { apply list.Forall_forall. intros x Hx. by destruct (blocks_cell _ _ _ _ Hb Hx) as (_ & _ & ?). }
  clear Hb. induction Hpos as [|x cs Hx Hpos IH]; [constructor|]. cbn [map pairwise] in *. destruct Hd as [Hd Hd'].
  constructor; [|by apply IH]. intros (y & Hxy & Hy)%list_elem_of_fmap. rewrite Forall_map in Hd.
  rewrite list.Forall_forall in Hd, Hpos. specialize (Hd y Hy). specialize (Hpos y Hy).
  unfold disjoint_range, extent in Hd. cbn [fst snd] in Hd. lia.
Qed.

(** A cluster that differs only in one cell. *)
Lemma blocks_change slabs c c' a l l' cs :
  blocks slabs c ((a, l) :: cs) → length l' = length l → holds c' a l' → fits c' →
  agree [(a, Z.of_nat (length l))] c c' → (∀ live, local_inv (slabs, c) live → local_inv (slabs, c') live) →
  blocks slabs c' ((a, l') :: cs).
Proof.
  intros Hb Hlen Hh' Hf' Hag Hli. pose proof Hb as [Hf Ha Hh]. split; [done| |].
  - cbn [map]. unfold extent at 1. cbn [fst snd]. rewrite Hlen. by apply Hli.
  - apply Forall_cons_iff in Hh as [_ Hh]. constructor; [done|]. cbn [map] in Ha. pose proof (alloc_apart _ _ _ _ Ha) as Hap.
    rewrite Forall_map in Hap. rewrite list.Forall_forall in Hh, Hap |- *. intros x Hx.
    apply (ag_holds _ _ _ Hag); [by apply (blocks_cell _ _ _ x Hb); right|by apply Hh|].
    apply apart_one. by apply (Hap x Hx).
Qed.

(** The bytes that can be read can still be read. *)
Definition still c c' : Prop := ∀ a n, readable c a n → readable c' a n.

#[global] Instance still_preorder : PreOrder still.
Proof. split; [by intros c a n|]. intros c1 c2 c3 H1 H2 a n H. by apply H2, H1. Qed.

(** Storing bytes inside a cell. *)
Lemma blocks_patch slabs c a l cs i bs :
  blocks slabs c ((a, l) :: cs) → bytes_ok bs → (i + length bs ≤ length l)%nat →
  blocks slabs (write_at c (ga_add a (Z.of_nat i)) bs) ((a, splice i bs l) :: cs) ∧
  still c (write_at c (ga_add a (Z.of_nat i)) bs) ∧ ∃ m, region_at c (ga_add a (Z.of_nat i)) (length bs) m.
Proof.
  intros Hb Hbs Hi. destruct (blocks_cell _ _ _ (a, l) Hb) as (Ha & Hh & _); [left|]. cbn [fst snd] in *.
  destruct (patch_ok c a l i bs (bk_fits _ _ _ Hb) Ha Hh Hbs Hi) as (Hh' & Hf' & Hag & Hr). split; [|split; [exact (ag_readable _ _ _ Hag)|done]].
  eapply blocks_change; [done|by apply length_splice|done|done|done|]. intros live. by apply local_inv_write.
Qed.

Lemma ga_add_0 a : ga_ok a → ga_add a 0 = a.
Proof. intros Ha. rewrite ga_add_small, Z.add_0_r; [done|done|lia|]. unfold ga_ok, in_width in Ha. lia. Qed.

Lemma blocks_put slabs c a l cs bs :
  blocks slabs c ((a, l) :: cs) → bytes_ok bs → length bs = length l →
  blocks slabs (write_at c a bs) ((a, bs) :: cs) ∧ still c (write_at c a bs) ∧ ∃ m, region_at c a (length bs) m.
Proof.
  intros Hb Hbs Hl. destruct (blocks_cell _ _ _ (a, l) Hb) as (Ha & _); [left|]. cbn [fst] in Ha.
  destruct (blocks_patch slabs c a l cs 0 bs Hb Hbs ltac:(lia)) as (H & Hst & Hr). rewrite ga_add_0 in H, Hst, Hr by done.
  split; [|done]. unfold splice in H. cbn [take app] in H. by rewrite drop_ge, app_nil_r in H by lia.
Qed.

(** A part of a cell. *)
Lemma holds_inside c a l i n :
  fits c → ga_ok a → holds c a l → (i + n ≤ length l)%nat → holds c (ga_add a (Z.of_nat i)) (slice i n l).
Proof.
  intros Hf Ha (m & Hr & Hsl) Hi. destruct (ga_add_inside c a (length l) m (Z.of_nat i) Hf Ha Hr) as (_ & Hsi & Hoff & _); [lia|lia|].
  exists m. rewrite length_slice by done. destruct Hr as (s & Hs & Hm & Hok & H0 & Hr). split.
  - exists s. rewrite Hsi, Hoff. split_and!; try done; lia.
  - rewrite Hoff, <-Hsl. apply list_eq. intros j. rewrite !lookup_slice. repeat case_decide; try done; try lia. f_equal. lia.
Qed.

Lemma ops_faa c a v d ops :
  holds c a (le_bytes 8 v) → in_width 64 v →
  ops_in_order (mkOp a (op_faa d) :: ops) c =
    cons_out (out_old v) (ops_in_order ops (write_at c a (le_bytes 8 (u64 (v + d))))).
Proof.
  intros (m & Hr & Hsl) Hv. pose proof (region_at_of _ _ _ _ Hr) as Ho. destruct Hr as (s & Hs & Hm & [Hmb Hms] & H0 & Hr).
  rewrite length_le_bytes in Hr, Hsl. cbn [ops_in_order addr op]. rewrite Hs, Hm.
  assert (load64 (offset a) m = v) as Hld.
  { unfold load64. rewrite Hsl, le_val_le_bytes. apply Z.mod_small, Hv. }
  assert (rdma_verb (mkOp (offset a) (op_faa d)) m = Done (true, out_old v) (store64 (offset a) (u64 (v + d)) m)) as ->.
  { unfold rdma_verb, rdma_faa, mbind, M_bind, get. cbn [addr op]. rewrite wrap_small by (unfold in_width; lia).
    rewrite (proj2 (Z.leb_le _ _)) by lia. unfold modify, mret, M_ret. by rewrite Hld. }
  unfold write_at. by rewrite Ho.
Qed.

Lemma ops_nil c : ops_in_order [] c = Done (true, []) c.
Proof. done. Qed.

(** The four verbs on a cell. *)
Lemma cell_read slabs c cs a l n ops :
  blocks slabs c cs → (a, l) ∈ cs → length l = n →
  ops_in_order (mkOp a (op_read true (Z.of_nat n)) :: ops) c = cons_out (out_bytes l) (ops_in_order ops c).
Proof. intros Hb Hin Hn. apply ops_read; [|done]. by apply (blocks_cell _ _ _ (a, l) Hb). Qed.

Lemma cell_write slabs c cs a l bs ops :
  blocks slabs c ((a, l) :: cs) → bytes_ok bs → length bs = length l →
  ∃ c', ops_in_order (write_op a bs :: ops) c = cons_out out_none (ops_in_order ops c') ∧ blocks slabs c' ((a, bs) :: cs) ∧ still c c'.
Proof.
  intros Hb Hbs Hl. destruct (blocks_put _ _ _ _ _ _ Hb Hbs Hl) as (H & Hst & [m Hm]). eexists. split; [by eapply ops_write|done].
Qed.

Lemma cell_word slabs c cs a l i v :
  blocks slabs c ((a, l) :: cs) → (i + 8 ≤ length l)%nat → slice i 8 l = le_bytes 8 v →
  holds c (ga_add a (Z.of_nat i)) (le_bytes 8 v).
Proof.
  intros Hb Hi <-. destruct (blocks_cell _ _ _ (a, l) Hb) as (Ha & Hh & _); [left|].
  by apply holds_inside; [apply (bk_fits _ _ _ Hb)|..].
Qed.

Lemma cell_cas slabs c cs a l i e d ops :
  blocks slabs c ((a, l) :: cs) → (i + 8 ≤ length l)%nat → slice i 8 l = le_bytes 8 e → in_width 64 e →
  ∃ c', ops_in_order (mkOp (ga_add a (Z.of_nat i)) (op_cas e d) :: ops) c = cons_out (out_expected e) (ops_in_order ops c') ∧
        blocks slabs c' ((a, splice i (le_bytes 8 d) l) :: cs) ∧ still c c'.
Proof.
  intros Hb Hi Hs He. destruct (blocks_patch slabs c a l cs i (le_bytes 8 d) Hb (le_bytes_ok _ _)) as (H & Hst & _); [by rewrite length_le_bytes|].
  eexists. split; [|split; [exact H|exact Hst]]. apply ops_cas; [by eapply cell_word|done].
Qed.

Lemma cell_faa slabs c cs a l i v d ops :
  blocks slabs c ((a, l) :: cs) → (i + 8 ≤ length l)%nat → slice i 8 l = le_bytes 8 v → in_width 64 v →
  ∃ c', ops_in_order (mkOp (ga_add a (Z.of_nat i)) (op_faa d) :: ops) c = cons_out (out_old v) (ops_in_order ops c') ∧
        blocks slabs c' ((a, splice i (le_bytes 8 (u64 (v + d))) l) :: cs) ∧ still c c'.
Proof.
  intros Hb Hi Hs Hv. destruct (blocks_patch slabs c a l cs i (le_bytes 8 (u64 (v + d))) Hb (le_bytes_ok _ _)) as (H & Hst & _);
    [by rewrite length_le_bytes|].
  eexists. split; [|split; [exact H|exact Hst]]. apply ops_faa; [by eapply cell_word|done].
Qed.

(** The lock word at the start of a cell. *)
Lemma splice_start v v' (l : list Z) : splice 0 (le_bytes 8 v') (le_bytes 8 v ++ l) = le_bytes 8 v' ++ l.
Proof. unfold splice. cbn [take app]. by rewrite drop_app_length' by (by rewrite !length_le_bytes). Qed.
Lemma slice_start v (l : list Z) : slice 0 8 (le_bytes 8 v ++ l) = le_bytes 8 v.
Proof. rewrite slice_app_l by (rewrite length_le_bytes; lia). by apply slice_full, length_le_bytes. Qed.

Lemma cell_lock slabs c cs a l ops :
  blocks slabs c ((a, le_bytes 8 0 ++ l) :: cs) →
  ∃ c', ops_in_order (mkOp (lock_address a) (op_cas 0 1) :: ops) c = cons_out (out_expected 0) (ops_in_order ops c') ∧
        blocks slabs c' ((a, le_bytes 8 1 ++ l) :: cs) ∧ still c c'.
Proof.
  intros Hb. destruct (cell_cas slabs c cs a _ 0 0 1 ops Hb) as (c' & H); [| | |by rewrite splice_start in H; exists c'].
  - rewrite length_app, length_le_bytes. lia.
  - apply slice_start.
  - unfold in_width. lia.
Qed.

Lemma cell_release slabs c cs a l ops :
  blocks slabs c ((a, le_bytes 8 1 ++ l) :: cs) →
  ∃ c', ops_in_order (get_release_node_op a :: ops) c = cons_out (out_old 1) (ops_in_order ops c') ∧
        blocks slabs c' ((a, le_bytes 8 0 ++ l) :: cs) ∧ still c c'.
Proof.
  intros Hb. destruct (cell_faa slabs c cs a _ 0 1 (-1) ops Hb) as (c' & H); [| | |rewrite splice_start in H; by exists c'].
  - rewrite length_app, length_le_bytes. lia.
  - apply slice_start.
  - unfold in_width. lia.
Qed.
End memory.

(** ** Runs on a described heap *)

Section heap.
Context {cfg : FaunusConfig}.
Context {Q : Type → Type} `{!ConcurrentQueue Q}.
Context {C Ent : Type} `{!NodeCache C Ent (GlobalAddress * InternalNode)}.
Implicit Types (w : World Q C) (cs : list cell).

Record heap w cs : Prop := mkHeap {
  hp_others : others (w_net w) = [];
  hp_blocks : blocks (w_slabs w) (cl w) cs
}.

(** What every run of this file leaves alone: all but the memories, the slabs, the
    position of the random generator and the manager's bookkeeping. *)
Record calm w w' : Prop := mkCalm {
  cm_root : root_offset_pointer_ w' = root_offset_pointer_ w;
  cm_cache : faunus_cache_ w' = faunus_cache_ w;
  cm_tracked : tracked (mgr (w_net w')) = tracked (mgr (w_net w));
  cm_queues : maintenance_queues w' = maintenance_queues w;
  cm_hash : w_tid_hash w' = w_tid_hash w;
  cm_rand : (w_rand w').1 = (w_rand w).1;
  cm_still : still (cl w) (cl w')
}.

#[global] Instance calm_preorder : PreOrder calm.
Proof.
  split.
  - intros w. by split.
  - intros w1 w2 w3 [] []. split; [congruence..|by etrans].
Qed.

Lemma heap_perm w cs cs' : cs ≡ₚ cs' → heap w cs → heap w cs'.
Proof. intros Hp [Ho Hb]. split; [done|]. by rewrite <-Hp. Qed.

Lemma heap_quiet w w' cs : quiet w w' → heap w cs → heap w' cs ∧ calm w w' ∧ w_slabs w' = w_slabs w ∧ cl w' = cl w.
Proof.
  intros Hq [Ho Hb]. destruct Hq. split; [|split; [|done]].
  2:{ split; [congruence..|]. unfold cl. by rewrite q_cluster. }
  split; [congruence|]. unfold cl in *. by rewrite q_cluster, q_slabs.
Qed.

(** The state after operations that changed memories and slabs. *)
Lemma heap_moved w w' c slabs cs :
  others (w_net w) = [] → quiet (relocate c slabs w) w' → blocks slabs c cs → still (cl w) c →
  heap w' cs ∧ calm w w' ∧ w_slabs w' = slabs ∧ cl w' = c.
Proof.
  intros Ho Hq Hb Hst. destruct (heap_quiet _ _ cs Hq) as (Hh & [] & Hs & Hc); [by split|].
  split; [done|]. split; [|by split]. split; try done. by etrans.
Qed.

Lemma heap_batch w cs cs' ops outs c' :
  heap w cs → ops_in_order ops (cl w) = Done (true, outs) c' → blocks (w_slabs w) c' cs' → still (cl w) c' →
  ∃ w', perform_all (C := C) ops w = Done (true, outs) w' ∧ heap w' cs' ∧ calm w w' ∧ w_slabs w' = w_slabs w.
Proof.
  intros [Ho Hb] Hops Hb' Hst. destruct (perform_all_run w ops outs c' Ho Hops) as (w' & Hrun & Hq). exists w'.
  split; [done|]. destruct (heap_moved _ _ _ _ _ Ho Hq Hb' Hst) as (? & ? & ? & _). done.
Qed.

Lemma heap_perform w cs cs' o out c' :
  heap w cs → ops_in_order [o] (cl w) = Done (true, [out]) c' → blocks (w_slabs w) c' cs' → still (cl w) c' →
  ∃ w', perform (C := C) o w = Done (true, out) w' ∧ heap w' cs' ∧ calm w w' ∧ w_slabs w' = w_slabs w.
Proof.
  intros [Ho Hb] Hops Hb' Hst. destruct (perform_run w o out c' Ho Hops) as (w' & Hrun & Hq). exists w'.
  split; [done|]. destruct (heap_moved _ _ _ _ _ Ho Hq Hb' Hst) as (? & ? & ? & _). done.
Qed.

(** Calls of the manager that wrap one operation or one batch. *)
Lemma on_net_bind {A B} (m : M (Net Q) A) (f : A → M (Net Q) B) w a w' b :
  on_net (C := C) m w = Done a w' → f a (w_net w') = Done b (w_net w') →
  on_net (C := C) (a ← m; f a) w = Done b w'.
Proof.
  unfold on_net, zoom. intros H Hf. destruct (m (w_net w)) as [a' n|e n] eqn:E; [|done]. injection H as -> <-.
  rewrite (bind_done _ _ _ _ _ E). cbn [w_net] in Hf. by rewrite Hf.
Qed.

(** [allocate] gives a cell with unknown bytes. *)
Lemma heap_allocate w cs n :
  heap w cs → (0 < nfree (w_slabs w) n)%nat →
  ∃ x l w', allocate (C := C) n w = Done x w' ∧ heap w' ((x, l) :: cs) ∧ length l = n ∧ calm w w' ∧
    ∀ k, (nfree (w_slabs w) k ≤ S (nfree (w_slabs w') k))%nat.
Proof.
  intros [Ho Hb] Hn. pose proof Hb as [Hf Ha Hh]. destruct (nfree_slab _ _ _ _ Ha Hn) as (sl & Hsl & Hne).
  destruct (allocate_run w n sl _ Hsl Hne Ha Hf) as (x & slabs' & Hal & Ha' & _ & Hx & _ & [m Hr] & _ & Hav).
  pose proof Hr as (s & Hs & Hm & Hmok & H0 & Hr').
  assert (length (slice (Z.to_nat (offset x)) n m) = n) as Hlen by (apply length_slice; unfold memory_size in Hr'; lia).
  exists x, (slice (Z.to_nat (offset x)) n m), (relocate (cl w) slabs' w). split; [done|].
  split; [|split; [done|split; [by split|intros k; by eapply nfree_take]]].
  split; [done|]. split; [done| |].
  - cbn [map]. unfold extent at 1. cbn [fst snd]. by rewrite Hlen.
  - constructor; [|done]. cbn [fst snd]. exists m. by rewrite Hlen.
Qed.

(** Writes of whole cells, alone or two in a batch. *)
Lemma heap_write w cs a l bs :
  heap w ((a, l) :: cs) → bytes_ok bs → length bs = length l →
  ∃ w', write_object (C := C) a bs w = Done true w' ∧ heap w' ((a, bs) :: cs) ∧ calm w w' ∧ w_slabs w' = w_slabs w.
Proof.
  intros [Ho Hb] Hbs Hl. destruct (blocks_put _ _ _ _ _ _ Hb Hbs Hl) as (Hb' & Hst & [m Hm]).
  destruct (write_object_run w a bs m Ho Hm) as (w' & Hrun & Hq). exists w'. split; [done|].
  destruct (heap_moved _ _ _ _ _ Ho Hq Hb' Hst) as (? & ? & ? & _). done.
Qed.

Lemma heap_write_two w cs a l b k bs bs' :
  heap w ((a, l) :: (b, k) :: cs) → bytes_ok bs → bytes_ok bs' → length bs = length l → length bs' = length k →
  ∃ w', on_net (C := C) (rdma_write_batch [a; b] [bs; bs']) w = Done true w' ∧ heap w' ((a, bs) :: (b, bs') :: cs) ∧
        calm w w' ∧ w_slabs w' = w_slabs w.
Proof.
  intros [Ho Hb] Hbs Hbs' Hl Hk. destruct (cell_write _ _ _ _ _ bs [write_op b bs'] Hb Hbs Hl) as (c1 & H1 & Hb1 & Hst1).
  assert (blocks (w_slabs w) c1 ((b, k) :: (a, bs) :: cs)) as Hb1' by (eapply blocks_perm; [apply perm_swap|done]).
  destruct (cell_write _ _ _ _ _ bs' [] Hb1' Hbs' Hk) as (c2 & H2 & Hb2 & Hst2). rewrite H2, ops_nil in H1. cbn [cons_out] in H1.
  assert (blocks (w_slabs w) c2 ((a, bs) :: (b, bs') :: cs)) as Hb2' by (eapply blocks_perm; [apply perm_swap|done]).
  destruct (heap_batch w _ _ _ _ _ (mkHeap _ _ Ho Hb) H1 Hb2' (transitivity Hst1 Hst2)) as (w' & Hrun & Hrest). exists w'. split; [|done].
  unfold rdma_write_batch. eapply on_net_bind; [exact Hrun|done].
Qed.

(** The root pointer. *)
Lemma heap_get_root w cs v :
  heap w cs → (root_offset_pointer_ w, le_bytes 8 v) ∈ cs → ga_ok v →
  ∃ w', get_root_offset (C := C) w = Done v w' ∧ heap w' cs ∧ calm w w' ∧ w_slabs w' = w_slabs w ∧ cl w' = cl w.
Proof.
  intros Hh Hin Hv. destruct (blocks_cell _ _ _ _ (hp_blocks _ _ Hh) Hin) as (_ & Hr & _).
  destruct (get_root_offset_holds w v (hp_others _ _ Hh) Hr Hv) as (w' & Hrun & Hq). exists w'. split; [done|].
  by apply heap_quiet.
Qed.

Lemma heap_update_root w cs v a :
  heap w ((root_offset_pointer_ w, le_bytes 8 v) :: cs) → ga_ok v →
  ∃ w', update_root_offset (C := C) a w = Done true w' ∧ heap w' ((root_offset_pointer_ w, le_bytes 8 a) :: cs) ∧
        calm w w' ∧ w_slabs w' = w_slabs w.
Proof.
  intros [Ho Hb] Hv. destruct (blocks_cell _ _ _ _ Hb (list_elem_of_here _ _)) as (_ & Hr & _). cbn [fst snd] in Hr.
  destruct (update_root_run w v a Ho Hr Hv) as (w' & Hrun & Hq). exists w'. split; [done|].
  destruct (blocks_put _ _ _ _ _ (le_bytes 8 a) Hb (le_bytes_ok _ _)) as (Hb' & Hst & _); [by rewrite !length_le_bytes|].
  destruct (heap_moved _ _ _ _ _ Ho Hq Hb' Hst) as (? & ? & ? & _). done.
Qed.

(** The lock word at the start of a cell. *)
Lemma heap_trylock w cs a rest :
  heap w ((a, le_bytes 8 0 ++ rest) :: cs) →
  ∃ w', trylock_node (C := C) a w = Done true w' ∧ heap w' ((a, le_bytes 8 1 ++ rest) :: cs) ∧ calm w w' ∧ w_slabs w' = w_slabs w.
Proof.
  intros Hh. destruct (cell_lock _ _ _ _ _ [] (hp_blocks _ _ Hh)) as (c' & Hc & Hb' & Hst). rewrite ops_nil in Hc.
  destruct (heap_perform w _ _ _ _ _ Hh Hc Hb' Hst) as (w' & Hrun & Hrest). exists w'. split; [|done].
  unfold trylock_node, rdma_try_acquire_lock. eapply on_net_bind; [exact Hrun|done].
Qed.
End heap.
