(* ===== verification/FaunusShape.v ===== *)
(** * The upper levels of a Faunus tree

    A structure modification changes one level of the tree after the other, from a
    leaf upwards, and in between the lower levels do not fit the separators above
    them.  [top j l lo hi t] says that the first [j] levels of [t] are well formed;
    [flat j lo hi t] is what hangs below them, each subtree with its range of keys;
    [tcells j t] are the bytes of those levels.  The structure below is free, so that
    the steps of a split are changes of the list [flat j lo hi t]. *)

From S2P Require Import Prelude GlobalAddress RdmaSim ThreadStats Queue MemoryServer Slab RdmaManager KVBlock FaunusNode FaunusIndex FaunusTree FaunusRead FaunusFrame FaunusInsert FaunusUpsert FaunusInit FaunusHeap.

(** ** Children and their ranges *)

Abbreviation span := (Z * Z * tree)%type.

(** The children [ts] between the separators [ks] of the range from [lo] to [hi]. *)
Fixpoint spans (lo hi : Z) (ks : list Z) (ts : list tree) : list span :=
  match ts, ks with
  | [], _ => []
  | t :: _, [] => [(lo, hi, t)]
  | t :: ts', k :: ks' => (lo, k, t) :: spans k hi ks' ts'
  end.

Definition trees (xs : list span) : list tree := map snd xs.

Lemma spans_trees hi ks : ∀ lo ts, length ts = S (length ks) → trees (spans lo hi ks ts) = ts.
Proof.
  unfold trees. induction ks as [|k ks IH]; intros lo [|t [|t' ts]] Hl; try done.
  cbn [spans map snd]. f_equal. apply IH. cbn [length] in *. lia.
Qed.

Lemma spans_app hi k ks1 : ∀ lo ks2 ts1 ts2, length ts1 = S (length ks1) →
  spans lo hi (ks1 ++ k :: ks2) (ts1 ++ ts2) = spans lo k ks1 ts1 ++ spans k hi ks2 ts2.
Proof.
  induction ks1 as [|k1 ks1 IH]; intros lo ks2 [|t ts1] ts2 Hl; try done.
  - destruct ts1; [|done]. done.
  - cbn [spans app]. f_equal. apply IH. cbn [length] in *. lia.
Qed.

(** A child with its range, and the separators around it. *)
Record cut (lo hi : Z) (ks : list Z) (b b' : Z) (ks1 ks2 : list Z) : Prop := mkCut {
  ct_seps : ks = ks1 ++ ks2;
  ct_low : lo ≤ b;
  ct_high : b' ≤ hi;
  ct_below : Forall (λ k, k ≤ b) ks1;
  ct_above : Forall (λ k, b' ≤ k) ks2;
  ct_order : b ≤ b' → pairwise Z.le (lo :: ks ++ [hi]);
  ct_insert : ∀ k, b ≤ k ≤ b' → pairwise Z.le (lo :: (ks1 ++ k :: ks2) ++ [hi])
}.

Lemma cut_cons lo hi k0 ks b b' ks1 ks2 :
  pairwise Z.le (lo :: (k0 :: ks) ++ [hi]) → cut k0 hi ks b b' ks1 ks2 → cut lo hi (k0 :: ks) b b' (k0 :: ks1) ks2.
Proof.
  intros [Ho Hp] [-> H1 H2 H3 H4 H5 H6]. cbn [app] in Ho. pose proof Ho as Ho'. apply Forall_cons_iff in Ho as [Ho _]. split; try done.
  - lia.
  - by constructor.
  - intros k Hk. specialize (H6 k Hk). split; [|exact H6]. cbn [app]. constructor; [done|].
    destruct H6 as [H6 _]. eapply Forall_impl; [|exact H6]. cbn. lia.
Qed.

(** Where a child is among the separators, and the effect of changing it or of
    putting two children in its place. *)
Lemma spans_cut hi ks : ∀ lo ts m1 b b' s m2,
  length ts = S (length ks) → pairwise Z.le (lo :: ks ++ [hi]) → spans lo hi ks ts = m1 ++ (b, b', s) :: m2 →
  ∃ ks1 ks2, cut lo hi ks b b' ks1 ks2 ∧ length ks1 = length m1 ∧ ts = trees m1 ++ s :: trees m2 ∧
    (∀ s', spans lo hi ks (trees m1 ++ s' :: trees m2) = m1 ++ (b, b', s') :: m2) ∧
    (∀ k s1 s2, spans lo hi (ks1 ++ k :: ks2) (trees m1 ++ s1 :: s2 :: trees m2) = m1 ++ (b, k, s1) :: (k, b', s2) :: m2).
Proof.
  induction ks as [|k0 ks IH]; intros lo ts m1 b b' s m2 Hl Hp Hs; (destruct ts as [|t ts]; [done|]); cbn [spans] in Hs.
  - destruct ts; [|done]. destruct m1 as [|x m1]; [|injection Hs as _ Hs; symmetry in Hs; by apply app_nil in Hs as [_ Hs]]. injection Hs as <- <- <- <-.
    exists [], []. split; [|done]. split; try done. intros k Hk. cbn. split_and!; repeat constructor; lia.
  - destruct m1 as [|x m1].
    + injection Hs as <- <- <- <-. exists [], (k0 :: ks). split.
      { destruct Hp as [Ho Hp]. cbn [app] in *. apply Forall_cons_iff in Ho as [Ho _]. pose proof Hp as [Hk0 Hp'].
        split; try done.
        - rewrite Forall_app, Forall_cons_iff in Hk0. lia.
        - constructor; [lia|]. by apply Forall_app in Hk0 as [? _].
        - intros _. split; [|done]. constructor; [done|]. eapply Forall_impl; [|exact Hk0]. cbn. lia.
        - intros k Hk. cbn [app]. split; [|split; [|done]].
          + constructor; [lia|]. constructor; [lia|]. eapply Forall_impl; [|exact Hk0]. cbn. lia.
          + constructor; [lia|]. eapply Forall_impl; [|exact Hk0]. cbn. lia. }
      split; [done|]. cbn [trees map app]. rewrite spans_trees by (cbn [length] in *; lia). done.
    + injection Hs as <- Hs. destruct Hp as [Ho Hp].
      destruct (IH k0 ts m1 b b' s m2) as (ks1 & ks2 & Hc & Hlen & -> & H1 & H2); [cbn [length] in *; lia|done|done|].
      exists (k0 :: ks1), ks2. split; [by apply cut_cons|]. cbn [length]. split; [by f_equal|]. split; [done|].
      cbn [trees map snd app spans]. split; intros; f_equal; [apply H1|apply H2].
Qed.

Lemma cut_rank lo hi ks b b' ks1 ks2 key : cut lo hi ks b b' ks1 ks2 → b ≤ key < b' → rank ks key = length ks1.
Proof.
  intros [-> _ _ H1 H2 _ _] Hk. apply rank_cut.
  - eapply Forall_impl; [|exact H1]. cbn. lia.
  - destruct ks2 as [|k ks2]; [done|]. apply Forall_cons_iff in H2 as [H2 _]. lia.
Qed.

Lemma cut_fresh lo hi ks b b' ks1 ks2 k : cut lo hi ks b b' ks1 ks2 → b < k < b' → k ∉ ks.
Proof.
  intros [-> _ _ H1 H2 _ _] Hk. rewrite list.Forall_forall in H1, H2. intros [Hin|Hin]%elem_of_app.
  - specialize (H1 _ Hin). cbn in H1. lia.
  - specialize (H2 _ Hin). cbn in H2. lia.
Qed.

Lemma cut_insert_at lo hi ks b b' ks1 ks2 k :
  cut lo hi ks b b' ks1 ks2 → b ≤ k < b' → insert_at (rank ks k) k ks = ks1 ++ k :: ks2.
Proof.
  intros Hc Hk. rewrite (cut_rank _ _ _ _ _ _ _ k Hc) by lia. unfold insert_at. rewrite (ct_seps _ _ _ _ _ _ _ Hc).
  by rewrite take_app_length, drop_app_length.
Qed.

(** ** One internal node *)

Section node.
Context {cfg : FaunusConfig}.
Implicit Types (n : InternalNode) (ts : list tree).

Lemma insert_index_le key es m : (insert_index key es m ≤ m)%nat.
Proof. induction m as [|m IH]; cbn [insert_index]; [done|]. destruct (_ <? key); lia. Qed.

(** Every key and child of the entries after an insertion. *)
Lemma put_entry_at junk key c m es :
  (S m < length es)%nat → let i := insert_index key es m in let es' := put_entry junk key c m es in
  (∀ j, key_at es' j = if decide (j = i) then key else if decide (i < j ≤ m)%nat then key_at es (j - 1) else key_at es j) ∧
  (∀ j, child_at es' j = if decide (j = S i) then c else if decide (S i < j ≤ S m)%nat then child_at es (j - 1) else child_at es j).
Proof.
  intros Hm i es'. pose proof (insert_index_le key es m) as Hi. fold i in Hi. unfold es', put_entry. fold i.
  destruct (shift_loop_spec junk i (S m) es Hm) as [Hk Hc]. pose proof (length_shift_loop junk i (S m) es) as Hl.
  set (es1 := shift_loop junk i (S m) es) in *. split; intros j.
  - rewrite key_at_set_key, key_at_set_child, Hk by (rewrite length_set_child; lia).
    destruct j as [|j]; [|cbn [Nat.sub]; rewrite Nat.sub_0_r]; repeat case_decide; try lia; done.
  - rewrite child_at_set_key, child_at_set_child, Hc by lia. repeat case_decide; try lia; done.
Qed.

Lemma entries_ok_at es : Forall entry_ok es ↔ ∀ j, (j < length es)%nat → key_ok (key_at es j) ∧ ga_ok (child_at es j).
Proof.
  rewrite Forall_lookup. unfold key_at, child_at. split.
  - intros H j Hj. destruct (lookup_lt_is_Some_2 es j Hj) as [e He]. rewrite He. by apply (H j).
  - intros H j e He. specialize (H j (lookup_lt_Some _ _ _ He)). by rewrite He in H.
Qed.

Lemma put_entry_ok junk key c m es :
  Forall entry_ok es → (S m < length es)%nat → key_ok key → ga_ok c → Forall entry_ok (put_entry junk key c m es).
Proof.
  rewrite !entries_ok_at. intros He Hm Hk Hc j Hj. destruct (put_entry_at junk key c m es Hm) as [H1 H2].
  unfold put_entry in Hj. rewrite length_set_key, length_set_child, length_shift_loop in Hj.
  rewrite H1, H2. split; repeat case_decide; try done; apply He; lia.
Qed.

(** The spare keys of a node after an insertion. *)
Lemma put_entry_spare junk key c m es :
  (S m < length es)%nat → drop (S m) (map ekey (put_entry junk key c m es)) = drop (S m) (map ekey es).
Proof.
  intros Hm. destruct (put_entry_at junk key c m es Hm) as [H1 _]. pose proof (insert_index_le key es m).
  apply list_eq. intros j. rewrite !lookup_drop.
  assert (length (put_entry junk key c m es) = length es) as Hl
    by (unfold put_entry; by rewrite length_set_key, length_set_child, length_shift_loop).
  destruct (decide (S m + j < length es)%nat) as [Hj|Hj].
  - rewrite !lookup_map_ekey, H1 by lia. by rewrite !decide_False by lia.
  - rewrite !lookup_ge_None_2; [done|rewrite length_map; lia..].
Qed.

(** [n] is a proper node of level [S l] for the range from [lo] to [hi], with the
    children [ts]. *)
Record nshape (l : nat) (lo hi : Z) n ts : Prop := mkNShape {
  ns_ok : node_ok n;
  ns_sorted : node_sorted n;
  ns_lock : lock (iheader n) = 0;
  ns_level : level (iheader n) = Z.of_nat (S l);
  ns_first : fence_first (iheader n) = lo;
  ns_second : fence_second (iheader n) = hi;
  ns_bounds : pairwise Z.le (bounds lo hi n);
  ns_spare : spare_ok lo hi n;
  ns_kids : kids n = map addr_of ts
}.

Lemma nshape_length l lo hi n ts : nshape l lo hi n ts → length ts = S (length (seps n)).
Proof.
  intros [_ (Hl & _) _ _ _ _ _ _ Hk]. by rewrite <-(length_map addr_of), <-Hk, length_kids, length_seps.
Qed.

(** A key inside the range of a child is not among the keys [has_key] looks at. *)
Lemma nshape_new_key l lo hi n ts m1 b b' s m2 k :
  nshape l lo hi n ts → spans lo hi (seps n) ts = m1 ++ (b, b', s) :: m2 → b < k < b' →
  has_key k n = false ∧ lo < k < hi.
Proof.
  intros Hn Hs Hk. destruct (spans_cut _ _ _ _ _ _ _ _ _ (nshape_length _ _ _ _ _ Hn) (ns_bounds _ _ _ _ _ Hn) Hs)
    as (ks1 & ks2 & Hc & _). pose proof (ct_low _ _ _ _ _ _ _ Hc). pose proof (ct_high _ _ _ _ _ _ _ Hc). split; [|lia].
  pose proof (ns_sorted _ _ _ _ _ Hn) as (Hl & _). unfold has_key. fold (last_nat n).
  apply not_true_is_false. intros (e & Hin & He%Z.eqb_eq)%existsb_exists. apply list_elem_of_In, elem_of_take in Hin as (i & Hi & Hil).
  assert (map ekey (entries n) !! i = Some k) as Hik by (by rewrite list_lookup_fmap, Hi, <-He).
  destruct (decide (i = last_nat n)) as [->|Hne].
  - pose proof (ns_spare _ _ _ _ _ Hn) as Hsp. unfold spare_ok in Hsp. rewrite (drop_S _ _ _ Hik) in Hsp.
    apply Forall_cons_iff in Hsp as [Hsp _]. lia.
  - apply (cut_fresh _ _ _ _ _ _ _ k Hc Hk). unfold seps. apply elem_of_take. exists i. split; [done|lia].
Qed.

(** Children around an inserted one. *)
Lemma kids_insert l lo hi n ts m1 b b' s m2 k s1 s2 ks1 ks2 :
  nshape l lo hi n ts → ts = trees m1 ++ s :: trees m2 → cut lo hi (seps n) b b' ks1 ks2 → length ks1 = length m1 →
  b ≤ k < b' → addr_of s1 = addr_of s →
  insert_at (S (rank (seps n) k)) (addr_of s2) (kids n) = map addr_of (trees m1 ++ s1 :: s2 :: trees m2).
Proof.
  intros Hn Hts Hc Hl Hk Ha. rewrite (cut_rank _ _ _ _ _ _ _ k Hc Hk), (ns_kids _ _ _ _ _ Hn), Hts.
  unfold insert_at. rewrite !map_app. cbn [map].
  assert (S (length ks1) = length (map addr_of (trees m1) ++ [addr_of s])) as ->
    by (rewrite length_app, length_map; unfold trees; rewrite length_map; cbn; lia).
  assert (map addr_of (trees m1) ++ addr_of s :: map addr_of (trees m2) = (map addr_of (trees m1) ++ [addr_of s]) ++ map addr_of (trees m2)) as ->
    by (by rewrite <-app_assoc).
  rewrite take_app_length, drop_app_length, <-app_assoc, Ha. done.
Qed.

(** A node with room takes a child more. *)
Lemma nshape_insert junk l lo hi n ts m1 b b' s m2 k s1 s2 :
  nshape l lo hi n ts → spans lo hi (seps n) ts = m1 ++ (b, b', s) :: m2 → b < k < b' → key_ok k →
  addr_of s1 = addr_of s → ga_ok (addr_of s2) → (S (last_nat n) < branch_factor)%nat → Z.of_nat branch_factor < 2 ^ 64 →
  let n' := insert_entry junk k (addr_of s2) n in let ts' := trees m1 ++ s1 :: s2 :: trees m2 in
  nshape l lo hi n' ts' ∧ spans lo hi (seps n') ts' = m1 ++ (b, k, s1) :: (k, b', s2) :: m2.
Proof.
  intros Hn Hs Hk Hkok Ha Hx Hroom Hbf n' ts'.
  destruct (spans_cut _ _ _ _ _ _ _ _ _ (nshape_length _ _ _ _ _ Hn) (ns_bounds _ _ _ _ _ Hn) Hs)
    as (ks1 & ks2 & Hc & Hlen & Hts & _ & Hins).
  pose proof Hn as [Hok Hso Hlk Hlv Hf1 Hf2 Hb Hsp Hkids]. destruct Hok as (Hh & Hel & Hee).
  assert (S (last_nat n) < length (entries n))%nat as Hroom' by lia.
  destruct (insert_entry_spec junk k (addr_of s2) n Hso Hroom' (cut_fresh _ _ _ _ _ _ _ _ Hc Hk)) as (H1 & H2 & H3 & H4).
  fold n' in H1, H2, H3, H4. rewrite (cut_insert_at _ _ _ _ _ _ _ _ Hc) in H1 by lia.
  rewrite (kids_insert l lo hi n ts m1 b b' s m2 k s1 s2 ks1 ks2) in H2; [|done..|lia|done].
  split; [|rewrite H1; apply Hins]. split; try done.
  - split; [|split; [lia|]]; [|by apply put_entry_ok].
    destruct Hh as (? & ? & ? & ? & Hli). split_and!; try done. cbn [n' insert_entry iheader set_last_index last_index].
    unfold in_width, last_nat in *. lia.
  - split; [lia|]. split; [cbn [n' insert_entry iheader set_last_index last_index]; destruct Hso as (_ & ? & _); lia|].
    rewrite H1. rewrite <-(cut_insert_at _ _ _ _ _ _ _ k Hc) by lia. apply sorted_insert_at; [apply Hso|by eapply cut_fresh].
  - unfold bounds. rewrite H1. apply (ct_insert _ _ _ _ _ _ _ Hc). lia.
  - unfold spare_ok. rewrite H4. unfold n', insert_entry. cbn [entries]. fold (last_nat n). rewrite put_entry_spare by done.
    unfold spare_ok in Hsp. rewrite <-(Nat.add_1_r (last_nat n)), <-drop_drop. by apply Forall_drop.
Qed.
(** ** A full node is split *)

Lemma entry0_ok : entry_ok entry0.
Proof. split; [apply key_ok_0|]. vm_compute. split; congruence. Qed.

Lemma key_at_elem es j : (j < length es)%nat → Forall entry_ok es → key_ok (key_at es j).
Proof. intros Hj He. by apply entries_ok_at. Qed.

(** The entries of the two halves, the array of the split being [es]. *)
Lemma halves_ok es m r : Forall entry_ok es → Forall entry_ok (take m es ++ replicate r entry0) ∧ Forall entry_ok (drop m es ++ drop r (entries InternalNode_init)).
Proof.
  intros He. split; apply Forall_app; split; auto using Forall_take, Forall_drop, Forall_replicate, entry0_ok.
  apply Forall_drop. cbn. apply Forall_replicate, entry0_ok.
Qed.

(** The keys behind the separators of the halves: the middle key, and zeros. *)
Lemma halves_spare junk key c n m :
  S (last_nat n) = branch_factor → length (entries n) = branch_factor → (m < branch_factor)%nat →
  let es := put_entry junk key c (last_nat n) (take (S (last_nat n)) (entries n) ++ [entry0]) in
  Forall (λ k, k = key_at es m ∨ k = 0) (drop m (map ekey (take (S m) es ++ replicate (branch_factor - S m) entry0))) ∧
  Forall (λ k, k = 0) (drop (branch_factor - m - 1) (map ekey (drop (S m) es ++ drop (branch_factor - m) (entries InternalNode_init)))).
Proof.
  intros Hfull Hel Hm es. set (v := take (S (last_nat n)) (entries n) ++ [entry0]) in *.
  assert (length v = S branch_factor) as Hv by (unfold v; rewrite length_app, length_take; cbn [length]; lia).
  assert (length es = S branch_factor) as Hes by (unfold es, put_entry; by rewrite length_set_key, length_set_child, length_shift_loop).
  split; rewrite map_app.
  - rewrite drop_app_le by (rewrite length_map, length_take; lia). apply Forall_app. split.
    + rewrite <-firstn_map. rewrite (take_S_r _ m (key_at es m)) by (apply lookup_map_ekey; lia).
      rewrite drop_app_length' by (rewrite length_take, length_map; lia). by repeat constructor.
    + apply Forall_map, Forall_replicate. by right.
  - rewrite drop_app_le by (rewrite length_map, length_drop; lia). apply Forall_app. split.
    + rewrite <-skipn_map, drop_drop. replace (S m + (branch_factor - m - 1))%nat with (S (last_nat n)) by lia.
      unfold es. rewrite put_entry_spare by lia. unfold v. rewrite map_app, drop_app_ge by (rewrite length_map, length_take; lia).
      apply Forall_drop. by repeat constructor.
    + apply Forall_map, Forall_drop. cbn. by apply Forall_replicate.
Qed.

(** The two halves of a sequence of children. *)
Lemma cut_middle lo hi (ks : list Z) (ts : list tree) m mk :
  ks !! m = Some mk → length ts = S (length ks) → pairwise Z.le (lo :: ks ++ [hi]) → sorted ks → (1 ≤ m)%nat → (S m < length ks)%nat →
  spans lo mk (take m ks) (take (S m) ts) ++ spans mk hi (drop (S m) ks) (drop (S m) ts) = spans lo hi ks ts ∧
  pairwise Z.le (lo :: take m ks ++ [mk]) ∧ pairwise Z.le (mk :: drop (S m) ks ++ [hi]) ∧
  sorted (take m ks) ∧ sorted (drop (S m) ks) ∧ lo < mk < hi.
Proof.
  intros Hm Hl Hp Hso H1 Hm2. pose proof (take_drop_middle ks m mk Hm) as Hks. split; [|split; [|split; [|split; [|split]]]].
  - rewrite <-(take_drop (S m) ts) at 3. rewrite <-Hks at 3. symmetry. apply spans_app. rewrite !length_take. lia.
  - rewrite <-Hks in Hp. assert (lo :: (take m ks ++ mk :: drop (S m) ks) ++ [hi] = (lo :: take m ks ++ [mk]) ++ (drop (S m) ks ++ [hi])) as He
      by (cbn; rewrite <-!app_assoc; done).
    rewrite He, pairwise_app in Hp. apply Hp.
  - rewrite <-Hks in Hp. assert (lo :: (take m ks ++ mk :: drop (S m) ks) ++ [hi] = (lo :: take m ks) ++ (mk :: drop (S m) ks ++ [hi])) as He
      by (cbn; rewrite <-!app_assoc; done).
    rewrite He, pairwise_app in Hp. apply Hp.
  - unfold sorted in *. rewrite <-(take_drop m ks), pairwise_app in Hso. apply Hso.
  - unfold sorted in *. rewrite <-(take_drop (S m) ks), pairwise_app in Hso. apply Hso.
  - destruct (lookup_lt_is_Some_2 ks 0) as [k0 H0]; [lia|]. destruct (lookup_lt_is_Some_2 ks (S m)) as [k1 Hk1]; [lia|].
    pose proof (pairwise_lookup _ _ _ _ _ _ Hso (ltac:(lia) : (0 < m)%nat) H0 Hm).
    pose proof (pairwise_lookup _ _ _ _ _ _ Hso (ltac:(lia) : (m < S m)%nat) Hm Hk1).
    assert ((lo :: ks ++ [hi]) !! 1%nat = Some k0) as L0 by (change ((ks ++ [hi]) !! 0%nat = Some k0); rewrite lookup_app_l; [done|lia]).
    assert ((lo :: ks ++ [hi]) !! S (S m) = Some k1) as L1 by (change ((ks ++ [hi]) !! S m = Some k1); rewrite lookup_app_l; [done|lia]).
    assert ((lo :: ks ++ [hi]) !! S (length ks) = Some hi) as L2 by (change ((ks ++ [hi]) !! length ks = Some hi); by rewrite lookup_app_r, Nat.sub_diag by lia).
    pose proof (pairwise_lookup _ _ 0 _ _ _ Hp (ltac:(lia) : (0 < 1)%nat) eq_refl L0). 
    pose proof (pairwise_lookup _ _ _ _ _ _ Hp (ltac:(lia) : (S (S m) < S (length ks))%nat) L1 L2). lia.
Qed.

Lemma nshape_split junk l lo hi n ts m1 b b' s m2 k s1 s2 :
  nshape l lo hi n ts → spans lo hi (seps n) ts = m1 ++ (b, b', s) :: m2 → b < k < b' → key_ok k →
  addr_of s1 = addr_of s → ga_ok (addr_of s2) → S (last_nat n) = branch_factor → (3 ≤ branch_factor)%nat → Z.of_nat branch_factor < 2 ^ 64 →
  let '(n1, n2, mk) := split_node junk k (addr_of s2) n in
  ∃ ts1 ts2, nshape l lo mk n1 ts1 ∧ nshape l mk hi n2 ts2 ∧ lo < mk < hi ∧ key_ok mk ∧ (S (last_nat n1) < branch_factor)%nat ∧
    spans lo mk (seps n1) ts1 ++ spans mk hi (seps n2) ts2 = m1 ++ (b, k, s1) :: (k, b', s2) :: m2.
Proof.
  intros Hn Hs Hk Hkok Ha Hx Hfull H3 Hbf.
  destruct (spans_cut _ _ _ _ _ _ _ _ _ (nshape_length _ _ _ _ _ Hn) (ns_bounds _ _ _ _ _ Hn) Hs)
    as (ks1 & ks2 & Hc & Hlen & Hts & _ & Hins). pose proof (cut_fresh _ _ _ _ _ _ _ _ Hc Hk) as Hni.
  pose proof Hn as [Hok Hso Hlk Hlv Hf1 Hf2 Hb Hsp Hkids]. destruct Hok as (Hh & Hel & Hee).
  pose proof (split_node_spec junk k (addr_of s2) n Hso Hel Hfull H3 Hni) as Hspec.
  pose proof (sorted_insert_at (seps n) k ltac:(apply Hso) Hni) as Hss.
  rewrite (kids_insert l lo hi n ts m1 b b' s m2 k s1 s2 ks1 ks2) in Hspec; [|done..|lia|done].
  rewrite (cut_insert_at _ _ _ _ _ _ _ _ Hc) in Hspec, Hss by lia. set (ts' := trees m1 ++ s1 :: s2 :: trees m2) in *.
  set (ks := ks1 ++ k :: ks2) in *. destruct (split_node junk k (addr_of s2) n) as [[n1 n2] mk] eqn:E.
  destruct Hspec as (Hmk & Hs1 & Hk1 & Hs2 & Hk2 & Hl1 & Hl2 & Hi1 & Hi2 & Hks). set (m := (branch_factor / 2)%nat) in *.
  assert (1 ≤ m < branch_factor - 1)%nat as Hm.
  { unfold m. pose proof (Nat.div_mod branch_factor 2). pose proof (Nat.mod_upper_bound branch_factor 2). lia. }
  assert (length ts' = S (length ks)) as Hlts.
  { pose proof (nshape_length _ _ _ _ _ Hn) as Hnl. rewrite Hts in Hnl. rewrite (ct_seps _ _ _ _ _ _ _ Hc) in Hnl.
    unfold ts', ks. rewrite !length_app in *. cbn [length] in *. lia. }
  destruct (cut_middle lo hi ks ts' m mk Hmk Hlts) as (Hsp' & Hb1 & Hb2 & So1 & So2 & Hmid); [|done|lia|lia|].
  { apply (ct_insert _ _ _ _ _ _ _ Hc). lia. }
  unfold split_node in E. fold (last_nat n) in E. fold m in E.
  set (v := take (S (last_nat n)) (entries n) ++ [entry0]) in *. set (es := put_entry junk k (addr_of s2) (last_nat n) v) in *.
  assert (length v = S branch_factor) as Hv by (unfold v; rewrite length_app, length_take; cbn [length]; lia).
  assert (length es = S branch_factor) as Hes by (unfold es, put_entry; by rewrite length_set_key, length_set_child, length_shift_loop).
  assert (Forall entry_ok es) as Heok.
  { apply put_entry_ok; [|lia|done|done]. apply Forall_app. split; [by apply Forall_take|]. constructor; [apply entry0_ok|constructor]. }
  assert (length (drop (S m) es) = branch_factor - m)%nat as Hright by (rewrite length_drop; lia).
  destruct (halves_ok es (S m) (branch_factor - S m) Heok) as [Ho1 _]. destruct (halves_ok es (S m) (branch_factor - m) Heok) as [_ Ho2].
  destruct (halves_spare junk k (addr_of s2) n m Hfull Hel ltac:(lia)) as [Hz1 Hz2]. fold v es in Hz1, Hz2.
  pose proof (key_at_elem es m ltac:(lia) Heok) as Hmok.
  rewrite Hright in E. injection E as <- <- <-. destruct Hh as (Hh1 & Hh2 & Hh3 & Hh4 & _).
  assert (0 ≤ lo) as Hlo by (rewrite <-Hf1; apply Hh3).
  exists (take (S m) ts'), (drop (S m) ts'). split_and!; [| |lia|lia|apply Hmok|lia|rewrite Hs1, Hs2, Hsp'; apply Hins].
  - split; try done; [split; [split; [exact Hh1|split; [exact Hh2|split; [exact Hh3|split; [exact Hmok|cbn [iheader last_index]; unfold in_width; lia]]]]|by split]| | | |by rewrite Hk1, firstn_map].
    + split; [lia|]. split; [cbn [iheader last_index]; lia|by rewrite Hs1].
    + unfold bounds. by rewrite Hs1.
    + unfold spare_ok. rewrite Hi1. eapply Forall_impl; [|exact Hz1]. cbn. intros x [-> | ->]; lia.
  - split; try done; [split; [split; [cbn; unfold in_width; lia|split; [exact Hh2|split; [exact Hmok|split; [exact Hh4|cbn [iheader last_index]; unfold in_width; lia]]]]|by split]| | | |by rewrite Hk2, skipn_map].
    + split; [lia|]. split; [cbn [iheader last_index]; lia|by rewrite Hs2].
    + unfold bounds. by rewrite Hs2.
    + unfold spare_ok. rewrite Hi2. eapply Forall_impl; [|exact Hz2]. intros x ->. left. apply Hmok.
Qed.
End node.

(** ** The first levels of a tree *)

Section top.
Context {cfg : FaunusConfig}.
Implicit Types (t s : tree) (x : span).

Fixpoint top (j l : nat) (lo hi : Z) t : Prop :=
  match j with
  | O => True
  | S j' =>
      match l, t with
      | S l', TNode _ n ts => nshape l' lo hi n ts ∧ Forall (λ x, top j' l' x.1.1 x.1.2 x.2) (spans lo hi (seps n) ts)
      | _, _ => False
      end
  end.

Fixpoint flat (j : nat) (lo hi : Z) t : list span :=
  match j with
  | O => [(lo, hi, t)]
  | S j' =>
      match t with
      | TNode _ n ts => concat (map (λ x, flat j' x.1.1 x.1.2 x.2) (spans lo hi (seps n) ts))
      | TLeaf _ _ _ => []
      end
  end.

Definition node_cell (a : GlobalAddress) (n : InternalNode) : cell := (a, enc_InternalNode n).

Fixpoint tcells (j : nat) t : list cell :=
  match j, t with
  | S j', TNode a n ts => node_cell a n :: concat (map (tcells j') ts)
  | _, _ => []
  end.

Abbreviation flat1 x := (flat 1 x.1.1 x.1.2 x.2).
Abbreviation tcells1 x := (tcells 1 x.2).

(** One element of a concatenation. *)
Lemma concat_middle {A} (ls : list (list A)) : ∀ pre y post,
  concat ls = pre ++ y :: post →
  ∃ L m1 m2 R, ls = L ++ (m1 ++ y :: m2) :: R ∧ pre = concat L ++ m1 ∧ post = m2 ++ concat R.
Proof.
  induction ls as [|l ls IH]; intros pre y post H; [by destruct pre|]. cbn [concat] in H.
  apply app_eq_inv in H as [(k & -> & H)|(k & -> & H)].
  - destruct k as [|z k].
    + cbn [app] in H. symmetry in H. destruct (IH [] y post H) as (L & m1 & m2 & R & -> & Hp & ->).
      exists (pre :: L), m1, m2, R. cbn [app concat]. by rewrite <-app_assoc, <-Hp, !app_nil_r.
    + injection H as <- ->. exists [], pre, k, ls. done.
  - destruct (IH k y post H) as (L & m1 & m2 & R & -> & -> & ->). exists (l :: L), m1, m2, R. cbn [app concat].
    by rewrite <-app_assoc.
Qed.

Lemma map_middle {A B} (f : A → B) (l : list A) l1 y l2 :
  map f l = l1 ++ y :: l2 → ∃ k1 z k2, l = k1 ++ z :: k2 ∧ map f k1 = l1 ∧ f z = y ∧ map f k2 = l2.
Proof.
  intros H. apply map_eq_app in H as (k1 & k2 & -> & <- & H). apply map_eq_cons in H as (x & k & -> & <- & <-).
  by exists k1, x, k.
Qed.

(** One element of what hangs below the first levels, seen from the level above. *)
Lemma concat_map_middle {A B} (f : A → list B) (l : list A) pre y post :
  concat (map f l) = pre ++ y :: post →
  ∃ k1 z k2 m1 m2, l = k1 ++ z :: k2 ∧ f z = m1 ++ y :: m2 ∧ pre = concat (map f k1) ++ m1 ∧ post = m2 ++ concat (map f k2).
Proof.
  intros (L & m1 & m2 & R & H & -> & ->)%concat_middle. apply map_middle in H as (k1 & x & k2 & -> & <- & H & <-).
  by exists k1, x, k2, m1, m2.
Qed.

Lemma concat_map_around {A B} (f : A → list B) (k1 : list A) z k2 :
  concat (map f (k1 ++ z :: k2)) = concat (map f k1) ++ f z ++ concat (map f k2).
Proof. by rewrite map_app, concat_app. Qed.

Lemma concat_map_nested {A B D} (f : A → list B) (g : B → list D) (l : list A) :
  concat (map (λ z, concat (map g (f z))) l) = concat (map g (concat (map f l))).
Proof. induction l as [|x l IH]; [done|]. cbn [map concat]. by rewrite map_app, concat_app, IH. Qed.

Lemma flat1_node lo hi a n ts : flat 1 lo hi (TNode a n ts) = spans lo hi (seps n) ts.
Proof.
  cbn [flat]. induction (spans lo hi (seps n) ts) as [|[[b b'] t] xs IH]; [done|]. cbn [map concat fst snd app]. by rewrite IH.
Qed.

Lemma top1_node l lo hi t :
  top 1 l lo hi t ↔ ∃ l' a n ts, l = S l' ∧ t = TNode a n ts ∧ nshape l' lo hi n ts.
Proof.
  cbn [top]. split.
  - destruct l as [|l], t as [|a n ts]; try done. intros [H _]. by exists l, a, n, ts.
  - intros (l' & a & n & ts & -> & -> & H). split; [done|]. by apply list.Forall_forall.
Qed.

Lemma top_weaken i j : ∀ l lo hi t, (j ≤ i)%nat → top i l lo hi t → top j l lo hi t.
Proof.
  revert j. induction i as [|i IH]; intros [|j] l lo hi t Hj Ht; try done; [lia|].
  destruct l as [|l], t as [|a n ts]; try done. destruct Ht as [Hn Ht]. split; [done|].
  eapply Forall_impl; [|exact Ht]. cbn beta. intros x. apply IH. lia.
Qed.

Lemma top_level j : ∀ l lo hi t, top j l lo hi t → (j ≤ l)%nat.
Proof.
  induction j as [|j IH]; intros l lo hi t Ht; [lia|]. destruct l as [|l], t as [|a n ts]; try done. destruct Ht as [Hn Ht].
  pose proof (nshape_length _ _ _ _ _ Hn) as Hl. apply spans_trees with (hi := hi) (lo := lo) in Hl.
  destruct (spans lo hi (seps n) ts) as [|x xs]; [|apply Forall_cons_iff in Ht as [Ht _]; apply IH in Ht; lia].
  destruct ts; [by apply nshape_length in Hn|done].
Qed.

Lemma flat_snoc j : ∀ lo hi t, flat (S j) lo hi t = concat (map (λ x, flat1 x) (flat j lo hi t)).
Proof.
  induction j as [|j IH]; intros lo hi t.
  - cbn [flat map concat]. by rewrite app_nil_r.
  - destruct t as [|a n ts]; [done|]. change (flat (S (S j)) lo hi (TNode a n ts)) with
      (concat (map (λ x, flat (S j) x.1.1 x.1.2 x.2) (spans lo hi (seps n) ts))).
    change (flat (S j) lo hi (TNode a n ts)) with (concat (map (λ x, flat j x.1.1 x.1.2 x.2) (spans lo hi (seps n) ts))).
    rewrite <-concat_map_nested. f_equal. apply map_ext. intros x. apply IH.
Qed.

Lemma top_snoc j : ∀ l lo hi t, (j ≤ l)%nat →
  top (S j) l lo hi t ↔ top j l lo hi t ∧ Forall (λ x, top 1 (l - j) x.1.1 x.1.2 x.2) (flat j lo hi t).
Proof.
  induction j as [|j IH]; intros l lo hi t Hl.
  { cbn [flat]. rewrite Nat.sub_0_r, Forall_cons_iff. cbn [fst snd]. split; [|by intros (_ & ? & _)]. intros H. split; [exact I|]. split; [exact H|constructor]. }
  destruct l as [|l]; [lia|]. destruct t as [|a n ts]; [cbn [top]; tauto|].
  change (top (S (S j)) (S l) lo hi (TNode a n ts)) with
    (nshape l lo hi n ts ∧ Forall (λ x, top (S j) l x.1.1 x.1.2 x.2) (spans lo hi (seps n) ts)).
  cbn [flat Nat.sub]. rewrite Forall_concat, Forall_map.
  change (top (S j) (S l) lo hi (TNode a n ts)) with
    (nshape l lo hi n ts ∧ Forall (λ x, top j l x.1.1 x.1.2 x.2) (spans lo hi (seps n) ts)).
  rewrite !list.Forall_forall. split.
  - intros [Hn H]. split; [split; [done|]|]; intros x Hx; by apply (IH l _ _ _ ltac:(lia)), H.
  - intros [[Hn H1] H2]. split; [done|]. intros x Hx. apply IH; [lia|]. split; [by apply H1|by apply H2].
Qed.

(** The cells of the first levels and of one level more. *)
Lemma tcells_snoc j : ∀ l lo hi t, top j l lo hi t →
  tcells (S j) t ≡ₚ tcells j t ++ concat (map (λ x, tcells1 x) (flat j lo hi t)).
Proof.
  induction j as [|j IH]; intros l lo hi t Ht.
  { cbn [flat map concat snd]. by rewrite app_nil_r. }
  destruct l as [|l], t as [|a n ts]; try done. destruct Ht as [Hn Ht].
  change (tcells (S (S j)) (TNode a n ts)) with (node_cell a n :: concat (map (tcells (S j)) ts)).
  cbn [tcells flat app]. constructor. rewrite <-concat_map_nested.
  rewrite <-(spans_trees hi (seps n) lo ts) at 1 2 by (by eapply nshape_length). unfold trees.
  revert Ht. induction (spans lo hi (seps n) ts) as [|x xs IHx]; intros Ht; [done|]. apply Forall_cons_iff in Ht as [Hx Ht].
  cbn [map concat]. rewrite (IH l _ _ _ Hx), IHx by done. cbn [map]. solve_Permutation.
Qed.

(** The child of a node whose subtree holds an element of [flat]. *)
Lemma flat_node i j l lo hi a n ts pre y post :
  top (S i) (S l) lo hi (TNode a n ts) → flat (S j) lo hi (TNode a n ts) = pre ++ y :: post →
  ∃ k1 c c' u k2 m1 m2 ks1 ks2, spans lo hi (seps n) ts = k1 ++ (c, c', u) :: k2 ∧ flat j c c' u = m1 ++ y :: m2 ∧
    pre = concat (map (λ x, flat j x.1.1 x.1.2 x.2) k1) ++ m1 ∧ post = m2 ++ concat (map (λ x, flat j x.1.1 x.1.2 x.2) k2) ∧
    top i l c c' u ∧ cut lo hi (seps n) c c' ks1 ks2 ∧ length ks1 = length k1 ∧ ts = trees k1 ++ u :: trees k2 ∧
    (∀ u', spans lo hi (seps n) (trees k1 ++ u' :: trees k2) = k1 ++ (c, c', u') :: k2).
Proof.
  intros [Hn Ht] Hf. cbn [flat] in Hf. apply concat_map_middle in Hf as (k1 & [[c c'] u] & k2 & m1 & m2 & Hs & Hm & -> & ->).
  destruct (spans_cut _ _ _ _ _ _ _ _ _ (nshape_length _ _ _ _ _ Hn) (ns_bounds _ _ _ _ _ Hn) Hs) as (ks1 & ks2 & Hc & Hl & Hts & H1 & _).
  exists k1, c, c', u, k2, m1, m2, ks1, ks2. rewrite Hs, Forall_app, Forall_cons_iff in Ht. destruct Ht as (_ & Hu & _). by split_and!.
Qed.

Lemma flat_bounds j : ∀ l lo hi t b b' s, top j l lo hi t → (b, b', s) ∈ flat j lo hi t → lo ≤ b ∧ b' ≤ hi.
Proof.
  induction j as [|j IH]; intros l lo hi t b b' s Ht Hin.
  { apply list_elem_of_singleton in Hin. simplify_eq. lia. }
  destruct l as [|l], t as [|a n ts]; try done. apply list_elem_of_split in Hin as (pre & post & Hf).
  destruct (flat_node _ _ _ _ _ _ _ _ _ _ _ Ht Hf) as (k1 & c & c' & u & k2 & m1 & m2 & ks1 & ks2 & _ & Hm & _ & _ & Hu & Hc & _).
  destruct (IH l c c' u b b' s Hu) as [? ?]; [rewrite Hm; apply elem_of_app; right; left|].
  pose proof (ct_low _ _ _ _ _ _ _ Hc). pose proof (ct_high _ _ _ _ _ _ _ Hc). lia.
Qed.

(** The way of a key through the first levels. *)
Lemma flat_descend key j : ∀ l lo hi t b b' s,
  top j l lo hi t → (b, b', s) ∈ flat j lo hi t → b ≤ key < b' → descend j key t = Some s.
Proof.
  induction j as [|j IH]; intros l lo hi t b b' s Ht Hin Hk.
  { apply list_elem_of_singleton in Hin. by simplify_eq. }
  destruct l as [|l], t as [|a n ts]; try done. apply list_elem_of_split in Hin as (pre & post & Hf).
  destruct (flat_node _ _ _ _ _ _ _ _ _ _ _ Ht Hf) as (k1 & c & c' & u & k2 & m1 & m2 & ks1 & ks2 & _ & Hm & _ & _ & Hu & Hc & Hl & Hts & _).
  assert ((b, b', s) ∈ flat j c c' u) as Hin by (rewrite Hm; apply elem_of_app; right; left).
  destruct (flat_bounds _ _ _ _ _ _ _ _ Hu Hin). cbn [descend].
  rewrite (cut_rank _ _ _ _ _ _ _ key Hc), Hl, Hts by lia. rewrite lookup_app_r by (unfold trees; by rewrite length_map).
  unfold trees at 1. rewrite length_map, Nat.sub_diag. cbn [lookup list_lookup]. by apply (IH l c c' u b b' s).
Qed.

(** One subtree below the first levels is replaced. *)
Lemma flat_replace j : ∀ l lo hi t pre b b' s post s',
  top j l lo hi t → flat j lo hi t = pre ++ (b, b', s) :: post → addr_of s' = addr_of s →
  ∃ t', top j l lo hi t' ∧ flat j lo hi t' = pre ++ (b, b', s') :: post ∧ tcells j t' = tcells j t ∧ addr_of t' = addr_of t.
Proof.
  induction j as [|j IH]; intros l lo hi t pre b b' s post s' Ht Hf Ha.
  { destruct pre as [|y pre]; [|injection Hf as _ Hf; symmetry in Hf; by apply app_nil in Hf as [_ Hf]]. injection Hf as -> -> -> <-.
    by exists s'. }
  destruct l as [|l], t as [|a n ts]; try done.
  destruct (flat_node _ _ _ _ _ _ _ _ _ _ _ Ht Hf) as (k1 & c & c' & u & k2 & m1 & m2 & ks1 & ks2 & Hs & Hm & -> & -> & Hu & Hc & Hl & Hts & Hr).
  destruct (IH l c c' u m1 b b' s m2 s' Hu Hm Ha) as (u' & Hu' & Hf' & Hc' & Ha'). destruct Ht as [Hn Ht].
  exists (TNode a n (trees k1 ++ u' :: trees k2)). split; [|split; [|split; [|done]]].
  - split.
    + destruct Hn. split; try done. rewrite ns_kids0, Hts, !map_app. cbn [map]. by rewrite Ha'.
    + rewrite Hr. rewrite Hs in Ht. rewrite Forall_app, Forall_cons_iff in *. by destruct Ht as (? & _ & ?).
  - cbn [flat]. rewrite Hr, concat_map_around. cbn [fst snd]. rewrite Hf', <-!app_assoc. done.
  - cbn [tcells]. rewrite Hts, !map_app, !concat_app. cbn [map concat]. by rewrite Hc'.
Qed.

(** The node above an element of [flat], and the way back. *)
Abbreviation flats xs := (concat (map (λ x, flat1 x) xs)).
Abbreviation tcellss xs := (concat (map (λ x, tcells1 x) xs)).
Abbreviation tops l xs := (Forall (λ x, top 1 l x.1.1 x.1.2 x.2) xs).

Lemma tcells1_node a n ts : tcells 1 (TNode a n ts) = [node_cell a n].
Proof. cbn [tcells]. f_equal. induction ts as [|t ts IH]; [done|]. exact IH. Qed.

Lemma flat_parent j l lo0 hi0 t pre y post :
  top (S j) l lo0 hi0 t → flat (S j) lo0 hi0 t = pre ++ y :: post →
  ∃ PRE lo hi a n ts POST m1 m2, flat j lo0 hi0 t = PRE ++ (lo, hi, TNode a n ts) :: POST ∧ nshape (l - S j) lo hi n ts ∧
    spans lo hi (seps n) ts = m1 ++ y :: m2 ∧ pre = flats PRE ++ m1 ∧ post = m2 ++ flats POST ∧ top j l lo0 hi0 t ∧
    tcells (S j) t ≡ₚ node_cell a n :: tcells j t ++ tcellss PRE ++ tcellss POST ∧ tops (l - j) PRE ∧ tops (l - j) POST.
Proof.
  intros Ht Hf. pose proof (top_level _ _ _ _ _ Ht) as Hl. rewrite flat_snoc in Hf.
  apply concat_map_middle in Hf as (PRE & [[lo hi] N] & POST & m1 & m2 & Hfj & Hm & -> & ->). cbn [fst snd] in Hm.
  apply top_snoc in Ht as [Ht Hn]; [|lia]. pose proof (tcells_snoc j l lo0 hi0 t Ht) as Hcells.
  rewrite Hfj in Hn, Hcells. rewrite Forall_app, Forall_cons_iff in Hn. destruct Hn as (Hpre & HN & Hpost).
  cbn [fst snd] in HN. apply top1_node in HN as (l' & a & n & ts & Hl' & -> & HN). rewrite flat1_node in Hm.
  exists PRE, lo, hi, a, n, ts, POST, m1, m2. replace (l - S j)%nat with l' by lia. split_and!; try done.
  rewrite Hcells, concat_map_around. cbn [snd]. rewrite tcells1_node.
  cbn [app]. solve_Permutation.
Qed.

Lemma flat_close j l lo0 hi0 t PRE xs POST :
  top j l lo0 hi0 t → (j ≤ l)%nat → flat j lo0 hi0 t = PRE ++ xs ++ POST → tops (l - j) PRE → tops (l - j) xs → tops (l - j) POST →
  top (S j) l lo0 hi0 t ∧ flat (S j) lo0 hi0 t = flats PRE ++ flats xs ++ flats POST ∧
  tcells (S j) t ≡ₚ tcells j t ++ tcellss PRE ++ tcellss xs ++ tcellss POST.
Proof.
  intros Ht Hl Hf H1 H2 H3. split; [|split].
  - apply top_snoc; [done|]. split; [done|]. rewrite Hf, !Forall_app. done.
  - by rewrite flat_snoc, Hf, !map_app, !concat_app.
  - rewrite (tcells_snoc j l lo0 hi0 t Ht), Hf, !map_app, !concat_app. done.
Qed.
End top.

(** ** The whole tree *)

Section whole.
Context {cfg : FaunusConfig}.
Context {Q : Type → Type} `{!ConcurrentQueue Q}.
Implicit Types (c : Cluster Q) (t s : tree) (x : span).

Definition item_cell (b : KVBlock) (kv : KVItem) : cell := (getAddr b, enc_KVItem kv).

Fixpoint cells_of t : list cell :=
  match t with
  | TLeaf a leaf items => (a, enc_LeafNode leaf) :: zip_with item_cell (live leaf) items
  | TNode a n ts => node_cell a n :: concat (map cells_of ts)
  end.

(** What the slot word says of its item. *)
Definition item_fits (b : KVBlock) (kv : KVItem) : Prop := item_ok kv ∧ getFingerprint b = Fingerprint (item_key kv).

Record lshape (lo hi : Z) (leaf : LeafNode) (items : list KVItem) : Prop := mkLShape {
  ls_ok : leaf_ok leaf;
  ls_header : lheader leaf = mkHeader 0 0 lo hi (last_index (lheader leaf));
  ls_items : Forall2 item_fits (live leaf) items;
  ls_unlocked : Forall (λ b, isLocked b = false) (kv_blocks leaf);
  ls_nodup : NoDup (map item_key items);
  ls_range : Forall (λ kv, lo ≤ item_key kv < hi) items
}.

Definition leafy x : Prop := match x.2 with TLeaf _ leaf items => lshape x.1.1 x.1.2 leaf items | TNode _ _ _ => False end.

Lemma spans_lookup hi ks : ∀ lo ts i b b' t, length ts = S (length ks) →
  spans lo hi ks ts !! i = Some (b, b', t) ↔
  ts !! i = Some t ∧ (lo :: ks ++ [hi]) !! i = Some b ∧ (lo :: ks ++ [hi]) !! S i = Some b'.
Proof.
  induction ks as [|k ks IH]; intros lo ts i b b' t Hl; (destruct ts as [|t0 ts]; [done|]).
  - destruct ts; [|done]. cbn [spans]. destruct i as [|i].
    + cbn. split; [intros [= -> -> ->]; done|by intros ([= ->] & [= ->] & [= ->])].
    + cbn. split; [done|]. by intros (? & _).
  - cbn [spans app]. destruct i as [|i].
    + cbn. split; [intros [= -> -> ->]; done|by intros ([= ->] & [= ->] & [= ->])].
    + cbn [lookup list_lookup]. rewrite IH by (cbn [length] in *; lia). done.
Qed.

Lemma leaf_stored_iff c lo hi a leaf items :
  stored c 0 lo hi (TLeaf a leaf items) ↔
  lshape lo hi leaf items ∧ Forall (λ y, holds c y.1 y.2) (cells_of (TLeaf a leaf items)).
Proof.
  assert (∀ bs its, Forall2 (item_at c) bs its ↔ Forall2 item_fits bs its ∧ Forall (λ y, holds c y.1 y.2) (zip_with item_cell bs its)) as Hits.
  { intros bs its. split.
    - induction 1 as [|b kv bs its (Hh & Hok & Hfp) _ [IH1 IH2]]; [by split|]. cbn [zip_with]. by split; constructor.
    - intros [HF HH]. induction HF as [|b kv bs its [Hok Hfp] _ IH]; [constructor|]. cbn [zip_with] in HH.
      apply Forall_cons_iff in HH as [Hh HH]. constructor; [by split|by apply IH]. }
  cbn [cells_of]. rewrite Forall_cons_iff. cbn [fst snd]. split.
  - inversion 1 as [? ? ? ? ? li Hh Hok Hhd Hit Hlk Hnd Hrg|]; subst. apply Hits in Hit as [H1 H2].
    split; [split; try done; by rewrite Hhd|done].
  - intros ([Hok Hhd Hit Hlk Hnd Hrg] & Hh & HH). eapply stored_leaf; try done. apply Hits. by split.
Qed.

Lemma stored_parts c l lo hi t :
  stored c l lo hi t →
  top l l lo hi t ∧ Forall leafy (flat l lo hi t) ∧ Forall (λ y, holds c y.1 y.2) (cells_of t) ∧ map extent (cells_of t) = blocks_of t.
Proof.
  intros Hst. induction Hst as [a leaf items lo hi li Hh Hok Hhd Hit Hlk Hnd Hrg
                              |a n ts l lo hi Hh Hok Hs Hlk Hlv Hf1 Hf2 Hb Hsp Hk Hna Hts IH].
  - assert (stored c 0 lo hi (TLeaf a leaf items)) as Hst by (by eapply stored_leaf).
    apply leaf_stored_iff in Hst as [H1 H2]. split; [done|]. split; [by constructor|]. split; [done|].
    cbn [cells_of blocks_of map]. f_equal; [unfold extent; cbn [fst snd]; by rewrite length_enc_LeafNode by apply Hok|].
    clear -Hit. induction Hit as [|b kv bs its _ _ IHi]; [done|]. cbn [zip_with map]. f_equal; [|done].
    unfold extent, item_cell, item_block. cbn [fst snd]. by rewrite length_enc_KVItem.
  - assert (nshape l lo hi n ts) as Hn by (by split). pose proof (nshape_length _ _ _ _ _ Hn) as Hlen.
    assert (∀ x, x ∈ spans lo hi (seps n) ts → top l l x.1.1 x.1.2 x.2 ∧ Forall leafy (flat l x.1.1 x.1.2 x.2) ∧
      Forall (λ y, holds c y.1 y.2) (cells_of x.2) ∧ map extent (cells_of x.2) = blocks_of x.2) as Hall.
    { intros [[b b'] t] (i & Hi)%list_elem_of_lookup. apply spans_lookup in Hi as (Ht & Hb1 & Hb2); [|done]. by apply (IH i). }
    split; [split; [done|]|split; [|split]].
    + apply list.Forall_forall. intros x Hx. by apply Hall.
    + cbn [flat]. apply Forall_concat, Forall_map, list.Forall_forall. intros x Hx. by apply Hall.
    + cbn [cells_of]. constructor; [done|]. rewrite <-(spans_trees hi (seps n) lo ts Hlen). unfold trees.
      apply Forall_concat. rewrite map_map. apply Forall_map, list.Forall_forall. intros x Hx. by apply Hall.
    + cbn [cells_of blocks_of map]. f_equal; [unfold extent, node_cell; cbn [fst snd]; by rewrite length_enc_InternalNode by apply Hok|].
      rewrite <-(spans_trees hi (seps n) lo ts Hlen). unfold trees. rewrite concat_map, !map_map. f_equal.
      apply map_ext_in. intros x Hx%list_elem_of_In. by apply Hall.
Qed.

Lemma addr_of_cell t : addr_of t ∈ map fst (cells_of t).
Proof. destruct t; cbn; left. Qed.

Lemma stored_build c l : ∀ lo hi t,
  top l l lo hi t → Forall leafy (flat l lo hi t) → Forall (λ y, holds c y.1 y.2) (cells_of t) → NoDup (map fst (cells_of t)) →
  stored c l lo hi t.
Proof.
  induction l as [|l IH]; intros lo hi t Ht Hl Hh Hnd.
  - apply Forall_cons_iff in Hl as [Hl _]. destruct t as [a leaf items|]; [|done]. apply leaf_stored_iff. by split.
  - destruct t as [|a n ts]; [done|]. destruct Ht as [Hn Ht]. pose proof (nshape_length _ _ _ _ _ Hn) as Hlen.
    cbn [cells_of map flat] in *. apply Forall_cons_iff in Hh as [Hh0 Hh]. apply list.NoDup_cons in Hnd as [Hni Hnd].
    rewrite Forall_concat, Forall_map in Hl. destruct Hn as [Hok Hs Hlk Hlv Hf1 Hf2 Hb Hsp Hk]. apply stored_node; try done.
    + rewrite Hk. intros (t & -> & Hin)%list_elem_of_fmap. apply Hni. rewrite concat_map, map_map.
      apply list_elem_of_In, in_concat. exists (map fst (cells_of t)). split; [|apply list_elem_of_In, addr_of_cell].
      apply in_map_iff. exists t. split; [done|by apply list_elem_of_In].
    + intros i t b b' Hi Hb1 Hb2. assert ((b, b', t) ∈ spans lo hi (seps n) ts) as Hin.
      { apply list_elem_of_lookup. exists i. by apply spans_lookup. }
      rewrite list.Forall_forall in Ht, Hl. specialize (Ht _ Hin). specialize (Hl _ Hin). cbn [fst snd] in *.
      rewrite <-(take_drop_middle ts i t Hi), concat_map_around in Hh, Hnd. apply IH; try done.
      * rewrite !Forall_app in Hh. tauto.
      * rewrite !map_app in Hnd. apply list.NoDup_app in Hnd as (_ & _ & Hnd). by apply list.NoDup_app in Hnd as (? & _).
Qed.

(** The cells and the items of a tree, through its first levels. *)
Lemma cells_flat j : ∀ l lo hi t, top j l lo hi t →
  cells_of t ≡ₚ tcells j t ++ concat (map (λ x, cells_of x.2) (flat j lo hi t)).
Proof.
  induction j as [|j IH]; intros l lo hi t Ht.
  { cbn [flat map concat snd tcells]. rewrite app_nil_r. by destruct t. }
  destruct l as [|l], t as [|a n ts]; try done. destruct Ht as [Hn Ht]. cbn [cells_of tcells flat app]. constructor.
  rewrite <-concat_map_nested. rewrite <-(spans_trees hi (seps n) lo ts) at 1 2 by (by eapply nshape_length). unfold trees.
  revert Ht. induction (spans lo hi (seps n) ts) as [|x xs IHx]; intros Ht; [done|]. apply Forall_cons_iff in Ht as [Hx Ht].
  cbn [map concat]. rewrite (IH l _ _ _ Hx), IHx by done. cbn [map]. solve_Permutation.
Qed.

Lemma items_flat j : ∀ l lo hi t, top j l lo hi t → items_of t = concat (map (λ x, items_of x.2) (flat j lo hi t)).
Proof.
  induction j as [|j IH]; intros l lo hi t Ht.
  { cbn [flat map concat snd]. by rewrite app_nil_r. }
  destruct l as [|l], t as [|a n ts]; try done. destruct Ht as [Hn Ht]. cbn [items_of flat]. rewrite <-concat_map_nested.
  rewrite <-(spans_trees hi (seps n) lo ts) at 1 by (by eapply nshape_length). unfold trees.
  revert Ht. induction (spans lo hi (seps n) ts) as [|x xs IHx]; intros Ht; [done|]. apply Forall_cons_iff in Ht as [Hx Ht].
  cbn [map concat]. by rewrite (IH l _ _ _ Hx), IHx.
Qed.

(** The keys of a stored tree are distinct. *)
Lemma spans_nodup hi ks : ∀ lo ts, length ts = S (length ks) → pairwise Z.le (lo :: ks ++ [hi]) →
  Forall (λ x, NoDup (map item_key (items_of x.2)) ∧ ∀ kv, kv ∈ items_of x.2 → x.1.1 ≤ item_key kv < x.1.2) (spans lo hi ks ts) →
  NoDup (map item_key (concat (map items_of ts))) ∧ ∀ kv, kv ∈ concat (map items_of ts) → lo ≤ item_key kv.
Proof.
  induction ks as [|k ks IH]; intros lo ts Hl Hp Hx; (destruct ts as [|t ts]; [done|]); cbn [spans] in Hx;
    apply Forall_cons_iff in Hx as [[Hnd Hrg] Hx]; cbn [fst snd] in *.
  - destruct ts; [|done]. cbn [map concat]. rewrite app_nil_r. split; [done|]. intros kv Hkv. by apply Hrg.
  - destruct Hp as [Ho Hp]. cbn [app] in Ho. apply Forall_cons_iff in Ho as [Ho _].
    destruct (IH k ts) as [H1 H2]; [cbn [length] in *; lia|done|done|]. cbn [map concat]. split.
    + rewrite map_app. apply list.NoDup_app. split; [done|]. split; [|done].
      intros y (kv & -> & Hkv)%list_elem_of_fmap (kv' & He & Hkv')%list_elem_of_fmap. specialize (Hrg _ Hkv). specialize (H2 _ Hkv'). lia.
    + intros kv [Hkv|Hkv]%elem_of_app; [by apply Hrg|]. specialize (H2 _ Hkv). lia.
Qed.

Lemma stored_nodup c l lo hi t : stored c l lo hi t → NoDup (map item_key (items_of t)).
Proof.
  intros Hst. induction Hst as [|a n ts l lo hi Hh Hok Hs Hlk Hlv Hf1 Hf2 Hb Hsp Hk Hna Hts IH]; [done|].
  assert (nshape l lo hi n ts) as Hn by (by split). pose proof (nshape_length _ _ _ _ _ Hn) as Hlen.
  cbn [items_of]. apply (spans_nodup hi (seps n) lo ts Hlen Hb). apply list.Forall_forall.
  intros [[b b'] t] (i & Hi)%list_elem_of_lookup. apply spans_lookup in Hi as (Ht & Hb1 & Hb2); [|done]. cbn [fst snd].
  split; [by apply (IH i t b b')|]. intros kv Hkv. by apply (stored_items c l b b' t); [apply (Hts i)|].
Qed.

(** The leaf on the way of a key, with its range. *)
Lemma descend_flat key j : ∀ l lo hi t s,
  top j l lo hi t → lo ≤ key < hi → descend j key t = Some s → ∃ b b', (b, b', s) ∈ flat j lo hi t ∧ b ≤ key < b'.
Proof.
  induction j as [|j IH]; intros l lo hi t s Ht Hk Hd.
  { cbn in Hd. simplify_eq. exists lo, hi. split; [left|done]. }
  destruct l as [|l], t as [|a n ts]; try done. destruct Ht as [Hn Ht]. cbn [descend] in Hd.
  destruct (ts !! rank (seps n) key) as [u|] eqn:Hu; [|done].
  destruct (rank_bounds lo hi (seps n) key Hk) as (c & c' & Hc & Hc' & Hck).
  assert ((c, c', u) ∈ spans lo hi (seps n) ts) as Hin.
  { apply list_elem_of_lookup. exists (rank (seps n) key). by apply spans_lookup; [eapply nshape_length|]. }
  rewrite list.Forall_forall in Ht. destruct (IH l c c' u s (Ht _ Hin) Hck Hd) as (b & b' & Hb & Hkb). exists b, b'. split; [|done].
  cbn [flat]. apply list_elem_of_In, in_concat. exists (flat j c c' u). split; [|by apply list_elem_of_In].
  apply (in_map (λ x : span, flat j x.1.1 x.1.2 x.2) _ (c, c', u)). by apply list_elem_of_In.
Qed.

(** The leaves of a tree are its subtrees of the lowest level. *)
Lemma leaf_addrs_flat j : ∀ lo hi t,
  top j j lo hi t → Forall leafy (flat j lo hi t) → map (λ x : span, addr_of x.2) (flat j lo hi t) = leaf_addrs t.
Proof.
  induction j as [|j IH]; intros lo hi t Ht Hl.
  { cbn in Hl |- *. apply Forall_cons_iff in Hl as [Hl _]. by destruct t. }
  destruct t as [|a n ts]; [done|]. destruct Ht as [Hn Ht]. cbn [flat leaf_addrs] in *. rewrite Forall_concat, Forall_map in Hl.
  pose proof (spans_trees hi (seps n) lo ts (nshape_length _ _ _ _ _ Hn)) as Hs. unfold trees in Hs.
  rewrite concat_map, map_map. transitivity (concat (map leaf_addrs (map snd (spans lo hi (seps n) ts)))); [|by rewrite Hs].
  rewrite map_map. f_equal.
  rewrite list.Forall_forall in Ht, Hl. apply list_fmap_ext. intros i x Hx%list_elem_of_lookup_2. by apply IH; [apply Ht|apply Hl].
Qed.
End whole.
