(* ===== verification/FaunusSplit.v ===== *)
(** * Splits in the levels above the leaves

    The runs of [insert_internal_entry], [split_internal_node] and [setup_new_root]
    (src/kv_index/faunus_index.cpp) by a thread that works alone and without a cache:
    whatever number of levels the new separator changes, up to a new root, the upper
    levels are well formed again, and what hangs below them is what was there with
    the new child to the right of its sibling. *)

From S2P Require Import Prelude GlobalAddress RdmaSim ThreadStats Queue MemoryServer Slab RdmaManager KVBlock FaunusNode FaunusIndex FaunusTree FaunusRead FaunusFrame FaunusInsert FaunusUpsert FaunusInit FaunusHeap FaunusShape.

Section runs.
Context {cfg : FaunusConfig}.
Context {Q : Type → Type} `{!ConcurrentQueue Q}.
Context {C Ent : Type} `{!NodeCache C Ent (GlobalAddress * InternalNode)}.
Implicit Types (w : World Q C) (t s : tree) (R : list cell).
Abbreviation flats xs := (concat (map (λ x, flat 1 x.1.1 x.1.2 x.2) xs)).
Abbreviation tcellss xs := (concat (map (λ x, tcells 1 x.2) xs)).
Abbreviation tops l xs := (Forall (λ x, top 1 l x.1.1 x.1.2 x.2) xs).

(** ** The traversal of a structure modification *)

Lemma cells_of_child j (k1 : list span) u (k2 : list span) R :
  concat (map (tcells j) (trees k1 ++ u :: trees k2)) ++ R ≡ₚ
    tcells j u ++ concat (map (tcells j) (trees k1)) ++ concat (map (tcells j) (trees k2)) ++ R.
Proof. rewrite concat_map_around. solve_Permutation. Qed.

(** The step at a node whose child [u] covers the key. *)
Lemma child_step key d l smo w a n ts lo hi k1 c c' u k2 R b :
  heap w (tcells (S (S d)) (TNode a n ts) ++ R) → faunus_cache_ w = None → nshape l lo hi n ts → top (S d) l c c' u →
  ts = trees k1 ++ u :: trees k2 → rank (seps n) key = length k1 → Z.of_nat (S l) < 2 ^ 64 →
  ∃ w', find_step (C := C) (Ent := Ent) key (Z.of_nat (l - d)) smo None (a, None, b) w =
          Done (if (l =? l - d)%nat then inr (FOUND, addr_of u) else inl (addr_of u, None, false)) w' ∧ quiet w w'.
Proof.
  intros Hh Hc [Hok Hs Hlk Hlv _ _ _ _ Hk] Hu Hts Hr Hl. destruct l as [|l]; [done|]. destruct u as [|a' n' ts']; [done|].
  pose proof (hp_blocks _ _ Hh) as Hb.
  apply (find_step_down key (S l - d) smo w a n (S l)); try done; try lia; [apply Hh| | |].
  - by apply (blocks_cell _ _ _ (node_cell a n) Hb); left.
  - unfold route. rewrite Hk, Hr, Hts, list_lookup_fmap. rewrite lookup_app_r by (unfold trees; by rewrite length_map).
    unfold trees at 1. by rewrite length_map, Nat.sub_diag.
  - apply blocks_addrs in Hb. change (tcells (S (S d)) (TNode a n ts)) with (node_cell a n :: concat (map (tcells (S d)) ts)) in Hb.
    cbn [app map] in Hb. apply list.NoDup_cons in Hb as [Hb _]. intros Heq. apply Hb. cbn in Heq. rewrite Heq, Hts, cells_of_child.
    cbn [tcells app map]. left.
Qed.

(** From a node above the target level down to the child that covers the key. *)
Lemma find_loop_top key smo d : ∀ l lo hi t b0 b0' s w R b p,
  heap w (tcells (S (S d)) t ++ R) → faunus_cache_ w = None → top (S (S d)) l lo hi t →
  (b0, b0', s) ∈ flat (S d) lo hi t → b0 ≤ key < b0' → Z.of_nat l < 2 ^ 64 → (S d ≤ Pos.to_nat p)%nat →
  ∃ w', loop p (find_step (C := C) (Ent := Ent) key (Z.of_nat (l - S d)) smo None) (addr_of t, None, b) w =
          Done (inr (FOUND, addr_of s)) w' ∧ quiet w w'.
Proof.
  induction d as [|d IH]; intros l lo hi t b0 b0' s w R b p Hh Hc Ht Hin Hk Hl Hp;
    (destruct l as [|l]; [done|]); (destruct t as [|a n ts]; [done|]);
    apply list_elem_of_split in Hin as (pre & post & Hf);
    destruct (flat_node _ _ _ _ _ _ _ _ _ _ _ Ht Hf) as (k1 & c & c' & u & k2 & m1 & m2 & ks1 & ks2 & _ & Hm & _ & _ & Hu & Hct & Hlk & Hts & _);
    (assert ((b0, b0', s) ∈ flat _ c c' u) as Hin by (rewrite Hm; apply elem_of_app; right; left)).
  - apply list_elem_of_singleton in Hin. simplify_eq.
    destruct (child_step key 0 l smo w a n _ lo hi k1 c c' u k2 R b Hh Hc (proj1 Ht) Hu eq_refl) as (w' & Hs & Hq);
      [by rewrite (cut_rank _ _ _ _ _ _ _ key Hct)|done|].
    rewrite Nat.sub_0_r, Nat.eqb_refl in Hs. exists w'. split; [|done]. apply loop_done. by rewrite Nat.sub_succ, Nat.sub_0_r.
  - destruct (flat_bounds (S d) l c c' u b0 b0' s) as [? ?]; [eapply top_weaken; [|exact Hu]; lia|done|].
    destruct (child_step key (S d) l smo w a n ts lo hi k1 c c' u k2 R b Hh Hc (proj1 Ht) Hu Hts) as (w1 & Hs & Hq);
      [rewrite (cut_rank _ _ _ _ _ _ _ key Hct); [done|lia]|done|].
    pose proof (top_level _ _ _ _ _ Hu). rewrite (proj2 (Nat.eqb_neq _ _)) in Hs by lia.
    apply heap_perm with (cs' := tcells (S (S d)) u ++ node_cell a n :: concat (map (tcells (S (S d))) (trees k1)) ++ concat (map (tcells (S (S d))) (trees k2)) ++ R) in Hh.
    2:{ change (tcells (S (S (S d))) (TNode a n ts)) with (node_cell a n :: concat (map (tcells (S (S d))) ts)). cbn [app].
        rewrite Hts, cells_of_child. apply Permutation_middle. }
    destruct (heap_quiet _ _ _ Hq Hh) as (Hh1 & Hcm & _).
    destruct (IH l c c' u b0 b0' s w1 _ false (Pos.pred p) Hh1) as (w' & Hl' & Hq'); try done; try lia.
    { by rewrite (cm_cache _ _ Hcm). }
    exists w'. cbn [addr_of]. rewrite loop_unroll. rewrite Nat.sub_succ, Hs, decide_False by (intros ->; simpl in Hp; lia).
    split; [done|by etrans].
Qed.

(** The cell of the root pointer of a tree. *)
Definition root_cell w t : cell := (root_offset_pointer_ w, le_bytes 8 (addr_of t)).

Lemma find_node_from_root fuel key lv smo use_cache w cs v res a :
  heap w cs → (root_offset_pointer_ w, le_bytes 8 v) ∈ cs → ga_ok v → faunus_cache_ w = None →
  (∀ w1, quiet w w1 → ∃ w2, loop fuel (find_step (C := C) (Ent := Ent) key lv smo None) (v, None, true) w1 = Done (inr (res, a)) w2 ∧ quiet w1 w2) →
  ∃ w', find_node (C := C) (Ent := Ent) fuel key lv smo use_cache w = Done (res, a, None) w' ∧ quiet w w'.
Proof.
  intros Hh Hin Hv Hc Hloop. destruct (blocks_cell _ _ _ _ (hp_blocks _ _ Hh) Hin) as (_ & Hr & _).
  destruct (get_root_offset_holds w v (hp_others _ _ Hh) Hr Hv) as (w1 & H1 & Hq1). destruct (Hloop w1 Hq1) as (w2 & H2 & Hq2).
  exists w2. split; [|by etrans]. unfold find_node.
  assert ((if use_cache then search_cache (C := C) (Ent := Ent) key else mret None) w = Done None w) as Hhit.
  { destruct use_cache; [|done]. unfold search_cache. by rewrite Hc. }
  erewrite bind_done by exact Hhit. cbn [fmap option_fmap option_map snd]. erewrite bind_done by exact H1.
  by erewrite bind_done by exact H2.
Qed.

(** The node at depth [d] that covers the key. *)
Lemma find_node_top fuel key d smo use_cache w l t b0 b0' s R :
  heap w (root_cell w t :: tcells (S d) t ++ R) → faunus_cache_ w = None → top (S d) l key_min key_max t →
  (b0, b0', s) ∈ flat d key_min key_max t → b0 ≤ key < b0' → Z.of_nat l < 2 ^ 64 → (l < Pos.to_nat fuel)%nat →
  ∃ w', find_node (C := C) (Ent := Ent) fuel key (Z.of_nat (l - d)) smo use_cache w = Done (FOUND, addr_of s, None) w' ∧ quiet w w'.
Proof.
  intros Hh Hc Ht Hin Hk Hl Hf. pose proof (top_level _ _ _ _ _ Ht) as Hdl.
  assert (heap w (tcells (S d) t ++ root_cell w t :: R)) as Hh' by (eapply heap_perm; [|exact Hh]; apply Permutation_middle).
  assert (ga_ok (addr_of t)) as Ha.
  { destruct l as [|l], t as [|a n ts]; try done. apply (blocks_cell _ _ _ (node_cell a n) (hp_blocks _ _ Hh')). left. }
  eapply (find_node_from_root fuel key _ smo use_cache w _ (addr_of t)); [exact Hh|left|done|done|].
  intros w1 Hq. assert (faunus_cache_ w1 = None) as Hc1 by (by rewrite (q_cache _ _ Hq)).
  destruct (heap_quiet _ _ _ Hq Hh') as (Hh1 & _).
  destruct d as [|d].
  - apply list_elem_of_singleton in Hin. simplify_eq. destruct l as [|l], t as [|a n ts]; try done. destruct Ht as [Hn _].
    assert (holds (cl w1) a (enc_InternalNode n)) as Hho by (apply (blocks_cell _ _ _ (node_cell a n) (hp_blocks _ _ Hh1)); left).
    pose proof (ns_ok _ _ _ _ _ Hn) as Hok. pose proof Hho as (m & Hm & _). rewrite length_enc_InternalNode in Hm by apply Hok.
    destruct (find_step_stop key (S l - 0) smo w1 a (S l) m true (hp_others _ _ Hh1) Hc1 Hm) as (w2 & H2 & Hq2).
    { left. by rewrite (node_at _ _ _ _ Hho Hok Hm), (ns_lock _ _ _ _ _ Hn). }
    { by rewrite (node_at _ _ _ _ Hho Hok Hm), (ns_level _ _ _ _ _ Hn). }
    { lia. }
    { lia. }
    rewrite Nat.sub_0_r, Nat.eqb_refl in H2. exists w2. split; [|done]. apply loop_done. by rewrite Nat.sub_0_r.
  - apply (find_loop_top key smo d l key_min key_max t b0 b0' s w1 (root_cell w t :: R) true fuel); try done. lia.
Qed.

(** The level above the root does not exist. *)
Definition root_head (c : Cluster Q) (a : GlobalAddress) (l : nat) : Prop :=
  ∃ m, region_at c a sizeof_InternalNode m ∧
       level (iheader (dec_InternalNode (slice (Z.to_nat (offset a)) sizeof_InternalNode m))) = Z.of_nat l.

Lemma find_node_none fuel key use_cache w cs l v :
  heap w cs → (root_offset_pointer_ w, le_bytes 8 v) ∈ cs → ga_ok v → faunus_cache_ w = None → root_head (cl w) v l →
  ∃ w', find_node (C := C) (Ent := Ent) fuel key (Z.of_nat (S l)) true use_cache w = Done (NO_SUCH_LEVEL, v, None) w' ∧ quiet w w'.
Proof.
  intros Hh Hin Hv Hc (m & Hm & Hlv). eapply find_node_from_root; [done|done|done|done|]. intros w1 Hq.
  destruct (heap_quiet _ _ _ Hq Hh) as (Hh1 & _ & _ & Hcl). rewrite <-Hcl in Hm.
  destruct (find_step_stop key (S l) true w1 v l m true (hp_others _ _ Hh1)) as (w2 & H2 & Hq2); [by rewrite (q_cache _ _ Hq)|done|by right|done|lia|lia|].
  rewrite (proj2 (Nat.eqb_neq _ _)) in H2 by lia. exists w2. split; [|done]. by apply loop_done.
Qed.

(** ** Node locks *)

Definition set_lock (v : Z) (n : InternalNode) : InternalNode :=
  let h := iheader n in mkInternal (mkHeader v (level h) (fence_first h) (fence_second h) (last_index h)) (entries n).
Definition set_leaf_lock (v : Z) (leaf : LeafNode) : LeafNode :=
  let h := lheader leaf in mkLeaf (mkHeader v (level h) (fence_first h) (fence_second h) (last_index h)) (kv_blocks leaf).

(** The bytes behind the lock word. *)
Definition nbody (n : InternalNode) : list Z := drop 8 (enc_InternalNode n).
Definition lbody (leaf : LeafNode) : list Z := drop 8 (enc_LeafNode leaf).

Lemma enc_set_lock v n : enc_InternalNode (set_lock v n) = le_bytes 8 v ++ nbody n.
Proof.
  unfold nbody, enc_InternalNode, pad_to. rewrite !length_app, !length_enc_Header. cbn [set_lock iheader entries].
  unfold enc_Header, pad_to. cbn [lock level fence_first fence_second last_index]. rewrite <-!app_assoc.
  rewrite drop_app_length' by (by rewrite length_le_bytes). rewrite !length_app, !length_le_bytes. done.
Qed.

Lemma enc_set_leaf_lock v leaf : enc_LeafNode (set_leaf_lock v leaf) = le_bytes 8 v ++ lbody leaf.
Proof.
  unfold lbody, enc_LeafNode. cbn [set_leaf_lock lheader kv_blocks].
  unfold enc_Header, pad_to. cbn [lock level fence_first fence_second last_index]. rewrite <-!app_assoc.
  rewrite drop_app_length' by (by rewrite length_le_bytes). rewrite !length_app, !length_le_bytes. done.
Qed.

Lemma set_lock_id n : lock (iheader n) = 0 → set_lock 0 n = n.
Proof. intros H. destruct n as [[? ? ? ? ?] ?]. cbn in *. by subst. Qed.
Lemma set_leaf_lock_id leaf : lock (lheader leaf) = 0 → set_leaf_lock 0 leaf = leaf.
Proof. intros H. destruct leaf as [[? ? ? ? ?] ?]. cbn in *. by subst. Qed.
Lemma set_lock_ok v n : in_width 64 v → node_ok n → node_ok (set_lock v n).
Proof. intros Hv ((_ & H) & Hr). split; [by split|done]. Qed.
Lemma set_leaf_lock_ok v leaf : in_width 64 v → leaf_ok leaf → leaf_ok (set_leaf_lock v leaf).
Proof. intros Hv ((_ & H) & Hr). split; [by split|done]. Qed.

Lemma insert_entry_lock junk k x v n : insert_entry junk k x (set_lock v n) = set_lock v (insert_entry junk k x n).
Proof. done. Qed.
Lemma split_node_lock junk k x v n :
  split_node junk k x (set_lock v n) = let '(n1, n2, mk) := split_node junk k x n in (set_lock v n1, n2, mk).
Proof. done. Qed.

(** ** A new root *)

Definition root_node (level_ key : Z) (old right_child : GlobalAddress) : InternalNode :=
  mkInternal (mkHeader 0 level_ key_min key_max 1)
    (set_child 1 right_child (set_child 0 old (set_key 0 key (entries InternalNode_init)))).

Lemma key_max_ok : key_ok key_max.
Proof. unfold key_ok, key_max. pose proof (Z.pow_pos_nonneg 256 (Z.of_nat KEY_SIZE)). lia. Qed.

Lemma root_node_shape l k s1 s2 :
  (2 ≤ branch_factor)%nat → key_min < k < key_max → ga_ok (addr_of s1) → ga_ok (addr_of s2) → Z.of_nat (S l) < 2 ^ 64 →
  let n := root_node (Z.of_nat (S l)) k (addr_of s1) (addr_of s2) in
  nshape l key_min key_max n [s1; s2] ∧ spans key_min key_max (seps n) [s1; s2] = [(key_min, k, s1); (k, key_max, s2)].
Proof.
  intros H2 Hk Ha1 Ha2 Hl n. assert (∃ r, branch_factor = S (S r)) as [r Hr] by (exists (branch_factor - 2)%nat; lia).
  assert (entries n = mkEntry k (addr_of s1) :: mkEntry 0 (addr_of s2) :: replicate r entry0) as He.
  { unfold n, root_node. cbn [entries InternalNode_init]. rewrite Hr. done. }
  assert (last_nat n = 1%nat) as Hln by done.
  assert (seps n = [k]) as Hs by (unfold seps; rewrite Hln, He; done).
  assert (0 < 256 ^ Z.of_nat KEY_SIZE) as Hp by (apply Z.pow_pos_nonneg; lia).
  assert (key_ok 0) as H0 by apply key_ok_0.
  assert (key_ok k) as Hkk by (unfold key_ok; pose proof key_max_ok as [_ ?]; unfold key_min in Hk; lia).
  split; [|by rewrite Hs]. split; try done.
  - split; [|split].
    + split; [cbn; unfold in_width; lia|]. split; [cbn [iheader n root_node level]; unfold in_width; lia|]. split; [done|].
      split; [apply key_max_ok|cbn; unfold in_width; lia].
    + rewrite He, Hr. cbn [length]. by rewrite length_replicate.
    + rewrite He. constructor; [done|]. constructor; [done|]. apply Forall_replicate, entry0_ok.
  - split; [rewrite Hln, He; cbn; lia|]. split; [cbn; lia|]. by rewrite Hs; repeat constructor.
  - unfold bounds. rewrite Hs. cbn. split_and!; repeat constructor; lia.
  - unfold spare_ok. rewrite Hln, He. cbn [map drop]. constructor; [left; done|].
    apply Forall_map, Forall_replicate. left. done.
  - unfold kids. rewrite Hln, He. done.
Qed.

Lemma setup_new_root_run w R l t k s1 s2 :
  heap w (root_cell w t :: R) → ga_ok (addr_of t) → addr_of s1 = addr_of t → ga_ok (addr_of s2) →
  (2 ≤ branch_factor)%nat → key_min < k < key_max → Z.of_nat (S l) < 2 ^ 64 → (0 < nfree (w_slabs w) sizeof_InternalNode)%nat →
  ∃ r w', let n := root_node (Z.of_nat (S l)) k (addr_of s1) (addr_of s2) in let t' := TNode r n [s1; s2] in
    setup_new_root (C := C) k (addr_of s2) (Z.of_nat (S l)) w = Done true w' ∧
    heap w' (root_cell w' t' :: node_cell r n :: R) ∧ calm w w' ∧
    (∀ m, (nfree (w_slabs w) m ≤ S (nfree (w_slabs w') m))%nat).
Proof.
  intros Hh Hat Ha1 Ha2 H2 Hk Hl Hfree.
  destruct (heap_allocate w _ sizeof_InternalNode Hh Hfree) as (r & bs & w1 & Hal & Hh1 & Hbs & Hc1 & Hn1).
  destruct (heap_get_root w1 _ (addr_of t) Hh1) as (w2 & Hg & Hh2 & Hc2 & Hs2 & _); [rewrite (cm_root _ _ Hc1); right; left|done|].
  set (n := root_node (Z.of_nat (S l)) k (addr_of s1) (addr_of s2)).
  destruct (heap_write w2 _ r bs (enc_InternalNode n) Hh2 (enc_InternalNode_bytes _)) as (w3 & Hw & Hh3 & Hc3 & Hs3).
  { destruct (root_node_shape l k s1 s2) as [Hn _]; try done; [by rewrite Ha1|]. rewrite length_enc_InternalNode; [done|]. apply Hn. }
  assert (root_offset_pointer_ w3 = root_offset_pointer_ w) as Hr3 by (by rewrite (cm_root _ _ Hc3), (cm_root _ _ Hc2), (cm_root _ _ Hc1)).
  assert (heap w3 ((root_offset_pointer_ w3, le_bytes 8 (addr_of t)) :: node_cell r n :: R)) as Hh3'.
  { rewrite Hr3. eapply heap_perm; [|exact Hh3]. apply perm_swap. }
  destruct (heap_update_root w3 _ (addr_of t) r Hh3' Hat) as (w4 & Hu & Hh4 & Hc4 & Hs4).
  exists r, w4. cbv zeta. fold n. split; [|split; [|split]].
  - unfold setup_new_root. erewrite bind_done by exact Hal. erewrite bind_done by exact Hg. cbv zeta.
    rewrite <-Ha1. fold (root_node (Z.of_nat (S l)) k (addr_of s1) (addr_of s2)). fold n. erewrite bind_done by exact Hw. erewrite bind_done by reflexivity.
    erewrite bind_done by exact Hu. by erewrite bind_done by reflexivity.
  - unfold root_cell. rewrite (cm_root _ _ Hc4). done.
  - by do 3 (etrans; [eassumption|]).
  - intros m. rewrite Hs4, Hs3, Hs2. apply Hn1.
Qed.

(** ** Locking, writing back and releasing a node *)

Lemma lock_node_run w a n R :
  heap w (node_cell a n :: R) → node_ok n → lock (iheader n) = 0 →
  ∃ w', perform_all (C := C) [mkOp (lock_address a) (op_cas 0 1); mkOp a (op_read true (Z.of_nat sizeof_InternalNode))] w =
          Done (true, [out_expected 0; out_bytes (enc_InternalNode (set_lock 1 n))]) w' ∧
        heap w' (node_cell a (set_lock 1 n) :: R) ∧ calm w w' ∧ w_slabs w' = w_slabs w.
Proof.
  intros Hh Hok Hlk. pose proof (hp_blocks _ _ Hh) as Hb. unfold node_cell in Hb. rewrite <-(set_lock_id n Hlk), enc_set_lock in Hb.
  destruct (cell_lock _ _ _ _ _ [mkOp a (op_read true (Z.of_nat sizeof_InternalNode))] Hb) as (c' & Hc & Hb' & Hst). rewrite <-enc_set_lock in Hb'.
  rewrite (cell_read _ _ _ a (enc_InternalNode (set_lock 1 n)) _ [] Hb'), ops_nil in Hc;
    [|left|apply length_enc_InternalNode, Hok].
  eapply heap_batch; [exact Hh|exact Hc|exact Hb'|exact Hst].
Qed.

Lemma release_cell slabs c a n R ops :
  blocks slabs c (node_cell a (set_lock 1 n) :: R) → lock (iheader n) = 0 →
  ∃ c', ops_in_order (get_release_node_op a :: ops) c = cons_out (out_old 1) (ops_in_order ops c') ∧
        blocks slabs c' (node_cell a n :: R) ∧ still c c'.
Proof.
  intros Hb Hlk. unfold node_cell in Hb. rewrite enc_set_lock in Hb.
  destruct (cell_release _ _ _ _ _ ops Hb) as (c' & Hc & Hb' & Hst). rewrite <-enc_set_lock, set_lock_id in Hb' by done.
  by exists c'.
Qed.

Lemma release_node_run w a n R :
  heap w (node_cell a (set_lock 1 n) :: R) → lock (iheader n) = 0 →
  ∃ w', perform_all (C := C) [get_release_node_op a] w = Done (true, [out_old 1]) w' ∧
        heap w' (node_cell a n :: R) ∧ calm w w' ∧ w_slabs w' = w_slabs w.
Proof.
  intros Hh Hlk. destruct (release_cell _ _ a n R [] (hp_blocks _ _ Hh) Hlk) as (c' & Hc & Hb & Hst). rewrite ops_nil in Hc.
  eapply heap_batch; [exact Hh|exact Hc|exact Hb|exact Hst].
Qed.

Lemma write_release_run w a n n' R :
  heap w (node_cell a (set_lock 1 n) :: R) → node_ok n → node_ok n' → lock (iheader n') = 0 →
  ∃ w', perform_all (C := C) [write_op a (enc_InternalNode (set_lock 1 n')); get_release_node_op a] w = Done (true, [out_none; out_old 1]) w' ∧
        heap w' (node_cell a n' :: R) ∧ calm w w' ∧ w_slabs w' = w_slabs w.
Proof.
  intros Hh Hok Hok' Hlk.
  destruct (cell_write _ _ _ _ _ (enc_InternalNode (set_lock 1 n')) [get_release_node_op a] (hp_blocks _ _ Hh) (enc_InternalNode_bytes _)) as (c1 & H1 & Hb1 & Hst1).
  { rewrite !length_enc_InternalNode; [done|apply Hok|apply Hok']. }
  destruct (release_cell _ _ a n' R [] Hb1 Hlk) as (c' & Hc & Hb & Hst). rewrite Hc, ops_nil in H1.
  eapply heap_batch; [exact Hh|exact H1|exact Hb|by etrans].
Qed.

(** ** Inserting an entry one level up *)

(** What an attempt does once it holds the lock of the node. *)
Definition change_node junk (insert_up : Z → GlobalAddress → Z → M (World Q C) bool) (a : GlobalAddress) (n : InternalNode)
    (k : Z) (x : GlobalAddress) : M (World Q C) (Z * option Ent + bool) :=
  batch_ops ← (if Z.of_nat branch_factor <=? last_index (iheader n) + 1
               then _ ← split_internal_node junk insert_up a n k x; mret []
               else mret [write_op a (enc_InternalNode (insert_entry junk k x n))]);
  r ← perform_all (batch_ops ++ [get_release_node_op a]);
  _ ← assert_ r.1;
  mret (inr true).

Lemma attempt_found fuel junk insert_up k x lv w w1 a n R :
  find_node (C := C) (Ent := Ent) fuel k lv true true w = Done (FOUND, a, None) w1 →
  heap w1 (node_cell a n :: R) → node_ok n → lock (iheader n) = 0 → level (iheader n) = lv →
  fence_first (iheader n) ≤ k < fence_second (iheader n) → (last_nat n < branch_factor)%nat → has_key k n = false →
  ∃ w2, heap w2 (node_cell a (set_lock 1 n) :: R) ∧ calm w1 w2 ∧ w_slabs w2 = w_slabs w1 ∧
    insert_internal_attempt (C := C) (Ent := Ent) fuel junk insert_up k x lv (0, None) w =
      change_node junk insert_up a (set_lock 1 n) k x w2.
Proof.
  intros Hf Hh Hok Hlk Hlv Hk Hlast Hhk.
  destruct (stats_if_run record_cache_miss w1) as (w1' & Hst & Hq). destruct (heap_quiet _ _ _ Hq Hh) as (Hh1 & Hc1 & Hs1 & _).
  destruct (lock_node_run w1' a n R Hh1 Hok Hlk) as (w2 & Hl & Hh2 & Hc2 & Hs2).
  exists w2. split; [done|]. split; [by etrans|]. split; [by rewrite Hs2|].
  unfold insert_internal_attempt. cbn [Z.ltb Z.compare]. erewrite bind_done by reflexivity. cbn [Z.eqb].
  erewrite bind_done by exact Hf. cbn beta iota. change (bool_decide (FOUND ≠ UNKNOWN)) with true. erewrite bind_done by reflexivity.
  change (bool_decide (FOUND = NO_SUCH_LEVEL)) with false. change (bool_decide (FOUND ≠ FOUND)) with false. cbv iota.
  erewrite bind_done by exact Hst. erewrite bind_done by exact Hl. cbn [fst snd]. erewrite bind_done by reflexivity.
  cbn [lookup list_lookup expected_after Z.eqb negb out_data]. cbv zeta.
  rewrite dec_enc_InternalNode by (apply set_lock_ok; [unfold in_width; lia|done]). cbn [set_lock iheader level fence_first fence_second last_index].
  rewrite Hlv, Z.eqb_refl. erewrite bind_done by reflexivity.
  rewrite (proj2 (Z.ltb_ge _ _)), (proj2 (Z.leb_gt _ _)) by lia. cbn [orb].
  unfold last_nat in Hlast. rewrite (proj2 (Z.ltb_lt _ _)) by lia. cbn [negb].
  change (has_key k (set_lock 1 n)) with (has_key k n). rewrite Hhk. done.
Qed.

(** The split of a full node that is locked, up to the call for the level above. *)
Lemma split_internal_run junk insert_up a n k x w R l n1 n2 mk :
  heap w (node_cell a (set_lock 1 n) :: R) → S (last_nat n) = branch_factor → split_node junk k x n = (n1, n2, mk) →
  node_ok n → node_ok n1 → node_ok n2 → level (iheader n1) = Z.of_nat (S l) → (S (last_nat n1) < branch_factor)%nat → Z.of_nat (S (S l)) < 2 ^ 64 →
  (0 < nfree (w_slabs w) sizeof_InternalNode)%nat →
  ∃ x2 w2, heap w2 (node_cell a (set_lock 1 n1) :: node_cell x2 n2 :: R) ∧ calm w w2 ∧
    (∀ m, (nfree (w_slabs w) m ≤ S (nfree (w_slabs w2) m))%nat) ∧
    (∀ w3, insert_up mk x2 (Z.of_nat (S (S l))) w2 = Done true w3 →
     split_internal_node (C := C) junk insert_up a (set_lock 1 n) k x w = Done false w3).
Proof.
  intros Hh Hfull Hsp Hok Hok1 Hok2 Hlv Hlast Hl Hfree.
  destruct (heap_allocate w _ sizeof_InternalNode Hh Hfree) as (x2 & bs & w1 & Hal & Hh1 & Hbs & Hc1 & Hn1).
  destruct (heap_write_two w1 R x2 bs a (enc_InternalNode (set_lock 1 n)) (enc_InternalNode n2) (enc_InternalNode (set_lock 1 n1)))
    as (w2 & Hw & Hh2 & Hc2 & Hs2); [exact Hh1|apply enc_InternalNode_bytes..| | |].
  { rewrite length_enc_InternalNode; [done|apply Hok2]. }
  { rewrite !length_enc_InternalNode; [done|apply Hok|apply Hok1]. }
  exists x2, w2. split; [eapply heap_perm; [apply perm_swap|exact Hh2]|]. split; [by etrans|]. split; [by rewrite Hs2|]. intros w3 Hup.
  unfold split_internal_node. rewrite split_node_lock, Hsp. change (last_nat (set_lock 1 n)) with (last_nat n). rewrite Hfull, Nat.eqb_refl.
  erewrite bind_done by reflexivity. change (last_nat (set_lock 1 n1)) with (last_nat n1). rewrite (proj2 (Nat.ltb_lt _ _)) by lia.
  erewrite bind_done by reflexivity. erewrite bind_done by exact Hal. erewrite bind_done by exact Hw. erewrite bind_done by reflexivity.
  cbn [set_lock iheader level]. rewrite Hlv, wrap_small by (unfold in_width; lia).
  replace (Z.of_nat (S l) + 1) with (Z.of_nat (S (S l))) by lia. erewrite bind_done by exact Hup. by erewrite bind_done by reflexivity.
Qed.

(** ** All the levels *)

(** [w'] is [w] after the children below the first [j] levels became [xs]: the
    number of levels is the same or one more. *)
Definition grown w w' (l j : nat) (xs : list span) R : Prop :=
  ∃ g t', (g ≤ 1)%nat ∧ (1 ≤ g + j)%nat ∧ heap w' (root_cell w' t' :: tcells (g + j) t' ++ R) ∧ calm w w' ∧
    top (g + j) (g + l) key_min key_max t' ∧ flat (g + j) key_min key_max t' = xs ∧
    ∀ m, (nfree (w_slabs w) m ≤ S j + nfree (w_slabs w') m)%nat.

Lemma entry_done fuel junk levels k x lv w w' :
  insert_internal_attempt (C := C) (Ent := Ent) fuel junk (insert_internal_entry (Ent := Ent) fuel junk levels) k x lv (0, None) w = Done (inr true) w' →
  insert_internal_entry (C := C) (Ent := Ent) fuel junk (S levels) k x lv w = Done true w'.
Proof. intros H. cbn [insert_internal_entry]. by erewrite bind_done by (apply loop_done; exact H). Qed.

(** The split reached the root: a new root is made. *)
Lemma new_root_run fuel junk insert_up w R l t k s1 s2 :
  heap w (root_cell w t :: R) → faunus_cache_ w = None → ga_ok (addr_of t) → root_head (cl w) (addr_of t) l →
  addr_of s1 = addr_of t → ga_ok (addr_of s2) →
  (2 ≤ branch_factor)%nat → key_min < k < key_max → Z.of_nat (S l) < 2 ^ 64 → (0 < nfree (w_slabs w) sizeof_InternalNode)%nat →
  ∃ w', insert_internal_attempt (C := C) (Ent := Ent) fuel junk insert_up k (addr_of s2) (Z.of_nat (S l)) (0, None) w = Done (inr true) w' ∧
    grown w w' l 0 [(key_min, k, s1); (k, key_max, s2)] R.
Proof.
  intros Hh Hc Hat Hhd Ha1 Ha2 H2 Hk Hl Hfree.
  destruct (find_node_none fuel k true w _ l (addr_of t) Hh) as (w1 & Hf & Hq); [left|done|done|done|].
  destruct (heap_quiet _ _ _ Hq Hh) as (Hh1 & Hc1 & Hs1 & _).
  assert (root_cell w1 t = root_cell w t) as Hrc by (unfold root_cell; by rewrite (cm_root _ _ Hc1)). rewrite <-Hrc, <-Hs1 in *.
  destruct (setup_new_root_run w1 R l t k s1 s2 Hh1) as (r & w2 & Hrun & Hh2 & Hc2 & Hnf); try done.
  destruct (root_node_shape l k s1 s2) as [Hn Hsp]; try done; [by rewrite Ha1|].
  set (n := root_node (Z.of_nat (S l)) k (addr_of s1) (addr_of s2)) in *. exists w2. split.
  - unfold insert_internal_attempt. cbn [Z.ltb Z.compare]. erewrite bind_done by reflexivity. cbn [Z.eqb].
    erewrite bind_done by exact Hf. cbn beta iota. change (bool_decide (NO_SUCH_LEVEL ≠ UNKNOWN)) with true. erewrite bind_done by reflexivity.
    change (bool_decide (NO_SUCH_LEVEL = NO_SUCH_LEVEL)) with true. cbv iota. by erewrite bind_done by exact Hrun.
  - exists 1%nat, (TNode r n [s1; s2]). split; [lia|]. split; [lia|]. split; [|split; [by etrans|split]].
    + rewrite Nat.add_0_r, tcells1_node. exact Hh2.
    + rewrite Nat.add_0_r. apply top1_node. by exists l, r, n, [s1; s2].
    + rewrite Nat.add_0_r, flat1_node. split; [exact Hsp|]. intros m. rewrite <-Hs1. apply Hnf.
Qed.

(** The node has room. *)
Lemma change_room junk insert_up w R l j t PRE lo hi a n ts POST m1 b b' s m2 k s1 s2 :
  heap w (node_cell a (set_lock 1 n) :: root_cell w t :: tcells j t ++ tcellss PRE ++ tcellss POST ++ R) →
  top j l key_min key_max t → (S j ≤ l)%nat → flat j key_min key_max t = PRE ++ (lo, hi, TNode a n ts) :: POST →
  tops (l - j) PRE → tops (l - j) POST →
  nshape (l - S j) lo hi n ts → spans lo hi (seps n) ts = m1 ++ (b, b', s) :: m2 → b < k < b' → key_ok k →
  addr_of s1 = addr_of s → ga_ok (addr_of s2) → (S (last_nat n) < branch_factor)%nat → Z.of_nat branch_factor < 2 ^ 64 →
  ∃ w', change_node junk insert_up a (set_lock 1 n) k (addr_of s2) w = Done (inr true) w' ∧
    grown w w' l (S j) (flats PRE ++ (m1 ++ (b, k, s1) :: (k, b', s2) :: m2) ++ flats POST) R.
Proof.
  intros Hh Ht Hjl Hf Hp1 Hp2 Hn Hsp Hk Hkok Ha1 Ha2 Hroom Hbf.
  destruct (nshape_insert junk _ lo hi n ts m1 b b' s m2 k s1 s2 Hn Hsp Hk Hkok Ha1 Ha2 Hroom Hbf) as [Hn' Hsp'].
  set (n' := insert_entry junk k (addr_of s2) n) in *. set (ts' := trees m1 ++ s1 :: s2 :: trees m2) in *.
  destruct (write_release_run w a n n' _ Hh (ns_ok _ _ _ _ _ Hn) (ns_ok _ _ _ _ _ Hn') (ns_lock _ _ _ _ _ Hn')) as (w' & Hrun & Hh' & Hc & Hs').
  destruct (flat_replace j l key_min key_max t PRE lo hi (TNode a n ts) POST (TNode a n' ts') Ht Hf eq_refl) as (t' & Ht' & Hf' & Hcells & Hat).
  assert (tops (l - j) [(lo, hi, TNode a n' ts')]) as Hp.
  { constructor; [|constructor]. apply top1_node. exists (l - S j)%nat, a, n', ts'. split; [lia|done]. }
  destruct (flat_close j l key_min key_max t' PRE [(lo, hi, TNode a n' ts')] POST Ht' ltac:(lia) Hf' Hp1 Hp Hp2) as (H1 & H2 & H3).
  exists w'. split.
  - unfold change_node. cbn [set_lock iheader last_index]. unfold last_nat in Hroom. destruct (ns_sorted _ _ _ _ _ Hn) as (_ & H0 & _).
    rewrite (proj2 (Z.leb_gt _ _)) by lia. erewrite bind_done by reflexivity. cbn [app]. rewrite insert_entry_lock. fold n'.
    erewrite bind_done by exact Hrun. by erewrite bind_done by reflexivity.
  - exists 0%nat, t'. split; [lia|]. split; [lia|]. cbn [Nat.add]. split; [|split; [done|split; [done|split]]].
    + eapply heap_perm; [|exact Hh']. rewrite H3, Hcells. unfold root_cell. rewrite Hat, (cm_root _ _ Hc).
      change (tcellss [(lo, hi, TNode a n' ts')]) with (tcells 1 (TNode a n' ts') ++ []).
      rewrite tcells1_node. solve_Permutation.
    + rewrite H2. do 2 f_equal. change (flats [(lo, hi, TNode a n' ts')]) with (flat 1 lo hi (TNode a n' ts') ++ []). 
      rewrite flat1_node, app_nil_r. done.
    + intros m. rewrite Hs'. lia.
Qed.

(** [insert_internal_entry] with [levels] calls puts a child below the first [j]
    levels. *)
Definition raises fuel junk (levels j : nat) : Prop := ∀ l t w R pre b b' s post k s1 s2,
  heap w (root_cell w t :: tcells j t ++ R) → faunus_cache_ w = None → top j l key_min key_max t → (j ≤ l)%nat →
  flat j key_min key_max t = pre ++ (b, b', s) :: post → b < k < b' → addr_of s1 = addr_of s → ga_ok (addr_of s2) →
  ga_ok (addr_of t) → (j = 0%nat → root_head (cl w) (addr_of t) l) →
  Z.of_nat (S l) < 2 ^ 64 → (l < Pos.to_nat fuel)%nat → (S j ≤ nfree (w_slabs w) sizeof_InternalNode)%nat →
  ∃ w', insert_internal_entry (C := C) (Ent := Ent) fuel junk levels k (addr_of s2) (Z.of_nat (S (l - j))) w = Done true w' ∧
    grown w w' l j (pre ++ (b, k, s1) :: (k, b', s2) :: post) R.

(** The cell of an internal node has its level, locked or not. *)
Lemma node_root_head w a n R l v :
  heap w (node_cell a (set_lock v n) :: R) → in_width 64 v → node_ok n → level (iheader n) = Z.of_nat l → root_head (cl w) a l.
Proof.
  intros Hh Hv Hok Hl. destruct (blocks_cell _ _ _ _ (hp_blocks _ _ Hh) (list_elem_of_here _ _)) as (_ & Hho & _). cbn [fst snd node_cell] in Hho.
  pose proof (set_lock_ok v n Hv Hok) as Hok'. pose proof Hho as (m & Hm & _). rewrite length_enc_InternalNode in Hm by apply Hok'.
  exists m. split; [done|]. by rewrite (node_at _ _ _ _ Hho Hok' Hm).
Qed.

Lemma top_readable w j l lo hi t R :
  heap w (tcells j t ++ R) → (1 ≤ j)%nat → top j l lo hi t → readable (cl w) (addr_of t) sizeof_InternalNode.
Proof.
  intros Hh Hj Ht. destruct j as [|j]; [lia|]. destruct l as [|l], t as [|a n ts]; try done. destruct Ht as [Hn _].
  destruct (blocks_cell _ _ _ (node_cell a n) (hp_blocks _ _ Hh)) as (_ & Hho & _); [left|].
  apply holds_readable in Hho. cbn [fst snd node_cell] in Hho. rewrite length_enc_InternalNode in Hho; [done|]. apply Hn.
Qed.

(** The node is full: it is split and its new half goes one level up. *)
Lemma change_full fuel junk levels w R l j t PRE lo hi a n ts POST m1 b b' s m2 k s1 s2 :
  raises fuel junk levels j →
  heap w (node_cell a (set_lock 1 n) :: root_cell w t :: tcells j t ++ tcellss PRE ++ tcellss POST ++ R) → faunus_cache_ w = None →
  top j l key_min key_max t → (S j ≤ l)%nat → flat j key_min key_max t = PRE ++ (lo, hi, TNode a n ts) :: POST →
  tops (l - j) PRE → tops (l - j) POST →
  nshape (l - S j) lo hi n ts → spans lo hi (seps n) ts = m1 ++ (b, b', s) :: m2 → b < k < b' → key_ok k →
  addr_of s1 = addr_of s → ga_ok (addr_of s2) → ga_ok (addr_of t) → S (last_nat n) = branch_factor → (3 ≤ branch_factor)%nat →
  Z.of_nat branch_factor < 2 ^ 64 → Z.of_nat (S l) < 2 ^ 64 → (l < Pos.to_nat fuel)%nat → (S (S j) ≤ nfree (w_slabs w) sizeof_InternalNode)%nat →
  ∃ w', change_node junk (insert_internal_entry (Ent := Ent) fuel junk levels) a (set_lock 1 n) k (addr_of s2) w = Done (inr true) w' ∧
    grown w w' l (S j) (flats PRE ++ (m1 ++ (b, k, s1) :: (k, b', s2) :: m2) ++ flats POST) R.
Proof.
  intros Hup Hh Hc Ht Hjl Hf Hp1 Hp2 Hn Hsp Hk Hkok Ha1 Ha2 Hat Hfull H3 Hbf Hl Hfuel Hfree.
  pose proof (nshape_split junk _ lo hi n ts m1 b b' s m2 k s1 s2 Hn Hsp Hk Hkok Ha1 Ha2 Hfull H3 Hbf) as Hspl.
  destruct (split_node junk k (addr_of s2) n) as [[n1 n2] mk] eqn:E. destruct Hspl as (ts1 & ts2 & Hn1 & Hn2 & Hmk & _ & Hlast & Hsp').
  destruct (split_internal_run junk (insert_internal_entry (Ent := Ent) fuel junk levels) a n k (addr_of s2) w _ (l - S j) n1 n2 mk Hh Hfull E)
    as (x2 & w2 & Hh2 & Hc2 & Hnf & Hrun); try apply Hn; try apply Hn1; try apply Hn2; try done; try lia.
  set (R2 := node_cell a (set_lock 1 n1) :: node_cell x2 n2 :: tcellss PRE ++ tcellss POST ++ R).
  assert (heap w2 (root_cell w2 t :: tcells j t ++ R2)) as Hh2'.
  { eapply heap_perm; [|exact Hh2]. unfold root_cell, R2. rewrite (cm_root _ _ Hc2). solve_Permutation. }
  destruct (blocks_cell _ _ _ (node_cell x2 n2) (hp_blocks _ _ Hh2)) as (Hx2 & _); [right; left|]. cbn [fst node_cell] in Hx2.
  destruct (Hup l t w2 R2 PRE lo hi (TNode a n ts) POST mk (TNode a n1 ts1) (TNode x2 n2 ts2) Hh2') as (w3 & Hin & g & t' & Hg & Hg1 & Hh3 & Hc3 & Ht' & Hf' & Hnf3);
    try done; try lia.
  { by rewrite (cm_cache _ _ Hc2). }
  { intros ->. cbn [flat] in Hf. destruct PRE as [|? PRE]; [|injection Hf as _ Hf; by destruct PRE]. injection Hf as _ _ -> _. cbn [addr_of].
    eapply node_root_head; [exact Hh2|unfold in_width; lia|apply Hn1|]. rewrite (ns_level _ _ _ _ _ Hn1). f_equal. lia. }
  { specialize (Hnf sizeof_InternalNode). lia. }
  cbn [addr_of] in Hin. replace (S (l - j)) with (S (S (l - S j))) in Hin by lia. specialize (Hrun w3 Hin).
  assert (heap w3 (node_cell a (set_lock 1 n1) :: root_cell w3 t' :: tcells (g + j) t' ++ node_cell x2 n2 :: tcellss PRE ++ tcellss POST ++ R)) as Hh3'.
  { eapply heap_perm; [|exact Hh3]. unfold R2. solve_Permutation. }
  destruct (release_node_run w3 a n1 _ Hh3' (ns_lock _ _ _ _ _ Hn1)) as (w4 & Hrel & Hh4 & Hc4 & Hs4).
  set (xs := [(lo, mk, TNode a n1 ts1); (mk, hi, TNode x2 n2 ts2)]).
  assert (tops (g + l - (g + j)) xs) as Hp.
  { replace (g + l - (g + j))%nat with (S (l - S j)) by lia.
    constructor; [|constructor; [|constructor]]; apply top1_node; eexists _, _, _, _; (split; [done|]); (split; [done|]); done. }
  replace (l - j)%nat with (g + l - (g + j))%nat in Hp1, Hp2 by lia.
  destruct (flat_close (g + j) (g + l) key_min key_max t' PRE xs POST Ht' ltac:(lia) Hf' Hp1 Hp Hp2) as (H1 & H2 & H4).
  exists w4. split.
  - unfold change_node. cbn [set_lock iheader last_index]. unfold last_nat in Hfull. destruct (ns_sorted _ _ _ _ _ Hn) as (_ & H0 & _).
    rewrite (proj2 (Z.leb_le _ _)) by lia. erewrite bind_done by (erewrite bind_done by exact Hrun; reflexivity).
    cbn [app]. erewrite bind_done by exact Hrel. by erewrite bind_done by reflexivity.
  - exists g, t'. rewrite Nat.add_succ_r. split; [done|]. split; [lia|]. split; [|split; [by do 2 (etrans; [eassumption|])|split; [done|split]]].
    + eapply heap_perm; [|exact Hh4]. rewrite H4. unfold root_cell. rewrite (cm_root _ _ Hc4).
      change (tcellss xs) with (tcells 1 (TNode a n1 ts1) ++ tcells 1 (TNode x2 n2 ts2) ++ []). rewrite !tcells1_node. solve_Permutation.
    + rewrite H2. do 2 f_equal. change (flats xs) with (flat 1 lo mk (TNode a n1 ts1) ++ flat 1 mk hi (TNode x2 n2 ts2) ++ []).
      by rewrite !flat1_node, app_nil_r.
    + intros m. specialize (Hnf m). specialize (Hnf3 m). rewrite Hs4. lia.
Qed.

Lemma key_between b b' k : key_min ≤ b → b' ≤ key_max → b < k < b' → key_ok k.
Proof. intros H1 H2 Hk. pose proof key_max_ok as [_ ?]. unfold key_ok, key_min in *. lia. Qed.

Lemma insert_internal_raises fuel junk j : (3 ≤ branch_factor)%nat → Z.of_nat branch_factor < 2 ^ 64 →
  ∀ levels, (j < levels)%nat → raises fuel junk levels j.
Proof.
  intros H3 Hbf. induction j as [|j IH]; intros [|levels] Hlv; try lia;
    intros l t w R pre b b' s post k s1 s2 Hh Hc Ht Hjl Hf Hk Ha1 Ha2 Hat Hhd Hl Hfuel Hfree.
  - cbn [flat] in Hf. destruct pre as [|? pre]; [|injection Hf as _ Hf; by destruct pre]. injection Hf as <- <- -> <-.
    destruct (new_root_run fuel junk (insert_internal_entry (Ent := Ent) fuel junk levels) w R l s k s1 s2) as (w' & Hrun & Hg); try done; try lia.
    { by apply Hhd. }
    exists w'. split; [|exact Hg]. rewrite Nat.sub_0_r. by apply entry_done.
  - destruct (flat_parent j l key_min key_max t pre (b, b', s) post Ht Hf)
      as (PRE & lo & hi & a & n & ts & POST & m1 & m2 & Hfj & Hn & Hsp & -> & -> & Htj & Hcells & Hp1 & Hp2).
    destruct (nshape_new_key _ _ _ _ _ _ _ _ _ _ k Hn Hsp Hk) as [Hhk Hlh].
    assert ((lo, hi, TNode a n ts) ∈ flat j key_min key_max t) as Hin by (rewrite Hfj; apply elem_of_app; right; left).
    destruct (flat_bounds _ _ _ _ _ _ _ _ Htj Hin) as [Hb1 Hb2]. pose proof (key_between lo hi k Hb1 Hb2 Hlh) as Hkok.
    destruct (find_node_top fuel k j true true w l t lo hi (TNode a n ts) R Hh Hc Ht Hin) as (w1 & Hfind & Hq); [lia|lia|done|].
    destruct (heap_quiet _ _ _ Hq Hh) as (Hh1 & Hc1 & Hs1 & _). pose proof Hn as [Hok Hso Hlk Hlev Hf1 Hf2 _ _ _].
    assert (heap w1 (node_cell a n :: root_cell w1 t :: tcells j t ++ tcellss PRE ++ tcellss POST ++ R)) as Hh1'.
    { eapply heap_perm; [|exact Hh1]. rewrite Hcells. unfold root_cell. rewrite (cm_root _ _ Hc1). solve_Permutation. }
    destruct (attempt_found fuel junk (insert_internal_entry (Ent := Ent) fuel junk levels) k (addr_of s2) (Z.of_nat (l - j)) w w1 a n _ Hfind Hh1' Hok Hlk)
      as (w2 & Hh2 & Hc2 & Hs2 & Hatt); [rewrite Hlev; f_equal; lia|lia|destruct Hok as (_ & <- & _); apply Hso|done|].
    assert (root_cell w1 t = root_cell w2 t) as Hrc by (unfold root_cell; by rewrite (cm_root _ _ Hc2)). rewrite Hrc in Hh2.
    assert (last_nat n < branch_factor)%nat as Hlast by (destruct Hok as (_ & <- & _); apply Hso).
    assert (∃ w', change_node junk (insert_internal_entry (Ent := Ent) fuel junk levels) a (set_lock 1 n) k (addr_of s2) w2 = Done (inr true) w' ∧
      grown w2 w' l (S j) (flats PRE ++ (m1 ++ (b, k, s1) :: (k, b', s2) :: m2) ++ flats POST) R) as (w' & Hrun & g & t' & Hg1 & Hg2 & Hg3 & Hg4 & Hg5 & Hg6 & Hg7).
    { destruct (decide (S (last_nat n) < branch_factor)%nat) as [Hroom|Hfull].
      - by eapply change_room.
      - eapply change_full; [apply IH; lia|exact Hh2|..]; try done; try lia.
        + by rewrite (cm_cache _ _ Hc2), (cm_cache _ _ Hc1).
        + rewrite Hs2, Hs1. done. }
    exists w'. split.
    + apply entry_done. replace (S (l - S j)) with (l - j)%nat by lia. by rewrite Hatt.
    + exists g, t'. split; [done|]. split; [done|]. split; [done|]. split; [by do 2 (etrans; [eassumption|])|]. split; [done|].
      split; [rewrite Hg6, <-!app_assoc; done|]. intros m. specialize (Hg7 m). rewrite Hs2, Hs1 in Hg7. lia.
Qed.
End runs.
