(* ===== verification/FaunusGrow.v ===== *)
(** * Splits of leaves

    The run of [split_leaf] (src/kv_index/faunus_index.cpp) on a leaf of an index
    that satisfies [index_inv], by a thread that works alone and without a cache:
    it locks the leaf and its slots, reads the keys, distributes the items over the
    leaf and a new one and puts the new leaf into the levels above (FaunusSplit.v).
    The contents of the index do not change. *)

From S2P Require Import Prelude GlobalAddress RdmaSim ThreadStats Queue MemoryServer Slab RdmaManager KVBlock FaunusNode FaunusIndex FaunusTree FaunusRead FaunusFrame FaunusInsert FaunusUpsert FaunusInit FaunusHeap FaunusShape FaunusSplit.

(** ** The items of a leaf in two halves *)

Section halves.
Context {cfg : FaunusConfig}.
Implicit Types (leaf : LeafNode) (items : list KVItem) (ps : list (KVBlock * KVItem)).

Lemma map_put_perm k b l : k ∉ mkeys l → map_put k b l ≡ₚ (k, b) :: l.
Proof.
  induction l as [|[k' b'] l IH]; [done|]. unfold mkeys. cbn [map map_put fst]. rewrite not_elem_of_cons. intros [Hne Hni].
  destruct (Z.ltb_spec k k'); [done|]. destruct (Z.ltb_spec k' k); [|lia]. rewrite (IH Hni). apply perm_swap.
Qed.

Lemma entries_map_perm kbs : NoDup (mkeys kbs) → entries_map kbs ≡ₚ kbs.
Proof.
  induction kbs as [|[k b] kbs IH] using rev_ind; [done|]. unfold mkeys. rewrite map_app. intros (H1 & H2 & _)%list.NoDup_app.
  rewrite entries_map_snoc, map_put_perm.
  - rewrite IH by done. apply Permutation_cons_append.
  - destruct (entries_map_spec kbs) as (_ & Hk & _). rewrite Hk. intros Hin. apply (H2 k Hin). cbn. left.
Qed.

(** A slot word with its item, as the split sees it: the key and the locked word. *)
Definition keyed (p : KVBlock * KVItem) : Z * KVBlock := (item_key p.2, setLocked true p.1).

Lemma zip_keyed bs items : length bs = length items →
  zip (map item_key items) (map (setLocked true) bs) = map keyed (zip bs items).
Proof.
  revert items. induction bs as [|b bs IH]; intros [|kv items] Hl; try done. cbn [map zip_with]. f_equal. apply IH. by injection Hl.
Qed.

Lemma live_locked bs :
  filter (λ b, isFree b = false) (map (setLocked true) bs) = map (setLocked true) (filter (λ b, isFree b = false) bs).
Proof.
  induction bs as [|b bs IH]; [done|]. cbn [map]. rewrite !filter_cons, isFree_setLocked. case_decide; cbn [map]; by rewrite IH.
Qed.

Lemma unlock_keyed ps :
  Forall (λ p, isLocked p.1 = false ∧ in_width 64 p.1) ps → map unlock (map keyed ps) = map fst ps.
Proof.
  induction 1 as [|[b kv] ps [Hl Hw] _ IH]; [done|]. cbn [map fst snd keyed] in *. rewrite IH. f_equal.
  unfold unlock, keyed. cbn [fst snd]. rewrite setLocked_twice by done. rewrite <-Hl. by apply setLocked_same.
Qed.

(** The sorted entries of a split. *)
Lemma split_entries lo hi leaf items :
  lshape lo hi leaf items →
  ∃ ps, entries_map (zip (map item_key items) (map (setLocked true) (live leaf))) = map keyed ps ∧ ps ≡ₚ zip (live leaf) items ∧
    sorted (map (λ p, item_key p.2) ps) ∧ length ps = length items ∧ map snd ps ≡ₚ items ∧
    Forall (λ p, isLocked p.1 = false ∧ in_width 64 p.1 ∧ isFree p.1 = false ∧ item_fits p.1 p.2 ∧ lo ≤ item_key p.2 < hi) ps.
Proof.
  intros [Hok Hhd Hit Hlk Hnd Hrg]. pose proof (proj1 (Forall2_zip _ _ _) Hit) as [Hlen Hz]. rewrite zip_keyed by done.
  assert (mkeys (map keyed (zip (live leaf) items)) = map item_key items) as Hk.
  { unfold mkeys. rewrite map_map. change (λ x, (keyed x).1) with (λ x : KVBlock * KVItem, item_key x.2).
    rewrite <-(map_map snd item_key). f_equal. by apply snd_zip; lia. }
  destruct (Permutation_map_inv keyed (zip (live leaf) items) (l1 := entries_map (map keyed (zip (live leaf) items)))) as (ps & Hps & Hp).
  { apply entries_map_perm. by rewrite Hk. }
  exists ps. split; [done|]. split; [by symmetry|]. destruct (entries_map_spec (map keyed (zip (live leaf) items))) as (Hs & _).
  rewrite Hps in Hs. unfold mkeys in Hs. rewrite map_map in Hs. split; [exact Hs|].
  assert (map snd ps ≡ₚ items) as Hsnd by (rewrite <-Hp; rewrite <-(snd_zip (live leaf) items) at 2 by lia; done).
  split; [by rewrite <-Hsnd, length_map|]. split; [done|].
  apply list.Forall_forall. intros [b kv] Hin. rewrite <-Hp in Hin. cbn [fst snd]. rewrite list.Forall_forall in Hz. specialize (Hz _ Hin).
  apply elem_of_zip_l in Hin as Hb. apply elem_of_zip_r in Hin as Hkv. unfold live in Hb. apply list_elem_of_filter in Hb as [Hfr Hb].
  destruct Hok as (_ & _ & Hw). rewrite list.Forall_forall in Hlk, Hw. rewrite list.Forall_forall in Hrg. split; [by apply Hlk|]. split; [by apply Hw|].
  split; [done|]. split; [done|]. by apply Hrg.
Qed.

(** One half makes a proper leaf. *)
Lemma half_shape lo hi leaf ps li :
  Forall (λ p, item_fits p.1 p.2 ∧ lo ≤ item_key p.2 < hi) ps → NoDup (map item_key (map snd ps)) → live leaf = map fst ps →
  Forall (λ b, isLocked b = false ∧ in_width 64 b) (kv_blocks leaf) → length (kv_blocks leaf) = branch_factor →
  lheader leaf = mkHeader 0 0 lo hi li → key_ok lo → key_ok hi → in_width 64 li → lshape lo hi leaf (map snd ps).
Proof.
  intros Hps Hnd Hl Hb Hlen Hh Hlo Hhi Hli. split.
  - split; [|split; [done|]].
    + rewrite Hh. split; [cbn; unfold in_width; lia|]. split; [cbn; unfold in_width; lia|]. by split_and!.
    + eapply Forall_impl; [|exact Hb]. by intros b [_ ?].
  - by rewrite Hh.
  - rewrite Hl, Forall2_pairs. eapply Forall_impl; [|exact Hps]. by intros p [? _].
  - eapply Forall_impl; [|exact Hb]. by intros b [? _].
  - done.
  - apply Forall_map. eapply Forall_impl; [|exact Hps]. by intros p [_ ?].
Qed.
End halves.

(** ** Locking a leaf with its slots *)

Section locks.
Context {cfg : FaunusConfig}.
Context {Q : Type → Type} `{!ConcurrentQueue Q}.
Context {C Ent : Type} `{!NodeCache C Ent (GlobalAddress * InternalNode)}.
Implicit Types (w : World Q C) (R : list cell).

Definition leaf_cell (a : GlobalAddress) (leaf : LeafNode) : cell := (a, enc_LeafNode leaf).

Lemma cons_outs (c : Cluster Q) os outs : foldr cons_out (Done (true, outs) c) os = Done (true, os ++ outs) c.
Proof. induction os as [|o os IH]; [done|]. cbn [foldr app]. by rewrite IH. Qed.

(** FAAs on the slots from [length pre] on. *)
Lemma slots_faa slabs a h d f R ops : ∀ bs pre (c : Cluster Q),
  Forall (λ b, in_width 64 b ∧ u64 (b + d) = f b) bs → (length pre + length bs)%nat = branch_factor →
  blocks slabs c (leaf_cell a (mkLeaf h (pre ++ bs)) :: R) →
  ∃ c', ops_in_order (map (λ i, mkOp (kvblock_address a i) (op_faa d)) (seq (length pre) (length bs)) ++ ops) c =
          foldr cons_out (ops_in_order ops c') (map out_old bs) ∧
        blocks slabs c' (leaf_cell a (mkLeaf h (pre ++ map f bs)) :: R) ∧ still c c'.
Proof.
  induction bs as [|b bs IH]; intros pre c Hbs Hl Hb; [by exists c|].
  apply Forall_cons_iff in Hbs as [[Hw Hf] Hbs]. cbn [length] in Hl.
  assert (length (kv_blocks (mkLeaf h (pre ++ b :: bs))) = branch_factor) as Hlen by (cbn [kv_blocks]; rewrite length_app; cbn [length]; lia).
  assert (kv_blocks (mkLeaf h (pre ++ b :: bs)) !! length pre = Some b) as Hi by (cbn [kv_blocks]; by rewrite lookup_app_r, Nat.sub_diag by lia).
  cbn [map length seq app foldr].
  destruct (cell_faa slabs c R a _ (sizeof_Header + 8 * length pre) b d
    (map (λ i, mkOp (kvblock_address a i) (op_faa d)) (seq (S (length pre)) (length bs)) ++ ops) Hb) as (c1 & H1 & Hb1 & Hst1).
  { rewrite length_enc_LeafNode by done. unfold sizeof_LeafNode. lia. }
  { by apply slot_bytes. }
  { done. }
  rewrite <-enc_put_slot, Hf in Hb1 by (done || lia). unfold put_slot in Hb1. cbn [lheader kv_blocks] in Hb1.
  rewrite insert_app_r_alt, Nat.sub_diag in Hb1 by lia. cbn [insert list_insert] in Hb1.
  destruct (IH (pre ++ [f b]) c1) as (c' & H2 & Hb2 & Hst2); [done|rewrite length_app; cbn [length]; lia|by rewrite <-app_assoc|].
  exists c'. rewrite length_app in H2. cbn [length] in H2. rewrite Nat.add_1_r in H2. rewrite <-app_assoc in Hb2.
  split; [|split; [exact Hb2|by etrans]]. etrans; [exact H1|]. by rewrite H2.
Qed.

Lemma locked_words bs :
  Forall (λ b, isLocked b = false ∧ in_width 64 b) bs →
  Forall (λ b, in_width 64 b ∧ u64 (b + 1) = setLocked true b) bs ∧
  Forall (λ b, in_width 64 b ∧ u64 (b + -1) = setLocked false b) (map (setLocked true) bs) ∧ map (setLocked false) (map (setLocked true) bs) = bs.
Proof.
  induction 1 as [|b bs [Hl Hw] _ (IH1 & IH2 & IH3)]; [by repeat split|]. pose proof (setLocked_add b Hw Hl) as Ha.
  pose proof (setLocked_width true b Hw) as Hw'. pose proof (setLocked_same b Hw) as Hs. rewrite Hl in Hs.
  assert (setLocked false (setLocked true b) = b) as Hf by (by rewrite setLocked_twice).
  cbn [map]. split_and!; [constructor; [|done]|constructor; [|done]|by rewrite IH3, Hf].
  - split; [done|]. by rewrite Ha, wrap_small.
  - split; [done|]. rewrite Hf, <-Ha. replace (b + 1 + -1) with b by lia. by apply wrap_small.
Qed.

Lemma lock_slots_run w a h bs R :
  heap w (leaf_cell a (mkLeaf h bs) :: R) → length bs = branch_factor → Forall (λ b, isLocked b = false ∧ in_width 64 b) bs →
  ∃ w', perform_all (C := C) (get_lock_unlock_kvblocks a true ++ [mkOp a (op_read true (Z.of_nat sizeof_LeafNode))]) w =
          Done (true, map out_old bs ++ [out_bytes (enc_LeafNode (mkLeaf h (map (setLocked true) bs)))]) w' ∧
        heap w' (leaf_cell a (mkLeaf h (map (setLocked true) bs)) :: R) ∧ calm w w' ∧ w_slabs w' = w_slabs w.
Proof.
  intros Hh Hl Hbs. destruct (locked_words bs Hbs) as (Hup & _).
  destruct (slots_faa _ a h 1 (setLocked true) R [mkOp a (op_read true (Z.of_nat sizeof_LeafNode))] bs [] (cl w) Hup Hl (hp_blocks _ _ Hh))
    as (c' & Hc & Hb & Hst). cbn [length app] in Hc, Hb. rewrite Hl in Hc.
  rewrite (cell_read _ c' _ a (enc_LeafNode (mkLeaf h (map (setLocked true) bs))) sizeof_LeafNode [] Hb) in Hc;
    [|left|apply length_enc_LeafNode; cbn [kv_blocks]; by rewrite length_map].
  rewrite ops_nil in Hc. cbn [cons_out] in Hc. rewrite cons_outs in Hc.
  eapply heap_batch; [exact Hh|exact Hc|exact Hb|exact Hst].
Qed.

(** Releasing the lock of a leaf. *)
Lemma release_leaf_cell slabs (c : Cluster Q) a leaf R ops :
  blocks slabs c (leaf_cell a (set_leaf_lock 1 leaf) :: R) → lock (lheader leaf) = 0 →
  ∃ c', ops_in_order (get_release_node_op a :: ops) c = cons_out (out_old 1) (ops_in_order ops c') ∧
        blocks slabs c' (leaf_cell a leaf :: R) ∧ still c c'.
Proof.
  intros Hb Hlk. unfold leaf_cell in Hb. rewrite enc_set_leaf_lock in Hb.
  destruct (cell_release _ _ _ _ _ ops Hb) as (c' & Hc & Hb' & Hst). rewrite <-enc_set_leaf_lock, set_leaf_lock_id in Hb' by done.
  by exists c'.
Qed.

Lemma unlock_slots_run w a leaf R :
  heap w (leaf_cell a (mkLeaf (lheader (set_leaf_lock 1 leaf)) (map (setLocked true) (kv_blocks leaf))) :: R) → lock (lheader leaf) = 0 →
  length (kv_blocks leaf) = branch_factor → Forall (λ b, isLocked b = false ∧ in_width 64 b) (kv_blocks leaf) →
  ∃ outs w', perform_all (C := C) (get_lock_unlock_kvblocks a false ++ [get_release_node_op a]) w = Done (true, outs) w' ∧
        heap w' (leaf_cell a leaf :: R) ∧ calm w w' ∧ w_slabs w' = w_slabs w.
Proof.
  intros Hh Hlk Hl Hbs. destruct (locked_words _ Hbs) as (_ & Hdown & Hsame). set (h := lheader (set_leaf_lock 1 leaf)) in *.
  destruct (slots_faa _ a h (-1) (setLocked false) R [get_release_node_op a] _ [] (cl w) Hdown ltac:(cbn [length]; by rewrite length_map) (hp_blocks _ _ Hh))
    as (c1 & Hc & Hb & Hst). cbn [length app] in Hc, Hb. rewrite length_map, Hl in Hc. rewrite Hsame in Hb.
  change (mkLeaf h (kv_blocks leaf)) with (set_leaf_lock 1 leaf) in Hb.
  destruct (release_leaf_cell _ _ a leaf R [] Hb Hlk) as (c2 & Hc2 & Hb2 & Hst2). rewrite Hc2, ops_nil in Hc. cbn [cons_out] in Hc.
  rewrite cons_outs in Hc. eexists. eapply heap_batch; [exact Hh|exact Hc|exact Hb2|by etrans].
Qed.
End locks.

(** ** The invariant of the index as a heap *)

Section inv.
Context {cfg : FaunusConfig}.
Context {Q : Type → Type} `{!ConcurrentQueue Q}.
Context {C Ent : Type} `{!NodeCache C Ent (GlobalAddress * InternalNode)}.
Implicit Types (w : World Q C) (t : tree).

Lemma inv_heap w l t :
  index_inv w l t →
  heap w (root_cell w t :: cells_of t) ∧ top l l key_min key_max t ∧ Forall leafy (flat l key_min key_max t) ∧
  readable (cl w) (addr_of t) sizeof_InternalNode ∧ NoDup (map item_key (items_of t)).
Proof.
  intros [Ho _ [Hf Hr Hrok Haok Ht Hrd] Hal]. destruct (stored_parts _ _ _ _ _ Ht) as (H1 & H2 & H3 & H4).
  split; [|split; [done|split; [done|split; [done|by eapply stored_nodup]]]]. split; [done|]. split; [done| |by constructor].
  cbn [map]. rewrite H4. unfold extent, root_cell. cbn [fst snd]. by rewrite length_le_bytes.
Qed.

Lemma heap_inv w l t :
  heap w (root_cell w t :: cells_of t) → top l l key_min key_max t → Forall leafy (flat l key_min key_max t) →
  readable (cl w) (addr_of t) sizeof_InternalNode → Z.of_nat l < 2 ^ 64 → index_inv w l t.
Proof.
  intros [Ho Hb] H1 H2 Hrd Hl. pose proof (blocks_addrs _ _ _ Hb) as Hnd. cbn [map] in Hnd. apply list.NoDup_cons in Hnd as [_ Hnd].
  pose proof Hb as [Hf Hal Hh]. apply Forall_cons_iff in Hh as [Hr Hh].
  pose proof (stored_build (cl w) l key_min key_max t H1 H2 Hh Hnd) as Hst. destruct (stored_parts _ _ _ _ _ Hst) as (_ & _ & _ & He).
  assert (ga_ok (addr_of t)) as Ha.
  { pose proof (addr_of_cell t) as (y & -> & Hy)%list_elem_of_fmap. apply (blocks_cell _ _ _ y Hb). by right. }
  split; [done|done| |].
  - split; try done. by apply (blocks_cell _ _ _ (root_cell w t) Hb); left.
  - cbn [map] in Hal. rewrite He in Hal. unfold extent, root_cell in Hal. cbn [fst snd] in Hal. by rewrite length_le_bytes in Hal.
Qed.
End inv.

(** ** The split of a leaf *)

Section runs.
Context {cfg : FaunusConfig}.
Context {Q : Type → Type} `{!ConcurrentQueue Q}.
Context {C Ent : Type} `{!NodeCache C Ent (GlobalAddress * InternalNode)}.
Implicit Types (w : World Q C) (t : tree) (R : list cell).
Abbreviation icells leaf items := (zip_with item_cell (live leaf) items).

(** The keys of the items. *)
Lemma leaf_keys_run w cs bs items :
  heap w cs → Forall2 (λ b kv, item_cell b kv ∈ cs ∧ item_ok kv) bs items →
  ∃ w', on_net (C := C) (rdma_read_batch (map getAddr (map (setLocked true) bs)) (Z.of_nat KEY_SIZE)) w =
          Done (true, map (λ kv, be_bytes KEY_SIZE (item_key kv)) items) w' ∧ quiet w w'.
Proof.
  intros Hh HF. destruct (perform_reads w (map (λ b, (getAddr b, KEY_SIZE)) bs) (map (λ kv, be_bytes KEY_SIZE (item_key kv)) items) (hp_others _ _ Hh))
    as (w' & Hr & Hq).
  { rewrite Forall2_fmap_l, Forall2_fmap_r. eapply Forall2_impl; [|exact HF]. intros b kv [Hin Hok]. unfold compose. cbn [fst snd].
    destruct (blocks_cell _ _ _ _ (hp_blocks _ _ Hh) Hin) as (_ & Hho & _). cbn [fst snd item_cell] in Hho.
    destruct (read_prefix _ _ _ KEY_SIZE Hho) as (m & Hm & Hs); [rewrite length_enc_KVItem; unfold sizeof_KVItem; lia|].
    exists m. split; [done|]. rewrite Hs. unfold enc_KVItem. by rewrite take_app_length' by (by rewrite length_be_bytes). }
  exists w'. split; [|done]. unfold rdma_read_batch. rewrite map_map in Hr. cbn [fst snd] in Hr.
  eapply on_net_bind.
  - unfold get_read_batch. rewrite !map_map. rewrite <-Hr. unfold perform_all. do 2 f_equal. apply map_ext. intros b. by rewrite getAddr_setLocked.
  - cbn [fst snd]. unfold mret, M_ret. do 2 f_equal. by rewrite !map_map.
Qed.

(** What [split_leaf] does with the entries it read. *)
Definition split_rest fuel (depth : nat) junk (leaf_addr : GlobalAddress) (leaf : LeafNode) (es : list (Z * KVBlock)) : M (World Q C) bool :=
  if (length es <=? branch_factor / 2)%nat then
    r ← perform_all (get_lock_unlock_kvblocks leaf_addr false ++ [get_release_node_op leaf_addr]);
    _ ← assert_ r.1;
    mret false
  else
    new_leaf_address ← allocate sizeof_LeafNode;
    d ← on_rand (distribute fuel es leaf);
    let '(leaf', new_leaf, middle_key) := d in
    success ← on_net (rdma_write_batch [new_leaf_address; leaf_addr] [enc_LeafNode new_leaf; enc_LeafNode leaf']);
    _ ← assert_ success;
    success ← insert_internal_entry (Ent := Ent) fuel junk depth middle_key new_leaf_address 1;
    _ ← assert_ success;
    r ← perform (get_release_node_op leaf_addr);
    _ ← assert_ r.1;
    mret true.

(** The leaf while it is split. *)
Definition locked (leaf : LeafNode) : LeafNode := mkLeaf (lheader (set_leaf_lock 1 leaf)) (map (setLocked true) (kv_blocks leaf)).

Lemma lshape_words lo hi leaf items : lshape lo hi leaf items → Forall (λ b, isLocked b = false ∧ in_width 64 b) (kv_blocks leaf).
Proof. intros [(_ & _ & Hw) _ _ Hlk _ _]. by apply Forall_and. Qed.

Lemma locked_ok leaf : leaf_ok leaf → leaf_ok (locked leaf).
Proof.
  intros ((_ & Hh) & Hl & Hw). split; [|split].
  - split; [unfold in_width; cbn; lia|done].
  - cbn. by rewrite length_map.
  - cbn. apply Forall_map. eapply Forall_impl; [|exact Hw]. apply setLocked_width.
Qed.

Lemma split_prefix_run fuel depth junk w a leaf items lo hi R :
  heap w (leaf_cell a leaf :: icells leaf items ++ R) → lshape lo hi leaf items →
  ∃ w1, heap w1 (leaf_cell a (locked leaf) :: icells leaf items ++ R) ∧ calm w w1 ∧ w_slabs w1 = w_slabs w ∧
    split_leaf (C := C) (Ent := Ent) fuel depth junk a w =
      split_rest fuel depth junk a (locked leaf) (entries_map (zip (map item_key items) (map (setLocked true) (live leaf)))) w1.
Proof.
  intros Hh Hls. pose proof Hls as [Hok Hhd Hit Hlk Hnd Hrg]. pose proof (lshape_words _ _ _ _ Hls) as Hws.
  assert (lock (lheader leaf) = 0) as Hl0 by (by rewrite Hhd). pose proof Hok as (_ & Hlen & _).
  unfold leaf_cell in Hh. rewrite <-(set_leaf_lock_id leaf Hl0), enc_set_leaf_lock in Hh at 1.
  destruct (heap_trylock w _ a _ Hh) as (w1 & H1 & Hh1 & Hc1 & Hs1). rewrite <-enc_set_leaf_lock in Hh1.
  destruct (lock_slots_run w1 a (lheader (set_leaf_lock 1 leaf)) (kv_blocks leaf) _ Hh1 Hlen Hws) as (w2 & H2 & Hh2 & Hc2 & Hs2).
  fold (locked leaf) in H2, Hh2.
  destruct (leaf_keys_run w2 _ (live leaf) items Hh2) as (w3 & H3 & Hq3).
  { apply Forall2_zip. apply Forall2_zip in Hit as [Hl Hz]. split; [done|]. rewrite list.Forall_forall in Hz |- *. intros [b kv] Hin.
    split; [|by apply (Hz _ Hin)]. right. apply elem_of_app. left. rewrite zip_with_zip. apply list_elem_of_fmap. by exists (b, kv). }
  destruct (heap_quiet _ _ _ Hq3 Hh2) as (Hh3 & Hc3 & Hs3 & _). exists w3. split; [done|]. split; [by do 2 (etrans; [eassumption|])|].
  split; [congruence|]. unfold split_leaf. erewrite bind_done by exact H1. cbn [negb]. erewrite bind_done by exact H2. cbn [fst snd].
  erewrite bind_done by reflexivity. rewrite lookup_app_r by (rewrite length_map; lia). rewrite length_map, Hlen, Nat.sub_diag.
  cbn [lookup list_lookup out_data]. cbv zeta. rewrite dec_enc_LeafNode by (by apply locked_ok).
  change (lock (lheader (locked leaf)) =? 0) with false. cbn [negb]. erewrite bind_done by reflexivity.
  assert (forallb isLocked (kv_blocks (locked leaf)) = true) as ->.
  { apply forallb_forall. cbn [kv_blocks locked]. intros x (b & <- & _)%in_map_iff. apply isLocked_set. }
  erewrite bind_done by reflexivity.
  assert (filter (λ b, isFree b = false) (kv_blocks (locked leaf)) = map (setLocked true) (live leaf)) as -> by apply live_locked.
  erewrite bind_done by exact H3. cbn [fst snd]. erewrite bind_done by reflexivity.
  rewrite map_map. erewrite (map_ext_in _ item_key).
  2:{ intros kv Hkv%list_elem_of_In. apply key_roundtrip. apply Forall2_zip in Hit as [Hl Hz]. apply list_elem_of_lookup in Hkv as [i Hi].
      destruct (lookup_lt_is_Some_2 (live leaf) i) as [b Hb]; [rewrite Hl; by eapply lookup_lt_Some|].
      rewrite Forall_lookup in Hz. apply (Hz i (b, kv)). by rewrite lookup_zip_with, Hb, Hi. }
  done.
Qed.

(** Few items: the leaf is released as it was. *)
Lemma split_stays fuel depth junk w a leaf items lo hi R es :
  heap w (leaf_cell a (locked leaf) :: R) → lshape lo hi leaf items → (length es ≤ branch_factor / 2)%nat →
  ∃ w', split_rest fuel depth junk a (locked leaf) es w = Done false w' ∧ heap w' (leaf_cell a leaf :: R) ∧ calm w w' ∧ w_slabs w' = w_slabs w.
Proof.
  intros Hh Hls Hle. pose proof Hls as [(_ & Hlen & _) Hhd _ _ _ _].
  destruct (unlock_slots_run w a leaf R Hh) as (outs & w' & Hrun & Hrest); [by rewrite Hhd|done|by eapply lshape_words|].
  exists w'. split; [|done]. unfold split_rest. rewrite (proj2 (Nat.leb_le _ _)) by done.
  erewrite bind_done by exact Hrun. by erewrite bind_done by reflexivity.
Qed.

Lemma icells_pairs bs (its : list KVItem) : zip_with item_cell bs its = map (uncurry item_cell) (zip bs its).
Proof. apply zip_with_zip. Qed.

Lemma zip_split_pairs (ps : list (KVBlock * KVItem)) : zip (map fst ps) (map snd ps) = ps.
Proof. induction ps as [|[b kv] ps IH]; [done|]. cbn [map zip_with fst snd]. by rewrite IH. Qed.

(** The two leaves the distribution makes of the sorted entries [ps]. *)
Lemma distribute_run fuel w lo hi leaf items ps :
  lshape lo hi leaf items → rand_fair fuel (w_rand w).1 → (2 ≤ length items)%nat →
  ps ≡ₚ zip (live leaf) items → sorted (map (λ p, item_key p.2) ps) → length ps = length items →
  Forall (λ p, isLocked p.1 = false ∧ in_width 64 p.1 ∧ isFree p.1 = false ∧ item_fits p.1 p.2 ∧ lo ≤ item_key p.2 < hi) ps →
  ∃ mk leaf1 leaf2 w', let m := (length items / 2)%nat in let ps1 := take m ps in let ps2 := drop m ps in
    on_rand (C := C) (distribute fuel (map keyed ps) (locked leaf)) w = Done (set_leaf_lock 1 leaf1, leaf2, mk) w' ∧
    lshape lo mk leaf1 (map snd ps1) ∧ lshape mk hi leaf2 (map snd ps2) ∧ lo < mk < hi ∧
    icells leaf items ≡ₚ icells leaf1 (map snd ps1) ++ icells leaf2 (map snd ps2) ∧
    cl w' = cl w ∧ w_slabs w' = w_slabs w ∧ others (w_net w') = others (w_net w) ∧ calm w w'.
Proof.
  intros Hls Hfair H2 Hps Hsort Hlen HF. pose proof Hls as [Hok Hhd Hit Hlk Hnd Hrg]. destruct (w_rand w) as [r pos] eqn:Ew. cbn [fst] in Hfair.
  assert (length items ≤ branch_factor)%nat as Hbf.
  { rewrite <-(Forall2_length Hit). unfold live. destruct Hok as (_ & <- & _). apply length_filter. }
  destruct (distribute_spec fuel (map keyed ps) (locked leaf) r pos Hfair) as (leaf' & new & mk & pos' & Hrun & Hl1 & Hl2 & Hws & Hb1 & Hb2 & Hmk & Hh1 & Hh2).
  { cbn. rewrite length_map. apply Hok. }
  { rewrite length_map. lia. }
  { apply Forall_map. eapply Forall_impl; [|exact HF]. intros p (_ & Hw & Hf & _). cbn [keyed snd]. rewrite isFree_setLocked.
    split; [done|by apply setLocked_width]. }
  rewrite length_map, Hlen in *. set (m := (length items / 2)%nat) in *.
  assert (1 ≤ m < length items)%nat as Hm by (unfold m; pose proof (Nat.div_mod (length items) 2); pose proof (Nat.mod_upper_bound (length items) 2); lia).
  rewrite list_lookup_fmap in Hmk. destruct (ps !! m) as [[b kv]|] eqn:Hpm; [|done]. injection Hmk as <-. cbn [item_key snd] in *.
  rewrite firstn_map in Hl1. rewrite skipn_map in Hl2.
  assert (Forall (λ p, isLocked p.1 = false ∧ in_width 64 p.1) ps) as Hun by (eapply Forall_impl; [|exact HF]; by intros p (? & ? & _)).
  rewrite unlock_keyed in Hl1 by (by apply Forall_take). rewrite unlock_keyed in Hl2 by (by apply Forall_drop).
  pose proof Hsort as Hsort'. rewrite <-(take_drop m ps), map_app in Hsort'. unfold sorted in Hsort'. rewrite pairwise_app in Hsort'.
  destruct Hsort' as (_ & Hsd & Hst). rewrite (drop_S _ _ _ Hpm) in Hsd, Hst. cbn [map snd] in Hsd, Hst. destruct Hsd as [Hsd _].
  assert (NoDup (map item_key (map snd ps))) as Hnps.
  { rewrite Hps. change (map snd (zip (live leaf) items)) with ((zip (live leaf) items).*2). rewrite snd_zip; [done|].
    rewrite (Forall2_length Hit). done. }
  rewrite <-(take_drop m ps), !map_app in Hnps. apply list.NoDup_app in Hnps as (Hn1 & _ & Hn2).
  apply Forall_app in Hws as [Hw1 Hw2]. rewrite list.Forall_forall in HF.
  assert (lo ≤ item_key kv < hi) as Hkv by (apply (HF (b, kv)); by eapply list_elem_of_lookup_2).
  destruct Hok as ((_ & _ & Hk1 & Hk2 & Hli) & _). rewrite Hhd in Hk1, Hk2. cbn [fence_first fence_second] in Hk1, Hk2.
  assert (key_ok (item_key kv)) as Hkk by (unfold key_ok in *; lia).
  assert (Forall (λ p, item_key p.2 < item_key kv) (take m ps)) as Hlow.
  { rewrite Forall_map in Hst. eapply Forall_impl; [|exact Hst]. cbn beta. by intros p [? _]%Forall_cons_iff. }
  assert (Forall (λ p, item_key kv ≤ item_key p.2) (drop m ps)) as Hhigh.
  { rewrite (drop_S _ _ _ Hpm). constructor; [cbn; lia|]. rewrite Forall_map in Hsd. eapply Forall_impl; [|exact Hsd]. cbn beta. lia. }
  exists (item_key kv), (set_leaf_lock 0 leaf'), new. eexists. cbv zeta.
  assert (leaf' = set_leaf_lock 1 (set_leaf_lock 0 leaf')) as Hleaf'.
  { destruct leaf' as [h bs]. cbn in Hh1. rewrite Hh1. done. }
  split; [unfold on_rand, zoom; rewrite Ew, Hrun, <-Hleaf'; reflexivity|]. split; [|split; [|split; [|split]]].
  - apply (half_shape _ _ _ _ (last_index (lheader leaf))); try done.
    + rewrite list.Forall_forall in Hlow |- *. intros p Hp. destruct (HF p) as (_ & _ & _ & ? & ?); [by eapply subseteq_take|].
      split; [done|]. specialize (Hlow p Hp). lia.
    + unfold set_leaf_lock. cbn [lheader]. rewrite Hh1. cbn. by rewrite Hhd.
  - apply (half_shape _ _ _ _ 0); try done.
    + rewrite list.Forall_forall in Hhigh |- *. intros p Hp. destruct (HF p) as (_ & _ & _ & ? & ?); [by eapply subseteq_drop|].
      split; [done|]. specialize (Hhigh p Hp). lia.
    + rewrite Hh2. cbn. by rewrite Hhd.
  - destruct (lookup_lt_is_Some_2 (take m ps) 0) as [p Hp]; [rewrite length_take; lia|]. rewrite Forall_lookup in Hlow. specialize (Hlow _ _ Hp).
    destruct (HF p) as (_ & _ & _ & _ & ?); [eapply subseteq_take; by eapply list_elem_of_lookup_2|]. lia.
  - change (live (set_leaf_lock 0 leaf')) with (live leaf'). rewrite Hl1, Hl2, !icells_pairs, !zip_split_pairs, <-map_app, take_drop. by rewrite Hps.
  - split; [done|]. split; [done|]. split; [done|]. split; try done. by rewrite Ew.
Qed.

(** The number of entries of a node is a machine word. *)
Lemma branch_factor_small w a leaf R :
  heap w (leaf_cell a leaf :: R) → length (kv_blocks leaf) = branch_factor → Z.of_nat branch_factor < 2 ^ 64.
Proof.
  intros Hh Hl. pose proof (hp_blocks _ _ Hh) as Hb. destruct (blocks_cell _ _ _ _ Hb (list_elem_of_here _ _)) as (_ & (m & Hm & _) & _).
  cbn [fst snd leaf_cell] in Hm. rewrite length_enc_LeafNode in Hm by done. pose proof (fits_region _ _ _ _ (bk_fits _ _ _ Hb) Hm) as [Hs _].
  destruct Hm as (s & _ & _ & _ & H0 & Hr). unfold sizeof_LeafNode in Hr. lia.
Qed.

(** The result of a split: the children of the lowest level are [xs]. *)
Definition leaves_become w w' (l : nat) (xs : list span) R : Prop :=
  ∃ g t', (g ≤ 1)%nat ∧ heap w' (root_cell w' t' :: tcells (g + l) t' ++ R) ∧ calm w w' ∧
    top (g + l) (g + l) key_min key_max t' ∧ flat (g + l) key_min key_max t' = xs ∧
    readable (cl w') (addr_of t') sizeof_InternalNode ∧ ∀ m, (nfree (w_slabs w) m ≤ 2 + l + nfree (w_slabs w') m)%nat.

(** Many items: the leaf is split and the new leaf goes into the levels above. *)
Lemma split_moves fuel depth junk w l t lo hi a leaf items pre post rest :
  heap w (leaf_cell a (locked leaf) :: icells leaf items ++ root_cell w t :: tcells l t ++ rest) → lshape lo hi leaf items →
  faunus_cache_ w = None → top l l key_min key_max t → flat l key_min key_max t = pre ++ (lo, hi, TLeaf a leaf items) :: post →
  ga_ok (addr_of t) → readable (cl w) (addr_of t) sizeof_InternalNode → rand_fair fuel (w_rand w).1 →
  (branch_factor / 2 < length items)%nat → (3 ≤ branch_factor)%nat → Z.of_nat (S l) < 2 ^ 64 → (l < Pos.to_nat fuel)%nat → (l < depth)%nat →
  (0 < nfree (w_slabs w) sizeof_LeafNode)%nat → (2 + l ≤ nfree (w_slabs w) sizeof_InternalNode)%nat →
  ∃ mk leaf1 items1 x leaf2 items2 w',
    split_rest fuel depth junk a (locked leaf) (entries_map (zip (map item_key items) (map (setLocked true) (live leaf)))) w = Done true w' ∧
    lshape lo mk leaf1 items1 ∧ lshape mk hi leaf2 items2 ∧ items1 ++ items2 ≡ₚ items ∧ length items1 = (length items / 2)%nat ∧ lo < mk < hi ∧
    leaves_become w w' l (pre ++ (lo, mk, TLeaf a leaf1 items1) :: (mk, hi, TLeaf x leaf2 items2) :: post)
      (leaf_cell a leaf1 :: leaf_cell x leaf2 :: icells leaf1 items1 ++ icells leaf2 items2 ++ rest).
Proof.
  intros Hh Hls Hc Ht Hf Hat Hrd Hfair Hmany H3 Hl Hfuel Hdepth Hfl Hfi.
  destruct (split_entries lo hi leaf items Hls) as (ps & Hes & Hps & Hsort & Hlen & Hsnd & HF).
  assert (2 ≤ length items)%nat as H2 by (pose proof (Nat.Div0.div_le_mono 2 branch_factor 2 ltac:(lia)) as Hd2; change (2 / 2)%nat with 1%nat in Hd2; lia).
  destruct (heap_allocate w _ sizeof_LeafNode Hh Hfl) as (x & bs & w1 & Hal & Hh1 & Hbs & Hc1 & Hn1).
  destruct (distribute_run fuel w1 lo hi leaf items ps) as (mk & leaf1 & leaf2 & w2 & Hd & Hs1 & Hs2 & Hmk & Hcells & Hcl2 & Hsl2 & Ho2 & Hc2);
    try done; [by rewrite (cm_rand _ _ Hc1)|].
  set (items1 := map snd (take (length items / 2) ps)) in *. set (items2 := map snd (drop (length items / 2) ps)) in *.
  assert (heap w2 ((x, bs) :: leaf_cell a (locked leaf) :: icells leaf items ++ root_cell w t :: tcells l t ++ rest)) as Hh2.
  { destruct Hh1 as [Ho Hb]. split; [by rewrite Ho2|by rewrite Hcl2, Hsl2]. }
  pose proof (ls_ok _ _ _ _ Hls) as Hok. pose proof (ls_ok _ _ _ _ Hs1) as Hok1. pose proof (ls_ok _ _ _ _ Hs2) as Hok2.
  destruct (heap_write_two w2 _ x bs a (enc_LeafNode (locked leaf)) (enc_LeafNode leaf2) (enc_LeafNode (set_leaf_lock 1 leaf1)) Hh2)
    as (w3 & Hw & Hh3 & Hc3 & Hsl3); [apply enc_LeafNode_bytes..| | |].
  { rewrite length_enc_LeafNode; [done|apply Hok2]. }
  { rewrite !length_enc_LeafNode; [done|apply (locked_ok _ Hok)|apply Hok1]. }
  set (R := leaf_cell a (set_leaf_lock 1 leaf1) :: leaf_cell x leaf2 :: icells leaf1 items1 ++ icells leaf2 items2 ++ rest).
  assert (calm w w3) as Hc13 by (by do 2 (etrans; [eassumption|])).
  assert (heap w3 (root_cell w3 t :: tcells l t ++ R)) as Hh3'.
  { eapply heap_perm; [|exact Hh3]. unfold root_cell, R. rewrite (cm_root _ _ Hc13), Hcells. unfold leaf_cell. solve_Permutation. }
  destruct (blocks_cell _ _ _ (leaf_cell x leaf2) (hp_blocks _ _ Hh3)) as (Hx & _); [left|]. cbn [fst leaf_cell] in Hx.
  assert (Z.of_nat branch_factor < 2 ^ 64) as Hbf by (eapply branch_factor_small; [exact Hh3|apply Hok2]).
  destruct (insert_internal_raises fuel junk l H3 Hbf depth Hdepth l t w3 R pre lo hi (TLeaf a leaf items) post mk (TLeaf a leaf1 items1) (TLeaf x leaf2 items2) Hh3')
    as (w4 & Hup & g & t' & Hg & Hg1 & Hh4 & Hc4 & Ht' & Hf' & Hn4); try done; try lia.
  { by rewrite (cm_cache _ _ Hc13). }
  { intros ->. cbn [flat] in Hf. destruct pre as [|? pre]; [|injection Hf as _ Hf; by destruct pre]. injection Hf as _ _ -> _. cbn [addr_of] in *.
    apply (cm_still _ _ Hc13) in Hrd as [m Hm]. exists m. split; [done|].
    destruct (blocks_cell _ _ _ (leaf_cell a (set_leaf_lock 1 leaf1)) (hp_blocks _ _ Hh3)) as (_ & Hho & _); [right; left|].
    rewrite (leaf_header_as_node _ _ _ _ Hho); [|apply set_leaf_lock_ok; [unfold in_width; lia|done]|done].
    cbn. by rewrite (ls_header _ _ _ _ Hs1). }
  { specialize (Hn1 sizeof_InternalNode). rewrite Hsl3, Hsl2. lia. }
  cbn [addr_of] in Hup. rewrite Nat.sub_diag in Hup.
  assert (heap w4 (leaf_cell a (set_leaf_lock 1 leaf1) :: root_cell w4 t' :: tcells (g + l) t' ++ leaf_cell x leaf2 :: icells leaf1 items1 ++ icells leaf2 items2 ++ rest)) as Hh4'.
  { eapply heap_perm; [|exact Hh4]. unfold R. solve_Permutation. }
  destruct (release_leaf_cell _ _ a leaf1 _ [] (hp_blocks _ _ Hh4')) as (c' & Hrel & Hb5 & Hst5); [by rewrite (ls_header _ _ _ _ Hs1)|].
  rewrite ops_nil in Hrel. destruct (heap_perform w4 _ _ _ _ _ Hh4' Hrel Hb5 Hst5) as (w5 & Hrun5 & Hh5 & Hc5 & Hsl5).
  exists mk, leaf1, items1, x, leaf2, items2, w5. split; [|split; [done|split; [done|split; [|split; [|split; [done|]]]]]].
  - unfold split_rest. rewrite Hes, length_map, Hlen. rewrite (proj2 (Nat.leb_gt _ _)) by lia. erewrite bind_done by exact Hal.
    erewrite bind_done by exact Hd. cbn beta iota. erewrite bind_done by exact Hw. erewrite bind_done by reflexivity. change 1 with (Z.of_nat 1).
    erewrite bind_done by exact Hup. erewrite bind_done by reflexivity. erewrite bind_done by exact Hrun5. by erewrite bind_done by reflexivity.
  - unfold items1, items2. by rewrite <-map_app, take_drop.
  - unfold items1. rewrite length_map, length_take, Hlen. pose proof (Nat.Div0.div_le_upper_bound (length items) 2 (length items)). lia.
  - exists g, t'. split; [done|]. split; [|split; [by do 2 (etrans; [eassumption|])|split; [done|split; [done|split]]]].
    + eapply heap_perm; [|exact Hh5]. unfold root_cell. rewrite (cm_root _ _ Hc5). solve_Permutation.
    + apply (cm_still _ _ Hc5). eapply (top_readable w4 (g + l)); [eapply heap_perm; [|exact Hh4]; apply Permutation_middle|lia|exact Ht'].
    + intros m. specialize (Hn1 m). specialize (Hn4 m). rewrite Hsl3, Hsl2 in Hn4. rewrite Hsl5. lia.
Qed.

(** A leaf among the leaves of the index. *)
Definition split_result w w' (l : nat) t (pre : list span) (lo hi : Z) a leaf items (post : list span) (split : bool) : Prop :=
  ∃ l' t' xs, index_inv w' l' t' ∧ calm w w' ∧ (l ≤ l' ≤ S l)%nat ∧ flat l' key_min key_max t' = pre ++ xs ++ post ∧
    concat (map (λ x, items_of x.2) xs) ≡ₚ items ∧ contents t' = contents t ∧
    (∀ m, (nfree (w_slabs w) m ≤ 2 + l + nfree (w_slabs w') m)%nat) ∧
    (if split
     then ∃ mk leaf1 items1 x leaf2 items2, xs = [(lo, mk, TLeaf a leaf1 items1); (mk, hi, TLeaf x leaf2 items2)] ∧ lo < mk < hi ∧
            length items1 = (length items / 2)%nat
     else xs = [(lo, hi, TLeaf a leaf items)]).

(** The contents only depend on the items of the leaves. *)
Lemma contents_flat l l' t t' (pre xs : list span) x (post : list span) :
  top l l key_min key_max t → top l' l' key_min key_max t' → NoDup (map item_key (items_of t)) →
  flat l key_min key_max t = pre ++ x :: post → flat l' key_min key_max t' = pre ++ xs ++ post →
  concat (map (λ y, items_of y.2) xs) ≡ₚ items_of x.2 → contents t' = contents t.
Proof.
  intros Ht Ht' Hnd Hf Hf' Hx. unfold contents. symmetry. apply pairs_contents_perm; [|done].
  rewrite (items_flat l l _ _ t Ht), (items_flat l' l' _ _ t' Ht'), Hf, Hf', !map_app, !concat_app. cbn [map concat]. by rewrite Hx.
Qed.

Lemma split_leaf_run fuel depth junk w l t pre lo hi a leaf items post :
  index_inv w l t → faunus_cache_ w = None → flat l key_min key_max t = pre ++ (lo, hi, TLeaf a leaf items) :: post →
  rand_fair fuel (w_rand w).1 → (3 ≤ branch_factor)%nat → Z.of_nat (S l) < 2 ^ 64 → (l < Pos.to_nat fuel)%nat → (l < depth)%nat →
  (0 < nfree (w_slabs w) sizeof_LeafNode)%nat → (2 + l ≤ nfree (w_slabs w) sizeof_InternalNode)%nat →
  let split := (branch_factor / 2 <? length items)%nat in
  ∃ w', split_leaf (C := C) (Ent := Ent) fuel depth junk a w = Done split w' ∧ split_result w w' l t pre lo hi a leaf items post split.
Proof.
  intros Hinv Hc Hf Hfair H3 Hl Hfuel Hdepth Hfl Hfi split. destruct (inv_heap w l t Hinv) as (Hh & Ht & Hlf & Hrd & Hnd).
  pose proof Hlf as Hlf'. rewrite Hf, Forall_app, Forall_cons_iff in Hlf'. destruct Hlf' as (Hlf1 & Hls & Hlf2). cbn [leafy fst snd] in Hls.
  set (cs := λ xs : list span, concat (map (λ x, cells_of x.2) xs)). pose proof (cells_flat l l key_min key_max t Ht) as Hcf.
  rewrite Hf, concat_map_around in Hcf. cbn [snd cells_of] in Hcf. fold (cs pre) (cs post) (leaf_cell a leaf) in Hcf.
  assert (heap w (leaf_cell a leaf :: icells leaf items ++ root_cell w t :: tcells l t ++ cs pre ++ cs post)) as Hh0.
  { eapply heap_perm; [|exact Hh]. rewrite Hcf. solve_Permutation. }
  destruct (split_prefix_run fuel depth junk w a leaf items lo hi _ Hh0 Hls) as (w1 & Hh1 & Hc1 & Hs1 & Heq). rewrite Heq.
  assert (root_cell w t = root_cell w1 t) as Hrc by (unfold root_cell; by rewrite (cm_root _ _ Hc1)). rewrite Hrc in Hh1.
  destruct (split_entries lo hi leaf items Hls) as (ps & Hes & _ & _ & Hlen & _).
  unfold split. destruct (Nat.ltb_spec (branch_factor / 2) (length items)) as [Hmany|Hfew].
  - destruct (split_moves fuel depth junk w1 l t lo hi a leaf items pre post (cs pre ++ cs post))
      as (mk & leaf1 & items1 & x & leaf2 & items2 & w' & Hrun & Hs1' & Hs2' & Hits & Hlen1 & Hmk & g & t' & Hg & Hh' & Hc' & Ht' & Hf' & Hrd' & Hn'); try done.
    { by rewrite (cm_cache _ _ Hc1). }
    { apply (mo_addr_ok _ _ _ _ (iv_memory _ _ _ Hinv)). }
    { by apply (cm_still _ _ Hc1). }
    { by rewrite (cm_rand _ _ Hc1). }
    { by rewrite Hs1. }
    { by rewrite Hs1. }
    exists w'. split; [done|]. exists (g + l)%nat, t', [(lo, mk, TLeaf a leaf1 items1); (mk, hi, TLeaf x leaf2 items2)].
    assert (index_inv w' (g + l) t') as Hinv'.
    { apply heap_inv; try done; [| |lia].
      - eapply heap_perm; [|exact Hh']. rewrite (cells_flat (g + l) (g + l) key_min key_max t' Ht'), Hf', !map_app, !concat_app.
        cbn [map concat snd cells_of]. fold (cs pre) (cs post) (leaf_cell a leaf1) (leaf_cell x leaf2). solve_Permutation.
      - rewrite Hf', Forall_app, !Forall_cons_iff. done. }
    split; [done|]. split; [by etrans|]. split; [lia|]. split; [done|]. cbn [map concat snd items_of]. rewrite app_nil_r. split; [done|].
    split; [|split; [by rewrite Hs1 in Hn'|by exists mk, leaf1, items1, x, leaf2, items2]].
    apply (contents_flat l (g + l) t t' pre [(lo, mk, TLeaf a leaf1 items1); (mk, hi, TLeaf x leaf2 items2)] _ post Ht Ht' Hnd Hf Hf'). cbn [map concat snd items_of]. by rewrite app_nil_r.
  - destruct (split_stays fuel depth junk w1 a leaf items lo hi _ (entries_map (zip (map item_key items) (map (setLocked true) (live leaf)))) Hh1 Hls)
      as (w' & Hrun & Hh' & Hc' & Hs'); [rewrite Hes, length_map; lia|].
    exists w'. split; [done|]. exists l, t, [(lo, hi, TLeaf a leaf items)]. assert (calm w w') as Hcw by (by etrans).
    split.
    { apply heap_inv; try done; [|by apply (cm_still _ _ Hcw)|lia]. eapply heap_perm; [|exact Hh'].
      rewrite Hcf. unfold root_cell. rewrite (cm_root _ _ Hc'). solve_Permutation. }
    split; [done|]. split; [lia|]. split; [done|]. cbn [map concat snd items_of]. rewrite app_nil_r. split; [done|]. split; [done|].
    split; [|done]. intros m. rewrite Hs', Hs1. lia.
Qed.
End runs.
