(* ===== verification/FaunusMap.v ===== *)
(** * The Faunus index is a finite map

    The operations of src/kv_index/faunus_index.cpp composed: inserts that go over
    the split threshold, the requests they leave in the maintenance queues, the
    workers that split the leaves for them, and reads.  A thread alone, without
    cache, sees a finite map from [initialize] on: an insert updates it, a split and a
    run of a maintenance worker leave it alone, a read looks a key up. *)

From S2P Require Import Prelude GlobalAddress RdmaSim ThreadStats Queue MemoryServer Slab RdmaManager KVBlock FaunusNode FaunusIndex FaunusTree FaunusRead FaunusFrame FaunusInsert FaunusUpsert FaunusInit FaunusHeap FaunusShape FaunusSplit FaunusGrow.

(** ** Splitting the leaf of a key *)

Section split.
Context {cfg : FaunusConfig}.
Context {Q : Type → Type} `{!ConcurrentQueue Q}.
Context {C Ent : Type} `{!NodeCache C Ent (GlobalAddress * InternalNode)}.
Implicit Types (w : World Q C) (t : tree).

(** What a thread needs to split leaves [n] times in an index of height [l]. *)
Record split_ready fuel (depth : nat) w (l n : nat) : Prop := mkReady {
  sr_cache : faunus_cache_ w = None;
  sr_fair : rand_fair fuel (w_rand w).1;
  sr_factor : (3 ≤ branch_factor)%nat;
  sr_level : Z.of_nat (n + l) < 2 ^ 64;
  sr_fuel : (n + l ≤ Pos.to_nat fuel)%nat;
  sr_depth : (n + l ≤ depth)%nat;
  sr_leaf : (n * (2 + n + l) ≤ nfree (w_slabs w) sizeof_LeafNode)%nat;
  sr_internal : (n * (2 + n + l) ≤ nfree (w_slabs w) sizeof_InternalNode)%nat
}.

(** [w'] holds [t'], the tree [t] of [w] after splits. *)
Record rearranged w w' (l l' : nat) t t' : Prop := mkRearranged {
  ra_inv : index_inv w' l' t';
  ra_contents : contents t' = contents t;
  ra_leaves : leaf_addrs t ⊆ leaf_addrs t';
  ra_calm : calm w w'
}.

(** The leaf that a split of a leaf with the items [items] leaves for a key. *)
Definition leaf_after (split : bool) (items : list KVItem) (l : nat) (key : Z) t : Prop :=
  ∃ a' leaf' items', descend l key t = Some (TLeaf a' leaf' items') ∧
    (if split then length items' ≤ length items - length items / 2 else items' = items)%nat.

Lemma split_leaf_at fuel depth junk w l t pre lo hi a leaf items post n :
  index_inv w l t → split_ready fuel depth w l (S n) → flat l key_min key_max t = pre ++ (lo, hi, TLeaf a leaf items) :: post →
  let split := (branch_factor / 2 <? length items)%nat in
  ∃ w' l' t', split_leaf (C := C) (Ent := Ent) fuel depth junk a w = Done split w' ∧ rearranged w w' l l' t t' ∧
    (l ≤ l' ≤ S l)%nat ∧ split_ready fuel depth w' l' n ∧ ∀ key, lo ≤ key < hi → leaf_after split items l' key t'.
Proof.
  intros Hinv [H1 H2 H3 H4 H5 H6 H7 H8] Hf split. destruct (inv_heap w l t Hinv) as (_ & Ht & Hlf & _).
  pose proof (leaf_addrs_flat l _ _ t Ht Hlf) as Hla.
  destruct (split_leaf_run fuel depth junk w l t pre lo hi a leaf items post)
    as (w' & Hrun & l' & t' & xs & Hinv' & Hc & Hl & Hf' & Hxi & Hct & Hn & Hxs); try done; try lia.
  fold split in Hrun, Hxs. destruct (inv_heap w' l' t' Hinv') as (_ & Ht' & Hlf' & _). pose proof (leaf_addrs_flat l' _ _ t' Ht' Hlf') as Hla'.
  exists w', l', t'. split; [exact Hrun|]. split; [|split; [done|split]].
  - split; try done. rewrite <-Hla, <-Hla', Hf, Hf', !map_app. cbn [map]. intros y. rewrite !elem_of_app, elem_of_cons.
    assert (a ∈ map (λ x : Z * Z * tree, addr_of x.2) xs) as Hax.
    { destruct split; [destruct Hxs as (? & ? & ? & ? & ? & ? & -> & _)|subst xs]; left. }
    intros [?|[->|?]]; tauto.
  - pose proof (Hn sizeof_LeafNode). pose proof (Hn sizeof_InternalNode).
    assert (n * (2 + n + l') + (2 + l) ≤ S n * (2 + S n + l))%nat as Hm by nia.
    split; [by rewrite (cm_cache _ _ Hc)|by rewrite (cm_rand _ _ Hc)|done|lia|lia|lia|lia|lia].
  - intros key Hk.
    assert (∀ b b' s, (b, b', s) ∈ xs → b ≤ key < b' → descend l' key t' = Some s) as Hto.
    { intros b b' s Hs Hb. apply (flat_descend key l' l' _ _ t' b b' s Ht'); [|done]. rewrite Hf', !elem_of_app. tauto. }
    destruct split.
    + destruct Hxs as (mk & leaf1 & items1 & x & leaf2 & items2 & -> & Hmk & Hlen). cbn in Hxi. rewrite app_nil_r in Hxi.
      apply Permutation_length in Hxi. rewrite length_app in Hxi. pose proof (Nat.Div0.mul_div_le (length items) 2).
      destruct (Z_lt_ge_dec key mk).
      * exists a, leaf1, items1. split; [apply (Hto lo mk); [left|lia]|lia].
      * exists x, leaf2, items2. split; [apply (Hto mk hi); [right; left|lia]|lia].
    + subst xs. exists a, leaf, items. split; [apply (Hto lo hi); [left|done]|done].
Qed.

Lemma split_leaf_rearranges fuel depth junk w l t a n :
  index_inv w l t → split_ready fuel depth w l (S n) → a ∈ leaf_addrs t →
  ∃ b w' l' t', split_leaf (C := C) (Ent := Ent) fuel depth junk a w = Done b w' ∧ rearranged w w' l l' t t' ∧
    (l ≤ l' ≤ S l)%nat ∧ split_ready fuel depth w' l' n.
Proof.
  intros Hinv Hsr Ha. destruct (inv_heap w l t Hinv) as (_ & Ht & Hlf & _).
  pose proof (leaf_addrs_flat l _ _ t Ht Hlf) as Hla. rewrite <-Hla in Ha.
  apply list_elem_of_fmap in Ha as ([[lo hi] s] & Has & Hin). pose proof Hlf as Hs. rewrite list.Forall_forall in Hs. specialize (Hs _ Hin).
  cbn [snd] in *. destruct s as [a' leaf items|]; [|done]. cbn [addr_of] in Has. subst a'.
  apply list_elem_of_split in Hin as (pre & post & Hf).
  destruct (split_leaf_at fuel depth junk w l t pre lo hi a leaf items post n Hinv Hsr Hf) as (w' & l' & t' & Hrun & Hr & Hl & Hsr' & _).
  by eexists _, w', l', t'.
Qed.

Lemma split_leaf_of_key fuel depth junk w l t key a leaf items n :
  index_inv w l t → split_ready fuel depth w l (S n) → key_min ≤ key < key_max → descend l key t = Some (TLeaf a leaf items) →
  let split := (branch_factor / 2 <? length items)%nat in
  ∃ w' l' t', split_leaf (C := C) (Ent := Ent) fuel depth junk a w = Done split w' ∧ rearranged w w' l l' t t' ∧
    (l ≤ l' ≤ S l)%nat ∧ leaf_after split items l' key t'.
Proof.
  intros Hinv Hsr Hkey Hd split. destruct (inv_heap w l t Hinv) as (_ & Ht & _).
  destruct (descend_flat key l l _ _ t _ Ht Hkey Hd) as (lo & hi & Hin & Hk). apply list_elem_of_split in Hin as (pre & post & Hf).
  destruct (split_leaf_at fuel depth junk w l t pre lo hi a leaf items post n Hinv Hsr Hf) as (w' & l' & t' & Hrun & Hr & Hl & _ & Hkl).
  exists w', l', t'. split_and!; try done; try lia. by apply Hkl.
Qed.

(** C4: [split_leaf] on the leaf of a key, by a thread alone without a cache: it
    returns whether the leaf had more than half its capacity, the index holds the same
    pairs as before in a tree that satisfies the invariant of the index and is at most
    one level higher, and if the leaf was split, the leaf of the key now holds at most
    the larger half of its items, so it has free slots again.  This includes the
    insertion of the new leaf into the levels above, which may split internal nodes up
    to the root and install a new root. *)
Theorem split_leaf_refines fuel depth junk w l t key a leaf items :
  index_inv w l t → split_ready fuel depth w l 1 → key_min ≤ key < key_max → descend l key t = Some (TLeaf a leaf items) →
  let split := (branch_factor / 2 <? length items)%nat in
  ∃ w' l' t' a' leaf' items', split_leaf (C := C) (Ent := Ent) fuel depth junk a w = Done split w' ∧
    index_inv w' l' t' ∧ contents t' = contents t ∧ (l ≤ l' ≤ S l)%nat ∧ descend l' key t' = Some (TLeaf a' leaf' items') ∧
    (if split then length items' ≤ length items - length items / 2 else items' = items)%nat.
Proof.
  intros Hinv Hsr Hkey Hd split.
  destruct (split_leaf_of_key fuel depth junk w l t key a leaf items 0 Hinv Hsr Hkey Hd)
    as (w' & l' & t' & Hrun & [R1 R2 _ _] & Hl & a' & leaf' & items' & Hd' & Hn).
  by exists w', l', t', a', leaf', items'.
Qed.
End split.

(** ** Requests and the maintenance worker *)

Section maintenance.
Context {cfg : FaunusConfig}.
Context {Q : Type → Type} `{!ConcurrentQueue Q}.
Context {C Ent : Type} `{!NodeCache C Ent (GlobalAddress * InternalNode)}.
Implicit Types (w : World Q C) (t : tree).

(** The requests the code makes: to stop, and to split a leaf of the tree. *)
Definition request_ok t (r : FaunusMaintenanceRPC) : Prop :=
  match rpc_op r with STOP => True | SPLIT => leaf_address r ∈ leaf_addrs t | MERGE => False end.

Lemma request_ok_mono t t' r : leaf_addrs t ⊆ leaf_addrs t' → request_ok t r → request_ok t' r.
Proof. unfold request_ok. destruct (rpc_op r); auto. Qed.

Lemma index_inv_queues w qs l t : index_inv w l t → index_inv (set_queues qs w) l t.
Proof. by intros []. Qed.

Lemma calm_queues w w' qs qs' : calm (set_queues qs' w) w' → calm (set_queues qs w) (set_queues qs w').
Proof. by intros []. Qed.

Lemma quiet_calm w w' : quiet w w' → calm w w'.
Proof. intros []. split; [congruence..|]. unfold cl. by rewrite q_cluster. Qed.

Lemma rearranged_refl w l t : index_inv w l t → rearranged w w l l t t.
Proof. by intros H. Qed.

Lemma rearranged_trans w1 w2 w3 l1 l2 l3 t1 t2 t3 :
  rearranged w1 w2 l1 l2 t1 t2 → rearranged w2 w3 l2 l3 t2 t3 → rearranged w1 w3 l1 l3 t1 t3.
Proof. intros [] []. split; [done|congruence|by etrans|by etrans]. Qed.

Lemma rearranged_queues w w' qs qs' l l' t t' :
  rearranged (set_queues qs' w) w' l l' t t' → rearranged (set_queues qs w) (set_queues qs w') l l' t t'.
Proof. intros []. split; [by apply index_inv_queues|done|done|by eapply calm_queues]. Qed.

Lemma rearranged_quiet w w1 w2 w3 l l' t t' :
  quiet w w1 → rearranged w1 w2 l l' t t' → quiet w2 w3 → rearranged w w3 l l' t t'.
Proof.
  intros H1 [] H3. split; [by eapply index_inv_quiet|done|done|].
  etrans; [by apply quiet_calm|]. etrans; [done|]. by apply quiet_calm.
Qed.

Lemma split_ready_quiet fuel depth w w' l n : quiet w w' → split_ready fuel depth w l n → split_ready fuel depth w' l n.
Proof. intros Hq []. split; rewrite ?(q_cache _ _ Hq), ?(q_rand _ _ Hq), ?(q_slabs _ _ Hq); done. Qed.

Lemma split_ready_queues fuel depth w qs l n : split_ready fuel depth w l n → split_ready fuel depth (set_queues qs w) l n.
Proof. by intros []. Qed.

(** One request is taken from the queue. *)
Lemma dequeue_run w cs_id q polls :
  maintenance_queues w !! cs_id = Some q → q_contents q ≠ [] →
  ∃ x q', on_queue (C := C) cs_id (MaintenanceQueue.wait_dequeue (S polls) (λ _, [])) w =
            Done x (set_queues (<[cs_id := q']> (maintenance_queues w)) w) ∧ q_contents q ≡ₚ x :: q_contents q'.
Proof.
  intros Hq Hne. destruct (MaintenanceQueue.wait_dequeue_returns polls (λ _, []) q (or_introl Hne)) as (x & q' & n & Hr & _ & Hp).
  exists x, q'. unfold on_queue. rewrite Hq, Hr. split; [done|]. rewrite <-Hp.
  by replace (concat _) with (@nil FaunusMaintenanceRPC) by (symmetry; by apply concat_nil_Forall, Forall_map, Forall_true).
Qed.

Lemma iteration_run fuel depth junk cs_id polls latency w l t q n :
  index_inv w l t → split_ready fuel depth w l (S n) → maintenance_queues w !! cs_id = Some q → q_contents q ≠ [] →
  Forall (request_ok t) (q_contents q) →
  ∃ x q' r w' l' t', q_contents q ≡ₚ x :: q_contents q' ∧
    maintenance_iteration (C := C) (Ent := Ent) fuel depth junk cs_id (S polls) (λ _, []) latency w = Done r w' ∧
    rearranged (set_queues (<[cs_id := q']> (maintenance_queues w)) w) w' l l' t t' ∧ (l ≤ l' ≤ S l)%nat ∧
    match rpc_op x with STOP => r = None | _ => is_Some r ∧ split_ready fuel depth w' l' n end.
Proof.
  intros Hinv Hsr Hq Hne Hok. destruct (dequeue_run w cs_id q polls Hq Hne) as (x & q' & Hd & Hp).
  exists x, q'. set (w0 := set_queues (<[cs_id := q']> (maintenance_queues w)) w) in *.
  unfold maintenance_iteration. setoid_rewrite (bind_done _ _ _ _ _ Hd).
  rewrite Hp, Forall_cons_iff in Hok. destruct Hok as [Hx _]. unfold request_ok in Hx. destruct (rpc_op x) eqn:Hop; [|done|].
  - destruct (stats_if_run (begin_operation Insert) w0) as (w1 & H1 & Hq1).
    destruct (split_leaf_rearranges (Ent := Ent) fuel depth junk w1 l t (leaf_address x) n) as (b & w2 & l' & t' & H2 & Hr & Hl & Hs);
      [|eapply split_ready_quiet; [done|by apply split_ready_queues]|done|].
    { eapply index_inv_quiet; [done|by apply index_inv_queues]. }
    destruct (stats_if_run (end_operation latency b) w2) as (w3 & H3 & Hq3).
    exists (Some b), w3, l', t'. split; [done|]. split; [|split; [by eapply rearranged_quiet|split; [done|split; [by eexists|by eapply split_ready_quiet]]]].
    erewrite bind_done by exact H1. erewrite bind_done by exact H2. by erewrite bind_done by exact H3.
  - exists None, w0, l, t. split; [done|]. split; [done|]. split; [|split; [lia|done]]. by apply rearranged_refl, index_inv_queues.
Qed.

(** The worker splits the leaves [xs] until it takes a STOP. *)
Lemma worker_run fuel depth junk cs_id polls latency n : ∀ w l t q p,
  index_inv w l t → split_ready fuel depth w l n → maintenance_queues w !! cs_id = Some q →
  Forall (request_ok t) (q_contents q) → Exists (λ r, rpc_op r = STOP) (q_contents q) → (length (q_contents q) ≤ n)%nat →
  ∃ xs x q' w' l' t', q_contents q ≡ₚ xs ++ x :: q_contents q' ∧ Forall (λ r, rpc_op r = SPLIT) xs ∧ rpc_op x = STOP ∧
    maintenance_worker (C := C) (Ent := Ent) fuel depth junk n cs_id (S polls) (λ _, []) latency p w = Done (p + Z.of_nat (length xs)) w' ∧
    rearranged (set_queues (<[cs_id := q']> (maintenance_queues w)) w) w' l l' t t' ∧ (l ≤ l')%nat.
Proof.
  induction n as [|n IH]; intros w l t q p Hinv Hsr Hq Hok Hex Hn.
  { destruct (q_contents q); [by apply Exists_nil in Hex|cbn in Hn; lia]. }
  assert (q_contents q ≠ []) as Hne by (intros H; rewrite H in Hex; by apply Exists_nil in Hex).
  destruct (iteration_run fuel depth junk cs_id polls latency w l t q n Hinv Hsr Hq Hne Hok) as (x & q' & r & w1 & l1 & t1 & Hp & Hrun & Hr & Hl & Hx).
  assert (maintenance_worker (C := C) (Ent := Ent) fuel depth junk (S n) cs_id (S polls) (λ _, []) latency p w =
          match r with None => mret p | Some _ => maintenance_worker fuel depth junk n cs_id (S polls) (λ _, []) latency (p + 1) end w1) as Heq.
  { cbn [maintenance_worker]. erewrite bind_done by reflexivity. rewrite Hq. by erewrite bind_done by exact Hrun. }
  rewrite Heq. clear Heq.
  rewrite Hp, Forall_cons_iff in Hok. destruct Hok as [Hokx Hok']. rewrite Hp, Exists_cons in Hex. unfold request_ok in Hokx. destruct (rpc_op x) eqn:Hop; [|done|].
  - destruct Hx as [[b ->] Hs1]. destruct Hex as [?|Hex]; [done|].
    assert (maintenance_queues w1 = <[cs_id := q']> (maintenance_queues w)) as Hqs by apply (cm_queues _ _ (ra_calm _ _ _ _ _ _ Hr)).
    pose proof (lookup_lt_Some _ _ _ Hq) as Hlt.
    destruct (IH w1 l1 t1 q' (p + 1) (ra_inv _ _ _ _ _ _ Hr) Hs1) as (xs & y & q2 & w2 & l2 & t2 & Hp2 & Hxs & Hy & Hrun2 & Hr2 & Hl2); [| |done| |].
    { rewrite Hqs. by apply list_lookup_insert_eq. }
    { eapply Forall_impl; [|exact Hok']. intros z. apply request_ok_mono, Hr. }
    { apply Permutation_length in Hp. cbn [length] in Hp. lia. }
    exists (x :: xs), y, q2, w2, l2, t2. cbn [length app]. split; [by rewrite Hp, Hp2|]. split; [by constructor|]. split; [done|].
    split; [rewrite Hrun2; f_equal; lia|]. split; [|lia]. rewrite Hqs, list_insert_insert_eq in Hr2.
    eapply rearranged_trans; [|exact Hr2]. by eapply rearranged_queues.
  - subst r. exists [], x, q', w1, l1, t1. cbn [length app]. split_and!; try done; try lia. unfold mret, M_ret. f_equal. lia.
Qed.

(** C5: a maintenance worker never changes what the index holds: on a queue whose
    requests are the ones the code makes (splits of leaves, also several for the same
    leaf, and STOPs), in an index without a cache, with blocks for the new nodes and a
    generator whose draws vary, the worker, running alone, ends.  In whatever
    order the queue hands the requests out, it has performed the splits [xs], counted
    them, taken one STOP and left all other requests in the queue; the index satisfies
    its invariant with the same contents, and the requests that are left are still
    requests for leaves of the index. *)
Theorem maintenance_keeps_contents fuel depth junk cs_id polls latency w l t q n :
  index_inv w l t → split_ready fuel depth w l n → maintenance_queues w !! cs_id = Some q →
  Forall (request_ok t) (q_contents q) → Exists (λ r, rpc_op r = STOP) (q_contents q) → length (q_contents q) = n →
  ∃ xs x q' w' l' t',
    maintenance_worker (C := C) (Ent := Ent) fuel depth junk n cs_id (S polls) (λ _, []) latency 0 w = Done (Z.of_nat (length xs)) w' ∧
    q_contents q ≡ₚ xs ++ x :: q_contents q' ∧ Forall (λ r, rpc_op r = SPLIT) xs ∧ rpc_op x = STOP ∧
    maintenance_queues w' = <[cs_id := q']> (maintenance_queues w) ∧ Forall (request_ok t') (q_contents q') ∧
    index_inv w' l' t' ∧ contents t' = contents t.
Proof.
  intros Hinv Hsr Hq Hok Hex Hn. destruct (worker_run fuel depth junk cs_id polls latency n w l t q 0)
    as (xs & x & q' & w' & l' & t' & Hp & Hxs & Hx & Hrun & [R1 R2 R3 R4] & Hl); try done; [lia|].
  exists xs, x, q', w', l', t'. split_and!; try done.
  - apply (cm_queues _ _ R4).
  - rewrite Hp, Forall_app, Forall_cons_iff in Hok. eapply Forall_impl; [|apply Hok]. intros y. by apply request_ok_mono.
Qed.
End maintenance.

(** ** Inserts that go over the threshold *)

Section inserts.
Context {cfg : FaunusConfig}.
Context {Q : Type → Type} `{!ConcurrentQueue Q}.
Context {C Ent : Type} `{!NodeCache C Ent (GlobalAddress * InternalNode)}.
Implicit Types (w : World Q C) (t : tree).

(** The index with its thread and its queues. *)
Record map_inv w (l : nat) t : Prop := mkMapInv {
  mi_inv : index_inv w l t;
  mi_cache : faunus_cache_ w = None;
  mi_tracked : tracked (mgr (w_net w)) = true;
  mi_requests : Forall (λ q, Forall (request_ok t) (q_contents q)) (maintenance_queues w)
}.

Lemma requests_mono t t' (qs : list (Q FaunusMaintenanceRPC)) :
  leaf_addrs t ⊆ leaf_addrs t' → Forall (λ q, Forall (request_ok t) (q_contents q)) qs →
  Forall (λ q, Forall (request_ok t') (q_contents q)) qs.
Proof. intros Hs H. eapply Forall_impl; [|exact H]. intros q Hq. eapply Forall_impl; [|exact Hq]. intros r. by apply request_ok_mono. Qed.

Lemma map_inv_quiet w w' l t : quiet w w' → map_inv w l t → map_inv w' l t.
Proof.
  intros Hq []. split; rewrite ?(q_cache _ _ Hq), ?(q_tracked _ _ Hq), ?(q_queues _ _ Hq); try done. by eapply index_inv_quiet.
Qed.

Lemma map_inv_rearranged w w' l l' t t' : map_inv w l t → rearranged w w' l l' t t' → map_inv w' l' t'.
Proof.
  intros [] [R1 R2 R3 R4]. split; rewrite ?(cm_cache _ _ R4), ?(cm_tracked _ _ R4), ?(cm_queues _ _ R4); try done. by eapply requests_mono.
Qed.

Lemma map_inv_queue w l t i q' :
  map_inv w l t → Forall (request_ok t) (q_contents q') → map_inv (set_queues (<[i := q']> (maintenance_queues w)) w) l t.
Proof. intros [] Hq. split; try done; [by apply index_inv_queues|]. by apply Forall_insert. Qed.

(** One of the queues has received the request [r]; the others are as before. *)
Definition queued (r : FaunusMaintenanceRPC) (qs qs' : list (Q FaunusMaintenanceRPC)) : Prop :=
  ∃ i q q', qs !! i = Some q ∧ qs' = <[i := q']> qs ∧ q_contents q' ≡ₚ r :: q_contents q.

Lemma request_smo_run w l t a :
  map_inv w l t → a ∈ leaf_addrs t → (FAUNUS_MAINTENANCE_ENABLED = true → maintenance_queues w ≠ []) →
  ∃ w', request_smo (C := C) SPLIT a w = Done true w' ∧ map_inv w' l t ∧ w_rand w' = w_rand w ∧
    (FAUNUS_MAINTENANCE_ENABLED = true → queued (mkRPC SPLIT a) (maintenance_queues w) (maintenance_queues w')).
Proof.
  intros Hm Ha Hne. unfold request_smo. destruct FAUNUS_MAINTENANCE_ENABLED; [|by exists w]. specialize (Hne eq_refl).
  set (qs := maintenance_queues w) in *. assert (0 < length qs)%nat as Hpos by (destruct qs; [done|cbn; lia]).
  erewrite bind_done by reflexivity. fold qs. rewrite (proj2 (Nat.eqb_neq _ _)) by lia. set (i := Z.to_nat _).
  assert (i < length qs)%nat as Hi by (subst i; pose proof (Z.mod_pos_bound (hash_int a) (Z.of_nat (length qs)) ltac:(lia)); lia).
  destruct (lookup_lt_is_Some_2 qs i Hi) as [q Hq].
  exists (set_queues (<[i := q_enqueue (mkRPC SPLIT a) q]> qs) w).
  split; [|split; [|split; [done|intros _; exists i, q, (q_enqueue (mkRPC SPLIT a) q); split_and!; [done|done|apply q_contents_enqueue]]]].
  - erewrite bind_done; [reflexivity|]. unfold on_queue. fold qs. by rewrite Hq.
  - apply map_inv_queue; [done|]. rewrite q_contents_enqueue. constructor; [done|].
    pose proof (mi_requests _ _ _ Hm) as Hr. rewrite Forall_lookup in Hr. by eapply Hr.
Qed.

(** What an insert needs beside a slot for its key: a block for the item, and a queue
    for the request or, when the maintenance is off, blocks for a split. *)
Record insert_ready fuel (depth : nat) w (l : nat) : Prop := mkInsertReady {
  ir_fuel : (l < Pos.to_nat fuel)%nat;
  ir_item : (0 < nfree (w_slabs w) sizeof_KVItem)%nat;
  ir_smo : if FAUNUS_MAINTENANCE_ENABLED then maintenance_queues w ≠ [] else split_ready fuel depth w l 2
}.

Lemma leaf_addrs_descend key n : ∀ t a leaf items, descend n key t = Some (TLeaf a leaf items) → a ∈ leaf_addrs t.
Proof.
  induction n as [|n IH]; intros t a leaf items Hd; (destruct t as [|a0 nd ts]; cbn in Hd; simplify_eq); [left|].
  destruct (ts !! rank (seps nd) key) as [t'|] eqn:Ht; [|done]. apply IH in Hd. cbn [leaf_addrs].
  apply list_elem_of_In, in_concat. exists (leaf_addrs t'). split; [|by apply list_elem_of_In].
  apply in_map, list_elem_of_In. by eapply list_elem_of_lookup_2.
Qed.

(** What an insert does for the leaf [a] of its key, to which it has added the [n]-th
    entry: nothing while there are at most as many as the split threshold; otherwise it
    queues a request to split the leaf or, when there is no maintenance, it has split it
    if it held more than half its capacity. *)
Definition leaf_kept_small (qs qs' : list (Q FaunusMaintenanceRPC)) (a : GlobalAddress) (n l' : nat) (key : Z) t' : Prop :=
  if (split_threshold <? n)%nat then
    if FAUNUS_MAINTENANCE_ENABLED then queued (mkRPC SPLIT a) qs qs'
    else qs' = qs ∧ ∃ a' leaf' items', descend l' key t' = Some (TLeaf a' leaf' items') ∧
           (length items' ≤ if branch_factor / 2 <? n then n - n / 2 else n)%nat
  else qs' = qs.

Lemma stored_num_used (c : Cluster Q) lo hi a leaf items : stored c 0 lo hi (TLeaf a leaf items) → num_used leaf = length items.
Proof. intros Hst. inversion Hst as [? ? ? ? ? li Hh Hok Hhd Hits Hlk Hnd Hrg|]; subst. exact (Forall2_length Hits). Qed.

(** [insert_finish] on a leaf of the tree keeps the contents, whatever it has to do. *)
Lemma finish_run fuel depth junk local_ptr w l t key a leaf items :
  map_inv w l t → key_min ≤ key < key_max → descend l key t = Some (TLeaf a leaf items) →
  (if FAUNUS_MAINTENANCE_ENABLED then maintenance_queues w ≠ [] else split_ready fuel depth w l 1) →
  ∃ w' l' t', insert_finish (C := C) (Ent := Ent) fuel depth junk local_ptr key a leaf None w = Done true w' ∧
    map_inv w' l' t' ∧ contents t' = contents t ∧ (l ≤ l' ≤ S l)%nat ∧ (w_rand w').1 = (w_rand w).1 ∧
    leaf_kept_small (maintenance_queues w) (maintenance_queues w') a (num_used leaf) l' key t'.
Proof.
  intros Hm Hkey Hd Hsr. pose proof (mi_inv _ _ _ Hm) as Hinv. pose proof (mi_tracked _ _ _ Hm) as Htr.
  destruct (descend_stored _ key l l _ _ t (mo_tree _ _ _ _ (iv_memory _ _ _ Hinv)) Hkey ltac:(lia)) as (t0 & lo & hi & Hd' & Hst & Hk & _).
  rewrite Hd in Hd'. injection Hd' as <-. rewrite Nat.sub_diag in Hst.
  unfold leaf_kept_small. destruct (le_gt_dec (num_used leaf) split_threshold) as [Hle|Hgt].
  { destruct (insert_finish_run (Ent := Ent) fuel depth junk local_ptr w a leaf items lo hi key (iv_others _ _ _ Hinv) Htr Hst Hk Hle) as (w' & Hrun & Hq).
    exists w', l, t. split; [done|]. split; [by eapply map_inv_quiet|]. rewrite (q_queues _ _ Hq), (q_rand _ _ Hq), (proj2 (Nat.ltb_ge _ _)) by done.
    split_and!; [done|lia|lia|done..]. }
  rewrite (proj2 (Nat.ltb_lt _ _) Hgt). pose proof (stored_num_used _ _ _ _ _ _ Hst) as Hnu.
  inversion Hst as [? ? ? ? ? li Hh Hok Hhd Hits Hlk Hnd Hrg|]; subst. unfold insert_finish, in_fence. rewrite Hhd. cbn [lock fence_first fence_second Z.eqb negb orb].
  rewrite (proj2 (Z.leb_le _ _)), (proj2 (Z.ltb_lt _ _)) by lia. cbn [andb negb]. rewrite (proj2 (Nat.ltb_lt _ _)) by lia.
  pose proof (leaf_addrs_descend key l t a leaf items Hd) as Ha.
  assert (∃ w1 l' t', (if FAUNUS_MAINTENANCE_ENABLED then request_smo (C := C) SPLIT a
                       else _ ← split_leaf (Ent := Ent) fuel depth junk a; mret true) w = Done true w1 ∧
            map_inv w1 l' t' ∧ contents t' = contents t ∧ (l ≤ l' ≤ S l)%nat ∧ (w_rand w1).1 = (w_rand w).1 ∧
            if FAUNUS_MAINTENANCE_ENABLED then queued (mkRPC SPLIT a) (maintenance_queues w) (maintenance_queues w1)
            else maintenance_queues w1 = maintenance_queues w ∧ ∃ a' leaf' items', descend l' key t' = Some (TLeaf a' leaf' items') ∧
              (length items' ≤ if branch_factor / 2 <? num_used leaf then num_used leaf - num_used leaf / 2 else num_used leaf)%nat)
    as (w1 & l' & t' & Hrun & Hm1 & Hct & Hl & Hrd & Hsmall).
  { destruct FAUNUS_MAINTENANCE_ENABLED eqn:E.
    - destruct (request_smo_run w l t a Hm Ha) as (w' & Hrun & Hm' & Hrd & Hqs); [done|]. exists w', l, t. rewrite Hrd. split_and!; try done; try lia. by apply Hqs.
    - destruct (split_leaf_of_key (Ent := Ent) fuel depth junk w l t key a leaf items 0 Hinv Hsr Hkey Hd) 
        as (w' & l' & t' & Hrun & Hr & Hl & a' & leaf' & items' & Hd2 & Hn2).
      exists w', l', t'. split; [by erewrite bind_done by exact Hrun|]. split; [by eapply map_inv_rearranged|]. destruct Hr as [_ Hct _ Hc].
      rewrite (cm_queues _ _ Hc), (cm_rand _ _ Hc). split_and!; try done; try lia.
      exists a', leaf', items'. split; [done|]. rewrite Hnu. destruct (branch_factor / 2 <? length items)%nat; [lia|by subst]. }
  destruct (record_cache_access_run (Ent := Ent) None w1 (mi_tracked _ _ _ Hm1)) as (w2 & H2 & Hq2).
  exists w2, l', t'. split; [|split; [by eapply map_inv_quiet|by rewrite (q_queues _ _ Hq2), (q_rand _ _ Hq2)]].
  erewrite bind_done by exact Hrun. erewrite bind_done by reflexivity. by erewrite bind_done by exact H2.
Qed.

Lemma insert_map_run fuel depth junk local_ptr w l t key value k :
  map_inv w l t → insert_ready fuel depth w l → key_min ≤ key < key_max → 0 ≤ value < 256 ^ Z.of_nat VALUE_SIZE →
  branch_factor = (2 ^ k)%nat → (∀ t0, descend l key t = Some t0 → has_slot key t0) →
  ∃ w' l' t', insert (C := C) (Ent := Ent) fuel depth junk local_ptr key value w = Done true w' ∧
    map_inv w' l' t' ∧ contents t' = <[key := value]> (contents t) ∧ (l ≤ l' ≤ S l)%nat ∧
    (w_rand w').1 = (w_rand w).1 ∧
    ∀ a leaf items, descend l key t = Some (TLeaf a leaf items) →
      if bool_decide (key ∈ map item_key items) then maintenance_queues w' = maintenance_queues w
      else leaf_kept_small (maintenance_queues w) (maintenance_queues w') a (S (length items)) l' key t'.
Proof.
  intros [Hinv Hc Htr Hreq] [Hf Hi Hs] Hkey Hval Hbf Hslot.
  destruct (insert_run (Ent := Ent) fuel depth junk local_ptr w l t key value k) as (t1 & w1 & [I1 I2 I3 I4 I5 I6 I7 I8] & Hrun); try done.
  assert (map_inv w1 l t1) as Hm1 by (split; try done; rewrite I6; by eapply (requests_mono t); [rewrite I3|]).
  destruct Hrun as (a & leaf & items & Hd & Hrun).
  destruct (descend_stored _ key l l _ _ t (mo_tree _ _ _ _ (iv_memory _ _ _ Hinv)) Hkey ltac:(lia)) as (t0 & lo & hi & Hd0 & Hst & _).
  rewrite Hd in Hd0. injection Hd0 as <-. rewrite Nat.sub_diag in Hst. pose proof (stored_num_used _ _ _ _ _ _ Hst) as Hnu.
  destruct Hrun as [[Hrun Hin]|(Hnin & leaf' & items' & Hd' & Hn & Hrun)].
  - exists w1, l, t1. rewrite I6, I7. split_and!; try done; try lia. intros ? ? ? Hd2. rewrite Hd in Hd2. injection Hd2 as <- <- <-.
    by rewrite bool_decide_true.
  - destruct (finish_run fuel depth junk local_ptr w1 l t1 key a leaf' items' Hm1 Hkey Hd') as (w' & l' & t' & Hfin & Hm' & Hct & Hl & Hrd & Hsm).
    { destruct FAUNUS_MAINTENANCE_ENABLED; [by rewrite I6|]. destruct Hs as [S1 S2 S3 S4 S5 S6 S7 S8].
      pose proof (I8 sizeof_LeafNode). pose proof (I8 sizeof_InternalNode). split; rewrite ?I7; try done; lia. }
    exists w', l', t'. rewrite Hrun, Hct, Hrd, I7. split_and!; try done; try lia. intros ? ? ? Hd2. rewrite Hd in Hd2. injection Hd2 as <- <- <-.
    rewrite bool_decide_false by done. rewrite <-I6. change (length (live leaf)) with (num_used leaf) in Hn. by rewrite <-Hnu, <-Hn.
Qed.

(** C3: [insert] implements the update of the abstract map, for a thread that runs
    alone on an index without a cache whose branch factor is a power of two: in an index
    that holds the tree [t], an insert of a key whose leaf has the key or a free slot,
    with a block for the item in the allocator's free list, terminates, reports success,
    and leaves an index that holds a tree [t'] whose contents are those of [t] with the
    key mapped to the value.  When the key is new and its leaf goes over the split
    threshold, exactly one request, to split that leaf, has been put into one of the
    maintenance queues; when the maintenance is compiled out (and there are blocks for
    the new nodes and the generator is fair), the leaf has been split instead: the leaf
    of the key holds at most the larger half, and the tree may have one level more.  In
    all other cases the queues are as before.  The tree is well formed again, its
    blocks, the root pointer and all free blocks are again pairwise disjoint granted
    memory, and the requests in the queues name leaves of it, so the next operation can
    run on it. *)
Theorem insert_refines fuel depth junk local_ptr w l t key value k :
  map_inv w l t → insert_ready fuel depth w l → key_min ≤ key < key_max → 0 ≤ value < 256 ^ Z.of_nat VALUE_SIZE →
  branch_factor = (2 ^ k)%nat → (∀ t0, descend l key t = Some t0 → has_slot key t0) →
  ∃ w' l' t', insert (C := C) (Ent := Ent) fuel depth junk local_ptr key value w = Done true w' ∧
    map_inv w' l' t' ∧ contents t' = <[key := value]> (contents t) ∧ (l ≤ l' ≤ S l)%nat ∧
    ∀ a leaf items, descend l key t = Some (TLeaf a leaf items) →
      if bool_decide (key ∈ map item_key items) then maintenance_queues w' = maintenance_queues w
      else leaf_kept_small (maintenance_queues w) (maintenance_queues w') a (S (length items)) l' key t'.
Proof.
  intros. destruct (insert_map_run fuel depth junk local_ptr w l t key value k) as (w' & l' & t' & ? & ? & ? & ? & _ & ?); try done.
  by exists w', l', t'.
Qed.

(** Insert then lookup: after an insert of [key] with a slot in its leaf, a read
    of any key returns the inserted value for [key] and what the index held before
    for every other key. *)
Theorem insert_then_read fuel depth junk local_ptr w l t key value k key' :
  map_inv w l t → insert_ready fuel depth w l → key_min ≤ key < key_max → 0 ≤ value < 256 ^ Z.of_nat VALUE_SIZE →
  branch_factor = (2 ^ k)%nat → (∀ t0, descend l key t = Some t0 → has_slot key t0) →
  (S l < Pos.to_nat fuel)%nat → key_min ≤ key' < key_max →
  ∃ w', (_ ← insert (C := C) (Ent := Ent) fuel depth junk local_ptr key value; read (Ent := Ent) fuel local_ptr key') w =
    Done (if decide (key = key') then Some value else contents t !! key') w'.
Proof.
  intros Hm Hr Hkey Hval Hbf Hslot Hf Hkey'.
  destruct (insert_map_run fuel depth junk local_ptr w l t key value k) as (w1 & l1 & t1 & Hrun & Hm1 & Hct & Hl & _); try done.
  destruct (read_run (Ent := Ent) fuel local_ptr w1 l1 t1 key' (index_inv_ok _ _ _ (mi_inv _ _ _ Hm1)) (mi_cache _ _ _ Hm1) Hkey') as (w2 & _ & Hread & _); [lia|].
  exists w2. erewrite bind_done by exact Hrun. rewrite Hread, Hct, lookup_insert. done.
Qed.
End inserts.

(** ** Histories *)

Section history.
Context {cfg : FaunusConfig}.
Context {Q : Type → Type} `{!ConcurrentQueue Q}.
Context {C Ent : Type} `{!NodeCache C Ent (GlobalAddress * InternalNode)}.
Implicit Types (w : World Q C) (t : tree).

Lemma header_slice (c : Cluster Q) a h rest :
  holds c a (enc_Header h ++ rest) → header_ok h → dec_Header (slice (Z.to_nat (offset a)) sizeof_Header (region_of c a)) = h.
Proof.
  intros Hh%holds_prefix%holds_slice Hok. rewrite length_enc_Header in Hh. rewrite Hh, <-(app_nil_r (enc_Header h)). by apply dec_enc_Header.
Qed.

(** The objects of a stored tree can be read back from the memories. *)
Lemma load_leaf (c : Cluster Q) lo hi a leaf items n :
  stored c 0 lo hi (TLeaf a leaf items) → load_tree (S n) c a = Some (TLeaf a leaf items).
Proof.
  intros Hst. inversion Hst as [? ? ? ? ? li Hh Hok Hhd Hits Hlk Hnd Hrg|]; subst. cbn [load_tree]. pose proof Hok as (Hho & Hlen & _).
  rewrite (header_slice c a (lheader leaf) _ Hh Hho), Hhd. cbn [level Z.eqb]. apply holds_slice in Hh.
  rewrite length_enc_LeafNode in Hh by done. rewrite Hh, dec_enc_LeafNode by done. do 2 f_equal.
  revert Hits. clear. generalize (live leaf). intros bs. induction 1 as [|b kv bs its (Hh & Hok & _) Hits IH]; [done|]. cbn [map]. f_equal; [|done].
  apply holds_slice in Hh. rewrite length_enc_KVItem in Hh. by rewrite Hh, dec_enc_KVItem.
Qed.

Lemma load_tree_stored (c : Cluster Q) l : ∀ lo hi t n,
  stored c l lo hi t → load_tree n c (addr_of t) = if (l <? n)%nat then Some t else None.
Proof.
  induction l as [|l IH]; intros lo hi t [|n] Hst; try done.
  { destruct t as [a leaf items|]; [|by inversion Hst]. by eapply load_leaf. }
  inversion Hst as [|? ? ts ? ? ? Hh Hok Hs Hlk Hlv Hf1 Hf2 Hb Hsp Hk Ha Hts]; subst. cbn [load_tree addr_of]. pose proof Hok as (Hho & _).
  pose proof Hh as Hh'. unfold enc_InternalNode, pad_to in Hh'. rewrite <-app_assoc in Hh'.
  rewrite (header_slice c a (iheader n0) _ Hh' Hho), Hlv. rewrite (proj2 (Z.eqb_neq _ _)) by lia.
  apply holds_slice in Hh. rewrite length_enc_InternalNode in Hh by apply Hok. rewrite Hh, dec_enc_InternalNode, Hk by done.
  pose proof (stored_kids _ _ _ _ _ _ _ Hst) as Hlen.
  assert (∀ t, t ∈ ts → load_tree n c (addr_of t) = if (l <? n)%nat then Some t else None) as Hall.
  { intros t (i & Hi)%list_elem_of_lookup. pose proof (lookup_lt_Some _ _ _ Hi) as Hlt.
    destruct (lookup_lt_is_Some_2 (bounds (fence_first (iheader n0)) (fence_second (iheader n0)) n0) i) as [b Hb1];
      [unfold bounds; cbn [length]; rewrite length_app; cbn [length]; lia|].
    destruct (lookup_lt_is_Some_2 (bounds (fence_first (iheader n0)) (fence_second (iheader n0)) n0) (S i)) as [b' Hb2];
      [unfold bounds; cbn [length]; rewrite length_app; cbn [length]; lia|].
    by apply (IH b b' t n), (Hts i). }
  change (S l <? S n)%nat with (l <? n)%nat. destruct (l <? n)%nat.
  - assert (mapM (load_tree n c) (map addr_of ts) = Some ts) as ->; [|done].
    clear -Hall. induction ts as [|t ts IH]; [done|]. cbn. rewrite (Hall t) by left. cbn. rewrite IH; [done|]. intros t' ?. apply Hall. by right.
  - destruct ts as [|t ts]; [done|]. cbn. by rewrite (Hall t) by left.
Qed.

Variables (fuel : positive) (depth : nat) (junk local_ptr : Z).

(** The tree of the index, read from the memories, and its height. *)
Definition tree_of w : option tree :=
  let root := root_offset_pointer_ w in
  load_tree (Pos.to_nat fuel) (cl w) (le_val (slice (Z.to_nat (offset root)) 8 (region_of (cl w) root))).

Definition height t : nat := match t with TLeaf _ _ _ => O | TNode _ n _ => Z.to_nat (level (iheader n)) end.

Lemma tree_of_inv w l t : index_inv w l t → tree_of w = (if (l <? Pos.to_nat fuel)%nat then Some t else None) ∧ height t = l.
Proof.
  intros [_ _ [_ Hr _ Ha Hst _] _]. split.
  - unfold tree_of. apply holds_slice in Hr. rewrite length_le_bytes in Hr. rewrite Hr, le_val_le_bytes.
    rewrite Z.mod_small by (change (256 ^ Z.of_nat 8) with (2 ^ 64); unfold ga_ok, in_width in Ha; lia). by eapply load_tree_stored.
  - destruct t as [|a n ts]; inversion Hst; subst; [done|]. cbn [height].
    match goal with H : level _ = _ |- _ => rewrite H end. lia.
Qed.

Lemma tree_of_some w l t t' : index_inv w l t → tree_of w = Some t' → t' = t ∧ height t' = l ∧ (l < Pos.to_nat fuel)%nat.
Proof.
  intros H H'. destruct (tree_of_inv w l t H) as [Ht Hh]. rewrite H' in Ht. destruct (Nat.ltb_spec l (Pos.to_nat fuel)); [|done].
  injection Ht as ->. done.
Qed.

(** A fresh compute server with an allocator that has a block for the root pointer
    and one for the root. *)
Record ffresh w : Prop := mkFFresh {
  fr_alloc : local_inv (w_slabs w, cl w) [];
  fr_fits : fits (cl w);
  fr_fresh : fresh (cl w);
  fr_others : others (w_net w) = [];
  fr_key : (0 < KEY_SIZE)%nat;
  fr_factor : ∃ k, branch_factor = (2 ^ k)%nat;
  fr_cache : faunus_cache_ w = None;
  fr_tracked : tracked (mgr (w_net w)) = true;
  fr_queues : maintenance_queues w = [];
  fr_pointer : (0 < nfree (w_slabs w) 8)%nat;
  fr_leaf : (0 < nfree (w_slabs w) sizeof_LeafNode)%nat
}.

(** When an insert of [key] can run, and a maintenance worker on a queue. *)
Definition insertable w (key : Z) : Prop :=
  ∃ t, tree_of w = Some t ∧ insert_ready fuel depth w (height t) ∧ ∀ t0, descend (height t) key t = Some t0 → has_slot key t0.

Definition workable w (cs_id n : nat) : Prop :=
  ∃ t q, tree_of w = Some t ∧ maintenance_queues w !! cs_id = Some q ∧ length (q_contents q) = n ∧
    Exists (λ r, rpc_op r = STOP) (q_contents q) ∧ split_ready fuel depth w (height t) n.

Abbreviation do_insert := (insert (C := C) (Ent := Ent) fuel depth junk local_ptr).
Abbreviation do_read := (read (C := C) (Ent := Ent) fuel local_ptr).
Abbreviation do_work n cs_id polls latency := (maintenance_worker (C := C) (Ent := Ent) fuel depth junk n cs_id (S polls) (λ _, []) latency 0).

(** Runs of [initialize] and then of inserts, reads, requests to stop and maintenance
    workers, as long as slots and blocks last; with the pairs inserted, the last one
    first. *)
Inductive fhistory w0 : list (Z * Z) → World Q C → Prop :=
| fh_initialize n w : initialize n w0 = Done true w → fhistory w0 [] w
| fh_insert kvs w key value r w' :
    fhistory w0 kvs w → insertable w key → key_min ≤ key < key_max → 0 ≤ value < 256 ^ Z.of_nat VALUE_SIZE →
    do_insert key value w = Done r w' → fhistory w0 ((key, value) :: kvs) w'
| fh_read kvs w key r w' :
    fhistory w0 kvs w → is_Some (tree_of w) → key_min ≤ key < key_max → do_read key w = Done r w' → fhistory w0 kvs w'
| fh_finalize kvs w n r w' : fhistory w0 kvs w → finalize n w = Done r w' → fhistory w0 kvs w'
| fh_worker kvs w n cs_id polls latency p w' :
    fhistory w0 kvs w → workable w cs_id n → do_work n cs_id polls latency w = Done p w' → fhistory w0 kvs w'.

Lemma initialize_map w0 n w : ffresh w0 → initialize n w0 = Done true w → ∃ t, map_inv w 0 t ∧ contents t = ∅ ∧ w_rand w = w_rand w0.
Proof.
  intros [] Hrun. destruct (nfree_slab _ _ _ _ fr_alloc0 fr_pointer0) as (sl8 & Hs8 & Hn8).
  destruct (nfree_slab _ _ _ _ fr_alloc0 fr_leaf0) as (sll & Hsl & Hnl).
  destruct (initialize_run w0 n sl8 sll) as (a & w' & Hrun' & Hinv & Hc & Ht & Hqs & Hrd); try done.
  rewrite Hrun in Hrun'. injection Hrun' as <-. exists (TLeaf a root_leaf []). split; [|done].
  split; [done|congruence|congruence|]. rewrite Hqs. destruct (0 <? n)%nat; [|by rewrite fr_queues0].
  apply Forall_replicate. rewrite q_contents_empty. constructor.
Qed.

Lemma finalize_map w l t n : map_inv w l t → ∃ w', finalize n w = Done true w' ∧ map_inv w' l t ∧ w_rand w' = w_rand w.
Proof.
  intros [M1 M2 M3 M4]. unfold finalize, stop_maintenance. erewrite bind_done by reflexivity. eexists. split; [reflexivity|].
  split; [|done]. split; [by apply index_inv_queues|done|done|]. cbn [set_queues maintenance_queues]. apply Forall_map. eapply Forall_impl; [|exact M4].
  intros q Hq. rewrite q_contents_enqueue_all, Forall_app. split; [|done]. by apply Forall_replicate.
Qed.

Lemma worker_map w l t n cs_id polls latency :
  map_inv w l t → workable w cs_id n → ∃ p w' l' t', do_work n cs_id polls latency w = Done p w' ∧ map_inv w' l' t' ∧ contents t' = contents t ∧
    (w_rand w').1 = (w_rand w).1.
Proof.
  intros Hm (t0 & q & Ht & Hq & Hn & Hex & Hsr). destruct (tree_of_some w l t t0 (mi_inv _ _ _ Hm) Ht) as (-> & Hh & _). rewrite Hh in Hsr.
  pose proof (mi_requests _ _ _ Hm) as Hreq. rewrite Forall_lookup in Hreq. specialize (Hreq _ _ Hq).
  destruct (worker_run (Ent := Ent) fuel depth junk cs_id polls latency n w l t q 0 (mi_inv _ _ _ Hm) Hsr Hq Hreq Hex) as (xs & x & q' & w' & l' & t' & Hp & _ & _ & Hrun & Hr & _); [lia|].
  eexists _, w', l', t'. split; [exact Hrun|]. split; [|split; [apply Hr|apply (cm_rand _ _ (ra_calm _ _ _ _ _ _ Hr))]]. eapply map_inv_rearranged; [|exact Hr].
  apply map_inv_queue; [done|]. rewrite Hp, Forall_app, Forall_cons_iff in Hreq. apply Hreq.
Qed.

Lemma fhistory_inv w0 kvs w :
  ffresh w0 → fhistory w0 kvs w → ∃ l t, map_inv w l t ∧ contents t = list_to_map kvs ∧ (w_rand w).1 = (w_rand w0).1.
Proof.
  intros Hf. destruct (fr_factor _ Hf) as [k Hbf].
  induction 1 as [n w H|kvs w key value r w' _ (l & t & Hm & Hct & Hrd) (t0 & Ht & Hir & Hsl) Hk Hv H|kvs w key r w' _ (l & t & Hm & Hct & Hrd) [t0 Ht] Hk H
                 |kvs w n r w' _ (l & t & Hm & Hct & Hrd) H|kvs w n cs_id polls latency p w' _ (l & t & Hm & Hct & Hrd) Hw H].
  - destruct (initialize_map w0 n w Hf H) as (t & Hm & Hct & Hrd). exists 0%nat, t. by rewrite Hrd.
  - destruct (tree_of_some w l t t0 (mi_inv _ _ _ Hm) Ht) as (-> & Hh & _). rewrite Hh in *.
    destruct (insert_map_run (Ent := Ent) fuel depth junk local_ptr w l t key value k Hm Hir Hk Hv Hbf Hsl) as (w2 & l' & t' & H' & Hm' & Hct' & _ & Hrd' & _).
    rewrite H in H'. injection H' as -> <-. exists l', t'. split; [done|]. by rewrite Hct', Hct, Hrd'.
  - destruct (tree_of_some w l t t0 (mi_inv _ _ _ Hm) Ht) as (_ & _ & Hl).
    destruct (read_run (Ent := Ent) fuel local_ptr w l t key (index_inv_ok _ _ _ (mi_inv _ _ _ Hm)) (mi_cache _ _ _ Hm) Hk Hl) as (w2 & _ & H' & Hq).
    rewrite H in H'. injection H' as _ <-. exists l, t. split; [by eapply map_inv_quiet|]. by rewrite (q_rand _ _ Hq).
  - destruct (finalize_map w l t n Hm) as (w2 & H' & Hm' & Hrd'). rewrite H in H'. injection H' as _ <-. exists l, t. by rewrite Hrd'.
  - destruct (worker_map w l t n cs_id polls latency Hm Hw) as (p' & w2 & l' & t' & H' & Hm' & Hct' & Hrd'). rewrite H in H'. injection H' as _ <-.
    exists l', t'. split; [done|]. by rewrite Hct', Hrd'.
Qed.

(** C1: the Faunus index behaves as a finite map from [initialize] on.  After any
    sequence of inserts, reads, requests to stop and runs of maintenance workers, by
    a thread alone without cache, a read returns the value inserted last for its key
    and nothing for the other keys; the next insert of a key whose leaf has a slot
    succeeds while blocks last; and the next run of a worker on a queue with a STOP ends
    and leaves all this true: the splits that happened meanwhile, at whatever levels,
    cannot be seen. *)
Theorem faunus_history w0 kvs w key value :
  ffresh w0 → fhistory w0 kvs w → key_min ≤ key < key_max →
  (is_Some (tree_of w) → ∃ w', do_read key w = Done ((list_to_map kvs : gmap Z Z) !! key) w') ∧
  (insertable w key → 0 ≤ value < 256 ^ Z.of_nat VALUE_SIZE →
   ∃ w', do_insert key value w = Done true w' ∧ fhistory w0 ((key, value) :: kvs) w') ∧
  (∀ cs_id n polls latency, workable w cs_id n → ∃ p w', do_work n cs_id polls latency w = Done p w' ∧ fhistory w0 kvs w').
Proof.
  intros Hf Hh Hk. destruct (fhistory_inv w0 kvs w Hf Hh) as (l & t & Hm & Hct & _). destruct (fr_factor _ Hf) as [k Hbf]. split; [|split].
  - intros [t0 Ht]. destruct (tree_of_some w l t t0 (mi_inv _ _ _ Hm) Ht) as (_ & _ & Hl).
    destruct (read_run (Ent := Ent) fuel local_ptr w l t key (index_inv_ok _ _ _ (mi_inv _ _ _ Hm)) (mi_cache _ _ _ Hm) Hk Hl) as (w' & _ & H & _).
    exists w'. by rewrite H, Hct.
  - intros Hi Hv. pose proof Hi as (t0 & Ht & Hir & Hsl). destruct (tree_of_some w l t t0 (mi_inv _ _ _ Hm) Ht) as (-> & Hht & _). rewrite Hht in *.
    destruct (insert_map_run (Ent := Ent) fuel depth junk local_ptr w l t key value k Hm Hir Hk Hv Hbf Hsl) as (w' & _ & _ & H & _).
    exists w'. split; [done|]. by eapply fh_insert.
  - intros cs_id n polls latency Hw. destruct (worker_map w l t n cs_id polls latency Hm Hw) as (p & w' & _ & _ & H & _).
    exists p, w'. split; [done|]. by eapply fh_worker.
Qed.
End history.

(** ** The conditions as computations *)

#[export] Instance op_type_eq_dec : EqDecision OpType.
Proof. solve_decision. Defined.

#[export] Instance request_ok_dec t r : Decision (request_ok t r).
Proof. unfold request_ok. destruct (rpc_op r); apply _. Defined.

#[export] Instance has_slot_of_dec {cfg : FaunusConfig} key (o : option tree) : Decision (∀ t0, o = Some t0 → has_slot key t0).
Proof.
  destruct o as [t|]; [|by left]. destruct (decide (has_slot key t)) as [H|H]; [left; by intros ? [= <-]|right; intros Ha; by apply H, Ha].
Defined.

Section check.
Context {cfg : FaunusConfig}.
Context {Q : Type → Type} `{!ConcurrentQueue Q}.
Context {C : Type}.
Implicit Types (w : World Q C) (t : tree).

Definition split_check fuel (depth : nat) w (l n : nat) : bool :=
  match faunus_cache_ w with None => true | Some _ => false end && bool_decide (3 ≤ branch_factor)%nat && (Z.of_nat (n + l) <? 2 ^ 64) &&
  bool_decide (n + l ≤ Pos.to_nat fuel)%nat && bool_decide (n + l ≤ depth)%nat &&
  bool_decide (n * (2 + n + l) ≤ nfree (w_slabs w) sizeof_LeafNode)%nat &&
  bool_decide (n * (2 + n + l) ≤ nfree (w_slabs w) sizeof_InternalNode)%nat.

Lemma split_check_sound fuel depth w l n :
  rand_fair fuel (w_rand w).1 → split_check fuel depth w l n = true → split_ready fuel depth w l n.
Proof.
  unfold split_check. rewrite !andb_true_iff, !bool_decide_eq_true. intros Hf ((((((H1 & H2) & H3%Z.ltb_lt) & H4) & H5) & H6) & H7).
  split; try done. by destruct (faunus_cache_ w).
Qed.

Definition insert_check fuel (depth : nat) w (l : nat) : bool :=
  bool_decide (l < Pos.to_nat fuel)%nat && bool_decide (0 < nfree (w_slabs w) sizeof_KVItem)%nat &&
  (if FAUNUS_MAINTENANCE_ENABLED then match maintenance_queues w with [] => false | _ => true end else split_check fuel depth w l 2).

Lemma insert_check_sound fuel depth w l :
  rand_fair fuel (w_rand w).1 → insert_check fuel depth w l = true → insert_ready fuel depth w l.
Proof.
  unfold insert_check. rewrite !andb_true_iff, !bool_decide_eq_true. intros Hf ((H1 & H2) & H3). split; try done.
  destruct FAUNUS_MAINTENANCE_ENABLED; [by destruct (maintenance_queues w)|by apply split_check_sound].
Qed.

Definition ffresh_check w : bool :=
  match faunus_cache_ w, others (w_net w), maintenance_queues w with None, [], [] => true | _, _, _ => false end &&
  tracked (mgr (w_net w)) && alloc_check (w_slabs w) (cl w) && fresh_check (cl w) && bool_decide (0 < KEY_SIZE)%nat &&
  bool_decide (0 < nfree (w_slabs w) 8)%nat && bool_decide (0 < nfree (w_slabs w) sizeof_LeafNode)%nat.

Lemma ffresh_check_sound w k : branch_factor = (2 ^ k)%nat → ffresh_check w = true → ffresh w.
Proof.
  unfold ffresh_check. rewrite !andb_true_iff, !bool_decide_eq_true. intros Hk ((((((H1 & H2) & [H3 H3']%alloc_check_sound) & H4%fresh_check_sound) & H5) & H6) & H7).
  destruct (faunus_cache_ w) eqn:Ec; [done|]. destruct (others (w_net w)) eqn:Eo; [|done]. destruct (maintenance_queues w) eqn:Eq; [|done].
  split; try done. by exists k.
Qed.

Definition map_check w (l : nat) t : bool :=
  inv_check w l t && match faunus_cache_ w with None => true | Some _ => false end && tracked (mgr (w_net w)) &&
  bool_decide (Forall (λ q, Forall (request_ok t) (q_contents q)) (maintenance_queues w)).

Lemma map_check_sound w l t : map_check w l t = true → map_inv w l t.
Proof.
  unfold map_check. rewrite !andb_true_iff, bool_decide_eq_true. intros (((H1%inv_check_sound & H2) & H3) & H4). split; try done.
  by destruct (faunus_cache_ w).
Qed.
End check.

(** ** Concrete indexes, with the maintenance threads and without *)

(** The draws of the example, no two of which agree in the bits of a fingerprint. *)
Definition demo_rand (n : nat) : Z := Z.of_nat (7 * n + 3).

Lemma demo_rand_fair : rand_fair 20 demo_rand.
Proof.
  intros pos avoid. assert (∀ n, Z.land (u64 (demo_rand n)) 0xFFF = demo_rand n mod 4096) as Hm.
  { intros n. change 0xFFF with (Z.ones 12). rewrite Z.land_ones by lia. unfold u64, wrap. change (2 ^ 12) with 4096.
    apply Z.mod_mod_divide. by exists (2 ^ 52). }
  destruct (decide (demo_rand pos mod 4096 = avoid)) as [<-|Hne]; [exists 1%nat|exists 0%nat]; rewrite Hm, ?Nat.add_0_r; (split; [lia|]); [|done].
  unfold demo_rand. replace (Z.of_nat (7 * (pos + 1) + 3)) with (Z.of_nat (7 * pos + 3) + 7) by lia.
  generalize (Z.of_nat (7 * pos + 3)). intros x. pose proof (Z.div_mod x 4096 ltac:(lia)). pose proof (Z.div_mod (x + 7) 4096 ltac:(lia)).
  pose proof (Z.mod_pos_bound x 4096 ltac:(lia)). pose proof (Z.mod_pos_bound (x + 7) 4096 ltac:(lia)). intros Heq.
  assert (7 = 4096 * ((x + 7) / 4096 - x / 4096)) by lia. lia.
Qed.

Abbreviation FW := (World fifo demo_cache).

Definition demo_start {cfg : FaunusConfig} : option FW :=
  world_init 2 4096 16 None demo_rand (Some (tracker_init stats_init Read)).

Section replay.
Context {cfg : FaunusConfig}.

(** The steps of a history, the last one first, with their conditions checked. *)
Inductive fstep :=
  | Put (key value : Z)
  | Stop (n : nat)
  | Work (cs_id n : nat).

Definition insertable_check (w : FW) (key : Z) : bool :=
  match tree_of 20 w with
  | Some t => insert_check 20 10 w (height t) && bool_decide (∀ t0, descend (height t) key t = Some t0 → has_slot key t0)
  | None => false
  end.

Definition workable_check (w : FW) (cs_id n : nat) : bool :=
  match tree_of 20 w, maintenance_queues w !! cs_id with
  | Some t, Some q => bool_decide (length (q_contents q) = n) && bool_decide (Exists (λ r, rpc_op r = STOP) (q_contents q)) &&
                      split_check 20 10 w (height t) n
  | _, _ => false
  end.

Lemma insertable_check_sound w key : rand_fair 20 (w_rand w).1 → insertable_check w key = true → insertable 20 10 w key.
Proof.
  intros Hf. unfold insertable_check. destruct (tree_of 20 w) as [t|] eqn:Ht; [|done]. intros [H1 H2%bool_decide_eq_true]%andb_true_iff.
  exists t. split; [done|]. split; [by apply insert_check_sound|done].
Qed.

Lemma workable_check_sound w cs_id n : rand_fair 20 (w_rand w).1 → workable_check w cs_id n = true → workable 20 10 w cs_id n.
Proof.
  intros Hf. unfold workable_check. destruct (tree_of 20 w) as [t|] eqn:Ht; [|done]. destruct (maintenance_queues w !! cs_id) as [q|] eqn:Hq; [|done].
  rewrite !andb_true_iff, !bool_decide_eq_true. intros ((H1 & H2) & H3). exists t, q. split_and!; try done. by apply split_check_sound.
Qed.

Fixpoint freplay (w0 : FW) (queues : nat) (steps : list fstep) : option FW :=
  match steps with
  | [] => match initialize queues w0 with Done true w => Some w | _ => None end
  | s :: steps' =>
      match freplay w0 queues steps' with
      | None => None
      | Some w =>
          match s with
          | Put k v =>
              if insertable_check w k && bool_decide (key_min ≤ k < key_max) && bool_decide (0 ≤ v < 256 ^ Z.of_nat VALUE_SIZE)
              then match insert (Ent := nat) 20 10 77 0 k v w with Done _ w' => Some w' | Fault _ _ => None end else None
          | Stop n => match finalize n w with Done _ w' => Some w' | Fault _ _ => None end
          | Work cs_id n =>
              if workable_check w cs_id n
              then match maintenance_worker (Ent := nat) 20 10 77 n cs_id 1 (λ _, []) 5 0 w with Done _ w' => Some w' | Fault _ _ => None end else None
          end
      end
  end.

Definition puts (steps : list fstep) : list (Z * Z) := omap (λ s, match s with Put k v => Some (k, v) | _ => None end) steps.

Lemma freplay_history w0 queues steps w :
  ffresh w0 → rand_fair 20 (w_rand w0).1 → freplay w0 queues steps = Some w →
  fhistory (Ent := nat) 20 10 77 0 w0 (puts steps) w ∧ rand_fair 20 (w_rand w).1.
Proof.
  intros Hf Hr H. assert (fhistory (Ent := nat) 20 10 77 0 w0 (puts steps) w) as Hh.
  2:{ split; [done|]. destruct (fhistory_inv (Ent := nat) 20 10 77 0 w0 (puts steps) w Hf Hh) as (_ & _ & _ & _ & Hrd). by rewrite Hrd. }
  revert w H. induction steps as [|s steps IH]; intros w; cbn [freplay].
  { destruct (initialize queues w0) as [[] w1|] eqn:E; [|done|done]. intros [= <-]. by eapply fh_initialize. }
  destruct (freplay w0 queues steps) as [w1|]; [|done]. specialize (IH w1 eq_refl).
  assert (rand_fair 20 (w_rand w1).1) as Hr1.
  { destruct (fhistory_inv (Ent := nat) 20 10 77 0 w0 (puts steps) w1 Hf IH) as (_ & _ & _ & _ & Hrd). by rewrite Hrd. }
  destruct s as [k v|n|cs_id n].
  - destruct (_ && _) eqn:Eg; [|done]. rewrite !andb_true_iff, !bool_decide_eq_true in Eg. destruct Eg as ((H1%insertable_check_sound & H2) & H3); [|done].
    destruct (insert _ _ _ _ _ _ _) as [r w2|] eqn:Ei; [|done]. intros [= <-]. cbn [puts omap list_omap]. by eapply fh_insert.
  - destruct (finalize n w1) as [r w2|] eqn:Ei; [|done]. intros [= <-]. by eapply fh_finalize.
  - destruct (workable_check w1 cs_id n) eqn:Eg; [|done]. apply workable_check_sound in Eg; [|done].
    destruct (maintenance_worker _ _ _ _ _ _ _ _ _ _) as [r w2|] eqn:Ei; [|done]. intros [= <-]. by eapply (fh_worker _ _ _ _ _ _ _ _ _ 0%nat).
Qed.

(** The state a replay reaches from the concrete start. *)
Lemma demo_reached k queues steps (P : FW → tree → bool) :
  branch_factor = (2 ^ k)%nat →
  match demo_start with
  | Some w0 => ffresh_check w0 &&
      match freplay w0 queues steps with
      | Some w => match tree_of 20 w with Some t => map_check w (height t) t && P w t | None => false end
      | None => false
      end
  | None => false
  end = true →
  ∃ w0 w t, demo_start = Some w0 ∧ ffresh w0 ∧ fhistory (Ent := nat) 20 10 77 0 w0 (puts steps) w ∧ rand_fair 20 (w_rand w).1 ∧
    map_inv w (height t) t ∧ P w t = true.
Proof.
  intros Hk H. destruct demo_start as [w0|] eqn:E0; [|done]. apply andb_true_iff in H as [Hf H]. apply (ffresh_check_sound w0 k Hk) in Hf.
  destruct (freplay w0 queues steps) as [w|] eqn:Er; [|done]. destruct (tree_of 20 w) as [t|] eqn:Et; [|done].
  apply andb_true_iff in H as [Hm HP]. apply map_check_sound in Hm. apply freplay_history in Er as [Hh Hr]; [by exists w0, w, t|done|].
  unfold demo_start, world_init in E0. destruct (local_init _ _ _) as [? [slabs c]|]; [|done]. injection E0 as <-. apply demo_rand_fair.
Qed.
End replay.

(** With maintenance threads: the fourth key fills the root leaf and leaves a request. *)
Section maintained.

Definition maint_cfg : FaunusConfig := {|
  KEY_SIZE := 8; VALUE_SIZE := 8; branch_factor := 4; split_threshold := 3; FAUNUS_MAINTENANCE_ENABLED := true |}.
#[local] Existing Instance maint_cfg.

Definition full_steps : list fstep := [Put 3 30; Put 9 90; Put 7 70; Put 5 50].

Lemma split_leaf_refines_witness :
  ∃ (w : FW) a leaf items, index_inv w 0 (TLeaf a leaf items) ∧ length items = 4%nat ∧
  ∃ w' l' t' a' leaf' items', split_leaf (Ent := nat) 20 10 77 a w = Done true w' ∧
    index_inv w' l' t' ∧ contents t' = contents (TLeaf a leaf items) ∧ (0 ≤ l' ≤ 1)%nat ∧ descend l' 7 t' = Some (TLeaf a' leaf' items') ∧
    (length items' ≤ 2)%nat.
Proof.
  destruct (demo_reached 2 1 full_steps
    (λ w t, split_check 20 10 w 0 1 && match t with TLeaf _ _ items => bool_decide (length items = 4%nat) | _ => false end))
    as (w0 & w & t & _ & _ & _ & Hr & Hm & HP); [reflexivity|vm_compute; reflexivity|].
  apply andb_true_iff in HP as [Hs HP]. apply split_check_sound in Hs; [|exact Hr].
  destruct t as [a leaf items|]; [|discriminate HP]. apply bool_decide_eq_true in HP. exists w, a, leaf, items.
  split; [exact (mi_inv _ _ _ Hm)|]. split; [exact HP|].
  pose proof (split_leaf_refines (Ent := nat) 20 10 77 w 0 (TLeaf a leaf items) 7 a leaf items (mi_inv _ _ _ Hm) Hs) as H.
  rewrite HP in H. apply H; [vm_compute; split; congruence|reflexivity].
Defined.

Lemma maintenance_keeps_contents_witness :
  ∃ (w : FW) t q, index_inv w 0 t ∧ maintenance_queues w !! 0%nat = Some q ∧ map rpc_op q = [SPLIT; STOP] ∧
  ∃ xs x q' w' l' t', maintenance_worker (Ent := nat) 20 10 77 2 0 1 (λ _, []) 5 0 w = Done (Z.of_nat (length xs)) w' ∧
    q_contents q ≡ₚ xs ++ x :: q_contents q' ∧ Forall (λ r, rpc_op r = SPLIT) xs ∧ rpc_op x = STOP ∧
    maintenance_queues w' = <[0%nat := q']> (maintenance_queues w) ∧ Forall (request_ok t') (q_contents q') ∧
    index_inv w' l' t' ∧ contents t' = contents t.
Proof.
  destruct (demo_reached 2 1 (Stop 1 :: full_steps)
    (λ w t, split_check 20 10 w 0 2 && bool_decide (height t = 0%nat) &&
            match maintenance_queues w with [q] => bool_decide (map rpc_op q = [SPLIT; STOP]) | _ => false end))
    as (w0 & w & t & _ & _ & _ & Hr & Hm & HP); [reflexivity|vm_compute; reflexivity|].
  apply andb_true_iff in HP as [HP Hq]. apply andb_true_iff in HP as [Hs Hh%bool_decide_eq_true]. apply split_check_sound in Hs; [|exact Hr].
  rewrite Hh in Hm. pose proof (mi_requests _ _ _ Hm) as Hreq.
  destruct (maintenance_queues w) as [|q [|? ?]] eqn:Eq; [discriminate Hq| |discriminate Hq]. apply bool_decide_eq_true in Hq.
  apply Forall_cons_iff in Hreq as [Hreq _]. exists w, t, q. split; [exact (mi_inv _ _ _ Hm)|]. split; [rewrite Eq; reflexivity|]. split; [exact Hq|].
  apply (maintenance_keeps_contents (Ent := nat) 20 10 77 0 0 5 w 0 t q 2 (mi_inv _ _ _ Hm) Hs); [rewrite Eq; reflexivity|exact Hreq| |].
  - destruct q as [|r1 [|r2 q]]; try discriminate Hq. injection Hq as _ H2 _. right. left. exact H2.
  - change (length q = 2%nat). rewrite <-(length_map rpc_op), Hq. reflexivity.
Defined.

(** The leaf was split by the worker, its right half filled again and the next request
    is in the queue. *)
Definition more_steps : list fstep := Stop 1 :: Put 8 80 :: Put 5 55 :: Put 10 100 :: Work 0 2 :: Stop 1 :: full_steps.

Lemma faunus_history_witness :
  ∃ (w0 w : FW), demo_start = Some w0 ∧ fhistory (Ent := nat) 20 10 77 0 w0 (puts more_steps) w ∧
    (∃ w', read (Ent := nat) 20 0 5 w = Done (Some 55) w') ∧
    (∃ w', insert (Ent := nat) 20 10 77 0 5 56 w = Done true w' ∧ fhistory (Ent := nat) 20 10 77 0 w0 ((5, 56) :: puts more_steps) w') ∧
    (∃ p w', maintenance_worker (Ent := nat) 20 10 77 2 0 1 (λ _, []) 5 0 w = Done p w' ∧ fhistory (Ent := nat) 20 10 77 0 w0 (puts more_steps) w').
Proof.
  destruct (demo_reached 2 1 more_steps
    (λ w t, insertable_check w 5 && workable_check w 0 2 && match tree_of 20 w with Some _ => true | None => false end))
    as (w0 & w & t & H0 & Hf & Hh & Hr & Hm & HP); [reflexivity|vm_compute; reflexivity|].
  apply andb_true_iff in HP as [HP Ht]. apply andb_true_iff in HP as [Hi Hw]. apply insertable_check_sound in Hi; [|exact Hr].
  apply workable_check_sound in Hw; [|exact Hr]. exists w0, w. split; [exact H0|]. split; [exact Hh|].
  destruct (faunus_history (Ent := nat) 20 10 77 0 w0 (puts more_steps) w 5 56 Hf Hh) as (H1 & H2 & H3); [vm_compute; split; congruence|].
  split; [|split].
  - apply H1. destruct (tree_of 20 w) as [t0|]; [exists t0; reflexivity|discriminate Ht].
  - apply H2; [exact Hi|vm_compute; split; congruence].
  - apply H3. exact Hw.
Defined.
End maintained.

(** Without maintenance threads the insert splits the leaf itself. *)
Section inline.
#[local] Existing Instance demo_cfg.

Lemma insert_refines_witness :
  ∃ (w : FW) t a leaf items, map_inv w 0 t ∧ t = TLeaf a leaf items ∧ length items = 3%nat ∧ has_slot 3 t ∧
  ∃ w' l' t', insert (Ent := nat) 20 10 77 0 3 30 w = Done true w' ∧ map_inv w' l' t' ∧
    contents t' = <[3 := 30]> (contents t) ∧ (0 ≤ l' ≤ 1)%nat ∧
    leaf_kept_small (maintenance_queues w) (maintenance_queues w') a 4 l' 3 t'.
Proof.
  destruct (demo_reached 2 0 [Put 9 90; Put 7 70; Put 5 50]
    (λ w t, insert_check 20 10 w 0 && bool_decide (height t = 0%nat) && bool_decide (has_slot 3 t) &&
            match t with TLeaf _ _ items => bool_decide (length items = 3%nat) && bool_decide (3 ∉ map item_key items) | _ => false end))
    as (w0 & w & t & _ & _ & _ & Hr & Hm & HP); [reflexivity|vm_compute; reflexivity|].
  destruct t as [a leaf items|]; [|by rewrite andb_false_r in HP].
  apply andb_true_iff in HP as [HP [Hn%bool_decide_eq_true Hnin%bool_decide_eq_true]%andb_true_iff].
  apply andb_true_iff in HP as [HP Hs%bool_decide_eq_true]. apply andb_true_iff in HP as [Hi Hh%bool_decide_eq_true].
  apply insert_check_sound in Hi; [|exact Hr]. rewrite Hh in Hm. exists w, (TLeaf a leaf items), a, leaf, items.
  split; [exact Hm|]. split; [reflexivity|]. split; [exact Hn|]. split; [exact Hs|].
  destruct (insert_refines (Ent := nat) 20 10 77 0 w 0 (TLeaf a leaf items) 3 30 2 Hm Hi) as (w' & l' & t' & H1 & H2 & H3 & H4 & H5);
    [vm_compute; split; congruence|vm_compute; split; congruence|reflexivity|by intros t0 [= <-]|].
  exists w', l', t'. split; [exact H1|]. split; [exact H2|]. split; [exact H3|]. split; [exact H4|].
  specialize (H5 a leaf items eq_refl). rewrite (bool_decide_false _ Hnin), Hn in H5. exact H5.
Defined.
End inline.
