(* ===== verification/SimpleAllocator.v ===== *)
(** * The in-process allocator: src/rdma/simple_allocator.hpp

    Chunks from [operator new], the addresses of the outstanding ones in a set.  The
    heap behind [operator new] and [operator delete] is the class [OperatorNew]:
    user addresses are positive and below 2^47, and a block that is handed out
    overlaps nothing in use.  The allocator is a [ChunkAllocator], so the theorems
    on slabs hold for it. *)

From S2P Require Import Prelude MemoryServer.

Class OperatorNew (H : Type) := {
  op_new : Z → H → option (Z * H);      (* [None]: std::bad_alloc *)
  op_delete : Z → H → H;
  heap_used : H → Z → Prop;
  op_new_some : ∀ n h p h', op_new n h = Some (p, h') →
    0 < p ∧ p + n ≤ 2 ^ 47 ∧ (∀ a, heap_used h a → heap_used h' a) ∧
    ∀ a, p ≤ a < p + n → ¬ heap_used h a ∧ heap_used h' a
}.

Section simple.
Context {H : Type} `{!OperatorNew H}.

Record SimpleAllocator := mkSimple { allocs_ : gset Z; heap : H }.

Definition simple_allocate (chunk_size : Z) : M SimpleAllocator Z := λ s,
  match op_new chunk_size (heap s) with
  | Some (v, h) => Done v (mkSimple ({[v]} ∪ allocs_ s) h)
  | None => Done (-1) s
  end.

Definition simple_free (chunk_size offset : Z) : M SimpleAllocator unit := modify (λ s,
  if bool_decide (offset ∈ allocs_ s) then mkSimple (allocs_ s ∖ {[offset]}) (op_delete offset (heap s)) else s).

(** [~SimpleAllocator] *)
Definition simple_destroy : M SimpleAllocator unit := modify (λ s,
  mkSimple ∅ (fold_left (λ h p, op_delete p h) (elements (allocs_ s)) (heap s))).

Lemma simple_allocate_spec s size : 0 < size →
  ∃ off s', simple_allocate size s = Done off s' ∧
    (∀ a, heap_used (heap s) a → heap_used (heap s') a) ∧
    (off = -1 ∨ 0 ≤ off ∧ off + size ≤ 2 ^ 50 ∧
      ∀ a, off ≤ a < off + size → ¬ heap_used (heap s) a ∧ heap_used (heap s') a).
Proof.
  intros Hs. unfold simple_allocate. destruct (op_new size (heap s)) as [[v h]|] eqn:E.
  - destruct (op_new_some _ _ _ _ E) as (H1 & H2 & H3 & H4). eexists v, _. split; [done|]. split; [done|]. right.
    split; [lia|]. split; [lia|done].
  - exists (-1), s. split; [done|]. split; [done|]. by left.
Qed.

#[export] Instance simple_chunk_allocator : ChunkAllocator SimpleAllocator.
Proof.
  refine {| ca_allocate := simple_allocate; ca_free := simple_free; ca_ok := λ _, True;
            ca_ready := λ _ n, 0 < n; ca_used := λ s, heap_used (heap s) |}.
  intros s size _ Hs. destruct (simple_allocate_spec s size Hs) as (off & s' & H1 & H2 & H3).
  exists off, s'. by split.
Defined.
End simple.

(** ** A concrete heap: addresses from a counter *)

#[export] Instance bump_heap : OperatorNew Z.
Proof.
  refine {| op_new := λ n h, if (0 <? h) && (0 <? n) && (h + n <=? 2 ^ 47) then Some (h, h + n) else None;
            op_delete := λ _ h, h; heap_used := λ h a, 0 < a < h |}.
  intros n h p h'. destruct (_ && _) eqn:E; [|done]. intros. simplify_eq.
  rewrite !andb_true_iff, !Z.ltb_lt, Z.leb_le in E. split; [lia|]. split; [lia|]. split; intros; lia.
Defined.
