(* ===== verification/RangeCache.v ===== *)
(** * The range cache: src/cache/range_cache.hpp

    A cache of items for ranges of keys: entries in slabs of a fixed number, linked
    in a skip list by the start of their range, evicted by sampling, and reclaimed
    by epochs.  The skip list is third-party code (externals/skiplist); what the
    cache uses of it is the class [SkipList], with a sorted list as an instance.

    [CacheWorld] is the cache as one thread sees it: the object, the entries that
    live at the offsets of the slabs, the thread records of all threads, and the
    thread-local variables of the running thread. *)

From S2P Require Import Prelude Queue MemoryServer Slab.

(** [skiplist_raw] with nodes named by the offset of their entry: [sl_nodes] lists
    the nodes with the key they were inserted with; [sl_find_le] is
    [skiplist_find_smaller_or_equal]; [sl_erase] reports whether the node was
    linked; [sl_layer_entries] has one counter per layer up to [top_layer] and
    [sl_layer] follows the links of one layer from the head to the tail. *)
Class SkipList (L : Type) := {
  sl_empty : L;
  sl_insert : Z → Z → L → L;
  sl_erase : Z → L → bool * L;
  sl_find_le : Z → L → option Z;
  sl_num_entries : L → Z;
  sl_layer_entries : L → list Z;
  sl_layer : nat → L → list Z;
  sl_nodes : L → list (Z * Z);
  sl_empty_nodes : sl_nodes sl_empty = [];
  sl_insert_nodes : ∀ k n l, sl_nodes (sl_insert k n l) ≡ₚ (k, n) :: sl_nodes l;
  sl_erase_true : ∀ n l l', sl_erase n l = (true, l') → ∃ k, sl_nodes l ≡ₚ (k, n) :: sl_nodes l';
  sl_erase_false : ∀ n l l', sl_erase n l = (false, l') → l' = l ∧ n ∉ map snd (sl_nodes l);
  sl_find_le_some : ∀ k l n, sl_find_le k l = Some n →
    ∃ s, (s, n) ∈ sl_nodes l ∧ s ≤ k ∧ ∀ s' n', (s', n') ∈ sl_nodes l → s' ≤ k → s' ≤ s;
  sl_find_le_none : ∀ k l s n, sl_find_le k l = None → (s, n) ∈ sl_nodes l → k < s;
  sl_num_entries_spec : ∀ l, sl_num_entries l = Z.of_nat (length (sl_nodes l));
  sl_layer_entries_spec : ∀ l, Forall (Z.le 0) (sl_layer_entries l) ∧
    foldr Z.add 0 (sl_layer_entries l) = sl_num_entries l;
  sl_layer_spec : ∀ i l n, n ∈ sl_layer i l → n ∈ map snd (sl_nodes l)
}.

Section cache.
Context {Q : Type → Type} `{!ConcurrentQueue Q} {L : Type} `{!SkipList L}.
Context {S : Type} `{!ChunkAllocator S} {Item : Type}.

Record EntryT := mkEntryT { start : Z; end_ : Z; item : Item; lastAccess : Z }.
Record RetiredItem := mkRetired { ri_offset : Z; retire_epoch : Z }.

Record RangeCache := mkRC {
  list_ : L;
  maxEntries_ : Z;
  entrySlab_ : SlabAllocator Q * S;   (* the slabs and the allocator behind them *)
  accessUpdateInterval_ : Z;
  sampling_steps_ : Z;
  global_epoch_ : Z;
  registry_head_ : list nat;      (* the thread records, newest first *)
  retired_q_ : Q RetiredItem
}.

(** [records] holds the epochs of the thread records, [ts_epoch] the static epoch
    of [next_timestamp]; then come the thread-local variables, the address of the
    cache and the numbers [std::random_device] still has to give. *)
Record CacheWorld := mkCW {
  rc : RangeCache;
  entries_at : gmap Z EntryT;
  records : list Z;
  ts_epoch : Z;
  ts_local : Z;
  tls_tr_ : option nat;
  tls_local_access_counter_ : Z;
  tls_xorshift_state_ : Z;
  this : Z;
  random_device : nat → Z
}.

Definition set_rc r w := mkCW r (entries_at w) (records w) (ts_epoch w) (ts_local w) (tls_tr_ w)
  (tls_local_access_counter_ w) (tls_xorshift_state_ w) (this w) (random_device w).
Definition set_entries h w := mkCW (rc w) h (records w) (ts_epoch w) (ts_local w) (tls_tr_ w)
  (tls_local_access_counter_ w) (tls_xorshift_state_ w) (this w) (random_device w).
Definition set_records rs w := mkCW (rc w) (entries_at w) rs (ts_epoch w) (ts_local w) (tls_tr_ w)
  (tls_local_access_counter_ w) (tls_xorshift_state_ w) (this w) (random_device w).
Definition set_clock e l w := mkCW (rc w) (entries_at w) (records w) e l (tls_tr_ w)
  (tls_local_access_counter_ w) (tls_xorshift_state_ w) (this w) (random_device w).
Definition set_tls t w := mkCW (rc w) (entries_at w) (records w) (ts_epoch w) (ts_local w) t
  (tls_local_access_counter_ w) (tls_xorshift_state_ w) (this w) (random_device w).
Definition set_counter n w := mkCW (rc w) (entries_at w) (records w) (ts_epoch w) (ts_local w) (tls_tr_ w)
  n (tls_xorshift_state_ w) (this w) (random_device w).
Definition set_xorshift x rnd w := mkCW (rc w) (entries_at w) (records w) (ts_epoch w) (ts_local w) (tls_tr_ w)
  (tls_local_access_counter_ w) x (this w) rnd.

Definition set_list l r := mkRC l (maxEntries_ r) (entrySlab_ r) (accessUpdateInterval_ r) (sampling_steps_ r)
  (global_epoch_ r) (registry_head_ r) (retired_q_ r).
Definition set_slab s r := mkRC (list_ r) (maxEntries_ r) s (accessUpdateInterval_ r) (sampling_steps_ r)
  (global_epoch_ r) (registry_head_ r) (retired_q_ r).
Definition set_epoch e r := mkRC (list_ r) (maxEntries_ r) (entrySlab_ r) (accessUpdateInterval_ r) (sampling_steps_ r)
  e (registry_head_ r) (retired_q_ r).
Definition set_registry h r := mkRC (list_ r) (maxEntries_ r) (entrySlab_ r) (accessUpdateInterval_ r) (sampling_steps_ r)
  (global_epoch_ r) h (retired_q_ r).
Definition set_retired q r := mkRC (list_ r) (maxEntries_ r) (entrySlab_ r) (accessUpdateInterval_ r) (sampling_steps_ r)
  (global_epoch_ r) (registry_head_ r) q.
Definition on_rc (f : RangeCache → RangeCache) : M CacheWorld unit := modify (λ w, set_rc (f (rc w)) w).

(** ** Timestamps *)

Definition LOCAL_BITS : Z := 10.
Definition LOCAL_MASK : Z := 2 ^ LOCAL_BITS - 1.

Definition next_timestamp : M CacheWorld Z :=
  w ← get;
  let l := ts_local w in
  if l <=? LOCAL_MASK then
    _ ← modify (set_clock (ts_epoch w) (u64 (l + 1)));
    mret (Z.lor (u64 (Z.shiftl (ts_epoch w) LOCAL_BITS)) l)
  else
    let e := u64 (ts_epoch w + 1) in
    _ ← modify (set_clock e 0);
    mret (u64 (Z.shiftl e LOCAL_BITS)).

(** ** Compare *)

Definition cmpFunc (ea eb : EntryT) : Z :=
  if start ea <? start eb then -1 else if start eb <? start ea then 1 else 0.

(** ** Entries in slabs *)

(** Dereferencing an entry pointer; a pointer to a freed entry dangles. *)
Definition load_entry (off : Z) : M CacheWorld EntryT := λ w,
  match entries_at w !! off with Some e => Done e w | None => Fault NullPointer w end.

Definition on_slab {A} (m : M (SlabAllocator Q * S) A) : M CacheWorld A :=
  zoom (λ w, entrySlab_ (rc w)) (λ sl w, set_rc (set_slab sl (rc w)) w) m.

Definition allocEntry (s e : Z) (i : Item) : M CacheWorld (option Z) :=
  off ← on_slab slab_allocate_nogrowth;
  if off =? -1 then mret None
  else
    _ ← modify (λ w, set_entries (<[off := mkEntryT s e i 0]> (entries_at w)) w);
    mret (Some off).

(** The destructor ends the life of the entry. *)
Definition freeEntryToSlabOffset (off : Z) : M CacheWorld unit :=
  _ ← modify (λ w, set_entries (delete off (entries_at w)) w);
  on_slab (slab_free off).

(** ** Thread registry *)

(** The record is pushed in front of the list; [tls_tr_] is one variable per
    thread, whatever cache the thread uses. *)
Definition ensure_thread_record : M CacheWorld nat :=
  w ← get;
  match tls_tr_ w with
  | Some tr => mret tr
  | None =>
      let tr := length (records w) in
      _ ← modify (set_records (records w ++ [0]));
      _ ← on_rc (λ r, set_registry (tr :: registry_head_ r) r);
      _ ← modify (set_tls (Some tr));
      mret tr
  end.

Definition store_epoch (tr : nat) (e : Z) : M CacheWorld unit :=
  modify (λ w, set_records (<[tr := e]> (records w)) w).

(** [ThreadGuard guard(this)] around [m]. *)
Definition guarded {A} (m : M CacheWorld A) : M CacheWorld A :=
  tr ← ensure_thread_record;
  e ← gets (λ w, global_epoch_ (rc w));
  _ ← store_epoch tr e;
  a ← m;
  _ ← store_epoch tr 0;
  mret a.

(** ** Retire and reclaim *)

Definition retire_entry (off : Z) : M CacheWorld unit :=
  on_rc (λ r, set_retired (q_enqueue (mkRetired off (global_epoch_ r)) (retired_q_ r)) r).

Definition UINT64_MAX : Z := 2 ^ 64 - 1.

Definition scan_loop (epochs : list Z) : Z :=
  fold_left (λ min_epoch e, if negb (e =? 0) && (e <? min_epoch) then e else min_epoch) epochs UINT64_MAX.

Definition registry_epochs (w : CacheWorld) : list Z :=
  map (λ tr, default 0 (records w !! tr)) (registry_head_ (rc w)).

Definition scan_min_epoch : M CacheWorld Z :=
  w ← get;
  let min_epoch := scan_loop (registry_epochs w) in
  mret (if min_epoch =? UINT64_MAX then global_epoch_ (rc w) else min_epoch).

Fixpoint dequeue_batch (budget : nat) : M CacheWorld (list RetiredItem) :=
  match budget with
  | O => mret []
  | Datatypes.S n =>
      w ← get;
      match q_try_dequeue (retired_q_ (rc w)) with
      | None => mret []
      | Some (ri, q) => _ ← on_rc (set_retired q); rest ← dequeue_batch n; mret (ri :: rest)
      end
  end.

(** The loop over the batch: what has to be enqueued again. *)
Fixpoint reclaim_loop (min_epoch : Z) (batch : list RetiredItem) : M CacheWorld (list RetiredItem) :=
  match batch with
  | [] => mret []
  | r :: batch' =>
      if retire_epoch r <? min_epoch then
        _ ← freeEntryToSlabOffset (ri_offset r); reclaim_loop min_epoch batch'
      else rest ← reclaim_loop min_epoch batch'; mret (r :: rest)
  end.

Definition try_reclaim_budgeted (budget : nat) : M CacheWorld unit :=
  batch ← dequeue_batch budget;
  match batch with
  | [] => mret tt
  | _ =>
      min_epoch ← scan_min_epoch;
      to_reenqueue ← reclaim_loop min_epoch batch;
      _ ← on_rc (λ r, set_retired (q_enqueue_all to_reenqueue (retired_q_ r)) r);
      match to_reenqueue with
      | [] => mret tt
      | _ => on_rc (λ r, set_epoch (u64 (global_epoch_ r + 1)) r)
      end
  end.

(** ** Eviction *)

Definition xorshift (x : Z) : Z :=
  let x := Z.lxor x (u32 (Z.shiftl x 13)) in
  let x := Z.lxor x (Z.shiftr x 17) in
  Z.lxor x (u32 (Z.shiftl x 5)).

Definition tls_xorshift : M CacheWorld Z :=
  w ← get;
  let x := tls_xorshift_state_ w in
  let '(x, rnd) := if x =? 0 then (u32 (Z.lxor (this w) (random_device w 0%nat)), λ n, random_device w (Datatypes.S n))
                   else (x, random_device w) in
  let x := xorshift x in
  _ ← modify (set_xorshift x rnd);
  mret x.

(** The loop that maps an index to a layer; 0 when no layer is reached. *)
Fixpoint pick_layer (r accum : Z) (lvl : nat) (layers : list Z) : nat :=
  match layers with
  | [] => 0%nat
  | n :: layers' =>
      let accum := u32 (accum + n) in
      if r <? accum then lvl else pick_layer r accum (Datatypes.S lvl) layers'
  end.

(** [idx] steps along a layer from the head, then one more. *)
Fixpoint walk (idx : nat) (nodes : list Z) {struct nodes} : option Z :=
  match nodes with
  | [] => None
  | n :: nodes' => match idx with O => Some n | Datatypes.S idx' => walk idx' nodes' end
  end.

Definition pick_victim_sample : M CacheWorld (option Z) :=
  w ← get;
  let l := list_ (rc w) in
  let total := u32 (sl_num_entries l) in
  if total =? 0 then mret None
  else
    x ← tls_xorshift;
    let lvl := pick_layer (x mod total) 0 0 (sl_layer_entries l) in
    x ← tls_xorshift;
    let n := default 0 (sl_layer_entries l !! lvl) in
    if n =? 0 then raise DivideByZero
    else mret (walk (Z.to_nat (x mod n)) (sl_layer lvl l)).

(** [skiplist_erase_node(&list_, node) == 0] *)
Definition erase_node (n : Z) : M CacheWorld bool := λ w,
  let '(ok, l) := sl_erase n (list_ (rc w)) in Done ok (set_rc (set_list l (rc w)) w).

Definition evict_power_of_two : M CacheWorld unit :=
  free_count ← on_slab slab_free_count;
  if 0 <? free_count then mret tt
  else
    v1 ← pick_victim_sample;
    match v1 with
    | None => mret tt
    | Some v1 =>
        v2 ← pick_victim_sample;
        match v2 with
        | None => mret tt
        | Some v2 =>
            e1 ← load_entry v1;
            e2 ← load_entry v2;
            let victim := if lastAccess e1 <? lastAccess e2 then v1 else v2 in
            ok ← erase_node victim;
            if negb ok then mret tt else retire_entry victim
        end
    end.

(** ** The operations *)

Definition updateAccess (off : Z) : M CacheWorld unit :=
  w ← get;
  let c := tls_local_access_counter_ w in
  _ ← modify (set_counter (u64 (c + 1)));
  if Z.land c (u64 (accessUpdateInterval_ (rc w) - 1)) =? 0 then
    t ← next_timestamp;
    e ← load_entry off;
    modify (λ w, set_entries (<[off := mkEntryT (start e) (end_ e) (item e) t]> (entries_at w)) w)
  else mret tt.

(** The result is the pointer to the entry. *)
Definition search (key : Z) : M CacheWorld (option Z) := guarded (
  w ← get;
  match sl_find_le key (list_ (rc w)) with
  | None => mret None
  | Some n =>
      e ← load_entry n;
      if (start e <=? key) && (key <? end_ e) then _ ← updateAccess n; mret (Some n)
      else mret None
  end).

Fixpoint add_loop (attempts : nat) (s e : Z) (i : Item) : M CacheWorld unit :=
  match attempts with
  | O => mret tt
  | Datatypes.S n =>
      r ← allocEntry s e i;
      match r with
      | Some off => on_rc (λ r, set_list (sl_insert s off (list_ r)) r)
      | None =>
          _ ← try_reclaim_budgeted 64;
          _ ← evict_power_of_two;
          add_loop n s e i
      end
  end.

Definition add (s e : Z) (i : Item) : M CacheWorld unit := guarded (add_loop 3 s e i).

Definition invalidate (e : option Z) : M CacheWorld unit :=
  match e with
  | None => mret tt
  | Some off => guarded (ok ← erase_node off; if negb ok then mret tt else retire_entry off)
  end.

(** [RangeCache(maxEntries, accessUpdateInterval, sampling_steps)] on entries of
    [entry_size] bytes. *)
Definition RangeCache_init (entry_size maxEntries accessUpdateInterval sampling_steps : Z) (s : S) : option RangeCache :=
  match slab_init entry_size maxEntries s with
  | Done sl s' => Some (mkRC sl_empty maxEntries (sl, s') accessUpdateInterval sampling_steps 1 [] q_empty)
  | Fault _ _ => None
  end.

(** [~RangeCache]: at most [n] retired entries. *)
Fixpoint RangeCache_destroy (n : nat) : M CacheWorld unit :=
  w ← get;
  match q_try_dequeue (retired_q_ (rc w)) with
  | None => mret tt
  | Some (ri, q) =>
      match n with
      | O => raise OutOfFuel
      | Datatypes.S n' => _ ← on_rc (set_retired q); _ ← freeEntryToSlabOffset (ri_offset ri); RangeCache_destroy n'
      end
  end.

(** ** What the cache holds *)

Definition listed (w : CacheWorld) : list Z := map snd (sl_nodes (list_ (rc w))).
Definition retired (w : CacheWorld) : list Z := map ri_offset (q_contents (retired_q_ (rc w))).
Definition free_offsets (w : CacheWorld) : list Z := q_contents (free_list_ (entrySlab_ (rc w)).1).

(** The cache holds item [x.2] for the keys from [x.1.1] up to [x.1.2]. *)
Definition caches (w : CacheWorld) (x : Z * Z * Item) : Prop :=
  ∃ n e, (start e, n) ∈ sl_nodes (list_ (rc w)) ∧ entries_at w !! n = Some e ∧ x = (start e, end_ e, item e).

(** Every slab is in exactly one place: held by the running operation, linked,
    retired or free.  The places share no slab, and together they have all
    [maxEntries_] of them, so none is lost; linked, retired and held ones contain an
    entry. *)
Record rc_inv (held : list Z) (w : CacheWorld) : Prop := mkInv {
  inv_nodup : NoDup (held ++ listed w ++ retired w ++ free_offsets w);
  inv_valid : -1 ∉ held ++ listed w ++ retired w ++ free_offsets w;
  inv_size : Z.of_nat (length (held ++ listed w ++ retired w ++ free_offsets w)) = maxEntries_ (rc w) ∧ maxEntries_ (rc w) < 2 ^ 32;
  inv_linked : ∀ s n, (s, n) ∈ sl_nodes (list_ (rc w)) → ∃ e, entries_at w !! n = Some e ∧ start e = s;
  inv_live : ∀ n, n ∈ held ++ retired w → is_Some (entries_at w !! n)
}.

Lemma inv_move held held' w w' :
  rc_inv held w →
  held' ++ listed w' ++ retired w' ++ free_offsets w' ≡ₚ held ++ listed w ++ retired w ++ free_offsets w →
  maxEntries_ (rc w') = maxEntries_ (rc w) →
  (∀ s n, (s, n) ∈ sl_nodes (list_ (rc w')) → ∃ e, entries_at w' !! n = Some e ∧ start e = s) →
  (∀ n, n ∈ held' ++ retired w' → is_Some (entries_at w' !! n)) → rc_inv held' w'.
Proof. intros [] Hp Hm Hl Hr. split; rewrite ?Hp, ?Hm; done. Qed.

(** The parts of the world the invariant is about. *)
Record same_core (w w' : CacheWorld) : Prop := mkSame {
  sc_list : list_ (rc w') = list_ (rc w);
  sc_slab : entrySlab_ (rc w') = entrySlab_ (rc w);
  sc_retired : retired_q_ (rc w') = retired_q_ (rc w);
  sc_max : maxEntries_ (rc w') = maxEntries_ (rc w);
  sc_entries : entries_at w' = entries_at w
}.

#[export] Instance same_core_preorder : PreOrder same_core.
Proof. split; [by intros w; split|]. intros w1 w2 w3 [] []. split; congruence. Qed.

Lemma inv_same held w w' : same_core w w' → rc_inv held w → rc_inv held w'.
Proof.
  intros [H1 H2 H3 H4 H5] Hi. eapply inv_move; [exact Hi|..]; unfold listed, retired, free_offsets;
    rewrite ?H1, ?H2, ?H3, ?H4, ?H5; [done|done|apply Hi|apply Hi].
Qed.

Lemma caches_same w w' x : same_core w w' → caches w' x ↔ caches w x.
Proof. intros [H1 _ _ _ H5]. unfold caches. by rewrite H1, H5. Qed.

(** ** Runs *)

Definition same_caches (w w' : CacheWorld) : Prop := ∀ x, caches w' x ↔ caches w x.

#[export] Instance same_caches_preorder : PreOrder same_caches.
Proof. split; [by intros w x|]. intros w1 w2 w3 H1 H2 x. by rewrite (H2 x), (H1 x). Qed.

Lemma same_core_caches w w' : same_core w w' → same_caches w w'.
Proof. intros H x. by apply caches_same. Qed.

Lemma erase_node_run held n w :
  rc_inv held w →
  ∃ ok w', erase_node n w = Done ok w' ∧ rc_inv (if ok then n :: held else held) w' ∧ (∀ x, caches w' x → caches w x) ∧
    w' = set_rc (set_list (list_ (rc w')) (rc w)) w ∧
    (if ok then listed w ≡ₚ n :: listed w' else n ∉ listed w ∧ list_ (rc w') = list_ (rc w)).
Proof.
  intros Hi. unfold erase_node. destruct (sl_erase n (list_ (rc w))) as [ok l] eqn:E. eexists ok, _. split; [done|].
  destruct ok.
  - apply sl_erase_true in E as [k Hk]. split.
    + eapply inv_move; [exact Hi| |done| |].
      * unfold listed. cbn. rewrite Hk. cbn. by rewrite <-Permutation_middle.
      * cbn. intros s m Hm. apply Hi. rewrite Hk. by apply list_elem_of_further.
      * cbn. intros m Hm. apply elem_of_cons in Hm as [->|Hm]; [|by apply Hi].
        destruct (inv_linked _ _ Hi k n) as (e & -> & _); [rewrite Hk; apply list_elem_of_here|done].
    + split; [|split; [done|unfold listed; cbn; by rewrite Hk]].
      intros x (m & e & Hm & He & ->). exists m, e. split; [|done]. rewrite Hk. by apply list_elem_of_further.
  - apply sl_erase_false in E as [-> Hn]. assert (same_core w (set_rc (set_list (list_ (rc w)) (rc w)) w)) as Hs by done.
    split; [by eapply inv_same|]. split; [intros x; by apply caches_same|done].
Qed.

Lemma retire_entry_run held n w :
  rc_inv (n :: held) w → ∃ w', retire_entry n w = Done tt w' ∧ rc_inv held w' ∧ same_caches w w'.
Proof.
  intros Hi. eexists. split; [reflexivity|]. split; [|done]. eapply inv_move; [exact Hi| |done|apply Hi|].
  - unfold retired. cbn. rewrite q_contents_enqueue. cbn. rewrite <-!Permutation_middle. done.
  - cbn. intros m Hm. apply (inv_live _ _ Hi). unfold retired in *. cbn in Hm. rewrite q_contents_enqueue in Hm. cbn in *.
    by rewrite <-Permutation_middle in Hm.
Qed.

Lemma freeEntry_run held n w :
  rc_inv (n :: held) w → ∃ w', freeEntryToSlabOffset n w = Done tt w' ∧ rc_inv held w' ∧ same_caches w w'.
Proof.
  intros Hi. eexists. split; [reflexivity|]. pose proof (inv_nodup _ _ Hi) as Hnd. cbn in Hnd.
  apply list.NoDup_cons in Hnd as [Hn _]. rewrite !elem_of_app in Hn.
  assert (∀ s m, (s, m) ∈ sl_nodes (list_ (rc w)) → m ≠ n) as Hne.
  { intros s m Hm ->. apply Hn. right. left. apply list_elem_of_fmap. by exists (s, n). }
  split.
  - eapply inv_move; [exact Hi| |done| |].
    + unfold free_offsets. cbn. rewrite q_contents_enqueue, <-!Permutation_middle. done.
    + cbn. intros s m Hm. rewrite lookup_delete_ne by (by eapply not_eq_sym, Hne). by apply Hi.
    + cbn. intros m Hm. rewrite lookup_delete_ne; [apply Hi; by apply list_elem_of_further|].
      intros <-. apply Hn. rewrite elem_of_app in Hm. destruct Hm; [by left|]. right. right. by left.
  - intros x. unfold caches. cbn. split; intros (m & e & Hm & He & ->); exists m, e; (split; [done|]).
    + by apply lookup_delete_Some in He as [_ He].
    + rewrite lookup_delete_ne by (by eapply not_eq_sym, Hne). done.
Qed.

Lemma dequeue_batch_run : ∀ k held w,
  rc_inv held w →
  ∃ b w', dequeue_batch k w = Done b w' ∧ rc_inv (map ri_offset b ++ held) w' ∧ same_caches w w' ∧
          rc w' = set_retired (retired_q_ (rc w')) (rc w) ∧ records w' = records w ∧
          q_contents (retired_q_ (rc w)) ≡ₚ b ++ q_contents (retired_q_ (rc w')).
Proof.
  induction k as [|k IH]; intros held w Hi; [exists [], w; split; [done|]; split; [done|]; split; [done|]; by destruct w as [[]]|].
  cbn [dequeue_batch]. erewrite bind_done by reflexivity.
  destruct (q_try_dequeue (retired_q_ (rc w))) as [[ri q]|] eqn:E;
    [|exists [], w; split; [done|]; split; [done|]; split; [done|]; by destruct w as [[]]].
  apply q_dequeue_some in E. set (w1 := set_rc (set_retired q (rc w)) w).
  assert (rc_inv (ri_offset ri :: held) w1) as Hi1.
  { eapply inv_move; [exact Hi| |done|apply Hi|].
    - unfold retired. cbn. rewrite E. cbn. rewrite <-!Permutation_middle. done.
    - intros m Hm. apply (inv_live _ _ Hi). unfold retired in *. rewrite E. cbn in *. by rewrite <-Permutation_middle. }
  destruct (IH _ w1 Hi1) as (b & w' & Hrun & Hi' & Hc & Hr & Hrec & Hp). exists (ri :: b), w'. split; [|split; [|split; [|split; [|split]]]].
  - erewrite bind_done by reflexivity. fold w1. by erewrite bind_done by exact Hrun.
  - cbn. eapply inv_move; [exact Hi'| |done|apply Hi'|]; [by rewrite <-Permutation_middle|].
    intros m. rewrite (Permutation_app_tail _ (Permutation_middle (map ri_offset b) held (ri_offset ri))). apply Hi'.
  - by etrans; [|exact Hc].
  - by rewrite Hr.
  - done.
  - rewrite E. cbn. constructor. exact Hp.
Qed.

(** Freeing what is older than [min_epoch]. *)
Lemma reclaim_loop_run min_epoch : ∀ b held w,
  rc_inv (map ri_offset b ++ held) w →
  ∃ w', reclaim_loop min_epoch b w = Done (filter (λ r, min_epoch ≤ retire_epoch r) b) w' ∧
        rc_inv (map ri_offset (filter (λ r, min_epoch ≤ retire_epoch r) b) ++ held) w' ∧ same_caches w w' ∧
        rc w' = set_slab (entrySlab_ (rc w')) (rc w) ∧ records w' = records w ∧
        free_offsets w' ≡ₚ map ri_offset (filter (λ r, retire_epoch r < min_epoch) b) ++ free_offsets w.
Proof.
  induction b as [|r b IH]; intros held w Hi.
  { exists w. split; [done|]. split; [done|]. split; [done|]. by destruct w as [[]]. }
  cbn [reclaim_loop]. destruct (Z.ltb_spec (retire_epoch r) min_epoch) as [Hlt|Hge].
  - rewrite filter_cons_False by lia. rewrite filter_cons_True by done.
    destruct (freeEntry_run (map ri_offset b ++ held) (ri_offset r) w Hi) as (w1 & H1 & Hi1 & Hc1).
    destruct (IH held w1 Hi1) as (w' & Hrun & Hi' & Hc' & Hr' & Hrec' & Hf'). exists w'.
    unfold freeEntryToSlabOffset in H1. injection H1 as H1.
    split; [|split; [done|split; [by etrans|split; [|split]]]].
    + unfold freeEntryToSlabOffset. erewrite bind_done by (unfold mbind, M_bind; cbn; rewrite H1; reflexivity). exact Hrun.
    + rewrite Hr', <-H1. done.
    + rewrite Hrec', <-H1. done.
    + rewrite Hf', <-H1. unfold free_offsets. cbn. rewrite q_contents_enqueue, <-Permutation_middle. done.
  - rewrite filter_cons_True by done. rewrite filter_cons_False by lia. cbn [map app] in Hi.
    destruct (IH (ri_offset r :: held) w) as (w' & Hrun & Hi' & Hc' & Hr' & Hrec' & Hf').
    { eapply inv_move; [exact Hi| |done|apply Hi|]; [by rewrite <-Permutation_middle|].
      intros m. rewrite <-(Permutation_app_tail _ (Permutation_middle (map ri_offset b) held (ri_offset r))). apply Hi. }
    exists w'. split; [by erewrite bind_done by exact Hrun|]. split; [|done]. cbn [map app].
    eapply inv_move; [exact Hi'| |done|apply Hi'|]; [by rewrite <-Permutation_middle|].
    intros m. rewrite (Permutation_app_tail _ (Permutation_middle (map ri_offset _) held (ri_offset r))). apply Hi'.
Qed.

Lemma reenqueue_inv held rs w :
  rc_inv (map ri_offset rs ++ held) w →
  rc_inv held (set_rc (set_retired (q_enqueue_all rs (retired_q_ (rc w))) (rc w)) w).
Proof.
  intros Hi. assert (retired (set_rc (set_retired (q_enqueue_all rs (retired_q_ (rc w))) (rc w)) w) ≡ₚ map ri_offset rs ++ retired w) as Hp.
  { unfold retired. cbn. by rewrite q_contents_enqueue_all, map_app. }
  eapply inv_move; [exact Hi| |done|apply Hi|].
  - rewrite Hp. change (listed (set_rc _ w)) with (listed w). change (free_offsets (set_rc _ w)) with (free_offsets w). solve_Permutation.
  - intros m. rewrite Hp. cbn. intros Hm. apply (inv_live _ _ Hi). rewrite !elem_of_app in *. tauto.
Qed.

(** The value [scan_min_epoch] returns. *)
Definition min_epoch_of (w : CacheWorld) : Z :=
  if scan_loop (registry_epochs w) =? UINT64_MAX then global_epoch_ (rc w) else scan_loop (registry_epochs w).

(** What reclaiming does: entries retired before [min_epoch_of w] move from the
    retired to the free ones. *)
Record reclaimed (w w' : CacheWorld) (freed : list RetiredItem) : Prop := mkReclaimed {
  rcl_caches : same_caches w w';
  rcl_list : list_ (rc w') = list_ (rc w);
  rcl_registry : registry_head_ (rc w') = registry_head_ (rc w);
  rcl_records : records w' = records w;
  rcl_epoch : global_epoch_ (rc w') = global_epoch_ (rc w) ∨ global_epoch_ (rc w') = u64 (global_epoch_ (rc w) + 1);
  rcl_free : free_offsets w' ≡ₚ map ri_offset freed ++ free_offsets w;
  rcl_retired : q_contents (retired_q_ (rc w)) ≡ₚ freed ++ q_contents (retired_q_ (rc w'));
  rcl_old : Forall (λ r, retire_epoch r < min_epoch_of w) freed
}.

Lemma filter_split_perm {A} (P R : A → Prop) `{!∀ x, Decision (P x), !∀ x, Decision (R x)} (l : list A) :
  (∀ x, P x ↔ ¬ R x) → l ≡ₚ filter P l ++ filter R l.
Proof.
  intros HPR. induction l as [|x l IH]; [done|]. destruct (decide (R x)) as [Hr|Hr].
  - rewrite (filter_cons_False P) by (rewrite HPR; tauto). rewrite (filter_cons_True R) by done.
    rewrite <-Permutation_middle. by constructor.
  - rewrite (filter_cons_True P) by (by apply HPR). rewrite (filter_cons_False R) by done. cbn. by constructor.
Qed.

Lemma try_reclaim_run budget held w :
  rc_inv held w →
  ∃ freed w', try_reclaim_budgeted budget w = Done tt w' ∧ rc_inv held w' ∧ reclaimed w w' freed.
Proof.
  intros Hi. unfold try_reclaim_budgeted.
  destruct (dequeue_batch_run budget held w Hi) as (b & w1 & H1 & Hi1 & Hc1 & Hr1 & Hrec1 & Hp1). erewrite bind_done by exact H1.
  assert (entrySlab_ (rc w1) = entrySlab_ (rc w)) as Hsl1 by (by rewrite Hr1).
  destruct b as [|r b].
  { exists [], w1. split; [done|]. split; [done|]. split; [done|by rewrite Hr1|by rewrite Hr1|done|left; by rewrite Hr1| | |done].
    - unfold free_offsets. by rewrite Hsl1.
    - exact Hp1. }
  erewrite bind_done by reflexivity.
  assert ((if scan_loop (registry_epochs w1) =? UINT64_MAX then global_epoch_ (rc w1)
              else scan_loop (registry_epochs w1)) = min_epoch_of w) as Hmin.
  { unfold min_epoch_of, registry_epochs. by rewrite Hrec1, Hr1. }
  destruct (reclaim_loop_run (min_epoch_of w) (r :: b) held w1 Hi1) as (w2 & H2 & Hi2 & Hc2 & Hr2 & Hrec2 & Hf2).
  rewrite Hmin. erewrite bind_done by exact H2. erewrite bind_done by reflexivity.
  set (rest := filter (λ r0, min_epoch_of w ≤ retire_epoch r0) (r :: b)) in *. set (freed := filter (λ r0, retire_epoch r0 < min_epoch_of w) (r :: b)) in *.
  apply reenqueue_inv in Hi2. set (w3 := set_rc _ w2) in *.
  assert (reclaimed w w3 freed) as Hrcl.
  { split.
    - etrans; [exact Hc1|]. by etrans; [exact Hc2|].
    - cbn. by rewrite Hr2, Hr1.
    - cbn. by rewrite Hr2, Hr1.
    - cbn. congruence.
    - left. cbn. by rewrite Hr2, Hr1.
    - change (free_offsets w3) with (free_offsets w2). etrans; [exact Hf2|]. apply Permutation_app_head. unfold free_offsets. by rewrite Hsl1.
    - cbn [rc w3 set_rc retired_q_ set_retired]. rewrite q_contents_enqueue_all, Hp1, (app_assoc freed rest), Hr2.
      apply Permutation_app_tail, filter_split_perm. intros x. lia.
    - apply list.Forall_forall. intros x Hx. by apply list_elem_of_filter in Hx as [? _]. }
  destruct rest as [|r0 rest]; [by exists freed, w3|].
  eexists freed, _. split; [reflexivity|]. split; [by eapply inv_same; [|exact Hi2]|].
  destruct Hrcl. split; try done. right. cbn. by rewrite Hr2, Hr1.
Qed.

(** *** Eviction *)

Lemma tls_xorshift_run w : ∃ x w', tls_xorshift w = Done x w' ∧ same_core w w' ∧ rc w' = rc w ∧ records w' = records w.
Proof.
  unfold tls_xorshift. erewrite bind_done by reflexivity. cbv zeta.
  destruct (tls_xorshift_state_ w =? 0); (erewrite bind_done by reflexivity); eexists _, _; (split; [reflexivity|]); by repeat split.
Qed.

(** The layer of an index below the number of entries is not empty. *)
Lemma pick_layer_spec r : ∀ layers accum lvl,
  Forall (Z.le 0) layers → 0 ≤ accum ≤ r → r < accum + foldr Z.add 0 layers < 2 ^ 32 →
  ∃ i n, pick_layer r accum lvl layers = (lvl + i)%nat ∧ layers !! i = Some n ∧ 0 < n.
Proof.
  induction layers as [|m layers IH]; intros accum lvl Hpos Hr Hs; [cbn in Hs; lia|].
  apply Forall_cons_iff in Hpos as [Hm Hpos]. cbn [foldr pick_layer] in *.
  assert (0 ≤ foldr Z.add 0 layers) as H0 by (clear -Hpos; induction Hpos; cbn; lia).
  rewrite wrap_small by (unfold in_width; lia). destruct (Z.ltb_spec r (accum + m)) as [Hlt|Hge].
  - exists 0%nat, m. split; [lia|]. split; [done|lia].
  - destruct (IH (accum + m) (Datatypes.S lvl) Hpos) as (i & n & Hp & Hn & Hn0); [lia|lia|].
    exists (Datatypes.S i), n. split; [rewrite Hp; lia|done].
Qed.

Lemma walk_elem nodes : ∀ idx n, walk idx nodes = Some n → n ∈ nodes.
Proof.
  induction nodes as [|m nodes IH]; intros idx n; [done|]. destruct idx; cbn; intros H.
  - simplify_eq. apply list_elem_of_here.
  - apply list_elem_of_further. by eapply IH.
Qed.

Lemma pick_victim_run held w :
  rc_inv held w →
  ∃ r w', pick_victim_sample w = Done r w' ∧ same_core w w' ∧ rc w' = rc w ∧ records w' = records w ∧
          ∀ n, r = Some n → n ∈ listed w.
Proof.
  intros Hi. unfold pick_victim_sample. erewrite bind_done by reflexivity. cbv zeta.
  pose proof (sl_num_entries_spec (list_ (rc w))) as Hnum. pose proof (inv_size _ _ Hi) as Hsz.
  rewrite !length_app in Hsz. unfold listed in Hsz. rewrite length_map in Hsz.
  rewrite (wrap_small 32 (sl_num_entries _)) by (unfold in_width; lia).
  destruct (Z.eqb_spec (sl_num_entries (list_ (rc w))) 0); [by eexists _, w|].
  destruct (tls_xorshift_run w) as (x1 & w1 & H1 & Hc1 & Hr1 & Hrec1). erewrite bind_done by exact H1.
  destruct (tls_xorshift_run w1) as (x2 & w2 & H2 & Hc2 & Hr2 & Hrec2). erewrite bind_done by exact H2.
  destruct (sl_layer_entries_spec (list_ (rc w))) as [Hpos Hsum].
  destruct (pick_layer_spec (x1 mod sl_num_entries (list_ (rc w))) (sl_layer_entries (list_ (rc w))) 0 0)
    as (i & m & Hp & Hm & Hm0); [done| | |].
  { pose proof (Z.mod_pos_bound x1 (sl_num_entries (list_ (rc w)))). lia. }
  { pose proof (Z.mod_pos_bound x1 (sl_num_entries (list_ (rc w)))). lia. }
  rewrite Hp, Nat.add_0_l, Hm. change (default 0 (Some m)) with m. rewrite (proj2 (Z.eqb_neq m 0)) by lia.
  eexists _, w2. split; [reflexivity|]. split; [by etrans|]. split; [congruence|]. split; [congruence|].
  intros v Hw%walk_elem. by apply sl_layer_spec in Hw.
Qed.

Lemma load_entry_run held w n :
  rc_inv held w → n ∈ listed w → ∃ e, load_entry n w = Done e w ∧ entries_at w !! n = Some e.
Proof.
  intros Hi Hn. unfold listed in Hn. apply list_elem_of_fmap in Hn as ((s & m) & -> & Hm).
  destruct (inv_linked _ _ Hi s m Hm) as (e & He & _). exists e. unfold load_entry. cbn. by rewrite He.
Qed.

Lemma free_count_run w : on_slab slab_free_count w = Done (Z.of_nat (q_size_approx (free_list_ (entrySlab_ (rc w)).1))) w.
Proof. unfold on_slab, zoom. cbn. f_equal. by destruct w as [[]]. Qed.

(** What an eviction does: at most one entry moves from the list to the retired
    ones, with the current epoch. *)
Record evicted (w w' : CacheWorld) : Prop := mkEvicted {
  ev_caches : ∀ x, caches w' x → caches w x;
  ev_slab : entrySlab_ (rc w') = entrySlab_ (rc w);
  ev_registry : registry_head_ (rc w') = registry_head_ (rc w);
  ev_records : records w' = records w;
  ev_epoch : global_epoch_ (rc w') = global_epoch_ (rc w);
  ev_retired : ∀ r, r ∈ q_contents (retired_q_ (rc w')) →
    r ∈ q_contents (retired_q_ (rc w)) ∨ retire_epoch r = global_epoch_ (rc w)
}.

Lemma evict_run held w :
  rc_inv held w →
  ∃ w', evict_power_of_two w = Done tt w' ∧ rc_inv held w' ∧ evicted w w'.
Proof.
  intros Hi. unfold evict_power_of_two.
  erewrite bind_done by (apply free_count_run).
  assert (∀ w', same_core w w' → rc w' = rc w → records w' = records w → evicted w w') as Hev.
  { intros w' Hc Hr Hrec. split; [intros x; by apply (caches_same w w')|rewrite ?Hr; done..|]. rewrite Hr. by left. }
  destruct (_ <? _); [exists w; split; [done|]; split; [done|by apply Hev]|].
  destruct (pick_victim_run _ _ Hi) as ([v1|] & w1 & H1 & Hc1 & Hr1 & Hrec1 & Hv1); erewrite bind_done by exact H1; cycle 1.
  { exists w1. split; [done|]. split; [by eapply inv_same|by apply Hev]. }
  pose proof (inv_same _ _ _ Hc1 Hi) as Hi1.
  destruct (pick_victim_run _ _ Hi1) as ([v2|] & w2 & H2 & Hc2 & Hr2 & Hrec2 & Hv2); erewrite bind_done by exact H2; cycle 1.
  { exists w2. split; [done|]. split; [by eapply inv_same|]. apply Hev; [by etrans|congruence|congruence]. }
  pose proof (inv_same _ _ _ Hc2 Hi1) as Hi2.
  destruct (load_entry_run held w2 v1 Hi2) as (e1 & He1 & _).
  { unfold listed. rewrite (sc_list _ _ Hc2), (sc_list _ _ Hc1). by apply Hv1. }
  destruct (load_entry_run held w2 v2 Hi2) as (e2 & He2 & _).
  { unfold listed. rewrite (sc_list _ _ Hc2). by apply Hv2. }
  erewrite bind_done by exact He1. erewrite bind_done by exact He2. cbv zeta.
  set (victim := if _ <? _ then v1 else v2).
  destruct (erase_node_run held victim w2 Hi2) as (ok & w3 & H3 & Hi3 & Hs3 & _). erewrite bind_done by exact H3.
  assert (∃ l, w3 = set_rc (set_list l (rc w2)) w2) as [l Hl].
  { unfold erase_node in H3. destruct (sl_erase _ _) as [ok' l]. exists l. by simplify_eq. }
  assert (evicted w w3) as Hev3.
  { split; rewrite Hl; cbn; rewrite ?Hr2, ?Hr1; try congruence; [|by left].
    intros x Hx. apply (caches_same _ _ x Hc1), (caches_same _ _ x Hc2), Hs3. by rewrite Hl. }
  destruct ok; [|by exists w3]. destruct (retire_entry_run held victim w3 Hi3) as (w4 & H4 & Hi4 & Hs4).
  exists w4. split; [exact H4|]. split; [done|]. injection H4 as <-. destruct Hev3. split; try done.
  cbn. intros r. rewrite q_contents_enqueue. intros [->|Hr]%elem_of_cons; [right; done|by apply ev_retired0].
Qed.

(** *** Allocation *)

(** An entry is constructed in a free slab, or there is none. *)
Lemma allocEntry_run held s e i w :
  rc_inv held w →
  ∃ r w', allocEntry s e i w = Done r w' ∧ list_ (rc w') = list_ (rc w) ∧ same_caches w w' ∧
    match r with
    | Some off => off ∈ free_offsets w ∧ rc_inv (off :: held) w' ∧ entries_at w' !! off = Some (mkEntryT s e i 0) ∧
        (∀ n, n ≠ off → entries_at w' !! n = entries_at w !! n) ∧ free_offsets w ≡ₚ off :: free_offsets w' ∧
        retired_q_ (rc w') = retired_q_ (rc w)
    | None => free_offsets w = [] ∧ same_core w w' ∧ rc w' = rc w ∧ records w' = records w
    end.
Proof.
  intros Hi. unfold allocEntry, on_slab, zoom, slab_allocate_nogrowth, slab_try_dequeue. unfold mbind, M_bind, mret, M_ret.
  destruct (entrySlab_ (rc w)) as [sl ch] eqn:Esl. cbn [fst snd].
  destruct (q_try_dequeue (free_list_ sl)) as [[off q]|] eqn:E; cycle 1.
  { apply q_dequeue_none in E. cbn. eexists None, _. split; [reflexivity|]. split; [done|].
    assert (set_rc (set_slab (sl, ch) (rc w)) w = w) as -> by (rewrite <-Esl; by destruct w as [[]]).
    split; [done|]. unfold free_offsets. rewrite Esl. by split; [|split; [split|]]. }
  apply q_dequeue_some in E. assert (free_offsets w ≡ₚ off :: q_contents q) as Hf by (unfold free_offsets; by rewrite Esl).
  assert (off ∈ free_offsets w) as Hin by (rewrite Hf; apply list_elem_of_here).
  pose proof (inv_valid _ _ Hi) as Hv. pose proof (inv_nodup _ _ Hi) as Hnd.
  rewrite (proj2 (Z.eqb_neq off (-1))); cycle 1.
  { intros ->. apply Hv. rewrite !elem_of_app. by repeat right. }
  cbn. eexists (Some off), _. split; [reflexivity|]. split; [done|].
  assert (∀ n, n ∈ held ++ listed w ++ retired w → n ≠ off) as Hne.
  { intros n Hn ->. rewrite !app_assoc in Hnd. apply list.NoDup_app in Hnd as (_ & Hd & _).
    apply (Hd off); [by rewrite <-!app_assoc|done]. }
  assert (∀ k n, (k, n) ∈ sl_nodes (list_ (rc w)) → n ≠ off) as Hne'.
  { intros k n Hn. apply Hne. rewrite !elem_of_app. right. left. apply list_elem_of_fmap. by exists (k, n). }
  split; [|split; [done|split; [|split; [apply lookup_insert_eq|split; [|by split]]]]]; [| |intros n Hn; by apply lookup_insert_ne].
  - intros x. unfold caches. cbn. split; intros (n & en & Hn & He & ->); exists n, en; (split; [done|]).
    + by rewrite lookup_insert_ne in He by (by eapply not_eq_sym, Hne').
    + by rewrite lookup_insert_ne by (by eapply not_eq_sym, Hne').
  - eapply inv_move; [exact Hi| |done| |].
    + unfold free_offsets at 1. cbn. rewrite Hf. rewrite <-!Permutation_middle. done.
    + cbn. intros k n Hn. rewrite lookup_insert_ne by (by eapply not_eq_sym, Hne'). by apply Hi.
    + cbn. intros n Hn. apply elem_of_cons in Hn as [->|Hn]; [by rewrite lookup_insert_eq|].
      rewrite lookup_insert_ne; [by apply Hi|]. apply not_eq_sym, Hne. rewrite !elem_of_app in *. tauto.
Qed.

(** Linking the entry that was just constructed. *)
Lemma link_run held off s e i w :
  rc_inv (off :: held) w → entries_at w !! off = Some (mkEntryT s e i 0) →
  let w' := set_rc (set_list (sl_insert s off (list_ (rc w))) (rc w)) w in
  rc_inv held w' ∧ ∀ x, caches w' x ↔ caches w x ∨ x = (s, e, i).
Proof.
  intros Hi He w'. pose proof (sl_insert_nodes s off (list_ (rc w))) as Hp. split.
  - eapply inv_move; [exact Hi| |done| |].
    + unfold listed at 1. cbn. rewrite Hp. cbn. by rewrite <-Permutation_middle.
    + cbn. intros k n. rewrite Hp. intros [?|Hn]%elem_of_cons; [simplify_eq; by eexists|by apply Hi].
    + cbn. intros n Hn. apply Hi. by apply list_elem_of_further.
  - intros x. unfold caches. cbn. split.
    + intros (n & en & Hn & Hen & ->). rewrite Hp in Hn. apply elem_of_cons in Hn as [Hn|Hn]; [|left; by exists n, en].
      injection Hn as Hk <-. rewrite He in Hen. injection Hen as <-. by right.
    + intros [(n & en & Hn & Hen & ->)| ->].
      * exists n, en. split; [|done]. rewrite Hp. by apply list_elem_of_further.
      * exists off, (mkEntryT s e i 0). split; [|done]. rewrite Hp. apply list_elem_of_here.
Qed.

Lemma add_loop_run s e i : ∀ n w,
  rc_inv [] w →
  ∃ w', add_loop n s e i w = Done tt w' ∧ rc_inv [] w' ∧ ∀ x, caches w' x → caches w x ∨ x = (s, e, i).
Proof.
  induction n as [|n IH]; intros w Hi; [exists w; split; [done|]; split; [done|]; by left|]. cbn [add_loop].
  destruct (allocEntry_run [] s e i w Hi) as (r & w1 & H1 & _ & Hc1 & Hr). erewrite bind_done by exact H1.
  destruct r as [off|].
  - destruct Hr as (_ & Hi1 & He & _). destruct (link_run [] off s e i w1 Hi1 He) as [Hi2 Hc2].
    eexists. split; [reflexivity|]. split; [exact Hi2|]. intros x Hx. apply Hc2 in Hx as [Hx|Hx]; [left; by apply Hc1|by right].
  - destruct Hr as (_ & Hs & _). pose proof (inv_same _ _ _ Hs Hi) as Hi1.
    destruct (try_reclaim_run 64 [] w1 Hi1) as (freed & w2 & H2 & Hi2 & [Hc2 _ _ _ _ _ _ _]). erewrite bind_done by exact H2.
    destruct (evict_run [] w2 Hi2) as (w3 & H3 & Hi3 & [Hc3 _ _ _ _ _]). erewrite bind_done by exact H3.
    destruct (IH w3 Hi3) as (w4 & H4 & Hi4 & Hc4). exists w4. split; [exact H4|]. split; [done|].
    intros x Hx. destruct (Hc4 x Hx) as [Hx4|]; [left|by right]. by apply Hc1, Hc2, Hc3.
Qed.

(** *** Guards *)

Lemma ensure_run w :
  ∃ tr w', ensure_thread_record w = Done tr w' ∧ same_core w w' ∧ global_epoch_ (rc w') = global_epoch_ (rc w) ∧
    tls_tr_ w' = Some tr ∧
    (tls_tr_ w = None → tr = length (records w) ∧ records w' = records w ++ [0] ∧
                        registry_head_ (rc w') = tr :: registry_head_ (rc w)) ∧
    (∀ tr', tls_tr_ w = Some tr' → tr = tr' ∧ w' = w).
Proof.
  unfold ensure_thread_record. erewrite bind_done by reflexivity. destruct (tls_tr_ w) as [tr|] eqn:E.
  - exists tr, w. split; [done|]. split; [done|]. split; [done|]. split; [done|]. split; [done|]. intros. by simplify_eq.
  - do 3 (erewrite bind_done by reflexivity). eexists _, _. split; [reflexivity|]. split; [done|]. split; [done|].
    split; [done|]. split; [|done]. intros _. done.
Qed.

(** What holds for a run of the body holds for the guarded run. *)
Lemma guarded_run {A} (m : M CacheWorld A) w (R : A → CacheWorld → Prop) :
  (∀ w1, same_core w w1 → ∃ a w2, m w1 = Done a w2 ∧ R a w2) →
  (∀ a w2 w3, same_core w2 w3 → R a w2 → R a w3) →
  ∃ a w', guarded m w = Done a w' ∧ R a w'.
Proof.
  intros Hm HR. unfold guarded. destruct (ensure_run w) as (tr & w1 & H1 & Hc1 & _). erewrite bind_done by exact H1.
  do 2 (erewrite bind_done by reflexivity). set (w2 := set_records _ w1).
  destruct (Hm w2) as (a & w3 & H3 & HRa); [by etrans; [exact Hc1|]|]. erewrite bind_done by exact H3.
  erewrite bind_done by reflexivity. eexists a, _. split; [reflexivity|]. by eapply HR; [|exact HRa].
Qed.

(** *** The operations *)

Lemma next_timestamp_run w :
  ∃ t w', next_timestamp w = Done t w' ∧ same_core w w' ∧ rc w' = rc w ∧ records w' = records w.
Proof.
  unfold next_timestamp. erewrite bind_done by reflexivity. cbv zeta.
  destruct (_ <=? _); (erewrite bind_done by reflexivity); eexists _, _; (split; [reflexivity|]); by repeat split.
Qed.

(** A new access time changes nothing that is looked up. *)
Lemma touch_run held n e t w :
  rc_inv held w → entries_at w !! n = Some e →
  let w' := set_entries (<[n := mkEntryT (start e) (end_ e) (item e) t]> (entries_at w)) w in
  rc_inv held w' ∧ same_caches w w'.
Proof.
  intros Hi He w'. split.
  - eapply inv_move; [exact Hi|done|done| |].
    + cbn. intros k m Hm. destruct (inv_linked _ _ Hi k m Hm) as (em & Hem & Hk). rewrite lookup_insert. case_decide.
      * eexists. split; [done|]. simplify_eq. done.
      * by exists em.
    + cbn. intros m Hm. rewrite lookup_insert. case_decide; [done|]. by apply Hi.
  - intros x. unfold caches. cbn. split; intros (m & em & Hm & Hem & ->).
    + rewrite lookup_insert in Hem. case_decide; [|by exists m, em]. simplify_eq. by exists m, e.
    + destruct (decide (n = m)) as [->|Hne]; [|exists m, em; by rewrite lookup_insert_ne].
      rewrite He in Hem. injection Hem as <-. eexists m, _. rewrite lookup_insert_eq. split; [|done]. done.
Qed.

Lemma updateAccess_run held n w :
  rc_inv held w → n ∈ listed w →
  ∃ w', updateAccess n w = Done tt w' ∧ rc_inv held w' ∧ same_caches w w' ∧ rc w' = rc w ∧
    ∀ m e, entries_at w !! m = Some e → ∃ e', entries_at w' !! m = Some e' ∧
      start e' = start e ∧ end_ e' = end_ e ∧ item e' = item e.
Proof.
  intros Hi Hn. unfold updateAccess. erewrite bind_done by reflexivity. cbv zeta. erewrite bind_done by reflexivity.
  set (w1 := set_counter _ w). assert (same_core w w1) as Hc1 by done. pose proof (inv_same _ _ _ Hc1 Hi) as Hi1.
  destruct (_ =? 0); [|exists w1; split; [done|]; split; [done|]; split; [by apply same_core_caches|]; split; [done|]; eauto].
  destruct (next_timestamp_run w1) as (t & w2 & H2 & Hc2 & Hr2 & _). erewrite bind_done by exact H2.
  pose proof (inv_same _ _ _ Hc2 Hi1) as Hi2.
  destruct (load_entry_run held w2 n Hi2) as (e & He & Hen); [unfold listed; by rewrite Hr2|]. erewrite bind_done by exact He.
  destruct (touch_run held n e t w2 Hi2 Hen) as [Hi3 Hs3]. eexists. split; [reflexivity|]. split; [done|].
  split; [etrans; [|exact Hs3]; by apply same_core_caches; etrans|]. split; [cbn; by rewrite Hr2|].
  intros m em Hm. cbn. rewrite (sc_entries _ _ Hc2). change (entries_at w1) with (entries_at w). rewrite lookup_insert. case_decide; [|by eauto].
  subst m. rewrite (sc_entries _ _ Hc2) in Hen. change (entries_at w1) with (entries_at w) in Hen. rewrite Hm in Hen. injection Hen as <-. by eexists.
Qed.

(** The entries of [w] are in [w'] with their ranges and items. *)
Definition keeps_entries (w w' : CacheWorld) : Prop :=
  ∀ n e, entries_at w !! n = Some e → ∃ e', entries_at w' !! n = Some e' ∧ start e' = start e ∧ end_ e' = end_ e ∧ item e' = item e.

Lemma keeps_same w w' w'' : keeps_entries w w' → same_core w' w'' → keeps_entries w w''.
Proof. intros H Hc n e Hn. rewrite (sc_entries _ _ Hc). by apply H. Qed.
Lemma same_keeps w w' w'' : same_core w w' → keeps_entries w' w'' → keeps_entries w w''.
Proof. intros Hc H n e Hn. rewrite <-(sc_entries _ _ Hc) in Hn. by apply H. Qed.
Lemma keeps_refl w : keeps_entries w w.
Proof. intros n e Hn. by exists e. Qed.

(** The result of [search], on any cache that satisfies the invariant. *)
Lemma search_run key w :
  rc_inv [] w →
  ∃ r w', search key w = Done r w' ∧ rc_inv [] w' ∧ same_caches w w' ∧ keeps_entries w w' ∧
    match sl_find_le key (list_ (rc w)) with
    | None => r = None
    | Some n => ∃ e, entries_at w !! n = Some e ∧ r = (if (start e <=? key) && (key <? end_ e) then Some n else None)
    end.
Proof.
  intros Hi. unfold search. apply (guarded_run _ w (λ r w', rc_inv [] w' ∧ same_caches w w' ∧ keeps_entries w w' ∧ _)).
  - intros w1 Hc1. erewrite bind_done by reflexivity. rewrite (sc_list _ _ Hc1). pose proof (inv_same _ _ _ Hc1 Hi) as Hi1.
    pose proof (same_keeps _ _ _ Hc1 (keeps_refl w1)) as Hk1.
    destruct (sl_find_le key (list_ (rc w))) as [n|] eqn:E.
    + destruct (sl_find_le_some _ _ _ E) as (k & Hk & _ & _).
      assert (n ∈ listed w1) as Hn.
      { unfold listed. rewrite (sc_list _ _ Hc1). apply list_elem_of_fmap. by exists (k, n). }
      destruct (load_entry_run [] w1 n Hi1 Hn) as (e & He & Hen). erewrite bind_done by exact He.
      rewrite (sc_entries _ _ Hc1) in Hen. destruct (_ && _) eqn:Hcov.
      * destruct (updateAccess_run [] n w1 Hi1 Hn) as (w2 & H2 & Hi2 & Hs2 & Hr2 & Hk2).
        eexists _, w2. split; [by erewrite bind_done by exact H2|]. split; [done|].
        split; [etrans; [by apply same_core_caches|done]|]. split; [by eapply same_keeps|]. exists e. by rewrite Hcov.
      * eexists _, w1. split; [reflexivity|]. split; [done|]. split; [by apply same_core_caches|]. split; [done|].
        exists e. by rewrite Hcov.
    + eexists _, w1. split; [reflexivity|]. split; [done|]. split; [by apply same_core_caches|]. split; [done|done].
  - intros r w2 w3 Hc (H1 & H2 & H3 & H4). split; [by eapply inv_same|]. split; [etrans; [exact H2|by apply same_core_caches]|].
    split; [by eapply keeps_same|done].
Qed.

Lemma add_run s e i w :
  rc_inv [] w →
  ∃ w', add s e i w = Done tt w' ∧ rc_inv [] w' ∧ ∀ x, caches w' x → caches w x ∨ x = (s, e, i).
Proof.
  intros Hi. unfold add.
  destruct (guarded_run (add_loop 3 s e i) w (λ _ w', rc_inv [] w' ∧ ∀ x, caches w' x → caches w x ∨ x = (s, e, i)))
    as ([] & w' & H); [| |by exists w'].
  - intros w1 Hc1. destruct (add_loop_run s e i 3 w1 (inv_same _ _ _ Hc1 Hi)) as (w2 & H2 & Hi2 & Hs2).
    exists tt, w2. split; [done|]. split; [done|]. intros x Hx. destruct (Hs2 x Hx); [left; by apply (caches_same w w1)|by right].
  - intros [] w2 w3 Hc (H1 & H2). split; [by eapply inv_same|]. intros x Hx. apply H2. by apply (caches_same w2 w3).
Qed.

(** What an invalidation of the entry at [off] does: if it is linked, it moves to the
    retired ones; nothing else changes. *)
Record invalidated (off : Z) (w w' : CacheWorld) : Prop := mkInvalidated {
  iv_entries : entries_at w' = entries_at w;
  iv_free : free_offsets w' = free_offsets w;
  iv_listed : if decide (off ∈ listed w) then listed w ≡ₚ off :: listed w' else listed w' = listed w;
  iv_retired : if decide (off ∈ listed w) then retired w' ≡ₚ off :: retired w else retired w' = retired w
}.

Lemma invalidate_effect off w :
  rc_inv [] w → ∃ w', invalidate (Some off) w = Done tt w' ∧ rc_inv [] w' ∧ (∀ x, caches w' x → caches w x) ∧ invalidated off w w'.
Proof.
  intros Hi. unfold invalidate.
  destruct (guarded_run (ok ← erase_node off; if negb ok then mret tt else retire_entry off) w
              (λ _ w', rc_inv [] w' ∧ (∀ x, caches w' x → caches w x) ∧ invalidated off w w')) as ([] & w' & H); [| |by exists w'].
  - intros w1 Hc1. destruct (erase_node_run [] off w1 (inv_same _ _ _ Hc1 Hi)) as (ok & w2 & H2 & Hi2 & Hs2 & Hw2 & Hl2).
    erewrite bind_done by exact H2. assert (∀ x, caches w2 x → caches w x) as Hs by (intros x Hx; apply (caches_same w w1); [done|by apply Hs2]).
    assert (listed w1 = listed w) as Hl by (unfold listed; by rewrite (sc_list _ _ Hc1)).
    assert (retired w2 = retired w) as Hr by (rewrite Hw2; unfold retired; cbn; by rewrite (sc_retired _ _ Hc1)).
    assert (entries_at w2 = entries_at w) as He by (rewrite Hw2; cbn; apply (sc_entries _ _ Hc1)).
    assert (free_offsets w2 = free_offsets w) as Hf by (rewrite Hw2; unfold free_offsets; cbn; by rewrite (sc_slab _ _ Hc1)).
    rewrite Hl in Hl2. destruct ok.
    + destruct (retire_entry_run [] off w2 Hi2) as (w3 & H3 & Hi3 & Hs3). exists tt, w3. split; [done|]. split; [done|].
      split; [intros x Hx; by apply Hs, Hs3|]. assert (off ∈ listed w) as Hin by (rewrite Hl2; apply list_elem_of_here).
      injection H3 as <-. split; rewrite ?decide_True by done; [done|done|done|].
      unfold retired in Hr |- *. cbn. rewrite q_contents_enqueue. cbn. by rewrite Hr.
    + destruct Hl2 as [Hn Hl2]. exists tt, w2. split; [done|]. split; [done|]. split; [done|].
      split; rewrite ?decide_False by done; [done|done| |done]. rewrite <-Hl. unfold listed. by rewrite Hl2.
  - intros [] w2 w3 Hc (H1 & H2 & [E1 E2 E3 E4]). split; [by eapply inv_same|].
    split; [intros x Hx; apply H2; by apply (caches_same w2 w3)|].
    split; unfold listed, retired, free_offsets in *; by rewrite ?(sc_entries _ _ Hc), ?(sc_slab _ _ Hc), ?(sc_list _ _ Hc), ?(sc_retired _ _ Hc).
Qed.

Lemma invalidate_run p w :
  rc_inv [] w → ∃ w', invalidate p w = Done tt w' ∧ rc_inv [] w' ∧ ∀ x, caches w' x → caches w x.
Proof.
  intros Hi. destruct p as [off|]; [|by exists w]. destruct (invalidate_effect off w Hi) as (w' & H1 & H2 & H3 & _). by exists w'.
Qed.
End cache.
