(* ===== verification/RangeSpec.v ===== *)
(** * What the range cache promises

    The properties of src/cache/range_cache.hpp ([RangeCache]): its invariant, what
    [search] finds, when [add] makes an entry visible and when it drops it, the
    timestamps, and that the cache is a [NodeCache] for the index.  A plain list of
    nodes is the skip list of the concrete runs. *)

From S2P Require Import Prelude Queue MemoryServer Slab SimpleAllocator RangeCache FaunusIndex.

(** ** A concrete skip list: one layer, in insertion order *)

Fixpoint best_le (k : Z) (l : list (Z * Z)) : option (Z * Z) :=
  match l with
  | [] => None
  | (s, n) :: l' =>
      match best_le k l' with
      | Some (s', n') => if (s <=? k) && (s' <? s) then Some (s, n) else Some (s', n')
      | None => if s <=? k then Some (s, n) else None
      end
  end.

Lemma best_le_some k l s n :
  best_le k l = Some (s, n) → (s, n) ∈ l ∧ s ≤ k ∧ ∀ s' n', (s', n') ∈ l → s' ≤ k → s' ≤ s.
Proof.
  revert s n. induction l as [|[s0 n0] l IH]; intros s n; [done|]. cbn [best_le].
  destruct (best_le k l) as [[s1 n1]|] eqn:E.
  - destruct (IH s1 n1 eq_refl) as (H1 & H2 & H3). destruct (_ && _) eqn:Hc; intros H; simplify_eq.
    + apply andb_true_iff in Hc as [Hc1%Z.leb_le Hc2%Z.ltb_lt]. split; [apply list_elem_of_here|]. split; [done|].
      intros s' n' [?|Hin]%elem_of_cons Hle; [simplify_eq; lia|]. specialize (H3 _ _ Hin Hle). lia.
    + split; [by apply list_elem_of_further|]. split; [done|]. intros s' n' [?|Hin]%elem_of_cons Hle; [|by eapply H3].
      simplify_eq. rewrite andb_false_iff, Z.leb_gt, Z.ltb_ge in Hc. lia.
  - destruct (Z.leb_spec s0 k); [|done]. intros H0. simplify_eq. split; [apply list_elem_of_here|]. split; [done|].
    assert (∀ s' n', (s', n') ∈ l → ¬ s' ≤ k) as Hno.
    { clear -E. induction l as [|[s1 n1] l IH]; intros s' n' Hin; [by apply not_elem_of_nil in Hin|]. cbn [best_le] in E.
      destruct (best_le k l) as [[s2 n2]|]; [by destruct (_ && _)|]. destruct (Z.leb_spec s1 k); [done|].
      apply elem_of_cons in Hin as [?|Hin]; [simplify_eq; lia|by eapply IH]. }
    intros s' n' [?|Hin]%elem_of_cons Hle; [simplify_eq; lia|]. by destruct (Hno _ _ Hin).
Qed.

Lemma best_le_none k l s n : best_le k l = None → (s, n) ∈ l → k < s.
Proof.
  induction l as [|[s1 n1] l IH]; intros E Hin; [by apply not_elem_of_nil in Hin|]. cbn [best_le] in E.
  destruct (best_le k l) as [[s2 n2]|]; [by destruct (_ && _)|]. destruct (Z.leb_spec s1 k); [done|].
  apply elem_of_cons in Hin as [?|Hin]; [simplify_eq; lia|by apply IH].
Qed.

Fixpoint erase_first (n : Z) (l : list (Z * Z)) : bool * list (Z * Z) :=
  match l with
  | [] => (false, [])
  | (s, m) :: l' => if m =? n then (true, l') else let '(ok, r) := erase_first n l' in (ok, (s, m) :: r)
  end.

Lemma erase_first_true n l l' : erase_first n l = (true, l') → ∃ k, l ≡ₚ (k, n) :: l'.
Proof.
  revert l'. induction l as [|[s m] l IH]; intros l'; [done|]. cbn. destruct (Z.eqb_spec m n) as [->|].
  - intros. simplify_eq. by exists s.
  - destruct (erase_first n l) as [ok r]. intros. simplify_eq. destruct (IH r eq_refl) as [k Hk]. exists k.
    rewrite Hk. apply perm_swap.
Qed.

Lemma erase_first_false n l l' : erase_first n l = (false, l') → l' = l ∧ n ∉ map snd l.
Proof.
  revert l'. induction l as [|[s m] l IH]; intros l'; cbn.
  - intros. simplify_eq. split; [done|apply not_elem_of_nil].
  - destruct (Z.eqb_spec m n) as [->|]; [done|]. destruct (erase_first n l) as [ok r]. intros. simplify_eq.
    destruct (IH r eq_refl) as [-> Hn]. split; [done|]. rewrite elem_of_cons. intros [?|?]; [congruence|done].
Qed.

#[global] Instance list_skiplist : SkipList (list (Z * Z)).
Proof.
  refine {| sl_empty := []; sl_insert := λ k n l, (k, n) :: l; sl_erase := erase_first;
            sl_find_le := λ k l, snd <$> best_le k l; sl_num_entries := λ l, Z.of_nat (length l);
            sl_layer_entries := λ l, [Z.of_nat (length l)];
            sl_layer := λ i l, if (i =? 0)%nat then map snd l else []; sl_nodes := λ l, l |}.
  - done.
  - done.
  - exact erase_first_true.
  - exact erase_first_false.
  - intros k l n H. destruct (best_le k l) as [[s m]|] eqn:E; [|done]. cbn in H. simplify_eq.
    exists s. by apply best_le_some.
  - intros k l s n H Hin. destruct (best_le k l) eqn:E; [done|]. by eapply best_le_none.
  - done.
  - intros l. split; [constructor; [lia|constructor]|]. cbn. lia.
  - intros [|i] l n; cbn; [done|]. intros H. by apply not_elem_of_nil in H.
Defined.

Section spec.
Context {Q : Type → Type} `{!ConcurrentQueue Q} {L : Type} `{!SkipList L}.
Context {S : Type} `{!ChunkAllocator S} {Item : Type}.
Abbreviation CacheWorld := (CacheWorld (Q := Q) (L := L) (S := S) (Item := Item)).
Implicit Types w : CacheWorld.

(** ** Eviction cannot serve the add that evicts *)

(** The thread [tr] is inside a guard with epoch [e], there is no free slab, and
    nothing was retired before [e]. *)
Record stuck (e : Z) (tr : nat) (w : CacheWorld) : Prop := mkStuck {
  st_free : free_offsets w = [];
  st_old : ∀ r, r ∈ q_contents (retired_q_ (rc w)) → e ≤ retire_epoch r;
  st_epoch : e ≤ global_epoch_ (rc w);
  st_record : records w !! tr = Some e;
  st_registered : tr ∈ registry_head_ (rc w)
}.

Lemma scan_loop_le epochs e : e ∈ epochs → e ≠ 0 → scan_loop epochs ≤ e.
Proof.
  unfold scan_loop. generalize UINT64_MAX as m. induction epochs as [|x epochs IH]; intros m Hin Hne; [by apply not_elem_of_nil in Hin|].
  assert (∀ l m, fold_left (λ min_epoch e, if negb (e =? 0) && (e <? min_epoch) then e else min_epoch) l m ≤ m) as Hle.
  { clear. induction l as [|y l IH]; intros m; cbn [fold_left]; [lia|]. etrans; [apply IH|].
    destruct (negb (y =? 0) && (y <? m)) eqn:E; [|lia]. apply andb_true_iff in E as [_ E%Z.ltb_lt]. lia. }
  cbn [fold_left]. apply elem_of_cons in Hin as [<-|Hin]; [|by apply IH].
  etrans; [apply Hle|]. rewrite (proj2 (Z.eqb_neq e 0)) by done. cbn [negb andb]. destruct (Z.ltb_spec e m); lia.
Qed.

Lemma stuck_min e tr w : stuck e tr w → 0 < e < UINT64_MAX → min_epoch_of w ≤ e.
Proof.
  intros [_ _ He Hr Hreg] Hb. assert (scan_loop (registry_epochs w) ≤ e) as Hle.
  { apply scan_loop_le; [|lia]. unfold registry_epochs. apply list_elem_of_fmap. exists tr. by rewrite Hr. }
  unfold min_epoch_of. rewrite (proj2 (Z.eqb_neq _ _)) by lia. done.
Qed.

Lemma add_stuck e tr s t i : 0 < e < UINT64_MAX → ∀ n w,
  rc_inv [] w → stuck e tr w → global_epoch_ (rc w) + Z.of_nat n < 2 ^ 64 →
  ∃ w', add_loop n s t i w = Done tt w' ∧ rc_inv [] w' ∧ stuck e tr w' ∧ ∀ x, caches w' x → caches w x.
Proof.
  intros He. induction n as [|n IH]; intros w Hi Hst Hg; [by exists w|]. cbn [add_loop].
  destruct (allocEntry_run [] s t i w Hi) as (r & w1 & H1 & _ & Hc1 & Hr). erewrite bind_done by exact H1.
  pose proof Hst as [Hf Ho Hep Hrec Hreg].
  destruct r as [off|]; [destruct Hr as (Hin & _); rewrite Hf in Hin; by apply not_elem_of_nil in Hin|].
  destruct Hr as (_ & Hs & Hr1 & Hrec1). pose proof (inv_same _ _ _ Hs Hi) as Hi1.
  destruct (try_reclaim_run 64 [] w1 Hi1) as (freed & w2 & H2 & Hi2 & [Hc2 _ Hreg2 Hrec2 Hep2 Hf2 Hret2 Hold2]).
  erewrite bind_done by exact H2.
  assert (stuck e tr w1) as Hst1 by (split; unfold free_offsets; rewrite ?Hr1, ?Hrec1; done).
  assert (freed = []) as ->.
  { destruct freed as [|r fr]; [done|]. exfalso. apply Forall_cons_iff in Hold2 as [Hlt _].
    pose proof (stuck_min e tr w1 Hst1 He). assert (e ≤ retire_epoch r); [|lia].
    apply (st_old _ _ _ Hst1). rewrite Hret2. apply list_elem_of_here. }
  assert (stuck e tr w2) as Hst2.
  { destruct Hst1 as [Hf1 Ho1 Hep1 Hrec1' Hreg1]. split.
    - cbn in Hf2. rewrite Hf1 in Hf2. by apply Permutation_nil_r in Hf2.
    - intros r Hrr. apply Ho1. by rewrite Hret2.
    - destruct Hep2 as [->| ->]; [done|]. rewrite Hr1. rewrite wrap_small by (unfold in_width; lia). lia.
    - by rewrite Hrec2.
    - by rewrite Hreg2. }
  destruct (evict_run [] w2 Hi2) as (w3 & H3 & Hi3 & [Hc3 Hsl3 Hreg3 Hrec3 Hep3 Hret3]). erewrite bind_done by exact H3.
  assert (stuck e tr w3) as Hst3.
  { destruct Hst2 as [Hf2' Ho2 Hep2' Hrec2' Hreg2']. split.
    - unfold free_offsets in *. by rewrite Hsl3.
    - intros r Hrr. destruct (Hret3 r Hrr) as [Hin| ->]; [by apply Ho2|done].
    - by rewrite Hep3.
    - by rewrite Hrec3.
    - by rewrite Hreg3. }
  destruct (IH w3 Hi3 Hst3) as (w4 & H4 & Hi4 & Hst4 & Hc4).
  { rewrite Hep3. destruct Hep2 as [->| ->]; rewrite Hr1; [lia|]. rewrite wrap_small by (unfold in_width; lia). lia. }
  exists w4. split; [exact H4|]. split; [done|]. split; [done|]. intros x Hx. by apply Hc1, Hc2, Hc3, Hc4.
Qed.

(** The ranges of the linked entries are not empty and do not overlap. *)
Definition separated (w : CacheWorld) : Prop :=
  ∀ s n e, (s, n) ∈ sl_nodes (list_ (rc w)) → entries_at w !! n = Some e → start e < end_ e ∧
  ∀ s' n' e', (s', n') ∈ sl_nodes (list_ (rc w)) → entries_at w !! n' = Some e' → n ≠ n' →
    end_ e ≤ start e' ∨ end_ e' ≤ start e.

(** ** What the operations do to the slabs *)

(** Where the slabs are. *)
Definition places_of w := (list_ (rc w), retired_q_ (rc w), entrySlab_ (rc w)).

(** A search moves no slab. *)
Lemma search_places key : keeps places_of (search (Q := Q) (S := S) (Item := Item) key).
Proof.
  assert (∀ n, keeps places_of (updateAccess n)) as Hu.
  { intros n. unfold updateAccess, next_timestamp. keeps; try (apply keeps_modify; by intros []).
    intros w b w'. unfold load_entry. destruct (_ !! _); [by intros [= _ <-]|done]. }
  unfold search, guarded, ensure_thread_record, store_epoch, on_rc. keeps; try (apply keeps_modify; by intros []); try apply Hu.
  intros w b w'. unfold load_entry. destruct (_ !! _); [by intros [= _ <-]|done].
Qed.

(** What an add does when a slab is free: it takes one for its entry, links it, and
    leaves everything else alone. *)
Record added_in (off s t : Z) (i : Item) w w' : Prop := mkAdded {
  ad_entry : ∃ e, entries_at w' !! off = Some e ∧ start e = s ∧ end_ e = t ∧ item e = i;
  ad_others : ∀ n, n ≠ off → entries_at w' !! n = entries_at w !! n;
  ad_free : free_offsets w ≡ₚ off :: free_offsets w';
  ad_listed : listed w' ≡ₚ off :: listed w;
  ad_retired : retired w' = retired w
}.

Lemma added_same off s t i w w' w2 w2' : same_core w w2 → same_core w' w2' → added_in off s t i w2 w' → added_in off s t i w w2'.
Proof.
  intros [A1 A2 A3 _ A5] [B1 B2 B3 _ B5] [H1 H2 H3 H4 H5]. unfold free_offsets, listed, retired in *.
  split; unfold free_offsets, listed, retired; rewrite ?B1, ?B2, ?B3, ?B5, <-?A1, <-?A2, <-?A3, <-?A5; done.
Qed.

Lemma add_effect w s t i :
  rc_inv [] w → free_offsets w ≠ [] →
  ∃ off w', add s t i w = Done tt w' ∧ rc_inv [] w' ∧ (∀ x, caches w' x ↔ caches w x ∨ x = (s, t, i)) ∧ added_in off s t i w w'.
Proof.
  intros Hi Hf. unfold add.
  destruct (guarded_run (add_loop 3 s t i) w
    (λ _ w', rc_inv [] w' ∧ (∀ x, caches w' x ↔ caches w x ∨ x = (s, t, i)) ∧ ∃ off, added_in off s t i w w'))
    as ([] & w' & H & H1 & H2 & off & H3); [| |by exists off, w'].
  - intros w1 Hc1. cbn [add_loop].
    destruct (allocEntry_run [] s t i w1 (inv_same _ _ _ Hc1 Hi)) as (r & w2 & H2 & Hl2 & Hs2 & Hr). erewrite bind_done by exact H2.
    destruct r as [off|].
    + destruct Hr as (_ & Hi2 & He & Ho2 & Hf2 & Hr2). destruct (link_run [] off s t i w2 Hi2 He) as [Hi3 Hc3].
      eexists tt, _. split; [reflexivity|]. split; [exact Hi3|]. split; [intros x; rewrite (Hc3 x), (Hs2 x); by rewrite (caches_same w w1)|].
      exists off. eapply added_same; [exact Hc1|reflexivity|]. split; cbn; [by eexists|done|done| |].
      * unfold listed. cbn. rewrite sl_insert_nodes. cbn. by rewrite Hl2.
      * unfold retired. cbn. by rewrite Hr2.
    + destruct Hr as (Hnil & _). unfold free_offsets in *. rewrite (sc_slab _ _ Hc1) in Hnil. done.
  - intros [] w2 w3 Hc (H1 & H2 & off & H3). split; [by eapply inv_same|]. split; [intros x; by rewrite (caches_same w2 w3)|].
    exists off. by eapply added_same; [reflexivity| |].
Qed.


(** C17: what [search] finds: when the cached ranges are not empty and do not
    overlap, it returns an entry exactly when some cached range contains the key,
    and then the entry of that range. *)
Theorem search_finds_range w key :
  rc_inv [] w → separated w →
  ∃ r w', search key w = Done r w' ∧
    match r with
    | Some n => ∃ e, entries_at w !! n = Some e ∧ start e ≤ key < end_ e ∧ caches w (start e, end_ e, item e)
    | None => ∀ s t i, caches w (s, t, i) → ¬ s ≤ key < t
    end.
Proof.
  intros Hi Hsep. destruct (search_run key w Hi) as (r & w' & H & _ & _ & _ & Hr). exists r, w'. split; [done|].
  destruct (sl_find_le key (list_ (rc w))) as [n|] eqn:E.
  - destruct Hr as (e & He & ->). destruct (sl_find_le_some _ _ _ E) as (k & Hk & Hle & Hmax).
    destruct (inv_linked _ _ Hi k n Hk) as (e' & He' & Hs). rewrite He in He'. injection He' as <-. subst k.
    destruct (_ && _) eqn:Hc.
    + apply andb_true_iff in Hc as [H1%Z.leb_le H2%Z.ltb_lt]. exists e. split; [done|]. split; [done|]. by exists n, e.
    + rewrite andb_false_iff, Z.leb_gt, Z.ltb_ge in Hc. intros s t i (n' & e' & Hn' & He' & [= -> -> ->]) [Hlo Hhi].
      destruct (decide (n = n')) as [->|Hne]; [rewrite He in He'; simplify_eq; lia|].
      pose proof (Hmax _ _ Hn' Hlo). destruct (Hsep _ _ _ Hk He) as [Hpos Hdis].
      destruct (Hdis _ _ _ Hn' He' Hne); lia.
  - subst r. intros s t i (n & e & Hn & He & [= -> -> ->]) Hc. pose proof (sl_find_le_none _ _ _ _ E Hn). lia.
Qed.

(** An add to a full cache is dropped: without a free slab, and with nothing
    retired in an earlier epoch, [add] evicts and retires entries but its own guard
    keeps them from being reclaimed within the call, so all three attempts to
    allocate fail and the new range is not cached. *)
Theorem add_full_drops w s t i :
  rc_inv [] w → free_offsets w = [] →
  (∀ r, r ∈ q_contents (retired_q_ (rc w)) → global_epoch_ (rc w) ≤ retire_epoch r) →
  (∀ tr, tls_tr_ w = Some tr → tr ∈ registry_head_ (rc w) ∧ (tr < length (records w))%nat) →
  0 < global_epoch_ (rc w) < 2 ^ 64 - 4 →
  ∃ w', add s t i w = Done tt w' ∧ rc_inv [] w' ∧ ∀ x, caches w' x → caches w x.
Proof.
  intros Hi Hf Hold Htls Hg. unfold add, guarded. destruct (ensure_run w) as (tr & w1 & H1 & Hc1 & Hg1 & _ & Hnew & Hsame).
  erewrite bind_done by exact H1. do 2 (erewrite bind_done by reflexivity). set (w2 := set_records _ w1).
  assert (same_core w w2) as Hc2 by (by etrans; [exact Hc1|]).
  assert (tr ∈ registry_head_ (rc w1) ∧ (tr < length (records w1))%nat) as [Hreg Hlen].
  { destruct (tls_tr_ w) as [tr'|] eqn:E.
    - destruct (Hsame tr' eq_refl) as [-> ->]. by apply Htls.
    - destruct (Hnew eq_refl) as (-> & Hr & Hh). rewrite Hr, Hh, length_app. cbn. split; [apply list_elem_of_here|lia]. }
  assert (stuck (global_epoch_ (rc w)) tr w2) as Hst.
  { split.
    - unfold free_offsets in *. by rewrite (sc_slab _ _ Hc2).
    - intros r. rewrite (sc_retired _ _ Hc2). apply Hold.
    - cbn. lia.
    - cbn. rewrite Hg1. by apply list_lookup_insert_eq.
    - done. }
  destruct (add_stuck (global_epoch_ (rc w)) tr s t i) with (n := 3%nat) (w := w2) as (w3 & H3 & Hi3 & _ & Hs3);
    [unfold UINT64_MAX; lia|by eapply inv_same|done|cbn; lia|].
  erewrite bind_done by exact H3. erewrite bind_done by reflexivity. eexists. split; [reflexivity|].
  split; [by eapply inv_same; [|exact Hi3]|]. intros x Hx. apply (caches_same w w2 x Hc2), Hs3. exact Hx.
Qed.

Lemma lor_shift e l : 0 ≤ e → e < 2 ^ 54 → 0 ≤ l < 2 ^ 10 →
  Z.lor (u64 (Z.shiftl e LOCAL_BITS)) l = e * 2 ^ 10 + l.
Proof.
  intros He Hb Hl. unfold LOCAL_BITS. rewrite Z.shiftl_mul_pow2 by lia.
  rewrite wrap_small by (unfold in_width; lia). apply lor_disjoint_add.
  apply Z.bits_inj'. intros n Hn. rewrite Z.land_spec, Z.bits_0.
  destruct (Z.lt_ge_cases n 10); [by rewrite Z.mul_pow2_bits_low by lia|].
  assert (Z.testbit l n = false) as ->; [|apply andb_false_r]. destruct (Z.eq_dec l 0) as [->|]; [apply Z.bits_0|].
  apply Z.bits_above_log2; [lia|]. apply Z.log2_lt_pow2; [lia|]. pose proof (Z.pow_le_mono_r 2 10 n). lia.
Qed.

(** The timestamps of a thread never decrease, whatever other threads do to
    the shared epoch [e'] between two calls, and two successive ones are equal only
    when the first call rolled the local counter over and nobody moved the epoch. *)
Theorem next_timestamp_monotone w :
  0 ≤ ts_local w ≤ LOCAL_MASK + 1 → 0 ≤ ts_epoch w → ts_epoch w + 1 < 2 ^ 54 →
  ∃ t1 w1, next_timestamp w = Done t1 w1 ∧ 0 ≤ ts_local w1 ≤ LOCAL_MASK + 1 ∧ ts_epoch w ≤ ts_epoch w1 ∧
    ∀ e', ts_epoch w1 ≤ e' → e' + 1 < 2 ^ 54 →
    ∃ t2 w2, next_timestamp (set_clock e' (ts_local w1) w1) = Done t2 w2 ∧ t1 ≤ t2 ∧
      (t1 = t2 ↔ ts_local w = LOCAL_MASK + 1 ∧ e' = ts_epoch w1).
Proof.
  intros Hl He Hb. unfold LOCAL_MASK in *. change (2 ^ LOCAL_BITS - 1) with 1023 in *.
  unfold next_timestamp. unfold mbind, M_bind, get, modify, mret, M_ret. unfold LOCAL_MASK. change (2 ^ LOCAL_BITS - 1) with 1023.
  destruct (Z.leb_spec (ts_local w) 1023) as [H1|H1].
  - rewrite (wrap_small 64 (ts_local w + 1)) by (unfold in_width; lia). rewrite lor_shift by lia.
    eexists _, _. split; [reflexivity|]. cbn [ts_local ts_epoch set_clock]. split; [lia|]. split; [lia|]. intros e' He' Hb'.
    destruct (Z.leb_spec (ts_local w + 1) 1023) as [H2|H2]; (eexists _, _; split; [reflexivity|]).
    + rewrite lor_shift by lia. lia.
    + rewrite (wrap_small 64 (e' + 1)) by (unfold in_width; lia). unfold LOCAL_BITS.
      rewrite Z.shiftl_mul_pow2, wrap_small by (unfold in_width; lia). lia.
  - rewrite (wrap_small 64 (ts_epoch w + 1)) by (unfold in_width; lia). unfold LOCAL_BITS at 1.
    rewrite Z.shiftl_mul_pow2, (wrap_small 64 (_ * _)) by (unfold in_width; lia).
    eexists _, _. split; [reflexivity|]. cbn [ts_local ts_epoch set_clock]. split; [lia|]. split; [lia|]. intros e' He' Hb'.
    cbn [Z.leb Z.compare]. eexists _, _. split; [reflexivity|]. rewrite lor_shift by lia. lia.
Qed.

(** ** The cache of the index *)

(** A cache with its invariant: the operations are total on it. *)
Definition ok_cache : Type := {w : CacheWorld | rc_inv [] w}.

Definition run_ok {A} (m : M CacheWorld A) (Hm : ∀ w, rc_inv [] w → ∃ a w', m w = Done a w' ∧ rc_inv [] w')
    (c : ok_cache) : {p : A * ok_cache | m (proj1_sig c) = Done p.1 (proj1_sig p.2)}.
Proof.
  destruct (m (proj1_sig c)) as [a w'|f w'] eqn:E.
  - assert (rc_inv [] w') as Hw'.
    { destruct (Hm _ (proj2_sig c)) as (a' & w'' & H1 & H2). rewrite E in H1. by simplify_eq. }
    exact ((a, w' ↾ Hw') ↾ eq_refl).
  - exfalso. destruct (Hm _ (proj2_sig c)) as (a' & w'' & H1 & _). by rewrite E in H1.
Defined.

Lemma search_ok key w : rc_inv [] w → ∃ r w', search key w = Done r w' ∧ rc_inv [] w'.
Proof. intros Hi. destruct (search_run key w Hi) as (r & w' & H1 & H2 & _). by exists r, w'. Qed.
Lemma add_ok s t i w : rc_inv [] w → ∃ r w', add s t i w = Done r w' ∧ rc_inv [] w'.
Proof. intros Hi. destruct (add_run s t i w Hi) as (w' & H1 & H2 & _). by exists tt, w'. Qed.
Lemma invalidate_ok p w : rc_inv [] w → ∃ r w', invalidate p w = Done r w' ∧ rc_inv [] w'.
Proof. intros Hi. destruct (invalidate_run p w Hi) as (w' & H1 & H2 & _). by exists tt, w'. Qed.

(** The cache satisfies the interface the index uses, so what is proved of the
    index for every cache holds with this one. *)
#[export] Instance range_node_cache : NodeCache ok_cache Z Item.
Proof.
  refine {| cache_search := λ k c, let '(r, c') := proj1_sig (run_ok (search k) (search_ok k) c) in
              (n ← r; e ← entries_at (proj1_sig c) !! n; Some (n, item e), c');
            cache_add := λ s t i c, (proj1_sig (run_ok (add s t i) (add_ok s t i) c)).2;
            cache_invalidate := λ n c, (proj1_sig (run_ok (invalidate (Some n)) (invalidate_ok (Some n)) c)).2;
            cached := λ c x, caches (proj1_sig c) x |}.
  - intros c k e i c'. destruct (run_ok _ _ c) as [[r c1] H]. cbn in *.
    destruct (search_run k _ (proj2_sig c)) as (r' & w' & H' & _ & _ & _ & Hr). rewrite H in H'. injection H' as -> _.
    intros [= Hb _]. destruct r' as [n|]; [|done]. cbn in Hb.
    destruct (sl_find_le _ _) as [n'|] eqn:E; [|done]. destruct Hr as (en & Hen & Hr).
    destruct (_ && _) eqn:Hc; [|done]. injection Hr as ->. rewrite Hen in Hb. cbn in Hb. simplify_eq.
    apply andb_true_iff in Hc as [H1%Z.leb_le H2%Z.ltb_lt].
    destruct (sl_find_le_some _ _ _ E) as (s & Hs & _). destruct (inv_linked _ _ (proj2_sig c) _ _ Hs) as (en' & Hen' & <-).
    rewrite Hen in Hen'. injection Hen' as <-. exists (start en), (end_ en). split; [by exists e, en|done].
  - intros c k r c' x. destruct (run_ok _ _ c) as [[r0 c1] H]. cbn [fst snd proj1_sig] in *. intros [= _ <-] Hx.
    destruct (search_run k _ (proj2_sig c)) as (r' & w' & H' & _ & Hs & _). rewrite H in H'. injection H' as _ <-. by apply Hs.
  - intros c s t i x. destruct (run_ok _ _ c) as [[r0 c1] H]. cbn [fst snd proj1_sig] in *. intros Hx.
    destruct (add_run s t i _ (proj2_sig c)) as (w' & H' & _ & Hs). rewrite H in H'. injection H' as _ <-. by apply Hs.
  - intros c n x. destruct (run_ok _ _ c) as [[r0 c1] H]. cbn [fst snd proj1_sig] in *. intros Hx.
    destruct (invalidate_run (Some n) _ (proj2_sig c)) as (w' & H' & _ & Hs). rewrite H in H'. injection H' as _ <-. by apply Hs.
Defined.
End spec.

(** ** A concrete cache of two entries *)

Definition demo_rc : option (RangeCache (Q := fifo) (L := list (Z * Z)) (S := SimpleAllocator (H := Z))) :=
  RangeCache_init 64 2 64 8 (mkSimple ∅ 4096).

(** Two ranges are cached, so the slabs are used up; the running thread already has
    a record. *)
Definition demo_caching : option (CacheWorld (Q := fifo) (L := list (Z * Z)) (S := SimpleAllocator (H := Z)) (Item := Z)) :=
  match demo_rc with
  | None => None
  | Some r =>
      match (_ ← add 0 10 100; add 10 20 200) (mkCW r ∅ [] 1 0 None 0 0 4660 (λ n, Z.of_nat (7 * n + 3))) with
      | Done _ w => Some w
      | Fault _ _ => None
      end
  end.

(** The invariant as a computation. *)
Definition rc_check (w : CacheWorld (Q := fifo) (L := list (Z * Z)) (S := SimpleAllocator (H := Z)) (Item := Z)) : bool :=
  let offs := listed w ++ retired w ++ free_offsets w in
  bool_decide (NoDup offs) && bool_decide (-1 ∉ offs) && (Z.of_nat (length offs) =? maxEntries_ (rc w)) && (maxEntries_ (rc w) <? 2 ^ 32) &&
  forallb (λ '(s, n), match entries_at w !! n with Some e => start e =? s | None => false end) (sl_nodes (list_ (rc w))) &&
  forallb (λ n, match entries_at w !! n with Some _ => true | None => false end) (retired w).

Lemma rc_check_sound w : rc_check w = true → rc_inv [] w.
Proof.
  unfold rc_check. rewrite !andb_true_iff, !bool_decide_eq_true, Z.eqb_eq, Z.ltb_lt, !forallb_forall.
  intros (((((H1 & H2) & H3) & H4) & H5) & H6). split; [done|done|done| |].
  - intros s n Hn%list_elem_of_In. specialize (H5 _ Hn). cbn in H5. destruct (entries_at w !! n) as [e|]; [|done].
    exists e. split; [done|lia].
  - intros n Hn%list_elem_of_In. specialize (H6 _ Hn). by destruct (entries_at w !! n).
Qed.

(** What holds of the concrete cache. *)
Definition demo_check (w : CacheWorld (Q := fifo) (L := list (Z * Z)) (S := SimpleAllocator (H := Z)) (Item := Z)) : bool :=
  rc_check w && bool_decide (free_offsets w = []) && bool_decide (q_contents (retired_q_ (rc w)) = []) &&
  bool_decide (tls_tr_ w = Some 0%nat) && bool_decide (registry_head_ (rc w) = [0%nat]) && bool_decide (length (records w) = 1%nat) &&
  bool_decide (sl_nodes (list_ (rc w)) = [(10, 4160); (0, 4096)]) &&
  match entries_at w !! 4160, entries_at w !! 4096 with
  | Some e1, Some e2 => (start e1 =? 10) && (end_ e1 =? 20) && (start e2 =? 0) && (end_ e2 =? 10)
  | _, _ => false
  end && (global_epoch_ (rc w) =? 1).

Lemma demo_caching_ok :
  ∃ w, demo_caching = Some w ∧ rc_inv [] w ∧ separated w ∧ free_offsets w = [] ∧ q_contents (retired_q_ (rc w)) = [] ∧
       (∀ tr, tls_tr_ w = Some tr → tr ∈ registry_head_ (rc w) ∧ (tr < length (records w))%nat) ∧ global_epoch_ (rc w) = 1.
Proof.
  assert (match demo_caching with Some w => demo_check w | None => false end = true) as H by (vm_compute; reflexivity).
  destruct demo_caching as [w|]; [|done]. exists w. split; [done|]. unfold demo_check in H.
  rewrite !andb_true_iff, !bool_decide_eq_true in H. destruct H as ((((((((H1 & H2) & H3) & H4) & H5) & H6) & H7) & H8) & H9%Z.eqb_eq).
  split; [by apply rc_check_sound|]. split; [|split; [done|split; [done|split; [|done]]]].
  - destruct (entries_at w !! 4160) as [e1|] eqn:E1; [|done]. destruct (entries_at w !! 4096) as [e2|] eqn:E2; [|done].
    rewrite !andb_true_iff, !Z.eqb_eq in H8. destruct H8 as (((? & ?) & ?) & ?).
    intros s n e Hn He. rewrite H7 in Hn. rewrite !elem_of_cons in Hn. destruct Hn as [Hn|[Hn|Hn]]; [| |by apply not_elem_of_nil in Hn];
      simplify_eq; (split; [lia|]); intros s' n' e' Hn' He' Hne; rewrite H7 in Hn'; rewrite !elem_of_cons in Hn';
      destruct Hn' as [Hn'|[Hn'|Hn']]; try (by apply not_elem_of_nil in Hn'); simplify_eq; lia.
  - intros tr Htr. rewrite H4 in Htr. injection Htr as <-. rewrite H5, H6. split; [apply list_elem_of_here|lia].
Qed.


Lemma search_finds_range_witness :
  ∃ w, demo_caching = Some w ∧
  ∃ r w', search 13 w = Done r w' ∧
    match r with
    | Some n => ∃ e, entries_at w !! n = Some e ∧ start e ≤ 13 < end_ e ∧ caches w (start e, end_ e, item e)
    | None => ∀ s t i, caches w (s, t, i) → ¬ s ≤ 13 < t
    end.
Proof.
  destruct demo_caching_ok as (w & Hw & Hi & Hs & _). exists w. split; [exact Hw|].
  apply (search_finds_range w 13); [exact Hi|exact Hs].
Defined.

Lemma add_full_drops_witness :
  ∃ w, demo_caching = Some w ∧
  ∃ w', add 20 30 300 w = Done tt w' ∧ rc_inv [] w' ∧ ∀ x, caches w' x → caches w x.
Proof.
  destruct demo_caching_ok as (w & Hw & Hi & _ & Hf & Hr & Ht & Hg). exists w. split; [exact Hw|].
  apply (add_full_drops w 20 30 300); [exact Hi|exact Hf| |exact Ht|rewrite Hg; lia].
  intros r Hin. rewrite Hr in Hin. by apply not_elem_of_nil in Hin.
Defined.

Lemma next_timestamp_monotone_witness :
  ∃ w, demo_caching = Some w ∧
  ∃ t1 w1, next_timestamp w = Done t1 w1 ∧ 0 ≤ ts_local w1 ≤ LOCAL_MASK + 1 ∧ ts_epoch w ≤ ts_epoch w1 ∧
    ∀ e', ts_epoch w1 ≤ e' → e' + 1 < 2 ^ 54 →
    ∃ t2 w2, next_timestamp (set_clock e' (ts_local w1) w1) = Done t2 w2 ∧ t1 ≤ t2 ∧
      (t1 = t2 ↔ ts_local w = LOCAL_MASK + 1 ∧ e' = ts_epoch w1).
Proof.
  assert (match demo_caching with Some w => (ts_local w =? 0) && (ts_epoch w =? 1) | None => false end = true) as H
    by (vm_compute; reflexivity).
  destruct demo_caching as [w|]; [|discriminate H]. apply andb_true_iff in H as [H1%Z.eqb_eq H2%Z.eqb_eq].
  exists w. split; [reflexivity|]. apply next_timestamp_monotone; rewrite ?H1, ?H2; vm_compute; (split; discriminate) || discriminate || reflexivity.
Defined.
