(* ===== verification/RangeEpoch.v ===== *)
(** * Epoch-based reclamation of the range cache, for many threads

    The interleavings of the atomic accesses that [ThreadGuard], [retire_entry],
    [try_reclaim_budgeted] and [scan_min_epoch] of src/cache/range_cache.hpp make:
    a step relation on the shared epoch, the thread records, the skip list, the
    retired queue and the free slabs (sequentially consistent atomics; the epoch
    does not reach 2^64 - 1).  A thread inside a guard may hold references to
    entries it reached in the list. *)

From S2P Require Import Prelude Queue MemoryServer Slab RangeCache.

(** What a thread inside a guard is doing: [Retiring n] has unlinked [n];
    [Collecting b] has dequeued [b]; [Scanning b todo m] still has to read the records
    [todo], the least epoch seen being [m]; [Freeing b req m] runs over the batch;
    [Requeueing req any] puts [req] back. *)
Inductive phase :=
  | Idle
  | Retiring (n : Z)
  | Collecting (b : list (Z * Z))
  | Scanning (b : list (Z * Z)) (todo : list nat) (m : Z)
  | Freeing (b req : list (Z * Z)) (m : Z)
  | Requeueing (req : list (Z * Z)) (any : bool).

(** Outside a guard; in its constructor, with the epoch loaded and not yet stored;
    inside, with the epoch stored and the references held. *)
Inductive pc :=
  | Out
  | Entering (e : Z)
  | In (e : Z) (refs : list Z) (ph : phase).

Record EState := mkE {
  global : Z;
  recs : list Z;                 (* the epoch of the record of each thread *)
  reg : list nat;                (* registry_head_ *)
  linked : list Z;               (* the entries in the skip list *)
  free_slabs : list Z;
  retired_q : list (Z * Z);      (* offset and retire_epoch *)
  pcs : list pc
}.

Definition upd (t : nat) (p : pc) (st : EState) : EState :=
  mkE (global st) (recs st) (reg st) (linked st) (free_slabs st) (retired_q st) (<[t := p]> (pcs st)).

Inductive step : EState → EState → Prop :=
  (** [ensure_thread_record] *)
  | step_register st t :
      pcs st !! t = Some Out → t ∉ reg st →
      step st (mkE (global st) (recs st) (t :: reg st) (linked st) (free_slabs st) (retired_q st) (pcs st))
  (** [ThreadGuard]: load the epoch, then store it *)
  | step_load st t :
      pcs st !! t = Some Out → t ∈ reg st → step st (upd t (Entering (global st)) st)
  | step_store st t e :
      pcs st !! t = Some (Entering e) →
      step st (mkE (global st) (<[t := e]> (recs st)) (reg st) (linked st) (free_slabs st) (retired_q st)
                 (<[t := In e [] Idle]> (pcs st)))
  (** [~ThreadGuard] *)
  | step_leave st t e refs :
      pcs st !! t = Some (In e refs Idle) →
      step st (mkE (global st) (<[t := 0]> (recs st)) (reg st) (linked st) (free_slabs st) (retired_q st)
                 (<[t := Out]> (pcs st)))
  (** an entry is reached in the list *)
  | step_reach st t e refs n :
      pcs st !! t = Some (In e refs Idle) → n ∈ linked st →
      step st (upd t (In e (n :: refs) Idle) st)
  (** [allocEntry] and [skiplist_insert] *)
  | step_insert st t e refs n fs :
      pcs st !! t = Some (In e refs Idle) → free_slabs st ≡ₚ n :: fs →
      step st (mkE (global st) (recs st) (reg st) (n :: linked st) fs (retired_q st) (pcs st))
  (** [skiplist_erase_node], then [retire_entry] *)
  | step_erase st t e refs n ls :
      pcs st !! t = Some (In e refs Idle) → linked st ≡ₚ n :: ls →
      step st (mkE (global st) (recs st) (reg st) ls (free_slabs st) (retired_q st)
                 (<[t := In e refs (Retiring n)]> (pcs st)))
  | step_retire st t e refs n :
      pcs st !! t = Some (In e refs (Retiring n)) →
      step st (mkE (global st) (recs st) (reg st) (linked st) (free_slabs st) ((n, global st) :: retired_q st)
                 (<[t := In e refs Idle]> (pcs st)))
  (** [try_reclaim_budgeted]: dequeue a batch, then scan unless it is empty *)
  | step_begin st t e refs :
      pcs st !! t = Some (In e refs Idle) → step st (upd t (In e refs (Collecting [])) st)
  | step_pop st t e refs b x rest :
      pcs st !! t = Some (In e refs (Collecting b)) → retired_q st ≡ₚ x :: rest →
      step st (mkE (global st) (recs st) (reg st) (linked st) (free_slabs st) rest
                 (<[t := In e refs (Collecting (b ++ [x]))]> (pcs st)))
  | step_nothing st t e refs :
      pcs st !! t = Some (In e refs (Collecting [])) → step st (upd t (In e refs Idle) st)
  | step_start st t e refs b :
      pcs st !! t = Some (In e refs (Collecting b)) → b ≠ [] →
      step st (upd t (In e refs (Scanning b (reg st) UINT64_MAX)) st)
  (** [scan_min_epoch]: one record, then the end *)
  | step_scan st t e refs b u todo m x :
      pcs st !! t = Some (In e refs (Scanning b (u :: todo) m)) → recs st !! u = Some x →
      step st (upd t (In e refs (Scanning b todo (if negb (x =? 0) && (x <? m) then x else m))) st)
  | step_scanned st t e refs b m :
      pcs st !! t = Some (In e refs (Scanning b [] m)) →
      step st (upd t (In e refs (Freeing b [] (if m =? UINT64_MAX then global st else m))) st)
  (** the loop over the batch *)
  | step_free st t e refs n r b req m :
      pcs st !! t = Some (In e refs (Freeing ((n, r) :: b) req m)) → r < m →
      step st (mkE (global st) (recs st) (reg st) (linked st) (n :: free_slabs st) (retired_q st)
                 (<[t := In e refs (Freeing b req m)]> (pcs st)))
  | step_keep st t e refs n r b req m :
      pcs st !! t = Some (In e refs (Freeing ((n, r) :: b) req m)) → m ≤ r →
      step st (upd t (In e refs (Freeing b ((n, r) :: req) m)) st)
  | step_freed st t e refs req m :
      pcs st !! t = Some (In e refs (Freeing [] req m)) →
      step st (upd t (In e refs (Requeueing req (bool_decide (req ≠ [])))) st)
  | step_requeue st t e refs x req any :
      pcs st !! t = Some (In e refs (Requeueing (x :: req) any)) →
      step st (mkE (global st) (recs st) (reg st) (linked st) (free_slabs st) (x :: retired_q st)
                 (<[t := In e refs (Requeueing req any)]> (pcs st)))
  | step_done st t e refs any :
      pcs st !! t = Some (In e refs (Requeueing [] any)) → global st + 1 < UINT64_MAX →
      step st (mkE (if any : bool then global st + 1 else global st) (recs st) (reg st) (linked st) (free_slabs st)
                 (retired_q st) (<[t := In e refs Idle]> (pcs st))).

Ltac step_cases H :=
  destruct H as [st t Hp Hr|st t Hp Hr|st t e0 Hp|st t e0 refs Hp|st t e0 refs n0 Hp Hn|st t e0 refs n0 fs Hp Hf
    |st t e0 refs n0 ls Hp Hl|st t e0 refs n0 Hp|st t e0 refs Hp|st t e0 refs b x rest Hp Hq|st t e0 refs Hp|st t e0 refs b Hp Hb
    |st t e0 refs b u todo m x Hp Hx|st t e0 refs b m Hp|st t e0 refs n0 r b req m Hp Hr|st t e0 refs n0 r b req m Hp Hr
    |st t e0 refs req m Hp|st t e0 refs x req any Hp|st t e0 refs any Hp Hg'].

(** [n] threads outside, the cache empty and all slabs free. *)
Definition initial (n : nat) (slabs : list Z) : EState :=
  mkE 1 (replicate n 0) [] [] slabs [] (replicate n Out).

(** ** Where a slab is *)

Definition dated_of (p : pc) : list (Z * Z) :=
  match p with
  | In _ _ (Collecting b) | In _ _ (Scanning b _ _) => b
  | In _ _ (Freeing b req _) => b ++ req
  | In _ _ (Requeueing req _) => req
  | _ => []
  end.

Definition pending_of (p : pc) : list Z := match p with In _ _ (Retiring n) => [n] | _ => [] end.

Definition dated (st : EState) : list (Z * Z) := retired_q st ++ concat (map dated_of (pcs st)).
Definition pending (st : EState) : list Z := concat (map pending_of (pcs st)).

(** All slabs, wherever they are. *)
Definition slabs_of (st : EState) : list Z :=
  linked st ++ free_slabs st ++ pending st ++ map fst (dated st).

Lemma concat_upd {A} (f : pc → list A) ps t p p' :
  ps !! t = Some p → ∃ rest, concat (map f ps) ≡ₚ f p ++ rest ∧ concat (map f (<[t := p']> ps)) ≡ₚ f p' ++ rest.
Proof.
  intros Hp. pose proof (lookup_lt_Some _ _ _ Hp) as Hlt.
  exists (concat (map f (take t ps)) ++ concat (map f (drop (S t) ps))). split.
  - rewrite <-(take_drop_middle _ _ _ Hp) at 1. rewrite map_app, concat_app. cbn. solve_Permutation.
  - rewrite insert_take_drop, map_app, concat_app by done. cbn. solve_Permutation.
Qed.

(** Every step moves slabs between places, it neither loses nor duplicates one. *)
Lemma slabs_step st st' : step st st' → slabs_of st' ≡ₚ slabs_of st.
Proof.
  assert (∀ t p p', pcs st !! t = Some p → ∀ g rc rg ls fs rq,
    ls ++ fs ++ pending_of p' ++ map fst (rq ++ dated_of p') ≡ₚ
      linked st ++ free_slabs st ++ pending_of p ++ map fst (retired_q st ++ dated_of p) →
    slabs_of (mkE g rc rg ls fs rq (<[t := p']> (pcs st))) ≡ₚ slabs_of st) as Hgen.
  { intros t p p' Hp g rc rg ls fs rq HP. unfold slabs_of, pending, dated. cbn [linked free_slabs retired_q pcs].
    destruct (concat_upd pending_of _ _ _ p' Hp) as (r1 & -> & ->).
    destruct (concat_upd dated_of _ _ _ p' Hp) as (r2 & -> & ->).
    transitivity ((ls ++ fs ++ pending_of p' ++ map fst (rq ++ dated_of p')) ++ r1 ++ map fst r2);
      [rewrite !map_app; solve_Permutation|]. rewrite HP, !map_app. solve_Permutation. }
  destruct 1; try (eapply Hgen; [eassumption|]); cbn; rewrite ?app_nil_r; try done.
  - unfold slabs_of. cbn. rewrite H0. solve_Permutation.
  - rewrite H0. solve_Permutation.
  - rewrite H0, !map_app. cbn. solve_Permutation.
  - rewrite ?map_app. cbn. rewrite ?map_app. solve_Permutation.
  - rewrite ?map_app. cbn. rewrite ?map_app. solve_Permutation.
  - rewrite ?map_app. cbn. rewrite ?map_app. solve_Permutation.
Qed.

(** ** The invariant *)

Definition pc_ok (st : EState) (t : nat) (p : pc) : Prop :=
  match p with
  | Out => recs st !! t = Some 0
  | Entering e => recs st !! t = Some 0 ∧ 0 < e ≤ global st ∧ t ∈ reg st
  | In e _ _ => recs st !! t = Some e ∧ 0 < e ≤ global st ∧ t ∈ reg st
  end.

(** An entry a guard of epoch [e] may use: it is linked, on its way into the
    retired queue, or retired in epoch [e] or later. *)
Definition shielded_at (ls pend : list Z) (dat : list (Z * Z)) (e n : Z) : Prop :=
  n ∈ ls ∨ n ∈ pend ∨ ∃ r, e ≤ r ∧ (n, r) ∈ dat.
Definition shielded (st : EState) : Z → Z → Prop := shielded_at (linked st) (pending st) (dated st).

(** A scan over a batch takes every guard that holds an entry of the batch into
    account. *)
Definition scan_ok (t : nat) (e : Z) (refs : list Z) (ph : phase) : Prop :=
  match ph with
  | Scanning b todo m => ∀ n r, n ∈ refs → (n, r) ∈ b → t ∈ todo ∨ m ≤ e
  | Freeing b _ m => ∀ n r, n ∈ refs → (n, r) ∈ b → m ≤ e
  | _ => True
  end.

Definition scans_ok (ps : list pc) : Prop := ∀ t e refs ph t' e' refs' ph',
  ps !! t = Some (In e refs ph) → ps !! t' = Some (In e' refs' ph') → scan_ok t e refs ph'.

Record einv (st : EState) : Prop := mkEinv {
  ei_global : 0 < global st < UINT64_MAX;
  ei_pc : ∀ t p, pcs st !! t = Some p → pc_ok st t p;
  ei_nodup : NoDup (slabs_of st);
  ei_refs : ∀ t e refs ph n, pcs st !! t = Some (In e refs ph) → n ∈ refs → shielded st e n;
  ei_scans : scans_ok (pcs st)
}.

Lemma lookup_upd (ps : list pc) (t t' : nat) (p p' : pc) :
  <[t := p]> ps !! t' = Some p' → t' = t ∧ p' = p ∨ t' ≠ t ∧ ps !! t' = Some p'.
Proof.
  intros H. destruct (decide (t' = t)) as [->|Hne]; [left|right; by rewrite list_lookup_insert_ne in H by done].
  split; [done|]. by apply list_lookup_insert_Some in H as [(_ & <- & _)|[? _]].
Qed.

(** A thread that stays in its guard and changes its phase. *)
Lemma scans_phase (ps : list pc) u e refs ph0 ph :
  scans_ok ps → ps !! u = Some (In e refs ph0) →
  (∀ t e1 refs1 ph1, ps !! t = Some (In e1 refs1 ph1) → scan_ok t e1 refs1 ph) →
  scans_ok (<[u := In e refs ph]> ps).
Proof.
  intros Hok Hu Hph t e1 refs1 ph1 t' e' refs' ph' Ht Ht'.
  apply lookup_upd in Ht as [[-> [= -> -> ->]]|[_ Ht]]; apply lookup_upd in Ht' as [[-> [= -> -> ->]]|[_ Ht']]; eauto.
Qed.

(** A thread outside its guard. *)
Lemma scans_out (ps : list pc) u p : scans_ok ps → (∀ e refs ph, p = In e refs ph → refs = [] ∧ ph = Idle) → scans_ok (<[u := p]> ps).
Proof.
  intros Hok Hp t e1 refs1 ph1 t' e' refs' ph' Ht Ht'.
  apply lookup_upd in Ht' as [[-> <-]|[_ Ht']]; [by destruct (Hp _ _ _ eq_refl) as [_ ->]|].
  apply lookup_upd in Ht as [[-> <-]|[_ Ht]]; [|by eauto]. destruct (Hp _ _ _ eq_refl) as [-> _].
  destruct ph'; cbn; try done; intros n r Hn; by apply not_elem_of_nil in Hn.
Qed.

Lemma dated_in st t p x : pcs st !! t = Some p → x ∈ dated_of p → x ∈ dated st.
Proof.
  intros Hp Hx. unfold dated. destruct (concat_upd dated_of _ _ _ p Hp) as (r & -> & _). rewrite !elem_of_app. tauto.
Qed.

(** A slab is not in two places. *)
Lemma linked_not_dated st n r : NoDup (slabs_of st) → n ∈ linked st → (n, r) ∈ dated st → False.
Proof.
  intros Hnd Hl Hd. unfold slabs_of in Hnd. apply list.NoDup_app in Hnd as (_ & H & _). apply (H n Hl).
  rewrite !elem_of_app. right. right. apply list_elem_of_fmap. by exists (n, r).
Qed.

Lemma dated_functional st n r r' : NoDup (slabs_of st) → (n, r) ∈ dated st → (n, r') ∈ dated st → r = r'.
Proof.
  intros Hnd H1 H2. unfold slabs_of in Hnd. do 3 (apply list.NoDup_app in Hnd as (_ & _ & Hnd)).
  apply list_elem_of_lookup in H1 as [i Hi], H2 as [j Hj].
  assert (i = j) as ->; [|congruence]. eapply NoDup_lookup; [exact Hnd| |]; rewrite list_lookup_fmap;
    [rewrite Hi|rewrite Hj]; done.
Qed.

(** A step of one thread: it is enough to look at the parts it changes. *)
Lemma shielded_local st t p p' g rc rg ls fs rq e n :
  pcs st !! t = Some p →
  (shielded_at (linked st) (pending_of p) (retired_q st ++ dated_of p) e n →
   shielded_at ls (pending_of p') (rq ++ dated_of p') e n) →
  shielded st e n → shielded (mkE g rc rg ls fs rq (<[t := p']> (pcs st))) e n.
Proof.
  intros Hp Hloc. destruct (concat_upd pending_of _ _ _ p' Hp) as (r1 & E1 & E2).
  destruct (concat_upd dated_of _ _ _ p' Hp) as (r2 & E3 & E4).
  assert (shielded_at ls (pending_of p') (rq ++ dated_of p') e n →
          shielded (mkE g rc rg ls fs rq (<[t := p']> (pcs st))) e n) as Hout.
  { unfold shielded, pending, dated. cbn [linked retired_q pcs]. intros [H|[H|(r & Hr & H)]]; [by left|right; left|right; right].
    - rewrite E2. apply elem_of_app. by left.
    - exists r. split; [done|]. rewrite E4, app_assoc. apply elem_of_app. by left. }
  intros [H|[H|(r & Hr & H)]].
  - apply Hout, Hloc. by left.
  - unfold pending in H. rewrite E1 in H. apply elem_of_app in H as [H|H]; [apply Hout, Hloc; right; by left|].
    right. left. unfold pending. cbn [pcs]. rewrite E2. apply elem_of_app. by right.
  - unfold dated in H. rewrite E3, app_assoc in H. apply elem_of_app in H as [H|H].
    + apply Hout, Hloc. right. right. by exists r.
    + right. right. exists r. split; [done|]. unfold dated. cbn [pcs retired_q]. rewrite E4, app_assoc. apply elem_of_app. by right.
Qed.

(** The dated entries of a place, when they are the same up to order. *)
Lemma shielded_at_perm ls ls' pend dat dat' e n :
  ls ⊆ ls' → dat ≡ₚ dat' → shielded_at ls pend dat e n → shielded_at ls' pend dat' e n.
Proof.
  intros Hl Hd [H|[H|(r & Hr & H)]]; [left; by apply Hl|right; by left|right; right; exists r; by rewrite <-Hd].
Qed.

(** What shields an entry shields it after the step, unless the step frees it. *)
Lemma shielded_step st st' e n :
  step st st' → shielded st e n → e ≤ global st →
  shielded st' e n ∨ ∃ t e0 refs b req m r, pcs st !! t = Some (In e0 refs (Freeing ((n, r) :: b) req m)) ∧ r < m.
Proof.
  intros Hstep Hsh He. step_cases Hstep.
  15:{ destruct (decide (n0 = n)) as [->|Hne]; [right; by exists t, e0, refs, b, req, m, r|]. left.
    eapply shielded_local; [exact Hp| |exact Hsh]. intros [H|[H|(r' & Hr' & H)]]; [by left|by apply not_elem_of_nil in H|].
    right. right. exists r'. split; [done|]. cbn in H.
    apply elem_of_app in H as [H|H]; [|apply elem_of_cons in H as [[= -> _]|H]; [done|]]; cbn; rewrite !elem_of_app in *; tauto. }
  1: left; exact Hsh.
  5: destruct Hsh as [H|[H|H]]; left; [left; by apply list_elem_of_further|right; by left|right; by right].
  all: left; eapply shielded_local; [exact Hp| |exact Hsh]; try (apply shielded_at_perm; cbn; [done|solve_Permutation]).
  - intros [H|[H|H]]; [|by apply not_elem_of_nil in H|right; by right]. rewrite Hl in H.
    apply elem_of_cons in H as [->|H]; [right; left; apply list_elem_of_here|by left].
  - intros [H|[H|(r & Hr & H)]]; [by left| |].
    + cbn in H. apply list_elem_of_singleton in H as ->. right. right. exists (global st). split; [done|]. apply list_elem_of_here.
    + right. right. exists r. split; [done|]. by apply list_elem_of_further.
  - apply shielded_at_perm; [done|]. cbn. rewrite Hq. solve_Permutation.
Qed.

Lemma pc_ok_step st st' : step st st' → einv st → ∀ t p, pcs st' !! t = Some p → pc_ok st' t p.
Proof.
  intros Hstep [Hg Hpc _ _ _].
  (* a thread that changes only what the registry and the records do not show *)
  assert (∀ u p0 p1, pcs st !! u = Some p0 →
    (∀ g rg, global st ≤ g → reg st ⊆ rg → ∀ rc, rc = recs st → pc_ok st u p0 →
       pc_ok (mkE g rc rg [] [] [] []) u p1) →
    ∀ g rg ls fs rq, global st ≤ g → reg st ⊆ rg → ∀ t p, <[u := p1]> (pcs st) !! t = Some p →
      pc_ok (mkE g (recs st) rg ls fs rq (<[u := p1]> (pcs st))) t p) as Hgen.
  { intros u p0 p1 Hu Hp1 g rg ls fs rq Hle Hsub t p Ht.
    apply lookup_upd in Ht as [[-> ->]|[Hne Ht]].
    - specialize (Hp1 g rg Hle Hsub _ eq_refl (Hpc _ _ Hu)). by destruct p1.
    - specialize (Hpc _ _ Ht). destruct p as [|e|e refs ph]; cbn in *; [done| |].
      + destruct Hpc as (? & ? & ?). split; [done|]. split; [lia|by apply Hsub].
      + destruct Hpc as (? & ? & ?). split; [done|]. split; [lia|by apply Hsub]. }
  assert (∀ u e refs ph0 ph1 refs1, pcs st !! u = Some (In e refs ph0) → ∀ g rg ls fs rq, global st ≤ g → reg st ⊆ rg →
      ∀ t p, <[u := In e refs1 ph1]> (pcs st) !! t = Some p →
      pc_ok (mkE g (recs st) rg ls fs rq (<[u := In e refs1 ph1]> (pcs st))) t p) as Hin.
  { intros u e refs ph0 ph1 refs1 Hu. apply (Hgen u _ _ Hu). intros g rg Hle Hsub rc -> (? & ? & ?). cbn.
    split; [done|]. split; [lia|by apply Hsub]. }
  step_cases Hstep;
    try (apply (Hin _ _ _ _ _ _ Hp); [done|done]).
  - intros t' p Ht'. specialize (Hpc _ _ Ht'). destruct p; cbn in *; [done| |];
      destruct Hpc as (? & ? & ?); (split; [done|]); (split; [done|]); by apply list_elem_of_further.
  - apply (Hgen _ _ _ Hp); [|done|done]. intros g rg Hle Hsub rc -> ?. cbn. split; [done|]. split; [lia|by apply Hsub].
  - intros t' p Ht'. pose proof (Hpc _ _ Hp) as (Ht & ? & ?). pose proof (lookup_lt_Some _ _ _ Ht).
    apply lookup_upd in Ht' as [[-> ->]|[Hne Ht']].
    + cbn. split; [by apply list_lookup_insert_eq|done].
    + specialize (Hpc _ _ Ht'). destruct p; cbn in *; by rewrite list_lookup_insert_ne.
  - intros t' p Ht'. pose proof (Hpc _ _ Hp) as (Ht & ? & ?). pose proof (lookup_lt_Some _ _ _ Ht).
    apply lookup_upd in Ht' as [[-> ->]|[Hne Ht']].
    + cbn. by apply list_lookup_insert_eq.
    + specialize (Hpc _ _ Ht'). destruct p; cbn in *; by rewrite list_lookup_insert_ne.
  - intros t' p Ht'. specialize (Hpc _ _ Ht'). by destruct p.
  - apply (Hin _ _ _ _ _ _ Hp); [destruct any; lia|done].
Qed.

Lemma scans_step st st' : step st st' → einv st → scans_ok (pcs st').
Proof.
  intros Hstep Hinv. pose proof Hinv as [Hg Hpc Hnd Hrefs Hsc].
  step_cases Hstep; cbn [pcs upd];
    try (eapply scans_phase; [exact Hsc|exact Hp|by intros]); try exact Hsc; try (apply scans_out; [exact Hsc|by intros; simplify_eq]).
  - (* reach: an entry of the list is in no batch *)
    intros t1 e1 refs1 ph1 t' e' refs' ph' Ht1 Ht'.
    apply lookup_upd in Ht' as [[-> [= -> -> ->]]|[_ Ht']]; [done|].
    apply lookup_upd in Ht1 as [[-> [= -> -> ->]]|[_ Ht1]]; [|by eauto].
    pose proof (Hsc _ _ _ _ _ _ _ _ Hp Ht') as Hold.
    assert (∀ r, (n0, r) ∈ dated_of (In e' refs' ph') → False) as Hno.
    { intros r Hd. eapply linked_not_dated; [exact Hnd|exact Hn|by eapply dated_in]. }
    destruct ph'; cbn in *; try done; intros n r [->|Hin]%elem_of_cons Hb; try (by eapply Hold).
    + by destruct (Hno r).
    + destruct (Hno r). apply elem_of_app. by left.
  - (* start of the scan: every guard has a registered record *)
    eapply scans_phase; [exact Hsc|exact Hp|]. intros t1 e1 refs1 ph1 Ht1 n r _ _. left. by destruct (Hpc _ _ Ht1) as (_ & _ & ?).
  - eapply scans_phase; [exact Hsc|exact Hp|]. intros t1 e1 refs1 ph1 Ht1 n r Hn Hb.
    destruct (Hsc _ _ _ _ _ _ _ _ Ht1 Hp n r Hn Hb) as [Hin|Hle]; [apply elem_of_cons in Hin as [->|Hin]|].
    + right. destruct (Hpc _ _ Ht1) as (Hrec & He & _). rewrite Hx in Hrec. injection Hrec as ->.
      rewrite (proj2 (Z.eqb_neq e1 0)) by lia. cbn. destruct (Z.ltb_spec e1 m); lia.
    + by left.
    + right. destruct (_ && _) eqn:E; [|done]. apply andb_true_iff in E as [_ E%Z.ltb_lt]. lia.
  - eapply scans_phase; [exact Hsc|exact Hp|]. intros t1 e1 refs1 ph1 Ht1 n r Hn Hb.
    destruct (Hsc _ _ _ _ _ _ _ _ Ht1 Hp n r Hn Hb) as [Hin|Hle]; [by apply not_elem_of_nil in Hin|].
    destruct (Hpc _ _ Ht1) as (_ & He & _). rewrite (proj2 (Z.eqb_neq m UINT64_MAX)) by lia. done.
  - eapply scans_phase; [exact Hsc|exact Hp|]. intros t1 e1 refs1 ph1 Ht1 n r' Hn Hb.
    eapply (Hsc _ _ _ _ _ _ _ _ Ht1 Hp n r' Hn). by apply list_elem_of_further.
  - eapply scans_phase; [exact Hsc|exact Hp|]. intros t1 e1 refs1 ph1 Ht1 n r' Hn Hb.
    eapply (Hsc _ _ _ _ _ _ _ _ Ht1 Hp n r' Hn). by apply list_elem_of_further.
Qed.

Lemma pending_not_dated st n r : NoDup (slabs_of st) → n ∈ pending st → (n, r) ∈ dated st → False.
Proof.
  intros Hnd Hl Hd. unfold slabs_of in Hnd. do 2 (apply list.NoDup_app in Hnd as (_ & _ & Hnd)).
  apply list.NoDup_app in Hnd as (_ & H & _). apply (H n Hl). apply list_elem_of_fmap. by exists (n, r).
Qed.

Lemma free_not_shielded st e n : NoDup (slabs_of st) → n ∈ free_slabs st → ¬ shielded st e n.
Proof.
  intros Hnd Hf Hs. unfold slabs_of in Hnd. pose proof Hnd as Hnd'.
  apply list.NoDup_app in Hnd as (_ & H & _). apply list.NoDup_app in Hnd' as (_ & _ & H').
  apply list.NoDup_app in H' as (_ & H' & _).
  destruct Hs as [Hl|[Hl|(r & _ & Hl)]].
  - apply (H n Hl). rewrite !elem_of_app. by left.
  - apply (H' n Hf). rewrite elem_of_app. by left.
  - apply (H' n Hf). rewrite elem_of_app. right. apply list_elem_of_fmap. by exists (n, r).
Qed.

(** Where a reference comes from. *)
Lemma refs_origin st st' t1 e refs1 ph n :
  step st st' → pcs st' !! t1 = Some (In e refs1 ph) → n ∈ refs1 →
  (∃ refs0 ph0, pcs st !! t1 = Some (In e refs0 ph0) ∧ n ∈ refs0) ∨ n ∈ linked st ∧ linked st' = linked st.
Proof.
  intros Hstep Ht Hn1.
  assert (∀ refs0 ph0, pcs st !! t1 = Some (In e refs0 ph0) → n ∈ refs0 →
    (∃ refs0 ph0, pcs st !! t1 = Some (In e refs0 ph0) ∧ n ∈ refs0) ∨ n ∈ linked st ∧ linked st' = linked st) as Hold.
  { intros refs0 ph0 H1 H2. left. by exists refs0, ph0. }
  step_cases Hstep; cbn [pcs upd] in Ht; try (by eapply Hold);
    (apply lookup_upd in Ht as [[-> Heq]|[_ Ht]]; [|by eapply Hold]); try discriminate Heq; simplify_eq; try (by eapply Hold).
  - by apply not_elem_of_nil in Hn1.
  - apply elem_of_cons in Hn1 as [->|Hn1]; [by right|by eapply Hold].
Qed.

Lemma global_step st st' : step st st' → 0 < global st < UINT64_MAX → 0 < global st' < UINT64_MAX.
Proof. intros Hstep Hg. step_cases Hstep; try done. cbn. destruct any; lia. Qed.

Lemma einv_step st st' : step st st' → einv st → einv st'.
Proof.
  intros Hstep Hinv. pose proof Hinv as [Hg Hpc Hnd Hrefs Hsc]. split.
  - by eapply global_step.
  - by eapply pc_ok_step.
  - by rewrite (slabs_step _ _ Hstep).
  - intros t e refs ph n Ht Hn. destruct (refs_origin _ _ _ _ _ _ _ Hstep Ht Hn) as [(refs0 & ph0 & Ht0 & Hn0)|[Hl Heq]].
    + destruct (Hpc _ _ Ht0) as (_ & He & _). pose proof (Hrefs _ _ _ _ _ Ht0 Hn0) as Hsh.
      destruct (shielded_step _ _ _ _ Hstep Hsh) as [?|(t1 & e1 & refs1 & b & req & m & r & Ht1 & Hr)]; [lia|done|exfalso].
      assert ((n, r) ∈ dated st) as Hd by (eapply dated_in; [exact Ht1|apply list_elem_of_here]).
      pose proof (Hsc _ _ _ _ _ _ _ _ Ht0 Ht1 n r Hn0 (list_elem_of_here _ _)) as Hm.
      destruct Hsh as [H|[H|(r' & Hr' & H)]].
      * by eapply linked_not_dated.
      * by eapply pending_not_dated.
      * pose proof (dated_functional _ _ _ _ Hnd H Hd). lia.
    + left. by rewrite Heq.
  - by apply scans_step with st.
Qed.

Lemma einv_initial n slabs : NoDup slabs → einv (initial n slabs).
Proof.
  intros Hnd. assert (∀ t p, pcs (initial n slabs) !! t = Some p → p = Out ∧ (t < n)%nat) as Hout.
  { intros t p Ht. cbn in Ht. by apply lookup_replicate in Ht. }
  split.
  - cbn. unfold UINT64_MAX. lia.
  - intros t p Ht. destruct (Hout _ _ Ht) as [-> Hlt]. cbn. by apply lookup_replicate_2.
  - unfold slabs_of, pending, dated. cbn. assert (∀ A (f : pc → list A) k, f Out = [] → concat (map f (replicate k Out)) = []) as Hnil.
    { intros A f k Hf. induction k as [|k IH]; [done|]. cbn. by rewrite Hf. }
    rewrite !Hnil by done. cbn. by rewrite !app_nil_r.
  - intros t e refs ph m Ht. by destruct (Hout _ _ Ht).
  - intros t e refs ph t' e' refs' ph' Ht. by destruct (Hout _ _ Ht).
Qed.

Lemma einv_reachable n slabs st : NoDup slabs → rtc step (initial n slabs) st → einv st.
Proof.
  intros Hnd Hr. assert (∀ s s', rtc step s s' → einv s → einv s') as Hall.
  { induction 1 as [|s1 s2 s3 H1 _ IH]; [done|]. intros Hi. apply IH. by eapply einv_step. }
  by eapply Hall, einv_initial.
Qed.

(** C11: no use after free: with any number of threads and any sequentially consistent
    interleaving of their atomic accesses (the code's release stores and acquire loads
    allow more), a slab that a thread reached in the list since it entered its
    guard is not given back to the free list while the guard lasts, whoever unlinks
    and retires the entry and whoever reclaims. *)
Theorem no_use_after_free n slabs st t e refs ph x :
  NoDup slabs → rtc step (initial n slabs) st →
  pcs st !! t = Some (In e refs ph) → x ∈ refs →
  (x ∉ free_slabs st) ∧ (x ∈ linked st ∨ x ∈ pending st ∨ x ∈ map fst (dated st)).
Proof.
  intros Hnd Hr Ht Hx. pose proof (einv_reachable _ _ _ Hnd Hr) as Hinv.
  pose proof (ei_refs _ Hinv _ _ _ _ _ Ht Hx) as Hsh. split.
  - intros Hf. by eapply free_not_shielded; [apply Hinv| |].
  - destruct Hsh as [H|[H|(r & _ & H)]]; [by left|right; by left|right; right]. apply list_elem_of_fmap. by exists (x, r).
Qed.

(** ** A concrete run of two threads on one slab *)

(** Runs one step given by its constructor, on a concrete state. *)
Tactic Notation "run1" uconstr(c) := eapply rtc_l;
  [eapply c; first [reflexivity | by repeat constructor | (vm_compute; congruence) | by apply (bool_decide_unpack _); vm_compute]|];
  cbn [upd global recs reg linked free_slabs retired_q pcs insert list_insert initial replicate app].

(** Thread 1 inserts the entry in slab 7, thread 0 reaches it. *)
Definition reached : EState :=
  mkE 1 [1; 1] [0; 1]%nat [7] [] [] [In 1 [7] Idle; In 1 [] Idle].

Lemma reached_run : rtc step (initial 2 [7]) reached.
Proof.
  run1 (step_register _ 1%nat). run1 (step_register _ 0%nat). run1 (step_load _ 1%nat). run1 (step_store _ 1%nat).
  run1 (step_insert _ 1%nat _ _ 7 []). run1 (step_load _ 0%nat). run1 (step_store _ 0%nat). run1 (step_reach _ 0%nat _ _ 7).
  apply rtc_refl.
Qed.

Lemma no_use_after_free_witness :
  (7 ∉ free_slabs reached) ∧ (7 ∈ linked reached ∨ 7 ∈ pending reached ∨ 7 ∈ map fst (dated reached)).
Proof.
  apply (no_use_after_free 2 [7] reached 0 1 [7] Idle 7);
    [apply NoDup_singleton|exact reached_run|reflexivity|apply list_elem_of_here].
Defined.
