(* ===== verification/ShermanNode.v ===== *)
(** * Sherman pages: src/kv_index/sherman_index.hpp and the page algorithms of
    src/kv_index/sherman_index.cpp

    The second index keeps its tree in pages of a fixed size with a lock word, two
    version bytes, a header with fences and a sibling pointer, and records.  This
    file has the layout of the pages as bytes, the routing inside an internal page,
    the insertion of a separator, and the splits of both kinds of pages, as pure
    functions; [ShermanIndex] has the handlers. *)

From S2P Require Import Prelude GlobalAddress KVBlock FaunusNode.

(** [kInternalPageSize] and [kLeafPageSize] (1024 in the source). *)
Class ShermanConfig := {
  kInternalPageSize : nat;
  kLeafPageSize : nat
}.

Definition kMaxLevelOfTree : nat := 7.

(** A 16-bit signed integer. *)
Definition s16 (z : Z) : Z := let x := u16 z in if x <? 2 ^ 15 then x else x - 2 ^ 16.

Record SHeader := mkSHeader {
  leftmost_ptr : GlobalAddress;
  sibling_ptr : GlobalAddress;
  slevel : Z;
  slast_index : Z;
  lowest : Z;
  highest : Z
}.

Record SEntry := mkSEntry { skey : Z; sptr : GlobalAddress }.
Record LeafEntry := mkLeafEntry { fingerprint : Z; kv_ptr : GlobalAddress }.

(** [padding] are the bytes between the records and the rear version. *)
Record InternalPage := mkIPage {
  embedding_lock : Z;
  front_version : Z;
  ihdr : SHeader;
  irecords : list SEntry;
  ipadding : list Z;
  rear_version : Z
}.

Record LeafPage := mkLPage {
  lembedding_lock : Z;
  lfront_version : Z;
  lhdr : SHeader;
  lrecords : list LeafEntry;
  lpadding : list Z;
  lrear_version : Z
}.

Definition SEntry_init : SEntry := mkSEntry 0 Null.
Definition LeafEntry_init : LeafEntry := mkLeafEntry 0 Null.
Definition is_empty (e : LeafEntry) : bool := kv_ptr e =? Null.

Section pages.
Context {cfg : FaunusConfig} {scfg : ShermanConfig}.

(** ** Sizes *)

Definition sizeof_SHeader : nat := (2 * KEY_SIZE + 16 + 1 + 2)%nat.
Definition sizeof_SEntry : nat := (KEY_SIZE + 8)%nat.
(** A two-byte fingerprint, the four padding bits in a byte of their own, a pointer,
    and a byte of alignment: g++ does not pack [Fingerprint], which is not a POD and
    has the alignment of [uint16_t], so the size of an entry is even.  (The records
    start at an even offset whatever the size of the keys.) *)
Definition sizeof_LeafEntry : nat := 12.
Definition kInternalCardinality : nat := ((kInternalPageSize - sizeof_SHeader - 2 - 8) / sizeof_SEntry)%nat.
Definition kLeafCardinality : nat := ((kLeafPageSize - sizeof_SHeader - 2 - 8) / sizeof_LeafEntry)%nat.
Definition kLeafPagePadding : nat := (kLeafPageSize - 8 - 1 - sizeof_SHeader - sizeof_LeafEntry * kLeafCardinality - 1)%nat.
Definition kInternalPagePadding : nat :=
  (kInternalPageSize - 8 - 1 - sizeof_SHeader - sizeof_SEntry * kInternalCardinality - 1)%nat.

(** ** Constructors *)

Definition SHeader_init : SHeader := mkSHeader Null Null 0 (-1) key_min key_max.
Definition set_slevel l h := mkSHeader (leftmost_ptr h) (sibling_ptr h) l (slast_index h) (lowest h) (highest h).
Definition set_slast i h := mkSHeader (leftmost_ptr h) (sibling_ptr h) (slevel h) i (lowest h) (highest h).
Definition set_leftmost a h := mkSHeader a (sibling_ptr h) (slevel h) (slast_index h) (lowest h) (highest h).
Definition set_sibling a h := mkSHeader (leftmost_ptr h) a (slevel h) (slast_index h) (lowest h) (highest h).
Definition set_range lo hi h := mkSHeader (leftmost_ptr h) (sibling_ptr h) (slevel h) (slast_index h) lo hi.

(** [InternalPage(level)], [InternalPage(left, key, right, level)] and
    [LeafPage(level)] *)
Definition InternalPage_init (level : Z) : InternalPage :=
  mkIPage 0 0 (set_slevel (u8 level) SHeader_init) (replicate kInternalCardinality SEntry_init)
    (replicate kInternalPagePadding 0) 0.
Definition InternalPage_root (left : GlobalAddress) (key : Z) (right : GlobalAddress) (level : Z) : InternalPage :=
  let p := InternalPage_init level in
  mkIPage 0 0 (set_slast 0 (set_leftmost left (ihdr p)))
    (<[0%nat := mkSEntry key right]> (irecords p)) (ipadding p) 0.
Definition LeafPage_init (level : Z) : LeafPage :=
  mkLPage 0 0 (set_slevel (u8 level) SHeader_init) (replicate kLeafCardinality LeafEntry_init)
    (replicate kLeafPagePadding 0) 0.

(** ** Versions *)

Definition iset_consistent (p : InternalPage) : InternalPage :=
  let v := u8 (front_version p + 1) in mkIPage (embedding_lock p) v (ihdr p) (irecords p) (ipadding p) v.
Definition icheck_consistent (p : InternalPage) : bool := rear_version p =? front_version p.
Definition lset_consistent (p : LeafPage) : LeafPage :=
  let v := u8 (lfront_version p + 1) in mkLPage (lembedding_lock p) v (lhdr p) (lrecords p) (lpadding p) v.
Definition lcheck_consistent (p : LeafPage) : bool := lrear_version p =? lfront_version p.

(** ** Layout *)

Definition enc_SHeader (h : SHeader) : list Z :=
  le_bytes 8 (leftmost_ptr h) ++ le_bytes 8 (sibling_ptr h) ++ le_bytes 1 (slevel h) ++ le_bytes 2 (slast_index h) ++
  be_bytes KEY_SIZE (lowest h) ++ be_bytes KEY_SIZE (highest h).
Definition dec_SHeader (b : list Z) : SHeader :=
  mkSHeader (ga_of_u64 (le_val (slice 0 8 b))) (ga_of_u64 (le_val (slice 8 8 b))) (le_val (slice 16 1 b))
    (s16 (le_val (slice 17 2 b))) (be_val (slice 19 KEY_SIZE b)) (be_val (slice (19 + KEY_SIZE) KEY_SIZE b)).

Definition enc_SEntry (e : SEntry) : list Z := be_bytes KEY_SIZE (skey e) ++ le_bytes 8 (sptr e).
Definition dec_SEntry (b : list Z) : SEntry :=
  mkSEntry (be_val (slice 0 KEY_SIZE b)) (ga_of_u64 (le_val (slice KEY_SIZE 8 b))).
Definition enc_LeafEntry (e : LeafEntry) : list Z := le_bytes 2 (fingerprint e) ++ [0] ++ le_bytes 8 (kv_ptr e) ++ [0].
Definition dec_LeafEntry (b : list Z) : LeafEntry :=
  mkLeafEntry (Z.land (le_val (slice 0 2 b)) 0x0FFF) (ga_of_u64 (le_val (slice 3 8 b))).

(** The bytes of a page: lock, front version, header, records, padding, rear
    version. *)
Definition enc_page (lock_ front : Z) (h : SHeader) (recs : list (list Z)) (pad : list Z) (rear : Z) : list Z :=
  le_bytes 8 lock_ ++ le_bytes 1 front ++ enc_SHeader h ++ concat recs ++ pad ++ le_bytes 1 rear.
Definition records_offset : nat := (9 + sizeof_SHeader)%nat.

Definition enc_InternalPage (p : InternalPage) : list Z :=
  enc_page (embedding_lock p) (front_version p) (ihdr p) (map enc_SEntry (irecords p)) (ipadding p) (rear_version p).
Definition dec_InternalPage (b : list Z) : InternalPage :=
  mkIPage (le_val (slice 0 8 b)) (le_val (slice 8 1 b)) (dec_SHeader (slice 9 sizeof_SHeader b))
    (map (λ i, dec_SEntry (slice (records_offset + sizeof_SEntry * i) sizeof_SEntry b)) (seq 0 kInternalCardinality))
    (slice (records_offset + sizeof_SEntry * kInternalCardinality) kInternalPagePadding b)
    (le_val (slice (kInternalPageSize - 1) 1 b)).

Definition enc_LeafPage (p : LeafPage) : list Z :=
  enc_page (lembedding_lock p) (lfront_version p) (lhdr p) (map enc_LeafEntry (lrecords p)) (lpadding p) (lrear_version p).
Definition dec_LeafPage (b : list Z) : LeafPage :=
  mkLPage (le_val (slice 0 8 b)) (le_val (slice 8 1 b)) (dec_SHeader (slice 9 sizeof_SHeader b))
    (map (λ i, dec_LeafEntry (slice (records_offset + sizeof_LeafEntry * i) sizeof_LeafEntry b)) (seq 0 kLeafCardinality))
    (slice (records_offset + sizeof_LeafEntry * kLeafCardinality) kLeafPagePadding b)
    (le_val (slice (kLeafPageSize - 1) 1 b)).

(** The offset of record [i] in a leaf page. *)
Definition leaf_record_offset (i : nat) : Z := Z.of_nat (records_offset + sizeof_LeafEntry * i).

(** ** Search in an internal page *)

Definition cnt_of (h : SHeader) : Z := slast_index h + 1.

(** [for (i = 1; !found && i < cnt; ++i)]: the pointer left of the first separator
    above the key; the inner [None] when there is none. *)
Fixpoint next_loop (key : Z) (recs : list SEntry) (i n : nat) : option (option GlobalAddress) :=
  match n with
  | O => Some None
  | S n' =>
      match recs !! i, recs !! (i - 1)%nat with
      | Some e, Some e' => if key <? skey e then Some (Some (sptr e')) else next_loop key recs (S i) n'
      | _, _ => None
      end
  end.

(** [None]: an access outside [records]. *)
Definition next_level (key : Z) (p : InternalPage) : option GlobalAddress :=
  match irecords p !! 0%nat with
  | None => None
  | Some e0 =>
      if key <? skey e0 then Some (leftmost_ptr (ihdr p))
      else
        let cnt := cnt_of (ihdr p) in
        match next_loop key (irecords p) 1 (Z.to_nat (cnt - 1)) with
        | None => None
        | Some (Some a) => Some a
        | Some None => if cnt <=? 0 then None else sptr <$> irecords p !! Z.to_nat (cnt - 1)
        end
  end.

(** [get_leaf_from_cache_entry] for an entry of the range from [start] to [end_]. *)
Definition get_leaf_from_cache_entry (start end_ : Z) (page : InternalPage) (key : Z) : option GlobalAddress :=
  if (key <? start) || (end_ <=? key) then Some Null else next_level key page.

(** ** Insertion into an internal page *)

(** The loop from the last record down: [inl i] updates record [i], [inr i] inserts
    at position [i]. *)
Fixpoint find_pos (key : Z) (recs : list SEntry) (n : nat) : nat + nat :=
  match n with
  | O => inr 0%nat
  | S i =>
      let k := skey (default SEntry_init (recs !! i)) in
      if k =? key then inl i else if k <? key then inr (S i) else find_pos key recs i
  end.

(** [for (i = cnt; i > insert_index; --i) records[i] = records[i - 1]] *)
Fixpoint shift_records (insert_index i : nat) (recs : list SEntry) : list SEntry :=
  match i with
  | O => recs
  | S i' =>
      if (insert_index <? S i')%nat
      then shift_records insert_index i' (<[S i' := default SEntry_init (recs !! i')]> recs)
      else recs
  end.

Definition internal_insert (key : Z) (v : GlobalAddress) (p : InternalPage) : InternalPage :=
  let cnt := Z.to_nat (s16 (cnt_of (ihdr p))) in
  match find_pos key (irecords p) cnt with
  | inl i => mkIPage (embedding_lock p) (front_version p) (ihdr p) (<[i := mkSEntry key v]> (irecords p)) (ipadding p) (rear_version p)
  | inr i =>
      mkIPage (embedding_lock p) (front_version p) (set_slast (s16 (slast_index (ihdr p) + 1)) (ihdr p))
        (<[i := mkSEntry key v]> (shift_records i cnt (irecords p))) (ipadding p) (rear_version p)
  end.

(** ** Splits *)

(** The full page, its new sibling at [sibling_addr] and the separator. *)
Definition internal_split (sibling_addr : GlobalAddress) (p : InternalPage) : InternalPage * InternalPage * Z :=
  let cnt := s16 (cnt_of (ihdr p)) in
  let m := cnt / 2 in
  let rm := default SEntry_init (irecords p !! Z.to_nat m) in
  let split_key := skey rm in
  let sib := InternalPage_init (slevel (ihdr p)) in
  let moved := slice (Z.to_nat m + 1) (Z.to_nat (cnt - (m + 1))) (irecords p) in
  let sib_hdr := set_sibling (sibling_ptr (ihdr p)) (set_range split_key (highest (ihdr p))
                   (set_leftmost (sptr rm) (set_slast (s16 (slast_index (ihdr sib) + (cnt - (m + 1)))) (ihdr sib)))) in
  let hdr := set_sibling sibling_addr (set_range (lowest (ihdr p)) split_key
               (set_slast (s16 (slast_index (ihdr p) - (cnt - m))) (ihdr p))) in
  (mkIPage (embedding_lock p) (front_version p) hdr (irecords p) (ipadding p) (rear_version p),
   mkIPage 0 0 sib_hdr (moved ++ drop (length moved) (irecords sib)) (ipadding sib) 0,
   split_key).

(** [std::sort] by key. *)
Fixpoint insert_keyed (x : Z * LeafEntry) (l : list (Z * LeafEntry)) : list (Z * LeafEntry) :=
  match l with
  | [] => [x]
  | y :: l' => if x.1 <? y.1 then x :: l else y :: insert_keyed x l'
  end.
Definition sort_keyed (l : list (Z * LeafEntry)) : list (Z * LeafEntry) := foldr insert_keyed [] l.

(** The records of a leaf after the sorted entries were copied back. *)
Definition copy_back (keyed : list (Z * LeafEntry)) : list LeafEntry :=
  map snd keyed ++ replicate (kLeafCardinality - length keyed) LeafEntry_init.

(** The split of a leaf with the sorted entries [keyed]; [None] when there are none. *)
Definition leaf_split (sibling_addr : GlobalAddress) (keyed : list (Z * LeafEntry)) (p : LeafPage) :
    option (LeafPage * LeafPage * Z) :=
  let actual := length keyed in
  let m := (actual / 2)%nat in
  match keyed !! m with
  | None => None
  | Some (split_key, _) =>
      let recs := copy_back keyed in
      let sib := LeafPage_init (slevel (lhdr p)) in
      let moved := Z.of_nat (actual - m) in
      let sib_hdr := set_sibling (sibling_ptr (lhdr p)) (set_range split_key (highest (lhdr p))
                       (set_slast (s16 (slast_index (lhdr sib) + moved)) (lhdr sib))) in
      let hdr := set_sibling sibling_addr (set_range (lowest (lhdr p)) split_key
                   (set_slast (s16 (slast_index (lhdr p) - moved)) (lhdr p))) in
      Some (mkLPage (lembedding_lock p) (lfront_version p) hdr
              (take m recs ++ replicate (actual - m) LeafEntry_init ++ drop actual recs) (lpadding p) (lrear_version p),
            mkLPage 0 0 sib_hdr (slice m (actual - m) recs ++ drop (actual - m) (lrecords sib)) (lpadding sib) 0,
            split_key)
  end.
End pages.

(** ** Routing *)

Section routing.
Context {cfg : FaunusConfig} {scfg : ShermanConfig}.

Definition icnt (p : InternalPage) : nat := Z.to_nat (cnt_of (ihdr p)).
Definition iseps (p : InternalPage) : list Z := take (icnt p) (map skey (irecords p)).
Definition ikids (p : InternalPage) : list GlobalAddress :=
  leftmost_ptr (ihdr p) :: take (icnt p) (map sptr (irecords p)).

(** An internal page between operations: at least one record, not more than fit,
    sorted separators; the cardinality is a 16-bit number. *)
Record ipage_ok (p : InternalPage) : Prop := mkIPageOk {
  ip_length : length (irecords p) = kInternalCardinality;
  ip_cnt : 1 ≤ cnt_of (ihdr p) ≤ Z.of_nat kInternalCardinality;
  ip_small : Z.of_nat kInternalCardinality < 2 ^ 15;
  ip_sorted : sorted (iseps p)
}.

Lemma icnt_bounds p : ipage_ok p → (1 ≤ icnt p ≤ kInternalCardinality)%nat ∧ Z.of_nat (icnt p) = cnt_of (ihdr p).
Proof. intros [_ Hc _ _]. unfold icnt. lia. Qed.

Lemma length_iseps p : ipage_ok p → length (iseps p) = icnt p.
Proof. intros Hp. pose proof (icnt_bounds p Hp). unfold iseps. rewrite length_take, length_map, (ip_length _ Hp). lia. Qed.
Lemma length_ikids p : ipage_ok p → length (ikids p) = S (icnt p).
Proof. intros Hp. pose proof (icnt_bounds p Hp). unfold ikids. cbn. rewrite length_take, length_map, (ip_length _ Hp). lia. Qed.

Lemma next_loop_rank key recs : ∀ n i,
  (1 ≤ i)%nat → (i + n ≤ length recs)%nat →
  next_loop key recs i n =
    let r := rank (slice i n (map skey recs)) key in
    if (r <? n)%nat then Some (sptr <$> recs !! (i + r - 1)%nat) else Some None.
Proof.
  induction n as [|n IH]; intros i Hi Hlen; [done|].
  cbn [next_loop]. destruct (lookup_lt_is_Some_2 recs i) as [e He]; [lia|].
  destruct (lookup_lt_is_Some_2 recs (i - 1)) as [e' He']; [lia|]. rewrite He, He'.
  assert (slice i (S n) (map skey recs) = skey e :: slice (S i) n (map skey recs)) as ->.
  { unfold slice. erewrite (drop_S _ _ i); [done|]. by rewrite list_lookup_fmap, He. }
  cbn [rank]. destruct (Z.ltb_spec key (skey e)) as [Hlt|Hge].
  - rewrite Nat.add_0_r, He'. by rewrite (proj2 (Nat.ltb_lt _ _)) by lia.
  - rewrite IH by lia. cbv zeta. rewrite Nat.add_succ_r.
    destruct (Nat.ltb_spec (rank (slice (S i) n (map skey recs)) key) n).
    + rewrite (proj2 (Nat.ltb_lt _ _)) by lia. do 3 f_equal; lia.
    + by rewrite (proj2 (Nat.ltb_ge _ _)) by lia.
Qed.

(** The search of [search_node] in an internal page is routing. *)
Lemma next_level_route key p : ipage_ok p → next_level key p = route (iseps p) (ikids p) key.
Proof.
  intros Hp. pose proof (icnt_bounds p Hp) as [Hc Hcz]. pose proof (ip_length _ Hp) as Hlen.
  unfold next_level. destruct (lookup_lt_is_Some_2 (irecords p) 0) as [e0 He0]; [lia|]. rewrite He0.
  assert (iseps p = skey e0 :: slice 1 (icnt p - 1) (map skey (irecords p))) as Hseps.
  { unfold iseps, slice. destruct (icnt p) as [|c] eqn:E; [lia|]. destruct (irecords p) as [|e rs]; [done|].
    cbn in He0. simplify_eq. cbn. by rewrite Nat.sub_0_r, drop_0. }
  unfold route. rewrite Hseps. cbn [rank]. destruct (Z.ltb_spec key (skey e0)); [done|].
  replace (Z.to_nat (cnt_of (ihdr p) - 1)) with (icnt p - 1)%nat by lia.
  rewrite next_loop_rank by lia. cbv zeta. set (r := rank _ key).
  assert (r ≤ icnt p - 1)%nat as Hr.
  { unfold r. pose proof (rank_le (slice 1 (icnt p - 1) (map skey (irecords p))) key) as H'.
    rewrite length_slice in H' by (rewrite length_map; lia). done. }
  assert (ikids p !! S r = sptr <$> irecords p !! r) as ->.
  { change (ikids p !! S r) with (take (icnt p) (map sptr (irecords p)) !! r). by rewrite lookup_take_lt, list_lookup_fmap by lia. }
  destruct (Nat.ltb_spec r (icnt p - 1)) as [Hlt|Hge].
  - replace (1 + r - 1)%nat with r by lia. by destruct (irecords p !! r) eqn:E; [|apply lookup_ge_None_1 in E; lia].
  - rewrite (proj2 (Z.leb_gt _ _)) by lia. do 2 f_equal. lia.
Qed.

(** ** Insertion *)

Lemma find_pos_spec key recs n :
  (n ≤ length recs)%nat → sorted (take n (map skey recs)) →
  match find_pos key recs n with
  | inl i => (i < n)%nat ∧ map skey recs !! i = Some key
  | inr i => i = rank (take n (map skey recs)) key ∧ key ∉ take n (map skey recs)
  end.
Proof.
  induction n as [|n IH]; intros Hn Hs; [split; [done|apply not_elem_of_nil]|].
  destruct (lookup_lt_is_Some_2 recs n) as [e He]; [lia|]. cbn [find_pos]. rewrite He.
  change (default SEntry_init (Some e)) with e. cbv zeta.
  assert (map skey recs !! n = Some (skey e)) as Hl by (by rewrite list_lookup_fmap, He).
  rewrite (take_S_r _ _ _ Hl) in Hs |- *. unfold sorted in Hs. rewrite pairwise_app in Hs. destruct Hs as (Hs1 & _ & Hs2).
  assert (length (take n (map skey recs)) = n) as Hlen by (rewrite length_take, length_map; lia).
  destruct (Z.eqb_spec (skey e) key) as [<-|Hne]; [split; [lia|done]|].
  rewrite rank_app, Hlen. destruct (Z.ltb_spec (skey e) key) as [Hlt|Hge].
  - assert (Forall (λ k, k < key) (take n (map skey recs))) as Hall.
    { eapply Forall_impl; [|exact Hs2]. intros k Hk. apply Forall_cons_iff in Hk as [Hk _]. lia. }
    assert (rank (take n (map skey recs)) key = n) as Hr.
    { rewrite rank_all; [done|]. eapply Forall_impl; [|exact Hall]. cbn. lia. }
    rewrite decide_True by done. rewrite (proj2 (Z.ltb_ge _ _)) by lia. split; [done|].
    rewrite not_elem_of_app, list_elem_of_singleton. split; [|done]. intros Hin. rewrite list.Forall_forall in Hall.
    specialize (Hall _ Hin). lia.
  - specialize (IH ltac:(lia) Hs1). destruct (find_pos key recs n) as [i|i]; [destruct IH; split; [lia|done]|].
    destruct IH as [-> Hni]. rewrite (proj2 (Z.ltb_lt _ _)) by lia. split; [by case_decide|].
    rewrite not_elem_of_app, list_elem_of_singleton. by split.
Qed.

Lemma shift_records_spec idx i : ∀ recs, (i < length recs)%nat →
  length (shift_records idx i recs) = length recs ∧
  ∀ j, shift_records idx i recs !! j = if decide (idx < j ≤ i)%nat then recs !! (j - 1)%nat else recs !! j.
Proof.
  induction i as [|i IH]; intros recs Hi; cbn [shift_records].
  { split; [done|]. intros j. by rewrite decide_False by lia. }
  destruct (Nat.ltb_spec idx (S i)) as [Hlt|Hge].
  2:{ split; [done|]. intros j. by rewrite decide_False by lia. }
  destruct (lookup_lt_is_Some_2 recs i) as [e He]; [lia|]. rewrite He. change (default SEntry_init (Some e)) with e.
  destruct (IH (<[S i := e]> recs)) as [H1 H2]; [rewrite length_insert; lia|]. rewrite length_insert in H1. split; [done|].
  intros j. rewrite H2. destruct (decide (idx < j ≤ i)%nat).
  - rewrite decide_True by lia. by rewrite list_lookup_insert_ne by lia.
  - destruct (decide (j = S i)) as [->|Hne].
    + rewrite decide_True by lia. rewrite list_lookup_insert_eq by lia. replace (S i - 1)%nat with i by lia. done.
    + rewrite decide_False by lia. by rewrite list_lookup_insert_ne by lia.
Qed.

(** The shift and the store put a record in front of the one at position [idx]. *)
Lemma shifted_insert_at idx cnt recs e :
  (idx ≤ cnt < length recs)%nat →
  take (S cnt) (<[idx := e]> (shift_records idx cnt recs)) = insert_at idx e (take cnt recs).
Proof.
  intros Hi. destruct (shift_records_spec idx cnt recs) as [Hl Hs]; [lia|]. apply list_eq. intros j.
  rewrite lookup_insert_at by (rewrite length_take; lia). destruct (decide (j < S cnt)%nat) as [Hj|Hj].
  - rewrite lookup_take_lt by done. destruct (decide (j = idx)) as [->|Hne].
    + rewrite list_lookup_insert_eq by lia. by rewrite decide_False by lia.
    + rewrite list_lookup_insert_ne, Hs by done. repeat case_decide; try lia.
      * by rewrite lookup_take_lt by lia.
      * by rewrite lookup_take_lt by lia.
  - rewrite lookup_take_ge by lia. rewrite !decide_False by lia. by rewrite lookup_take_ge by lia.
Qed.

Lemma s16_small z : -(2 ^ 15) ≤ z < 2 ^ 15 → s16 z = z.
Proof.
  intros Hz. unfold s16, wrap. destruct (Z.lt_ge_cases z 0) as [Hneg|Hpos].
  - assert (z mod 2 ^ 16 = z + 2 ^ 16) as ->.
    { symmetry. apply (Z.mod_unique z (2 ^ 16) (-1)); lia. }
    rewrite (proj2 (Z.ltb_ge _ _)) by lia. lia.
  - rewrite Z.mod_small by lia. by rewrite (proj2 (Z.ltb_lt _ _)) by lia.
Qed.

Lemma map_insert_at {A B} (f : A → B) i x l : map f (insert_at i x l) = insert_at i (f x) (map f l).
Proof. unfold insert_at. by rewrite map_app, firstn_map, map_cons, skipn_map. Qed.

Lemma sorted_take n ks : sorted ks → sorted (take n ks).
Proof. unfold sorted. rewrite <-(take_drop n ks) at 1. rewrite pairwise_app. tauto. Qed.
Lemma sorted_drop n ks : sorted ks → sorted (drop n ks).
Proof. unfold sorted. rewrite <-(take_drop n ks) at 1. rewrite pairwise_app. tauto. Qed.

(** The rank of a separator. *)
Lemma rank_at ks j key : ks !! j = Some key → sorted ks → rank ks key = S j.
Proof.
  revert j. induction ks as [|k ks IH]; intros j Hj Hs; [done|]. destruct Hs as [Hk Hs]. destruct j as [|j]; cbn in Hj.
  - simplify_eq. cbn [rank]. rewrite (proj2 (Z.ltb_ge _ _)) by lia. f_equal. destruct ks as [|k' ks]; [done|].
    apply Forall_cons_iff in Hk as [Hk _]. cbn. by rewrite (proj2 (Z.ltb_lt _ _)) by lia.
  - cbn [rank]. rewrite list.Forall_forall in Hk. specialize (Hk key (list_elem_of_lookup_2 _ _ _ Hj)).
    rewrite (proj2 (Z.ltb_ge _ _)) by lia. f_equal. by apply IH.
Qed.

Lemma rank_above ks j key x : ks !! j = Some key → sorted ks → rank ks x = S j → key ≤ x.
Proof.
  revert j. induction ks as [|k ks IH]; intros j Hj Hs Hr; [done|]. destruct Hs as [Hk Hs]. cbn [rank] in Hr.
  destruct (Z.ltb_spec x k); [done|]. destruct j as [|j]; cbn in Hj; [by simplify_eq|]. eapply IH; [done|done|lia].
Qed.

(** What the insertion does to the separators and the children. *)
Lemma internal_insert_page key v p :
  ipage_ok p → cnt_of (ihdr p) < Z.of_nat kInternalCardinality →
  let p' := internal_insert key v p in
  ipage_ok p' ∧ leftmost_ptr (ihdr p') = leftmost_ptr (ihdr p) ∧
  lowest (ihdr p') = lowest (ihdr p) ∧ highest (ihdr p') = highest (ihdr p) ∧ sibling_ptr (ihdr p') = sibling_ptr (ihdr p) ∧
  (if decide (key ∈ iseps p) then
     iseps p' = iseps p ∧ ∃ j, iseps p !! j = Some key ∧ ikids p' = <[S j := v]> (ikids p)
   else iseps p' = insert_at (rank (iseps p) key) key (iseps p) ∧
        ikids p' = insert_at (S (rank (iseps p) key)) v (ikids p)).
Proof.
  intros Hp Hroom. cbv zeta. pose proof (icnt_bounds p Hp) as [Hc Hcz]. pose proof Hp as [Hlen Hcnt Hsm Hs].
  pose proof (find_pos_spec key (irecords p) (icnt p) ltac:(lia) Hs) as Hpos.
  unfold internal_insert. rewrite (s16_small (cnt_of (ihdr p))) by lia. fold (icnt p). cbv zeta.
  pose proof (rank_le (iseps p) key) as Hrk. rewrite length_iseps in Hrk by done.
  destruct (find_pos key (irecords p) (icnt p)) as [j|j]; set (p' := mkIPage _ _ _ _ _ _).
  - destruct Hpos as [Hj Hk].
    assert (iseps p !! j = Some key) as Hjk by (unfold iseps; by rewrite lookup_take_lt).
    assert (iseps p' = iseps p) as Hseps.
    { unfold iseps, icnt, p'. cbn [ihdr irecords]. f_equal. rewrite list_fmap_insert. apply list_insert_id, Hk. }
    split; [|do 4 (split; [done|])].
    + split; [by unfold p'; cbn; rewrite length_insert|done|done|by rewrite Hseps].
    + rewrite decide_True by (by eapply list_elem_of_lookup_2). split; [done|]. exists j. split; [done|].
      unfold ikids, icnt, p'. cbn. f_equal. by rewrite list_fmap_insert, take_insert_lt by done.
  - destruct Hpos as [Hj Hni]. fold (iseps p) in Hj, Hni. rewrite decide_False by done. subst j.
    assert (cnt_of (ihdr p') = cnt_of (ihdr p) + 1) as Hcnt'.
    { unfold p', cnt_of in *. cbn. rewrite s16_small by lia. lia. }
    assert (icnt p' = S (icnt p)) as Hic by (unfold icnt in *; lia).
    assert (take (icnt p') (irecords p') = insert_at (rank (iseps p) key) (mkSEntry key v) (take (icnt p) (irecords p))) as Hrec.
    { rewrite Hic. unfold p'. cbn [irecords]. apply shifted_insert_at. lia. }
    assert (iseps p' = insert_at (rank (iseps p) key) key (iseps p)) as Hseps.
    { unfold iseps at 1. rewrite firstn_map, Hrec, map_insert_at, <-firstn_map. done. }
    assert (ikids p' = insert_at (S (rank (iseps p) key)) v (ikids p)) as Hkids.
    { unfold ikids at 1. rewrite firstn_map, Hrec, map_insert_at, <-firstn_map. done. }
    split; [|by do 4 (split; [done|])].
    split; [|rewrite Hcnt'; lia|done|rewrite Hseps; by apply sorted_insert_at].
    unfold p'. cbn. rewrite length_insert. rewrite (proj1 (shift_records_spec (rank (iseps p) key) (icnt p) (irecords p) ltac:(lia))). done.
Qed.

(** C21: inserting a separator into an internal page keeps the page well formed
    (sorted separators, a count that fits) and changes its routing only for the keys
    from [key] up to the next separator, which go to the new child [v]; every other
    key goes where it went before.  Inserting an existing separator replaces its
    child in the same sense. *)
Theorem sherman_insert_routing key v p :
  ipage_ok p → cnt_of (ihdr p) < Z.of_nat kInternalCardinality →
  let p' := internal_insert key v p in
  ipage_ok p' ∧ lowest (ihdr p') = lowest (ihdr p) ∧ highest (ihdr p') = highest (ihdr p) ∧
  ∀ x, next_level x p' = if decide (rank (iseps p) x = rank (iseps p) key ∧ key ≤ x) then Some v else next_level x p.
Proof.
  intros Hp Hroom p'. destruct (internal_insert_page key v p Hp Hroom) as (Hp' & _ & Hlo & Hhi & _ & Hcase).
  change (internal_insert key v p) with p' in Hp', Hlo, Hhi, Hcase.
  split; [done|]. split; [done|]. split; [done|]. intros x. rewrite !next_level_route by done.
  case_decide as Hin.
  - destruct Hcase as (Hseps & j & Hj & Hkids). unfold route. rewrite Hseps, Hkids.
    rewrite (rank_at (iseps p) j key Hj (ip_sorted _ Hp)).
    pose proof (length_ikids p Hp) as Hlk. pose proof (lookup_lt_Some _ _ _ Hj) as Hlt. rewrite length_iseps in Hlt by done.
    destruct (decide (rank (iseps p) x = S j)) as [Heq|Hne].
    + rewrite Heq, list_lookup_insert_eq by lia. rewrite decide_True; [done|]. split; [done|].
      exact (rank_above _ _ _ _ Hj (ip_sorted _ Hp) Heq).
    + rewrite list_lookup_insert_ne by done. rewrite decide_False by tauto. done.
  - destruct Hcase as [-> ->]. apply route_insert_at. rewrite length_ikids, length_iseps by done. done.
Qed.

(** What a split does to the separators and the children: the record in the middle goes up. *)
Lemma internal_split_parts sibling_addr p :
  ipage_ok p → 3 ≤ cnt_of (ihdr p) →
  let '(p', sib, k) := internal_split sibling_addr p in
  ∃ n, (1 ≤ n ∧ n + 2 ≤ icnt p)%nat ∧ iseps p !! n = Some k ∧ ipage_ok p' ∧ ipage_ok sib ∧
    iseps p' = take n (iseps p) ∧ ikids p' = take (S n) (ikids p) ∧ iseps sib = drop (S n) (iseps p) ∧ ikids sib = drop (S n) (ikids p) ∧
    (lowest (ihdr p') = lowest (ihdr p) ∧ highest (ihdr p') = k ∧ lowest (ihdr sib) = k ∧ highest (ihdr sib) = highest (ihdr p)) ∧
    sibling_ptr (ihdr p') = sibling_addr ∧ sibling_ptr (ihdr sib) = sibling_ptr (ihdr p) ∧
    slevel (ihdr p') = slevel (ihdr p) ∧ slevel (ihdr sib) = u8 (slevel (ihdr p)).
Proof.
  intros Hp Hc3. unfold internal_split. pose proof (icnt_bounds p Hp) as [Hc Hcz]. pose proof Hp as [Hlen Hcnt Hsm Hs].
  rewrite (s16_small (cnt_of (ihdr p))) by lia. cbv zeta. set (m := cnt_of (ihdr p) / 2).
  assert (1 ≤ m ∧ m + 2 ≤ cnt_of (ihdr p)) as Hm.
  { unfold m. pose proof (Z.div_mod (cnt_of (ihdr p)) 2 ltac:(lia)). pose proof (Z.mod_pos_bound (cnt_of (ihdr p)) 2 ltac:(lia)). lia. }
  destruct (lookup_lt_is_Some_2 (irecords p) (Z.to_nat m)) as [rm Hrm]; [lia|]. rewrite Hrm.
  change (default SEntry_init (Some rm)) with rm. set (n := Z.to_nat m) in *.
  set (moved := slice (n + 1) (Z.to_nat (cnt_of (ihdr p) - (m + 1))) (irecords p)).
  assert (length moved = (icnt p - S n)%nat) as Hmov by (unfold moved; rewrite length_slice by lia; lia).
  set (p' := mkIPage _ _ _ (irecords p) _ _). set (sib := mkIPage 0 0 _ _ _ 0).
  assert (cnt_of (ihdr p') = m) as Hcp by (unfold p', cnt_of in *; cbn; rewrite s16_small by lia; lia).
  assert (cnt_of (ihdr sib) = cnt_of (ihdr p) - (m + 1)) as Hcs by (unfold sib, cnt_of in *; cbn; rewrite s16_small by lia; lia).
  assert (icnt p' = n ∧ icnt sib = (icnt p - S n)%nat) as [Hip His] by (unfold icnt in *; lia).
  assert (iseps p' = take n (iseps p)) as Hsp'.
  { unfold iseps. rewrite Hip, take_take, Nat.min_l by lia. done. }
  assert (ikids p' = take (S n) (ikids p)) as Hkp'.
  { unfold ikids. rewrite Hip. cbn [take]. rewrite take_take, Nat.min_l by lia. done. }
  assert (take (icnt sib) (irecords sib) = drop (S n) (take (icnt p) (irecords p))) as Hrs.
  { rewrite His. unfold sib. cbn [irecords]. rewrite take_app_length' by done. unfold moved, slice.
    rewrite skipn_firstn_comm. f_equal; [lia|f_equal; lia]. }
  assert (iseps sib = drop (S n) (iseps p)) as Hss.
  { unfold iseps. by rewrite firstn_map, Hrs, <-skipn_map, <-firstn_map. }
  assert (ikids sib = drop (S n) (ikids p)) as Hks.
  { unfold ikids. cbn [drop]. rewrite firstn_map, Hrs, <-skipn_map, <-firstn_map.
    erewrite (drop_S _ _ n); [done|]. rewrite lookup_take_lt, list_lookup_fmap, Hrm by lia. done. }
  assert (iseps p !! n = Some (skey rm)) as Hkm by (unfold iseps; rewrite lookup_take_lt, list_lookup_fmap, Hrm by lia; done).
  assert (ipage_ok p') as Hp'.
  { split; [done|lia|done|rewrite Hsp'; by apply sorted_take]. }
  assert (ipage_ok sib) as Hsib.
  { split; [|lia|done|rewrite Hss; by apply sorted_drop]. unfold sib. cbn. rewrite length_app, length_drop, length_replicate. lia. }
  exists n. split; [lia|]. by do 11 (split; [done|]).
Qed.

(** C22: splitting a full internal page: every key is routed by the page that is
    responsible for it to the child it had before, the left page for the keys below
    the separator, the new sibling for the others; both pages are well formed, their
    fences meet at the separator and cover the old range, and the sibling chain goes
    from the page through the new sibling to the old one. *)
Theorem sherman_split_routing sibling_addr p :
  ipage_ok p → 3 ≤ cnt_of (ihdr p) →
  let '(p', sib, k) := internal_split sibling_addr p in
  ipage_ok p' ∧ ipage_ok sib ∧
  (∀ x, next_level x p = if x <? k then next_level x p' else next_level x sib) ∧
  lowest (ihdr p') = lowest (ihdr p) ∧ highest (ihdr p') = k ∧ lowest (ihdr sib) = k ∧ highest (ihdr sib) = highest (ihdr p) ∧
  sibling_ptr (ihdr p') = sibling_addr ∧ sibling_ptr (ihdr sib) = sibling_ptr (ihdr p) ∧ k ∈ iseps p.
Proof.
  intros Hp Hc3. pose proof (internal_split_parts sibling_addr p Hp Hc3) as H. destruct (internal_split sibling_addr p) as [[p' sib] k].
  destruct H as (n & Hn & Hk & Hp' & Hsib & Hsp' & Hkp' & Hss & Hks & (H1 & H2 & H3 & H4) & H5 & H6 & _).
  split; [done|]. split; [done|]. split; [|do 6 (split; [done|]); by eapply list_elem_of_lookup_2].
  intros x. rewrite !next_level_route by done. rewrite Hsp', Hkp', Hss, Hks. apply route_split; [exact (ip_sorted _ Hp)| |done].
  rewrite length_ikids, length_iseps by done. done.
Qed.
End routing.

(** ** The split of a leaf *)

Section leaf.
Context {cfg : FaunusConfig} {scfg : ShermanConfig}.

Definition by_key (x y : Z * LeafEntry) : Prop := x.1 < y.1.

Lemma insert_keyed_perm x l : insert_keyed x l ≡ₚ x :: l.
Proof. induction l as [|y l IH]; cbn; [done|]. destruct (_ <? _); [done|]. rewrite IH. apply perm_swap. Qed.

Lemma sort_keyed_perm l : sort_keyed l ≡ₚ l.
Proof. induction l as [|x l IH]; [done|]. cbn. by rewrite insert_keyed_perm, IH. Qed.

Lemma insert_keyed_sorted x l :
  pairwise by_key l → x.1 ∉ map fst l → pairwise by_key (insert_keyed x l).
Proof.
  induction l as [|y l IH]; intros Hs Hni; [done|]. destruct Hs as [Hy Hs]. cbn [map] in Hni. rewrite elem_of_cons in Hni.
  cbn [insert_keyed]. destruct (Z.ltb_spec x.1 y.1) as [Hlt|Hge].
  - split; [|by split]. constructor; [done|]. eapply Forall_impl; [|exact Hy]. unfold by_key. lia.
  - split; [|apply IH; tauto]. rewrite insert_keyed_perm. constructor; [|done]. unfold by_key. destruct (decide (x.1 = y.1)); [tauto|lia].
Qed.

(** [std::sort] of entries with distinct keys. *)
Lemma sort_keyed_sorted l : NoDup (map fst l) → pairwise by_key (sort_keyed l).
Proof.
  induction l as [|x l IH]; [done|]. cbn [map]. intros [Hni Hnd]%list.NoDup_cons. cbn.
  apply insert_keyed_sorted; [by apply IH|]. intros Hin. apply Hni. fold (sort_keyed l) in Hin.
  by rewrite (sort_keyed_perm l) in Hin.
Qed.

(** The occupied records. *)
Definition occupied (recs : list LeafEntry) : list LeafEntry := filter (λ e, is_empty e = false) recs.

Lemma occupied_empty n : occupied (replicate n LeafEntry_init) = [].
Proof. induction n as [|n IH]; [done|]. unfold occupied in *. cbn [replicate]. by rewrite filter_cons_False. Qed.

Lemma occupied_all l : Forall (λ e, is_empty e = false) l → occupied l = l.
Proof. induction 1 as [|e l He _ IH]; [done|]. unfold occupied in *. rewrite filter_cons_True by done. by f_equal. Qed.

(** A sorted list cut at position [m]. *)
Lemma cut_at_key l m k e :
  pairwise by_key l → l !! m = Some (k, e) →
  filter (λ x, x.1 < k) l = take m l ∧ filter (λ x, k ≤ x.1) l = drop m l.
Proof.
  intros Hs Hm. pose proof Hs as Hs0. rewrite <-(take_drop_middle _ _ _ Hm) in Hs0. rewrite pairwise_app in Hs0.
  destruct Hs0 as (_ & [Hd _] & Ht).
  assert (Forall (λ x, x.1 < k) (take m l)) as H1.
  { eapply Forall_impl; [|exact Ht]. intros x Hx. apply Forall_cons_iff in Hx as [Hx _]. exact Hx. }
  assert (Forall (λ x, k ≤ x.1) (drop m l)) as H2.
  { erewrite drop_S by done. constructor; [cbn; lia|]. eapply Forall_impl; [|exact Hd]. unfold by_key. cbn. lia. }
  rewrite <-(take_drop m l) at 1 3. rewrite !list.filter_app. split.
  - rewrite filter_all, filter_none, app_nil_r; [done| |done]. eapply Forall_impl; [|exact H2]. cbn. lia.
  - rewrite filter_none, filter_all; [done|done|]. eapply Forall_impl; [|exact H1]. cbn. lia.
Qed.

(** The records of both pages: the sorted entries cut in the middle. *)
Lemma leaf_split_parts keyed sibling_addr p :
  Forall (λ x, is_empty x.2 = false) keyed → (2 ≤ length keyed ≤ kLeafCardinality)%nat →
  ∃ p' sib k e m, leaf_split sibling_addr keyed p = Some (p', sib, k) ∧ (1 ≤ m < length keyed)%nat ∧ keyed !! m = Some (k, e) ∧
    occupied (lrecords p') = map snd (take m keyed) ∧ occupied (lrecords sib) = map snd (drop m keyed) ∧
    length (lrecords p') = kLeafCardinality ∧ length (lrecords sib) = kLeafCardinality ∧
    (lowest (lhdr p') = lowest (lhdr p) ∧ highest (lhdr p') = k ∧ lowest (lhdr sib) = k ∧ highest (lhdr sib) = highest (lhdr p)) ∧
    sibling_ptr (lhdr p') = sibling_addr ∧ sibling_ptr (lhdr sib) = sibling_ptr (lhdr p) ∧
    (slevel (lhdr p') = slevel (lhdr p) ∧ leftmost_ptr (lhdr p') = leftmost_ptr (lhdr p) ∧
     slevel (lhdr sib) = u8 (slevel (lhdr p)) ∧ leftmost_ptr (lhdr sib) = Null).
Proof.
  intros Hne Hlen. unfold leaf_split. set (m := (length keyed / 2)%nat).
  assert (1 ≤ m ∧ m < length keyed)%nat as Hm.
  { unfold m. pose proof (Nat.div_mod (length keyed) 2). pose proof (Nat.mod_upper_bound (length keyed) 2). lia. }
  destruct (lookup_lt_is_Some_2 keyed m) as [[k e] Hk]; [lia|]. rewrite Hk.
  assert (Forall (λ x, is_empty x = false) (map snd keyed)) as Hocc by (by rewrite Forall_map).
  assert (length (copy_back keyed) = kLeafCardinality) as Hcb.
  { unfold copy_back. rewrite length_app, length_map, length_replicate. lia. }
  assert (take m (copy_back keyed) = map snd (take m keyed)) as Ht.
  { unfold copy_back. rewrite take_app_le by (rewrite length_map; lia). apply firstn_map. }
  assert (slice m (length keyed - m) (copy_back keyed) = map snd (drop m keyed)) as Hd.
  { unfold slice, copy_back. rewrite drop_app_le by (rewrite length_map; lia).
    rewrite take_app_length'; [apply skipn_map|]. rewrite length_drop, length_map. lia. }
  assert (drop (length keyed) (copy_back keyed) = replicate (kLeafCardinality - length keyed) LeafEntry_init) as Hr.
  { unfold copy_back. by rewrite drop_app_length' by (by rewrite length_map). }
  eexists _, _, k, e, m. split; [reflexivity|]. cbn [lrecords lhdr]. rewrite Ht, Hd, Hr.
  assert (occupied (map snd (take m keyed) ++ replicate (length keyed - m) LeafEntry_init ++ replicate (kLeafCardinality - length keyed) LeafEntry_init) =
          map snd (take m keyed)) as Ho1.
  { unfold occupied. rewrite !list.filter_app. fold (occupied (replicate (length keyed - m) LeafEntry_init)).
    fold (occupied (replicate (kLeafCardinality - length keyed) LeafEntry_init)). rewrite !occupied_empty, !app_nil_r.
    apply occupied_all. rewrite <-firstn_map. by apply Forall_take. }
  assert (occupied (map snd (drop m keyed) ++ drop (length keyed - m) (lrecords (LeafPage_init (slevel (lhdr p))))) = map snd (drop m keyed)) as Ho2.
  { unfold occupied. rewrite list.filter_app. cbn [lrecords LeafPage_init]. rewrite drop_replicate.
    fold (occupied (replicate (kLeafCardinality - (length keyed - m)) LeafEntry_init)). rewrite occupied_empty, app_nil_r.
    apply occupied_all. rewrite <-skipn_map. by apply Forall_drop. }
  do 2 (split; [done|]). rewrite Ho1, Ho2. do 2 (split; [done|]).
  split; [rewrite !length_app, length_map, length_take, !length_replicate; lia|].
  split; [rewrite length_app, length_map, !length_drop; cbn [lrecords LeafPage_init]; rewrite length_replicate; lia|].
  by do 3 (split; [done|]).
Qed.

(** C28: splitting a full leaf: the entries, sorted by the keys of their items, are
    partitioned at the separator: the left page keeps exactly those below it, the
    sibling gets exactly the others, neither is empty; the fences meet at the
    separator and cover the old range, and the sibling is linked between the page
    and its old sibling. *)
Theorem sherman_leaf_split es sibling_addr p :
  NoDup (map fst es) → Forall (λ x, is_empty x.2 = false) es →
  (2 ≤ length es ≤ kLeafCardinality)%nat →
  ∃ p' sib k, leaf_split sibling_addr (sort_keyed es) p = Some (p', sib, k) ∧
    occupied (lrecords p') ≡ₚ map snd (filter (λ x, x.1 < k) es) ∧
    occupied (lrecords sib) ≡ₚ map snd (filter (λ x, k ≤ x.1) es) ∧
    occupied (lrecords p') ≠ [] ∧ occupied (lrecords sib) ≠ [] ∧
    length (lrecords p') = kLeafCardinality ∧ length (lrecords sib) = kLeafCardinality ∧
    lowest (lhdr p') = lowest (lhdr p) ∧ highest (lhdr p') = k ∧ lowest (lhdr sib) = k ∧ highest (lhdr sib) = highest (lhdr p) ∧
    sibling_ptr (lhdr p') = sibling_addr ∧ sibling_ptr (lhdr sib) = sibling_ptr (lhdr p) ∧ k ∈ map fst es.
Proof.
  intros Hnd Hne Hlen. pose proof (sort_keyed_perm es) as Hp. pose proof (sort_keyed_sorted es Hnd) as Hs.
  assert (length (sort_keyed es) = length es) as Hlk by (by rewrite Hp).
  destruct (leaf_split_parts (sort_keyed es) sibling_addr p) as (p' & sib & k & e & m & Hsp & Hm & Hk & Ho1 & Ho2 & Hl1 & Hl2 & (H1 & H2 & H3 & H4) & H5 & H6 & _).
  { by rewrite Hp. }
  { by rewrite Hlk. }
  destruct (cut_at_key _ m k e Hs Hk) as [Hcut1 Hcut2]. exists p', sib, k. split; [done|].
  split; [by rewrite Ho1, <-Hcut1, Hp|]. split; [by rewrite Ho2, <-Hcut2, Hp|].
  split; [rewrite Ho1; intros H%(f_equal length); rewrite length_map, length_take in H; change (length (@nil LeafEntry)) with 0%nat in H; lia|].
  split; [rewrite Ho2; intros H%(f_equal length); rewrite length_map, length_drop in H; change (length (@nil LeafEntry)) with 0%nat in H; lia|].
  do 8 (split; [done|]). rewrite <-Hp. apply list_elem_of_fmap. exists (k, e). split; [done|]. by eapply list_elem_of_lookup_2.
Qed.
End leaf.

(** ** Layout of the pages *)

Section layout.
Context {cfg : FaunusConfig} {scfg : ShermanConfig}.

Definition sheader_ok (h : SHeader) : Prop :=
  ga_ok (leftmost_ptr h) ∧ ga_ok (sibling_ptr h) ∧ in_width 8 (slevel h) ∧ -(2 ^ 15) ≤ slast_index h < 2 ^ 15 ∧
  key_ok (lowest h) ∧ key_ok (highest h).
Definition sentry_ok (e : SEntry) : Prop := key_ok (skey e) ∧ ga_ok (sptr e).
Definition lentry_ok (e : LeafEntry) : Prop := in_width 12 (fingerprint e) ∧ ga_ok (kv_ptr e).

(** What the fields of a page can hold. *)
Definition ipage_typed (p : InternalPage) : Prop :=
  in_width 64 (embedding_lock p) ∧ in_width 8 (front_version p) ∧ in_width 8 (rear_version p) ∧ sheader_ok (ihdr p) ∧
  length (irecords p) = kInternalCardinality ∧ Forall sentry_ok (irecords p) ∧ length (ipadding p) = kInternalPagePadding.
Definition lpage_typed (p : LeafPage) : Prop :=
  in_width 64 (lembedding_lock p) ∧ in_width 8 (lfront_version p) ∧ in_width 8 (lrear_version p) ∧ sheader_ok (lhdr p) ∧
  length (lrecords p) = kLeafCardinality ∧ Forall lentry_ok (lrecords p) ∧ length (lpadding p) = kLeafPagePadding.

(** The page sizes hold at least the fields around the records. *)
Definition sizes_ok : Prop :=
  (sizeof_SHeader + 10 ≤ kInternalPageSize)%nat ∧ (sizeof_SHeader + 10 ≤ kLeafPageSize)%nat.

Lemma le8_roundtrip v : in_width 8 v → le_val (le_bytes 1 v) = v.
Proof. intros H. rewrite le_val_le_bytes. apply Z.mod_small. apply H. Qed.

Lemma s16_roundtrip v : -(2 ^ 15) ≤ v < 2 ^ 15 → s16 (le_val (le_bytes 2 v)) = v.
Proof.
  intros H. rewrite le_val_le_bytes. change (256 ^ Z.of_nat 2) with (2 ^ 16).
  rewrite <-(s16_small v H) at 2. unfold s16. fold (wrap 16 v). by rewrite wrap_idemp by lia.
Qed.

Lemma fp_roundtrip v : in_width 12 v → Z.land (le_val (le_bytes 2 v)) 0x0FFF = v.
Proof.
  intros H. rewrite le_val_le_bytes. change 0x0FFF with (Z.ones 12). rewrite Z.land_ones by lia.
  unfold in_width in H. change (256 ^ Z.of_nat 2) with (2 ^ 16). rewrite (Z.mod_small v (2 ^ 16)) by lia. by apply Z.mod_small.
Qed.

Lemma length_enc_SHeader h : length (enc_SHeader h) = sizeof_SHeader.
Proof. unfold enc_SHeader, sizeof_SHeader. rewrite !length_app, !length_le_bytes, !length_be_bytes. lia. Qed.
Lemma length_enc_SEntry e : length (enc_SEntry e) = sizeof_SEntry.
Proof. unfold enc_SEntry. by rewrite length_app, length_be_bytes, length_le_bytes. Qed.
Lemma length_enc_LeafEntry e : length (enc_LeafEntry e) = sizeof_LeafEntry.
Proof. unfold enc_LeafEntry. by rewrite !length_app, !length_le_bytes. Qed.

Lemma dec_enc_SHeader h : sheader_ok h → dec_SHeader (enc_SHeader h) = h.
Proof.
  intros (H1 & H2 & H3 & H4 & H5 & H6). unfold dec_SHeader, enc_SHeader. destruct h as [a s l i lo hi].
  cbn [leftmost_ptr sibling_ptr slevel slast_index lowest highest] in *.
  pose proof (length_le_bytes 8 a) as HA. pose proof (length_le_bytes 8 s) as HB. pose proof (length_le_bytes 1 l) as HC.
  pose proof (length_le_bytes 2 i) as HD. pose proof (length_be_bytes KEY_SIZE lo) as HE. pose proof (length_be_bytes KEY_SIZE hi) as HF.
  set (A := le_bytes 8 a) in *. set (B := le_bytes 8 s) in *. set (C := le_bytes 1 l) in *. set (D := le_bytes 2 i) in *.
  set (E := be_bytes KEY_SIZE lo) in *. set (F := be_bytes KEY_SIZE hi) in *.
  rewrite <-(app_nil_r F). f_equal.
  - read_field (@nil Z) A. by apply ga_roundtrip64.
  - read_field A B. by apply ga_roundtrip64.
  - read_field (A ++ B) C. by apply le8_roundtrip.
  - read_field (A ++ B ++ C) D. by apply s16_roundtrip.
  - read_field (A ++ B ++ C ++ D) E. by apply key_roundtrip.
  - read_field (A ++ B ++ C ++ D ++ E) F. by apply key_roundtrip.
Qed.

Lemma dec_enc_SEntry e : sentry_ok e → dec_SEntry (enc_SEntry e) = e.
Proof.
  intros [H1 H2]. unfold dec_SEntry, enc_SEntry. destruct e as [k c]. cbn [skey sptr] in *.
  pose proof (length_be_bytes KEY_SIZE k) as HA. pose proof (length_le_bytes 8 c) as HB.
  set (A := be_bytes KEY_SIZE k) in *. set (B := le_bytes 8 c) in *. rewrite <-(app_nil_r B). f_equal.
  - read_field (@nil Z) A. by apply key_roundtrip.
  - read_field A B. by apply ga_roundtrip64.
Qed.

Lemma dec_enc_LeafEntry e : lentry_ok e → dec_LeafEntry (enc_LeafEntry e) = e.
Proof.
  intros [H1 H2]. unfold dec_LeafEntry, enc_LeafEntry. destruct e as [f c]. cbn [fingerprint kv_ptr] in *.
  pose proof (length_le_bytes 2 f) as HA. pose proof (length_le_bytes 8 c) as HB.
  set (A := le_bytes 2 f) in *. set (B := le_bytes 8 c) in *. rewrite <-(app_nil_r B). f_equal.
  - read_field (@nil Z) A. by apply fp_roundtrip.
  - read_field (A ++ [0]) B. by apply ga_roundtrip64.
Qed.

(** The fields of the bytes of a page, whatever the records. *)
Lemma page_fields {A} (enc : A → list Z) (dec : list Z → A) sz n size lk fv h (recs : list A) pad rv :
  let b := enc_page lk fv h (map enc recs) pad rv in
  (∀ x, x ∈ recs → length (enc x) = sz ∧ dec (enc x) = x) → length recs = n →
  in_width 64 lk → in_width 8 fv → in_width 8 rv → sheader_ok h →
  (size = 8 + 1 + sizeof_SHeader + sz * n + length pad + 1)%nat →
  length b = size ∧ le_val (slice 0 8 b) = lk ∧ le_val (slice 8 1 b) = fv ∧ dec_SHeader (slice 9 sizeof_SHeader b) = h ∧
  map (λ i, dec (slice (records_offset + sz * i) sz b)) (seq 0 n) = recs ∧
  slice (records_offset + sz * n) (length pad) b = pad ∧ le_val (slice (size - 1) 1 b) = rv.
Proof.
  cbv zeta. intros Hrec Hn Hlk Hfv Hrv Hh Hsize. unfold enc_page, records_offset.
  assert (length (concat (map enc recs)) = sz * n)%nat as HR.
  { rewrite (length_concat_const _ sz), length_map, Hn; [done|].
    apply list.Forall_forall. intros y (z & -> & Hz)%list_elem_of_fmap. by apply Hrec. }
  pose proof (length_le_bytes 8 lk) as HA. pose proof (length_le_bytes 1 fv) as HB. pose proof (length_le_bytes 1 rv) as HZ.
  pose proof (length_enc_SHeader h) as HH.
  set (A' := le_bytes 8 lk) in *. set (B := le_bytes 1 fv) in *. set (H := enc_SHeader h) in *.
  set (Z' := le_bytes 1 rv) in *. set (R := concat (map enc recs)) in *.
  split_and!.
  - rewrite !length_app. lia.
  - read_field (@nil Z) A'. by apply le64_roundtrip.
  - read_field A' B. by apply le8_roundtrip.
  - read_field (A' ++ B) H. by apply dec_enc_SHeader.
  - assert (A' ++ B ++ H ++ R ++ pad ++ Z' = (A' ++ B ++ H) ++ R ++ (pad ++ Z')) as -> by (by rewrite <-!app_assoc).
    replace (9 + sizeof_SHeader)%nat with (length (A' ++ B ++ H)) by (rewrite !length_app; lia). by apply dec_array.
  - read_field (A' ++ B ++ H ++ R) pad. done.
  - rewrite <-(app_nil_r Z'). read_field (A' ++ B ++ H ++ R ++ pad) Z'. by apply le8_roundtrip.
Qed.

Lemma leaf_page_size : sizes_ok →
  (kLeafPageSize = 8 + 1 + sizeof_SHeader + sizeof_LeafEntry * kLeafCardinality + kLeafPagePadding + 1)%nat.
Proof.
  intros [_ H]. unfold kLeafPagePadding.
  pose proof (Nat.Div0.mul_div_le (kLeafPageSize - sizeof_SHeader - 2 - 8) sizeof_LeafEntry). unfold kLeafCardinality. lia.
Qed.

Lemma internal_page_size : sizes_ok →
  (kInternalPageSize = 8 + 1 + sizeof_SHeader + sizeof_SEntry * kInternalCardinality + kInternalPagePadding + 1)%nat.
Proof.
  intros [H _]. unfold kInternalPagePadding.
  pose proof (Nat.Div0.mul_div_le (kInternalPageSize - sizeof_SHeader - 2 - 8) sizeof_SEntry). unfold kInternalCardinality. lia.
Qed.

Lemma dec_enc_InternalPage p : sizes_ok → ipage_typed p →
  dec_InternalPage (enc_InternalPage p) = p ∧ length (enc_InternalPage p) = kInternalPageSize.
Proof.
  intros Hsz (Hl & Hf & Hr & Hh & Hn & Hrec & Hpad). unfold enc_InternalPage, dec_InternalPage.
  edestruct (page_fields enc_SEntry dec_SEntry sizeof_SEntry kInternalCardinality kInternalPageSize (embedding_lock p)
    (front_version p) (ihdr p) (irecords p) (ipadding p) (rear_version p)) as (H0 & H1 & H2 & H3 & H4 & H5 & H6); [|done..| |].
  - intros x Hx. split; [apply length_enc_SEntry|]. apply dec_enc_SEntry. rewrite list.Forall_forall in Hrec. by apply Hrec.
  - rewrite Hpad. by apply internal_page_size.
  - rewrite H1, H2, H3, H4, H6. rewrite <-Hpad, H5. by destruct p.
Qed.

Lemma dec_enc_LeafPage p : sizes_ok → lpage_typed p →
  dec_LeafPage (enc_LeafPage p) = p ∧ length (enc_LeafPage p) = kLeafPageSize.
Proof.
  intros Hsz (Hl & Hf & Hr & Hh & Hn & Hrec & Hpad). unfold enc_LeafPage, dec_LeafPage.
  edestruct (page_fields enc_LeafEntry dec_LeafEntry sizeof_LeafEntry kLeafCardinality kLeafPageSize (lembedding_lock p)
    (lfront_version p) (lhdr p) (lrecords p) (lpadding p) (lrear_version p)) as (H0 & H1 & H2 & H3 & H4 & H5 & H6); [|done..| |].
  - intros x Hx. split; [apply length_enc_LeafEntry|]. apply dec_enc_LeafEntry. rewrite list.Forall_forall in Hrec. by apply Hrec.
  - rewrite Hpad. by apply leaf_page_size.
  - rewrite H1, H2, H3, H4, H6. rewrite <-Hpad, H5. by destruct p.
Qed.

(** ** What the operations store fits the fields *)

Lemma s16_range z : -(2 ^ 15) ≤ s16 z < 2 ^ 15.
Proof.
  unfold s16. pose proof (wrap_in_width 16 z ltac:(lia)) as H. unfold in_width in H.
  destruct (Z.ltb_spec (u16 z) (2 ^ 15)); lia.
Qed.

Lemma SHeader_init_typed l : sheader_ok (set_slevel (u8 l) SHeader_init).
Proof.
  unfold sheader_ok. cbn. split_and!; try done; try (apply wrap_in_width; lia); unfold key_ok, key_min, key_max; lia.
Qed.

Lemma SEntry_init_typed : sentry_ok SEntry_init.
Proof. split; [unfold key_ok; cbn; lia|done]. Qed.
Lemma LeafEntry_init_typed : lentry_ok LeafEntry_init.
Proof. done. Qed.
Hint Resolve SHeader_init_typed SEntry_init_typed LeafEntry_init_typed s16_range : core.

Lemma InternalPage_init_typed l : ipage_typed (InternalPage_init l).
Proof. unfold ipage_typed. cbn. rewrite !length_replicate. split_and!; try done. by apply Forall_replicate. Qed.
Lemma LeafPage_init_typed l : lpage_typed (LeafPage_init l).
Proof. unfold lpage_typed. cbn. rewrite !length_replicate. split_and!; try done. by apply Forall_replicate. Qed.

Lemma lookup_sentry_ok recs i : Forall sentry_ok recs → sentry_ok (default SEntry_init (recs !! i)).
Proof. intros H. destruct (recs !! i) eqn:E; [|apply SEntry_init_typed]. by eapply Forall_lookup_1. Qed.

Lemma shift_records_typed idx i : ∀ recs, Forall sentry_ok recs →
  Forall sentry_ok (shift_records idx i recs) ∧ length (shift_records idx i recs) = length recs.
Proof.
  induction i as [|i IH]; intros recs H; cbn [shift_records]; [done|]. case_match; [|done].
  destruct (IH (<[S i := default SEntry_init (recs !! i)]> recs)) as [H1 H2].
  - apply Forall_insert; [done|by apply lookup_sentry_ok].
  - by rewrite length_insert in H2.
Qed.

Lemma internal_insert_typed key v p : ipage_typed p → key_ok key → ga_ok v → ipage_typed (internal_insert key v p).
Proof.
  intros (Hl & Hf & Hr & (H1 & H2 & H3 & H4 & H5 & H6) & Hn & Hrec & Hpad) Hk Hv. unfold internal_insert.
  case_match; unfold ipage_typed, sheader_ok; cbn.
  - rewrite length_insert. split_and!; try done; try lia. by apply Forall_insert.
  - edestruct shift_records_typed as [Hs Hsl]; [exact Hrec|]. rewrite length_insert, Hsl.
    split_and!; try done; try apply s16_range. by apply Forall_insert.
Qed.

Lemma internal_split_typed a p : ipage_typed p → ga_ok a →
  let '(p', sib, k) := internal_split a p in ipage_typed p' ∧ ipage_typed sib ∧ key_ok k.
Proof.
  intros (Hl & Hf & Hr & (H1 & H2 & H3 & H4 & H5 & H6) & Hn & Hrec & Hpad) Ha. unfold internal_split.
  set (m := s16 _ / 2). destruct (lookup_sentry_ok (irecords p) (Z.to_nat m) Hrec) as [Hk Hp].
  set (rm := default _ _) in *. set (moved := slice _ _ _).
  assert (Forall sentry_ok moved) as Hm by (unfold moved, slice; by apply Forall_take, Forall_drop).
  assert (length moved ≤ kInternalCardinality)%nat as Hml by (unfold moved, slice; rewrite length_take, length_drop; lia).
  destruct (InternalPage_init_typed (slevel (ihdr p))) as (_ & _ & _ & (_ & _ & G3 & _) & Gn & Grec & Gpad).
  unfold ipage_typed, sheader_ok. cbn -[length]. rewrite length_app, length_drop, length_replicate, length_replicate.
  split_and!; try done; try apply s16_range; try lia. apply Forall_app. split; [done|]. apply Forall_drop, Forall_replicate; auto.
Qed.

Lemma leaf_split_typed a keyed p p' sib k : lpage_typed p → ga_ok a → (length keyed ≤ kLeafCardinality)%nat →
  Forall (λ x, key_ok x.1 ∧ lentry_ok x.2) keyed → leaf_split a keyed p = Some (p', sib, k) →
  lpage_typed p' ∧ lpage_typed sib ∧ key_ok k.
Proof.
  intros (Hl & Hf & Hr & (H1 & H2 & H3 & H4 & H5 & H6) & Hn & Hrec & Hpad) Ha Hlen Hkeyed. unfold leaf_split.
  set (m := (length keyed / 2)%nat).
  destruct (keyed !! m) as [[k0 e0]|] eqn:Ek; [|done]. intros Heq. simplify_eq.
  assert (m < length keyed)%nat as Hm by (eapply lookup_lt_Some; done).
  pose proof (Forall_lookup_1 _ _ _ _ Hkeyed Ek) as [Hk _].
  assert (Forall lentry_ok (copy_back keyed)) as Hcb.
  { unfold copy_back. apply Forall_app. split; [|apply Forall_replicate; auto]. rewrite Forall_map.
    eapply Forall_impl; [|exact Hkeyed]. by intros x [_ ?]. }
  assert (length (copy_back keyed) = kLeafCardinality) as Hcl.
  { unfold copy_back. rewrite length_app, length_map, length_replicate. lia. }
  destruct (LeafPage_init_typed (slevel (lhdr p))) as (_ & _ & _ & (_ & _ & G3 & _) & Gn & Grec & Gpad).
  set (init := lrecords (LeafPage_init _)) in *.
  unfold lpage_typed, sheader_ok. cbn [lembedding_lock lfront_version lrear_version lhdr lrecords lpadding leftmost_ptr sibling_ptr
    slevel slast_index lowest highest set_sibling set_range set_slast].
  rewrite !length_app, length_take, length_replicate, !length_drop, length_slice, Gn by lia.
  split_and!; try done; try apply s16_range; try lia; rewrite !Forall_app.
  - split_and!; [by apply Forall_take|apply Forall_replicate; auto|by apply Forall_drop].
  - split; [unfold slice; by apply Forall_take, Forall_drop|]. by apply Forall_drop.
Qed.

Lemma consistent_typed p q : ipage_typed p → lpage_typed q → ipage_typed (iset_consistent p) ∧ lpage_typed (lset_consistent q).
Proof.
  unfold ipage_typed, lpage_typed. cbn. intros (? & ? & ? & ?) (? & ? & ? & ?).
  split; split_and!; try tauto; apply wrap_in_width; lia.
Qed.

Lemma InternalPage_root_typed left key right l : key_ok key → ga_ok left → ga_ok right → ipage_typed (InternalPage_root left key right l).
Proof.
  intros Hk Ha Hb. destruct (InternalPage_init_typed l) as (_ & _ & _ & (_ & G2 & G3 & _ & G5 & G6) & Gn & Grec & Gpad).
  unfold ipage_typed, sheader_ok. cbn [InternalPage_root embedding_lock front_version rear_version ihdr irecords ipadding
    leftmost_ptr sibling_ptr slevel slast_index lowest highest set_slast set_leftmost]. rewrite length_insert.
  split_and!; try done. by apply Forall_insert.
Qed.

End layout.

(** ** The page sizes of the source *)

Definition sherman_cfg : ShermanConfig := {| kInternalPageSize := 1024; kLeafPageSize := 1024 |}.

Section demo.
#[local] Existing Instances demo_cfg sherman_cfg.

Definition demo_ipage : InternalPage :=
  let p := InternalPage_init 1 in
  mkIPage 0 0 (set_slast 2 (set_leftmost 64 (ihdr p)))
    ([mkSEntry 10 128; mkSEntry 20 192; mkSEntry 30 256] ++ drop 3 (irecords p)) (ipadding p) 0.
Definition demo_keyed : list (Z * LeafEntry) := [(7, mkLeafEntry 1 8); (3, mkLeafEntry 2 16); (9, mkLeafEntry 3 24)].

Lemma demo_ipage_ok : ipage_ok demo_ipage.
Proof. split; try (vm_compute; repeat split; congruence). vm_compute. repeat split; repeat constructor. Qed.

Lemma sherman_insert_routing_witness : next_level 27 (internal_insert 25 999 demo_ipage) = Some 999.
Proof.
  destruct (sherman_insert_routing 25 999 demo_ipage) as (_ & _ & _ & H); [apply demo_ipage_ok|vm_compute; reflexivity|].
  rewrite H. reflexivity.
Defined.

Lemma sherman_split_routing_witness :
  let '(p', sib, k) := internal_split 777 demo_ipage in
  k = 20 ∧ ipage_ok p' ∧ ipage_ok sib ∧ next_level 15 p' = Some 128 ∧ next_level 35 sib = Some 256.
Proof.
  pose proof (sherman_split_routing 777 demo_ipage demo_ipage_ok) as H.
  destruct (internal_split 777 demo_ipage) as [[p' sib] k] eqn:E.
  destruct H as (Hp & Hs & _); [vm_compute; congruence|]. vm_compute in E. injection E as <- <- <-.
  split; [reflexivity|]. split; [exact Hp|]. split; [exact Hs|]. split; reflexivity.
Defined.

Lemma sherman_leaf_split_witness :
  ∃ p' sib k, leaf_split 777 (sort_keyed demo_keyed) (LeafPage_init 0) = Some (p', sib, k) ∧
    occupied (lrecords p') ≡ₚ map snd (filter (λ x, x.1 < k) demo_keyed) ∧ k ∈ map fst demo_keyed.
Proof.
  destruct (sherman_leaf_split demo_keyed 777 (LeafPage_init 0)) as (p' & sib & k & H1 & H2 & H).
  - apply (bool_decide_unpack _). vm_compute. exact I.
  - repeat constructor.
  - apply (bool_decide_unpack _). vm_compute. exact I.
  - exists p', sib, k. split; [exact H1|]. split; [exact H2|apply H].
Defined.

End demo.
