(* ===== verification/ShermanIndex.v ===== *)
(** * The Sherman index (src/kv_index/sherman_index.cpp)

    The handlers of [ShermanIndex] as state-passing programs over the RDMA manager,
    the allocator, the local lock manager and the page cache: every RDMA operation,
    allocation, lock, cache access and statistics call of the source, in its order,
    with its assertions, retries and early returns.

    [SWorld] is what one thread works on.  The members of the base class [KVIndex]
    are those of [World] (FaunusIndex.v), whose cache is here the page cache; the
    thread's [path_stack], the lock tag of the instance and the local lock manager
    are added.  [local_others] is what the other threads of the compute server do to
    the local locks before each of this thread's accesses to them.

    Loops without a bound in the source (reading a page until its versions agree,
    waiting for a remote lock, following pointers in [read]) get the bound [fuel],
    the wait for a local ticket [spins] polls, and the recursion along siblings and
    towards the root [depth] calls. *)

From S2P Require Import Prelude GlobalAddress RdmaSim ThreadStats Queue MemoryServer Slab RdmaManager LocalLock KVBlock FaunusNode FaunusIndex RangeCache RangeSpec ShermanNode.

(** ** The page cache

    The entry a search returns gives access to its range. *)
Class RangedCache (C Ent Item : Type) `{!NodeCache C Ent Item} := {
  cache_range : Ent → C → Z * Z;
  cache_range_search : ∀ c k e i c',
    cache_search k c = (Some (e, i), c') → cached c (cache_range e c', i) ∧ (cache_range e c').1 ≤ k < (cache_range e c').2
}.

(** The range cache satisfies the interface. *)
#[export] Instance range_cache_ranged {Q : Type → Type} `{!ConcurrentQueue Q} {L : Type} `{!SkipList L} {S : Type} `{!ChunkAllocator S}
    {Item : Type} : RangedCache (ok_cache (Q := Q) (L := L) (S := S) (Item := Item)) Z Item.
Proof.
  refine {| cache_range := λ n c, match entries_at (proj1_sig c) !! n with Some e => (start e, end_ e) | None => (0, 0) end |}.
  intros c k e i c'. cbn [cache_search range_node_cache]. destruct (run_ok _ _ c) as [[r c1] H]. cbn in *.
  destruct (search_run k _ (proj2_sig c)) as (r' & w' & H' & _ & _ & Hk & Hr). rewrite H in H'. injection H' as -> Hw'.
  intros [= Hb <-]. destruct r' as [n|]; [|done]. cbn in Hb.
  destruct (sl_find_le _ _) as [n'|] eqn:E; [|done]. destruct Hr as (en & Hen & Hr).
  destruct (_ && _) eqn:Hc; [|done]. injection Hr as ->. rewrite Hen in Hb. cbn in Hb. simplify_eq.
  apply andb_true_iff in Hc as [H1%Z.leb_le H2%Z.ltb_lt].
  destruct (Hk _ _ Hen) as (en' & Hen' & Hs' & He' & _). rewrite Hen', Hs', He'. cbn [fst snd]. split; [|done].
  destruct (sl_find_le_some _ _ _ E) as (s & Hs & _). destruct (inv_linked _ _ (proj2_sig c) _ _ Hs) as (en0 & Hen0 & <-).
  rewrite Hen in Hen0. injection Hen0 as <-. by exists e, en.
Defined.

(** [is_leaf] and [level] are set by every call before they are read. *)
Record SearchResult := mkSR {
  sr_is_leaf : bool;
  sr_level : Z;
  slibing : GlobalAddress;
  sr_next_level : GlobalAddress;
  sr_val : Z
}.
Definition SearchResult_init : SearchResult := mkSR false 0 Null Null 0.

(** [Value::min()] *)
Definition value_min : Z := 0.

Section index.
Context {cfg : FaunusConfig} {scfg : ShermanConfig}.
Context {Q : Type → Type} `{!ConcurrentQueue Q}.
Context {C Ent : Type} `{!NodeCache C Ent (GlobalAddress * InternalPage)} `{!RangedCache C Ent (GlobalAddress * InternalPage)}.
Variables (fuel : positive) (spins depth : nat).

Record SWorld := mkSWorld {
  kv : World Q C;
  local_lock_mgr_ : option LocalLockManager;
  local_others : list (LocalLockManager → LocalLockManager);
  path_stack : list GlobalAddress;
  sherman_tag_ : Z
}.

Definition on_kv {A} (m : M (World Q C) A) : M SWorld A :=
  zoom kv (λ k w, mkSWorld k (local_lock_mgr_ w) (local_others w) (path_stack w) (sherman_tag_ w)) m.
Definition set_path (ps : list GlobalAddress) (w : SWorld) : SWorld :=
  mkSWorld (kv w) (local_lock_mgr_ w) (local_others w) ps (sherman_tag_ w).
Definition set_locks (m : option LocalLockManager) (os : list (LocalLockManager → LocalLockManager)) (w : SWorld) : SWorld :=
  mkSWorld (kv w) m os (path_stack w) (sherman_tag_ w).

(** An access to the local lock manager, after what the other threads do. *)
Definition on_locks {A} (lm : LocalLockManager) (m : M LocalLockManager A) : M SWorld A := λ w,
  let lm' := match local_others w with [] => lm | f :: _ => f lm end in
  match m lm' with
  | Done a lm'' => Done a (set_locks (Some lm'') (tail (local_others w)) w)
  | Fault e lm'' => Fault e (set_locks (Some lm'') (tail (local_others w)) w)
  end.

Definition sread (a : GlobalAddress) (size : nat) : M SWorld (bool * list Z) := on_kv (read_object a size).
Definition swrite (a : GlobalAddress) (obj : list Z) : M SWorld bool := on_kv (write_object a obj).
Definition salloc (size : nat) : M SWorld GlobalAddress := on_kv (allocate size).

(** ** Construction *)

(** [hash_val] is the hash of the instance's address, [next_id] the value of the
    global counter [next_32bit_id] (read and advanced when there is a manager). *)
Definition rdma_tag (local_lock_mgr : option LocalLockManager) (hash_val next_id : Z) : Z :=
  match local_lock_mgr with
  | Some lm => Z.lor (u64 (Z.shiftl (u32 (cs_rdma_tag_ lm)) 32)) (u32 next_id)
  | None => let tag := Z.land hash_val 0xFFFFFFFFFFFFFFFF in if tag =? 0 then 1 else tag
  end.
Definition ShermanIndex_init (k : World Q C) (local_lock_mgr : option LocalLockManager) (hash_val next_id : Z) : SWorld :=
  mkSWorld k local_lock_mgr [] (replicate kMaxLevelOfTree Null) (rdma_tag local_lock_mgr hash_val next_id).

(** The number of entries of the cache [create_cache] makes. *)
Definition create_cache_entries (cache_size_bytes : Z) : Z := Z.max 1 (cache_size_bytes / 2048).

Definition get_required_sizes : list Z :=
  fold_left (λ l n, set_put (Z.of_nat n) l) [8; kLeafPageSize; kInternalPageSize; sizeof_KVItem]%nat [].

(** ** The root pointer *)

Definition get_root_offset : M SWorld GlobalAddress :=
  w ← get;
  r ← sread (root_offset_pointer_ (kv w)) 8;
  _ ← assert_ r.1;
  mret (ga_of_u64 (le_val r.2)).

Definition update_root_offset (left : GlobalAddress) (key : Z) (right : GlobalAddress) (level_ : Z) (old_root : GlobalAddress) :
    M SWorld bool :=
  new_root_address ← salloc kInternalPageSize;
  ok ← swrite new_root_address (enc_InternalPage (iset_consistent (InternalPage_root left key right level_)));
  _ ← assert_ ok;
  w ← get;
  r ← on_kv (perform (mkOp (root_offset_pointer_ (kv w)) (op_cas old_root new_root_address)));
  _ ← assert_ r.1;
  mret (old_root =? ga_of_u64 (expected_after old_root r.2)).

(** The root offset stays a 64-bit number here. *)
Definition initialize : M SWorld bool :=
  root_ptr ← salloc 8;
  _ ← on_kv (modify (set_root_pointer root_ptr));
  off ← on_kv (on_alloc (local_allocate (Z.of_nat kLeafPageSize)));
  let root_offset := u64 off in
  ok ← swrite (ga_of_u64 root_offset) (enc_LeafPage (lset_consistent (LeafPage_init 0)));
  _ ← assert_ ok;
  r ← on_kv (perform (mkOp root_ptr (op_cas 0 root_offset)));
  _ ← assert_ r.1;
  mret true.

(** ** Locks *)

(** One round of the retry loop: [retry_cnt] and [pre_conflict_tag]. *)
Definition lock_step (lock_address tag : Z) (st : Z * Z) : M SWorld (Z * Z + bool) :=
  let retry_cnt := u64 (st.1 + 1) in
  r ← on_kv (perform (mkOp lock_address (op_cas 0 tag)));
  _ ← assert_ r.1;
  let current_value := expected_after 0 r.2 in
  if current_value =? 0 then mret (inr true)
  else if Z.shiftr current_value 32 =? Z.shiftr tag 32 then mret (inr true)
  else if 1000000 <? retry_cnt then _ ← assert_ false; mret (inr false)
  else
    _ ← assert_ (negb (current_value =? 0));
    mret (inl (if negb (current_value =? st.2) then (0, current_value) else (retry_cnt, st.2))).

Definition try_lock_address (lock_address : GlobalAddress) : M SWorld bool :=
  w ← get;
  is_handover ← (match local_lock_mgr_ w with
                 | None => mret false
                 | Some lm =>
                     h ← on_locks lm (acquire spins lock_address);
                     _ ← on_kv (stats_if (record_local_lock_acquisition h));
                     mret h
                 end);
  if (is_handover : bool) then mret true
  else
    r ← loop fuel (lock_step lock_address (sherman_tag_ w)) (0, 0);
    match r with inl _ => raise OutOfFuel | inr b => mret b end.

Definition unlock_address (lock_address : GlobalAddress) : M SWorld unit :=
  w ← get;
  handover ← (match local_lock_mgr_ w with
              | None => mret false
              | Some lm => on_locks lm (release lock_address)
              end);
  if (handover : bool) then mret tt
  else _ ← on_kv (on_net (rdma_cas_release_lock lock_address)); mret tt.

Definition lock_and_read_page (lock_addr page_address : GlobalAddress) (page_size : nat) : M SWorld (list Z) :=
  lock_success ← try_lock_address lock_addr;
  if negb lock_success then raise Thrown
  else
    r ← sread page_address page_size;
    _ ← assert_ r.1;
    mret r.2.

Definition write_page_and_unlock (page_buffer : list Z) (page_address lock_addr : GlobalAddress) : M SWorld unit :=
  w ← get;
  handover ← (match local_lock_mgr_ w with
              | None => mret false
              | Some lm => on_locks lm (can_hand_over lock_addr)
              end);
  r ← on_kv (perform_all (write_op page_address page_buffer ::
                          if (handover : bool) then [] else [write_op lock_addr (le_bytes 8 0)]));
  _ ← assert_ r.1;
  w ← get;
  match local_lock_mgr_ w with
  | None => mret tt
  | Some lm => _ ← on_locks lm (release lock_addr); mret tt
  end.

(** ** The page cache *)

Definition scache_search (key : Z) : M SWorld (option (Ent * Z * Z * InternalPage)) := λ w,
  match faunus_cache_ (kv w) with
  | None => Done None w
  | Some c =>
      let r := cache_search key c in
      let w' := mkSWorld (set_cache (Some r.2) (kv w)) (local_lock_mgr_ w) (local_others w) (path_stack w) (sherman_tag_ w) in
      Done (match r.1 with
            | None => None
            | Some (e, (_, p)) => let se := cache_range e r.2 in Some (e, se.1, se.2, p)
            end) w'
  end.
Definition scache_add (s e : Z) (i : GlobalAddress * InternalPage) : M SWorld unit :=
  on_kv (modify (λ w, set_cache (cache_add s e i <$> faunus_cache_ w) w)).
Definition scache_invalidate (e : option Ent) : M SWorld unit :=
  match e with
  | None => mret tt
  | Some e => on_kv (modify (λ w, set_cache (cache_invalidate e <$> faunus_cache_ w) w))
  end.
Definition has_cache : M SWorld bool := gets (λ w, match faunus_cache_ (kv w) with None => false | Some _ => true end).

(** ** Searching a node *)

(** The records of a leaf: the value of the item with the key. *)
Fixpoint leaf_scan (key target_fp : Z) (recs : list LeafEntry) : M SWorld (option Z) :=
  match recs with
  | [] => mret None
  | r :: recs' =>
      if is_empty r then leaf_scan key target_fp recs'
      else if fingerprint r =? target_fp then
        o ← sread (kv_ptr r) sizeof_KVItem;
        if negb o.1 then leaf_scan key target_fp recs'
        else
          let kv_item := dec_KVItem o.2 in
          if item_key kv_item =? key then mret (Some (item_value kv_item)) else leaf_scan key target_fp recs'
      else leaf_scan key target_fp recs'
  end.

(** [path_stack[level] = a] *)
Definition push_path (level_ : Z) (a : GlobalAddress) : M SWorld unit :=
  if (Z.to_nat level_ <? kMaxLevelOfTree)%nat then modify (λ w, set_path (<[Z.to_nat level_ := a]> (path_stack w)) w)
  else raise OutOfBounds.

(** From [re_read] on; [inl] goes back there. *)
Definition search_node_step (node_address : GlobalAddress) (key : Z) (result : SearchResult) (from_cache : bool) (_ : unit) :
    M SWorld (unit + bool * SearchResult) :=
  o ← sread node_address kLeafPageSize;
  _ ← assert_ o.1;
  let page := dec_LeafPage o.2 in
  if negb (lcheck_consistent page) then mret (inl tt)
  else
    let hdr := lhdr page in
    let is_leaf := leftmost_ptr hdr =? Null in
    let level_ := slevel hdr in
    let result := mkSR is_leaf level_ (slibing result) (sr_next_level result) (sr_val result) in
    _ ← push_path level_ node_address;
    if highest hdr <=? key then
      let result := mkSR is_leaf level_ (sibling_ptr hdr) (sr_next_level result) (sr_val result) in
      _ ← assert_ (negb (slibing result =? Null));
      _ ← assert_ (negb (slibing result =? node_address));
      mret (inr (true, result))
    else
      _ ← assert_ (lowest hdr <=? key);
      if is_leaf then
        if from_cache && ((key <? lowest hdr) || (highest hdr <=? key)) then mret (inr (false, result))
        else
          _ ← assert_ (level_ =? 0);
          v ← leaf_scan key (Fingerprint key) (lrecords page);
          mret (inr (true, match v with
                           | Some v => mkSR is_leaf level_ (slibing result) (sr_next_level result) v
                           | None => result
                           end))
      else
        _ ← assert_ (negb (level_ =? 0));
        _ ← assert_ (negb from_cache);
        let internal_page := dec_InternalPage o.2 in
        if negb (icheck_consistent internal_page) then mret (inl tt)
        else
          _ ← (if level_ =? 1 then scache_add (lowest hdr) (highest hdr) (node_address, internal_page) else mret tt);
          match next_level key internal_page with
          | None => raise OutOfBounds
          | Some a => mret (inr (true, mkSR is_leaf level_ (slibing result) a (sr_val result)))
          end.

Definition search_node (node_address : GlobalAddress) (key : Z) (result : SearchResult) (from_cache : bool) :
    M SWorld (bool * SearchResult) :=
  r ← loop fuel (search_node_step node_address key result from_cache) tt;
  match r with inl _ => raise OutOfFuel | inr x => mret x end.

Definition before_operation : M SWorld unit := modify (set_path (replicate kMaxLevelOfTree Null)).

(** ** Insertion *)

Fixpoint insert_to_internal (calls : nat) (page_addr : GlobalAddress) (key : Z) (v root : GlobalAddress) (level_ : Z) : M SWorld unit :=
  match calls with
  | O => raise OutOfFuel
  | S calls' =>
      bytes ← lock_and_read_page page_addr page_addr kInternalPageSize;
      let page := dec_InternalPage bytes in
      let hdr := ihdr page in
      _ ← assert_ (slevel hdr =? level_);
      _ ← assert_ (icheck_consistent page);
      if highest hdr <=? key then
        _ ← unlock_address page_addr;
        _ ← assert_ (negb (sibling_ptr hdr =? Null));
        insert_to_internal calls' (sibling_ptr hdr) key v root level_
      else
        _ ← assert_ (lowest hdr <=? key);
        _ ← assert_ (negb (s16 (cnt_of hdr) =? Z.of_nat kInternalCardinality));
        let page := internal_insert key v page in
        if negb (s16 (cnt_of (ihdr page)) =? Z.of_nat kInternalCardinality) then
          write_page_and_unlock (enc_InternalPage (iset_consistent page)) page_addr page_addr
        else
          sibling_addr ← salloc kInternalPageSize;
          let '(page', sibling, split_key) := internal_split sibling_addr page in
          _ ← assert_ (lowest hdr <? split_key);
          _ ← assert_ (split_key <? highest hdr);
          _ ← assert_ (negb (sibling_addr =? page_addr));
          _ ← assert_ (negb (sibling_ptr (ihdr sibling) =? page_addr));
          _ ← assert_ (negb (sibling_ptr (ihdr sibling) =? sibling_addr));
          ok ← swrite sibling_addr (enc_InternalPage (iset_consistent sibling));
          _ ← assert_ ok;
          _ ← write_page_and_unlock (enc_InternalPage (iset_consistent page')) page_addr page_addr;
          updated ← (if root =? page_addr then update_root_offset page_addr split_key sibling_addr (level_ + 1) root
                     else mret false);
          if (updated : bool) then mret tt
          else
            w ← get;
            match path_stack w !! Z.to_nat (level_ + 1) with
            | None => raise OutOfBounds
            | Some up_level =>
                if negb (up_level =? Null) then insert_to_internal calls' up_level split_key sibling_addr root (level_ + 1)
                else assert_ false
            end
  end.

(** The position of the traversal and the result the searches share. *)
Definition up_step (key : Z) (v root : GlobalAddress) (level_ : Z) (st : GlobalAddress * SearchResult) :
    M SWorld (GlobalAddress * SearchResult + unit) :=
  let '(p, result) := st in
  r ← search_node p key result false;
  let result := r.2 in
  if negb r.1 then p ← get_root_offset; mret (inl (p, result))
  else if sr_level result =? level_ then _ ← insert_to_internal depth p key v root level_; mret (inr tt)
  else
    _ ← assert_ (negb (sr_level result =? 0));
    if negb (slibing result =? Null) then mret (inl (slibing result, result))
    else
      let p := sr_next_level result in
      if negb (sr_level result =? level_ + 1) then mret (inl (p, result))
      else _ ← insert_to_internal depth p key v root level_; mret (inr tt).

Definition search_and_insert_to_internal (key : Z) (v : GlobalAddress) (level_ : Z) : M SWorld unit :=
  root ← get_root_offset;
  r ← loop fuel (up_step key v root level_) (root, SearchResult_init);
  match r with inl _ => raise OutOfFuel | inr _ => mret tt end.

(** The records of the leaf: [inl] when the key's item was updated, else the number
    of occupied records and the first empty one. *)
Fixpoint leaf_insert_scan (key value target_fp : Z) (recs : list LeafEntry) (i : nat) (cnt : Z) (empty_index : option nat) :
    M SWorld (unit + Z * option nat) :=
  match recs with
  | [] => mret (inr (cnt, empty_index))
  | r :: recs' =>
      if negb (is_empty r) then
        let next := leaf_insert_scan key value target_fp recs' (S i) (cnt + 1) empty_index in
        if fingerprint r =? target_fp then
          o ← sread (kv_ptr r) sizeof_KVItem;
          let kv_item := dec_KVItem o.2 in
          if o.1 && (item_key kv_item =? key) then
            _ ← swrite (kv_ptr r) (enc_KVItem (mkItem (item_key kv_item) value));
            mret (inl tt)
          else next
        else next
      else leaf_insert_scan key value target_fp recs' (S i) cnt (match empty_index with None => Some i | e => e end)
  end.

(** [keyed_entries]: the occupied records whose items could be read. *)
Fixpoint read_keys (recs : list LeafEntry) : M SWorld (list (Z * LeafEntry)) :=
  match recs with
  | [] => mret []
  | r :: recs' =>
      if is_empty r then read_keys recs'
      else
        o ← sread (kv_ptr r) sizeof_KVItem;
        rest ← read_keys recs';
        mret (if (o.1 : bool) then (item_key (dec_KVItem o.2), r) :: rest else rest)
  end.

(** The split of a full leaf and what follows it. *)
Definition split_leaf_page (leaf_address : GlobalAddress) (page : LeafPage) (cnt : Z) (root : GlobalAddress) (level_ : Z) : M SWorld unit :=
  let hdr := lhdr page in
  entries ← read_keys (lrecords page);
  let keyed := sort_keyed entries in
  _ ← assert_ (Z.of_nat (length keyed) =? cnt);
  sibling_addr ← salloc kLeafPageSize;
  match leaf_split sibling_addr keyed page with
  | None => raise OutOfBounds
  | Some (page', sibling, split_key) =>
      _ ← assert_ (lowest hdr <? split_key);
      _ ← assert_ (split_key <? highest hdr);
      _ ← assert_ (negb (sibling_addr =? leaf_address));
      _ ← assert_ (negb (sibling_ptr (lhdr sibling) =? leaf_address));
      _ ← assert_ (negb (sibling_ptr (lhdr sibling) =? sibling_addr));
      _ ← swrite sibling_addr (enc_LeafPage (lset_consistent sibling));
      _ ← write_page_and_unlock (enc_LeafPage (lset_consistent page')) leaf_address leaf_address;
      updated ← (if root =? leaf_address then update_root_offset leaf_address split_key sibling_addr (level_ + 1) root
                 else mret false);
      if (updated : bool) then mret tt
      else
        w ← get;
        match path_stack w !! Z.to_nat (level_ + 1) with
        | None => raise OutOfBounds
        | Some up_level =>
            if negb (up_level =? Null) then insert_to_internal depth up_level split_key sibling_addr root (level_ + 1)
            else search_and_insert_to_internal split_key sibling_addr (level_ + 1)
        end
  end.

Fixpoint insert_to_leaf (calls : nat) (leaf_address : GlobalAddress) (key value : Z) (root : GlobalAddress) (level_ : Z) (from_cache : bool) :
    M SWorld bool :=
  match calls with
  | O => raise OutOfFuel
  | S calls' =>
      bytes ← lock_and_read_page leaf_address leaf_address kLeafPageSize;
      let page := dec_LeafPage bytes in
      let hdr := lhdr page in
      _ ← assert_ (slevel hdr =? level_);
      _ ← assert_ (lcheck_consistent page);
      if from_cache && ((key <? lowest hdr) || (highest hdr <=? key)) then
        _ ← unlock_address leaf_address; mret false
      else if highest hdr <=? key then
        _ ← unlock_address leaf_address;
        _ ← assert_ (negb (sibling_ptr hdr =? Null));
        _ ← insert_to_leaf calls' (sibling_ptr hdr) key value root level_ false;
        mret true
      else
        _ ← assert_ (lowest hdr <=? key);
        s ← leaf_insert_scan key value (Fingerprint key) (lrecords page) 0 0 None;
        match s with
        | inl _ => _ ← unlock_address leaf_address; mret true
        | inr (cnt, empty_index) =>
            _ ← assert_ (negb (cnt =? Z.of_nat kLeafCardinality));
            match empty_index with
            | None => raise AssertFailed
            | Some i =>
                kv_item_addr ← salloc sizeof_KVItem;
                _ ← swrite kv_item_addr (enc_KVItem (mkItem key value));
                let r := mkLeafEntry (Fingerprint key) kv_item_addr in
                let cnt := cnt + 1 in
                if negb (cnt =? Z.of_nat kLeafCardinality) then
                  _ ← write_page_and_unlock (enc_LeafEntry r) (ga_add leaf_address (leaf_record_offset i)) leaf_address;
                  mret true
                else
                  let page := mkLPage (lembedding_lock page) (lfront_version page) hdr (<[i := r]> (lrecords page)) (lpadding page) (lrear_version page) in
                  _ ← split_leaf_page leaf_address page cnt root level_;
                  mret true
            end
        end
  end.

Definition MAX_RETRIES : Z := 1000000.

(** From [next] on: the retry count, the position and the result the searches share. *)
Definition insert_step (key value : Z) (root : GlobalAddress) (st : Z * GlobalAddress * SearchResult) :
    M SWorld (Z * GlobalAddress * SearchResult + bool) :=
  let '(retry_count, p, result) := st in
  _ ← (if 0 <? retry_count then on_kv (stats record_retry) else mret tt);
  let retry_count := retry_count + 1 in
  if MAX_RETRIES <? retry_count then mret (inr false)
  else
    r ← search_node p key result false;
    let result := r.2 in
    if negb r.1 then p ← get_root_offset; mret (inl (retry_count, p, result))
    else
      let leaf p := _ ← insert_to_leaf depth p key value root 0 false; mret (inr true) in
      if negb (sr_is_leaf result) then
        _ ← assert_ (negb (sr_level result =? 0));
        if negb (slibing result =? Null) then mret (inl (retry_count, slibing result, result))
        else
          let p := sr_next_level result in
          if negb (sr_level result =? 1) then mret (inl (retry_count, p, result)) else leaf p
      else leaf p.

Definition insert (key value : Z) : M SWorld bool :=
  _ ← before_operation;
  done ← (cached ← has_cache;
          if negb cached then mret false
          else
            hit ← scache_search key;
            ok ← (match hit with
                  | None => mret false
                  | Some (e, start, end_, page) =>
                      match get_leaf_from_cache_entry start end_ page key with
                      | None => raise OutOfBounds
                      | Some cached_address =>
                          root ← get_root_offset;
                          ok ← insert_to_leaf depth cached_address key value root 0 true;
                          _ ← (if (ok : bool) then on_kv (stats_if record_cache_hit) else scache_invalidate (Some e));
                          mret ok
                      end
                  end);
            _ ← (if (ok : bool) then mret tt else on_kv (stats_if record_cache_miss));
            mret ok);
  if (done : bool) then mret true
  else
    root ← get_root_offset;
    r ← loop 1000002 (insert_step key value root) (0, root, SearchResult_init);
    match r with inl _ => raise OutOfFuel | inr b => mret b end.

(** ** Reading *)

(** The position, [from_cache], [cached_entry] and the result the searches share;
    [inr] is the value found. *)
Definition read_step (key : Z) (root : GlobalAddress) (st : GlobalAddress * bool * option Ent * SearchResult) :
    M SWorld (GlobalAddress * bool * option Ent * SearchResult + option Z) :=
  let '(p, from_cache, cached_entry, result) := st in
  r ← search_node p key result false;
  let result := r.2 in
  if negb r.1 then
    if (from_cache : bool) then
      _ ← (match cached_entry with
           | None => mret tt
           | Some e => _ ← scache_invalidate (Some e); on_kv (stats record_cache_miss)
           end);
      mret (inl (root, false, cached_entry, result))
    else mret (inl (p, from_cache, cached_entry, result))
  else
    _ ← (match cached_entry with None => mret tt | Some _ => on_kv (stats_if record_cache_hit) end);
    let again p := mret (inl (p, from_cache, None, result)) in
    if sr_is_leaf result then
      if negb (sr_val result =? value_min) then mret (inr (Some (sr_val result)))
      else if negb (slibing result =? Null) then again (slibing result)
      else mret (inr None)
    else again (if slibing result =? Null then sr_next_level result else slibing result).

(** Where the traversal starts: at the leaf a cached page routes to, or at the root. *)
Definition read_start (key : Z) (root : GlobalAddress) : M SWorld (GlobalAddress * bool * option Ent) :=
  cached ← has_cache;
  if negb cached then mret (root, false, None)
  else
    hit ← scache_search key;
    match hit with
    | None => _ ← on_kv (stats_if record_cache_miss); mret (root, false, None)
    | Some (e, s, t, page) =>
        match get_leaf_from_cache_entry s t page key with
        | None => raise OutOfBounds
        | Some p => mret (p, true, Some e)
        end
    end.

Definition read (key : Z) : M SWorld (option Z) :=
  root ← get_root_offset;
  start ← read_start key root;
  r ← loop fuel (read_step key root) (start, mkSR false 0 Null Null value_min);
  match r with inl _ => raise OutOfFuel | inr v => mret v end.

(** Not implemented in the source. *)
Definition del (key : Z) : M SWorld bool := _ ← assert_ false; mret false.
End index.

(** ** A list as the page cache, and a compute server to run the code on *)

Definition page_cache : Type := list (nat * (Z * Z * (GlobalAddress * InternalPage))).

#[global] Instance page_cache_ops : NodeCache page_cache (nat * (Z * Z)) (GlobalAddress * InternalPage).
Proof.
  refine {| cache_search := λ k c, (match List.find (covers k) c with
                                    | Some (n, (s, e, i)) => Some ((n, (s, e)), i) | None => None end, c);
            cache_add := λ s e i c, (length c, (s, e, i)) :: c;
            cache_invalidate := λ n c, List.filter (λ x, negb (fst x =? n.1)%nat) c;
            cached := λ c x, ∃ n, (n, x) ∈ c |}.
  - intros c k e i c'. destruct (List.find (covers k) c) as [[n [[s t] i']]|] eqn:E; [|done].
    intros H. simplify_eq. apply find_some in E as [Hin Hc]. simpl in Hc. bool_hyps.
    exists s, t. split; [|lia]. exists n. by apply list_elem_of_In.
  - intros c k r c' x H. by simplify_eq.
  - intros c s e i x [n Hn]. apply elem_of_cons in Hn as [Hn|Hn]; [right|left; by exists n].
    by simplify_eq.
  - intros c e x [n Hn]. exists n. apply list_elem_of_In in Hn. apply filter_In in Hn as [Hn _].
    by apply list_elem_of_In.
Defined.

#[global] Instance page_cache_ranged : RangedCache page_cache (nat * (Z * Z)) (GlobalAddress * InternalPage).
Proof.
  refine {| cache_range := λ e _, e.2 |}. intros c k e i c'. cbn.
  destruct (List.find (covers k) c) as [[n [[s t] i']]|] eqn:E; [|done].
  intros H. simplify_eq. apply find_some in E as [Hin Hc]. simpl in Hc. bool_hyps.
  cbn. split; [|lia]. exists n. by apply list_elem_of_In.
Defined.

(** Fresh slabs for every size the index asks for, on [num_ms] servers with [mem]
    bytes each. *)
Definition sworld_init {cfg : FaunusConfig} {scfg : ShermanConfig} {Q} `{!ConcurrentQueue Q} {C} (num_ms mem : nat)
    (slabs_per_size : Z) (cache : option C) (locks : option LocalLockManager) : option (SWorld (Q := Q) (C := C)) :=
  match local_init get_required_sizes slabs_per_size (∅, cluster_init num_ms mem) with
  | Done _ (slabs, c) =>
      Some (ShermanIndex_init
        (mkWorld (mkNet (set_thread_stats_tracker (Some (tracker_init stats_init Read)) (manager_init 1000 (λ n, Z.of_nat n))) c 0 [])
           slabs (Z.of_nat, 0%nat) Null cache [] 12345) locks 777 5)
  | Fault _ _ => None
  end.
