(* ===== verification/ShermanRead.v ===== *)
(** * The Sherman tree in remote memory, and what read returns

    [sstored c l lo hi t] says that the memories of the cluster [c] hold the tree [t]
    of pages of height [l] for the keys from [lo] up to [hi]: every page is encoded
    at its address, unlocked and with equal versions, the level and the fences of its position,
    internal pages route to their children, and the records of a leaf point to its
    items.  [scontents t] is the finite map of the items.  The read handler of
    src/kv_index/sherman_index.cpp, run by a thread alone, is followed on such a
    tree, through the cache or from the root. *)

From S2P Require Import Prelude GlobalAddress RdmaSim ThreadStats Queue MemoryServer Slab RdmaManager LocalLock KVBlock FaunusNode FaunusIndex FaunusTree FaunusRead FaunusFrame FaunusInsert FaunusUpsert ShermanNode ShermanIndex.

Section tree.
Context {cfg : FaunusConfig} {scfg : ShermanConfig}.
Context {Q : Type → Type} `{!ConcurrentQueue Q}.

#[warnings="-register-all"]
Inductive stree :=
  | SLeaf (a : GlobalAddress) (p : LeafPage) (items : list KVItem)
  | SNode (a : GlobalAddress) (p : InternalPage) (ts : list stree).

Definition saddr (t : stree) : GlobalAddress := match t with SLeaf a _ _ | SNode a _ _ => a end.

Fixpoint sitems (t : stree) : list KVItem :=
  match t with
  | SLeaf _ _ items => items
  | SNode _ _ ts => concat (map sitems ts)
  end.
Definition scontents (t : stree) : gmap Z Z := list_to_map (pairs (sitems t)).

(** A record points to an item with its fingerprint. *)
Definition sitem_at (c : Cluster Q) (e : LeafEntry) (i : KVItem) : Prop :=
  holds c (kv_ptr e) (enc_KVItem i) ∧ item_ok i ∧ fingerprint e = Fingerprint (item_key i).

Definition sbounds (lo hi : Z) (p : InternalPage) : list Z := lo :: iseps p ++ [hi].

Inductive sstored (c : Cluster Q) : nat → Z → Z → stree → Prop :=
  | sstored_leaf a p items lo hi :
      holds c a (enc_LeafPage p) → lpage_typed p → lcheck_consistent p = true → lembedding_lock p = 0 →
      leftmost_ptr (lhdr p) = Null → slevel (lhdr p) = 0 → lowest (lhdr p) = lo → highest (lhdr p) = hi →
      Forall2 (sitem_at c) (occupied (lrecords p)) items →
      Forall (λ i, lo ≤ item_key i < hi) items → NoDup (map item_key items) →
      sstored c 0 lo hi (SLeaf a p items)
  | sstored_node a p ts l lo hi :
      holds c a (enc_InternalPage p) → ipage_typed p → ipage_ok p → icheck_consistent p = true → embedding_lock p = 0 →
      leftmost_ptr (ihdr p) ≠ Null → slevel (ihdr p) = Z.of_nat (S l) → lowest (ihdr p) = lo → highest (ihdr p) = hi →
      pairwise Z.le (sbounds lo hi p) → ikids p = map saddr ts →
      (∀ i t b b', ts !! i = Some t → sbounds lo hi p !! i = Some b → sbounds lo hi p !! S i = Some b' → sstored c l b b' t) →
      sstored c (S l) lo hi (SNode a p ts).

Lemma length_sbounds lo hi p : length (sbounds lo hi p) = S (S (length (iseps p))).
Proof. unfold sbounds. simpl. rewrite length_app. simpl. lia. Qed.

Lemma sstored_kids c l lo hi a p ts : sstored c (S l) lo hi (SNode a p ts) → length ts = S (length (iseps p)).
Proof.
  inversion 1 as [|? ? ? ? ? ? _ _ Hok _ _ _ _ _ _ _ Hk]; subst.
  by rewrite <-(length_map saddr), <-Hk, length_ikids, length_iseps by done.
Qed.

Lemma sstored_items c l lo hi t : sstored c l lo hi t → ∀ i, i ∈ sitems t → lo ≤ item_key i < hi.
Proof.
  intros Hst. induction Hst as [a p items lo hi _ _ _ _ _ _ _ _ _ Hr _
                              |a p ts l lo hi Hh Hty Hok Hc Hlk Hlm Hlv Hlo Hhi Hb Hk Hts IH]; intros i Hi.
  - rewrite list.Forall_forall in Hr. by apply Hr.
  - assert (length ts = S (length (iseps p))) as Hlen by (eapply sstored_kids; by eapply sstored_node).
    eapply (ranges_covered (sbounds lo hi p) (map sitems ts)); try done.
    + by rewrite length_sbounds, length_map, Hlen.
    + intros j l' b b' Hj Hb1 Hb2 i' Hi'. rewrite list_lookup_fmap in Hj. apply fmap_Some in Hj as (t & Ht & ->).
      by eapply IH.
    + rewrite length_map, Hlen. unfold sbounds. simpl. by rewrite lookup_app_r, Nat.sub_diag by lia.
Qed.

(** The child of a key contains what the node contains in its range, and its
    address is where the page routes to. *)
Lemma schild c l lo hi a p ts key :
  sstored c (S l) lo hi (SNode a p ts) → lo ≤ key < hi →
  ∃ t b b', next_level key p = Some (saddr t) ∧ sstored c l b b' t ∧ lo ≤ b ≤ key ∧ key < b' ≤ hi ∧
            ∀ k, b ≤ k < b' → scontents (SNode a p ts) !! k = scontents t !! k.
Proof.
  intros Hst Hkey. pose proof (sstored_kids _ _ _ _ _ _ _ Hst) as Hlen.
  inversion Hst as [|? ? ? ? ? ? Hh Hty Hok Hc Hlk Hlm Hlv Hlo Hhi Hb Hk Hts]; subst.
  destruct (rank_bounds _ _ (iseps p) key Hkey) as (b & b' & Hb1 & Hb2 & Hbk).
  pose proof (rank_le (iseps p) key) as Hr. destruct (lookup_lt_is_Some_2 ts (rank (iseps p) key)) as [t Ht]; [lia|].
  pose proof (pairwise_le_lookup _ 0 _ _ b Hb ltac:(lia) eq_refl Hb1) as Hlob.
  assert (b' ≤ highest (ihdr p)) as Hhib.
  { eapply (pairwise_le_lookup _ (S (rank (iseps p) key)) (S (length (iseps p))) _ _ Hb); [lia|done|].
    unfold sbounds. simpl. by rewrite lookup_app_r, Nat.sub_diag by lia. }
  exists t, b, b'. split; [|split; [by eapply Hts|split; [lia|split; [lia|]]]].
  - rewrite next_level_route by done. unfold route. by rewrite Hk, list_lookup_fmap, Ht.
  - intros k Hkk. unfold scontents. cbn [sitems].
    eapply (ranges_lookup (sbounds _ _ p) (map sitems ts)); [done| | |by rewrite list_lookup_fmap, Ht|done|done|done].
    + by rewrite length_sbounds, length_map, Hlen.
    + intros j l' d d' Hj Hd1 Hd2 i' Hi'. rewrite list_lookup_fmap in Hj. apply fmap_Some in Hj as (t' & Ht' & ->).
      eapply sstored_items; [by eapply Hts|done].
Qed.

(** The bytes of an internal page, looked at as a leaf page. *)
Lemma internal_as_leaf p : sizes_ok → kInternalPageSize = kLeafPageSize → ipage_typed p →
  let q := dec_LeafPage (enc_InternalPage p) in
  lhdr q = ihdr p ∧ lfront_version q = front_version p ∧ lrear_version q = rear_version p.
Proof.
  intros Hsz Heq (Hl & Hf & Hr & Hh & Hn & Hrec & Hpad). unfold enc_InternalPage, dec_LeafPage. cbn.
  edestruct (page_fields enc_SEntry dec_SEntry sizeof_SEntry kInternalCardinality kInternalPageSize (embedding_lock p)
    (front_version p) (ihdr p) (irecords p) (ipadding p) (rear_version p)) as (H0 & H1 & H2 & H3 & H4 & H5 & H6); [|done..| |].
  - intros x Hx. split; [apply length_enc_SEntry|]. apply dec_enc_SEntry. rewrite list.Forall_forall in Hrec. by apply Hrec.
  - rewrite Hpad. by apply internal_page_size.
  - rewrite Heq in H6. done.
Qed.
End tree.

(** ** Sequential runs *)

Section runs.
Context {cfg : FaunusConfig} {scfg : ShermanConfig}.
Context {Q : Type → Type} `{!ConcurrentQueue Q}.
Context {C Ent : Type} `{!NodeCache C Ent (GlobalAddress * InternalPage)} `{!RangedCache C Ent (GlobalAddress * InternalPage)}.
Abbreviation SW := (SWorld (Q := Q) (C := C)).
Implicit Types w : SW.

Definition scl (w : SW) : Cluster Q := cl (kv w).
Definition alone (w : SW) : Prop := others (w_net (kv w)) = [].

(** [w'] is [w] after operations that change only bookkeeping, the path and the
    cache. *)
Record squiet (w w' : SW) : Prop := mkSquiet {
  sq_kv : quiet (set_cache (faunus_cache_ (kv w')) (kv w)) (kv w');
  sq_locks : local_lock_mgr_ w' = local_lock_mgr_ w;
  sq_others : local_others w' = local_others w;
  sq_tag : sherman_tag_ w' = sherman_tag_ w
}.

#[global] Instance squiet_preorder : PreOrder squiet.
Proof.
  split.
  - intros w. by split.
  - intros w1 w2 w3 [Ha H1 H2 H3] [Hb H4 H5 H6]. split; try congruence.
    destruct Ha, Hb. cbn in *. split; cbn; congruence.
Qed.

Lemma squiet_cl w w' : squiet w w' → scl w' = scl w.
Proof. intros [[H _ _ _ _ _ _ _ _ _] _ _ _]. exact H. Qed.
Lemma squiet_alone w w' : squiet w w' → alone w → alone w'.
Proof. unfold alone. intros [[_ _ H _ _ _ _ _ _ _] _ _ _] Ha. rewrite H. exact Ha. Qed.
Lemma squiet_root w w' : squiet w w' → root_offset_pointer_ (kv w') = root_offset_pointer_ (kv w).
Proof. intros [[_ _ _ _ _ _ H _ _ _] _ _ _]. exact H. Qed.

(** An operation of the base class that changes only bookkeeping. *)
Lemma on_kv_quiet {A} (m : M (World Q C) A) w a k :
  m (kv w) = Done a k → quiet (kv w) k → ∃ w', on_kv m w = Done a w' ∧ squiet w w' ∧ faunus_cache_ (kv w') = faunus_cache_ (kv w).
Proof.
  intros Hm Hq. unfold on_kv, zoom. rewrite Hm. eexists. split; [reflexivity|]. split; [|exact (q_cache _ _ Hq)].
  split; try done. cbn. rewrite (q_cache _ _ Hq), set_cache_same. exact Hq.
Qed.

Lemma sread_holds w a l n :
  alone w → holds (scl w) a l → length l = n →
  ∃ w', sread a n w = Done (true, l) w' ∧ squiet w w' ∧ faunus_cache_ (kv w') = faunus_cache_ (kv w).
Proof.
  intros Ho Hh Hn. destruct (read_object_holds (kv w) a l n Ho Hh Hn) as (k & Hk & Hq). by eapply on_kv_quiet.
Qed.

(** The records of a leaf against its items. *)
Lemma leaf_scan_run key recs : ∀ items w,
  alone w → Forall2 (sitem_at (scl w)) (occupied recs) items →
  ∃ w', leaf_scan key (Fingerprint key) recs w = Done ((list_to_map (pairs items) : gmap Z Z) !! key) w' ∧
        squiet w w' ∧ faunus_cache_ (kv w') = faunus_cache_ (kv w).
Proof.
  induction recs as [|r recs IH]; intros items w Ho Hit.
  { apply Forall2_nil_inv_l in Hit. subst. by exists w. }
  cbn [leaf_scan]. unfold occupied in Hit. destruct (is_empty r) eqn:He.
  { rewrite filter_cons_False in Hit by (by rewrite He). by apply IH. }
  rewrite filter_cons_True in Hit by done. apply Forall2_cons_inv_l in Hit as ([k v] & its & (Hh & Hok & Hfp) & Hit & ->).
  change (list_to_map (pairs (mkItem k v :: its))) with (<[k := v]> (list_to_map (pairs its) : gmap Z Z)). cbn [item_key] in Hfp.
  assert (∀ w1, squiet w w1 → faunus_cache_ (kv w1) = faunus_cache_ (kv w) → k ≠ key →
    ∃ w', leaf_scan key (Fingerprint key) recs w1 = Done ((<[k:=v]> (list_to_map (pairs its) : gmap Z Z)) !! key) w' ∧
          squiet w w' ∧ faunus_cache_ (kv w') = faunus_cache_ (kv w)) as Hrest.
  { intros w1 Hq Hc Hne. destruct (IH its w1) as (w' & H1 & H2 & H3).
    - by eapply squiet_alone.
    - by rewrite (squiet_cl _ _ Hq).
    - exists w'. rewrite lookup_insert_ne by done. split; [done|]. split; [by etrans|congruence]. }
  destruct (Z.eqb_spec (fingerprint r) (Fingerprint key)) as [Hf|Hf].
  2:{ apply Hrest; [done|done|]. intros ->. by rewrite Hfp in Hf. }
  destruct (sread_holds w (kv_ptr r) _ sizeof_KVItem Ho Hh) as (w1 & Hr & Hq & Hc).
  { unfold enc_KVItem, sizeof_KVItem. by rewrite length_app, !length_be_bytes. }
  rewrite (bind_done _ _ _ _ _ Hr). cbn [fst snd negb]. rewrite dec_enc_KVItem by done. cbn [item_key item_value].
  destruct (Z.eqb_spec k key) as [->|Hne].
  - exists w1. by rewrite lookup_insert_eq.
  - by apply Hrest.
Qed.

(** ** The cache and the index *)

(** The cached pages are pages of level one of a tree with the contents [m]. *)
Definition cached_pages_ok (c : Cluster Q) (m : gmap Z Z) (cache : option C) : Prop :=
  ∀ cc, cache = Some cc → ∀ s e a p, cached cc (s, e, (a, p)) →
    ∃ ts, sstored c 1 s e (SNode a p ts) ∧ ∀ k, s ≤ k < e → scontents (SNode a p ts) !! k = m !! k.

(** The index of [w] is the tree [t] of height [l]; a thread works on it alone. *)
Record sindex_ok (w : SW) (l : nat) (t : stree) : Prop := mkSindexOk {
  six_sizes : sizes_ok ∧ kInternalPageSize = kLeafPageSize;
  six_alone : alone w;
  six_root : holds (scl w) (root_offset_pointer_ (kv w)) (le_bytes 8 (saddr t));
  six_root_ok : ga_ok (saddr t);
  six_tree : sstored (scl w) l key_min key_max t;
  six_level : (l < kMaxLevelOfTree)%nat;
  six_cache : cached_pages_ok (scl w) (scontents t) (faunus_cache_ (kv w))
}.

Lemma push_path_run l a w : (l < kMaxLevelOfTree)%nat →
  ∃ w', push_path (Z.of_nat l) a w = Done tt w' ∧ squiet w w' ∧ faunus_cache_ (kv w') = faunus_cache_ (kv w) ∧
        path_stack w' = <[l := a]> (path_stack w).
Proof.
  intros Hl. unfold push_path. rewrite Nat2Z.id, (proj2 (Nat.ltb_lt _ _) Hl). eexists. split; [reflexivity|].
  split; [by split|done].
Qed.

(** The base class does not see the path. *)
Lemma on_kv_path {A} (m : M (World Q C) A) w a w' : on_kv m w = Done a w' → path_stack w' = path_stack w.
Proof. unfold on_kv, zoom. destruct (m (kv w)); [|done]. by intros [= <- <-]. Qed.

(** A consistent page is read once. *)
Lemma search_node_done fuel a key res fc w x w' :
  search_node_step a key res fc tt w = Done (inr x) w' → search_node fuel a key res fc w = Done x w'.
Proof. intros H. unfold search_node. by erewrite bind_done by (by apply loop_done). Qed.

(** [search_node] at an internal page. *)
Lemma search_internal_run fuel w m a p ts l lo hi key res x :
  sizes_ok → kInternalPageSize = kLeafPageSize → alone w → sstored (scl w) (S l) lo hi (SNode a p ts) → lo ≤ key < hi →
  (S l < kMaxLevelOfTree)%nat → cached_pages_ok (scl w) m (faunus_cache_ (kv w)) →
  (∀ k, lo ≤ k < hi → scontents (SNode a p ts) !! k = m !! k) → next_level key p = Some x →
  ∃ w', search_node fuel a key res false w = Done (true, mkSR false (Z.of_nat (S l)) (slibing res) x (sr_val res)) w' ∧
        squiet w w' ∧ cached_pages_ok (scl w') m (faunus_cache_ (kv w')) ∧
        (faunus_cache_ (kv w) = None → faunus_cache_ (kv w') = None) ∧ path_stack w' = <[S l := a]> (path_stack w).
Proof.
  intros Hsz Heq Ho Hst Hkey Hl Hcache Hm Hx.
  inversion Hst as [|? ? ? ? ? ? Hh Hty Hok Hc Hlk Hlm Hlv Hlo Hhi Hb Hk Hts]; subst.
  destruct (dec_enc_InternalPage p Hsz Hty) as [Hdec Hlen].
  destruct (internal_as_leaf p Hsz Heq Hty) as (Hhd & Hfv & Hrv).
  destruct (sread_holds w a _ kLeafPageSize Ho Hh) as (w1 & Hr & Hq1 & Hc1); [congruence|].
  destruct (push_path_run (S l) a w1 Hl) as (w2 & Hp & Hq2 & Hc2 & Hpath). rewrite (on_kv_path _ _ _ _ Hr) in Hpath.
  assert (∃ w3, (if slevel (ihdr p) =? 1 then scache_add (lowest (ihdr p)) (highest (ihdr p)) (a, p) else mret tt) w2 = Done tt w3 ∧
    squiet w2 w3 ∧ cached_pages_ok (scl w3) m (faunus_cache_ (kv w3)) ∧ (faunus_cache_ (kv w2) = None → faunus_cache_ (kv w3) = None) ∧
    path_stack w3 = path_stack w2) as (w3 & H3 & Hq3 & Hc3 & Hn3 & Hpath3).
  { assert (cached_pages_ok (scl w2) m (faunus_cache_ (kv w2))) as Hcache2.
    { by rewrite (squiet_cl _ _ Hq2), (squiet_cl _ _ Hq1), Hc2, Hc1. }
    destruct (Z.eqb_spec (slevel (ihdr p)) 1) as [H1|H1]; [|by exists w2].
    eexists. split; [reflexivity|]. split; [by split|]. split.
    2:{ split; [|done]. cbn. by intros ->. }
    intros cc Hcc s e a' p' Hca. change (scl _) with (scl w2). cbn in Hcc.
    destruct (faunus_cache_ (kv w2)) as [c0|] eqn:E0; [|done]. cbn in Hcc. simplify_eq.
    apply cache_add_cached in Hca as [Hca|Hca]; [by eapply Hcache2|]. simplify_eq.
    assert (l = 0%nat) as -> by lia. exists ts. split; [|done]. by rewrite (squiet_cl _ _ Hq2), (squiet_cl _ _ Hq1). }
  exists w3. split; [|split; [etrans; [exact Hq1|by etrans]|split; [done|split; [intros; apply Hn3; congruence|congruence]]]].
  apply search_node_done. unfold search_node_step.
  rewrite (bind_done _ _ _ _ _ Hr). cbn [fst snd assert_]. erewrite bind_done by reflexivity.
  unfold lcheck_consistent. rewrite Hfv, Hrv. fold (icheck_consistent p). rewrite Hc, Hhd. cbn [negb].
  rewrite (proj2 (Z.eqb_neq _ _) Hlm), Hlv. rewrite (bind_done _ _ _ _ _ Hp).
  rewrite (proj2 (Z.leb_gt _ _)) by lia. rewrite (proj2 (Z.leb_le _ _)) by lia. erewrite bind_done by reflexivity.
  rewrite (proj2 (Z.eqb_neq (Z.of_nat (S l)) 0)) by lia. cbn [negb andb assert_]. erewrite bind_done by reflexivity.
  erewrite bind_done by reflexivity. rewrite Hdec, Hc. cbn [negb]. rewrite Hlv in H3. rewrite (bind_done _ _ _ _ _ H3), Hx. reflexivity.
Qed.

(** [search_node] at the leaf of the key. *)
Lemma search_leaf_run fuel w a p items lo hi key res :
  sizes_ok → alone w → sstored (scl w) 0 lo hi (SLeaf a p items) → lo ≤ key < hi →
  ∃ w', search_node fuel a key res false w =
          Done (true, mkSR true 0 (slibing res) (sr_next_level res) (default (sr_val res) (scontents (SLeaf a p items) !! key))) w' ∧
        squiet w w' ∧ faunus_cache_ (kv w') = faunus_cache_ (kv w).
Proof.
  intros Hsz Ho Hst Hkey. inversion Hst as [? ? ? ? ? Hh Hty Hc Hlk Hlm Hlv Hlo Hhi Hit Hr Hnd|]; subst.
  destruct (dec_enc_LeafPage p Hsz Hty) as [Hdec Hlen].
  destruct (sread_holds w a _ kLeafPageSize Ho Hh Hlen) as (w1 & Hrd & Hq1 & Hc1).
  destruct (push_path_run 0 a w1) as (w2 & Hp & Hq2 & Hc2 & _); [unfold kMaxLevelOfTree; lia|].
  assert (squiet w w2) as Hq by (by etrans).
  destruct (leaf_scan_run key (lrecords p) items w2) as (w3 & Hs & Hq3 & Hc3).
  { by eapply squiet_alone. }
  { by rewrite (squiet_cl _ _ Hq). }
  exists w3. split; [|split; [by etrans|congruence]].
  apply search_node_done. unfold search_node_step.
  rewrite (bind_done _ _ _ _ _ Hrd). cbn [fst snd assert_]. erewrite bind_done by reflexivity. rewrite Hdec, Hc. cbn [negb].
  rewrite Hlm, Hlv. change (Null =? Null) with true. rewrite (bind_done _ _ _ _ _ Hp).
  rewrite (proj2 (Z.leb_gt _ _)) by lia. rewrite (proj2 (Z.leb_le _ _)) by lia. erewrite bind_done by reflexivity.
  cbn [andb Z.eqb assert_]. erewrite bind_done by reflexivity. rewrite (bind_done _ _ _ _ _ Hs).
  unfold scontents. cbn [sitems]. by destruct (list_to_map (pairs items) !! key).
Qed.

(** ** read *)

(** [read] reports a value equal to [Value::min()] as absent. *)
Definition visible (v : option Z) : option Z :=
  match v with Some v => if v =? value_min then None else Some v | None => None end.

Lemma count_run f w :
  ∃ w', on_kv (stats_if f) w = Done tt w' ∧ squiet w w' ∧ faunus_cache_ (kv w') = faunus_cache_ (kv w).
Proof. destruct (stats_if_run f (kv w)) as (k & Hk & Hq). by eapply on_kv_quiet. Qed.

Lemma sget_root_run w v :
  alone w → holds (scl w) (root_offset_pointer_ (kv w)) (le_bytes 8 v) → ga_ok v →
  ∃ w', get_root_offset w = Done v w' ∧ squiet w w' ∧ faunus_cache_ (kv w') = faunus_cache_ (kv w).
Proof.
  intros Ho Hh Hv. destruct (sread_holds w _ _ 8 Ho Hh (length_le_bytes _ _)) as (w' & Hr & Hq & Hc).
  exists w'. split; [|done]. unfold get_root_offset. erewrite bind_done by reflexivity.
  rewrite (bind_done _ _ _ _ _ Hr). cbn [fst snd assert_]. erewrite bind_done by reflexivity. by rewrite ga_roundtrip64.
Qed.

(** What [read_step] does after a search that did not meet a sibling. *)
Lemma read_step_after fuel key root a fc ce res r w w' :
  search_node fuel a key res false w = Done (true, r) w' → slibing r = Null →
  ∃ w'', read_step fuel key root (a, fc, ce, res) w =
           Done (if sr_is_leaf r then inr (visible (Some (sr_val r))) else inl (sr_next_level r, fc, None, r)) w'' ∧
         squiet w' w'' ∧ faunus_cache_ (kv w'') = faunus_cache_ (kv w').
Proof.
  intros Hs Hn.
  assert (∃ w'', (match ce with None => mret tt | Some _ => on_kv (stats_if record_cache_hit) end) w' = Done tt w'' ∧
    squiet w' w'' ∧ faunus_cache_ (kv w'') = faunus_cache_ (kv w')) as (w'' & H1 & H2 & H3).
  { destruct ce; [apply count_run|]. by exists w'. }
  exists w''. split; [|done]. unfold read_step. rewrite (bind_done _ _ _ _ _ Hs). cbn [fst snd negb].
  rewrite (bind_done _ _ _ _ _ H1), Hn. change (Null =? Null) with true. unfold visible.
  destruct (sr_is_leaf r); [|done]. by destruct (sr_val r =? value_min).
Qed.

Lemma read_loop_run fuel key root m : ∀ l t lo hi w fc ce r p,
  sizes_ok → kInternalPageSize = kLeafPageSize → alone w → sstored (scl w) l lo hi t → lo ≤ key < hi →
  (l < kMaxLevelOfTree)%nat → cached_pages_ok (scl w) m (faunus_cache_ (kv w)) →
  (∀ k, lo ≤ k < hi → scontents t !! k = m !! k) → slibing r = Null → sr_val r = value_min → (l < Pos.to_nat p)%nat →
  ∃ w', loop p (read_step fuel key root) (saddr t, fc, ce, r) w = Done (inr (visible (m !! key))) w' ∧
        squiet w w' ∧ cached_pages_ok (scl w') m (faunus_cache_ (kv w')) ∧
        (faunus_cache_ (kv w) = None → faunus_cache_ (kv w') = None).
Proof.
  induction l as [|l IH]; intros t lo hi w fc ce r p Hsz Heq Ho Hst Hkey Hl Hcache Hm Hsl Hv Hp.
  - destruct t as [a pg items|]; [|inversion Hst]. cbn [saddr].
    destruct (search_leaf_run fuel w a pg items lo hi key r Hsz Ho Hst Hkey) as (w1 & H1 & Hq1 & Hc1).
    destruct (read_step_after fuel key root a fc ce r _ w w1 H1 Hsl) as (w2 & H2 & Hq2 & Hc2). cbn [sr_is_leaf sr_val] in H2.
    exists w2. rewrite (loop_done _ _ _ _ _ _ H2). split; [|split; [by etrans|split; [|congruence]]].
    + rewrite (Hm key Hkey), Hv. by destruct (m !! key).
    + by rewrite (squiet_cl _ _ Hq2), (squiet_cl _ _ Hq1), Hc2, Hc1.
  - destruct t as [|a pg ts]; [inversion Hst|]. cbn [saddr].
    destruct (schild _ _ _ _ _ _ _ key Hst Hkey) as (t' & b & b' & Hn & Hst' & Hb & Hb' & Hct).
    destruct (search_internal_run fuel w m a pg ts l lo hi key r _ Hsz Heq Ho Hst Hkey Hl Hcache Hm Hn) as (w1 & H1 & Hq1 & Hc1 & Hn1 & _).
    destruct (read_step_after fuel key root a fc ce r _ w w1 H1 Hsl) as (w2 & H2 & Hq2 & Hc2). cbn [sr_is_leaf sr_next_level] in H2.
    assert (squiet w w2) as Hq by (by etrans).
    destruct (IH t' b b' w2 fc None (mkSR false (Z.of_nat (S l)) (slibing r) (saddr t') (sr_val r)) (Pos.pred p)) as (w3 & H3 & Hq3 & Hc3 & Hn3);
      [done|done|by eapply squiet_alone| |lia|lia| | |exact Hsl|exact Hv|lia|].
    + by rewrite (squiet_cl _ _ Hq).
    + by rewrite (squiet_cl _ _ Hq2), Hc2.
    + intros k Hk. rewrite <-Hct by done. apply Hm. lia.
    + exists w3. split; [|split; [by etrans|split; [done|intros Hn0; apply Hn3; rewrite Hc2; by apply Hn1]]].
      rewrite loop_unroll, H2, decide_False by (intros ->; simpl in Hp; lia). exact H3.
Qed.

(** The start of the traversal is a page of the tree on the path of the key. *)
Lemma read_start_run w l t key :
  sindex_ok w l t → key_min ≤ key < key_max →
  ∃ t' fc ce w' l' lo hi, read_start key (saddr t) w = Done (saddr t', fc, ce) w' ∧ squiet w w' ∧
    (l' ≤ l)%nat ∧ sstored (scl w') l' lo hi t' ∧ lo ≤ key < hi ∧
    (∀ k, lo ≤ k < hi → scontents t' !! k = scontents t !! k) ∧ cached_pages_ok (scl w') (scontents t) (faunus_cache_ (kv w')) ∧
    (faunus_cache_ (kv w) = None → w' = w).
Proof.
  intros [[Hsz Heq] Ho Hr Hg Hst Hl Hcache] Hkey. unfold read_start. erewrite bind_done by reflexivity.
  destruct (faunus_cache_ (kv w)) as [c|] eqn:E; cbn [negb].
  2:{ exists t, false, None, w, l, key_min, key_max. by rewrite E. }
  destruct (cache_search key c) as [hit c'] eqn:Es.
  set (w1 := mkSWorld (set_cache (Some c') (kv w)) (local_lock_mgr_ w) (local_others w) (path_stack w) (sherman_tag_ w)).
  assert (squiet w w1) as Hq1 by (by split).
  assert (cached_pages_ok (scl w1) (scontents t) (faunus_cache_ (kv w1))) as Hcache1.
  { intros cc Hcc s e a p Hca. cbn in Hcc. simplify_eq. eapply Hcache; [done|]. by eapply cache_search_cached. }
  erewrite bind_done by (unfold scache_search; rewrite E, Es; reflexivity). cbn [fst snd]. fold w1.
  destruct hit as [[e [a pg]]|].
  - destruct (cache_range_search _ _ _ _ _ Es) as [Hca Hrg]. destruct (cache_range e c') as [s f]. cbn [fst snd] in *.
    destruct (Hcache c eq_refl _ _ _ _ Hca) as (ts & Hst1 & Hct).
    destruct (schild _ _ _ _ _ _ _ key Hst1 Hrg) as (t' & b & b' & Hn & Hst' & Hb & Hb' & Hct').
    exists t', true, (Some e), w1, 0%nat, b, b'. unfold get_leaf_from_cache_entry.
    rewrite (proj2 (Z.ltb_ge _ _)), (proj2 (Z.leb_gt _ _)) by lia. cbn [orb]. rewrite Hn.
    split_and!; try done; try lia. intros k Hk. rewrite <-Hct', Hct by lia. done.
  - destruct (count_run record_cache_miss w1) as (w2 & H2 & Hq2 & Hc2). rewrite (bind_done _ _ _ _ _ H2).
    exists t, false, None, w2, l, key_min, key_max. rewrite (squiet_cl _ _ Hq2), Hc2. split_and!; try done; try lia. by etrans.
Qed.

Lemma sread_tree_run fuel w l t key :
  sindex_ok w l t → key_min ≤ key < key_max → (l < Pos.to_nat fuel)%nat →
  ∃ w', read (Ent := Ent) fuel key w = Done (visible (scontents t !! key)) w' ∧ squiet w w' ∧ sindex_ok w' l t ∧
        (faunus_cache_ (kv w) = None → faunus_cache_ (kv w') = None).
Proof.
  intros Hix Hkey Hf. pose proof Hix as [[Hsz Heq] Ho Hr Hg Hst Hl Hcache]. unfold read.
  destruct (sget_root_run w (saddr t) Ho Hr Hg) as (w1 & H1 & Hq1 & Hc1). rewrite (bind_done _ _ _ _ _ H1).
  assert (sindex_ok w1 l t) as Hix1.
  { split; rewrite ?(squiet_cl _ _ Hq1), ?(squiet_root _ _ Hq1), ?Hc1; try done. by eapply squiet_alone. }
  destruct (read_start_run w1 l t key Hix1 Hkey) as (t' & fc & ce & w2 & l' & lo & hi & H2 & Hq2 & Hl' & Hst' & Hlo & Hct & Hcache2 & Hn2).
  rewrite (bind_done _ _ _ _ _ H2).
  destruct (read_loop_run fuel key (saddr t) (scontents t) l' t' lo hi w2 fc ce (mkSR false 0 Null Null value_min) fuel)
    as (w3 & H3 & Hq3 & Hc3 & Hn3); try done; try lia.
  { eapply squiet_alone; [exact Hq2|]. by eapply squiet_alone. }
  rewrite (bind_done _ _ _ _ _ H3). assert (squiet w w3) as Hq by (etrans; [exact Hq1|by etrans]).
  exists w3. split; [done|]. split; [done|]. split.
  2:{ intros Hn. apply Hn3. rewrite (Hn2 ltac:(congruence)). congruence. }
  split; rewrite ?(squiet_cl _ _ Hq), ?(squiet_root _ _ Hq); try done; [by eapply squiet_alone|]. by rewrite <-(squiet_cl _ _ Hq).
Qed.

(** C6: reading a Sherman tree refines the lookup of the finite map of its items:
    [read key] returns the stored value, through the cache (whose pages are pages
    of the tree) or from the root, and reports a key as absent exactly when the map
    has no value for it other than [Value::min()].  The memories, the allocator and
    the locks are unchanged and the cache stays valid. *)
Theorem sherman_read_returns_contents fuel w l t key :
  sindex_ok w l t → key_min ≤ key < key_max → (l < Pos.to_nat fuel)%nat →
  ∃ w', read (Ent := Ent) fuel key w = Done (visible (scontents t !! key)) w' ∧ squiet w w' ∧ sindex_ok w' l t.
Proof.
  intros Hix Hkey Hf. destruct (sread_tree_run fuel w l t key Hix Hkey Hf) as (w' & H1 & H2 & H3 & _). by exists w'.
Qed.
End runs.

(** ** Deciding the predicates on a concrete memory *)

Section check.
Context {cfg : FaunusConfig} {scfg : ShermanConfig}.
Context {Q : Type → Type} `{!ConcurrentQueue Q}.

#[export] Instance sheader_ok_dec h : Decision (sheader_ok h).
Proof. unfold sheader_ok, key_ok, ga_ok. apply _. Defined.
#[export] Instance sentry_ok_dec e : Decision (sentry_ok e).
Proof. unfold sentry_ok, key_ok, ga_ok. apply _. Defined.
#[export] Instance lentry_ok_dec e : Decision (lentry_ok e).
Proof. unfold lentry_ok, ga_ok. apply _. Defined.
#[export] Instance ipage_typed_dec p : Decision (ipage_typed p).
Proof. unfold ipage_typed. apply _. Defined.
#[export] Instance lpage_typed_dec p : Decision (lpage_typed p).
Proof. unfold lpage_typed. apply _. Defined.

Definition ipage_ok_check (p : InternalPage) : bool :=
  bool_decide (length (irecords p) = kInternalCardinality ∧ (1 ≤ cnt_of (ihdr p) ∧ cnt_of (ihdr p) ≤ Z.of_nat kInternalCardinality) ∧
               Z.of_nat kInternalCardinality < 2 ^ 15 ∧ pairwise Z.lt (iseps p)).
Lemma ipage_ok_check_sound p : ipage_ok_check p = true → ipage_ok p.
Proof. intros (H1 & H2 & H3 & H4)%bool_decide_eq_true. by split. Qed.

Definition sitem_check (c : Cluster Q) (e : LeafEntry) (i : KVItem) : bool :=
  holds_check c (kv_ptr e) (length (enc_KVItem i)) (enc_KVItem i) && bool_decide (item_ok i) && (fingerprint e =? Fingerprint (item_key i)).
Fixpoint sitems_check (c : Cluster Q) (es : list LeafEntry) (items : list KVItem) : bool :=
  match es, items with
  | [], [] => true
  | e :: es', i :: items' => sitem_check c e i && sitems_check c es' items'
  | _, _ => false
  end.
Lemma sitems_check_sound c es items : sitems_check c es items = true → Forall2 (sitem_at c) es items.
Proof.
  revert items. induction es as [|e es IH]; intros [|i items]; simpl; try done.
  unfold sitem_check. rewrite !andb_true_iff. intros (((Hh & Hok) & Hfp) & Hrest). constructor; [|by apply IH].
  split; [by apply holds_check_holds|]. split; [by eapply bool_decide_eq_true_1|by apply Z.eqb_eq].
Qed.

Fixpoint sstored_check (c : Cluster Q) (l : nat) (lo hi : Z) (t : stree) : bool :=
  match l, t with
  | O, SLeaf a p items =>
      holds_check c a (length (enc_LeafPage p)) (enc_LeafPage p) && bool_decide (lpage_typed p) && lcheck_consistent p &&
      bool_decide (lembedding_lock p = 0 ∧ leftmost_ptr (lhdr p) = Null ∧ slevel (lhdr p) = 0 ∧ lowest (lhdr p) = lo ∧ highest (lhdr p) = hi) &&
      sitems_check c (occupied (lrecords p)) items && bool_decide (Forall (λ i, lo ≤ item_key i ∧ item_key i < hi) items) &&
      bool_decide (NoDup (map item_key items))
  | S l', SNode a p ts =>
      holds_check c a (length (enc_InternalPage p)) (enc_InternalPage p) && bool_decide (ipage_typed p) && ipage_ok_check p &&
      icheck_consistent p &&
      bool_decide (embedding_lock p = 0 ∧ leftmost_ptr (ihdr p) ≠ Null ∧ slevel (ihdr p) = Z.of_nat (S l') ∧ lowest (ihdr p) = lo ∧ highest (ihdr p) = hi) &&
      bool_decide (pairwise Z.le (sbounds lo hi p)) && bool_decide (ikids p = map saddr ts) &&
      forallb (λ x, sstored_check c l' x.1.1 x.1.2 x.2) (zip (zip (sbounds lo hi p) (tail (sbounds lo hi p))) ts)
  | _, _ => false
  end.

Lemma sstored_check_sound c : ∀ l lo hi t, sstored_check c l lo hi t = true → sstored c l lo hi t.
Proof.
  induction l as [|l IH]; intros lo hi [a p items|a p ts]; cbn [sstored_check]; try done.
  - rewrite !andb_true_iff, !bool_decide_eq_true. intros ((((((Hh & Hty) & Hc) & Hf) & Hit) & Hr) & Hnd).
    destruct Hf as (H0 & H1 & H2 & H3 & H4). eapply sstored_leaf; eauto using holds_check_holds, sitems_check_sound.
  - rewrite !andb_true_iff, !bool_decide_eq_true, forallb_forall.
    intros (((((((Hh & Hty) & Hok) & Hc) & Hf) & Hb) & Hk) & Hts). destruct Hf as (H0 & H1 & H2 & H3 & H4).
    apply sstored_node; auto using holds_check_holds, ipage_ok_check_sound.
    intros i t b b' Hi Hb1 Hb2. apply IH. apply (Hts (b, b', t)), list_elem_of_In, list_elem_of_lookup.
    exists i. rewrite !lookup_zip_with, lookup_tail, Hb1, Hb2, Hi. done.
Qed.

(** The tree of an index, read out of the memories. *)
Fixpoint sload_tree (fuel : nat) (c : Cluster Q) (a : GlobalAddress) : option stree :=
  match fuel with
  | O => None
  | S fuel' =>
      let bytes := slice (Z.to_nat (offset a)) kLeafPageSize (region_of c a) in
      let p := dec_LeafPage bytes in
      if leftmost_ptr (lhdr p) =? Null
      then Some (SLeaf a p (map (λ e, dec_KVItem (slice (Z.to_nat (offset (kv_ptr e))) sizeof_KVItem (region_of c (kv_ptr e))))
                              (occupied (lrecords p))))
      else
        let p := dec_InternalPage bytes in
        ts ← mapM (sload_tree fuel' c) (ikids p); Some (SNode a p ts)
  end.
End check.

(** ** A concrete index: small pages, a page cache, built by the code itself *)

(** Three separators in an internal page, four records in a leaf. *)
Definition small_cfg : ShermanConfig := {| kInternalPageSize := 96; kLeafPageSize := 96 |}.

Section demo.
#[local] Existing Instances demo_cfg small_cfg.
Abbreviation SW := (SWorld (Q := fifo) (C := page_cache)).

Definition sinsert (x : Z * Z) : M SW unit := _ ← insert 20 3 10 x.1 x.2; mret tt.

(** A new index with a cache and some inserts. *)
Definition sdemo (m : M SW unit) : option SW :=
  match sworld_init 2 4096 4 (Some []) (Some (manager_new 2 991)) with
  | None => None
  | Some w => match (_ ← initialize; m) w with Done _ w' => Some w' | Fault _ _ => None end
  end.

(** The inserts split the root; a read puts the new root into the cache. *)
Definition sdemo_world : option SW :=
  sdemo (_ ← for_each [(5, 50); (7, 70); (3, 30); (11, 110); (9, 0)] sinsert; _ ← read 20 11; mret tt).

Definition sroot (w : SW) : GlobalAddress :=
  le_val (slice (Z.to_nat (offset (root_offset_pointer_ (kv w)))) 8 (region_of (scl w) (root_offset_pointer_ (kv w)))).

#[export] Instance SHeader_eq_dec : EqDecision SHeader.
Proof. solve_decision. Defined.
#[export] Instance SEntry_eq_dec : EqDecision SEntry.
Proof. solve_decision. Defined.
#[export] Instance InternalPage_eq_dec : EqDecision InternalPage.
Proof. solve_decision. Defined.

(** The index is [t], of height one; only its root page is cached. *)
Definition sindex_check (w : SW) (t : stree) : bool :=
  match others (w_net (kv w)) with [] => true | _ => false end &&
  holds_check (scl w) (root_offset_pointer_ (kv w)) 8 (le_bytes 8 (saddr t)) && bool_decide (in_width 50 (saddr t)) &&
  sstored_check (scl w) 1 key_min key_max t &&
  match t, faunus_cache_ (kv w) with
  | SNode a p _, Some cc => bool_decide (Forall (λ x, x.2 = (key_min, key_max, (a, p))) cc)
  | _, _ => false
  end.

Lemma small_sizes : sizes_ok ∧ kInternalPageSize = kLeafPageSize.
Proof. split; [|done]. apply (bool_decide_unpack (_ ∧ _)). vm_compute. exact I. Qed.

Lemma sindex_check_sound w t : sindex_check w t = true → sindex_ok w 1 t.
Proof.
  unfold sindex_check. rewrite !andb_true_iff, bool_decide_eq_true. intros ((((Ho & Hr) & Hg) & Ht) & Hc).
  split; [apply small_sizes|unfold alone; by destruct (others _)|by apply holds_check_holds|done|by apply sstored_check_sound| |].
  - unfold kMaxLevelOfTree. lia.
  - intros cc Hcc s e a p [n Hn]. rewrite Hcc in Hc. destruct t as [|a0 p0 ts]; [done|].
    apply bool_decide_eq_true in Hc. rewrite list.Forall_forall in Hc. specialize (Hc _ Hn). cbn in Hc. simplify_eq.
    exists ts. split; [by apply sstored_check_sound|done].
Qed.

Lemma sdemo_index :
  ∃ w t, sdemo_world = Some w ∧ sindex_ok w 1 t ∧ scontents t !! 11 = Some 110 ∧ scontents t !! 9 = Some 0 ∧ scontents t !! 8 = None ∧
         length <$> faunus_cache_ (kv w) = Some 1%nat.
Proof.
  assert (match sdemo_world with
          | Some w =>
              match sload_tree 3 (scl w) (sroot w) with
              | Some t => sindex_check w t && bool_decide (scontents t !! 11 = Some 110) && bool_decide (scontents t !! 9 = Some 0) &&
                          bool_decide (scontents t !! 8 = None) && bool_decide (length <$> faunus_cache_ (kv w) = Some 1%nat)
              | None => false
              end
          | None => false
          end = true) as H by (vm_compute; reflexivity).
  destruct sdemo_world as [w|]; [|done]. destruct (sload_tree _ _ _) as [t|]; [|done].
  rewrite !andb_true_iff, !bool_decide_eq_true in H. destruct H as ((((H1 & H2) & H3) & H4) & H5).
  exists w, t. split; [done|]. split; [by apply sindex_check_sound|done].
Qed.

Lemma sherman_read_returns_contents_witness :
  ∃ w t, sdemo_world = Some w ∧ sindex_ok w 1 t ∧ scontents t !! 9 = Some 0 ∧
         (∃ w', read 20 11 w = Done (Some 110) w' ∧ sindex_ok w' 1 t) ∧ (∃ w', read 20 9 w = Done None w' ∧ sindex_ok w' 1 t).
Proof.
  destruct sdemo_index as (w & t & Hw & Hix & H11 & H9 & _). exists w, t. split; [exact Hw|]. split; [exact Hix|]. split; [exact H9|].
  split.
  - destruct (sherman_read_returns_contents 20 w 1 t 11 Hix) as (w' & H1 & _ & H2); [vm_compute; split; congruence|lia|].
    rewrite H11 in H1. exists w'. split; [exact H1|exact H2].
  - destruct (sherman_read_returns_contents 20 w 1 t 9 Hix) as (w' & H1 & _ & H2); [vm_compute; split; congruence|lia|].
    rewrite H9 in H1. exists w'. split; [exact H1|exact H2].
Defined.
End demo.
