(* ===== verification/ShermanStuck.v ===== *)
(** * A read that never returns (src/kv_index/sherman_index.cpp, [read])

    The searches of one [read] share a [SearchResult] whose field [slibing] is set
    when a page sends the search to its right sibling and is never reset.  A read of
    an absent key that starts at a leaf that was split since its parent was cached
    goes to the sibling, does not find the key there, and goes to [slibing] again,
    which is the same page: it never returns, without any other thread involved. *)

From S2P Require Import Prelude GlobalAddress RdmaSim ThreadStats Queue MemoryServer Slab RdmaManager LocalLock KVBlock FaunusNode FaunusIndex FaunusTree FaunusRead FaunusFrame FaunusInsert FaunusUpsert ShermanNode ShermanIndex ShermanRead.

Section stuck.
Context {cfg : FaunusConfig} {scfg : ShermanConfig}.
Context {Q : Type → Type} `{!ConcurrentQueue Q}.
Context {C Ent : Type} `{!NodeCache C Ent (GlobalAddress * InternalPage)} `{!RangedCache C Ent (GlobalAddress * InternalPage)}.
Implicit Types w : SWorld (Q := Q) (C := C).

(** The bytes at [a] are a leaf page whose range ends at or below [key]. *)
Definition passed_leaf (c : Cluster Q) (a : GlobalAddress) (key : Z) (b : GlobalAddress) : Prop :=
  ∃ p, holds c a (enc_LeafPage p) ∧ lpage_typed p ∧ lcheck_consistent p = true ∧
       leftmost_ptr (lhdr p) = Null ∧ slevel (lhdr p) = 0 ∧ highest (lhdr p) ≤ key ∧ sibling_ptr (lhdr p) = b.

(** [search_node] at a leaf left of the key. *)
Lemma search_sibling_run fuel w a b key res :
  sizes_ok → alone w → passed_leaf (scl w) a key b → b ≠ Null → b ≠ a →
  ∃ w', search_node fuel a key res false w = Done (true, mkSR true 0 b (sr_next_level res) (sr_val res)) w' ∧ squiet w w'.
Proof.
  intros Hsz Ho (p & Hh & Hty & Hc & Hlm & Hlv & Hhi & Hsib) Hb Hba. destruct (dec_enc_LeafPage p Hsz Hty) as [Hdec Hlen].
  destruct (sread_holds w a _ kLeafPageSize Ho Hh Hlen) as (w1 & Hrd & Hq1 & Hc1).
  destruct (push_path_run 0 a w1) as (w2 & Hp & Hq2 & Hc2 & _); [unfold kMaxLevelOfTree; lia|].
  exists w2. split; [|by etrans]. apply search_node_done. unfold search_node_step.
  rewrite (bind_done _ _ _ _ _ Hrd). cbn [fst snd assert_]. erewrite bind_done by reflexivity. rewrite Hdec, Hc. cbn [negb].
  rewrite Hlm, Hlv. change (Null =? Null) with true. rewrite (bind_done _ _ _ _ _ Hp).
  rewrite (proj2 (Z.leb_le _ _)) by lia. cbn [slibing]. rewrite Hsib.
  rewrite (proj2 (Z.eqb_neq _ _) Hb), (proj2 (Z.eqb_neq _ _) Hba). done.
Qed.

(** A step of [read] after a search that met a sibling and found nothing. *)
Lemma read_step_again fuel key root a fc ce res r w w' :
  search_node fuel a key res false w = Done (true, r) w' → slibing r ≠ Null → sr_is_leaf r = true → sr_val r = value_min →
  ∃ w'', read_step (Ent := Ent) fuel key root (a, fc, ce, res) w = Done (inl (slibing r, fc, None, r)) w'' ∧ squiet w' w''.
Proof.
  intros Hs Hn Hl Hv.
  assert (∃ w'', (match ce with None => mret tt | Some _ => on_kv (stats_if record_cache_hit) end) w' = Done tt w'' ∧
    squiet w' w'') as (w'' & H1 & H2).
  { destruct ce; [|by exists w']. destruct (count_run record_cache_hit w') as (w'' & H1 & H2 & _). by exists w''. }
  exists w''. split; [|done]. unfold read_step. rewrite (bind_done _ _ _ _ _ Hs). cbn [fst snd negb].
  rewrite (bind_done _ _ _ _ _ H1), Hl, Hv, Z.eqb_refl, (proj2 (Z.eqb_neq _ _) Hn). done.
Qed.

(** At the sibling the loop stays where it is. *)
Lemma stuck_at_sibling fuel key root p items lo hi b : ∀ n w fc r,
  sizes_ok → alone w → sstored (scl w) 0 lo hi (SLeaf b p items) → lo ≤ key < hi →
  scontents (SLeaf b p items) !! key = None → b ≠ Null → slibing r = b → sr_val r = value_min →
  ∃ st w', loop_nat n (read_step (Ent := Ent) fuel key root) (b, fc, None, r) w = Done (inl st) w'.
Proof.
  induction n as [|n IH]; intros w fc r Hsz Ho Hst Hkey Hnone Hb Hsl Hv; [by eexists _, _|].
  destruct (search_leaf_run fuel w b p items lo hi key r Hsz Ho Hst Hkey) as (w1 & H1 & Hq1 & _).
  rewrite Hnone, Hsl in H1. cbn [default] in H1.
  destruct (read_step_again fuel key root b fc None r _ w w1 H1) as (w2 & H2 & Hq2); [done|done|done|]. cbn [slibing] in H2.
  assert (squiet w w2) as Hq by (by etrans). cbn [loop_nat]. rewrite (bind_done _ _ _ _ _ H2).
  apply IH; try done; [by eapply squiet_alone|by rewrite (squiet_cl _ _ Hq)].
Qed.

(** C39: the read of an absent key whose cached path leads to a leaf that was split
    never returns: when the cache sends [key] to a leaf [a] whose range now ends at
    or below it, and the right sibling [b] is the leaf of the key and does not
    contain it, then no number of iterations is enough. *)
Theorem sherman_read_stuck w c e x pg c' root key a b p items lo hi :
  sizes_ok → alone w → holds (scl w) (root_offset_pointer_ (kv w)) (le_bytes 8 root) → ga_ok root →
  faunus_cache_ (kv w) = Some c → cache_search key c = (Some (e, (x, pg)), c') →
  get_leaf_from_cache_entry (cache_range e c').1 (cache_range e c').2 pg key = Some a →
  passed_leaf (scl w) a key b → b ≠ Null → b ≠ a →
  sstored (scl w) 0 lo hi (SLeaf b p items) → lo ≤ key < hi → scontents (SLeaf b p items) !! key = None →
  ∀ fuel, ∃ w', read (Ent := Ent) fuel key w = Fault OutOfFuel w'.
Proof.
  intros Hsz Ho Hr Hg Hca Hhit Hleaf Hpl Hb Hba Hst Hkey Hnone fuel. unfold read.
  destruct (sget_root_run w root Ho Hr Hg) as (w1 & H1 & Hq1 & Hc1). rewrite (bind_done _ _ _ _ _ H1).
  rewrite Hca in Hc1.
  set (w2 := mkSWorld (set_cache (Some c') (kv w1)) (local_lock_mgr_ w1) (local_others w1) (path_stack w1) (sherman_tag_ w1)).
  assert (read_start key root w1 = Done (a, true, Some e) w2) as H2.
  { unfold read_start. erewrite bind_done by reflexivity. rewrite Hc1. cbn [negb].
    erewrite bind_done by (unfold scache_search; rewrite Hc1, Hhit; reflexivity). cbn [fst snd]. by rewrite Hleaf. }
  rewrite (bind_done _ _ _ _ _ H2). assert (squiet w w2) as Hq2 by (etrans; [exact Hq1|by split]).
  assert (∃ st w', loop fuel (read_step (Ent := Ent) fuel key root) (a, true, Some e, mkSR false 0 Null Null value_min) w2 = Done (inl st) w')
    as (st & w' & Hloop); [|rewrite (bind_done _ _ _ _ _ Hloop); by eexists].
  rewrite loop_loop_nat. destruct (Pos2Nat.is_succ fuel) as [n ->]. cbn [loop_nat].
  destruct (search_sibling_run fuel w2 a b key (mkSR false 0 Null Null value_min)) as (w3 & H3 & Hq3); try done.
  { by eapply squiet_alone. }
  { by rewrite (squiet_cl _ _ Hq2). }
  destruct (read_step_again fuel key root a true (Some e) _ _ w2 w3 H3) as (w4 & H4 & Hq4); [done|done|done|].
  rewrite (bind_done _ _ _ _ _ H4).
  assert (squiet w w4) as Hq by (etrans; [exact Hq2|by etrans]). cbn [slibing].
  eapply stuck_at_sibling; try done; [by eapply squiet_alone|by rewrite (squiet_cl _ _ Hq)].
Qed.
End stuck.

(** ** A run of one thread that gets there *)

Section demo.
#[local] Existing Instances demo_cfg small_cfg.
Abbreviation SW := (SWorld (Q := fifo) (C := page_cache)).

(** Inserts that split the root leaf, a read that caches the new root page, and
    inserts that split its right leaf. *)
Definition stale_world : option SW :=
  sdemo (_ ← for_each [(5, 50); (7, 70); (3, 30); (11, 110)] sinsert; _ ← read 20 11; for_each [(9, 90); (13, 130)] sinsert).

Definition passed_check (w : SW) (key a : Z) : bool :=
  let p := dec_LeafPage (slice (Z.to_nat (offset a)) kLeafPageSize (region_of (scl w) a)) in
  holds_check (scl w) a (length (enc_LeafPage p)) (enc_LeafPage p) &&
  bool_decide (lpage_typed p ∧ lcheck_consistent p = true ∧ leftmost_ptr (lhdr p) = Null ∧ slevel (lhdr p) = 0 ∧ highest (lhdr p) ≤ key).
Definition sibling_of (w : SW) (a : Z) : GlobalAddress :=
  sibling_ptr (lhdr (dec_LeafPage (slice (Z.to_nat (offset a)) kLeafPageSize (region_of (scl w) a)))).

Lemma passed_check_sound w key a : passed_check w key a = true → passed_leaf (scl w) a key (sibling_of w a).
Proof.
  unfold passed_check. rewrite andb_true_iff, bool_decide_eq_true. intros [Hh (H1 & H2 & H3 & H4 & H5)].
  eexists. split; [by apply holds_check_holds|]. by split_and!.
Qed.

(** The leaf at [b], its range and its items. *)
Definition absent_check (w : SW) (key b : Z) (t : stree) : bool :=
  match t with
  | SLeaf b' p _ => (b' =? b) && sstored_check (scl w) 0 (lowest (lhdr p)) (highest (lhdr p)) t &&
                    bool_decide ((lowest (lhdr p) ≤ key ∧ key < highest (lhdr p)) ∧ scontents t !! key = None)
  | SNode _ _ _ => false
  end.

Definition stuck_check (w : SW) (key : Z) : bool :=
  match others (w_net (kv w)) with [] => true | _ => false end &&
  holds_check (scl w) (root_offset_pointer_ (kv w)) 8 (le_bytes 8 (sroot w)) && bool_decide (in_width 50 (sroot w)) &&
  match faunus_cache_ (kv w) with
  | None => false
  | Some c =>
      match cache_search key c with
      | (Some (e, (_, pg)), c') =>
          match get_leaf_from_cache_entry (cache_range e c').1 (cache_range e c').2 pg key with
          | None => false
          | Some a =>
              passed_check w key a && negb (sibling_of w a =? Null) && negb (sibling_of w a =? a) &&
              match sload_tree 1 (scl w) (sibling_of w a) with
              | None => false
              | Some t => absent_check w key (sibling_of w a) t
              end
          end
      | _ => false
      end
  end.

Lemma sherman_read_stuck_witness :
  ∃ w, stale_world = Some w ∧ ∀ fuel, ∃ w', read fuel 12 w = Fault OutOfFuel w'.
Proof.
  assert (match stale_world with Some w => stuck_check w 12 | None => false end = true) as H by (vm_compute; reflexivity).
  destruct stale_world as [w|]; [|discriminate H]. exists w. split; [reflexivity|].
  unfold stuck_check in H. rewrite !andb_true_iff in H. destruct H as (((Ho & Hr) & Hg) & H).
  destruct (faunus_cache_ (kv w)) as [c|] eqn:Ec; [|discriminate H].
  destruct (cache_search 12 c) as [[[e [x pg]]|] c'] eqn:Es; [|discriminate H].
  destruct (get_leaf_from_cache_entry _ _ pg 12) as [a|] eqn:Ea; [|discriminate H].
  rewrite !andb_true_iff in H. destruct H as (((Hp & Hn) & Hne) & H). apply negb_true_iff in Hn, Hne. apply Z.eqb_neq in Hn, Hne.
  destruct (sload_tree _ _ _) as [[b p items|]|]; [|discriminate H|discriminate H].
  cbn [absent_check] in H. rewrite !andb_true_iff in H. destruct H as ((Hb & Hst) & Hkey). apply Z.eqb_eq in Hb. subst b.
  apply bool_decide_eq_true in Hkey as [Hkey Hnone], Hg.
  eapply (sherman_read_stuck w c e x pg c' (sroot w) 12 a (sibling_of w a) p items (lowest (lhdr p)) (highest (lhdr p))).
  - apply small_sizes.
  - unfold alone. destruct (others _); [reflexivity|discriminate Ho].
  - apply holds_check_holds. exact Hr.
  - exact Hg.
  - exact Ec.
  - exact Es.
  - exact Ea.
  - apply passed_check_sound. exact Hp.
  - exact Hn.
  - exact Hne.
  - apply sstored_check_sound. exact Hst.
  - exact Hkey.
  - exact Hnone.
Defined.
End demo.
