(* ===== verification/ShermanFrame.v ===== *)
(** * The footprint of a stored Sherman tree

    A stored tree of pages depends only on the blocks of its footprint [sblocks]: it
    survives every write outside of them.  [sdescend] is the path of a key. *)

From S2P Require Import Prelude GlobalAddress RdmaSim ThreadStats Queue MemoryServer Slab RdmaManager LocalLock KVBlock FaunusNode FaunusIndex FaunusTree FaunusRead FaunusFrame FaunusInsert FaunusUpsert ShermanNode ShermanIndex ShermanRead.

Section frame.
Context {cfg : FaunusConfig} {scfg : ShermanConfig}.
Context {Q : Type → Type} `{!ConcurrentQueue Q}.
Implicit Types (c : Cluster Q) (t : stree).

Definition entry_block (e : LeafEntry) : Z * Z := (kv_ptr e, Z.of_nat sizeof_KVItem).

(** The blocks of memory a tree occupies. *)
Fixpoint sblocks t : list (Z * Z) :=
  match t with
  | SLeaf a p _ => (a, Z.of_nat kLeafPageSize) :: map entry_block (occupied (lrecords p))
  | SNode a _ ts => (a, Z.of_nat kInternalPageSize) :: concat (map sblocks ts)
  end.

(** The subtree [n] levels down on the path of [key]. *)
Fixpoint sdescend (n : nat) (key : Z) t : option stree :=
  match n, t with
  | O, _ => Some t
  | S n', SNode _ p ts => match ts !! rank (iseps p) key with Some t' => sdescend n' key t' | None => None end
  | S _, SLeaf _ _ _ => None
  end.

Lemma sitem_at_agree W c c' es items :
  agree W c c' → Forall lentry_ok es → Forall (apart W) (map entry_block es) →
  Forall2 (sitem_at c) es items → Forall2 (sitem_at c') es items.
Proof.
  intros Ha Hok Hw. rewrite Forall_map in Hw. induction 1 as [|e i es items (Hh & Hi & Hfp) _ IH]; [constructor|].
  apply Forall_cons_iff in Hw as [He Hw], Hok as [[_ Hga] Hok]. constructor; [|by apply IH]. split; [|done].
  eapply ag_holds; [done|done|done|]. by rewrite length_enc_KVItem.
Qed.

Lemma occupied_typed p : lpage_typed p → Forall lentry_ok (occupied (lrecords p)).
Proof.
  intros (_ & _ & _ & _ & _ & Hrec & _). apply list.Forall_forall. intros e [_ He]%list_elem_of_filter.
  rewrite list.Forall_forall in Hrec. by apply Hrec.
Qed.

Lemma skid_addr_ok p ts i t : ipage_typed p → ikids p = map saddr ts → ts !! i = Some t → ga_ok (saddr t).
Proof.
  intros (_ & _ & _ & (Hlm & _) & _ & Hrec & _) Hk Hi.
  assert (saddr t ∈ ikids p) as Hin.
  { rewrite Hk. apply list_elem_of_fmap. exists t. split; [done|]. by eapply list_elem_of_lookup_2. }
  unfold ikids in Hin. apply elem_of_cons in Hin as [->|Hin]; [done|].
  apply elem_of_take in Hin as (j & Hj & _). rewrite list_lookup_fmap in Hj. apply fmap_Some_1 in Hj as (e & Hj & ->).
  rewrite Forall_lookup in Hrec. apply (Hrec _ _ Hj).
Qed.

Lemma in_kid_blocks ts i t r : ts !! i = Some t → r ∈ sblocks t → r ∈ concat (map sblocks ts).
Proof.
  intros Hi Hr. apply list_elem_of_In, in_concat. exists (sblocks t). split; [|by apply list_elem_of_In].
  apply list_elem_of_In, list_elem_of_fmap. exists t. split; [done|]. by eapply list_elem_of_lookup_2.
Qed.

(** A stored tree survives every write outside its blocks. *)
Lemma sstored_agree W c c' l lo hi t :
  sizes_ok → agree W c c' → sstored c l lo hi t → ga_ok (saddr t) → Forall (apart W) (sblocks t) → sstored c' l lo hi t.
Proof.
  intros Hsz Ha Hst. induction Hst as [a p items lo hi Hh Hty Hc Hlk Hlm Hlv Hlo Hhi Hit Hr Hnd
                                     |a p ts l lo hi Hh Hty Hok Hc Hlk Hlm Hlv Hlo Hhi Hb Hk Hts IH];
    intros Haddr Hw; cbn [sblocks saddr] in *; apply Forall_cons_iff in Hw as [Hw0 Hw].
  - apply sstored_leaf; try done.
    + apply (ag_holds W c c' Ha); [done|done|]. by rewrite (proj2 (dec_enc_LeafPage p Hsz Hty)).
    + eapply sitem_at_agree; [done|by apply occupied_typed|done|done].
  - apply sstored_node; try done.
    + apply (ag_holds W c c' Ha); [done|done|]. by rewrite (proj2 (dec_enc_InternalPage p Hsz Hty)).
    + intros i t b b' Hi Hb1 Hb2. eapply IH; [done..|by eapply skid_addr_ok|].
      apply list.Forall_forall. intros r Hr. rewrite list.Forall_forall in Hw. apply Hw. by eapply in_kid_blocks.
Qed.

(** [t'] is [t] with [key] mapped to [v]. *)
Definition supserted (key v : Z) t t' : Prop := scontents t' = <[key := v]> (scontents t).

(** What a node contains for a key is what its child on the path contains. *)
Lemma snode_lookup c l lo hi a p ts k t :
  sstored c (S l) lo hi (SNode a p ts) → lo ≤ k < hi → ts !! rank (iseps p) k = Some t →
  scontents (SNode a p ts) !! k = scontents t !! k ∧
  ∃ b b', sbounds lo hi p !! rank (iseps p) k = Some b ∧ sbounds lo hi p !! S (rank (iseps p) k) = Some b' ∧ sstored c l b b' t ∧ b ≤ k < b'.
Proof.
  intros Hst Hk Ht. pose proof (sstored_kids _ _ _ _ _ _ _ Hst) as Hlen.
  inversion Hst as [|? ? ? ? ? ? _ _ Hok _ _ _ _ _ _ Hpw Hkk Hts]; subst.
  destruct (rank_bounds _ _ (iseps p) k Hk) as (d & d' & Hd1 & Hd2 & Hdk).
  split; [|exists d, d'; split; [done|]; split; [done|]; split; [by eapply Hts|done]]. unfold scontents. cbn [sitems].
  eapply (ranges_lookup (sbounds _ _ p) (map sitems ts)); [done| | |by rewrite list_lookup_fmap, Ht|done|done|done].
  - by rewrite length_sbounds, length_map, Hlen.
  - intros j l' e e' Hj He1 He2 i' Hi'. rewrite list_lookup_fmap in Hj. apply fmap_Some in Hj as (t2 & Ht2 & ->).
    eapply sstored_items; [by eapply Hts|done].
Qed.
End frame.
