(* ===== verification/ShermanInsert.v ===== *)
(** * The insert of the Sherman index into a leaf with room

    Sequential runs of [insert] (src/kv_index/sherman_index.cpp) on an index that
    holds a tree of pages, by a thread without cache and without local lock manager:
    the leaf of the key is locked by a CAS, read, and either the item of the key is
    overwritten or a new item is written to a fresh block and a record of the leaf is
    filled; then the lock is released.  The inserts that fill a page are in
    ShermanGrow.v and ShermanUpsert.v. *)

From S2P Require Import Prelude GlobalAddress RdmaSim ThreadStats Queue MemoryServer Slab RdmaManager LocalLock KVBlock FaunusNode FaunusIndex FaunusTree FaunusRead FaunusFrame FaunusInsert FaunusUpsert FaunusInit ShermanNode ShermanIndex ShermanRead ShermanFrame.

(** ** Changing the bytes of a leaf page *)

Section page.
Context {cfg : FaunusConfig} {scfg : ShermanConfig}.
Context {Q : Type → Type} `{!ConcurrentQueue Q}.
Implicit Types c : Cluster Q.

Definition set_llock (v : Z) (p : LeafPage) : LeafPage :=
  mkLPage v (lfront_version p) (lhdr p) (lrecords p) (lpadding p) (lrear_version p).
Definition set_lrec (i : nat) (e : LeafEntry) (p : LeafPage) : LeafPage :=
  mkLPage (lembedding_lock p) (lfront_version p) (lhdr p) (<[i := e]> (lrecords p)) (lpadding p) (lrear_version p).

Lemma set_llock_typed v p : in_width 64 v → lpage_typed p → lpage_typed (set_llock v p).
Proof. intros Hv (_ & H). by split. Qed.
Lemma set_lrec_typed i e p : lentry_ok e → lpage_typed p → lpage_typed (set_lrec i e p).
Proof.
  intros He (H1 & H2 & H3 & H4 & H5 & H6 & H7). unfold lpage_typed. cbn. rewrite length_insert.
  split_and!; try done. by apply Forall_insert.
Qed.

Lemma enc_set_llock v p : enc_LeafPage (set_llock v p) = splice 0 (le_bytes 8 v) (enc_LeafPage p).
Proof.
  unfold enc_LeafPage, enc_page. rewrite splice_app_l by (by rewrite !length_le_bytes). unfold splice.
  by rewrite (drop_ge (le_bytes 8 _)), app_nil_r by (by rewrite !length_le_bytes).
Qed.

Lemma enc_set_lrec i e p : (i < length (lrecords p))%nat →
  enc_LeafPage (set_lrec i e p) = splice (records_offset + sizeof_LeafEntry * i) (enc_LeafEntry e) (enc_LeafPage p).
Proof.
  intros Hi. unfold enc_LeafPage, enc_page. cbn [lembedding_lock lfront_version lhdr lrecords lpadding lrear_version set_lrec].
  set (A := le_bytes 8 (lembedding_lock p)). set (B := le_bytes 1 (lfront_version p)). set (H := enc_SHeader (lhdr p)).
  assert (length A = 8 ∧ length B = 1 ∧ length H = sizeof_SHeader)%nat as (HA & HB & HH).
  { split_and!; [apply length_le_bytes|apply length_le_bytes|apply length_enc_SHeader]. }
  assert (Forall (λ y, length y = sizeof_LeafEntry) (map enc_LeafEntry (lrecords p))) as Hall.
  { apply Forall_map, list.Forall_forall. intros x _. apply length_enc_LeafEntry. }
  unfold records_offset. rewrite !splice_app_r by lia. rewrite HA, HB, HH.
  replace (9 + sizeof_SHeader + sizeof_LeafEntry * i - 8 - 1 - sizeof_SHeader)%nat with (sizeof_LeafEntry * i)%nat by lia.
  rewrite splice_app_l; [|rewrite (length_concat_const _ sizeof_LeafEntry), length_map, length_enc_LeafEntry by done; nia].
  rewrite <-(concat_insert _ sizeof_LeafEntry); [|done|apply length_enc_LeafEntry|by rewrite length_map].
  by rewrite <-list_fmap_insert.
Qed.

End page.

(** ** The memories during an insert *)

Section memory.
Context {cfg : FaunusConfig} {scfg : ShermanConfig}.
Context {Q : Type → Type} `{!ConcurrentQueue Q}.
Implicit Types c : Cluster Q.

Lemma enc_LeafEntry_bytes e : bytes_ok (enc_LeafEntry e).
Proof.
  unfold enc_LeafEntry. rewrite !Forall_app. split; [apply le_bytes_ok|]. split; [|split; [apply le_bytes_ok|by repeat constructor]].
  constructor; [|constructor]. unfold byte_ok, in_width. lia.
Qed.

(** ** Changing one record or one item of a leaf *)

Lemma occupied_split recs i e :
  recs !! i = Some e → occupied recs = occupied (take i recs) ++ occupied [e] ++ occupied (drop (S i) recs).
Proof.
  intros He. unfold occupied. rewrite <-(take_drop_middle _ _ _ He) at 1.
  rewrite list.filter_app. f_equal. apply (list.filter_app _ [e]).
Qed.

Lemma occupied_insert recs i e0 e :
  recs !! i = Some e0 → is_empty e0 = true → is_empty e = false →
  occupied recs = occupied (take i recs) ++ occupied (drop (S i) recs) ∧
  occupied (<[i := e]> recs) = occupied (take i recs) ++ [e] ++ occupied (drop (S i) recs).
Proof.
  intros He0 H0 He. pose proof (lookup_lt_Some _ _ _ He0) as Hi.
  rewrite (occupied_split recs i e0 He0), (occupied_split (<[i := e]> recs) i e) by (by apply list_lookup_insert_eq).
  assert (occupied [e0] = [] ∧ occupied [e] = [e]) as [-> ->].
  { unfold occupied. by rewrite filter_cons_False, filter_cons_True by (rewrite ?H0; done). }
  by rewrite take_insert_ge, drop_insert_lt by lia.
Qed.

Lemma NoDup_keys_middle (i1 i2 : list KVItem) kv :
  item_key kv ∉ map item_key (i1 ++ i2) → NoDup (map item_key (i1 ++ i2)) → NoDup (map item_key (i1 ++ [kv] ++ i2)).
Proof.
  intros Hni Hnd. assert (i1 ++ [kv] ++ i2 ≡ₚ kv :: i1 ++ i2) as Hp by (symmetry; apply Permutation_middle).
  rewrite Hp. cbn [map]. by apply list.NoDup_cons.
Qed.

(** A new record in an empty place. *)
Lemma sleaf_put c c' a p items lo hi i e0 e kv :
  sstored c 0 lo hi (SLeaf a p items) → lrecords p !! i = Some e0 → is_empty e0 = true → is_empty e = false → lentry_ok e →
  holds c' a (enc_LeafPage (set_lrec i e p)) → sitem_at c' e kv → Forall2 (sitem_at c') (occupied (lrecords p)) items →
  lo ≤ item_key kv < hi → item_key kv ∉ map item_key items →
  ∃ items', sstored c' 0 lo hi (SLeaf a (set_lrec i e p) items') ∧
    supserted (item_key kv) (item_value kv) (SLeaf a p items) (SLeaf a (set_lrec i e p) items') ∧
    sblocks (SLeaf a (set_lrec i e p) items') ≡ₚ entry_block e :: sblocks (SLeaf a p items).
Proof.
  intros Hst He0 Hem0 Hem Hok Hh Hkv Hits Hkey Hni.
  inversion Hst as [? ? ? ? ? _ Hty Hc Hlk Hlm Hlv Hlo Hhi _ Hr Hnd|]; subst.
  destruct (occupied_insert _ _ _ _ He0 Hem0 Hem) as [Ho Ho']. rewrite Ho in Hits.
  apply Forall2_app_inv_l in Hits as (i1 & i2 & Hi1 & Hi2 & ->). exists (i1 ++ [kv] ++ i2). split; [|split].
  - apply sstored_leaf; try done.
    + by apply set_lrec_typed.
    + cbn [lrecords set_lrec]. rewrite Ho'. apply Forall2_app; [done|]. by constructor.
    + rewrite !Forall_app in *. destruct Hr. split; [done|]. split; [by constructor|done].
    + by apply NoDup_keys_middle.
  - unfold supserted, scontents. cbn [sitems]. by apply (contents_replace i1 [] i2).
  - cbn [sblocks lrecords set_lrec]. rewrite Ho, Ho', !map_app. cbn [map app]. rewrite perm_swap. constructor.
    symmetry. apply Permutation_middle.
Qed.

(** A new value in the item of a record. *)
Lemma sleaf_update c c' a p i1 i2 kv0 kv lo hi :
  sstored c 0 lo hi (SLeaf a p (i1 ++ kv0 :: i2)) → item_key kv = item_key kv0 →
  holds c' a (enc_LeafPage p) → Forall2 (sitem_at c') (occupied (lrecords p)) (i1 ++ kv :: i2) →
  sstored c' 0 lo hi (SLeaf a p (i1 ++ kv :: i2)) ∧
  supserted (item_key kv) (item_value kv) (SLeaf a p (i1 ++ kv0 :: i2)) (SLeaf a p (i1 ++ kv :: i2)).
Proof.
  intros Hst Hk Hh Hits. inversion Hst as [? ? ? ? ? _ Hty Hc Hlk Hlm Hlv Hlo Hhi _ Hr Hnd|]; subst.
  assert (map item_key (i1 ++ kv :: i2) = map item_key (i1 ++ kv0 :: i2)) as Hkeys by (rewrite !map_app; cbn; by rewrite Hk).
  split.
  - apply sstored_leaf; try done.
    + rewrite !Forall_app, !Forall_cons_iff in *. by rewrite Hk.
    + by rewrite Hkeys.
  - unfold supserted, scontents. cbn [sitems]. apply (contents_replace i1 [kv0] i2); [|by constructor].
    rewrite map_app in *. cbn [map] in Hnd. rewrite Hk. apply NoDup_ListNoDup, List.NoDup_remove_2 in Hnd. by rewrite list_elem_of_In.
Qed.

(** ** The writes of an insert, one after the other *)

Lemma length_enc_LeafPage p : sizes_ok → lpage_typed p → length (enc_LeafPage p) = kLeafPageSize.
Proof. intros Hsz Hty. apply (dec_enc_LeafPage p Hsz Hty). Qed.

(** Writing the lock word of a leaf page. *)
Lemma lock_word_ok c a p v :
  sizes_ok → fits c → ga_ok a → holds c a (enc_LeafPage p) → lpage_typed p →
  let c' := write_at c a (le_bytes 8 v) in
  holds c' a (enc_LeafPage (set_llock v p)) ∧ fits c' ∧ agree [(a, Z.of_nat kLeafPageSize)] c c' ∧ ∃ m, region_at c a 8 m.
Proof.
  intros Hsz Hf Ha Hh Hty. pose proof (length_enc_LeafPage p Hsz Hty) as Hlen.
  pose proof (patch_start c a _ (le_bytes 8 v) Hf Ha Hh (le_bytes_ok _ _)) as H. rewrite length_le_bytes, Hlen, <-enc_set_llock in H.
  apply H. rewrite <-Hlen. unfold enc_LeafPage, enc_page. rewrite !length_app, !length_le_bytes. lia.
Qed.

Lemma set_llock_id p : lembedding_lock p = 0 → set_llock 0 p = p.
Proof. intros H. destruct p. cbn in *. by subst. Qed.

Lemma record_inside p i : sizes_ok → lpage_typed p → (i < length (lrecords p))%nat →
  (records_offset + sizeof_LeafEntry * i + sizeof_LeafEntry ≤ kLeafPageSize)%nat.
Proof.
  intros Hsz Hty Hi. rewrite <-(length_enc_LeafPage p Hsz Hty). unfold enc_LeafPage, enc_page, records_offset.
  rewrite !length_app, !length_le_bytes, length_enc_SHeader, (length_concat_const _ sizeof_LeafEntry), length_map; [nia|].
  apply Forall_map, list.Forall_forall. intros e _. apply length_enc_LeafEntry.
Qed.

(** The leaf at [a] with its items, and nothing of it overlapping. *)
Record leaf_at c (lo hi : Z) a p items : Prop := mkLeafAt {
  la_sizes : sizes_ok;
  la_fits : fits c;
  la_addr : ga_ok a;
  la_stored : sstored c 0 lo hi (SLeaf a p items);
  la_disjoint : pairwise disjoint_range (sblocks (SLeaf a p items))
}.

(** What remains of the items of a leaf after writes to the page and elsewhere. *)
Lemma leaf_items_agree c c' W lo hi a p items :
  leaf_at c lo hi a p items → agree W c c' → (∀ r, r ∈ map entry_block (occupied (lrecords p)) → disjoint_range (a, Z.of_nat kLeafPageSize) r → apart W r) →
  Forall2 (sitem_at c') (occupied (lrecords p)) items.
Proof.
  intros [Hsz Hf Ha Hst Hd] Hag Hap. inversion Hst as [? ? ? ? ? Hh Hty Hc Hlk Hlm Hlv Hlo Hhi Hit Hr Hnd|]; subst.
  apply (sitem_at_agree W c c'); [done|by apply occupied_typed| |done].
  cbn [sblocks] in Hd. destruct Hd as [Hd _]. rewrite list.Forall_forall in Hd. apply list.Forall_forall. intros r Hr'.
  apply Hap; [done|]. by apply Hd.
Qed.

(** Lock, overwrite the item of the record [e], unlock. *)
Lemma update_memory c lo hi a p es1 e es2 i1 kv0 i2 kv tag :
  leaf_at c lo hi a p (i1 ++ kv0 :: i2) → occupied (lrecords p) = es1 ++ e :: es2 → length es1 = length i1 →
  item_key kv = item_key kv0 → item_ok kv → in_width 64 tag →
  let c1 := write_at c a (le_bytes 8 tag) in let c2 := write_at c1 (kv_ptr e) (enc_KVItem kv) in
  let c3 := write_at c2 a (le_bytes 8 0) in
  (∃ m, region_at c2 a 8 m) ∧ fits c3 ∧
  agree [(a, Z.of_nat kLeafPageSize); entry_block e; (a, Z.of_nat kLeafPageSize)] c c3 ∧
  sstored c3 0 lo hi (SLeaf a p (i1 ++ kv :: i2)) ∧
  supserted (item_key kv) (item_value kv) (SLeaf a p (i1 ++ kv0 :: i2)) (SLeaf a p (i1 ++ kv :: i2)).
Proof.
  intros Hla Hocc Hlen Hk Hok Htag c1 c2 c3. pose proof Hla as [Hsz Hf Ha Hst Hd].
  inversion Hst as [? ? ? ? ? Hh Hty Hc Hlk Hlm Hlv Hlo Hhi Hit Hr Hnd|]; subst.
  destruct (lock_word_ok c a p tag Hsz Hf Ha Hh Hty) as (Hh1 & Hf1 & Hag1 & _). fold c1 in Hh1, Hf1, Hag1.
  cbn [sblocks] in Hd. rewrite Hocc, map_app in Hd. destruct Hd as [Hda Hde]. cbn [map] in Hda, Hde.
  rewrite Forall_app, Forall_cons_iff in Hda. destruct Hda as (Hda1 & Hdae & Hda2).
  apply pairwise_app in Hde as (_ & [Hde2 _] & Hde1).
  pose proof (occupied_typed p Hty) as Hoty. rewrite Hocc, Forall_app, Forall_cons_iff in Hoty. destruct Hoty as (Hot1 & [_ Hea] & Hot2).
  rewrite Hocc in Hit. apply Forall2_app_inv in Hit as [Hit1 Hit2]; [|done].
  apply Forall2_cons_1 in Hit2 as [(Hhe & Hoke & Hfpe) Hit2].
  destruct (patch_whole c1 (kv_ptr e) (enc_KVItem kv) Hf1 Hea) as (Hh2 & Hf2 & Hag2 & _).
  { apply (ag_readable _ _ _ Hag1). apply holds_readable in Hhe. by rewrite length_enc_KVItem in *. }
  { apply enc_KVItem_bytes. }
  rewrite length_enc_KVItem in Hag2. change (kv_ptr e, Z.of_nat sizeof_KVItem) with (entry_block e) in Hag2.
  fold c2 in Hh2, Hf2, Hag2.
  assert (holds c2 a (enc_LeafPage (set_llock tag p))) as Hh1'.
  { apply (ag_holds _ _ _ Hag2); [done|done|]. rewrite length_enc_LeafPage by (done || by apply set_llock_typed). by apply apart_one. }
  destruct (lock_word_ok c2 a (set_llock tag p) 0 Hsz Hf2 Ha Hh1' (set_llock_typed _ _ Htag Hty)) as (Hh3 & Hf3 & Hag3 & Hreg).
  fold c3 in Hh3, Hf3, Hag3. change (set_llock 0 (set_llock tag p)) with (set_llock 0 p) in Hh3. rewrite set_llock_id in Hh3 by done.
  pose proof (agree_trans _ _ _ _ _ Hag1 (agree_trans _ _ _ _ _ Hag2 Hag3)) as Hag. cbn [app] in Hag.
  split; [done|]. split; [done|]. split; [done|].
  assert (∀ r, disjoint_range (a, Z.of_nat kLeafPageSize) r → disjoint_range r (entry_block e) →
    apart [(a, Z.of_nat kLeafPageSize); entry_block e; (a, Z.of_nat kLeafPageSize)] r) as Hap.
  { intros r H1 H2. constructor; [by symmetry|]. constructor; [done|]. constructor; [by symmetry|constructor]. }
  apply (sleaf_update c); try done. rewrite Hocc. apply Forall2_app; [|constructor].
  - eapply sitem_at_agree; [exact Hag|done| |done]. apply list.Forall_forall. intros r Hin.
    rewrite list.Forall_forall in Hda1, Hde1. apply Hap; [by apply Hda1|]. specialize (Hde1 r Hin). by apply Forall_cons_iff in Hde1 as [? _].
  - split; [|split; [done|by rewrite Hk]]. apply (ag_holds _ _ _ Hag3); [done|done|]. rewrite length_enc_KVItem. apply apart_one. by symmetry.
  - eapply sitem_at_agree; [exact Hag|done| |done]. apply list.Forall_forall. intros r Hin.
    rewrite list.Forall_forall in Hda2, Hde2. apply Hap; [by apply Hda2|]. symmetry. by apply Hde2.
Qed.

(** Lock, write a new item to the block at [x], fill the record [i], unlock. *)
Lemma new_memory c lo hi a p items i e0 x kv tag :
  leaf_at c lo hi a p items → lrecords p !! i = Some e0 → is_empty e0 = true → ga_ok x → x ≠ Null →
  readable c x sizeof_KVItem → Forall (disjoint_range (x, Z.of_nat sizeof_KVItem)) (sblocks (SLeaf a p items)) →
  item_ok kv → lo ≤ item_key kv < hi → (item_key kv ∉ map item_key items) → in_width 64 tag →
  let e := mkLeafEntry (Fingerprint (item_key kv)) x in
  let c1 := write_at c a (le_bytes 8 tag) in let c2 := write_at c1 x (enc_KVItem kv) in
  let c3 := write_at c2 (ga_add a (leaf_record_offset i)) (enc_LeafEntry e) in let c4 := write_at c3 a (le_bytes 8 0) in
  (∃ m, region_at c1 x sizeof_KVItem m) ∧ (∃ m, region_at c2 (ga_add a (leaf_record_offset i)) (length (enc_LeafEntry e)) m) ∧
  (∃ m, region_at c3 a 8 m) ∧ fits c4 ∧
  agree ([(a, Z.of_nat kLeafPageSize)] ++ [entry_block e] ++ [(a, Z.of_nat kLeafPageSize)] ++ [(a, Z.of_nat kLeafPageSize)]) c c4 ∧
  ∃ items', sstored c4 0 lo hi (SLeaf a (set_lrec i e p) items') ∧
    supserted (item_key kv) (item_value kv) (SLeaf a p items) (SLeaf a (set_lrec i e p) items') ∧
    sblocks (SLeaf a (set_lrec i e p) items') ≡ₚ entry_block e :: sblocks (SLeaf a p items).
Proof.
  intros Hla He0 Hem Hx Hnull Hrd Hdx Hok Hkey Hni Htag e c1 c2 c3 c4. pose proof Hla as [Hsz Hf Ha Hst Hd].
  inversion Hst as [? ? ? ? ? Hh Hty Hc Hlk Hlm Hlv Hlo Hhi Hit Hr Hnd|]; subst.
  pose proof (lookup_lt_Some _ _ _ He0) as Hi. pose proof Hdx as Hdx'. cbn [sblocks] in Hdx'. apply Forall_cons_iff in Hdx' as [Hdxa Hdxe].
  assert (lentry_ok e) as Heok.
  { split; [|done]. assert (in_width 8 (Fingerprint (item_key kv))) as Hfp by (apply fingerprint_key_small, be_bytes_ok).
    unfold in_width in *. cbn [fingerprint e]. lia. }
  destruct (lock_word_ok c a p tag Hsz Hf Ha Hh Hty) as (Hh1 & Hf1 & Hag1 & _). fold c1 in Hh1, Hf1, Hag1.
  destruct (patch_whole c1 x (enc_KVItem kv) Hf1 Hx) as (Hh2 & Hf2 & Hag2 & Hreg2).
  { apply (ag_readable _ _ _ Hag1). by rewrite length_enc_KVItem. }
  { apply enc_KVItem_bytes. }
  rewrite length_enc_KVItem in Hag2, Hreg2. change (x, Z.of_nat sizeof_KVItem) with (entry_block e) in *.
  fold c2 in Hh2, Hf2, Hag2. pose proof (set_llock_typed _ _ Htag Hty) as Hty1.
  assert (holds c2 a (enc_LeafPage (set_llock tag p))) as Hh1'.
  { apply (ag_holds _ _ _ Hag2); [done|done|]. rewrite length_enc_LeafPage by done. apply apart_one. by symmetry. }
  destruct (patch_ok c2 a _ (records_offset + sizeof_LeafEntry * i) (enc_LeafEntry e) Hf2 Ha Hh1' (enc_LeafEntry_bytes e)) as (Hh3 & Hf3 & Hag3 & Hreg3).
  { rewrite length_enc_LeafPage, length_enc_LeafEntry by done. by apply (record_inside p). }
  rewrite <-enc_set_lrec in Hh3 by done. rewrite length_enc_LeafPage in Hag3 by done.
  change (Z.of_nat (records_offset + sizeof_LeafEntry * i)) with (leaf_record_offset i) in *. fold c3 in Hh3, Hf3, Hag3.
  pose proof (set_lrec_typed i e _ Heok Hty1) as Hty3.
  destruct (lock_word_ok c3 a _ 0 Hsz Hf3 Ha Hh3 Hty3) as (Hh4 & Hf4 & Hag4 & Hreg4). fold c4 in Hh4, Hf4, Hag4.
  assert (set_llock 0 (set_lrec i e (set_llock tag p)) = set_lrec i e p) as Heq by (destruct p; cbn in *; by subst).
  rewrite Heq in Hh4. pose proof (agree_trans _ _ _ _ _ Hag3 Hag4) as Hag34.
  pose proof (agree_trans _ _ _ _ _ Hag1 (agree_trans _ _ _ _ _ Hag2 Hag34)) as Hag.
  do 5 (split; [done|]). apply (sleaf_put c c4 a p items _ _ i e0 e kv); try done.
  - by apply Z.eqb_neq.
  - split; [|done]. apply (ag_holds _ _ _ Hag34); [done|done|]. rewrite length_enc_KVItem.
    constructor; [done|]. constructor; [done|constructor].
  - eapply leaf_items_agree; [exact Hla|exact Hag|]. intros r Hin Hra. rewrite list.Forall_forall in Hdxe.
    constructor; [by symmetry|]. constructor; [symmetry; by apply Hdxe|]. constructor; [by symmetry|]. constructor; [by symmetry|constructor].
Qed.
End memory.

(** ** Runs *)

Section runs.
Context {cfg : FaunusConfig} {scfg : ShermanConfig}.
Context {Q : Type → Type} `{!ConcurrentQueue Q}.
Context {C Ent : Type} `{!NodeCache C Ent (GlobalAddress * InternalPage)} `{!RangedCache C Ent (GlobalAddress * InternalPage)}.
Abbreviation SW := (SWorld (Q := Q) (C := C)).
Implicit Types w : SW.

(** [w'] is [w] with other memories, slabs and bookkeeping. *)
Record smoved (c : Cluster Q) (slabs : gmap Z (SlabAllocator Q)) w w' : Prop := mkSmoved {
  sm_kv : quiet (relocate c slabs (kv w)) (kv w');
  sm_locks : local_lock_mgr_ w' = local_lock_mgr_ w;
  sm_others : local_others w' = local_others w;
  sm_tag : sherman_tag_ w' = sherman_tag_ w
}.

Lemma smoved_cl c slabs w w' : smoved c slabs w w' → scl w' = c.
Proof. intros H. exact (q_cluster _ _ (sm_kv _ _ _ _ H)). Qed.
Lemma smoved_slabs c slabs w w' : smoved c slabs w w' → w_slabs (kv w') = slabs.
Proof. intros H. exact (q_slabs _ _ (sm_kv _ _ _ _ H)). Qed.
Lemma smoved_alone c slabs w w' : smoved c slabs w w' → alone w → alone w'.
Proof. intros H. unfold alone. by rewrite (q_others _ _ (sm_kv _ _ _ _ H)). Qed.
Lemma smoved_root c slabs w w' : smoved c slabs w w' → root_offset_pointer_ (kv w') = root_offset_pointer_ (kv w).
Proof. intros H. exact (q_root _ _ (sm_kv _ _ _ _ H)). Qed.
Lemma smoved_cache c slabs w w' : smoved c slabs w w' → faunus_cache_ (kv w') = faunus_cache_ (kv w).
Proof. intros H. exact (q_cache _ _ (sm_kv _ _ _ _ H)). Qed.
Lemma smoved_tracked c slabs w w' : smoved c slabs w w' → tracked (mgr (w_net (kv w'))) = tracked (mgr (w_net (kv w))).
Proof. intros H. exact (q_tracked _ _ (sm_kv _ _ _ _ H)). Qed.

Lemma smoved_trans c1 s1 c2 s2 w w1 w2 : smoved c1 s1 w w1 → smoved c2 s2 w1 w2 → smoved c2 s2 w w2.
Proof.
  intros [Ha H1 H2 H3] [Hb H4 H5 H6]. split; try congruence. etrans; [|exact Hb].
  exact (quiet_relocate c2 s2 _ _ Ha).
Qed.

Lemma squiet_moved w w' :
  squiet w w' → faunus_cache_ (kv w') = faunus_cache_ (kv w) → smoved (scl w) (w_slabs (kv w)) w w'.
Proof.
  intros [Hq H1 H2 H3] Hc. split; try done. rewrite Hc, set_cache_same in Hq. destruct Hq. by split.
Qed.

Lemma moved_same w : smoved (scl w) (w_slabs (kv w)) w w.
Proof. by apply squiet_moved. Qed.

Lemma on_kv_moved {A} (m : M (World Q C) A) w a k c slabs :
  m (kv w) = Done a k → quiet (relocate c slabs (kv w)) k → ∃ w', on_kv m w = Done a w' ∧ smoved c slabs w w'.
Proof. intros Hm Hq. unfold on_kv, zoom. rewrite Hm. eexists. split; [reflexivity|]. by split. Qed.

Lemma swrite_run w a bs m :
  alone w → region_at (scl w) a (length bs) m →
  ∃ w', swrite a bs w = Done true w' ∧ smoved (write_at (scl w) a bs) (w_slabs (kv w)) w w'.
Proof. intros Ho Hr. destruct (write_object_run (kv w) a bs m Ho Hr) as (k & Hk & Hq). by eapply on_kv_moved. Qed.

Lemma sread_run w a l n :
  alone w → holds (scl w) a l → length l = n →
  ∃ w', sread a n w = Done (true, l) w' ∧ smoved (scl w) (w_slabs (kv w)) w w'.
Proof.
  intros Ho Hh Hn. destruct (sread_holds w a l n Ho Hh Hn) as (w' & H & Hq & Hc). exists w'. split; [done|]. by apply squiet_moved.
Qed.

(** The remote lock of a page nobody holds. *)
Lemma try_lock_run fuel spins w a :
  alone w → local_lock_mgr_ w = None → holds (scl w) a (le_bytes 8 0) →
  ∃ w', try_lock_address fuel spins a w = Done true w' ∧
        smoved (write_at (scl w) a (le_bytes 8 (sherman_tag_ w))) (w_slabs (kv w)) w w'.
Proof.
  intros Ho Hlm Hh.
  destruct (perform_run (kv w) (mkOp a (op_cas 0 (sherman_tag_ w))) (out_expected 0) (write_at (scl w) a (le_bytes 8 (sherman_tag_ w))) Ho)
    as (k & Hp & Hq).
  { by rewrite (ops_cas (cl (kv w)) a 0 (sherman_tag_ w) [] Hh) by (unfold in_width; lia). }
  destruct (on_kv_moved _ w _ _ _ _ Hp Hq) as (w' & H & Hm). exists w'. split; [|done].
  unfold try_lock_address. erewrite bind_done by reflexivity. rewrite Hlm. erewrite bind_done by reflexivity. cbv iota.
  rewrite (bind_done _ _ w (inr true) w'); [done|]. apply loop_done. unfold lock_step. cbv zeta.
  rewrite (bind_done _ _ _ _ _ H). cbn [fst snd assert_ expected_after]. by erewrite bind_done by reflexivity.
Qed.

(** Locking and reading a page that starts with its lock word. *)
Lemma lock_read_run fuel spins w a l n :
  alone w → local_lock_mgr_ w = None → fits (scl w) → ga_ok a → holds (scl w) a (le_bytes 8 0 ++ l) → n = (8 + length l)%nat →
  let c' := write_at (scl w) a (le_bytes 8 (sherman_tag_ w)) in
  ∃ w', lock_and_read_page fuel spins a a n w = Done (le_bytes 8 (sherman_tag_ w) ++ l) w' ∧
        smoved c' (w_slabs (kv w)) w w' ∧ holds c' a (le_bytes 8 (sherman_tag_ w) ++ l) ∧ fits c' ∧ agree [(a, Z.of_nat n)] (scl w) c'.
Proof.
  intros Ho Hlm Hf Ha Hh -> c'. assert (length (le_bytes 8 0 ++ l) = 8 + length l)%nat as Hlen by (by rewrite length_app, length_le_bytes).
  destruct (patch_start (scl w) a _ (le_bytes 8 (sherman_tag_ w)) Hf Ha Hh (le_bytes_ok _ _)) as (Hh' & Hf' & Hag & _).
  { rewrite Hlen, length_le_bytes. lia. }
  rewrite Hlen in Hag. fold c' in Hh', Hf', Hag.
  assert (splice 0 (le_bytes 8 (sherman_tag_ w)) (le_bytes 8 0 ++ l) = le_bytes 8 (sherman_tag_ w) ++ l) as Hs.
  { unfold splice. cbn [take app]. rewrite drop_app_length' by (by rewrite !length_le_bytes). done. }
  rewrite Hs in Hh'. destruct (try_lock_run fuel spins w a Ho Hlm) as (w1 & H1 & Hm1); [by apply holds_prefix in Hh|].
  pose proof (smoved_cl _ _ _ _ Hm1) as Hc1. fold c' in Hc1.
  destruct (sread_run w1 a (le_bytes 8 (sherman_tag_ w) ++ l) (8 + length l)) as (w2 & H2 & Hm2).
  { by eapply smoved_alone. }
  { by rewrite Hc1. }
  { by rewrite length_app, length_le_bytes. }
  rewrite Hc1, (smoved_slabs _ _ _ _ Hm1) in Hm2. exists w2. split; [|split; [by eapply smoved_trans|done]].
  unfold lock_and_read_page. rewrite (bind_done _ _ _ _ _ H1). cbn [negb]. rewrite (bind_done _ _ _ _ _ H2).
  cbn [fst snd assert_]. by erewrite bind_done by reflexivity.
Qed.

(** Releasing it. *)
Lemma unlock_run w a m :
  alone w → local_lock_mgr_ w = None → region_at (scl w) a 8 m →
  ∃ w', unlock_address a w = Done tt w' ∧ smoved (write_at (scl w) a (le_bytes 8 0)) (w_slabs (kv w)) w w'.
Proof.
  intros Ho Hlm Hr. destruct (write_object_run (kv w) a (le_bytes 8 0) m Ho) as (k & Hk & Hq); [by rewrite length_le_bytes|].
  destruct (on_kv_moved _ w _ _ _ _ Hk Hq) as (w' & H & Hm). exists w'. split; [|done].
  unfold unlock_address. erewrite bind_done by reflexivity. rewrite Hlm. erewrite bind_done by reflexivity. cbv iota.
  by rewrite (bind_done _ _ _ _ _ H).
Qed.

(** Writing a part of the page and releasing the lock in one batch. *)
Lemma write_unlock_run w ra bs a m m' :
  alone w → local_lock_mgr_ w = None → region_at (scl w) ra (length bs) m → region_at (write_at (scl w) ra bs) a 8 m' →
  ∃ w', write_page_and_unlock bs ra a w = Done tt w' ∧
        smoved (write_at (write_at (scl w) ra bs) a (le_bytes 8 0)) (w_slabs (kv w)) w w'.
Proof.
  intros Ho Hlm Hr Hr'.
  destruct (perform_all_run (kv w) [write_op ra bs; write_op a (le_bytes 8 0)] [out_none; out_none]
              (write_at (write_at (scl w) ra bs) a (le_bytes 8 0)) Ho) as (k & Hk & Hq).
  { rewrite (ops_write (cl (kv w)) ra bs m _ Hr). rewrite (ops_write _ a (le_bytes 8 0) m' []) by (by rewrite length_le_bytes). done. }
  destruct (on_kv_moved _ w _ _ _ _ Hk Hq) as (w' & H & Hm). exists w'. split; [|done].
  unfold write_page_and_unlock. erewrite bind_done by reflexivity. rewrite Hlm. erewrite bind_done by reflexivity. cbv iota.
  rewrite (bind_done _ _ _ _ _ H). cbn [fst assert_]. erewrite bind_done by reflexivity. erewrite bind_done by reflexivity.
  by rewrite (sm_locks _ _ _ _ Hm), Hlm.
Qed.

(** The first empty record, from index [i] on. *)
Definition first_empty (recs : list LeafEntry) (i : nat) (eo : option nat) : Prop :=
  match eo with
  | Some j => ∃ k e, j = (i + k)%nat ∧ recs !! k = Some e ∧ is_empty e = true
  | None => occupied recs = recs
  end.

(** How the scan of the records [es] with their [items] ends: the item of the key was
    overwritten, or the key is not there, the records were counted from [cnt] on and
    the place for a new one satisfies [place]. *)
Definition scan_ends (key value : Z) w (es : list LeafEntry) (items : list KVItem) (cnt : Z) (place : option nat → Prop)
    (run : outcome SW (unit + Z * option nat)) : Prop :=
  (∃ es1 e es2 i1 i2 kv0 w', es = es1 ++ e :: es2 ∧ items = i1 ++ kv0 :: i2 ∧ length es1 = length i1 ∧ item_key kv0 = key ∧
     run = Done (inl tt) w' ∧ smoved (write_at (scl w) (kv_ptr e) (enc_KVItem (mkItem key value))) (w_slabs (kv w)) w w') ∨
  (∃ eo w', (key ∉ map item_key items) ∧ run = Done (inr (cnt + Z.of_nat (length es), eo)) w' ∧ place eo ∧
            smoved (scl w) (w_slabs (kv w)) w w').

Definition place_from (recs : list LeafEntry) (i : nat) (eidx eo : option nat) : Prop :=
  match eidx with Some j => eo = Some j | None => first_empty recs i eo end.

Lemma leaf_insert_scan_run key value recs : ∀ items w i cnt eidx,
  alone w → Forall2 (sitem_at (scl w)) (occupied recs) items →
  scan_ends key value w (occupied recs) items cnt (place_from recs i eidx)
    (leaf_insert_scan key value (Fingerprint key) recs i cnt eidx w).
Proof.
  induction recs as [|r recs IH]; intros items w i cnt eidx Ho Hit.
  { apply Forall2_nil_inv_l in Hit. subst. right. exists eidx, w. split; [apply not_elem_of_nil|].
    cbn [leaf_insert_scan]. rewrite Z.add_0_r. split; [done|]. split; [by destruct eidx|apply moved_same]. }
  unfold occupied in *. destruct (is_empty r) eqn:He.
  { rewrite filter_cons_False in * by (by rewrite He). cbn [leaf_insert_scan]. rewrite He. cbn [negb].
    destruct (IH items w (S i) cnt (match eidx with None => Some i | e => e end) Ho Hit) as [H|(eo & w' & H1 & H2 & H3 & H4)]; [by left|].
    right. exists eo, w'. split; [done|]. split; [exact H2|]. split; [|done]. destruct eidx; [done|]. cbn in H3. subst eo.
    exists 0%nat, r. split; [lia|done]. }
  rewrite filter_cons_True in * by done. apply Forall2_cons_inv_l in Hit as (kv0 & its & (Hh & Hok & Hfp) & Hit & ->).
  assert (∀ w1, smoved (scl w) (w_slabs (kv w)) w w1 → item_key kv0 ≠ key →
    scan_ends key value w (r :: filter (λ e, is_empty e = false) recs) (kv0 :: its) cnt (place_from (r :: recs) i eidx)
      (leaf_insert_scan key value (Fingerprint key) recs (S i) (cnt + 1) eidx w1)) as Hrest.
  { intros w1 Hm Hne. pose proof (smoved_cl _ _ _ _ Hm) as Hc1. pose proof (smoved_slabs _ _ _ _ Hm) as Hs1.
    destruct (IH its w1 (S i) (cnt + 1) eidx) as [(es1 & e & es2 & i1 & i2 & kv1 & w' & H1 & H2 & H3 & H4 & H5 & H6)|(eo & w' & H1 & H2 & H3 & H4)].
    - by eapply smoved_alone.
    - by rewrite Hc1.
    - left. exists (r :: es1), e, es2, (kv0 :: i1), i2, kv1, w'. rewrite H1, H2. cbn [app length]. rewrite Hc1, Hs1 in H6.
      do 2 (split; [done|]). split; [congruence|]. do 2 (split; [done|]). by eapply smoved_trans.
    - right. exists eo, w'. rewrite Hc1, Hs1 in H4. split; [cbn [map]; rewrite not_elem_of_cons; by split|]. cbn [length].
      replace (cnt + Z.of_nat (S _)) with (cnt + 1 + Z.of_nat (length (filter (λ e, is_empty e = false) recs))) by lia.
      split; [exact H2|]. split; [|by eapply smoved_trans]. destruct eidx; [done|].
      destruct eo as [j|]; cbn [place_from first_empty] in *.
      + destruct H3 as (k & e & -> & Hk & Hem). exists (S k), e. split; [lia|done].
      + unfold occupied in *. rewrite filter_cons_True by done. by f_equal. }
  cbn [leaf_insert_scan]. rewrite He. cbn [negb].
  destruct (Z.eqb_spec (fingerprint r) (Fingerprint key)) as [Hf|Hf].
  2:{ apply Hrest; [apply moved_same|]. intros <-. by rewrite Hfp in Hf. }
  destruct (sread_run w (kv_ptr r) _ sizeof_KVItem Ho Hh (length_enc_KVItem _)) as (w1 & Hr & Hm1).
  rewrite (bind_done _ _ _ _ _ Hr). cbn [fst snd andb]. rewrite dec_enc_KVItem by done.
  destruct (Z.eqb_spec (item_key kv0) key) as [Hk|Hne]; [|by apply Hrest]. left. rewrite Hk.
  pose proof Hh as (m & Hreg & _). rewrite length_enc_KVItem in Hreg.
  destruct (swrite_run w1 (kv_ptr r) (enc_KVItem (mkItem key value)) m) as (w2 & Hw & Hm2).
  { by eapply smoved_alone. }
  { by rewrite (smoved_cl _ _ _ _ Hm1), length_enc_KVItem. }
  rewrite (smoved_cl _ _ _ _ Hm1), (smoved_slabs _ _ _ _ Hm1) in Hm2.
  exists [], r, (filter (λ e, is_empty e = false) recs), [], its, kv0, w2. rewrite (bind_done _ _ _ _ _ Hw).
  do 5 (split; [done|]). by eapply smoved_trans.
Qed.

(** ** Inserting into a leaf *)

(** A thread that uses neither the cache nor the local locks. *)
Record plain w : Prop := mkPlain {
  pl_alone : alone w;
  pl_locks : local_lock_mgr_ w = None;
  pl_cache : faunus_cache_ (kv w) = None;
  pl_tag : in_width 64 (sherman_tag_ w)
}.

Lemma plain_moved c slabs w w' : smoved c slabs w w' → plain w → plain w'.
Proof.
  intros Hm [Ho Hl Hc Ht]. split.
  - by eapply smoved_alone.
  - by rewrite (sm_locks _ _ _ _ Hm).
  - by rewrite (smoved_cache _ _ _ _ Hm).
  - by rewrite (sm_tag _ _ _ _ Hm).
Qed.

Lemma leaf_lock_run fuel spins w lo hi a p items :
  plain w → leaf_at (scl w) lo hi a p items →
  let c' := write_at (scl w) a (le_bytes 8 (sherman_tag_ w)) in
  ∃ w', lock_and_read_page fuel spins a a kLeafPageSize w = Done (enc_LeafPage (set_llock (sherman_tag_ w) p)) w' ∧
        smoved c' (w_slabs (kv w)) w w' ∧ fits c' ∧ Forall2 (sitem_at c') (occupied (lrecords p)) items.
Proof.
  intros [Ho Hlm Hnc Htag] Hla c'. pose proof Hla as [Hsz Hf Ha Hst _].
  inversion Hst as [? ? ? ? ? Hh Hty Hc Hlk Hlmp Hlv Hlo Hhi Hit Hr Hnd|]; subst.
  pose proof (length_enc_LeafPage p Hsz Hty) as Hlen. unfold enc_LeafPage, enc_page in Hh, Hlen. rewrite Hlk in Hh.
  rewrite length_app, length_le_bytes in Hlen. symmetry in Hlen.
  destruct (lock_read_run fuel spins w a _ kLeafPageSize Ho Hlm Hf Ha Hh Hlen) as (w' & H & Hm & _ & Hf' & Hag).
  exists w'. split; [exact H|]. split; [exact Hm|]. split; [exact Hf'|].
  eapply leaf_items_agree; [exact Hla|exact Hag|]. intros r _ Hr'. apply apart_one. by symmetry.
Qed.

(** The page kept its records, or one record for a new key was filled. *)
Definition one_record (key : Z) (p : LeafPage) (items : list KVItem) (p' : LeafPage) : Prop :=
  p' = p ∨ (key ∉ map item_key items) ∧ lhdr p' = lhdr p ∧ length (occupied (lrecords p')) = S (length (occupied (lrecords p))).

(** The leaf [(a, p, items)] became [(a, p', items')], with [key] mapped to [value]; the
    blocks [live] of the index outside of it are as before. *)
Definition leaf_upserted w w' (lo hi : Z) (a : GlobalAddress) (p : LeafPage) (items : list KVItem) (key value : Z) (live : list (Z * Z)) : Prop :=
  ∃ p' items' W slabs', smoved (scl w') slabs' w w' ∧ fits (scl w') ∧ agree W (scl w) (scl w') ∧ Forall (apart W) live ∧
    sstored (scl w') 0 lo hi (SLeaf a p' items') ∧ supserted key value (SLeaf a p items) (SLeaf a p' items') ∧
    local_inv (slabs', scl w') (live ++ sblocks (SLeaf a p' items')) ∧
    (avail (w_slabs (kv w)) ≡ₚ avail slabs' ∨ ∃ r, avail (w_slabs (kv w)) ≡ₚ r :: avail slabs') ∧ one_record key p items p'.

(** The leaf has the key, or room for one record more without a split. *)
Definition shas_room (key : Z) (t : stree) : Prop :=
  match t with
  | SLeaf _ p items => key ∈ map item_key items ∨ (S (length (occupied (lrecords p))) < kLeafCardinality)%nat
  | SNode _ _ _ => False
  end.

(** A block of the free lists can be read. *)
Lemma allocated_readable (slabs : gmap Z (SlabAllocator Q)) c live x n :
  local_inv (slabs, c) live → fits c → (x, Z.of_nat n) ∈ avail slabs → readable c x n.
Proof.
  intros (Hok & _ & _ & Hg) Hf Hin. cbn [fst snd] in *. apply Forall_app in Hg as [Hg _]. rewrite list.Forall_forall in Hg.
  specialize (Hg _ Hin). assert (0 ≤ x) as H0 by (destruct Hg as [Hn Hg]; cbn [fst snd] in *; by apply (Hg x); lia).
  destruct (granted_readable c x (Z.of_nat n) Hok Hf H0 Hg) as (_ & _ & Hr). by rewrite Nat2Z.id in Hr.
Qed.

(** The key is there. *)
Lemma leaf_update_run w w1 w2 lo hi a p es1 e es2 i1 kv0 i2 value live :
  plain w → leaf_at (scl w) lo hi a p (i1 ++ kv0 :: i2) → occupied (lrecords p) = es1 ++ e :: es2 → length es1 = length i1 →
  local_inv (w_slabs (kv w), scl w) (live ++ sblocks (SLeaf a p (i1 ++ kv0 :: i2))) → item_ok (mkItem (item_key kv0) value) →
  smoved (write_at (scl w) a (le_bytes 8 (sherman_tag_ w))) (w_slabs (kv w)) w w1 →
  smoved (write_at (scl w1) (kv_ptr e) (enc_KVItem (mkItem (item_key kv0) value))) (w_slabs (kv w1)) w1 w2 →
  ∃ w', unlock_address a w2 = Done tt w' ∧ leaf_upserted w w' lo hi a p (i1 ++ kv0 :: i2) (item_key kv0) value live.
Proof.
  intros Hpl Hla Hocc Hlen Hinv Hok Hm1 Hm2. pose proof (pl_tag _ Hpl) as Htag. destruct (live_apart _ _ _ _ Hinv) as [_ Hap].
  rewrite (smoved_cl _ _ _ _ Hm1), (smoved_slabs _ _ _ _ Hm1) in Hm2. pose proof (smoved_trans _ _ _ _ _ _ _ Hm1 Hm2) as Hm.
  destruct (update_memory (scl w) lo hi a p es1 e es2 i1 kv0 i2 (mkItem (item_key kv0) value) (sherman_tag_ w) Hla Hocc Hlen eq_refl Hok Htag)
    as ([m Hreg] & Hf & Hag & Hst & Hup).
  pose proof (plain_moved _ _ _ _ Hm Hpl) as [Ho2 Hl2 _ _]. rewrite <-(smoved_cl _ _ _ _ Hm) in Hreg.
  destruct (unlock_run w2 a m Ho2 Hl2 Hreg) as (w' & Hrun & Hm3). exists w'. split; [done|].
  rewrite (smoved_cl _ _ _ _ Hm), (smoved_slabs _ _ _ _ Hm) in Hm3. pose proof (smoved_trans _ _ _ _ _ _ _ Hm Hm3) as Hmm.
  eexists p, _, _, (w_slabs (kv w)). rewrite (smoved_cl _ _ _ _ Hm3). split; [exact Hmm|]. split; [exact Hf|]. split; [exact Hag|].
  split; [|split; [exact Hst|split; [exact Hup|split; [|split; [by left|by left]]]]].
  - eapply Forall_impl; [|exact Hap]. intros r Hr. cbn [sblocks] in Hr. rewrite Hocc, map_app in Hr. cbn [map] in Hr.
    rewrite Forall_cons_iff, Forall_app, Forall_cons_iff in Hr. destruct Hr as (Hra & _ & Hre & _).
    constructor; [done|]. constructor; [done|]. constructor; [done|constructor].
  - by apply local_inv_write, local_inv_write, local_inv_write.
Qed.

(** The key is new: [w2] is the state after the scan. *)
Lemma leaf_new_run w w2 lo hi a p items i e0 key value live sl :
  plain w → leaf_at (scl w) lo hi a p items → lrecords p !! i = Some e0 → is_empty e0 = true → lo ≤ key < hi →
  (key ∉ map item_key items) → local_inv (w_slabs (kv w), scl w) (live ++ sblocks (SLeaf a p items)) → item_ok (mkItem key value) →
  w_slabs (kv w) !! Z.of_nat sizeof_KVItem = Some sl → q_contents (free_list_ sl) ≠ [] → Forall (λ r, r.1 ≠ Null) (avail (w_slabs (kv w))) →
  fits (write_at (scl w) a (le_bytes 8 (sherman_tag_ w))) →
  smoved (write_at (scl w) a (le_bytes 8 (sherman_tag_ w))) (w_slabs (kv w)) w w2 →
  ∃ x w3 w4 w', salloc sizeof_KVItem w2 = Done x w3 ∧ swrite x (enc_KVItem (mkItem key value)) w3 = Done true w4 ∧
    write_page_and_unlock (enc_LeafEntry (mkLeafEntry (Fingerprint key) x)) (ga_add a (leaf_record_offset i)) a w4 = Done tt w' ∧
    leaf_upserted w w' lo hi a p items key value live.
Proof.
  intros Hpl Hla He0 Hem Hkey Hni Hinv Hok Hsl Hne Hnn Hf1 Hm2. pose proof (pl_tag _ Hpl) as Htag. destruct (live_apart _ _ _ _ Hinv) as [_ Hap].
  set (c1 := write_at (scl w) a (le_bytes 8 (sherman_tag_ w))) in *.
  pose proof (smoved_cl _ _ _ _ Hm2) as Hc2. pose proof (smoved_slabs _ _ _ _ Hm2) as Hs2.
  destruct (allocate_run (kv w2) sizeof_KVItem sl (live ++ sblocks (SLeaf a p items))) as (x & slabs' & Hal & Hinv' & _ & Hx & _ & Hrd & _ & Hav).
  { by rewrite Hs2. }
  { done. }
  { rewrite Hs2. change (cl (kv w2)) with (scl w2). rewrite Hc2. by apply local_inv_write. }
  { change (cl (kv w2)) with (scl w2). by rewrite Hc2. }
  rewrite Hs2 in Hav. change (cl (kv w2)) with (scl w2) in *. rewrite Hc2 in *.
  assert (readable (scl w) x sizeof_KVItem) as Hrd0.
  { eapply allocated_readable; [exact Hinv|by eapply la_fits|]. rewrite Hav. apply list_elem_of_here. }
  destruct (on_kv_moved (allocate sizeof_KVItem) w2 x _ c1 slabs' Hal) as (w3 & Hrun3 & Hm3); [done|].
  assert (x ≠ Null) as Hnull.
  { rewrite Hav in Hnn. by apply Forall_cons_iff in Hnn as [Hxn _]. }
  pose proof Hinv' as (_ & _ & Hd & _). cbn [fst] in Hd. apply pairwise_app in Hd as (_ & [Hdx _] & _).
  apply Forall_app in Hdx as [Hdl Hdx].
  destruct (new_memory (scl w) lo hi a p items i e0 x (mkItem key value) (sherman_tag_ w)) as
    ([m1 Hr1] & [m2 Hr2] & [m3 Hr3] & Hf4 & Hag & items' & Hst & Hup & Hbl); try done.
  fold c1 in Hr1, Hr2, Hr3, Hf4, Hag, Hst. cbn [item_key item_value] in *.
  set (e := mkLeafEntry (Fingerprint key) x) in *. set (c2 := write_at c1 x (enc_KVItem (mkItem key value))) in *.
  set (c3 := write_at c2 (ga_add a (leaf_record_offset i)) (enc_LeafEntry e)) in *.
  pose proof (smoved_trans _ _ _ _ _ _ _ Hm2 Hm3) as Hm23. pose proof (plain_moved _ _ _ _ Hm23 Hpl) as [Ho3 Hl3 _ _].
  destruct (swrite_run w3 x (enc_KVItem (mkItem key value)) m1 Ho3) as (w4 & Hrun4 & Hm4).
  { by rewrite (smoved_cl _ _ _ _ Hm3), length_enc_KVItem. }
  rewrite (smoved_cl _ _ _ _ Hm3), (smoved_slabs _ _ _ _ Hm3) in Hm4. fold c2 in Hm4.
  pose proof (smoved_trans _ _ _ _ _ _ _ Hm23 Hm4) as Hm24. pose proof (plain_moved _ _ _ _ Hm24 Hpl) as [Ho4 Hl4 _ _].
  destruct (write_unlock_run w4 (ga_add a (leaf_record_offset i)) (enc_LeafEntry e) a m2 m3 Ho4 Hl4) as (w' & Hrun5 & Hm5).
  { by rewrite (smoved_cl _ _ _ _ Hm4). }
  { by rewrite (smoved_cl _ _ _ _ Hm4). }
  rewrite (smoved_cl _ _ _ _ Hm4), (smoved_slabs _ _ _ _ Hm4) in Hm5. fold c3 in Hm5.
  pose proof (smoved_trans _ _ _ _ _ _ _ Hm24 Hm5) as Hm.
  exists x, w3, w4, w'. do 3 (split; [done|]). eexists _, _, _, slabs'. rewrite (smoved_cl _ _ _ _ Hm5).
  split; [exact Hm|]. split; [exact Hf4|]. split; [exact Hag|]. split; [|split; [exact Hst|split; [exact Hup|split; [|split]]]].
  - apply Forall_forall. intros r Hr. rewrite Forall_forall in Hap, Hdl. specialize (Hap r Hr). specialize (Hdl r Hr).
    cbn [sblocks] in Hap. apply Forall_cons_iff in Hap as [Hra _].
    constructor; [done|]. constructor; [by symmetry|]. constructor; [done|]. constructor; [done|constructor].
  - apply local_inv_write, local_inv_write, local_inv_write. eapply local_inv_perm; [exact Hinv'|]. rewrite Hbl. apply Permutation_middle.
  - right. by eexists.
  - right. split; [done|]. split; [done|]. cbn [lrecords set_lrec].
    assert (is_empty e = false) as Hemp by (by apply Z.eqb_neq).
    destruct (occupied_insert _ _ _ _ He0 Hem Hemp) as [-> ->]. rewrite !length_app. cbn [length]. lia.
Qed.

Lemma empty_index_found p eo : lpage_typed p → (length (occupied (lrecords p)) < kLeafCardinality)%nat → place_from (lrecords p) 0 None eo →
  ∃ i e0, eo = Some i ∧ lrecords p !! i = Some e0 ∧ is_empty e0 = true.
Proof.
  intros (_ & _ & _ & _ & Hn & _) Hlt Hp. cbn [place_from] in Hp. destruct eo as [j|]; cbn [first_empty] in Hp.
  - destruct Hp as (k & e & -> & Hk). by exists k, e.
  - rewrite Hp in Hlt. lia.
Qed.

Lemma insert_to_leaf_run fuel spins depth n w lo hi a p items key value root live sl :
  plain w → leaf_at (scl w) lo hi a p items → lo ≤ key < hi → item_ok (mkItem key value) →
  local_inv (w_slabs (kv w), scl w) (live ++ sblocks (SLeaf a p items)) → shas_room key (SLeaf a p items) →
  w_slabs (kv w) !! Z.of_nat sizeof_KVItem = Some sl → q_contents (free_list_ sl) ≠ [] → Forall (λ r, r.1 ≠ Null) (avail (w_slabs (kv w))) →
  ∃ w', insert_to_leaf fuel spins depth (S n) a key value root 0 false w = Done true w' ∧ leaf_upserted w w' lo hi a p items key value live.
Proof.
  intros Hpl Hla Hkey Hok Hinv Hroom Hsl Hne Hnn. pose proof (pl_tag _ Hpl) as Htag. pose proof Hla as [Hsz _ _ Hst _].
  destruct (leaf_lock_run fuel spins w lo hi a p items Hpl Hla) as (w1 & Hrun1 & Hm1 & Hf1 & Hits).
  pose proof (plain_moved _ _ _ _ Hm1 Hpl) as Hpl1. rewrite <-(smoved_cl _ _ _ _ Hm1) in Hits.
  inversion Hst as [? ? ? ? ? Hh Hty Hc Hlk Hlm Hlv Hlo Hhi _ _ _|]; subst.
  cbn [insert_to_leaf]. rewrite (bind_done _ _ _ _ _ Hrun1), (proj1 (dec_enc_LeafPage _ Hsz (set_llock_typed _ _ Htag Hty))).
  cbn [lhdr lrecords set_llock]. rewrite Hlv. change (0 =? 0) with true. cbn [assert_]. erewrite bind_done by reflexivity.
  change (lcheck_consistent (set_llock (sherman_tag_ w) p)) with (lcheck_consistent p). rewrite Hc. cbn [assert_ andb]. erewrite bind_done by reflexivity.
  rewrite (proj2 (Z.leb_gt _ _)) by lia. rewrite (proj2 (Z.leb_le _ _)) by lia. cbn [assert_]. erewrite bind_done by reflexivity.
  destruct (leaf_insert_scan_run key value (lrecords p) items w1 0 0 None (pl_alone _ Hpl1) Hits)
    as [(es1 & e & es2 & i1 & i2 & kv0 & w2 & Hocc & -> & Hlen & <- & Hrun2 & Hm2)|(eo & w2 & Hni & Hrun2 & Hplace & Hm2)].
  - rewrite (bind_done _ _ _ _ _ Hrun2). cbv iota.
    destruct (leaf_update_run w w1 w2 _ _ a p es1 e es2 i1 kv0 i2 value live Hpl Hla Hocc Hlen Hinv Hok Hm1 Hm2) as (w' & Hrun3 & Hup).
    exists w'. split; [|done]. by rewrite (bind_done _ _ _ _ _ Hrun3).
  - rewrite (bind_done _ _ _ _ _ Hrun2). cbv iota beta. destruct Hroom as [Hin|Hroom]; [done|].
    destruct (empty_index_found p eo Hty ltac:(lia) Hplace) as (i & e0 & -> & He0 & Hem).
    rewrite (smoved_cl _ _ _ _ Hm1), (smoved_slabs _ _ _ _ Hm1) in Hm2.
    destruct (leaf_new_run w w2 _ _ a p items i e0 key value live sl Hpl Hla He0 Hem Hkey Hni Hinv Hok Hsl Hne Hnn Hf1
                (smoved_trans _ _ _ _ _ _ _ Hm1 Hm2)) as (x & w3 & w4 & w' & H3 & H4 & H5 & Hup).
    exists w'. split; [|done]. rewrite Z.add_0_l, !(proj2 (Z.eqb_neq _ _)) by lia. cbn [negb assert_]. erewrite bind_done by reflexivity.
    rewrite (bind_done _ _ _ _ _ H3), (bind_done _ _ _ _ _ H4). cbv zeta. cbn [negb].
    by rewrite (bind_done _ _ _ _ _ H5).
Qed.

(** ** The descent *)

Lemma search_internal_plain fuel w a p ts l lo hi key res x :
  sizes_ok → kInternalPageSize = kLeafPageSize → plain w → sstored (scl w) (S l) lo hi (SNode a p ts) → lo ≤ key < hi →
  (S l < kMaxLevelOfTree)%nat → next_level key p = Some x →
  ∃ w', search_node fuel a key res false w = Done (true, mkSR false (Z.of_nat (S l)) (slibing res) x (sr_val res)) w' ∧
        smoved (scl w) (w_slabs (kv w)) w w' ∧ path_stack w' = <[S l := a]> (path_stack w).
Proof.
  intros Hsz Heq [Ho _ Hn _] Hst Hkey Hl Hx.
  destruct (search_internal_run fuel w (scontents (SNode a p ts)) a p ts l lo hi key res x Hsz Heq Ho Hst Hkey Hl) as (w' & H & Hq & _ & Hn' & Hpath).
  { by rewrite Hn. }
  { done. }
  { done. }
  exists w'. split; [done|]. split; [|done]. apply squiet_moved; [done|]. by rewrite Hn, Hn'.
Qed.

(** The statistics of a retry. *)
Lemma retry_run rc w : tracked (mgr (w_net (kv w))) = true →
  ∃ w', (if 0 <? rc then on_kv (stats record_retry) else mret tt) w = Done tt w' ∧ smoved (scl w) (w_slabs (kv w)) w w' ∧
        path_stack w' = path_stack w.
Proof.
  intros Ht. destruct (0 <? rc); [|exists w; split; [done|split; [apply moved_same|done]]].
  destruct (stats_run record_retry (kv w) Ht) as (k & Hk & Hq).
  destruct (on_kv_moved (stats record_retry) w tt k (scl w) (w_slabs (kv w)) Hk) as (w' & H & Hm); [destruct Hq; by split|].
  exists w'. split; [done|]. split; [done|exact (on_kv_path _ _ _ _ H)].
Qed.

(** The pages of the levels 1 to [l] on the path of [key]. *)
Definition path_of (key : Z) (l : nat) (t : stree) w w1 : Prop :=
  (0 < l)%nat → length (path_stack w) = kMaxLevelOfTree →
  ∀ i, path_stack w1 !! i = if decide (0 < i ≤ l)%nat then saddr <$> sdescend (l - i) key t else path_stack w !! i.

(** The loop goes down to the leaf of the key and inserts there. *)
Lemma insert_loop_run fuel spins depth key value root : ∀ l t lo hi w rc r pf,
  sizes_ok → kInternalPageSize = kLeafPageSize → plain w → tracked (mgr (w_net (kv w))) = true →
  sstored (scl w) l lo hi t → lo ≤ key < hi → (l < kMaxLevelOfTree)%nat → slibing r = Null →
  rc + Z.of_nat l < MAX_RETRIES → (l < Pos.to_nat pf)%nat →
  ∃ a p items w1, sdescend l key t = Some (SLeaf a p items) ∧ smoved (scl w) (w_slabs (kv w)) w w1 ∧ path_of key l t w w1 ∧
    ∀ w2, insert_to_leaf fuel spins depth depth a key value root 0 false w1 = Done true w2 →
          loop pf (insert_step fuel spins depth key value root) (rc, saddr t, r) w = Done (inr true) w2.
Proof.
  induction l as [|l IH]; intros t lo hi w rc r pf Hsz Heq Hpl Htr Hst Hkey Hl Hsl Hrc Hpf;
    (destruct (retry_run rc w Htr) as (w0 & H0 & Hm0 & Hpa0)); pose proof (plain_moved _ _ _ _ Hm0 Hpl) as Hpl0;
    rewrite <-(smoved_cl _ _ _ _ Hm0) in Hst.
  - destruct t as [a p items|]; [|inversion Hst].
    destruct (search_leaf_run fuel w0 a p items lo hi key r Hsz (pl_alone _ Hpl0) Hst Hkey) as (w1 & H1 & Hq1 & Hc1).
    pose proof (squiet_moved _ _ Hq1 Hc1) as Hm1. rewrite (smoved_cl _ _ _ _ Hm0), (smoved_slabs _ _ _ _ Hm0) in Hm1.
    exists a, p, items, w1. split; [done|]. split; [by eapply smoved_trans|]. split; [intros ?; lia|]. intros w2 H2. apply loop_done.
    unfold insert_step. cbn [saddr]. rewrite (bind_done _ _ _ _ _ H0). rewrite (proj2 (Z.ltb_ge _ _)) by lia.
    rewrite (bind_done _ _ _ _ _ H1). cbn [fst snd negb sr_is_leaf]. by rewrite (bind_done _ _ _ _ _ H2).
  - destruct t as [|a p ts]; [inversion Hst|]. pose proof (sstored_kids _ _ _ _ _ _ _ Hst) as Hlen.
    pose proof (rank_le (iseps p) key). destruct (lookup_lt_is_Some_2 ts (rank (iseps p) key)) as [t Ht]; [lia|].
    destruct (snode_lookup _ _ _ _ _ _ _ _ _ Hst Hkey Ht) as (_ & b & b' & _ & _ & Hst' & Hb).
    assert (next_level key p = Some (saddr t)) as Hnx.
    { inversion Hst as [|? ? ? ? ? ? _ _ Hok _ _ _ _ _ _ _ Hk _]; subst. rewrite next_level_route by done.
      unfold route. by rewrite Hk, list_lookup_fmap, Ht. }
    destruct (search_internal_plain fuel w0 a p ts l lo hi key r _ Hsz Heq Hpl0 Hst Hkey Hl Hnx) as (w1 & H1 & Hm1 & Hpa1). rewrite Hpa0 in Hpa1.
    pose proof (smoved_cl _ _ _ _ Hm1) as Hc1. rewrite <-Hc1 in Hst'.
    rewrite (smoved_cl _ _ _ _ Hm0), (smoved_slabs _ _ _ _ Hm0) in Hm1. pose proof (smoved_trans _ _ _ _ _ _ _ Hm0 Hm1) as Hm.
    set (r1 := mkSR false (Z.of_nat (S l)) (slibing r) (saddr t) (sr_val r)) in *.
    assert (insert_step fuel spins depth key value root (rc, a, r) w =
      (if negb (Z.of_nat (S l) =? 1) then mret (inl (rc + 1, saddr t, r1))
       else _ ← insert_to_leaf fuel spins depth depth (saddr t) key value root 0 false; mret (inr true)) w1) as Hstep.
    { unfold insert_step. rewrite (bind_done _ _ _ _ _ H0). rewrite (proj2 (Z.ltb_ge _ _)) by lia.
      rewrite (bind_done _ _ _ _ _ H1). cbn [fst snd negb r1 sr_is_leaf sr_level slibing sr_next_level].
      rewrite (proj2 (Z.eqb_neq (Z.of_nat (S l)) 0)) by lia. cbn [negb assert_]. erewrite bind_done by reflexivity. by rewrite Hsl. }
    cbn [sdescend saddr]. rewrite Ht. destruct l as [|l].
    + destruct t as [a1 p1 items|]; [|inversion Hst']. exists a1, p1, items, w1. split; [done|]. split; [done|]. split.
      { intros _ Hlp i. rewrite Hpa1. case_decide; [assert (i = 1%nat) as -> by lia; apply list_lookup_insert_eq; lia|]. apply list_lookup_insert_ne. lia. }
      intros w2 H2. apply loop_done. rewrite Hstep. change (negb (Z.of_nat 1 =? 1)) with false. cbv iota. cbn [saddr]. by rewrite (bind_done _ _ _ _ _ H2).
    + rewrite (proj2 (Z.eqb_neq _ _)) in Hstep by lia. cbn [negb] in Hstep.
      destruct (IH t b b' w1 (rc + 1) r1 (Pos.pred pf)) as (a1 & p1 & items & w2 & Hd & Hm2 & Hpa2 & Hrun); try done; try lia.
      * by eapply plain_moved.
      * by rewrite (smoved_tracked _ _ _ _ Hm).
      * rewrite Hc1, (smoved_slabs _ _ _ _ Hm) in Hm2. rewrite (smoved_cl _ _ _ _ Hm0) in Hm2.
        exists a1, p1, items, w2. split; [done|]. split; [by eapply smoved_trans|]. split.
        { intros _ Hlp i. rewrite Hpa2, Hpa1 by (rewrite ?Hpa1, ?length_insert; lia). destruct (decide (i = S (S l))) as [->|Hi].
          - rewrite decide_False, decide_True, Nat.sub_diag by lia. apply list_lookup_insert_eq. lia.
          - rewrite list_lookup_insert_ne by done. repeat case_decide; try lia; [|done]. replace (S (S l) - i)%nat with (S (S l - i)) by lia. cbn [sdescend]. by rewrite Ht. }
        intros w3 H3.
        rewrite loop_unroll, Hstep. unfold mret, M_ret. rewrite decide_False by (intros ->; simpl in Hpf; lia). by apply Hrun.
Qed.

(** ** insert *)

(** The invariant of an index with its allocator: no block is used twice, and the
    allocator does not have the block at address [Null], which a record could not
    point to. *)
Record sindex_inv w (l : nat) (t : stree) : Prop := mkSindexInv {
  siv_index : sindex_ok w l t;
  siv_plain : plain w;
  siv_fits : fits (scl w);
  siv_root : ga_ok (root_offset_pointer_ (kv w));
  siv_alloc : local_inv (w_slabs (kv w), scl w) ((root_offset_pointer_ (kv w), 8) :: sblocks t);
  siv_null : Forall (λ r, r.1 ≠ Null) (avail (w_slabs (kv w)))
}.

Lemma sindex_inv_same w w' l t : smoved (scl w) (w_slabs (kv w)) w w' → sindex_inv w l t → sindex_inv w' l t.
Proof.
  intros Hm [[Hsz Ho Hr Hg Hst Hl Hca] Hpl Hf Hro Hal Hnu].
  pose proof (smoved_cl _ _ _ _ Hm) as Hc. pose proof (smoved_slabs _ _ _ _ Hm) as Hs. pose proof (smoved_root _ _ _ _ Hm) as Hrt.
  split; rewrite ?Hc, ?Hs, ?Hrt; try done; [|by eapply plain_moved].
  split; rewrite ?Hc, ?Hrt, ?(smoved_cache _ _ _ _ Hm); try done. by eapply smoved_alone.
Qed.
End runs.

(** ** A concrete index without cache and local locks *)

Section demo.
#[local] Existing Instances demo_cfg small_cfg.
Abbreviation SW := (SWorld (Q := fifo) (C := page_cache)).

(** The invariant for a tree of height one as a computation. *)
Definition sinv_check (w : SW) (t : stree) : bool :=
  match others (w_net (kv w)), local_lock_mgr_ w, faunus_cache_ (kv w) with [], None, None => true | _, _, _ => false end &&
  bool_decide (in_width 64 (sherman_tag_ w)) &&
  holds_check (scl w) (root_offset_pointer_ (kv w)) 8 (le_bytes 8 (saddr t)) && bool_decide (in_width 50 (saddr t)) &&
  sstored_check (scl w) 1 key_min key_max t && cluster_check (scl w) && bool_decide (in_width 50 (root_offset_pointer_ (kv w))) &&
  bool_decide (map_Forall (λ sz sl, slab_size_ sl = sz ∧ 0 < sz) (w_slabs (kv w))) &&
  bool_decide (Forall (λ r, r.1 ≠ Null) (avail (w_slabs (kv w)))) &&
  (let blocks := avail (w_slabs (kv w)) ++ (root_offset_pointer_ (kv w), 8) :: sblocks t in
   bool_decide (pairwise disjoint_range blocks) && forallb (granted_check (scl w)) blocks).

Lemma sinv_check_sound w t : sinv_check w t = true → sindex_inv w 1 t.
Proof.
  unfold sinv_check. rewrite !andb_true_iff, !bool_decide_eq_true, forallb_forall.
  intros (((((((((Hp & Htag) & Hr) & Hg) & Ht) & Hcl) & Hro) & Hsz) & Hnu) & Hd & Hgr). apply cluster_check_sound in Hcl as [Hcok Hfit].
  assert (plain w) as Hpl.
  { destruct (others (w_net (kv w))) eqn:Eo; [|done]. destruct (local_lock_mgr_ w) eqn:El; [done|].
    destruct (faunus_cache_ (kv w)) eqn:Ec; [done|]. by split. }
  split; try done.
  - split; [apply small_sizes|apply Hpl|by apply holds_check_holds|done|by apply sstored_check_sound|unfold kMaxLevelOfTree; lia|].
    by rewrite (pl_cache _ Hpl).
  - split; [done|]. split; [intros sz sl Hsl; by apply (Hsz sz sl)|]. split; [done|].
    apply list.Forall_forall. intros r Hin. apply granted_check_sound, Hgr. by apply list_elem_of_In.
Qed.

#[export] Instance shas_room_dec key t : Decision (shas_room key t).
Proof. destruct t; simpl; apply _. Defined.
End demo.
