(* ===== verification/ShermanLock.v ===== *)
(** * The remote lock of a Sherman page (src/kv_index/sherman_index.cpp)

    What [try_lock_address] does for every value the lock word can have, what the
    tags of instances without a local lock manager do to it, and what happens when
    a thread queues up for the local lock between the two accesses that
    [write_page_and_unlock] makes to it. *)

From S2P Require Import Prelude GlobalAddress RdmaSim ThreadStats Queue MemoryServer Slab RdmaManager LocalLock KVBlock FaunusNode FaunusIndex FaunusTree FaunusRead FaunusFrame FaunusInsert FaunusUpsert ShermanNode ShermanIndex ShermanRead ShermanFrame ShermanInsert.

Section lock.
Context {cfg : FaunusConfig} {scfg : ShermanConfig}.
Context {Q : Type → Type} `{!ConcurrentQueue Q}.
Context {C : Type}.
Abbreviation SW := (SWorld (Q := Q) (C := C)).
Implicit Types w : SW.

Lemma cas_verb_fail off e d v m :
  mem_ok m → 0 ≤ off → off + 8 ≤ memory_size m → in_width 64 v → v ≠ e → slice (Z.to_nat off) 8 m = le_bytes 8 v →
  rdma_verb (mkOp off (op_cas e d)) m = Done (true, out_expected v) m.
Proof.
  intros [_ Hm] H0 Hr Hv Hne Hs. unfold rdma_verb, rdma_cas, mbind, M_bind, get. cbn [addr op].
  rewrite wrap_small by (unfold in_width; lia). rewrite (proj2 (Z.ltb_ge _ _)) by lia.
  assert (load64 off m = v) as ->.
  { unfold load64. rewrite Hs, le_val_le_bytes. apply Z.mod_small, Hv. }
  by rewrite (proj2 (Z.eqb_neq _ _) Hne).
Qed.

Lemma ops_cas_fail (c : Cluster Q) a e d v :
  holds c a (le_bytes 8 v) → in_width 64 v → v ≠ e →
  ops_in_order [mkOp a (op_cas e d)] c = Done (true, [out_expected v]) c.
Proof.
  intros (m & (s & Hs & Hm & Hok & H0 & Hr) & Hsl) Hv Hne. rewrite length_le_bytes in Hr, Hsl. cbn [ops_in_order addr op].
  rewrite Hs, Hm, (cas_verb_fail _ e d v m) by (done || lia). by rewrite <-Hm, put_region_same by done.
Qed.

(** An operation of the base class with its effect on the memories. *)
Lemma on_kv_perform w o out c' :
  alone w → ops_in_order [o] (scl w) = Done (true, [out]) c' →
  ∃ w', on_kv (perform o) w = Done (true, out) w' ∧ scl w' = c' ∧ alone w' ∧ local_lock_mgr_ w' = local_lock_mgr_ w ∧
        sherman_tag_ w' = sherman_tag_ w.
Proof.
  intros Ho H. destruct (perform_run (kv w) o out c' Ho H) as (k & Hk & Hq). unfold on_kv, zoom. rewrite Hk.
  eexists. split; [reflexivity|]. split; [exact (q_cluster _ _ Hq)|]. split; [|done]. unfold alone. cbn.
  rewrite (q_others _ _ Hq). exact Ho.
Qed.

Lemma lock_step_free w a rc pre :
  alone w → holds (scl w) a (le_bytes 8 0) →
  ∃ w', lock_step a (sherman_tag_ w) (rc, pre) w = Done (inr true) w' ∧ scl w' = write_at (scl w) a (le_bytes 8 (sherman_tag_ w)).
Proof.
  intros Ho Hh. destruct (on_kv_perform w (mkOp a (op_cas 0 (sherman_tag_ w))) (out_expected 0)
    (write_at (scl w) a (le_bytes 8 (sherman_tag_ w))) Ho) as (w' & H1 & H2 & _).
  { by rewrite (ops_cas _ _ 0). }
  exists w'. split; [|done]. unfold lock_step. by rewrite (bind_done _ _ _ _ _ H1).
Qed.

Lemma lock_step_taken w a rc pre v :
  alone w → holds (scl w) a (le_bytes 8 v) → in_width 64 v → v ≠ 0 →
  ∃ w', lock_step a (sherman_tag_ w) (rc, pre) w =
          (if Z.shiftr v 32 =? Z.shiftr (sherman_tag_ w) 32 then Done (inr true) w'
           else if 1000000 <? u64 (rc + 1) then Fault AssertFailed w'
           else Done (inl (if negb (v =? pre) then (0, v) else (u64 (rc + 1), pre))) w') ∧
        scl w' = scl w ∧ alone w' ∧ sherman_tag_ w' = sherman_tag_ w.
Proof.
  intros Ho Hh Hv Hne. destruct (on_kv_perform w (mkOp a (op_cas 0 (sherman_tag_ w))) (out_expected v) (scl w) Ho) as (w' & H1 & H2 & H3 & _ & H4).
  { by apply ops_cas_fail. }
  exists w'. split; [|done]. unfold lock_step. rewrite (bind_done _ _ _ _ _ H1). cbn [fst snd assert_ expected_after].
  erewrite bind_done by reflexivity. rewrite (proj2 (Z.eqb_neq _ _) Hne). cbn [negb].
  destruct (Z.shiftr v 32 =? Z.shiftr (sherman_tag_ w) 32); [done|]. cbn [fst snd]. by destruct (1000000 <? u64 (rc + 1)).
Qed.

(** Waiting for a lock of another server: [n] more rounds are tolerated. *)
Lemma lock_wait w a v : ∀ n rc w1 k,
  holds (scl w) a (le_bytes 8 v) → in_width 64 v → v ≠ 0 → Z.shiftr v 32 ≠ Z.shiftr (sherman_tag_ w) 32 →
  scl w1 = scl w → alone w1 → sherman_tag_ w1 = sherman_tag_ w → 0 ≤ rc → rc + Z.of_nat n = 1000000 → (n < k)%nat →
  ∃ w', loop_nat k (lock_step a (sherman_tag_ w)) (rc, v) w1 = Fault AssertFailed w' ∧ scl w' = scl w.
Proof.
  induction n as [|n IH]; intros rc w1 k Hh Hv Hne Hpre Hc Ho Ht Hrc Hn Hk; (destruct k as [|k]; [lia|]); cbn [loop_nat].
  - destruct (lock_step_taken w1 a rc v v) as (w2 & H & Hc2 & _); [done|by rewrite Hc|done|done|].
    rewrite Ht, (proj2 (Z.eqb_neq _ _) Hpre), wrap_small in H by (unfold in_width; lia). rewrite (proj2 (Z.ltb_lt _ _)) in H by lia.
    exists w2. rewrite (bind_fault _ _ _ _ _ H). split; [done|congruence].
  - destruct (lock_step_taken w1 a rc v v) as (w2 & H & Hc2 & Ho2 & Ht2); [done|by rewrite Hc|done|done|].
    rewrite Ht, (proj2 (Z.eqb_neq _ _) Hpre), wrap_small in H by (unfold in_width; lia). rewrite (proj2 (Z.ltb_ge _ _)) in H by lia.
    rewrite Z.eqb_refl in H. cbn [negb] in H. rewrite (bind_done _ _ _ _ _ H).
    apply IH; try done; try congruence; lia.
Qed.

(** C23: [try_lock_address] without a local lock manager, for every value [v] of
    the lock word: a free lock is taken by storing the tag; a lock whose owner's tag
    has the same upper half counts as the caller's own and is left as it is; a lock
    of another server that nobody releases fails the assertion after at most 1000002
    attempts, and the memory is unchanged. *)
Theorem sherman_lock_outcomes fuel spins w a v :
  alone w → local_lock_mgr_ w = None → holds (scl w) a (le_bytes 8 v) → in_width 64 v → 1000002 < Z.pos fuel →
  ∃ w', if v =? 0 then try_lock_address fuel spins a w = Done true w' ∧ scl w' = write_at (scl w) a (le_bytes 8 (sherman_tag_ w))
        else if Z.shiftr v 32 =? Z.shiftr (sherman_tag_ w) 32 then try_lock_address fuel spins a w = Done true w' ∧ scl w' = scl w
        else try_lock_address fuel spins a w = Fault AssertFailed w' ∧ scl w' = scl w.
Proof.
  intros Ho Hl Hh Hv Hf. unfold try_lock_address. erewrite bind_done by reflexivity. rewrite Hl.
  erewrite bind_done by reflexivity. destruct (Z.eqb_spec v 0) as [->|Hne].
  { destruct (lock_step_free w a 0 0 Ho Hh) as (w' & H & Hc). exists w'. by erewrite bind_done by (by apply loop_done). }
  destruct (lock_step_taken w a 0 0 v Ho Hh Hv Hne) as (w1 & H & Hc & Ho1 & Ht1).
  destruct (Z.eqb_spec (Z.shiftr v 32) (Z.shiftr (sherman_tag_ w) 32)) as [Hpre|Hpre].
  { exists w1. by erewrite bind_done by (by apply loop_done). }
  change (u64 (0 + 1)) with 1 in H. change (1000000 <? 1) with false in H. cbv iota in H.
  rewrite (proj2 (Z.eqb_neq _ _) Hne) in H. cbn [negb] in H.
  destruct (lock_wait w a v (Z.to_nat 1000000) 0 w1 (Pos.to_nat fuel - 1) Hh Hv Hne Hpre Hc Ho1 Ht1) as (w2 & H2 & Hc2); [lia|lia|lia|].
  exists w2. split; [|done]. erewrite bind_fault; [done|]. rewrite loop_loop_nat.
  replace (Pos.to_nat fuel) with (S (Pos.to_nat fuel - 1)) by lia. cbn [loop_nat]. by rewrite (bind_done _ _ _ _ _ H).
Qed.

(** Instances without a local lock manager use a hash of their address as the
    tag, and the check for the caller's own lock looks at the upper half only: when
    the hashes of two instances agree there (objects in the same 4 GiB, with a hash
    that is the address), the second one "acquires" the lock the first one holds. *)
Theorem fallback_lock_not_exclusive fuel spins w a h1 h2 id1 id2 :
  alone w → local_lock_mgr_ w = None → in_width 64 h1 → in_width 64 h2 → Z.shiftr h1 32 = Z.shiftr h2 32 →
  holds (scl w) a (le_bytes 8 (rdma_tag None h1 id1)) → sherman_tag_ w = rdma_tag None h2 id2 →
  ∃ w', try_lock_address fuel spins a w = Done true w' ∧ scl w' = scl w.
Proof.
  intros Ho Hl Hh1 Hh2 Heq Hh Ht.
  assert (∀ h, in_width 64 h → rdma_tag None h 0 ≠ 0 ∧ in_width 64 (rdma_tag None h 0) ∧ Z.shiftr (rdma_tag None h 0) 32 = Z.shiftr h 32) as Htag.
  { intros h Hw. unfold rdma_tag. change 0xFFFFFFFFFFFFFFFF with (Z.ones 64). rewrite Z.land_ones by lia.
    rewrite Z.mod_small by exact Hw. cbv zeta. destruct (Z.eqb_spec h 0) as [->|]; [|done]. done. }
  change (rdma_tag None h1 id1) with (rdma_tag None h1 0) in Hh. change (rdma_tag None h2 id2) with (rdma_tag None h2 0) in Ht.
  destruct (Htag h1 Hh1) as (H1 & H2 & H3), (Htag h2 Hh2) as (_ & _ & H4).
  destruct (lock_step_taken w a 0 0 _ Ho Hh H2 H1) as (w1 & H & Hc & _).
  rewrite Ht, H3, H4, Heq, Z.eqb_refl in H. exists w1. split; [|done].
  unfold try_lock_address. erewrite bind_done by reflexivity. rewrite Hl. erewrite bind_done by reflexivity.
  rewrite Ht. by erewrite bind_done by (by apply loop_done).
Qed.
(** ** A thread that queues up while the page is unlocked *)

(** What a second thread of the server does when it queues up for the lock of [a]: the
    first access of its [acquire]; [acquire_rest] is what is left of it. *)
Definition queue_up (a : GlobalAddress) (lm : LocalLockManager) : LocalLockManager :=
  match on_node (get_lock_index a) take_ticket lm with Done _ lm' | Fault _ lm' => lm' end.
Definition acquire_rest (spins : nat) (a : GlobalAddress) (my_ticket : Z) : M LocalLockManager bool :=
  _ ← spin spins (get_lock_index a) my_ticket; on_node (get_lock_index a) (consume_flag my_ticket).

Lemma acquire_split spins a : acquire spins a = (t ← on_node (get_lock_index a) take_ticket; acquire_rest spins a t).
Proof. done. Qed.

(** C40: [write_page_and_unlock] looks for waiters before it releases the remote lock,
    and again when it releases the local one.  Take any thread that holds the local lock
    of [a] with nobody waiting behind it (and fewer than eight hand-overs in a row), and
    let a second thread of its server queue up in between.  Then the page is written and
    the lock word of [a] becomes 0, yet the [acquire] of the second thread returns at its
    next poll and reports that the lock was handed over to it, so this thread goes on to
    the page without the remote lock; and any other server takes the lock of the page at
    its first attempt, with whatever tag.  Both then work on the page. *)
Theorem unlock_race_breaks_lock fuel spins w lm n S page pa a m m' :
  alone w → local_lock_mgr_ w = Some lm → local_others w = [id; queue_up a] →
  0 ≤ get_lock_index a < num_ms lm * kNumOfLock → local_locks_ lm !! get_lock_index a = Some n →
  word S (S + 1) n → S + 2 < 2 ^ 32 → handover_count n < kMaxHandOverTime →
  region_at (scl w) pa (length page) m → region_at (write_at (scl w) pa page) a 8 m' →
  ∃ w' lm' lm'', write_page_and_unlock page pa a w = Done tt w' ∧ local_lock_mgr_ w' = Some lm' ∧
    scl w' = write_at (write_at (scl w) pa page) a (le_bytes 8 0) ∧ holds (scl w') a (le_bytes 8 0) ∧
    on_node (get_lock_index a) take_ticket lm = Done (S + 1) (queue_up a lm) ∧ acquire_rest spins a (S + 1) lm' = Done true lm'' ∧
    ∀ tag, ∃ other, try_lock_address fuel spins a (mkSWorld (kv w') None [] [] tag) = Done true other ∧
      scl other = write_at (scl w') a (le_bytes 8 tag).
Proof.
  intros Ho Hlm Hoth Hb Hn Hw HS Hc Hr Hr'. set (idx := get_lock_index a) in *.
  assert (∀ A (f : LocalLockNode → A * LocalLockNode), on_node idx f lm =
    Done (f n).1 (mkLLM (num_ms lm) (<[idx := (f n).2]> (local_locks_ lm)) (cs_rdma_tag_ lm))) as Hon.
  { intros A f. unfold on_node. rewrite (proj2 (Z.leb_le _ _)), (proj2 (Z.ltb_lt _ _)) by lia. by rewrite Hn. }
  assert (hand_over_wanted n = false) as Hnw.
  { unfold hand_over_wanted. rewrite (word_waiters S (S + 1) n Hw) by lia. by replace (S + 1 - S - 1) with 0 by lia. }
  destruct (take_ticket n) as [t n1] eqn:Et. destruct (word_take S (S + 1) n t n1 Hw ltac:(lia) Et) as (-> & Hw1 & Hc1 & _).
  assert (on_node idx take_ticket lm = Done (S + 1) (queue_up a lm)) as Hq.
  { unfold queue_up. fold idx. rewrite Hon, Et. done. }
  assert (queue_up a lm = mkLLM (num_ms lm) (<[idx := n1]> (local_locks_ lm)) (cs_rdma_tag_ lm)) as Hqe.
  { unfold queue_up. fold idx. by rewrite Hon, Et. }
  set (lm1 := mkLLM (num_ms lm) (<[idx := n]> (local_locks_ lm)) (cs_rdma_tag_ lm)).
  assert (lm1 = lm) as Hlm1 by (unfold lm1; rewrite insert_id by done; by destruct lm).
  set (w1 := set_locks (Some lm) [queue_up a] w).
  assert (on_locks lm (can_hand_over a) w = Done false w1) as H1.
  { unfold on_locks. rewrite Hoth. cbn [id]. unfold can_hand_over. fold idx. rewrite Hon. cbn [fst snd]. rewrite Hnw. fold lm1. by rewrite Hlm1. }
  destruct (perform_all_run (kv w1) [write_op pa page; write_op a (le_bytes 8 0)] [out_none; out_none]
              (write_at (write_at (scl w) pa page) a (le_bytes 8 0)) Ho) as (k & Hk & Hkq).
  { change (cl (kv w1)) with (scl w). rewrite (ops_write _ pa page m _ Hr), (ops_write _ a (le_bytes 8 0) m' []) by (by rewrite length_le_bytes). done. }
  destruct (on_kv_moved _ w1 _ _ _ _ Hk Hkq) as (w2 & H2 & Hm2).
  destruct (release_hands_over a (queue_up a lm) n1 S (S + 1 + 1)) as (lm' & Hrel & Hserve).
  { rewrite Hqe. exact Hb. }
  { rewrite Hqe. cbn [local_locks_]. fold idx. apply lookup_insert_eq. }
  { exact Hw1. }
  { lia. }
  { lia. }
  destruct (Hserve spins) as (lm2 & Hspin & lm3 & Hcons). fold idx in Hspin, Hcons.
  set (w3 := set_locks (Some lm') [] w2).
  assert (on_locks lm (release a) w2 = Done true w3) as H3.
  { unfold on_locks. rewrite (sm_others _ _ _ _ Hm2). cbn [w1 local_others set_locks tail]. by rewrite Hrel. }
  assert (scl w3 = write_at (write_at (scl w) pa page) a (le_bytes 8 0)) as Hcl by exact (smoved_cl _ _ _ _ Hm2).
  assert (holds (scl w3) a (le_bytes 8 0)) as Hh.
  { rewrite Hcl. eapply holds_write; [by rewrite length_le_bytes|apply le_bytes_ok]. }
  exists w3, lm', lm3. split; [|split; [done|split; [done|split; [done|split; [done|split]]]]].
  - unfold write_page_and_unlock. erewrite bind_done by reflexivity. rewrite Hlm. erewrite bind_done by exact H1. cbv iota.
    erewrite bind_done by exact H2. cbn [fst assert_]. erewrite bind_done by reflexivity. erewrite bind_done by reflexivity.
    rewrite (sm_locks _ _ _ _ Hm2). cbn [w1 local_lock_mgr_ set_locks]. by erewrite bind_done by exact H3.
  - unfold acquire_rest. fold idx. by erewrite bind_done by exact Hspin.
  - intros tag. set (wo := mkSWorld (kv w3) None [] [] tag).
    assert (alone wo) as Hao by (change (alone w2); by eapply smoved_alone).
    destruct (lock_step_free wo a 0 0 Hao Hh) as (other & H & Hco). exists other. split; [|exact Hco].
    unfold try_lock_address. erewrite bind_done by reflexivity. change (local_lock_mgr_ wo) with (@None LocalLockManager). cbv beta iota.
    erewrite bind_done by reflexivity. cbv beta iota.
    by erewrite bind_done by (by apply loop_done).
Qed.
End lock.

(** ** Concrete runs *)

Section demo.
#[local] Existing Instances demo_cfg small_cfg.
Abbreviation SW := (SWorld (Q := fifo) (C := page_cache)).

(** A new index whose root page is locked by the tag [v]. *)
Definition locked_world (locks : option LocalLockManager) (v : Z) : option (SW * GlobalAddress) :=
  match sworld_init 2 4096 4 None locks with
  | None => None
  | Some w =>
      match (_ ← initialize; a ← get_root_offset; _ ← swrite a (le_bytes 8 v); mret a) w with
      | Done a w' => Some (w', a)
      | Fault _ _ => None
      end
  end.

Definition locked_check (w : SW) (a v : Z) : bool :=
  match others (w_net (kv w)), local_lock_mgr_ w with [], None => true | _, _ => false end &&
  holds_check (scl w) a 8 (le_bytes 8 v) && (sherman_tag_ w =? 777).

Lemma locked_check_sound w a v : locked_check w a v = true →
  alone w ∧ local_lock_mgr_ w = None ∧ holds (scl w) a (le_bytes 8 v) ∧ sherman_tag_ w = 777.
Proof.
  unfold locked_check, alone. rewrite !andb_true_iff. intros [[H1 H2] H3%Z.eqb_eq].
  pose proof (holds_check_holds (scl w) a (le_bytes 8 v) H2).
  by destruct (others _), (local_lock_mgr_ w).
Qed.

Lemma sherman_lock_outcomes_witness :
  ∃ w a w', locked_world None (7 * 2 ^ 32) = Some (w, a) ∧ try_lock_address 2000000 3 a w = Fault AssertFailed w' ∧ scl w' = scl w.
Proof.
  assert (match locked_world None (7 * 2 ^ 32) with Some (w, a) => locked_check w a (7 * 2 ^ 32) | None => false end = true) as H
    by (vm_compute; reflexivity).
  destruct (locked_world None (7 * 2 ^ 32)) as [[w a]|]; [|discriminate H].
  destruct (locked_check_sound w a _ H) as (H1 & H2 & H3 & H4).
  destruct (sherman_lock_outcomes 2000000 3 w a (7 * 2 ^ 32) H1 H2 H3) as (w' & H').
  - split; vm_compute; congruence.
  - reflexivity.
  - rewrite H4 in H'. exists w, a, w'. split; [reflexivity|exact H'].
Defined.

Lemma fallback_lock_not_exclusive_witness :
  ∃ w a w', locked_world None 555 = Some (w, a) ∧ try_lock_address 5 3 a w = Done true w' ∧ scl w' = scl w.
Proof.
  assert (match locked_world None 555 with Some (w, a) => locked_check w a 555 | None => false end = true) as H
    by (vm_compute; reflexivity).
  destruct (locked_world None 555) as [[w a]|]; [|discriminate H].
  destruct (locked_check_sound w a _ H) as (H1 & H2 & H3 & H4).
  destruct (fallback_lock_not_exclusive 5 3 w a 555 777 0 5 H1 H2) as (w' & H').
  - split; vm_compute; congruence.
  - split; vm_compute; congruence.
  - reflexivity.
  - exact H3.
  - exact H4.
  - exists w, a, w'. split; [reflexivity|exact H'].
Defined.

(** A thread has locked the root page through its local lock manager and read it. *)
Definition unlock_race : option (SW * GlobalAddress * list Z) :=
  match locked_world (Some (manager_new 2 991)) 0 with
  | None => None
  | Some (w, a) =>
      match (_ ← try_lock_address 5 3 a; o ← sread a kLeafPageSize; mret o.2) w with
      | Done page w' => Some (w', a, page)
      | Fault _ _ => None
      end
  end.

Definition race_check (w : SW) (a : GlobalAddress) (page : list Z) : bool :=
  match others (w_net (kv w)), local_lock_mgr_ w with
  | [], Some lm =>
      let idx := get_lock_index a in
      (0 <=? idx) && (idx <? num_ms lm * kNumOfLock) &&
      match local_locks_ lm !! idx with Some n => (ticket_lock n =? 1) && (handover_count n <? kMaxHandOverTime) | None => false end
  | _, _ => false
  end && holds_check (scl w) a (length page) [] && holds_check (write_at (scl w) a page) a 8 [].

Lemma race_check_sound w a page : race_check w a page = true →
  alone w ∧ ∃ lm n m m', local_lock_mgr_ w = Some lm ∧ 0 ≤ get_lock_index a < num_ms lm * kNumOfLock ∧
    local_locks_ lm !! get_lock_index a = Some n ∧ word 0 1 n ∧ handover_count n < kMaxHandOverTime ∧
    region_at (scl w) a (length page) m ∧ region_at (write_at (scl w) a page) a 8 m'.
Proof.
  unfold race_check, alone. rewrite !andb_true_iff. intros [[H1 (m & Hm & _)%holds_check_region] (m' & Hm' & _)%holds_check_region].
  destruct (others _); [|discriminate]. destruct (local_lock_mgr_ w) as [lm|]; [|discriminate]. cbv zeta in H1.
  destruct (local_locks_ lm !! _) as [n|] eqn:Hn; [|by rewrite andb_false_r in H1].
  rewrite !andb_true_iff, Z.leb_le, !Z.ltb_lt, Z.eqb_eq in H1. destruct H1 as [[] []].
  split; [done|]. exists lm, n, m, m'. unfold word. split_and!; try done; lia.
Qed.

(** The root page is unlocked while a second thread queues up. *)
Lemma unlock_race_breaks_lock_witness :
  ∃ (w : SW) a page (w' : SW) lm' lm'', write_page_and_unlock page a a w = Done tt w' ∧ local_lock_mgr_ w' = Some lm' ∧
    acquire_rest 0 a 1 lm' = Done true lm'' ∧
    ∃ other, try_lock_address 5 0 a (mkSWorld (kv w') None [] [] (12 * 2 ^ 32) : SW) = Done true other.
Proof.
  assert (match unlock_race with
          | Some (w, a, page) => race_check w a page
          | None => false end = true) as H by (vm_compute; reflexivity).
  destruct unlock_race as [[[w0 a] page]|]; [|discriminate H].
  apply race_check_sound in H as (H1 & lm & n & m & m' & H2 & H4 & H5 & H6 & H7 & H8 & H9).
  set (w := set_locks (Some lm) [id; queue_up a] w0).
  destruct (unlock_race_breaks_lock 5 0 w lm n 0 page a a m m' H1) as (w' & lm' & lm'' & G1 & G2 & _ & _ & _ & G3 & G4);
    [reflexivity|reflexivity|exact H4|exact H5|exact H6|reflexivity|exact H7|exact H8|exact H9|].
  exists w, a, page, w', lm', lm''. split; [exact G1|]. split; [exact G2|]. split; [exact G3|].
  destruct (G4 (12 * 2 ^ 32)) as (other & G5 & _). exists other. exact G5.
Defined.
End demo.
