(* ===== verification/ShermanForest.v ===== *)
(** * Splitting the pages of a stored Sherman tree

    The children of a page as a forest with separators, a tree opened along the path of
    a key as a list of frames, and what the insertion of a separator and the splits of
    both kinds of pages make of them: which trees the two pages hold, and that together
    they contain what the page contained.  This is the part of the insert with splits
    that does not run; ShermanGrow.v has the runs. *)

From S2P Require Import Prelude GlobalAddress RdmaSim ThreadStats Queue MemoryServer Slab RdmaManager LocalLock KVBlock FaunusNode FaunusIndex FaunusTree FaunusRead FaunusFrame FaunusInsert FaunusUpsert FaunusInit ShermanNode ShermanIndex ShermanRead ShermanFrame ShermanInsert.

Section forest.
Context {cfg : FaunusConfig} {scfg : ShermanConfig}.
Context {Q : Type → Type} `{!ConcurrentQueue Q}.
Implicit Types (c : Cluster Q) (t s : stree) (ts ss : list stree).

(** ** Forests *)

(** The last of the bounds from [b] on. *)
Fixpoint upper (b : Z) (ks : list Z) : Z := match ks with [] => b | k :: ks' => upper k ks' end.

(** The trees [ts] of height [l] one after the other, from [b] on with the upper bounds [ks]. *)
Fixpoint forest c (l : nat) (b : Z) (ks : list Z) ts : Prop :=
  match ts, ks with
  | [], [] => True
  | t :: ts', k :: ks' => sstored c l b k t ∧ forest c l k ks' ts'
  | _, _ => False
  end.

Lemma upper_app b ks1 ks2 : upper b (ks1 ++ ks2) = upper (upper b ks1) ks2.
Proof. revert b. induction ks1 as [|k ks1 IH]; intros b; [done|]. apply IH. Qed.

Lemma upper_max b ks : pairwise Z.le (b :: ks) → Forall (λ k, k ≤ upper b ks) (b :: ks).
Proof.
  revert b. induction ks as [|k ks IH]; intros b [Hb Hp]; [by repeat constructor; cbn|]. cbn [upper].
  specialize (IH k Hp). constructor; [|done]. apply Forall_cons_iff in Hb as [Hb _], IH as [IH _]. lia.
Qed.

Lemma forest_length c l ts : ∀ b ks, forest c l b ks ts → length ts = length ks.
Proof. induction ts as [|t ts IH]; intros b [|k ks]; cbn; try done. intros [_ H]. f_equal. by eapply IH. Qed.

Lemma forest_app c l ts1 : ∀ b ks1 ks2 ts2, length ts1 = length ks1 →
  forest c l b (ks1 ++ ks2) (ts1 ++ ts2) ↔ forest c l b ks1 ts1 ∧ forest c l (upper b ks1) ks2 ts2.
Proof.
  induction ts1 as [|t ts1 IH]; intros b [|k ks1] ks2 ts2 Hlen; cbn in *; try done; [tauto|].
  rewrite IH by congruence. tauto.
Qed.

Lemma forest_lookup c l ts : ∀ b ks, length ts = length ks →
  (∀ i t d d', ts !! i = Some t → (b :: ks) !! i = Some d → (b :: ks) !! S i = Some d' → sstored c l d d' t) ↔ forest c l b ks ts.
Proof.
  induction ts as [|t ts IH]; intros b [|k ks] Hlen; try done. cbn [forest]. rewrite <-IH by (cbn in Hlen; lia). split.
  - intros H. split; [by apply (H 0%nat t b k)|]. intros i u d d' Hi Hd Hd'. by apply (H (S i) u d d').
  - intros [H0 H] i u d d' Hi Hd Hd'. destruct i as [|i].
    + cbn in *. congruence.
    + by eapply (H i).
Qed.

Lemma forest_items c l ts : ∀ b ks, forest c l b ks ts → pairwise Z.le (b :: ks) →
  ∀ i, i ∈ concat (map sitems ts) → b ≤ item_key i < upper b ks.
Proof.
  induction ts as [|t ts IH]; intros b ks Hf Hp i Hi; [by apply not_elem_of_nil in Hi|]. destruct ks as [|k ks]; [done|].
  destruct Hf as [Ht Hf]. destruct Hp as [Hb Hp]. cbn [map concat upper] in *. apply elem_of_app in Hi as [Hi|Hi].
  - pose proof (sstored_items _ _ _ _ _ Ht i Hi) as Hr. pose proof (upper_max k ks Hp) as Hu. apply Forall_cons_iff in Hu as [Hu _]. lia.
  - specialize (IH k ks Hf Hp i Hi). apply Forall_cons_iff in Hb as [Hb _]. lia.
Qed.

(** A forest survives every write outside its blocks. *)
Lemma forest_agree W c c' l ts : ∀ b ks,
  sizes_ok → agree W c c' → forest c l b ks ts → Forall (λ t, ga_ok (saddr t)) ts → Forall (apart W) (concat (map sblocks ts)) → forest c' l b ks ts.
Proof.
  induction ts as [|t ts IH]; intros b [|k ks] Hsz Hag Hf Hga Hw; try done. destruct Hf as [Ht Hf].
  apply Forall_cons_iff in Hga as [Hg Hga]. cbn [map concat] in Hw. apply Forall_app in Hw as [Hw1 Hw2].
  split; [by eapply sstored_agree|by apply IH].
Qed.

(** ** Contents *)

Definition fcontents ts : gmap Z Z := list_to_map (pairs (concat (map sitems ts))).

Lemma fcontents_node a p ts : scontents (SNode a p ts) = fcontents ts.
Proof. done. Qed.
Lemma fcontents_one t : fcontents [t] = scontents t.
Proof. unfold fcontents, scontents. cbn [map concat]. by rewrite app_nil_r. Qed.

Lemma fcontents_app ts1 ts2 : fcontents (ts1 ++ ts2) = fcontents ts1 ∪ fcontents ts2.
Proof. unfold fcontents. rewrite map_app, concat_app. unfold pairs. by rewrite map_app, list_to_map_app. Qed.

Lemma fcontents_below c l b ks ts k : forest c l b ks ts → pairwise Z.le (b :: ks) → upper b ks ≤ k → fcontents ts !! k = None.
Proof.
  intros Hf Hp Hk. apply not_elem_of_list_to_map_1. intros ([k' v] & -> & Hin)%list_elem_of_fmap.
  apply list_elem_of_fmap in Hin as (i & Heq & Hi). simplify_eq/=. pose proof (forest_items _ _ _ _ _ Hf Hp i Hi). lia.
Qed.

(** The trees [ss] hold what [s] holds with [key] mapped to [v]. *)
Definition fupserted (key v : Z) s ss : Prop := fcontents ss = <[key := v]> (scontents s).

Lemma fupserted_around key v s ss ts1 ts2 :
  fupserted key v s ss → fcontents ts1 !! key = None → fcontents (ts1 ++ ss ++ ts2) = <[key := v]> (fcontents (ts1 ++ [s] ++ ts2)).
Proof.
  unfold fupserted. intros Hs Hn. rewrite !fcontents_app, Hs, fcontents_one. rewrite <-insert_union_l. by rewrite <-insert_union_r.
Qed.

(** ** The pages of a tree *)

(** Of every page its address, its sibling pointer and whether it has room for a record. *)
Definition leaf_room (p : LeafPage) : bool := bool_decide (length (occupied (lrecords p)) < kLeafCardinality)%nat.
Definition node_room (p : InternalPage) : bool := bool_decide (icnt p < kInternalCardinality)%nat.
Fixpoint spages t : list (GlobalAddress * GlobalAddress * bool) :=
  match t with
  | SLeaf a p _ => [(a, sibling_ptr (lhdr p), leaf_room p)]
  | SNode a p ts => (a, sibling_ptr (ihdr p), node_room p) :: concat (map spages ts)
  end.

(** No page is at [Null], none is full between operations, and a sibling pointer leads
    to another page of the tree. *)
Definition page_fine (addrs : list GlobalAddress) (x : GlobalAddress * GlobalAddress * bool) : Prop :=
  x.1.1 ≠ Null ∧ x.2 = true ∧ (x.1.2 = Null ∨ x.1.2 ≠ x.1.1 ∧ x.1.2 ∈ addrs).
Definition page_addrs (ps : list (GlobalAddress * GlobalAddress * bool)) : list GlobalAddress := map (fst ∘ fst) ps.
Definition pages_ok (ps : list (GlobalAddress * GlobalAddress * bool)) : Prop := Forall (page_fine (page_addrs ps)) ps.

Lemma pages_ok_perm ps ps' : ps ≡ₚ ps' → pages_ok ps → pages_ok ps'.
Proof.
  intros Hp H. unfold pages_ok in *. rewrite list.Forall_forall in H |- *. intros x Hx. rewrite <-Hp in Hx.
  destruct (H x Hx) as (H1 & H2 & H3). split; [done|]. split; [done|]. unfold page_addrs in *. by rewrite <-Hp.
Qed.

(** Some pages are replaced by fine ones, and no address disappears. *)
Lemma pages_ok_replace rest ps ps' :
  pages_ok (rest ++ ps) → page_addrs ps ⊆ page_addrs ps' → Forall (page_fine (page_addrs (rest ++ ps'))) ps' → pages_ok (rest ++ ps').
Proof.
  intros H Hs Hnew. apply Forall_app in H as [H _]. apply Forall_app. split; [|done]. eapply Forall_impl; [|exact H].
  intros x (H1 & H2 & H3). split; [done|]. split; [done|]. destruct H3 as [?|[? Hin]]; [by left|right]. split; [done|].
  unfold page_addrs in *. rewrite map_app, elem_of_app in *. destruct Hin; [by left|right; by apply Hs].
Qed.

(** Induction over a tree and its children. *)
Lemma stree_induction (P : stree → Prop) :
  (∀ a p items, P (SLeaf a p items)) → (∀ a p ts, Forall P ts → P (SNode a p ts)) → ∀ t, P t.
Proof.
  intros Hl Hn. fix IH 1. intros [a p items|a p ts]; [apply Hl|]. apply Hn. induction ts as [|t ts IHts]; constructor; [apply IH|done].
Qed.

(** A page is one of the blocks of its tree. *)
Lemma page_block t x : x ∈ page_addrs (spages t) → x ∈ map fst (sblocks t).
Proof.
  revert x. induction t as [a p items|a p ts IH] using stree_induction; intros x Hx; cbn [spages sblocks page_addrs map compose fst] in *.
  - apply list_elem_of_singleton in Hx as ->. left.
  - apply elem_of_cons in Hx as [->|Hx]; [left|right]. unfold page_addrs in *.
    apply list_elem_of_In, in_map_iff in Hx as (y & <- & Hy). apply in_concat in Hy as (l & Hl & Hy). apply in_map_iff in Hl as (t & <- & Ht).
    rewrite list.Forall_forall in IH. assert (fst (fst y) ∈ map fst (sblocks t)) as Hin.
    { apply IH; [by apply list_elem_of_In|]. apply list_elem_of_In, in_map_iff. by exists y. }
    apply list_elem_of_fmap in Hin as (r & Hrx & Hr). apply list_elem_of_fmap. exists r. split; [exact Hrx|].
    apply list_elem_of_In, in_concat. exists (sblocks t). split; [by apply in_map|by apply list_elem_of_In].
Qed.
End forest.

(** ** Pages over a forest *)

Section shape.
Context {cfg : FaunusConfig} {scfg : ShermanConfig}.
Context {Q : Type → Type} `{!ConcurrentQueue Q}.
Implicit Types (c : Cluster Q) (t s : stree) (ts ss : list stree).

(** The page [p] of level [S l] routes the keys from [lo] to [hi] to the trees [ts]. *)
Record shape (l : nat) (lo hi : Z) (p : InternalPage) ts : Prop := mkShape {
  sh_typed : ipage_typed p;
  sh_ok : ipage_ok p;
  sh_leftmost : leftmost_ptr (ihdr p) ≠ Null;
  sh_level : slevel (ihdr p) = Z.of_nat (S l);
  sh_lowest : lowest (ihdr p) = lo;
  sh_highest : highest (ihdr p) = hi;
  sh_bounds : pairwise Z.le (sbounds lo hi p);
  sh_kids : ikids p = map saddr ts
}.

Lemma shape_length l lo hi p ts : shape l lo hi p ts → length ts = S (length (iseps p)).
Proof. intros H. by rewrite <-(length_map saddr), <-(sh_kids _ _ _ _ _ H), length_ikids, length_iseps by apply H. Qed.

Lemma sstored_node_iff c a l lo hi p ts :
  sstored c (S l) lo hi (SNode a p ts) ↔
  holds c a (enc_InternalPage p) ∧ icheck_consistent p = true ∧ embedding_lock p = 0 ∧ shape l lo hi p ts ∧
  forest c l lo (iseps p ++ [hi]) ts.
Proof.
  split.
  - intros Hst. pose proof (sstored_kids _ _ _ _ _ _ _ Hst) as Hlen.
    inversion Hst as [|? ? ? ? ? ? Hh Hty Hok Hc Hlk Hlm Hlv Hlo Hhi Hb Hk Hts]; subst.
    split; [done|]. split; [done|]. split; [done|]. split; [by split|].
    apply forest_lookup; [rewrite length_app; cbn; lia|]. exact Hts.
  - intros (Hh & Hc & Hlk & Hs & Hf). pose proof (shape_length _ _ _ _ _ Hs) as Hlen. destruct Hs. apply sstored_node; try done.
    intros i t b b' Hi Hb Hb'. eapply (forest_lookup c l ts lo (iseps p ++ [hi])); try done. rewrite length_app. cbn. lia.
Qed.

(** The advanced versions do not change the shape. *)
Lemma shape_consistent l lo hi p ts : shape l lo hi p ts → shape l lo hi (iset_consistent p) ts.
Proof.
  intros [(Hl & Hf & Hr & Hty) [H1 H2 H3 H4] Hlm Hlv Hlo Hhi Hb Hk]. split; try done.
  split; [done|]. split; [apply wrap_in_width; lia|]. split; [apply wrap_in_width; lia|done].
Qed.

(** The bounds before and behind the child at position [length ts1]. *)
Lemma bounds_split lo kl : ∃ l1, lo :: kl = l1 ++ [upper lo kl].
Proof.
  revert lo. induction kl as [|k kl IH]; intros lo; [by exists []|]. destruct (IH k) as [l1 Hl1]. exists (lo :: l1). cbn [upper app]. by rewrite <-Hl1.
Qed.

(** A child was replaced by two, with the separator [k] between them. *)
Lemma shape_graft l lo hi p ts1 s ts2 kl b' kr k s1 s2 :
  shape l lo hi p (ts1 ++ s :: ts2) → iseps p ++ [hi] = kl ++ b' :: kr → length kl = length ts1 →
  upper lo kl < k < b' → (icnt p < kInternalCardinality)%nat → key_ok k → ga_ok (saddr s2) → saddr s1 = saddr s →
  let p' := internal_insert k (saddr s2) p in
  shape l lo hi p' (ts1 ++ s1 :: s2 :: ts2) ∧ iseps p' ++ [hi] = kl ++ k :: b' :: kr ∧ icnt p' = S (icnt p) ∧
  sibling_ptr (ihdr p') = sibling_ptr (ihdr p).
Proof.
  intros Hs Hks Hlen Hk Hroom Hkk Hga Hsa p'. pose proof (shape_length _ _ _ _ _ Hs) as Hl. rewrite length_app in Hl. cbn [length] in Hl.
  destruct Hs as [Hty Hok Hlm Hlv Hlo Hhi Hb Hkids]. destruct (icnt_bounds p Hok) as [Hc Hcz].
  assert (pairwise Z.le (lo :: kl)) as Hpl.
  { unfold sbounds in Hb. rewrite Hks in Hb. rewrite app_comm_cons in Hb. exact (proj1 (proj1 (pairwise_app _ _ _) Hb)). }
  assert (iseps p = kl ++ take (length (iseps p) - length kl) (b' :: kr)) as Hseps.
  { apply (f_equal (take (length (iseps p)))) in Hks. rewrite take_app_length in Hks. rewrite Hks at 1. rewrite take_app. f_equal. apply take_ge. lia. }
  assert (rank (iseps p) k = length kl) as Hr.
  { rewrite Hseps. apply rank_cut.
    - pose proof (upper_max lo kl Hpl) as Hm. apply Forall_cons_iff in Hm as [_ Hm]. eapply Forall_impl; [|exact Hm]. cbn. lia.
    - destruct (length (iseps p) - length kl)%nat; [done|]. cbn. lia. }
  destruct (internal_insert_page k (saddr s2) p Hok ltac:(lia)) as (Hok' & Hlm' & Hlo' & Hhi' & Hsib & Hcase). fold p' in Hok', Hlm', Hlo', Hhi', Hsib, Hcase.
  assert (k ∉ iseps p) as Hni.
  { intros Hin. apply list_elem_of_lookup in Hin as [j Hj]. pose proof (rank_at _ _ _ Hj (ip_sorted _ Hok)) as Hrj. rewrite Hr in Hrj.
    assert ((lo :: kl) !! S j = Some k) as Hlk.
    { cbn. rewrite <-Hj, Hseps. symmetry. apply lookup_app_l. lia. }
    destruct (bounds_split lo kl) as [l1 Hl1]. rewrite Hl1 in Hlk.
    assert (length l1 = length kl) as Hll by (apply (f_equal length) in Hl1; rewrite length_app in Hl1; cbn in Hl1; lia).
    rewrite lookup_app_r, Hll in Hlk by lia. replace (S j - length kl)%nat with 0%nat in Hlk by lia. cbn in Hlk. injection Hlk as Hlk. lia. }
  rewrite decide_False in Hcase by done. destruct Hcase as [Hseps' Hkids']. rewrite Hr in Hseps', Hkids'.
  assert (Hnew : iseps p' ++ [hi] = kl ++ k :: b' :: kr).
  { rewrite Hseps'. unfold insert_at.
    assert (take (length kl) (iseps p) = kl) as -> by (rewrite Hseps; by apply take_app_length).
    rewrite <-app_assoc. f_equal. cbn [app]. f_equal.
    apply (f_equal (drop (length kl))) in Hks. rewrite drop_app_length in Hks. rewrite <-Hks. symmetry. apply drop_app_le. lia. }
  assert (icnt p' = S (icnt p)) as Hcnt'.
  { rewrite <-(length_iseps p'), <-(length_iseps p), Hseps', length_insert_at by done. done. }
  split; [|done]. split; try done.
  - by apply internal_insert_typed.
  - by rewrite Hlm'.
  - rewrite <-Hlv. subst p'. unfold internal_insert. by case_match.
  - congruence.
  - congruence.
  - unfold sbounds in *. rewrite Hnew. rewrite Hks in Hb. destruct (bounds_split lo kl) as [l1 Hl1].
    rewrite app_comm_cons, Hl1, <-app_assoc in Hb |- *. cbn [app] in *. apply pairwise_le_insert; [done|lia].
  - rewrite Hkids', Hkids, !map_app. cbn [map]. unfold insert_at.
    assert (S (length kl) = length (map saddr ts1 ++ [saddr s]))%nat as Hlm1 by (rewrite length_app, length_map; cbn; lia).
    assert (map saddr ts1 ++ saddr s :: map saddr ts2 = (map saddr ts1 ++ [saddr s]) ++ map saddr ts2) as -> by (by rewrite <-app_assoc).
    rewrite Hlm1, take_app_length, drop_app_length, <-app_assoc, Hsa. done.
Qed.

Lemma kids_not_null p ts l lo hi : shape l lo hi p ts → ∀ x, x ∈ ikids p → ∃ t, t ∈ ts ∧ saddr t = x.
Proof. intros Hs x. rewrite (sh_kids _ _ _ _ _ Hs). intros (t & -> & Ht)%list_elem_of_fmap. by exists t. Qed.

(** A page is split: the trees and the bounds are cut at the separator that goes up. *)
Lemma shape_split l lo hi p ts x :
  shape l lo hi p ts → 3 ≤ cnt_of (ihdr p) → (S l < kMaxLevelOfTree)%nat → Forall (λ t, saddr t ≠ Null) ts → ga_ok x →
  let '(p', sib, k) := internal_split x p in
  ∃ n, shape l lo k p' (take n ts) ∧ shape l k hi sib (drop n ts) ∧
    iseps p ++ [hi] = (iseps p' ++ [k]) ++ (iseps sib ++ [hi]) ∧ length (take n ts) = length (iseps p' ++ [k]) ∧
    lo < k < hi ∧ key_ok k ∧ (icnt p' < icnt p ∧ icnt sib < icnt p)%nat ∧
    sibling_ptr (ihdr p') = x ∧ sibling_ptr (ihdr sib) = sibling_ptr (ihdr p).
Proof.
  intros Hs Hc3 Hl Hnn Hx. pose proof (shape_length _ _ _ _ _ Hs) as Hlen. pose proof Hs as [Hty Hok Hlm Hlv Hlo Hhi Hb Hkids].
  pose proof (internal_split_parts x p Hok Hc3) as H. pose proof (internal_split_typed x p Hty Hx) as Ht.
  destruct (internal_split x p) as [[p' sib] k].
  destruct H as (n & Hn & Hk & Hok' & Hoks & Hsp & Hkp & Hss & Hks & (H1 & H2 & H3 & H4) & H5 & H6 & Hl1 & Hl2).
  destruct Ht as (Hty' & Htys & Hkk). pose proof (length_iseps p Hok) as Hli.
  assert (iseps p ++ [hi] = (take n (iseps p) ++ [k]) ++ drop (S n) (iseps p) ++ [hi]) as Hcut.
  { rewrite <-(take_drop_middle _ _ _ Hk) at 1. by rewrite <-!app_assoc. }
  assert (pairwise Z.le (lo :: (take n (iseps p) ++ [k]) ++ drop (S n) (iseps p) ++ [hi])) as Hb2 by (by rewrite <-Hcut).
  assert (upper lo (take n (iseps p) ++ [k]) = k) as Hup by (by rewrite upper_app).
  assert (length (take n (iseps p)) = n) as Hltn by (rewrite length_take; lia).
  assert (length (iseps p') = icnt p' ∧ length (iseps sib) = icnt sib) as [Hip His] by (split; by apply length_iseps).
  rewrite Hsp, Hltn in Hip. rewrite Hss, length_drop in His.
  assert (lo < k < hi) as Hlk.
  { pose proof (ip_sorted _ Hok) as Hsrt. destruct (lookup_lt_is_Some_2 (iseps p) 0) as [k0 Hk0]; [lia|].
    destruct (lookup_lt_is_Some_2 (iseps p) (S n)) as [k1 Hk1]; [lia|].
    assert (k0 < k) by (eapply (pairwise_lookup Z.lt (iseps p) 0 n); [done| |done|done]; lia).
    assert (k < k1) by (eapply (pairwise_lookup Z.lt (iseps p) n (S n)); [done| |done|done]; lia).
    assert (lo ≤ k0) by (eapply (pairwise_lookup Z.le (sbounds lo hi p) 0 1); [done|lia|done|];
      change (sbounds lo hi p !! 1%nat) with ((iseps p ++ [hi]) !! 0%nat); rewrite lookup_app_l; [done|lia]).
    assert (k1 ≤ hi).
    { eapply (pairwise_lookup Z.le (sbounds lo hi p) (S (S n)) (S (length (iseps p)))); [done|lia| |].
      - change (sbounds lo hi p !! S (S n)) with ((iseps p ++ [hi]) !! S n). by rewrite lookup_app_l by lia.
      - change (sbounds lo hi p !! S (length (iseps p))) with ((iseps p ++ [hi]) !! length (iseps p)). by rewrite lookup_app_r, Nat.sub_diag by lia. }
    lia. }
  exists (S n). split; [|split; [|split; [by rewrite Hsp, Hss|]]].
  - split; try done; try congruence.
    + assert (leftmost_ptr (ihdr p') = leftmost_ptr (ihdr p)) as ->; [|done]. unfold ikids in Hkp. cbn in Hkp. by injection Hkp.
    + unfold sbounds. rewrite Hsp. rewrite app_comm_cons in Hb2. exact (proj1 (proj1 (pairwise_app _ _ _) Hb2)).
    + rewrite Hkp, Hkids. by rewrite firstn_map.
  - split; try done; try congruence.
    + assert (leftmost_ptr (ihdr sib) ∈ ikids p) as Hin.
      { assert (leftmost_ptr (ihdr sib) ∈ drop (S n) (ikids p)) as Hd by (rewrite <-Hks; left).
        rewrite <-(take_drop (S n) (ikids p)). apply elem_of_app. by right. }
      destruct (kids_not_null _ _ _ _ _ Hs _ Hin) as (t & Htin & <-). rewrite list.Forall_forall in Hnn. by apply Hnn.
    + rewrite Hl2, Hlv. apply wrap_small. unfold in_width, kMaxLevelOfTree in *. lia.
    + unfold sbounds. rewrite Hss. rewrite <-app_assoc, app_comm_cons in Hb2. exact (proj1 (proj2 (proj1 (pairwise_app _ _ _) Hb2))).
    + rewrite Hks, Hkids. by rewrite skipn_map.
  - split; [rewrite length_take, Hsp, length_app, Hltn; cbn [length]; lia|]. split; [done|]. split; [done|]. split; [lia|done].
Qed.

(** ** Leaves *)

(** The page [p] of level 0 holds the [items] with keys from [lo] to [hi]. *)
Record lshape c (lo hi : Z) (p : LeafPage) (items : list KVItem) : Prop := mkLShape {
  ls_typed : lpage_typed p;
  ls_leftmost : leftmost_ptr (lhdr p) = Null;
  ls_level : slevel (lhdr p) = 0;
  ls_lowest : lowest (lhdr p) = lo;
  ls_highest : highest (lhdr p) = hi;
  ls_items : Forall2 (sitem_at c) (occupied (lrecords p)) items;
  ls_range : Forall (λ i, lo ≤ item_key i < hi) items;
  ls_keys : NoDup (map item_key items)
}.

Lemma sstored_leaf_iff c a lo hi p items :
  sstored c 0 lo hi (SLeaf a p items) ↔
  holds c a (enc_LeafPage p) ∧ lcheck_consistent p = true ∧ lembedding_lock p = 0 ∧ lshape c lo hi p items.
Proof.
  split.
  - inversion 1; subst. by do 3 (split; [done|]).
  - intros (Hh & Hc & Hlk & []). by apply sstored_leaf.
Qed.

Lemma lshape_consistent c lo hi p items : lshape c lo hi p items → lshape c lo hi (lset_consistent p) items.
Proof.
  intros [(Hl & Hf & Hr & Hty) Hlm Hlv Hlo Hhi Hit Hra Hk]. split; try done.
  split; [done|]. split; [apply wrap_in_width; lia|]. split; [apply wrap_in_width; lia|done].
Qed.

(** The records of a page with the keys of their items, as [read_keys] collects them. *)
Definition keyed_entry (x : LeafEntry * KVItem) : Z * LeafEntry := (item_key x.2, x.1).

Lemma zip_sorted_cut c lo hi p items :
  lshape c lo hi p items →
  ∃ l3, sort_keyed (map keyed_entry (zip (occupied (lrecords p)) items)) = map keyed_entry l3 ∧
    l3 ≡ₚ zip (occupied (lrecords p)) items ∧ map fst l3 ≡ₚ occupied (lrecords p) ∧ map snd l3 ≡ₚ items ∧
    Forall (λ x, sitem_at c x.1 x.2) l3 ∧ pairwise by_key (map keyed_entry l3) ∧ length l3 = length items.
Proof.
  intros [_ _ _ _ _ Hit _ Hnd]. pose proof (proj1 (Forall2_zip _ _ _) Hit) as [Hlen Hz].
  destruct (Permutation_map_inv keyed_entry (zip (occupied (lrecords p)) items) (l1 := sort_keyed (map keyed_entry (zip (occupied (lrecords p)) items))))
    as (l3 & Hl3 & Hp); [apply sort_keyed_perm|].
  exists l3. split; [done|]. split; [by symmetry|]. split; [rewrite <-Hp; by rewrite <-(fst_zip (occupied (lrecords p)) items) at 2 by lia|].
  assert (map snd l3 ≡ₚ items) as Hs by (rewrite <-Hp; rewrite <-(snd_zip (occupied (lrecords p)) items) at 2 by lia; done).
  split; [done|]. split; [by rewrite <-Hp|]. split.
  - rewrite <-Hl3. apply sort_keyed_sorted. rewrite map_map. change (λ x, (keyed_entry x).1) with (λ x : LeafEntry * KVItem, item_key x.2).
    rewrite <-(map_map snd item_key). change (map snd (zip (occupied (lrecords p)) items)) with ((zip (occupied (lrecords p)) items).*2).
    by rewrite snd_zip by lia.
  - by rewrite <-Hs, length_map.
Qed.

(** A full leaf is split: the left page keeps the items below the separator, the
    sibling gets the others. *)
Lemma lshape_split c lo hi q items x :
  lshape c lo hi q items → (2 ≤ length items ≤ kLeafCardinality)%nat → ga_ok x →
  ∃ p' sib k its1 its2,
    leaf_split x (sort_keyed (map keyed_entry (zip (occupied (lrecords q)) items))) q = Some (p', sib, k) ∧
    lshape c lo k p' its1 ∧ lshape c k hi sib its2 ∧ lo < k < hi ∧ key_ok k ∧ items ≡ₚ its1 ++ its2 ∧
    occupied (lrecords p') ++ occupied (lrecords sib) ≡ₚ occupied (lrecords q) ∧
    (length (occupied (lrecords p')) < length items ∧ length (occupied (lrecords sib)) < length items)%nat ∧
    sibling_ptr (lhdr p') = x ∧ sibling_ptr (lhdr sib) = sibling_ptr (lhdr q).
Proof.
  intros Hs Hlen Hx. destruct (zip_sorted_cut c lo hi q items Hs) as (l3 & Hsort & Hp3 & Hf3 & Hs3 & Hit3 & Hpw & Hl3).
  pose proof Hs as [Hty Hlm Hlv Hlo Hhi Hit Hra Hnd]. rewrite Hsort.
  assert (Forall (λ e, lentry_ok e ∧ is_empty e = false) (map fst l3)) as Hent.
  { rewrite Hf3. apply list.Forall_forall. intros e He. split.
    - pose proof (occupied_typed q Hty) as Ho. rewrite list.Forall_forall in Ho. by apply Ho.
    - by apply list_elem_of_filter in He as [He _]. }
  assert (Forall (λ i, lo ≤ item_key i < hi ∧ item_ok i) (map snd l3)) as Hits.
  { rewrite Hs3. rewrite list.Forall_forall in Hra |- *. intros i Hi. split; [by apply Hra|].
    apply list_elem_of_lookup in Hi as [j Hj]. destruct (Forall2_lookup_r _ _ _ _ _ Hit Hj) as (e & _ & (_ & Hok & _)). done. }
  rewrite !Forall_map in Hent, Hits.
  destruct (leaf_split_parts (map keyed_entry l3) x q) as (p' & sib & k & e & m & Hsp & Hm & Hk & Ho1 & Ho2 & Hn1 & Hn2 & (H1 & H2 & H3 & H4) & H5 & H6 & (H7 & H8 & H9 & H10)).
  { rewrite Forall_map. eapply Forall_impl; [|exact Hent]. by intros y [_ ?]. }
  { by rewrite length_map, Hl3. }
  rewrite length_map in Hm. rewrite list_lookup_fmap in Hk. apply fmap_Some in Hk as ([e0 i0] & Hl0 & Hk). injection Hk as -> ->. cbn [keyed_entry snd fst] in *.
  assert (l3 = take m l3 ++ (e0, i0) :: drop (S m) l3) as Hcut by (by rewrite take_drop_middle).
  assert (Forall (λ x, item_key x.2 < item_key i0) (take m l3) ∧ Forall (λ x, item_key i0 ≤ item_key x.2) (drop m l3)) as [Hlt Hge].
  { rewrite Hcut, map_app in Hpw. apply pairwise_app in Hpw as (_ & [Hd _] & Ht). cbn [map] in Ht. rewrite Forall_map in Hd. split.
    - rewrite Forall_map in Ht. eapply Forall_impl; [|exact Ht]. intros y Hy. apply Forall_cons_iff in Hy as [Hy _]. exact Hy.
    - erewrite drop_S by done. constructor; [cbn; lia|]. eapply Forall_impl; [|exact Hd]. unfold by_key. cbn. lia. }
  rewrite !firstn_map, !skipn_map, !map_map in *. cbn [keyed_entry snd] in Ho1, Ho2.
  change (map (λ y : LeafEntry * KVItem, y.1) (take m l3)) with (map fst (take m l3)) in Ho1.
  change (map (λ y : LeafEntry * KVItem, y.1) (drop m l3)) with (map fst (drop m l3)) in Ho2.
  assert (items ≡ₚ map snd (take m l3) ++ map snd (drop m l3)) as Hperm by (by rewrite <-map_app, take_drop).
  assert (NoDup (map item_key (map snd (take m l3))) ∧ NoDup (map item_key (map snd (drop m l3)))) as [Hnd1 Hnd2].
  { rewrite Hperm, map_app in Hnd. by apply list.NoDup_app in Hnd as (? & _ & ?). }
  rewrite <-(take_drop m l3), !Forall_app in Hits, Hit3. destruct Hits as [Hi1 Hi2], Hit3 as [Hz1 Hz2].
  assert (lpage_typed p' ∧ lpage_typed sib ∧ key_ok (item_key i0)) as (Hty1 & Hty2 & Hkk).
  { eapply leaf_split_typed; [exact Hty|exact Hx| | |exact Hsp]; [rewrite length_map; lia|]. rewrite Forall_map. apply list.Forall_forall.
    intros y Hy. rewrite list.Forall_forall in Hent. split; [|by apply Hent]. cbn.
    rewrite <-(take_drop m l3), elem_of_app in Hy. rewrite list.Forall_forall in Hi1, Hi2.
    destruct Hy as [Hy|Hy]; [destruct (Hi1 _ Hy) as [_ [? _]]|destruct (Hi2 _ Hy) as [_ [? _]]]; done. }
  assert (lo < item_key i0 < hi) as Hlk.
  { split.
    - destruct (lookup_lt_is_Some_2 (take m l3) 0) as [y Hy]; [rewrite length_take; lia|]. apply list_elem_of_lookup_2 in Hy.
      rewrite list.Forall_forall in Hlt, Hi1. specialize (Hlt _ Hy). destruct (Hi1 _ Hy) as [? _]. lia.
    - rewrite list.Forall_forall in Hi2. destruct (Hi2 (e0, i0)) as [? _]; [|cbn in *; lia]. erewrite drop_S by done. left. }
  exists p', sib, (item_key i0), (map snd (take m l3)), (map snd (drop m l3)). split; [exact Hsp|].
  split; [split; try done; try congruence; [by rewrite Ho1; apply Forall2_pairs|rewrite Forall_map; apply list.Forall_forall; intros y Hy;
    rewrite list.Forall_forall in Hlt, Hi1; specialize (Hlt _ Hy); destruct (Hi1 _ Hy); lia]|].
  split; [split; try done; try congruence; [by rewrite H9, Hlv|by rewrite Ho2; apply Forall2_pairs|rewrite Forall_map; apply list.Forall_forall; intros y Hy;
    rewrite list.Forall_forall in Hge, Hi2; specialize (Hge _ Hy); destruct (Hi2 _ Hy); lia]|].
  split; [done|]. split; [done|]. split; [done|]. split; [by rewrite Ho1, Ho2, <-map_app, take_drop|].
  split; [|done]. rewrite Ho1, Ho2, !length_map, length_take, length_drop. lia.
Qed.
End shape.

(** ** A tree opened along a path *)

Section path.
Context {cfg : FaunusConfig} {scfg : ShermanConfig}.
Context {Q : Type → Type} `{!ConcurrentQueue Q}.
Implicit Types (c : Cluster Q) (t s : stree) (ts ss : list stree).

(** An internal page with a hole among its children. *)
Record frame := mkFrame { fr_addr : GlobalAddress; fr_page : InternalPage; fr_left : list stree; fr_right : list stree }.
Implicit Types (f : frame) (fs : list frame).

Definition fill f ss : stree := SNode (fr_addr f) (fr_page f) (fr_left f ++ ss ++ fr_right f).
(** The frames from the inside out. *)
Fixpoint plug fs s : stree := match fs with [] => s | f :: fs' => plug fs' (fill f [s]) end.

Definition frame_blocks f : list (Z * Z) :=
  (fr_addr f, Z.of_nat kInternalPageSize) :: concat (map sblocks (fr_left f)) ++ concat (map sblocks (fr_right f)).
Definition frame_pages f : list (GlobalAddress * GlobalAddress * bool) :=
  (fr_addr f, sibling_ptr (ihdr (fr_page f)), node_room (fr_page f)) :: concat (map spages (fr_left f)) ++ concat (map spages (fr_right f)).
Fixpoint cblocks fs : list (Z * Z) := match fs with [] => [] | f :: fs' => frame_blocks f ++ cblocks fs' end.
Fixpoint cpages fs : list (GlobalAddress * GlobalAddress * bool) := match fs with [] => [] | f :: fs' => frame_pages f ++ cpages fs' end.

Lemma concat_around {A B} (g : A → list B) l1 l2 l3 :
  concat (map g (l1 ++ l2 ++ l3)) ≡ₚ (concat (map g l1) ++ concat (map g l3)) ++ concat (map g l2).
Proof. rewrite !map_app, !concat_app. rewrite <-app_assoc. f_equiv. apply Permutation_app_comm. Qed.

Lemma sblocks_fill f ss : sblocks (fill f ss) ≡ₚ frame_blocks f ++ concat (map sblocks ss).
Proof. unfold fill, frame_blocks. cbn [sblocks app]. constructor. apply concat_around. Qed.

Lemma sblocks_plug fs : ∀ s, sblocks (plug fs s) ≡ₚ cblocks fs ++ sblocks s.
Proof.
  induction fs as [|f fs IH]; intros s; [done|]. cbn [plug cblocks]. rewrite IH, sblocks_fill. cbn [map concat]. rewrite app_nil_r.
  by rewrite app_assoc, (Permutation_app_comm (cblocks fs)).
Qed.

Lemma spages_plug fs : ∀ s, spages (plug fs s) ≡ₚ cpages fs ++ spages s.
Proof.
  induction fs as [|f fs IH]; intros s; [done|]. cbn [plug cpages]. rewrite IH.
  assert (spages (fill f [s]) ≡ₚ frame_pages f ++ spages s) as ->.
  { unfold fill, frame_pages. cbn [spages app]. constructor. etrans; [apply (concat_around spages (fr_left f) [s] (fr_right f))|].
    cbn [map concat]. by rewrite app_nil_r. }
  by rewrite app_assoc, (Permutation_app_comm (cpages fs)).
Qed.

(** The frame [f] around a child [s] with the bounds [b] and [b'] is stored. *)
Record at_frame c (j : nat) (b b' : Z) s f (lo hi : Z) (kl kr : list Z) : Prop := mkAtFrame {
  af_stored : sstored c (S j) lo hi (fill f [s]);
  af_seps : iseps (fr_page f) ++ [hi] = kl ++ b' :: kr;
  af_length : length kl = length (fr_left f);
  af_upper : upper lo kl = b;
  af_addr : ga_ok (fr_addr f)
}.

(** The frames [fs] around [s] make a stored tree of height [L]. *)
Fixpoint path_ok c (L j : nat) (b b' : Z) s fs : Prop :=
  match fs with
  | [] => j = L ∧ b = key_min ∧ b' = key_max
  | f :: fs' => ∃ lo hi kl kr, at_frame c j b b' s f lo hi kl kr ∧ path_ok c L (S j) lo hi (fill f [s]) fs'
  end.

(** Other trees in the place of the child. *)
Lemma frame_forest W c c' j b b' s f lo hi kl kr ks ss :
  sizes_ok → at_frame c j b b' s f lo hi kl kr → agree W c c' → Forall (apart W) (frame_blocks f) →
  forest c' j b (ks ++ [b']) ss →
  forest c' j lo (kl ++ (ks ++ [b']) ++ kr) (fr_left f ++ ss ++ fr_right f) ∧ upper lo (kl ++ (ks ++ [b']) ++ kr) = hi.
Proof.
  intros Hsz [Hst Hseps Hlen Hup Ha] Hag Hw Hss. apply sstored_node_iff in Hst as (_ & _ & _ & Hsh & Hf). rewrite Hseps in Hf.
  apply Forall_cons_iff in Hw as [_ Hw]. apply Forall_app in Hw as [Hwl Hwr].
  assert (Forall (λ t, ga_ok (saddr t)) (fr_left f ++ [s] ++ fr_right f)) as Hga.
  { apply list.Forall_forall. intros t [i Hi]%list_elem_of_lookup. by eapply skid_addr_ok; [apply Hsh|apply Hsh|]. }
  rewrite !Forall_app in Hga. destruct Hga as (Hgl & _ & Hgr).
  apply forest_app in Hf as [Hfl Hf]; [|done]. cbn [app forest] in Hf. destruct Hf as [_ Hfr]. split.
  - apply forest_app; [done|]. split; [by eapply forest_agree|]. rewrite Hup. apply forest_app; [by eapply forest_length|].
    split; [done|]. rewrite upper_app. cbn [upper]. by eapply forest_agree.
  - rewrite !upper_app. cbn [upper]. apply (f_equal (upper lo)) in Hseps. rewrite !upper_app in Hseps. cbn [upper] in Hseps. done.
Qed.

(** What is left of the hole contains no key of it. *)
Lemma frame_left_below c j b b' s f lo hi kl kr key :
  at_frame c j b b' s f lo hi kl kr → b ≤ key → fcontents (fr_left f) !! key = None.
Proof.
  intros [Hst Hseps Hlen Hup Ha] Hk. apply sstored_node_iff in Hst as (_ & _ & _ & Hsh & Hf). rewrite Hseps in Hf.
  apply forest_app in Hf as [Hfl _]; [|done]. eapply fcontents_below; [exact Hfl| |lia].
  pose proof (sh_bounds _ _ _ _ _ Hsh) as Hb. unfold sbounds in Hb. rewrite Hseps, app_comm_cons in Hb. exact (proj1 (proj1 (pairwise_app _ _ _) Hb)).
Qed.

Lemma frame_upserted c j b b' s f lo hi kl kr key v ss :
  at_frame c j b b' s f lo hi kl kr → b ≤ key → fupserted key v s ss →
  fcontents (fr_left f ++ ss ++ fr_right f) = <[key := v]> (scontents (fill f [s])).
Proof. intros Haf Hk Hup. unfold fill. rewrite fcontents_node. apply fupserted_around; [done|]. by eapply frame_left_below. Qed.

(** The bounds of a child lie within those of its page. *)
Lemma frame_bounds c j b b' s f lo hi kl kr :
  at_frame c j b b' s f lo hi kl kr → lo ≤ b ∧ b' ≤ hi.
Proof.
  intros [Hst Hseps Hlen Hup Ha]. apply sstored_node_iff in Hst as (_ & _ & _ & Hsh & _).
  pose proof (sh_bounds _ _ _ _ _ Hsh) as Hb. unfold sbounds in Hb. rewrite Hseps in Hb.
  pose proof (upper_max _ _ Hb) as Hm. rewrite upper_app in Hm. apply (f_equal (upper lo)) in Hseps. rewrite !upper_app in Hseps. cbn [upper] in *.
  rewrite <-Hseps in Hm. split.
  - rewrite app_comm_cons in Hb. apply pairwise_app in Hb as (Hb & _). apply upper_max, Forall_cons_iff in Hb as [Hb _]. lia.
  - apply Forall_cons_iff in Hm as [_ Hm]. apply Forall_app in Hm as [_ Hm]. by apply Forall_cons_iff in Hm as [Hm _].
Qed.

(** One tree in the place of the child: the page stays as it is. *)
Lemma close_frame W c c' j b b' s s' f lo hi kl kr key v :
  sizes_ok → at_frame c j b b' s f lo hi kl kr → agree W c c' → Forall (apart W) (frame_blocks f) →
  sstored c' j b b' s' → saddr s' = saddr s → b ≤ key → fupserted key v s [s'] →
  sstored c' (S j) lo hi (fill f [s']) ∧ fupserted key v (fill f [s]) [fill f [s']].
Proof.
  intros Hsz Haf Hag Hw Hst' Hsa Hk Hup.
  destruct (frame_forest W c c' j b b' s f lo hi kl kr [] [s'] Hsz Haf Hag Hw) as [Hf _]; [done|].
  split; [|unfold fupserted; rewrite fcontents_one; unfold fill at 1; rewrite fcontents_node; by eapply frame_upserted].
  pose proof Haf as [Hst Hseps Hlen _ Ha]. apply sstored_node_iff in Hst as (Hh & Hc & Hlk & [] & _). apply sstored_node_iff.
  apply Forall_cons_iff in Hw as [Hw _]. split.
  { apply (ag_holds _ _ _ Hag); [done|done|]. by rewrite (proj2 (dec_enc_InternalPage _ Hsz sh_typed0)). }
  split; [done|]. split; [done|]. split.
  - split; try done. rewrite sh_kids0, !map_app. cbn [map]. by rewrite Hsa.
  - rewrite Hseps. exact Hf.
Qed.

Lemma close_path W c c' L key v : ∀ fs j b b' s s',
  sizes_ok → path_ok c L j b b' s fs → agree W c c' → Forall (apart W) (cblocks fs) →
  sstored c' j b b' s' → saddr s' = saddr s → b ≤ key → fupserted key v s [s'] →
  sstored c' L key_min key_max (plug fs s') ∧ saddr (plug fs s') = saddr (plug fs s) ∧
  scontents (plug fs s') = <[key := v]> (scontents (plug fs s)).
Proof.
  induction fs as [|f fs IH]; intros j b b' s s' Hsz Hp Hag Hw Hst Hsa Hk Hup.
  - destruct Hp as (-> & -> & ->). split; [done|]. split; [done|]. cbn [plug]. by rewrite <-fcontents_one.
  - destruct Hp as (lo & hi & kl & kr & Haf & Hp). cbn [cblocks] in Hw. apply Forall_app in Hw as [Hw1 Hw2].
    destruct (close_frame W c c' j b b' s s' f lo hi kl kr key v Hsz Haf Hag Hw1 Hst Hsa Hk Hup) as [Hst' Hup'].
    destruct (frame_bounds _ _ _ _ _ _ _ _ _ _ Haf). by apply (IH (S j) lo hi); [..|lia|].
Qed.

Lemma upper_take lo ks i b : (lo :: ks) !! i = Some b → upper lo (take i ks) = b.
Proof.
  revert lo i. induction ks as [|k ks IH]; intros lo [|i] Hi; cbn in *; try congruence; [done|]. by apply IH.
Qed.

(** The page of a node with the hole on the path of a key. *)
Lemma open_frame c l lo hi a p ts key :
  sstored c (S l) lo hi (SNode a p ts) → ga_ok a → lo ≤ key < hi →
  ∃ t f b b' kl kr, ts !! rank (iseps p) key = Some t ∧ fill f [t] = SNode a p ts ∧ fr_addr f = a ∧
    at_frame c l b b' t f lo hi kl kr ∧ sstored c l b b' t ∧ ga_ok (saddr t) ∧ b ≤ key < b'.
Proof.
  intros Hst Ha Hkey. pose proof (sstored_kids _ _ _ _ _ _ _ Hst) as Hlen. pose proof (rank_le (iseps p) key).
  destruct (lookup_lt_is_Some_2 ts (rank (iseps p) key)) as [t Ht]; [lia|].
  destruct (snode_lookup _ _ _ _ _ _ _ _ _ Hst Hkey Ht) as (_ & b & b' & Hb1 & Hb2 & Hst1 & Hb).
  assert (ga_ok (saddr t)) as Hta.
  { inversion Hst as [|? ? ? ? ? ? _ Hty _ _ _ _ _ _ _ _ Hk _]; subst. by eapply skid_addr_ok. }
  set (i := rank (iseps p) key) in *.
  exists t, (mkFrame a p (take i ts) (drop (S i) ts)), b, b', (take i (iseps p ++ [hi])), (drop (S i) (iseps p ++ [hi])).
  assert (fill (mkFrame a p (take i ts) (drop (S i) ts)) [t] = SNode a p ts) as Hfill.
  { unfold fill. cbn [fr_addr fr_page fr_left fr_right app]. f_equal. by apply take_drop_middle. }
  split; [done|]. split; [done|]. split; [done|]. split; [|done]. split; cbn [fr_page fr_left fr_addr]; try done.
  - by rewrite Hfill.
  - symmetry. apply take_drop_middle. exact Hb2.
  - rewrite !length_take, length_app. cbn [length]. lia.
  - by apply upper_take.
Qed.

(** A stored tree opened at the leaf of [key]; the frames are the pages on the way. *)
Lemma open_path c L key : ∀ l t lo hi fs0,
  path_ok c L l lo hi t fs0 → sstored c l lo hi t → ga_ok (saddr t) → lo ≤ key < hi →
  ∃ fs a p items b b', sdescend l key t = Some (SLeaf a p items) ∧ plug (fs ++ fs0) (SLeaf a p items) = plug fs0 t ∧
    path_ok c L 0 b b' (SLeaf a p items) (fs ++ fs0) ∧ sstored c 0 b b' (SLeaf a p items) ∧ ga_ok a ∧ b ≤ key < b' ∧ length fs = l ∧
    ∀ i f, fs !! i = Some f → saddr <$> sdescend (l - S i) key t = Some (fr_addr f).
Proof.
  induction l as [|l IH]; intros t lo hi fs0 Hp Hst Ha Hkey.
  - destruct t as [a p items|]; [|inversion Hst]. exists [], a, p, items, lo, hi. by do 7 (split; [done|]).
  - destruct t as [|a p ts]; [inversion Hst|].
    destruct (open_frame c l lo hi a p ts key Hst Ha Hkey) as (t & f & b & b' & kl & kr & Ht & Hfill & Hfa & Haf & Hst1 & Hta & Hb).
    destruct (IH t b b' (f :: fs0)) as (fs & a1 & p1 & items & d & d' & Hd & Hpl & Hp1 & Hst2 & Ha1 & Hdk & Hlen & Haddr); [|done|done|done|].
    { exists lo, hi, kl, kr. split; [done|]. by rewrite Hfill. }
    exists (fs ++ [f]), a1, p1, items, d, d'. rewrite <-app_assoc. cbn [app]. split; [cbn; by rewrite Ht|].
    split; [rewrite Hpl; cbn [plug]; by rewrite Hfill|]. do 4 (split; [done|]). split; [rewrite length_app; cbn; lia|].
    intros i f' Hi. apply lookup_app_Some in Hi as [Hi|[Hge Hi]].
    + rewrite <-(Haddr i f' Hi). pose proof (lookup_lt_Some _ _ _ Hi). replace (S l - S i)%nat with (S (l - S i)) by lia. cbn [sdescend]. by rewrite Ht.
    + pose proof (lookup_lt_Some _ _ _ Hi) as Hlt. cbn [length] in Hlt. replace (i - length fs)%nat with 0%nat in Hi by lia. injection Hi as <-.
      replace (S l - S i)%nat with 0%nat by lia. cbn. by rewrite Hfa.
Qed.
End path.
