(* ===== verification/ShermanGrow.v ===== *)
(** * The insert of the Sherman index with splits

    Runs of [insert] (src/kv_index/sherman_index.cpp) that fill a page: the leaf is
    split and its separator goes up, [insert_to_internal] locks, changes and maybe
    splits one page after the other along [path_stack], and [update_root_offset] makes
    a new root.  Together with ShermanInsert.v every insert of a thread that works
    alone, without cache and local locks, is covered. *)

From S2P Require Import Prelude GlobalAddress RdmaSim ThreadStats Queue MemoryServer Slab RdmaManager LocalLock KVBlock FaunusNode FaunusIndex FaunusTree FaunusRead FaunusFrame FaunusInsert FaunusUpsert FaunusInit ShermanNode ShermanIndex ShermanRead ShermanFrame ShermanInsert ShermanForest.

(** ** The bytes of pages *)

Section page.
Context {cfg : FaunusConfig} {scfg : ShermanConfig}.
Context {Q : Type → Type} `{!ConcurrentQueue Q}.
Implicit Types c : Cluster Q.

Definition set_ilock (v : Z) (p : InternalPage) : InternalPage :=
  mkIPage v (front_version p) (ihdr p) (irecords p) (ipadding p) (rear_version p).

(** The bytes of a page behind its lock word. *)
Definition ibody (p : InternalPage) : list Z := drop 8 (enc_InternalPage p).
Definition lbody (p : LeafPage) : list Z := drop 8 (enc_LeafPage p).

Lemma enc_set_ilock v p : enc_InternalPage (set_ilock v p) = le_bytes 8 v ++ ibody p.
Proof. unfold ibody, enc_InternalPage, enc_page. by rewrite drop_app_length' by (by rewrite length_le_bytes). Qed.
Lemma enc_lbody v p : enc_LeafPage (set_llock v p) = le_bytes 8 v ++ lbody p.
Proof. unfold lbody, enc_LeafPage, enc_page. by rewrite drop_app_length' by (by rewrite length_le_bytes). Qed.

Lemma set_ilock_id p : embedding_lock p = 0 → set_ilock 0 p = p.
Proof. intros H. destruct p. cbn in *. by subst. Qed.
Lemma set_ilock_typed v p : in_width 64 v → ipage_typed p → ipage_typed (set_ilock v p).
Proof. intros Hv (_ & H). by split. Qed.

Lemma internal_insert_ilock k x v p : internal_insert k x (set_ilock v p) = set_ilock v (internal_insert k x p).
Proof. unfold internal_insert. cbn [ihdr irecords set_ilock]. by case_match. Qed.
Lemma internal_split_ilock x v p :
  internal_split x (set_ilock v p) = let '(p', sib, k) := internal_split x p in (set_ilock v p', sib, k).
Proof. done. Qed.
Lemma leaf_split_llock x keyed v p :
  leaf_split x keyed (set_llock v p) = match leaf_split x keyed p with Some (p', sib, k) => Some (set_llock v p', sib, k) | None => None end.
Proof. unfold leaf_split. by destruct (keyed !! _) as [[]|]. Qed.

Lemma enc_SHeader_bytes h : bytes_ok (enc_SHeader h).
Proof. unfold enc_SHeader. rewrite !Forall_app. split_and!; auto using le_bytes_ok, be_bytes_ok. Qed.

Lemma enc_page_bytes lk fv h recs pad rv : Forall bytes_ok recs → bytes_ok pad → bytes_ok (enc_page lk fv h recs pad rv).
Proof.
  intros Hr Hp. unfold enc_page. rewrite !Forall_app. split_and!; auto using le_bytes_ok, enc_SHeader_bytes. by apply Forall_concat.
Qed.
Lemma enc_InternalPage_bytes p : bytes_ok (ipadding p) → bytes_ok (enc_InternalPage p).
Proof.
  intros H. apply enc_page_bytes; [|done]. apply Forall_map, list.Forall_forall. intros e _. unfold enc_SEntry.
  apply Forall_app. split; auto using le_bytes_ok, be_bytes_ok.
Qed.
Lemma enc_LeafPage_bytes p : bytes_ok (lpadding p) → bytes_ok (enc_LeafPage p).
Proof. intros H. apply enc_page_bytes; [|done]. apply Forall_map, list.Forall_forall. intros e _. apply enc_LeafEntry_bytes. Qed.

Lemma page_padding_bytes c a lk fv h recs pad rv : holds c a (enc_page lk fv h recs pad rv) → bytes_ok pad.
Proof. intros H%holds_bytes. unfold enc_page in H. rewrite !Forall_app in H. tauto. Qed.
Lemma zero_bytes n : bytes_ok (replicate n 0).
Proof. apply Forall_replicate. unfold byte_ok, in_width. lia. Qed.

Lemma length_enc_InternalPage p : sizes_ok → ipage_typed p → length (enc_InternalPage p) = kInternalPageSize.
Proof. intros Hsz Hty. apply (dec_enc_InternalPage p Hsz Hty). Qed.
Lemma length_ibody p : sizes_ok → ipage_typed p → (8 + length (ibody p))%nat = kInternalPageSize.
Proof.
  intros Hsz Hty. unfold ibody. rewrite length_drop, length_enc_InternalPage by done. destruct Hsz. lia.
Qed.
Lemma length_lbody p : sizes_ok → lpage_typed p → (8 + length (lbody p))%nat = kLeafPageSize.
Proof. intros Hsz Hty. unfold lbody. rewrite length_drop, length_enc_LeafPage by done. destruct Hsz. lia. Qed.

(** Writing a locked page back and then clearing its lock word. *)
Lemma write_back_ok c a l0 v l n :
  fits c → ga_ok a → holds c a l0 → length l0 = n → n = (8 + length l)%nat → bytes_ok l →
  let c2 := write_at c a (le_bytes 8 v ++ l) in let c3 := write_at c2 a (le_bytes 8 0) in
  (∃ m, region_at c a (length (le_bytes 8 v ++ l)) m) ∧ (∃ m, region_at c2 a 8 m) ∧
  holds c3 a (le_bytes 8 0 ++ l) ∧ fits c3 ∧ agree [(a, Z.of_nat n)] c c3.
Proof.
  intros Hf Ha Hh Hl0 Hn Hl c2 c3. assert (length (le_bytes 8 v ++ l) = n) as Hlen by (by rewrite length_app, length_le_bytes).
  destruct (patch_whole c a (le_bytes 8 v ++ l) Hf Ha) as (Hh2 & Hf2 & Hag2 & Hr2).
  { apply holds_readable in Hh. by rewrite Hlen, <-Hl0. }
  { apply Forall_app. split; [apply le_bytes_ok|done]. }
  fold c2 in Hh2, Hf2, Hag2.
  destruct (patch_start c2 a (le_bytes 8 v ++ l) (le_bytes 8 0) Hf2 Ha Hh2 (le_bytes_ok _ _)) as (Hh3 & Hf3 & Hag3 & Hr3).
  { rewrite length_app, !length_le_bytes. lia. }
  fold c3 in Hh3, Hf3, Hag3. rewrite length_le_bytes in Hr3. split; [done|]. split; [done|]. split; [|split; [done|]].
  - unfold splice in Hh3. cbn [take app] in Hh3. by rewrite drop_app_length' in Hh3 by (by rewrite !length_le_bytes).
  - rewrite Hlen in Hag2, Hag3. eapply agree_weaken; [exact (agree_trans _ _ _ _ _ Hag2 Hag3)|].
    intros r Hr. apply Forall_app. by split.
Qed.
End page.

(** ** What keeps the path *)

Section runs.
Context {cfg : FaunusConfig} {scfg : ShermanConfig}.
Context {Q : Type → Type} `{!ConcurrentQueue Q}.
Context {C Ent : Type} `{!NodeCache C Ent (GlobalAddress * InternalPage)} `{!RangedCache C Ent (GlobalAddress * InternalPage)}.
Abbreviation SW := (SWorld (Q := Q) (C := C)).
Implicit Types w : SW.

Abbreviation keeps_path := (keeps (path_stack (Q := Q) (C := C))).

Lemma keeps_kv {A} (m : M (World Q C) A) : keeps_path (on_kv m).
Proof. intros w a w'. apply on_kv_path. Qed.
Lemma keeps_locks {A} lm (m : M _ A) : keeps_path (on_locks lm m).
Proof. intros w a w'. unfold on_locks. destruct (m _); [|done]. by intros [= _ <-]. Qed.
Hint Resolve keeps_kv keeps_locks : keeps.

Lemma keeps_root : keeps_path get_root_offset.
Proof. unfold get_root_offset, sread. keeps. Qed.
Lemma keeps_lock_read fuel spins a b n : keeps_path (lock_and_read_page fuel spins a b n).
Proof. unfold lock_and_read_page, try_lock_address, lock_step, sread. keeps. Qed.
Lemma keeps_write_unlock bs a b : keeps_path (write_page_and_unlock bs a b).
Proof. unfold write_page_and_unlock. keeps. Qed.
Lemma keeps_unlock a : keeps_path (unlock_address a).
Proof. unfold unlock_address. keeps. Qed.
Lemma keeps_scan key value fp recs : ∀ i cnt e, keeps_path (leaf_insert_scan key value fp recs i cnt e).
Proof.
  induction recs as [|r recs IH]; intros i cnt e; cbn [leaf_insert_scan]; [auto with keeps|]. unfold sread, swrite. keeps.
Qed.
Lemma keeps_read_keys recs : keeps_path (read_keys recs).
Proof.
  induction recs as [|r recs IH]; cbn [read_keys]; [auto with keeps|]. unfold sread. keeps.
Qed.

(** ** Allocation *)

(** [salloc] hands out a block that the index does not use. *)
Lemma salloc_run w n live :
  local_inv (w_slabs (kv w), scl w) live → fits (scl w) → (0 < nfree (w_slabs (kv w)) n)%nat →
  Forall (λ r, r.1 ≠ Null) (avail (w_slabs (kv w))) →
  ∃ x slabs' w', salloc n w = Done x w' ∧ smoved (scl w) slabs' w w' ∧ local_inv (slabs', scl w) ((x, Z.of_nat n) :: live) ∧
    ga_ok x ∧ x ≠ Null ∧ readable (scl w) x n ∧ (∀ k, (nfree (w_slabs (kv w)) k ≤ S (nfree slabs' k))%nat) ∧
    Forall (λ r, r.1 ≠ Null) (avail slabs').
Proof.
  intros Hinv Hf Hn Hnn. destruct (nfree_slab _ _ _ _ Hinv Hn) as (sl & Hsl & Hne).
  destruct (allocate_run (kv w) n sl live Hsl Hne Hinv Hf) as (x & slabs' & Hal & Hinv' & _ & Hx & _ & Hrd & _ & Hav).
  destruct (on_kv_moved (allocate n) w x _ (scl w) slabs' Hal) as (w' & Hrun & Hm); [done|].
  exists x, slabs', w'. rewrite Hav in Hnn. apply Forall_cons_iff in Hnn as [Hxn Hnn].
  do 5 (split; [done|]). split; [done|]. split; [|done]. intros k. by eapply nfree_take.
Qed.

(** The keys of the records of a leaf. *)
Lemma read_keys_run recs : ∀ items w,
  alone w → Forall2 (sitem_at (scl w)) (occupied recs) items →
  ∃ w', read_keys recs w = Done (map keyed_entry (zip (occupied recs) items)) w' ∧ smoved (scl w) (w_slabs (kv w)) w w'.
Proof.
  induction recs as [|r recs IH]; intros items w Ho Hit.
  { apply Forall2_nil_inv_l in Hit. subst. exists w. split; [done|apply moved_same]. }
  cbn [read_keys]. unfold occupied in *. destruct (is_empty r) eqn:He.
  { rewrite filter_cons_False in * by (by rewrite He). by apply IH. }
  rewrite filter_cons_True in * by done. apply Forall2_cons_inv_l in Hit as (kv0 & its & (Hh & Hok & Hfp) & Hit & ->).
  destruct (sread_run w (kv_ptr r) _ sizeof_KVItem Ho Hh (length_enc_KVItem _)) as (w1 & Hr & Hm1).
  pose proof (smoved_cl _ _ _ _ Hm1) as Hc1. pose proof (smoved_slabs _ _ _ _ Hm1) as Hs1.
  destruct (IH its w1) as (w2 & H2 & Hm2); [by eapply smoved_alone|by rewrite Hc1|]. rewrite Hc1, Hs1 in Hm2.
  exists w2. split; [|by eapply smoved_trans]. rewrite (bind_done _ _ _ _ _ Hr), (bind_done _ _ _ _ _ H2). cbn [fst snd].
  by rewrite dec_enc_KVItem.
Qed.
End runs.
#[export] Hint Resolve keeps_kv keeps_locks keeps_lock_read keeps_write_unlock keeps_unlock keeps_scan keeps_read_keys : keeps.

(** ** Stages of an insert *)

Section stages.
Context {cfg : FaunusConfig} {scfg : ShermanConfig}.
Context {Q : Type → Type} `{!ConcurrentQueue Q}.
Context {C Ent : Type} `{!NodeCache C Ent (GlobalAddress * InternalPage)} `{!RangedCache C Ent (GlobalAddress * InternalPage)}.
Abbreviation SW := (SWorld (Q := Q) (C := C)).
Implicit Types (w : SW) (f : frame) (fs : list frame) (s t : stree) (ss ts : list stree).

(** The blocks of the index outside of the subtree with the frames [fs]. *)
Definition outside w fs : list (Z * Z) := (root_offset_pointer_ (kv w), 8) :: cblocks fs.

(** From [w] to [w'] the subtree [s] with the bounds [b] and [b'] inside the frames [fs] was
    replaced by the trees [ss] with the separators [ks] between them, which map [key] to
    [value]; everything outside is as it was, and at most [used] blocks were allocated. *)
Record stage w w' (used : nat) fs (j : nat) (b b' key value : Z) s (ks : list Z) ss : Prop := mkStage {
  sg_moved : smoved (scl w') (w_slabs (kv w')) w w';
  sg_path : path_stack w' = path_stack w;
  sg_fits : fits (scl w');
  sg_agree : ∃ W, agree W (scl w) (scl w') ∧ Forall (apart W) (outside w fs);
  sg_forest : forest (scl w') j b (ks ++ [b']) ss;
  sg_bounds : Forall (λ k, b < k < b' ∧ key_ok k) ks;
  sg_addr : head (map saddr ss) = Some (saddr s);
  sg_addrs : Forall (λ t, ga_ok (saddr t)) ss;
  sg_contents : fupserted key value s ss;
  sg_alloc : local_inv (w_slabs (kv w'), scl w') (outside w fs ++ concat (map sblocks ss));
  sg_null : Forall (λ r, r.1 ≠ Null) (avail (w_slabs (kv w')));
  sg_pages : pages_ok (cpages fs ++ concat (map spages ss));
  sg_free : ∀ n, (nfree (w_slabs (kv w)) n ≤ nfree (w_slabs (kv w')) n + used)%nat
}.

(** A new block is at none of the addresses in use. *)
Lemma fresh_addr (slabs : gmap Z (SlabAllocator Q)) (c : Cluster Q) x n live :
  local_inv (slabs, c) ((x, n) :: live) → x ∉ map fst live.
Proof.
  intros (_ & _ & Hd & Hg) Hin. cbn [fst snd] in *. apply pairwise_app in Hd as (_ & [Hd _] & _). apply Forall_app in Hg as [_ Hg].
  apply Forall_cons_iff in Hg as [[Hn _] Hg]. apply list_elem_of_fmap in Hin as ([y m] & -> & Hin). cbn [fst snd] in *.
  rewrite list.Forall_forall in Hd, Hg. specialize (Hd _ Hin). destruct (Hg _ Hin) as [Hm _]. cbn [snd] in Hm. unfold disjoint_range in Hd. cbn [fst snd] in Hd. lia.
Qed.

Lemma forest_page_block ts x : x ∈ page_addrs (concat (map spages ts)) → x ∈ map fst (concat (map sblocks ts)).
Proof.
  unfold page_addrs. induction ts as [|t ts IH]; [done|]. cbn [map concat]. rewrite !map_app, !elem_of_app.
  intros [H|H]; [left; by apply page_block|right; by apply IH].
Qed.

Lemma context_page_block fs ss x :
  x ∈ page_addrs (cpages fs ++ concat (map spages ss)) → x ∈ map fst (cblocks fs ++ concat (map sblocks ss)).
Proof.
  unfold page_addrs. rewrite !map_app, !elem_of_app. intros [H|H]; [left|right; by apply forest_page_block].
  induction fs as [|f fs IH]; [done|]. cbn [cpages cblocks] in *. unfold frame_pages, frame_blocks in *.
  cbn [app map] in *. rewrite !map_app in *. rewrite elem_of_cons, !elem_of_app in *. cbn [compose fst] in *.
  destruct H as [H|[[H|H]|H]]; [by left|..]; right; [left; left|left; right|right]; [by apply forest_page_block..|by apply IH].
Qed.

Lemma pages_room rest a sb r : pages_ok (rest ++ [(a, sb, r)]) → a ≠ Null ∧ r = true ∧ (sb = Null ∨ sb ≠ a ∧ sb ∈ page_addrs (rest ++ [(a, sb, r)])).
Proof. intros H. apply Forall_app in H as [_ H]. apply Forall_cons_iff in H as [H _]. exact H. Qed.

(** A page gets a new right neighbour. *)
Lemma pages_split rest a sb r x :
  pages_ok (rest ++ [(a, sb, r)]) → x ≠ Null → x ∉ page_addrs (rest ++ [(a, sb, r)]) → pages_ok (rest ++ [(a, x, true); (x, sb, true)]).
Proof.
  intros Hok Hx Hni. destruct (pages_room _ _ _ _ Hok) as (Ha & _ & Hsb).
  assert (x ≠ a) as Hxa. { intros ->. apply Hni. unfold page_addrs. rewrite map_app, elem_of_app. right. left. }
  eapply pages_ok_replace; [exact Hok| |].
  - intros y Hy. cbn in *. apply list_elem_of_singleton in Hy as ->. left.
  - constructor; [|constructor; [|constructor]]; (split; [done|split; [done|]]); cbn [fst snd].
    + right. split; [done|]. unfold page_addrs. rewrite map_app, elem_of_app. right. right. left.
    + destruct Hsb as [->|[Hne Hin]]; [by left|right]. split; [by intros ->|]. unfold page_addrs in *.
      rewrite map_app, elem_of_app in Hin |- *. destruct Hin as [Hin|Hin]; [by left|]. cbn in Hin. by apply list_elem_of_singleton in Hin.
Qed.

(** A sibling pointer leads neither to its page nor to a new block. *)
Lemma sibling_not_here rest a sb r x :
  pages_ok (rest ++ [(a, sb, r)]) → x ≠ Null → x ∉ page_addrs (rest ++ [(a, sb, r)]) → sb ≠ a ∧ sb ≠ x.
Proof.
  intros Hok Hx Hni. destruct (pages_room _ _ _ _ Hok) as (Ha & _ & [->|[Hne Hin]]); [by split|].
  split; [done|]. intros ->. done.
Qed.

Lemma pages_not_null ps ts : pages_ok ps → concat (map spages ts) ⊆ ps → Forall (λ t, saddr t ≠ Null) ts.
Proof.
  intros Hok Hsub. apply list.Forall_forall. intros t Ht.
  assert (∃ sb r, (saddr t, sb, r) ∈ spages t) as (sb & r & Hin) by (destruct t; eexists _, _; left).
  unfold pages_ok in Hok. rewrite list.Forall_forall in Hok. apply (Hok (saddr t, sb, r)). apply Hsub.
  apply list_elem_of_In, in_concat. exists (spages t). split; [apply in_map|]; by apply list_elem_of_In.
Qed.

(** What a stage says about the page around the hole. *)
Record parent_ready w w' fs (j : nat) (key value lo hi : Z) f s ks ts : Prop := mkParent {
  pr_holds : holds (scl w') (fr_addr f) (enc_InternalPage (fr_page f));
  pr_consistent : icheck_consistent (fr_page f) = true;
  pr_lock : embedding_lock (fr_page f) = 0;
  pr_shape : shape j lo hi (fr_page f) (fr_left f ++ s :: fr_right f);
  pr_addr : ga_ok (fr_addr f);
  pr_forest : forest (scl w') j lo ks ts;
  pr_addrs : Forall (λ t, ga_ok (saddr t)) ts;
  pr_null : Forall (λ t, saddr t ≠ Null) ts;
  pr_alloc : local_inv (w_slabs (kv w'), scl w') ((fr_addr f, Z.of_nat kInternalPageSize) :: outside w fs ++ concat (map sblocks ts));
  pr_pages : pages_ok ((cpages fs ++ concat (map spages ts)) ++ [(fr_addr f, sibling_ptr (ihdr (fr_page f)), node_room (fr_page f))]);
  pr_contents : fcontents ts = <[key := value]> (scontents (fill f [s]))
}.

Lemma stage_parent w w' used f fs j b b' key value s ks ss lo hi kl kr :
  sizes_ok → stage w w' used (f :: fs) j b b' key value s ks ss → at_frame (scl w) j b b' s f lo hi kl kr → b ≤ key →
  parent_ready w w' fs j key value lo hi f s (kl ++ (ks ++ [b']) ++ kr) (fr_left f ++ ss ++ fr_right f).
Proof.
  intros Hsz Hsg Haf Hk. pose proof Haf as [Hst _ _ _ Ha]. destruct (sg_agree _ _ _ _ _ _ _ _ _ _ _ _ Hsg) as (W & Hag & Hw).
  unfold outside in Hw. cbn [cblocks] in Hw. apply Forall_cons_iff in Hw as [_ Hw]. apply Forall_app in Hw as [Hw _].
  destruct (frame_forest W (scl w) (scl w') j b b' s f lo hi kl kr ks ss Hsz Haf Hag Hw (sg_forest _ _ _ _ _ _ _ _ _ _ _ _ Hsg)) as [Hf _].
  apply sstored_node_iff in Hst as (Hh & Hc & Hlk & Hsh & _).
  assert (concat (map spages (fr_left f ++ ss ++ fr_right f)) ≡ₚ
          (concat (map spages (fr_left f)) ++ concat (map spages (fr_right f))) ++ concat (map spages ss)) as Hpp by apply concat_around.
  assert (pages_ok ((cpages fs ++ concat (map spages (fr_left f ++ ss ++ fr_right f))) ++ [(fr_addr f, sibling_ptr (ihdr (fr_page f)), node_room (fr_page f))])) as Hpg.
  { eapply pages_ok_perm; [|exact (sg_pages _ _ _ _ _ _ _ _ _ _ _ _ Hsg)]. rewrite Hpp. cbn [cpages]. unfold frame_pages. solve_Permutation. }
  split; try done.
  - apply (ag_holds _ _ _ Hag); [done|done|]. rewrite length_enc_InternalPage by (done || apply Hsh). by apply Forall_cons_iff in Hw as [Hw _].
  - assert (Forall (λ t, ga_ok (saddr t)) (fr_left f ++ [s] ++ fr_right f)) as Hga.
    { apply list.Forall_forall. intros t [i Hi]%list_elem_of_lookup. by eapply skid_addr_ok; [apply Hsh|apply Hsh|]. }
    rewrite !Forall_app in Hga |- *. destruct Hga as (? & _ & ?). split; [done|]. split; [apply Hsg|done].
  - eapply pages_not_null; [exact Hpg|]. intros x Hx. rewrite !elem_of_app. left. by right.
  - eapply local_inv_perm; [exact (sg_alloc _ _ _ _ _ _ _ _ _ _ _ _ Hsg)|]. unfold outside. cbn [cblocks]. unfold frame_blocks.
    rewrite (concat_around sblocks (fr_left f) ss (fr_right f)). solve_Permutation.
  - by eapply frame_upserted; [exact Haf|done|apply Hsg].
Qed.

(** ** One internal page *)

(** What follows the split of a page: a new root, or the separator goes to the parent. *)
Definition after_split fuel spins (calls : nat) (addr : GlobalAddress) (k : Z) (x root : GlobalAddress) (level_ : Z) : M SW unit :=
  updated ← (if root =? addr then update_root_offset addr k x (level_ + 1) root else mret false);
  if (updated : bool) then mret tt
  else
    w ← get;
    match path_stack w !! Z.to_nat (level_ + 1) with
    | None => raise OutOfBounds
    | Some up_level =>
        if negb (up_level =? Null) then insert_to_internal fuel spins calls up_level k x root (level_ + 1)
        else assert_ false
    end.

(** [insert_to_internal] once the separator is in the page. *)
Definition internal_tail fuel spins (calls : nat) (page_addr root : GlobalAddress) (level_ : Z) (hdr : SHeader) (page : InternalPage) : M SW unit :=
  if negb (s16 (cnt_of (ihdr page)) =? Z.of_nat kInternalCardinality) then
    write_page_and_unlock (enc_InternalPage (iset_consistent page)) page_addr page_addr
  else
    sibling_addr ← salloc kInternalPageSize;
    let '(page', sibling, split_key) := internal_split sibling_addr page in
    _ ← assert_ (lowest hdr <? split_key);
    _ ← assert_ (split_key <? highest hdr);
    _ ← assert_ (negb (sibling_addr =? page_addr));
    _ ← assert_ (negb (sibling_ptr (ihdr sibling) =? page_addr));
    _ ← assert_ (negb (sibling_ptr (ihdr sibling) =? sibling_addr));
    ok ← swrite sibling_addr (enc_InternalPage (iset_consistent sibling));
    _ ← assert_ ok;
    _ ← write_page_and_unlock (enc_InternalPage (iset_consistent page')) page_addr page_addr;
    after_split fuel spins calls page_addr split_key sibling_addr root level_.

(** From [w] to [w'] only the [n] bytes at [a] were written, which then hold [l]. *)
Record wrote w w' (a : GlobalAddress) (n : nat) (l : list Z) : Prop := mkWrote {
  wr_moved : smoved (scl w') (w_slabs (kv w)) w w';
  wr_path : path_stack w' = path_stack w;
  wr_fits : fits (scl w');
  wr_holds : holds (scl w') a l;
  wr_agree : agree [(a, Z.of_nat n)] (scl w) (scl w');
  wr_inv : ∀ slabs live, local_inv (slabs, scl w) live → local_inv (slabs, scl w') live
}.

Lemma page_lock_run fuel spins w a n body :
  plain w → fits (scl w) → ga_ok a → holds (scl w) a (le_bytes 8 0 ++ body) → n = (8 + length body)%nat →
  ∃ w', lock_and_read_page fuel spins a a n w = Done (le_bytes 8 (sherman_tag_ w) ++ body) w' ∧
        wrote w w' a n (le_bytes 8 (sherman_tag_ w) ++ body).
Proof.
  intros [Ho Hlm _ _] Hf Ha Hh Hn. destruct (lock_read_run fuel spins w a body n Ho Hlm Hf Ha Hh Hn) as (w' & H & Hm & Hh' & Hf' & Hag).
  exists w'. split; [done|]. pose proof (smoved_cl _ _ _ _ Hm) as Hc. rewrite <-Hc in Hh', Hf', Hag, Hm.
  split; try done; [exact (keeps_lock_read _ _ _ _ _ _ _ _ H)|]. intros slabs live Hi. rewrite Hc. by apply local_inv_write.
Qed.

Lemma page_unlock_run w a n l0 v body :
  plain w → fits (scl w) → ga_ok a → holds (scl w) a l0 → length l0 = n → n = (8 + length body)%nat → bytes_ok body →
  ∃ w', write_page_and_unlock (le_bytes 8 v ++ body) a a w = Done tt w' ∧ wrote w w' a n (le_bytes 8 0 ++ body).
Proof.
  intros [Ho Hlm _ _] Hf Ha Hh Hl0 Hn Hb. destruct (write_back_ok (scl w) a l0 v body n Hf Ha Hh Hl0 Hn Hb) as ([m1 H1] & [m2 H2] & Hh' & Hf' & Hag).
  destruct (write_unlock_run w a (le_bytes 8 v ++ body) a m1 m2 Ho Hlm H1 H2) as (w' & H & Hm). exists w'. split; [done|].
  pose proof (smoved_cl _ _ _ _ Hm) as Hc. rewrite <-Hc in Hh', Hf', Hag, Hm. split; try done; [exact (keeps_write_unlock _ _ _ _ _ _ H)|].
  intros slabs live Hi. rewrite Hc. by apply local_inv_write, local_inv_write.
Qed.

Lemma swrite_wrote w a bs :
  plain w → fits (scl w) → ga_ok a → readable (scl w) a (length bs) → bytes_ok bs →
  ∃ w', swrite a bs w = Done true w' ∧ wrote w w' a (length bs) bs.
Proof.
  intros [Ho _ _ _] Hf Ha Hr Hb. destruct (patch_whole (scl w) a bs Hf Ha Hr Hb) as (Hh & Hf' & Hag & [m Hm]).
  destruct (swrite_run w a bs m Ho Hm) as (w' & H & Hmv). exists w'. split; [done|].
  pose proof (smoved_cl _ _ _ _ Hmv) as Hc. rewrite <-Hc in Hh, Hf', Hag, Hmv. split; try done; [exact (on_kv_path _ _ _ _ H)|].
  intros slabs live Hi. rewrite Hc. by apply local_inv_write.
Qed.

Lemma wrote_plain w w' a n l : wrote w w' a n l → plain w → plain w'.
Proof. intros H. exact (plain_moved _ _ _ _ (wr_moved _ _ _ _ _ H)). Qed.
Lemma wrote_slabs w w' a n l : wrote w w' a n l → w_slabs (kv w') = w_slabs (kv w).
Proof. intros H. exact (smoved_slabs _ _ _ _ (wr_moved _ _ _ _ _ H)). Qed.

Lemma internal_prefix_run fuel spins calls w lo hi j p ts a k x root :
  sizes_ok → plain w → fits (scl w) → ga_ok a → holds (scl w) a (enc_InternalPage p) → embedding_lock p = 0 → icheck_consistent p = true →
  shape j lo hi p ts → lo ≤ k < hi → (icnt p < kInternalCardinality)%nat →
  ∃ w1, insert_to_internal fuel spins (S calls) a k x root (Z.of_nat (S j)) w =
          internal_tail fuel spins calls a root (Z.of_nat (S j)) (ihdr p) (set_ilock (sherman_tag_ w) (internal_insert k x p)) w1 ∧
        wrote w w1 a kInternalPageSize (le_bytes 8 (sherman_tag_ w) ++ ibody p).
Proof.
  intros Hsz Hpl Hf Ha Hh Hlk Hc Hsh Hk Hroom. pose proof (pl_tag _ Hpl) as Htag. pose proof Hsh as [Hty Hok _ Hlv Hlo Hhi _ _].
  destruct (page_lock_run fuel spins w a kInternalPageSize (ibody p) Hpl Hf Ha) as (w1 & H1 & Hpk).
  { rewrite <-enc_set_ilock, set_ilock_id by done. done. }
  { symmetry. by apply length_ibody. }
  exists w1. split; [|done]. cbn [insert_to_internal]. rewrite (bind_done _ _ _ _ _ H1). rewrite <-enc_set_ilock.
  rewrite (proj1 (dec_enc_InternalPage _ Hsz (set_ilock_typed _ _ Htag Hty))). cbv zeta. cbn [ihdr set_ilock].
  rewrite Hlv, Z.eqb_refl. cbn [assert_]. erewrite bind_done by reflexivity.
  change (icheck_consistent (set_ilock (sherman_tag_ w) p)) with (icheck_consistent p). rewrite Hc. cbn [assert_]. erewrite bind_done by reflexivity.
  rewrite (proj2 (Z.leb_gt _ _)) by lia. rewrite (proj2 (Z.leb_le _ _)) by lia. cbn [assert_]. erewrite bind_done by reflexivity.
  destruct (icnt_bounds p Hok) as [Hc1 Hc2]. pose proof (ip_small _ Hok).
  rewrite (s16_small (cnt_of (ihdr p))) by lia. rewrite (proj2 (Z.eqb_neq (cnt_of (ihdr p)) (Z.of_nat kInternalCardinality))) by lia. cbn [negb assert_]. erewrite bind_done by reflexivity.
  rewrite internal_insert_ilock. reflexivity.
Qed.

(** The padding of the pages made from a page in memory. *)
Lemma insert_padding k x p : ipadding (internal_insert k x p) = ipadding p.
Proof. unfold internal_insert. by case_match. Qed.
Lemma insert_lock k x p : embedding_lock (internal_insert k x p) = embedding_lock p.
Proof. unfold internal_insert. by case_match. Qed.

Lemma write_internal_run w a l0 q :
  sizes_ok → plain w → fits (scl w) → ga_ok a → holds (scl w) a l0 → length l0 = kInternalPageSize → ipage_typed q → embedding_lock q = 0 →
  bytes_ok (ipadding q) →
  ∃ w', write_page_and_unlock (enc_InternalPage (iset_consistent (set_ilock (sherman_tag_ w) q))) a a w = Done tt w' ∧
        wrote w w' a kInternalPageSize (enc_InternalPage (iset_consistent q)).
Proof.
  intros Hsz Hpl Hf Ha Hh Hl0 Hty Hlk Hb.
  assert (ipage_typed (iset_consistent q)) as Hty' by (by destruct (consistent_typed q (LeafPage_init 0) Hty (LeafPage_init_typed 0))).
  destruct (page_unlock_run w a kInternalPageSize l0 (sherman_tag_ w) (ibody (iset_consistent q)) Hpl Hf Ha Hh Hl0) as (w' & H & Hw).
  { symmetry. by apply length_ibody. }
  { unfold ibody. apply Forall_drop. by apply enc_InternalPage_bytes. }
  exists w'. change (iset_consistent (set_ilock (sherman_tag_ w) q)) with (set_ilock (sherman_tag_ w) (iset_consistent q)).
  rewrite enc_set_ilock. split; [exact H|]. rewrite <-enc_set_ilock in Hw. by rewrite set_ilock_id in Hw.
Qed.

(** The page has room for the separator. *)
Lemma internal_fit_run fuel spins calls w w' w1 used f fs j lo hi key value s kst ts root k x :
  sizes_ok → plain w' → parent_ready w w' fs j key value lo hi f s kst ts →
  smoved (scl w') (w_slabs (kv w')) w w' → path_stack w' = path_stack w →
  (∃ W, agree W (scl w) (scl w') ∧ Forall (apart W) (outside w fs)) →
  (∀ n, (nfree (w_slabs (kv w)) n ≤ nfree (w_slabs (kv w')) n + used)%nat) → Forall (λ r, r.1 ≠ Null) (avail (w_slabs (kv w'))) →
  let p := internal_insert k x (fr_page f) in
  shape j lo hi p ts → iseps p ++ [hi] = kst → sibling_ptr (ihdr p) = sibling_ptr (ihdr (fr_page f)) → (icnt p < kInternalCardinality)%nat →
  wrote w' w1 (fr_addr f) kInternalPageSize (le_bytes 8 (sherman_tag_ w') ++ ibody (fr_page f)) →
  ∃ w2, internal_tail fuel spins calls (fr_addr f) root (Z.of_nat (S j)) (ihdr (fr_page f)) (set_ilock (sherman_tag_ w') p) w1 = Done tt w2 ∧
        stage w w2 used fs (S j) lo hi key value (fill f [s]) [] [SNode (fr_addr f) (iset_consistent p) ts].
Proof.
  intros Hsz Hpl Hpr Hmv Hpa (W & Hag & Hap) Hfr Hnn p Hsh Hseps Hsib Hroom Hw1. pose proof Hpr as [Hh Hc Hlk Hsh0 Ha Hfo Hga Hnu Hal Hpg Hct].
  destruct (icnt_bounds p (sh_ok _ _ _ _ _ Hsh)) as [Hc1 Hc2]. pose proof (ip_small _ (sh_ok _ _ _ _ _ Hsh)) as Hsm.
  pose proof (wrote_plain _ _ _ _ _ Hw1 Hpl) as Hpl1. pose proof (sm_tag _ _ _ _ (wr_moved _ _ _ _ _ Hw1)) as Htag.
  destruct (write_internal_run w1 (fr_addr f) _ p Hsz Hpl1 (wr_fits _ _ _ _ _ Hw1) Ha (wr_holds _ _ _ _ _ Hw1)) as (w2 & H2 & Hw2).
  { rewrite length_app, length_le_bytes. apply length_ibody; [done|apply Hsh0]. }
  { apply Hsh. }
  { unfold p. by rewrite insert_lock. }
  { unfold p. rewrite insert_padding. by eapply page_padding_bytes. }
  rewrite Htag in H2. exists w2. split.
  { unfold internal_tail. cbn [ihdr set_ilock]. rewrite (s16_small (cnt_of (ihdr p))) by lia.
    rewrite (proj2 (Z.eqb_neq (cnt_of (ihdr p)) (Z.of_nat kInternalCardinality))) by lia. cbn [negb]. exact H2. }
  pose proof (wrote_slabs _ _ _ _ _ Hw1) as Hs1. pose proof (wrote_slabs _ _ _ _ _ Hw2) as Hs2.
  assert (agree ([(fr_addr f, Z.of_nat kInternalPageSize)] ++ [(fr_addr f, Z.of_nat kInternalPageSize)]) (scl w') (scl w2)) as Hag2
    by exact (agree_trans _ _ _ _ _ (wr_agree _ _ _ _ _ Hw1) (wr_agree _ _ _ _ _ Hw2)).
  pose proof (alloc_apart _ _ _ _ Hal) as Hdis. rewrite Forall_app in Hdis. destruct Hdis as [Hdo Hdt].
  assert (∀ r, disjoint_range r (fr_addr f, Z.of_nat kInternalPageSize) →
    apart ([(fr_addr f, Z.of_nat kInternalPageSize)] ++ [(fr_addr f, Z.of_nat kInternalPageSize)]) r) as Htwo.
  { intros r Hr. constructor; [done|]. by constructor. }
  assert (holds (scl w2) (fr_addr f) (enc_InternalPage (iset_consistent p))) as Hh2 by apply Hw2.
  assert (sstored (scl w2) (S j) lo hi (SNode (fr_addr f) (iset_consistent p) ts)) as Hst.
  { apply sstored_node_iff. split; [done|]. split; [apply Z.eqb_refl|]. split; [unfold p; cbn; by rewrite insert_lock|].
    split; [by apply shape_consistent|]. change (iseps (iset_consistent p)) with (iseps p). rewrite Hseps.
    eapply forest_agree; [done|exact Hag2|done|done|]. eapply Forall_impl; [|exact Hdt]. exact Htwo. }
  split; rewrite ?Hs2, ?Hs1; try done.
  - eapply smoved_trans; [exact Hmv|]. eapply smoved_trans; [apply Hw1|]. rewrite <-Hs1. apply Hw2.
  - rewrite (wr_path _ _ _ _ _ Hw2), (wr_path _ _ _ _ _ Hw1). done.
  - apply Hw2.
  - eexists. split; [exact (agree_trans _ _ _ _ _ Hag Hag2)|]. apply list.Forall_forall. intros r Hr. apply Forall_app. split.
    + rewrite list.Forall_forall in Hap. by apply Hap.
    + apply Htwo. rewrite list.Forall_forall in Hdo. by apply Hdo.
  - by constructor.
  - unfold fupserted. by rewrite fcontents_one, fcontents_node.
  - apply (wr_inv _ _ _ _ _ Hw2), (wr_inv _ _ _ _ _ Hw1). eapply local_inv_perm; [exact Hal|]. cbn [map concat sblocks]. rewrite app_nil_r. solve_Permutation.
  - cbn [map concat spages]. rewrite app_nil_r. eapply pages_ok_perm; [|exact Hpg].
    assert (node_room (iset_consistent p) = node_room (fr_page f)) as ->.
    { destruct (pages_room _ _ _ _ Hpg) as (_ & -> & _). by apply bool_decide_eq_true. }
    cbn [ihdr iset_consistent]. rewrite Hsib. solve_Permutation.
Qed.

Lemma split_fields x p :
  let '(p', sib, k) := internal_split x p in
  embedding_lock p' = embedding_lock p ∧ ipadding p' = ipadding p ∧ embedding_lock sib = 0 ∧ ipadding sib = replicate kInternalPagePadding 0.
Proof. done. Qed.

(** From [w] to [w'] the block [x] was allocated and written with [lx] and the page at
    [a], of the same size [n], with [la]; [live] are the other blocks. *)
Record paired w w' (slabs' : gmap Z (SlabAllocator Q)) (x a : GlobalAddress) (n : nat) (lx la : list Z) (live : list (Z * Z)) : Prop := mkPaired {
  pd_moved : smoved (scl w') slabs' w w';
  pd_path : path_stack w' = path_stack w;
  pd_fits : fits (scl w');
  pd_new : holds (scl w') x lx;
  pd_page : holds (scl w') a la;
  pd_agree : agree [(x, Z.of_nat n); (a, Z.of_nat n)] (scl w) (scl w');
  pd_alloc : local_inv (slabs', scl w') ((x, Z.of_nat n) :: (a, Z.of_nat n) :: live);
  pd_apart : Forall (apart [(x, Z.of_nat n); (a, Z.of_nat n)]) live
}.

(** A new block is written, and the page next to it written back. *)
Lemma sibling_run w n a l live :
  plain w → fits (scl w) → ga_ok a → holds (scl w) a l → length l = n →
  local_inv (w_slabs (kv w), scl w) ((a, Z.of_nat n) :: live) → (0 < nfree (w_slabs (kv w)) n)%nat → Forall (λ r, r.1 ≠ Null) (avail (w_slabs (kv w))) →
  ∃ x slabs' w1, salloc n w = Done x w1 ∧ ga_ok x ∧ x ≠ Null ∧ (x ∉ map fst ((a, Z.of_nat n) :: live)) ∧
    (∀ k, (nfree (w_slabs (kv w)) k ≤ S (nfree slabs' k))%nat) ∧ Forall (λ r, r.1 ≠ Null) (avail slabs') ∧
    (∀ bs v body, bytes_ok bs → length bs = n → n = (8 + length body)%nat → bytes_ok body →
     ∃ w2 w3, swrite x bs w1 = Done true w2 ∧ write_page_and_unlock (le_bytes 8 v ++ body) a a w2 = Done tt w3 ∧
       paired w w3 slabs' x a n bs (le_bytes 8 0 ++ body) live).
Proof.
  intros Hpl Hf Ha Hh Hl Hal Hn Hnn.
  destruct (salloc_run w n _ Hal Hf Hn Hnn) as (x & slabs' & w1 & H1 & Hm1 & Hal1 & Hx & Hxn & Hrd & Hfr & Hnn').
  pose proof (smoved_cl _ _ _ _ Hm1) as Hc1. pose proof (plain_moved _ _ _ _ Hm1 Hpl) as Hpl1.
  exists x, slabs', w1. split; [done|]. split; [done|]. split; [done|]. split; [by eapply fresh_addr|]. split; [done|]. split; [done|].
  intros bs v body Hb Hlb Hlen Hbd. pose proof (alloc_apart _ _ _ _ Hal1) as [Hax Hlx]%Forall_cons_iff.
  pose proof (alloc_apart _ _ _ _ (local_inv_tail _ _ _ _ Hal1)) as Hla.
  destruct (swrite_wrote w1 x bs) as (w2 & H2 & Hw2); rewrite ?Hc1; try done; [by rewrite Hlb|]. rewrite Hlb in Hw2.
  assert (holds (scl w2) a l) as Hh2.
  { apply (ag_holds _ _ _ (wr_agree _ _ _ _ _ Hw2)); rewrite ?Hc1; try done. rewrite Hl. by apply apart_one. }
  destruct (page_unlock_run w2 a n l v body (wrote_plain _ _ _ _ _ Hw2 Hpl1) (wr_fits _ _ _ _ _ Hw2) Ha Hh2 Hl Hlen Hbd) as (w3 & H3 & Hw3).
  exists w2, w3. split; [done|]. split; [done|]. pose proof (wrote_slabs _ _ _ _ _ Hw2) as Hs2. rewrite (smoved_slabs _ _ _ _ Hm1) in Hs2.
  pose proof (wr_agree _ _ _ _ _ Hw2) as Hag2. rewrite Hc1 in Hag2. destruct Hw3 as [W1 W2 W3 W4 W5 W6]. split; try done.
  - eapply smoved_trans; [exact Hm1|]. eapply smoved_trans; [apply Hw2|]. by rewrite <-Hs2.
  - by rewrite W2, (wr_path _ _ _ _ _ Hw2), (on_kv_path _ _ _ _ H1).
  - apply (ag_holds _ _ _ W5); [done|apply Hw2|]. rewrite Hlb. apply apart_one. by symmetry.
  - exact (agree_trans _ _ _ _ _ Hag2 W5).
  - apply W6, (wr_inv _ _ _ _ _ Hw2). by rewrite Hc1.
  - apply list.Forall_forall. intros r Hr. rewrite list.Forall_forall in Hlx, Hla. constructor; [by apply Hlx|]. constructor; [by apply Hla|constructor].
Qed.

(** The stage after a split into [T1] and [T2], from what held before its two writes. *)
Lemma split_stage w w0 w' slabs0 slabs' used fs j b b' key value s k T1 T2 x a n lx la live rest :
  smoved (scl w0) slabs0 w w0 → path_stack w0 = path_stack w → (∃ W, agree W (scl w) (scl w0) ∧ Forall (apart W) (outside w fs)) →
  paired w0 w' slabs' x a n lx la live → live ≡ₚ outside w fs ++ rest →
  (x, Z.of_nat n) :: (a, Z.of_nat n) :: rest ≡ₚ sblocks T1 ++ sblocks T2 →
  sstored (scl w') j b k T1 → sstored (scl w') j k b' T2 → b < k < b' → key_ok k → saddr T1 = saddr s → ga_ok (saddr T1) → ga_ok (saddr T2) →
  fupserted key value s [T1; T2] → Forall (λ r, r.1 ≠ Null) (avail slabs') → pages_ok (cpages fs ++ spages T1 ++ spages T2) →
  (∀ m, (nfree (w_slabs (kv w)) m ≤ nfree slabs' m + used)%nat) →
  stage w w' used fs j b b' key value s [k] [T1; T2].
Proof.
  intros Hm Hpa (W & Hag & Hap) [P1 P2 P3 _ _ P6 P7 P8] Hl Hbl Ht1 Ht2 Hk Hkk Hs Hg1 Hg2 Hup Hnn Hpg Hfr.
  pose proof (smoved_slabs _ _ _ _ P1) as Hsl. split; rewrite ?Hsl; try done.
  - by eapply smoved_trans.
  - by rewrite P2.
  - eexists. split; [exact (agree_trans _ _ _ _ _ Hag P6)|]. apply list.Forall_forall. intros r Hr. rewrite Hl, list.Forall_forall in P8.
    rewrite list.Forall_forall in Hap. apply Forall_app. split; [by apply Hap|]. apply P8, elem_of_app. by left.
  - by constructor.
  - cbn. by rewrite Hs.
  - constructor; [done|]. by constructor.
  - eapply local_inv_perm; [exact P7|]. cbn [map concat]. rewrite app_nil_r, <-Hbl, Hl. solve_Permutation.
  - cbn [map concat]. by rewrite app_nil_r.
Qed.

(** A new block is none of the pages. *)
Lemma fresh_page x a (n : Z) sb r fs ss (live : list (Z * Z)) :
  x ∉ map fst ((a, n) :: live) → cblocks fs ++ concat (map sblocks ss) ⊆ live →
  x ∉ page_addrs ((cpages fs ++ concat (map spages ss)) ++ [(a, sb, r)]).
Proof.
  intros Hx Hsub Hin. apply Hx. unfold page_addrs in Hin. rewrite map_app, elem_of_app in Hin. cbn [map compose fst] in *. destruct Hin as [Hin|Hin].
  - apply context_page_block, list_elem_of_fmap in Hin as (y & -> & Hy). right. apply list_elem_of_fmap. exists y. split; [done|by apply Hsub].
  - apply list_elem_of_singleton in Hin as ->. left.
Qed.

(** The code of a split, given what its parts do. *)
Lemma internal_tail_split fuel spins calls a root level_ hdr q x p' sib k w w1 w2 w3 :
  cnt_of (ihdr q) = Z.of_nat kInternalCardinality → Z.of_nat kInternalCardinality < 2 ^ 15 → salloc kInternalPageSize w = Done x w1 →
  internal_split x q = (p', sib, k) → lowest hdr < k < highest hdr → x ≠ a → sibling_ptr (ihdr sib) ≠ a → sibling_ptr (ihdr sib) ≠ x →
  swrite x (enc_InternalPage (iset_consistent sib)) w1 = Done true w2 →
  write_page_and_unlock (enc_InternalPage (iset_consistent p')) a a w2 = Done tt w3 →
  internal_tail fuel spins calls a root level_ hdr q w = after_split fuel spins calls a k x root level_ w3.
Proof.
  intros Hc Hs H1 Hsp Hk Hx Hs1 Hs2 H2 H3. unfold internal_tail. rewrite (s16_small (cnt_of (ihdr q))) by lia.
  rewrite (proj2 (Z.eqb_eq (cnt_of (ihdr q)) _) Hc). cbn [negb]. rewrite (bind_done _ _ _ _ _ H1), Hsp. rewrite !(proj2 (Z.ltb_lt _ _)) by lia.
  do 2 (erewrite bind_done by reflexivity). rewrite (proj2 (Z.eqb_neq _ _) Hx). erewrite bind_done by reflexivity.
  rewrite (proj2 (Z.eqb_neq _ _) Hs1), (proj2 (Z.eqb_neq _ _) Hs2). do 2 (erewrite bind_done by reflexivity).
  rewrite (bind_done _ _ _ _ _ H2). cbn [assert_]. erewrite bind_done by reflexivity. by rewrite (bind_done _ _ _ _ _ H3).
Qed.

(** The page is full with the separator and is split. *)
Lemma internal_full_run fuel spins calls w w' w1 used f fs j lo hi key value s kst ts root k x :
  sizes_ok → plain w' → parent_ready w w' fs j key value lo hi f s kst ts →
  smoved (scl w') (w_slabs (kv w')) w w' → path_stack w' = path_stack w →
  (∃ W, agree W (scl w) (scl w') ∧ Forall (apart W) (outside w fs)) →
  (∀ n, (nfree (w_slabs (kv w)) n ≤ nfree (w_slabs (kv w')) n + used)%nat) → Forall (λ r, r.1 ≠ Null) (avail (w_slabs (kv w'))) →
  let p := internal_insert k x (fr_page f) in
  shape j lo hi p ts → iseps p ++ [hi] = kst → sibling_ptr (ihdr p) = sibling_ptr (ihdr (fr_page f)) →
  icnt p = kInternalCardinality → (3 ≤ kInternalCardinality)%nat → (S j < kMaxLevelOfTree)%nat → (used < nfree (w_slabs (kv w)) kInternalPageSize)%nat →
  wrote w' w1 (fr_addr f) kInternalPageSize (le_bytes 8 (sherman_tag_ w') ++ ibody (fr_page f)) →
  ∃ k' T1 T2 w4, internal_tail fuel spins calls (fr_addr f) root (Z.of_nat (S j)) (ihdr (fr_page f)) (set_ilock (sherman_tag_ w') p) w1 =
          after_split fuel spins calls (fr_addr f) k' (saddr T2) root (Z.of_nat (S j)) w4 ∧
        stage w w4 (S used) fs (S j) lo hi key value (fill f [s]) [k'] [T1; T2].
Proof.
  intros Hsz Hpl Hpr Hmv Hpa (W & Hag & Hap) Hfr Hnn p Hsh Hseps Hsib Hfull H3 Hlvl Huse Hw1. pose proof Hpr as [Hh Hc Hlk Hsh0 Ha Hfo Hga Hnu Hal Hpg Hct].
  destruct (icnt_bounds p (sh_ok _ _ _ _ _ Hsh)) as [Hc1 Hc2]. pose proof (ip_small _ (sh_ok _ _ _ _ _ Hsh)) as Hsm.
  pose proof (wrote_plain _ _ _ _ _ Hw1 Hpl) as Hpl1. pose proof (wrote_slabs _ _ _ _ _ Hw1) as Hs1.
  destruct (sibling_run w1 kInternalPageSize (fr_addr f) _ (outside w fs ++ concat (map sblocks ts)) Hpl1 (wr_fits _ _ _ _ _ Hw1) Ha (wr_holds _ _ _ _ _ Hw1))
    as (x2 & slabs' & w2 & H2 & Hx2 & Hx2n & Hx2i & Hfr2 & Hnn2 & Hsw).
  { rewrite length_app, length_le_bytes. apply length_ibody; [done|apply Hsh0]. }
  { rewrite Hs1. by apply Hw1. }
  { rewrite Hs1. specialize (Hfr kInternalPageSize). lia. }
  { by rewrite Hs1. }
  assert (cblocks fs ++ concat (map sblocks ts) ⊆ outside w fs ++ concat (map sblocks ts)) as Hsub by (by apply list_subseteq_cons).
  pose proof (fresh_page x2 (fr_addr f) _ (sibling_ptr (ihdr (fr_page f))) (node_room (fr_page f)) fs ts _ Hx2i Hsub) as Hx2p.
  destruct (sibling_not_here _ _ _ _ _ Hpg Hx2n Hx2p) as [Hsb1 Hsb2].
  pose proof (shape_split j lo hi p ts x2 Hsh ltac:(lia) Hlvl Hnu Hx2) as Hsp. pose proof (split_fields x2 p) as Hsf.
  pose proof (internal_split_ilock x2 (sherman_tag_ w') p) as Hil.
  destruct (internal_split x2 p) as [[p' sib] k'] eqn:Esp.
  destruct Hsp as (n & Hsh1 & Hsh2 & Hcut & Hln & Hk' & Hkk & [Hc3 Hc4] & Hsi1 & Hsi2). destruct Hsf as (Hf1 & Hf2 & Hf3 & Hf4).
  pose proof (shape_consistent _ _ _ _ _ Hsh1) as Hsh1'. pose proof (shape_consistent _ _ _ _ _ Hsh2) as Hsh2'.
  destruct (Hsw (enc_InternalPage (iset_consistent sib)) (sherman_tag_ w') (ibody (iset_consistent p'))) as (w3 & w4 & Hr3 & H4 & Hpd).
  { apply enc_InternalPage_bytes. cbn [ipadding iset_consistent]. rewrite Hf4. apply zero_bytes. }
  { apply length_enc_InternalPage; [done|apply Hsh2']. }
  { symmetry. apply length_ibody; [done|apply Hsh1']. }
  { unfold ibody. apply Forall_drop, enc_InternalPage_bytes. cbn [ipadding iset_consistent]. rewrite Hf2. unfold p. rewrite insert_padding. by eapply page_padding_bytes. }
  assert (embedding_lock p' = 0) as Hlk' by (rewrite Hf1; unfold p; by rewrite insert_lock).
  rewrite <-!enc_set_ilock in Hpd, H4. rewrite set_ilock_id in Hpd by done.
  assert (x2 ≠ fr_addr f) as Hxa by (intros ->; apply Hx2i; left).
  exists k', (SNode (fr_addr f) (iset_consistent p') (take n ts)), (SNode x2 (iset_consistent sib) (drop n ts)), w4. split.
  { eapply internal_tail_split; try done; cbn [ihdr set_ilock]; rewrite ?(sh_lowest _ _ _ _ _ Hsh0), ?(sh_highest _ _ _ _ _ Hsh0), ?Hsi2, ?Hsib; try done; lia. }
  pose proof (alloc_apart _ _ _ _ Hal) as Hd1. rewrite Forall_app in Hd1.
  assert (forest (scl w4) j lo kst ts) as Hfo4.
  { eapply (forest_agree _ (scl w1)); [done|exact (pd_agree _ _ _ _ _ _ _ _ _ Hpd)| |done|exact (proj2 (proj1 (Forall_app _ _ _) (pd_apart _ _ _ _ _ _ _ _ _ Hpd)))].
    eapply forest_agree; [done|exact (wr_agree _ _ _ _ _ Hw1)|done|done|]. eapply Forall_impl; [|exact (proj2 Hd1)]. intros r Hr. by apply apart_one. }
  rewrite <-Hseps, Hcut, <-(take_drop n ts) in Hfo4. apply forest_app in Hfo4 as [Hfl Hfr4]; [|done]. rewrite upper_app in Hfr4. cbn [upper] in Hfr4.
  eapply (split_stage w w1 w4 _ slabs' _ _ _ _ _ _ _ _ _ _ _ _ _ _ _ _ _ (concat (map sblocks ts))); try exact Hpd; try done.
  - eapply smoved_trans; [exact Hmv|apply Hw1].
  - by rewrite (wr_path _ _ _ _ _ Hw1).
  - eexists. split; [exact (agree_trans _ _ _ _ _ Hag (wr_agree _ _ _ _ _ Hw1))|]. apply list.Forall_forall. intros r Hr. apply Forall_app.
    destruct Hd1 as [Hd1 _]. rewrite list.Forall_forall in Hap, Hd1. split; [by apply Hap|]. by apply apart_one, Hd1.
  - cbn [sblocks]. rewrite <-(take_drop n ts) at 1. rewrite map_app, concat_app. solve_Permutation.
  - apply sstored_node_iff. split_and!; try done; try apply Hpd. apply Z.eqb_refl.
  - apply sstored_node_iff. split_and!; try done; try apply Hpd. apply Z.eqb_refl.
  - unfold fupserted. rewrite <-Hct. unfold fcontents. cbn [map concat sitems]. rewrite app_nil_r, <-concat_app, <-map_app, take_drop. done.
  - eapply pages_ok_perm; [|exact (pages_split _ _ _ _ _ Hpg Hx2n Hx2p)]. cbn [spages].
    rewrite <-(take_drop n ts) at 1. rewrite map_app, concat_app. cbn [ihdr iset_consistent]. rewrite Hsi1, Hsi2, Hsib.
    assert (node_room (iset_consistent p') = true ∧ node_room (iset_consistent sib) = true) as [-> ->]
      by (split; apply bool_decide_eq_true; unfold icnt in *; cbn [ihdr iset_consistent]; lia). solve_Permutation.
  - intros m. specialize (Hfr m). specialize (Hfr2 m). rewrite Hs1 in Hfr2. lia.
Qed.

(** [insert_to_internal] at the parent of the page that was split. *)
Lemma internal_step fuel spins calls w w' used f fs j b b' key value s k T1 T2 lo hi kl kr root :
  sizes_ok → plain w → (3 ≤ kInternalCardinality)%nat → (S j < kMaxLevelOfTree)%nat → (used < nfree (w_slabs (kv w)) kInternalPageSize)%nat →
  stage w w' used (f :: fs) j b b' key value s [k] [T1; T2] → at_frame (scl w) j b b' s f lo hi kl kr → b ≤ key →
  (∃ w2 T, insert_to_internal fuel spins (S calls) (fr_addr f) k (saddr T2) root (Z.of_nat (S j)) w' = Done tt w2 ∧
           stage w w2 used fs (S j) lo hi key value (fill f [s]) [] [T]) ∨
  (∃ k' T1' T2' w2, insert_to_internal fuel spins (S calls) (fr_addr f) k (saddr T2) root (Z.of_nat (S j)) w' =
             after_split fuel spins calls (fr_addr f) k' (saddr T2') root (Z.of_nat (S j)) w2 ∧
           stage w w2 (S used) fs (S j) lo hi key value (fill f [s]) [k'] [T1'; T2']).
Proof.
  intros Hsz Hpl H3 Hlvl Huse Hsg Haf Hk. pose proof (stage_parent _ _ _ _ _ _ _ _ _ _ _ _ _ _ _ _ _ Hsz Hsg Haf Hk) as Hpr.
  pose proof (sg_bounds _ _ _ _ _ _ _ _ _ _ _ _ Hsg) as Hkb. apply Forall_cons_iff in Hkb as [[Hkb Hkk] _].
  pose proof (sg_addr _ _ _ _ _ _ _ _ _ _ _ _ Hsg) as Hsa. injection Hsa as Hsa.
  pose proof (sg_addrs _ _ _ _ _ _ _ _ _ _ _ _ Hsg) as Hga. apply Forall_cons_iff in Hga as [_ Hga]. apply Forall_cons_iff in Hga as [Hga _].
  destruct (frame_bounds _ _ _ _ _ _ _ _ _ _ Haf) as [Hlob Hhib]. pose proof (plain_moved _ _ _ _ (sg_moved _ _ _ _ _ _ _ _ _ _ _ _ Hsg) Hpl) as Hpl'.
  destruct (pages_room _ _ _ _ (pr_pages _ _ _ _ _ _ _ _ _ _ _ _ Hpr)) as (_ & Hroom%bool_decide_eq_true & _).
  destruct (shape_graft j lo hi (fr_page f) (fr_left f) s (fr_right f) kl b' kr k T1 T2) as (Hsh & Hseps & Hcnt & Hsib); try done;
    try apply Hpr; try apply Haf; [rewrite (af_upper _ _ _ _ _ _ _ _ _ _ Haf); lia|].
  destruct (internal_prefix_run fuel spins calls w' lo hi j (fr_page f) _ (fr_addr f) k (saddr T2) root Hsz Hpl' (sg_fits _ _ _ _ _ _ _ _ _ _ _ _ Hsg)
    (pr_addr _ _ _ _ _ _ _ _ _ _ _ _ Hpr) (pr_holds _ _ _ _ _ _ _ _ _ _ _ _ Hpr) (pr_lock _ _ _ _ _ _ _ _ _ _ _ _ Hpr)
    (pr_consistent _ _ _ _ _ _ _ _ _ _ _ _ Hpr) (pr_shape _ _ _ _ _ _ _ _ _ _ _ _ Hpr) ltac:(lia) Hroom) as (w1 & Hrun & Hw1).
  rewrite Hrun.
  assert (∃ W, agree W (scl w) (scl w') ∧ Forall (apart W) (outside w fs)) as Hag.
  { destruct (sg_agree _ _ _ _ _ _ _ _ _ _ _ _ Hsg) as (W & Hag & Hap). exists W. split; [done|]. unfold outside in *. cbn [cblocks] in Hap.
    apply Forall_cons_iff in Hap as [Hap0 Hap]. apply Forall_app in Hap as [_ Hap]. by constructor. }
  destruct (decide (icnt (internal_insert k (saddr T2) (fr_page f)) < kInternalCardinality)%nat) as [Hlt|Hge].
  - left. destruct (internal_fit_run fuel spins calls w w' w1 used f fs j lo hi key value s _ _ root k (saddr T2) Hsz Hpl' Hpr) as (w2 & H2 & Hsg2); try done; try apply Hsg.
    eexists w2, _. split; [exact H2|exact Hsg2].
  - right. destruct (internal_full_run fuel spins calls w w' w1 used f fs j lo hi key value s _ _ root k (saddr T2) Hsz Hpl' Hpr)
      as (k' & T1' & T2' & w2 & H2 & Hsg2); try done; try apply Hsg; [lia|]. exists k', T1', T2', w2. split; [exact H2|exact Hsg2].
Qed.
End stages.
