(* ===== verification/ShermanUpsert.v ===== *)
(** * Every insert of the Sherman index

    The new root, the whole way of a separator up the tree, the split of a leaf, and
    with them the insert of any key into an index of any height. *)

From S2P Require Import Prelude GlobalAddress RdmaSim ThreadStats Queue MemoryServer Slab RdmaManager LocalLock KVBlock FaunusNode FaunusIndex FaunusTree FaunusRead FaunusFrame FaunusInsert FaunusUpsert FaunusInit ShermanNode ShermanIndex ShermanRead ShermanFrame ShermanInsert ShermanForest ShermanGrow.

Section runs.
Context {cfg : FaunusConfig} {scfg : ShermanConfig}.
Context {Q : Type → Type} `{!ConcurrentQueue Q}.
Context {C Ent : Type} `{!NodeCache C Ent (GlobalAddress * InternalPage)} `{!RangedCache C Ent (GlobalAddress * InternalPage)}.
Abbreviation SW := (SWorld (Q := Q) (C := C)).
Implicit Types (w : SW) (f : frame) (fs : list frame) (s t : stree) (ss ts : list stree).

(** The page sizes give pages that can be split, and counts of 16 bits. *)
Record cards_ok : Prop := mkCards {
  cd_internal : (3 ≤ kInternalCardinality)%nat;
  cd_leaf : (2 ≤ kLeafCardinality)%nat;
  cd_small : Z.of_nat kInternalCardinality < 2 ^ 15
}.

(** The invariant of an index between inserts. *)
Record sgrow_inv w (l : nat) t : Prop := mkGrowInv {
  gi_inv : sindex_inv w l t;
  gi_cards : cards_ok;
  gi_pages : pages_ok (spages t);
  gi_tracked : tracked (mgr (w_net (kv w))) = true
}.

(** The subtree was replaced by one tree: the index holds the new tree. *)
Lemma tree_replaced w w' W fs l t j b b' key value s T :
  sgrow_inv w l t → t = plug fs s → path_ok (scl w) l j b b' s fs → b ≤ key →
  smoved (scl w') (w_slabs (kv w')) w w' → fits (scl w') → agree W (scl w) (scl w') → Forall (apart W) (outside w fs) →
  sstored (scl w') j b b' T → saddr T = saddr s → fupserted key value s [T] →
  local_inv (w_slabs (kv w'), scl w') (outside w fs ++ sblocks T) → Forall (λ r, r.1 ≠ Null) (avail (w_slabs (kv w'))) → pages_ok (cpages fs ++ spages T) →
  ∃ t', sgrow_inv w' l t' ∧ scontents t' = <[key := value]> (scontents t).
Proof.
  intros [[[[Hsz Heq] Ho Hr Hg Hst Hl Hca] Hpl Hf Hro Hal Hnu] Hcd Hpg Htr] -> Hp Hk Hm Hf' Hag Hap HT Hsa Hct Hal' Hnu' Hpg'.
  apply Forall_cons_iff in Hap as [Hap0 Hap].
  destruct (close_path W (scl w) (scl w') l key value fs j b b' s T Hsz Hp Hag Hap HT Hsa Hk Hct) as (Hst' & Hsa' & Hct').
  exists (plug fs T). split; [|done]. pose proof (smoved_root _ _ _ _ Hm) as Hrt. pose proof (plain_moved _ _ _ _ Hm Hpl) as Hpl'.
  split; [|done| |by rewrite (smoved_tracked _ _ _ _ Hm)].
  - split; rewrite ?Hrt; try done.
    + split; rewrite ?Hrt, ?Hsa'; try done; [apply Hpl'|apply (ag_holds _ _ _ Hag); [done|done|by rewrite length_le_bytes]|]. by rewrite (pl_cache _ Hpl').
    + eapply local_inv_perm; [exact Hal'|]. unfold outside. by rewrite sblocks_plug.
  - eapply pages_ok_perm; [|exact Hpg']. by rewrite spages_plug.
Qed.

Lemma stage_done w w' used fs l t j b b' key value s T :
  sgrow_inv w l t → t = plug fs s → path_ok (scl w) l j b b' s fs → b ≤ key →
  stage w w' used fs j b b' key value s [] [T] →
  ∃ t', sgrow_inv w' l t' ∧ scontents t' = <[key := value]> (scontents t).
Proof.
  intros Hinv Ht Hp Hk [Hm _ Hf' (W & Hag & Hap) Hfo _ Hsa _ Hct Hal' Hnu' Hpg' _].
  injection Hsa as Hsa. cbn [app forest] in Hfo. destruct Hfo as [HT _]. cbn [map concat] in *. rewrite app_nil_r in Hal', Hpg'.
  by eapply tree_replaced.
Qed.

(** ** The new root *)

Lemma root_shape l k T1 T2 :
  cards_ok → ga_ok (saddr T1) → ga_ok (saddr T2) → saddr T1 ≠ Null → key_ok k → key_min < k < key_max → (S l < kMaxLevelOfTree)%nat →
  let p := InternalPage_root (saddr T1) k (saddr T2) (Z.of_nat l + 1) in
  shape l key_min key_max p [T1; T2] ∧ iseps p = [k] ∧ node_room p = true.
Proof.
  intros [H3 _ Hsm] H1 H2 Hn Hk Hkr Hl p.
  assert (icnt p = 1%nat) as Hc by done.
  assert (irecords p = mkSEntry k (saddr T2) :: replicate (kInternalCardinality - 1) SEntry_init) as Hr.
  { unfold p, InternalPage_root. cbn [irecords InternalPage_init]. destruct kInternalCardinality as [|n]; [lia|].
    replace (S n - 1)%nat with n by lia. done. }
  assert (iseps p = [k]) as Hs by (unfold iseps; by rewrite Hc, Hr).
  split; [|split; [done|]].
  - split; try done.
    + by apply InternalPage_root_typed.
    + split; [rewrite Hr; cbn [length]; rewrite length_replicate; lia|unfold cnt_of; cbn; lia|done|rewrite Hs; by repeat constructor].
    + unfold p. cbn [InternalPage_root ihdr set_slast set_leftmost slevel InternalPage_init set_slevel].
      rewrite wrap_small; [lia|]. unfold in_width, kMaxLevelOfTree in *. lia.
    + unfold sbounds. rewrite Hs. cbn [app pairwise]. repeat constructor; lia.
    + unfold ikids. by rewrite Hc, Hr.
  - apply bool_decide_eq_true. rewrite Hc. lia.
Qed.

(** The CAS on a word that holds the expected value. *)
Lemma cas_run w a old new :
  alone w → fits (scl w) → ga_ok a → holds (scl w) a (le_bytes 8 old) → ga_ok old →
  ∃ w', on_kv (perform (mkOp a (op_cas old new))) w = Done (true, out_expected old) w' ∧ wrote w w' a 8 (le_bytes 8 new).
Proof.
  intros Ho Hf Ha Hh Hold.
  destruct (perform_run (kv w) (mkOp a (op_cas old new)) (out_expected old) (write_at (scl w) a (le_bytes 8 new)) Ho) as (k & Hp & Hq).
  { rewrite (ops_cas (cl (kv w)) a old new [] Hh) by (unfold ga_ok, in_width in *; lia). done. }
  destruct (on_kv_moved _ w _ _ _ _ Hp Hq) as (w' & H & Hm). exists w'. split; [done|].
  destruct (patch_whole (scl w) a (le_bytes 8 new) Hf Ha) as (Hh' & Hf' & Hag & _); [|apply le_bytes_ok|].
  { apply holds_readable in Hh. by rewrite length_le_bytes in *. }
  rewrite length_le_bytes in Hag. pose proof (smoved_cl _ _ _ _ Hm) as Hc. rewrite <-Hc in Hh', Hf', Hag, Hm.
  split; try done; [exact (on_kv_path _ _ _ _ H)|]. intros slabs live Hi. rewrite Hc. by apply local_inv_write.
Qed.

Lemma root_grow_run w w' used l t key value k T1 T2 :
  sgrow_inv w l t → (S l < kMaxLevelOfTree)%nat → (used < nfree (w_slabs (kv w)) kInternalPageSize)%nat →
  stage w w' used [] l key_min key_max key value t [k] [T1; T2] →
  ∃ w'' t', update_root_offset (saddr t) k (saddr T2) (Z.of_nat l + 1) (saddr t) w' = Done true w'' ∧ sgrow_inv w'' (S l) t' ∧
            scontents t' = <[key := value]> (scontents t).
Proof.
  intros [[[[Hsz Heq] Ho Hr Hg Hst Hl Hca] Hpl Hf Hro Hal Hnu] Hcd Hpg Htr] Hlvl Huse [Hm Hpa Hf' (W & Hag & Hap) Hfo Hkb Hsa Hga Hct Hal' Hnu' Hpg' Hfr].
  injection Hsa as Hsa. apply Forall_cons_iff in Hkb as [[Hkb Hkk] _]. apply Forall_cons_iff in Hap as [Hap0 _].
  pose proof Hga as Hga0. apply Forall_cons_iff in Hga as [Hg1 Hga]. apply Forall_cons_iff in Hga as [Hg2 _].
  pose proof (plain_moved _ _ _ _ Hm Hpl) as Hpl'. pose proof (smoved_root _ _ _ _ Hm) as Hrt. cbn [cpages app] in Hpg'.
  assert (saddr T1 ≠ Null) as Hn1 by (pose proof (pages_not_null _ [T1; T2] Hpg' ltac:(done)) as Hn; by apply Forall_cons_iff in Hn as [Hn _]).
  destruct (root_shape l k T1 T2 Hcd Hg1 Hg2 Hn1 Hkk Hkb Hlvl) as (Hsh & Hseps & Hroom). rewrite Hsa in Hsh, Hseps, Hroom.
  set (p := InternalPage_root (saddr t) k (saddr T2) (Z.of_nat l + 1)) in *. pose proof (shape_consistent _ _ _ _ _ Hsh) as Hsh'.
  unfold outside in Hal'. cbn [cblocks app] in Hal'.
  destruct (salloc_run w' kInternalPageSize _ Hal' Hf') as (x & slabs' & w1 & H1 & Hm1 & Hal1 & Hx & Hxn & Hrd & Hfr1 & Hnn1).
  { specialize (Hfr kInternalPageSize). lia. }
  { done. }
  pose proof (smoved_cl _ _ _ _ Hm1) as Hc1. pose proof (plain_moved _ _ _ _ Hm1 Hpl') as Hpl1.
  assert (length (enc_InternalPage (iset_consistent p)) = kInternalPageSize) as Hlen by (apply length_enc_InternalPage; [done|apply Hsh']).
  destruct (swrite_wrote w1 x (enc_InternalPage (iset_consistent p))) as (w2 & H2 & Hw2); rewrite ?Hc1, ?Hlen; try done.
  { apply enc_InternalPage_bytes. apply zero_bytes. }
  rewrite Hlen in Hw2. pose proof (wr_agree _ _ _ _ _ Hw2) as Hag2. rewrite Hc1 in Hag2. pose proof (wrote_plain _ _ _ _ _ Hw2 Hpl1) as Hpl2.
  pose proof (alloc_apart _ _ _ _ Hal1) as Hd1. pose proof Hd1 as Hd1'. apply Forall_cons_iff in Hd1' as [Hd1r Hd1t].
  assert (root_offset_pointer_ (kv w2) = root_offset_pointer_ (kv w)) as Hrt2.
  { by rewrite (smoved_root _ _ _ _ (wr_moved _ _ _ _ _ Hw2)), (smoved_root _ _ _ _ Hm1). }
  assert (holds (scl w2) (root_offset_pointer_ (kv w)) (le_bytes 8 (saddr t))) as Hr2.
  { apply (ag_holds _ _ _ Hag2); [done| |rewrite length_le_bytes; by apply apart_one].
    apply (ag_holds _ _ _ Hag); [done|done|by rewrite length_le_bytes]. }
  destruct (cas_run w2 (root_offset_pointer_ (kv w)) (saddr t) x (pl_alone _ Hpl2) (wr_fits _ _ _ _ _ Hw2) Hro Hr2 Hg) as (w3 & H3 & Hw3).
  exists w3, (SNode x (iset_consistent p) [T1; T2]). split.
  { unfold update_root_offset. rewrite (bind_done _ _ _ _ _ H1). fold p. rewrite (bind_done _ _ _ _ _ H2). cbn [assert_].
    do 2 (erewrite bind_done by reflexivity). rewrite Hrt2, (bind_done _ _ _ _ _ H3). cbn [fst snd assert_ expected_after].
    erewrite bind_done by reflexivity. unfold ga_of_u64. rewrite wrap_small by done. by rewrite Z.eqb_refl. }
  split; [|by rewrite fcontents_node].
  pose proof (wrote_slabs _ _ _ _ _ Hw3) as Hs3. rewrite (wrote_slabs _ _ _ _ _ Hw2), (smoved_slabs _ _ _ _ Hm1) in Hs3.
  pose proof (wrote_plain _ _ _ _ _ Hw3 Hpl2) as Hpl3. pose proof (alloc_apart _ _ _ _ Hal') as Hdr.
  assert (root_offset_pointer_ (kv w3) = root_offset_pointer_ (kv w)) as Hrt3 by (by rewrite (smoved_root _ _ _ _ (wr_moved _ _ _ _ _ Hw3))).
  assert (sstored (scl w3) (S l) key_min key_max (SNode x (iset_consistent p) [T1; T2])) as Hst3.
  { apply sstored_node_iff. split; [|split; [apply Z.eqb_refl|split; [done|split; [done|]]]].
    - apply (ag_holds _ _ _ (wr_agree _ _ _ _ _ Hw3)); [done|apply Hw2|]. rewrite Hlen. apply apart_one. by symmetry.
    - change (iseps (iset_consistent p)) with (iseps p). rewrite Hseps.
      eapply forest_agree; [done|exact (agree_trans _ _ _ _ _ Hag2 (wr_agree _ _ _ _ _ Hw3))|exact Hfo|done|].
      apply list.Forall_forall. intros r Hin. rewrite list.Forall_forall in Hd1t, Hdr. constructor; [by apply Hd1t|]. constructor; [by apply Hdr|constructor]. }
  split; [|done| |by rewrite (smoved_tracked _ _ _ _ (wr_moved _ _ _ _ _ Hw3)), (smoved_tracked _ _ _ _ (wr_moved _ _ _ _ _ Hw2)), (smoved_tracked _ _ _ _ Hm1), (smoved_tracked _ _ _ _ Hm)].
  - split; rewrite ?Hs3, ?Hrt3; try done.
    + split; rewrite ?Hrt3; try done; [apply Hpl3|apply Hw3|]. by rewrite (pl_cache _ Hpl3).
    + apply Hw3.
    + apply (wr_inv _ _ _ _ _ Hw3), (wr_inv _ _ _ _ _ Hw2). rewrite Hc1. eapply local_inv_perm; [exact Hal1|]. cbn [sblocks]. solve_Permutation.
  - cbn [spages]. change (node_room (iset_consistent p)) with (node_room p). rewrite Hroom.
    eapply pages_ok_perm; [symmetry; apply Permutation_cons_append|]. apply Forall_app. split.
    + eapply Forall_impl; [|exact Hpg']. intros y (Hy1 & Hy2 & Hy3). split; [done|]. split; [done|]. destruct Hy3 as [?|[? ?]]; [by left|right].
      split; [done|]. unfold page_addrs. rewrite map_app, elem_of_app. by left.
    + constructor; [|constructor]. split; [done|]. split; [done|]. by left.
Qed.

(** ** The separator goes up *)

(** The root of a tree with frames around a subtree is one of the frames. *)
Lemma plug_root fs s : fs ≠ [] → ∃ f, f ∈ fs ∧ saddr (plug fs s) = fr_addr f.
Proof.
  revert s. induction fs as [|f fs IH]; intros s Hne; [done|]. cbn [plug]. destruct fs as [|f' fs].
  - exists f. split; [left|done].
  - destruct (IH (fill f [s])) as (g & Hg & Hs); [done|]. exists g. split; [by right|done].
Qed.

Lemma frame_block f fs : f ∈ fs → fr_addr f ∈ map fst (cblocks fs).
Proof.
  induction fs as [|g fs IH]; [by intros ?%not_elem_of_nil|]. intros [->|Hin]%elem_of_cons; cbn [cblocks]; rewrite map_app, elem_of_app; [left; left|right; by apply IH].
Qed.

(** Different blocks of the index have different addresses. *)
Lemma root_elsewhere w w' used f fs j b b' key value s ks T ss :
  stage w w' used (f :: fs) j b b' key value s ks (T :: ss) → saddr T ≠ saddr (plug (f :: fs) s).
Proof.
  intros Hsg Heq. destruct (plug_root (f :: fs) s) as (g & Hg & Hs); [done|]. apply frame_block in Hg. rewrite <-Hs, <-Heq in Hg.
  assert (∃ n l, sblocks T = (saddr T, n) :: l) as (n & l & HT) by (destruct T; by eexists _, _).
  pose proof (sg_alloc _ _ _ _ _ _ _ _ _ _ _ _ Hsg) as Hal. cbn [map concat] in Hal. rewrite HT in Hal.
  assert (local_inv (w_slabs (kv w'), scl w') ((saddr T, n) :: outside w (f :: fs) ++ l ++ concat (map sblocks ss))) as Hal'.
  { eapply local_inv_perm; [exact Hal|]. solve_Permutation. }
  apply fresh_addr in Hal'. apply Hal'. unfold outside. rewrite map_app, elem_of_app. left. by right.
Qed.

(** After a split the separator goes up until a page has room, or to a new root. *)
Lemma grow_run fuel spins w l t key value : ∀ fs j b b' s w' used k T1 T2 calls,
  sgrow_inv w l t → t = plug fs s → path_ok (scl w) l j b b' s fs → b ≤ key → (S l < kMaxLevelOfTree)%nat →
  (∀ i f, fs !! i = Some f → path_stack w !! (S j + i)%nat = Some (fr_addr f)) →
  stage w w' used fs j b b' key value s [k] [T1; T2] → (length fs ≤ calls)%nat →
  (used + length fs < nfree (w_slabs (kv w)) kInternalPageSize)%nat →
  ∃ w'' l' t', after_split fuel spins calls (saddr s) k (saddr T2) (saddr t) (Z.of_nat j) w' = Done tt w'' ∧ sgrow_inv w'' l' t' ∧ (l' ≤ S l)%nat ∧
               scontents t' = <[key := value]> (scontents t).
Proof.
  induction fs as [|f fs IH]; intros j b b' s w' used k T1 T2 calls Hinv Ht Hp Hk Hlvl Hps Hsg Hcalls Huse.
  - destruct Hp as (-> & -> & ->). cbn [plug length] in *. subst s. rewrite Nat.add_0_r in Huse.
    destruct (root_grow_run w w' used l t key value k T1 T2 Hinv Hlvl Huse Hsg) as (w'' & t' & H & Hinv' & Hct).
    exists w'', (S l), t'. split; [|done]. unfold after_split. rewrite Z.eqb_refl. by rewrite (bind_done _ _ _ _ _ H).
  - pose proof Hp as Hp0. destruct Hp as (lo & hi & kl & kr & Haf & Hp). destruct calls as [|calls]; [cbn in Hcalls; lia|]. cbn [length] in *.
    pose proof (root_elsewhere _ _ _ _ _ _ _ _ _ _ _ _ _ _ Hsg) as Hne. pose proof (sg_addr _ _ _ _ _ _ _ _ _ _ _ _ Hsg) as Hsa. injection Hsa as Hsa.
    rewrite Hsa, <-Ht in Hne. pose proof Hinv as [[[[Hsz Heq] _ _ _ _ _ _] Hpl _ _ _ _] [Hcd _ _] Hpg _].
    assert (Hjl : (S j ≤ l)%nat).
    { clear -Hp. revert j lo hi s f Hp. induction fs as [|g fs IH]; intros j lo hi s f Hp; cbn [path_ok] in Hp; [destruct Hp as [<- _]; lia|].
      destruct Hp as (? & ? & ? & ? & _ & Hp). apply IH in Hp. lia. }
    assert (Hup : after_split fuel spins (S calls) (saddr s) k (saddr T2) (saddr t) (Z.of_nat j) w' =
      insert_to_internal fuel spins (S calls) (fr_addr f) k (saddr T2) (saddr t) (Z.of_nat (S j)) w').
    { unfold after_split. rewrite (proj2 (Z.eqb_neq _ _)) by congruence. erewrite bind_done by reflexivity. cbv iota. erewrite bind_done by reflexivity.
      rewrite (sg_path _ _ _ _ _ _ _ _ _ _ _ _ Hsg). replace (Z.of_nat j + 1) with (Z.of_nat (S j)) by lia. rewrite Nat2Z.id.
      specialize (Hps 0%nat f eq_refl). rewrite Nat.add_0_r in Hps. rewrite Hps.
      assert (fr_addr f ≠ Null) as Hnull.
      { pose proof (sg_pages _ _ _ _ _ _ _ _ _ _ _ _ Hsg) as Hpg'. cbn [cpages] in Hpg'. unfold frame_pages in Hpg'.
        unfold pages_ok in Hpg'. cbn [app] in Hpg'. apply Forall_cons_iff in Hpg' as [[Hn _] _]. exact Hn. }
      by rewrite (proj2 (Z.eqb_neq _ _) Hnull). }
    rewrite Hup. destruct (internal_step fuel spins calls w w' used f fs j b b' key value s k T1 T2 lo hi kl kr (saddr t) Hsz Hpl Hcd ltac:(lia) ltac:(lia) Hsg Haf Hk)
      as [(w2 & T & H2 & Hsg2)|(k' & T1' & T2' & w2 & H2 & Hsg2)]; rewrite H2; destruct (frame_bounds _ _ _ _ _ _ _ _ _ _ Haf) as [Hlob _].
    + destruct (stage_done w w2 used fs l t (S j) lo hi key value (fill f [s]) T Hinv Ht Hp ltac:(lia) Hsg2) as (t' & Hinv' & Hct).
      exists w2, l, t'. split; [done|]. split; [done|]. split; [lia|done].
    + change (fr_addr f) with (saddr (fill f [s])). apply (IH (S j) lo hi (fill f [s]) w2 (S used) k' T1' T2' calls); try done; try lia.
      intros i g Hi. rewrite <-(Hps (S i) g Hi). f_equal. lia.
Qed.

(** ** The split of a leaf *)

Lemma lshape_agree W (c c' : Cluster Q) lo hi p items :
  agree W c c' → lshape c lo hi p items → Forall (apart W) (map entry_block (occupied (lrecords p))) → lshape c' lo hi p items.
Proof.
  intros Hag [Hty Hlm Hlv Hlo Hhi Hit Hra Hnd] Hap. split; try done. eapply sitem_at_agree; [exact Hag|by apply occupied_typed|done|done].
Qed.

(** A record in an empty place. *)
Lemma lshape_put (c : Cluster Q) lo hi p items i e0 e item :
  lshape c lo hi p items → lrecords p !! i = Some e0 → is_empty e0 = true → is_empty e = false → lentry_ok e → sitem_at c e item →
  lo ≤ item_key item < hi → item_key item ∉ map item_key items →
  ∃ items', lshape c lo hi (set_lrec i e p) items' ∧ occupied (lrecords (set_lrec i e p)) ≡ₚ e :: occupied (lrecords p) ∧
    length items' = S (length items) ∧
    (list_to_map (pairs items') : gmap Z Z) = <[item_key item := item_value item]> (list_to_map (pairs items)).
Proof.
  intros [Hty Hlm Hlv Hlo Hhi Hit Hra Hnd] He0 Hem0 Hem Hok Hitem Hkey Hni.
  destruct (occupied_insert _ _ _ _ He0 Hem0 Hem) as [Ho Ho']. rewrite Ho in Hit.
  apply Forall2_app_inv_l in Hit as (i1 & i2 & Hi1 & Hi2 & ->). exists (i1 ++ [item] ++ i2). split; [|split; [|split]].
  - split; try done.
    + by apply set_lrec_typed.
    + cbn [lrecords set_lrec]. rewrite Ho'. apply Forall2_app; [done|]. by constructor.
    + rewrite !Forall_app in *. destruct Hra. split; [done|]. split; [by constructor|done].
    + by apply NoDup_keys_middle.
  - cbn [lrecords set_lrec]. rewrite Ho, Ho'. solve_Permutation.
  - rewrite !length_app. cbn [length]. lia.
  - by apply (contents_replace i1 [] i2).
Qed.

(** The new item is written; the leaf is still locked and has room for its record. *)
Lemma leaf_item_run w w2 fs b b' a p items i e0 key value :
  sizes_ok → plain w → fits (scl w2) → smoved (scl w2) (w_slabs (kv w)) w w2 → path_stack w2 = path_stack w →
  agree [(a, Z.of_nat kLeafPageSize)] (scl w) (scl w2) → holds (scl w2) a (le_bytes 8 (sherman_tag_ w) ++ lbody p) →
  local_inv (w_slabs (kv w), scl w2) (outside w fs ++ sblocks (SLeaf a p items)) → Forall (λ r, r.1 ≠ Null) (avail (w_slabs (kv w))) →
  lshape (scl w) b b' p items → ga_ok a → b ≤ key < b' → item_ok (mkItem key value) → (key ∉ map item_key items) →
  lrecords p !! i = Some e0 → is_empty e0 = true → (0 < nfree (w_slabs (kv w)) sizeof_KVItem)%nat →
  ∃ x w3 w4 slabs' items', let e := mkLeafEntry (Fingerprint key) x in
    salloc sizeof_KVItem w2 = Done x w3 ∧ swrite x (enc_KVItem (mkItem key value)) w3 = Done true w4 ∧
    smoved (scl w4) slabs' w w4 ∧ path_stack w4 = path_stack w ∧ fits (scl w4) ∧ agree [(a, Z.of_nat kLeafPageSize); entry_block e] (scl w) (scl w4) ∧
    holds (scl w4) a (le_bytes 8 (sherman_tag_ w) ++ lbody p) ∧
    local_inv (slabs', scl w4) (entry_block e :: outside w fs ++ sblocks (SLeaf a p items)) ∧ Forall (λ r, r.1 ≠ Null) (avail slabs') ∧
    lshape (scl w4) b b' (set_lrec i e p) items' ∧ occupied (lrecords (set_lrec i e p)) ≡ₚ e :: occupied (lrecords p) ∧
    length items' = S (length items) ∧ (list_to_map (pairs items') : gmap Z Z) = <[key := value]> (scontents (SLeaf a p items)) ∧
    ∀ n, (nfree (w_slabs (kv w)) n ≤ S (nfree slabs' n))%nat.
Proof.
  intros Hsz Hpl Hf2 Hm2 Hpa2 Hag2 Hh2 Hal Hnn Hls Ha Hkey Hok Hni He0 Hem Hfree. pose proof (smoved_slabs _ _ _ _ Hm2) as Hs2.
  destruct (salloc_run w2 sizeof_KVItem (outside w fs ++ sblocks (SLeaf a p items))) as (x & slabs' & w3 & H3 & Hm3 & Hal3 & Hx & Hxn & Hrd & Hfr & Hnn3);
    rewrite ?Hs2; try done.
  set (e := mkLeafEntry (Fingerprint key) x). pose proof (smoved_cl _ _ _ _ Hm3) as Hc3. pose proof (plain_moved _ _ _ _ Hm2 Hpl) as Hpl2.
  destruct (swrite_wrote w3 x (enc_KVItem (mkItem key value))) as (w4 & H4 & Hw4); rewrite ?Hc3, ?length_enc_KVItem; try done.
  { by eapply plain_moved. }
  { apply enc_KVItem_bytes. }
  rewrite length_enc_KVItem in Hw4. pose proof (wr_agree _ _ _ _ _ Hw4) as Hag4. rewrite Hc3 in Hag4. pose proof (smoved_slabs _ _ _ _ Hm3) as Hs3.
  change (x, Z.of_nat sizeof_KVItem) with (entry_block e) in Hag4, Hal3. pose proof (alloc_apart _ _ _ _ Hal3) as Hd3.
  apply Forall_app in Hd3 as [_ Hd3]. apply Forall_cons_iff in Hd3 as [Hd3a Hd3].
  assert (Forall (λ r, disjoint_range r (a, Z.of_nat kLeafPageSize)) (map entry_block (occupied (lrecords p)))) as Hda.
  { assert (local_inv (w_slabs (kv w), scl w2) ((a, Z.of_nat kLeafPageSize) :: outside w fs ++ map entry_block (occupied (lrecords p)))) as Hal'
      by (eapply local_inv_perm; [exact Hal|]; cbn [sblocks]; solve_Permutation).
    apply alloc_apart, Forall_app in Hal' as [_ Hal']. exact Hal'. }
  assert (agree ([(a, Z.of_nat kLeafPageSize)] ++ [entry_block e]) (scl w) (scl w4)) as Hag by exact (agree_trans _ _ _ _ _ Hag2 Hag4).
  assert (sitem_at (scl w4) e (mkItem key value)) as Hsi by (split; [apply Hw4|done]).
  assert (lshape (scl w4) b b' p items) as Hls4.
  { eapply lshape_agree; [exact Hag|exact Hls|]. apply list.Forall_forall. intros r Hr. rewrite list.Forall_forall in Hda, Hd3.
    constructor; [by apply Hda|]. constructor; [by apply Hd3|constructor]. }
  destruct (lshape_put (scl w4) b b' p items i e0 e (mkItem key value) Hls4 He0 Hem) as (items' & Hls' & Hocc & Hlen & Hct); try done.
  { unfold e, is_empty. cbn [kv_ptr]. by apply Z.eqb_neq. }
  { split; [|done]. assert (in_width 8 (Fingerprint key)) as Hfp by (apply fingerprint_key_small, be_bytes_ok).
    unfold in_width in *. cbn [fingerprint e]. lia. }
  exists x, w3, w4, slabs', items'. split; [done|]. split; [done|]. split.
  { eapply smoved_trans; [exact Hm2|]. eapply smoved_trans; [exact Hm3|]. rewrite <-Hs3. apply Hw4. }
  split; [by rewrite (wr_path _ _ _ _ _ Hw4), (on_kv_path _ _ _ _ H3)|]. split; [apply Hw4|]. split; [exact Hag|]. split.
  { apply (ag_holds _ _ _ Hag4); [done|done|]. rewrite length_app, length_le_bytes, length_lbody by (done || apply Hls). by apply apart_one. }
  split; [apply (wr_inv _ _ _ _ _ Hw4); by rewrite Hc3|]. split; [done|]. split; [done|]. split; [done|]. split; [done|]. split; [exact Hct|].
  intros n. specialize (Hfr n). by rewrite Hs2 in Hfr.
Qed.

(** What follows the split of a leaf. *)
Definition leaf_tail fuel spins depth (leaf_address : GlobalAddress) (k : Z) (x root : GlobalAddress) (level_ : Z) : M SW unit :=
  updated ← (if root =? leaf_address then update_root_offset leaf_address k x (level_ + 1) root else mret false);
  if (updated : bool) then mret tt
  else
    w ← get;
    match path_stack w !! Z.to_nat (level_ + 1) with
    | None => raise OutOfBounds
    | Some up_level =>
        if negb (up_level =? Null) then insert_to_internal fuel spins depth up_level k x root (level_ + 1)
        else search_and_insert_to_internal fuel spins depth k x (level_ + 1)
    end.

Lemma leaf_split_fields x keyed p p' sib k :
  leaf_split x keyed p = Some (p', sib, k) →
  lembedding_lock p' = lembedding_lock p ∧ lpadding p' = lpadding p ∧ lembedding_lock sib = 0 ∧ lpadding sib = replicate kLeafPagePadding 0.
Proof. unfold leaf_split. destruct (keyed !! _) as [[]|]; [|done]. by intros [= <- <- <-]. Qed.

(** The code of a leaf split, given what its parts do. *)
Lemma split_leaf_page_code fuel spins depth a q cnt root entries x p' sib k w w1 w2 w3 w4 :
  read_keys (lrecords q) w = Done entries w1 → Z.of_nat (length (sort_keyed entries)) = cnt → salloc kLeafPageSize w1 = Done x w2 →
  leaf_split x (sort_keyed entries) q = Some (p', sib, k) → lowest (lhdr q) < k < highest (lhdr q) →
  x ≠ a → sibling_ptr (lhdr sib) ≠ a → sibling_ptr (lhdr sib) ≠ x → swrite x (enc_LeafPage (lset_consistent sib)) w2 = Done true w3 →
  write_page_and_unlock (enc_LeafPage (lset_consistent p')) a a w3 = Done tt w4 →
  split_leaf_page fuel spins depth a q cnt root 0 w = leaf_tail fuel spins depth a k x root 0 w4.
Proof.
  intros H1 Hc H2 Hsp Hk Hx Hs1 Hs2 H3 H4. unfold split_leaf_page. rewrite (bind_done _ _ _ _ _ H1). cbv zeta.
  rewrite (proj2 (Z.eqb_eq (Z.of_nat (length (sort_keyed entries))) _) Hc). cbn [assert_]. erewrite bind_done by reflexivity.
  rewrite (bind_done _ _ _ _ _ H2), Hsp. cbv iota. rewrite !(proj2 (Z.ltb_lt _ _)) by lia. do 2 (erewrite bind_done by reflexivity).
  rewrite (proj2 (Z.eqb_neq _ _) Hx). erewrite bind_done by reflexivity. rewrite (proj2 (Z.eqb_neq _ _) Hs1), (proj2 (Z.eqb_neq _ _) Hs2).
  do 2 (erewrite bind_done by reflexivity). by rewrite (bind_done _ _ _ _ _ H3), (bind_done _ _ _ _ _ H4).
Qed.

(** The full leaf [q], still locked, is split; [p] is the page before the new record [e]. *)
Lemma leaf_split_run fuel spins depth w w4 slabs' fs b b' a p q e items items' key value root :
  sizes_ok → cards_ok → plain w → ga_ok a → lshape (scl w4) b b' q items' → (length items' = kLeafCardinality)%nat →
  lhdr q = lhdr p → lembedding_lock q = 0 → bytes_ok (lpadding q) → occupied (lrecords q) ≡ₚ e :: occupied (lrecords p) →
  smoved (scl w4) slabs' w w4 → path_stack w4 = path_stack w → fits (scl w4) → agree [(a, Z.of_nat kLeafPageSize); entry_block e] (scl w) (scl w4) →
  holds (scl w4) a (le_bytes 8 (sherman_tag_ w) ++ lbody p) → lpage_typed p →
  local_inv (slabs', scl w4) (entry_block e :: outside w fs ++ sblocks (SLeaf a p items)) → Forall (λ r, r.1 ≠ Null) (avail slabs') →
  (list_to_map (pairs items') : gmap Z Z) = <[key := value]> (scontents (SLeaf a p items)) →
  (∀ n, (nfree (w_slabs (kv w)) n ≤ S (nfree slabs' n))%nat) → (1 < nfree (w_slabs (kv w)) kLeafPageSize)%nat →
  pages_ok (cpages fs ++ spages (SLeaf a p items)) →
  ∃ k T1 T2 w8, split_leaf_page fuel spins depth a (set_llock (sherman_tag_ w) q) (Z.of_nat kLeafCardinality) root 0 w4 =
                  leaf_tail fuel spins depth a k (saddr T2) root 0 w8 ∧
                stage w w8 2 fs 0 b b' key value (SLeaf a p items) [k] [T1; T2].
Proof.
  intros Hsz [_ Hcl _] Hpl Ha Hls Hcnt Hhdr Hlk Hpad Hocc Hm Hpa Hf Hag Hh Htyp Hal Hnn Hct Hfr Huse Hpg.
  pose proof (plain_moved _ _ _ _ Hm Hpl) as Hpl4. pose proof (smoved_slabs _ _ _ _ Hm) as Hs4.
  destruct (read_keys_run (lrecords q) items' w4 (pl_alone _ Hpl4) (ls_items _ _ _ _ _ Hls)) as (w5 & H5 & Hm5).
  pose proof (smoved_cl _ _ _ _ Hm5) as Hc5. pose proof (smoved_slabs _ _ _ _ Hm5) as Hs5. rewrite Hs4 in Hs5. pose proof (plain_moved _ _ _ _ Hm5 Hpl4) as Hpl5.
  set (rest := map entry_block (occupied (lrecords q))). assert (rest ≡ₚ entry_block e :: map entry_block (occupied (lrecords p))) as Hrest by (unfold rest; by rewrite Hocc).
  destruct (sibling_run w5 kLeafPageSize a (le_bytes 8 (sherman_tag_ w) ++ lbody p) (outside w fs ++ rest))
    as (x & slabs6 & w6 & H6 & Hx & Hxn & Hxi & Hfr6 & Hnn6 & Hsw); rewrite ?Hs5, ?Hc5; try done.
  { rewrite length_app, length_le_bytes. by apply length_lbody. }
  { eapply local_inv_perm; [exact Hal|]. rewrite Hrest. cbn [sblocks]. solve_Permutation. }
  { specialize (Hfr kLeafPageSize). lia. }
  assert (cblocks fs ++ [] ⊆ outside w fs ++ rest) as Hsub by (rewrite app_nil_r; apply list_subseteq_cons, list_subseteq_app_l; done).
  pose proof (fresh_page x a _ (sibling_ptr (lhdr p)) (leaf_room p) fs [] _ Hxi Hsub) as Hxp. cbn [map concat] in Hxp. rewrite app_nil_r in Hxp.
  destruct (sibling_not_here _ _ _ _ _ Hpg Hxn Hxp) as [Hsb1 Hsb2].
  destruct (lshape_split (scl w4) b b' q items' x Hls ltac:(lia) Hx)
    as (p' & sib & k & its1 & its2 & Hsp & Hls1 & Hls2 & Hk & Hkk & Hits & Hoc & [Hr1 Hr2] & Hsi1 & Hsi2).
  destruct (leaf_split_fields _ _ _ _ _ _ Hsp) as (Hf1 & Hf2 & Hf3 & Hf4).
  pose proof (lshape_consistent _ _ _ _ _ Hls1) as Hls1'. pose proof (lshape_consistent _ _ _ _ _ Hls2) as Hls2'.
  destruct (Hsw (enc_LeafPage (lset_consistent sib)) (sherman_tag_ w) (lbody (lset_consistent p'))) as (w7 & w8 & H7 & H8 & Hpd).
  { apply enc_LeafPage_bytes. cbn [lpadding lset_consistent]. rewrite Hf4. apply zero_bytes. }
  { apply length_enc_LeafPage; [done|apply Hls2']. }
  { symmetry. apply length_lbody; [done|apply Hls1']. }
  { unfold lbody. apply Forall_drop, enc_LeafPage_bytes. cbn [lpadding lset_consistent]. by rewrite Hf2. }
  rewrite <-!enc_lbody in H8, Hpd. rewrite set_llock_id in Hpd by (cbn [lembedding_lock lset_consistent]; congruence).
  assert (x ≠ a) as Hxa by (intros ->; apply Hxi; left).
  exists k, (SLeaf a (lset_consistent p') its1), (SLeaf x (lset_consistent sib) its2), w8. split.
  { destruct (zip_sorted_cut _ _ _ _ _ Hls) as (l3 & Hsort & _ & _ & _ & _ & _ & Hl3).
    cbn [saddr]. eapply split_leaf_page_code; [exact H5|rewrite Hsort, length_map; lia|exact H6|rewrite leaf_split_llock, Hsp; reflexivity| | | | |exact H7|exact H8];
      cbn [lhdr set_llock]; rewrite ?(ls_lowest _ _ _ _ _ Hls), ?(ls_highest _ _ _ _ _ Hls), ?Hsi2, ?Hhdr; done. }
  pose proof (pd_agree _ _ _ _ _ _ _ _ _ Hpd) as Hag8. rewrite Hc5 in Hag8. pose proof (pd_apart _ _ _ _ _ _ _ _ _ Hpd) as Hap8.
  rewrite Forall_app in Hap8. destruct Hap8 as [Hapo Hap8]. unfold rest in Hap8. rewrite <-Hoc, map_app, Forall_app in Hap8. destruct Hap8 as [Hap1 Hap2].
  pose proof (alloc_apart _ _ _ _ Hal) as [Hde _]%Forall_app.
  eapply (split_stage w w5 w8 _ slabs6 _ _ _ _ _ _ _ _ _ _ _ _ _ _ _ _ _ rest); try exact Hpd; try done.
  - eapply smoved_trans; [exact Hm|]. rewrite Hc5. exact Hm5.
  - by rewrite (keeps_read_keys _ _ _ _ H5).
  - exists [(a, Z.of_nat kLeafPageSize); entry_block e]. rewrite Hc5. split; [done|].
    apply list.Forall_forall. intros r Hr. rewrite list.Forall_forall in Hapo, Hde. specialize (Hapo r Hr).
    apply Forall_cons_iff in Hapo as [_ Hapo]. apply Forall_cons_iff in Hapo as [Hapo _]. constructor; [done|]. constructor; [by apply Hde|constructor].
  - cbn [sblocks lrecords lset_consistent]. unfold rest. rewrite <-Hoc, map_app. solve_Permutation.
  - apply sstored_leaf_iff. split_and!; [exact (pd_page _ _ _ _ _ _ _ _ _ Hpd)|apply Z.eqb_refl|cbn [lembedding_lock lset_consistent]; congruence|by eapply lshape_agree].
  - apply sstored_leaf_iff. split_and!; [exact (pd_new _ _ _ _ _ _ _ _ _ Hpd)|apply Z.eqb_refl|done|by eapply lshape_agree].
  - unfold fupserted, fcontents. cbn [map concat sitems]. rewrite app_nil_r, <-Hct. symmetry. apply pairs_contents_perm; [done|apply Hls].
  - cbn [spages app]. cbn [lhdr lset_consistent]. rewrite Hsi1, Hsi2, Hhdr.
    assert (leaf_room (lset_consistent p') = true ∧ leaf_room (lset_consistent sib) = true) as [-> ->]
      by (split; apply bool_decide_eq_true; cbn [lrecords lset_consistent]; lia).
    exact (pages_split _ _ _ _ _ Hpg Hxn Hxp).
  - intros m. specialize (Hfr m). specialize (Hfr6 m). rewrite Hs5 in Hfr6. lia.
Qed.

(** ** A leaf of an index *)

Lemma leaf_room_run fuel spins depth n w l t fs b b' a p items key value root :
  sgrow_inv w l t → t = plug fs (SLeaf a p items) → path_ok (scl w) l 0 b b' (SLeaf a p items) fs →
  sstored (scl w) 0 b b' (SLeaf a p items) → ga_ok a → b ≤ key < b' → item_ok (mkItem key value) →
  shas_room key (SLeaf a p items) → (0 < nfree (w_slabs (kv w)) sizeof_KVItem)%nat →
  ∃ w' t', insert_to_leaf fuel spins depth (S n) a key value root 0 false w = Done true w' ∧ sgrow_inv w' l t' ∧
           scontents t' = <[key := value]> (scontents t).
Proof.
  intros Hinv Ht Hp Hst Ha Hk Hok Hroom Hfree. pose proof Hinv as [[[[Hsz Heq] _ _ _ _ _ _] Hpl Hf _ Hal Hnu] _ Hpg _].
  assert (local_inv (w_slabs (kv w), scl w) (outside w fs ++ sblocks (SLeaf a p items))) as Hal'.
  { eapply local_inv_perm; [exact Hal|]. subst t. rewrite sblocks_plug. unfold outside. solve_Permutation. }
  destruct (nfree_slab _ _ _ _ Hal Hfree) as (sl & Hsl & Hne). destruct (live_apart _ _ _ _ Hal') as [Hd _].
  destruct (insert_to_leaf_run fuel spins depth n w b b' a p items key value root (outside w fs) sl Hpl) as (w' & H & Hup); try done.
  destruct Hup as (p' & items' & W & slabs' & Hm & Hf' & Hag & Hap & Hst' & Hup & Hal2 & Hav & Hone).
  pose proof (smoved_slabs _ _ _ _ Hm) as Hs. rewrite <-Hs in Hm, Hal2, Hav. exists w'.
  destruct (tree_replaced w w' W fs l t 0 b b' key value (SLeaf a p items) (SLeaf a p' items')) as (t' & Hinv' & Hct); try done; [lia|..|by exists t'].
  - unfold fupserted. by rewrite fcontents_one.
  - destruct Hav as [Hav|[r Hav]]; rewrite Hav in Hnu; [done|]. by apply Forall_cons_iff in Hnu as [_ Hnu].
  - rewrite Ht in Hpg. apply (pages_ok_perm _ _ (spages_plug _ _)) in Hpg. destruct Hone as [->|(Hni & Hh & Hlen)]; [done|]. cbn [spages] in *.
    destruct (pages_room _ _ _ _ Hpg) as (_ & Hlr & _). rewrite Hlr in Hpg.
    assert (leaf_room p' = true) as ->; [|by rewrite Hh]. apply bool_decide_eq_true. destruct Hroom as [Hin|Hroom]; [done|]. lia.
Qed.

(** From the split leaf on, the separator goes up as from any other page. *)
Lemma leaf_tail_run fuel spins depth w w8 used l t fs b b' key value s k T1 T2 :
  sgrow_inv w l t → t = plug fs s → path_ok (scl w) l 0 b b' s fs → b ≤ key → (S l < kMaxLevelOfTree)%nat →
  (∀ i f, fs !! i = Some f → path_stack w !! S i = Some (fr_addr f)) →
  stage w w8 used fs 0 b b' key value s [k] [T1; T2] → (length fs ≤ depth)%nat →
  (used + length fs < nfree (w_slabs (kv w)) kInternalPageSize)%nat →
  ∃ w' l' t', leaf_tail fuel spins depth (saddr s) k (saddr T2) (saddr t) 0 w8 = Done tt w' ∧ sgrow_inv w' l' t' ∧ (l' ≤ S l)%nat ∧
              scontents t' = <[key := value]> (scontents t).
Proof.
  intros Hinv Ht Hp Hk Hlvl Hps Hsg Hdep Hfree. destruct fs as [|f fs].
  - destruct Hp as (<- & -> & ->). cbn [plug length] in *. subst s. rewrite Nat.add_0_r in Hfree.
    destruct (root_grow_run w w8 used 0 t key value k T1 T2 Hinv Hlvl Hfree Hsg) as (w' & t' & H & Hinv' & Hct).
    exists w', 1%nat, t'. split; [|by split_and!; try lia]. unfold leaf_tail. rewrite Z.eqb_refl. by rewrite (bind_done _ _ _ _ _ H).
  - destruct (grow_run fuel spins w l t key value (f :: fs) 0 b b' s w8 used k T1 T2 depth) as (w' & l' & t' & H & Hrest); try done.
    exists w', l', t'. split; [|done]. rewrite <-H. unfold leaf_tail, after_split.
    pose proof (root_elsewhere _ _ _ _ _ _ _ _ _ _ _ _ _ _ Hsg) as Hne. pose proof (sg_addr _ _ _ _ _ _ _ _ _ _ _ _ Hsg) as Hsa. injection Hsa as Hsa.
    rewrite Hsa, <-Ht in Hne. rewrite (proj2 (Z.eqb_neq _ _)) by congruence. do 2 (erewrite bind_done by reflexivity). cbv iota.
    do 2 (erewrite bind_done by reflexivity). change (Z.to_nat (Z.of_nat 0 + 1)) with 1%nat. change (Z.to_nat (0 + 1)) with 1%nat.
    rewrite (sg_path _ _ _ _ _ _ _ _ _ _ _ _ Hsg), (Hps 0%nat f eq_refl).
    assert (fr_addr f ≠ Null) as Hnull.
    { pose proof (sg_pages _ _ _ _ _ _ _ _ _ _ _ _ Hsg) as Hpg'. cbn [cpages] in Hpg'. unfold frame_pages in Hpg'.
      unfold pages_ok in Hpg'. cbn [app] in Hpg'. apply Forall_cons_iff in Hpg' as [[Hn _] _]. exact Hn. }
    by rewrite (proj2 (Z.eqb_neq _ _) Hnull).
Qed.

(** The leaf is full with the new record. *)
Lemma leaf_full_run fuel spins depth n w l t fs b b' a p items key value :
  sgrow_inv w l t → t = plug fs (SLeaf a p items) → path_ok (scl w) l 0 b b' (SLeaf a p items) fs →
  sstored (scl w) 0 b b' (SLeaf a p items) → ga_ok a → b ≤ key < b' → item_ok (mkItem key value) →
  (key ∉ map item_key items) → (S (length (occupied (lrecords p))) = kLeafCardinality)%nat → (S l < kMaxLevelOfTree)%nat →
  (∀ i f, fs !! i = Some f → path_stack w !! S i = Some (fr_addr f)) → (length fs ≤ depth)%nat →
  (0 < nfree (w_slabs (kv w)) sizeof_KVItem)%nat → (2 + length fs < nfree (w_slabs (kv w)) kInternalPageSize)%nat →
  ∃ w' l' t', insert_to_leaf fuel spins depth (S n) a key value (saddr t) 0 false w = Done true w' ∧ sgrow_inv w' l' t' ∧ (l' ≤ S l)%nat ∧
              scontents t' = <[key := value]> (scontents t).
Proof.
  intros Hinv Ht Hp Hst Ha Hk Hok Hni Hfull Hlvl Hps Hdep Hfree Hpfree. pose proof Hinv as [[[[Hsz Heq] _ _ _ _ _ _] Hpl Hf _ Hal Hnu] Hcd Hpg _].
  pose proof (pl_tag _ Hpl) as Htag. pose proof Hst as Hst0. apply sstored_leaf_iff in Hst0 as (Hh & Hc & Hlk & Hls). pose proof (ls_typed _ _ _ _ _ Hls) as Hty.
  rewrite Ht in Hpg. apply (pages_ok_perm _ _ (spages_plug _ _)) in Hpg.
  assert (local_inv (w_slabs (kv w), scl w) (outside w fs ++ sblocks (SLeaf a p items))) as Hal'.
  { eapply local_inv_perm; [exact Hal|]. subst t. rewrite sblocks_plug. unfold outside. solve_Permutation. }
  destruct (page_lock_run fuel spins w a kLeafPageSize (lbody p) Hpl Hf Ha) as (w1 & H1 & Hw1).
  { by rewrite <-enc_lbody, set_llock_id. }
  { symmetry. by apply length_lbody. }
  assert (Forall (apart [(a, Z.of_nat kLeafPageSize)]) (map entry_block (occupied (lrecords p)))) as Hda.
  { assert (local_inv (w_slabs (kv w), scl w) ((a, Z.of_nat kLeafPageSize) :: outside w fs ++ map entry_block (occupied (lrecords p)))) as Hal2
      by (eapply local_inv_perm; [exact Hal'|]; cbn [sblocks]; solve_Permutation).
    apply alloc_apart, Forall_app in Hal2 as [_ Hal2]. eapply Forall_impl; [|exact Hal2]. intros r Hr. by apply apart_one. }
  pose proof (lshape_agree _ _ _ _ _ _ _ (wr_agree _ _ _ _ _ Hw1) Hls Hda) as Hls1. pose proof (wrote_plain _ _ _ _ _ Hw1 Hpl) as Hpl1.
  destruct (leaf_insert_scan_run key value (lrecords p) items w1 0 0 None (pl_alone _ Hpl1) (ls_items _ _ _ _ _ Hls1))
    as [(es1 & e & es2 & i1 & i2 & kv0 & w2 & _ & -> & _ & <- & _)|(eo & w2 & _ & H2 & Hplace & Hm2)].
  { exfalso. apply Hni. rewrite map_app, elem_of_app. right. left. }
  destruct (empty_index_found p eo Hty ltac:(lia) Hplace) as (i & e0 & -> & He0 & Hem).
  pose proof (smoved_cl _ _ _ _ Hm2) as Hc2. pose proof (wr_moved _ _ _ _ _ Hw1) as Hm1. rewrite (wrote_slabs _ _ _ _ _ Hw1) in Hm2.
  pose proof (smoved_trans _ _ _ _ _ _ _ Hm1 Hm2) as Hm12.
  destruct (leaf_item_run w w2 fs b b' a p items i e0 key value Hsz Hpl) as (x & w3 & w4 & slabs' & items' & H3 & H4 & Hm4 & Hpa4 & Hf4 & Hag4 & Hh4 & Hal4 & Hnn4 & Hls4 & Hocc & Hlen & Hct & Hfr4);
    rewrite ?Hc2; try done; try exact (wr_fits _ _ _ _ _ Hw1); try exact (wr_agree _ _ _ _ _ Hw1); try exact (wr_holds _ _ _ _ _ Hw1).
  { by rewrite (keeps_scan _ _ _ _ _ _ _ _ _ _ H2), (wr_path _ _ _ _ _ Hw1). }
  { by apply (wr_inv _ _ _ _ _ Hw1). }
  set (e := mkLeafEntry (Fingerprint key) x) in *.
  destruct (leaf_split_run fuel spins depth w w4 slabs' fs b b' a p (set_lrec i e p) e items items' key value (saddr t)) as (k & T1 & T2 & w8 & H8 & Hsg); try done.
  { rewrite Hlen. rewrite <-Hfull. f_equal. symmetry. by eapply Forall2_length, ls_items. }
  { cbn [lpadding set_lrec]. by eapply page_padding_bytes. }
  { rewrite <-Heq. lia. }
  assert (∃ w' l' t', leaf_tail fuel spins depth a k (saddr T2) (saddr t) 0 w8 = Done tt w' ∧ sgrow_inv w' l' t' ∧ (l' ≤ S l)%nat ∧
              scontents t' = <[key := value]> (scontents t)) as (w' & l' & t' & H & Hinv' & Hl' & Hct').
  { change a with (saddr (SLeaf a p items)). apply (leaf_tail_run fuel spins depth w w8 2 l t fs b b' key value (SLeaf a p items) k T1 T2); try done; lia. }
  exists w', l', t'. split; [|done].
  cbn [insert_to_leaf]. rewrite (bind_done _ _ _ _ _ H1), <-enc_lbody, (proj1 (dec_enc_LeafPage _ Hsz (set_llock_typed _ _ Htag Hty))).
  cbn [lhdr lrecords set_llock]. rewrite (ls_level _ _ _ _ _ Hls), (ls_lowest _ _ _ _ _ Hls), (ls_highest _ _ _ _ _ Hls).
  change (0 =? 0) with true. cbn [assert_]. erewrite bind_done by reflexivity.
  change (lcheck_consistent (set_llock (sherman_tag_ w) p)) with (lcheck_consistent p). rewrite Hc. cbn [assert_ andb]. erewrite bind_done by reflexivity.
  rewrite (proj2 (Z.leb_gt _ _)) by lia. rewrite (proj2 (Z.leb_le _ _)) by lia. cbn [assert_]. erewrite bind_done by reflexivity.
  rewrite (bind_done _ _ _ _ _ H2). cbv iota beta. rewrite Z.add_0_l, (proj2 (Z.eqb_neq (Z.of_nat (length (occupied (lrecords p)))) _)) by lia.
  cbn [negb assert_]. erewrite bind_done by reflexivity. rewrite (bind_done _ _ _ _ _ H3), (bind_done _ _ _ _ _ H4). cbv zeta.
  replace (Z.of_nat (length (occupied (lrecords p))) + 1) with (Z.of_nat kLeafCardinality) by lia. rewrite Z.eqb_refl. cbn [negb].
  fold e. change (mkLPage _ _ _ _ _ _) with (set_llock (sherman_tag_ w) (set_lrec i e p)). unfold mbind, M_bind at 1. rewrite H8, H. done.
Qed.

(** ** insert *)

Lemma sgrow_inv_same w w' l t : smoved (scl w) (w_slabs (kv w)) w w' → sgrow_inv w l t → sgrow_inv w' l t.
Proof. intros Hm [Hi Hc Hp Ht]. split; [by eapply sindex_inv_same|done|done|by rewrite (smoved_tracked _ _ _ _ Hm)]. Qed.

(** The leaf of [key] with its path, and the insert into it. *)
Lemma leaf_insert_run fuel spins depth n w l t key value :
  sgrow_inv w l t → key_min ≤ key < key_max → item_ok (mkItem key value) → (S l < kMaxLevelOfTree)%nat →
  (∀ i, (0 < i ≤ l)%nat → path_stack w !! i = saddr <$> sdescend (l - i) key t) → (l ≤ depth)%nat →
  (0 < nfree (w_slabs (kv w)) sizeof_KVItem)%nat → (2 + l < nfree (w_slabs (kv w)) kInternalPageSize)%nat →
  ∃ a p items, sdescend l key t = Some (SLeaf a p items) ∧
  ∃ w' l' t', insert_to_leaf fuel spins depth (S n) a key value (saddr t) 0 false w = Done true w' ∧ sgrow_inv w' l' t' ∧ (l' ≤ S l)%nat ∧
              scontents t' = <[key := value]> (scontents t).
Proof.
  intros Hinv Hk Hok Hlvl Hps Hdep Hfree Hpfree. pose proof Hinv as [[[_ _ _ Hg Hst _ _] _ _ _ _ _] _ Hpg _].
  destruct (open_path (scl w) l key l t key_min key_max []) as (fs & a & p & items & b & b' & Hd & Hplug & Hp & Hst' & Ha & Hb & Hlen & Haddr); [done|done|done|done|].
  rewrite app_nil_r in Hplug, Hp. cbn [plug] in Hplug. exists a, p, items. split; [done|]. rewrite <-Hplug in Hpg.
  apply (pages_ok_perm _ _ (spages_plug _ _)), pages_room in Hpg as (_ & Hroom%bool_decide_eq_true & _).
  destruct (decide (shas_room key (SLeaf a p items))) as [Hr|Hr].
  - destruct (leaf_room_run fuel spins depth n w l t fs b b' a p items key value (saddr t)) as (w' & t' & H & Hinv' & Hct); try done.
    exists w', l, t'. split; [done|]. split; [done|]. split; [lia|done].
  - cbn [shas_room] in Hr. apply Decidable.not_or in Hr as [Hni Hr]. apply (leaf_full_run fuel spins depth n w l t fs b b' a p items key value); try done; try lia.
    intros i f Hi. rewrite <-(Haddr i f Hi). apply Hps. apply lookup_lt_Some in Hi. lia.
Qed.

Lemma sgrow_tree_run fuel spins depth w l t key value :
  sgrow_inv w l t → key_min ≤ key < key_max → item_ok (mkItem key value) →
  (S l < kMaxLevelOfTree)%nat → (l < depth)%nat →
  (0 < nfree (w_slabs (kv w)) sizeof_KVItem)%nat → (2 + l < nfree (w_slabs (kv w)) kInternalPageSize)%nat →
  ∃ w' l' t', insert (Ent := Ent) fuel spins depth key value w = Done true w' ∧ sgrow_inv w' l' t' ∧ (l' ≤ S l)%nat ∧
              scontents t' = <[key := value]> (scontents t).
Proof.
  intros Hinv Hkey Hok Hlvl Hdep Hfree Hpfree. pose proof Hinv as [[[[Hsz Heq] _ _ _ _ Hl _] Hpl _ _ _ _] _ _ Htr].
  set (w0 := set_path (replicate kMaxLevelOfTree Null) w).
  assert (smoved (scl w) (w_slabs (kv w)) w w0) as Hm0 by (by destruct (moved_same w); split).
  pose proof (sgrow_inv_same _ _ _ _ Hm0 Hinv) as Hinv0. pose proof Hinv0 as [[[_ Ho Hr Hg _ _ _] _ _ _ _ _] _ _ _].
  destruct (sget_root_run w0 (saddr t) Ho Hr Hg) as (w1 & H1 & Hq1 & Hc1). pose proof (squiet_moved _ _ Hq1 Hc1) as Hm1.
  pose proof (sgrow_inv_same _ _ _ _ Hm1 Hinv0) as Hinv1. pose proof Hinv1 as [[[_ _ _ _ Hst _ _] Hpl1 _ _ _ _] _ _ _].
  destruct (insert_loop_run fuel spins depth key value (saddr t) l t key_min key_max w1 0 SearchResult_init 1000002 Hsz Heq Hpl1) as (a & p & items & w2 & Hd & Hm2 & Hpa & Hrun);
    try done; [by rewrite (smoved_tracked _ _ _ _ Hm1)|unfold MAX_RETRIES, kMaxLevelOfTree in *; lia|unfold kMaxLevelOfTree in *; lia|].
  pose proof (sgrow_inv_same _ _ _ _ Hm2 Hinv1) as Hinv2.
  assert (w_slabs (kv w2) = w_slabs (kv w)) as Hs2 by (rewrite (smoved_slabs _ _ _ _ Hm2), (smoved_slabs _ _ _ _ Hm1); done).
  destruct depth as [|n]; [lia|].
  destruct (leaf_insert_run fuel spins (S n) n w2 l t key value Hinv2 Hkey Hok Hlvl) as (a' & p' & items' & Hd' & w3 & l' & t' & H3 & Hrest);
    rewrite ?Hs2; try done; try lia.
  { intros i Hi. rewrite Hpa; [by rewrite decide_True|lia|]. rewrite (keeps_root _ _ _ H1). apply length_replicate. }
  rewrite Hd in Hd'. injection Hd' as <- <- <-. exists w3, l', t'. split; [|done]. unfold insert. erewrite bind_done by reflexivity. fold w0.
  erewrite (bind_done _ _ w0 false w0).
  2:{ erewrite bind_done by reflexivity. change (kv w0) with (kv w). by rewrite (pl_cache _ Hpl). }
  cbv iota. rewrite (bind_done _ _ _ _ _ H1), (bind_done _ _ _ _ _ (Hrun w3 H3)). done.
Qed.
End runs.

(** ** Theorems *)

Section theorems.
Context {cfg : FaunusConfig} {scfg : ShermanConfig}.
Context {Q : Type → Type} `{!ConcurrentQueue Q}.
Context {C Ent : Type} `{!NodeCache C Ent (GlobalAddress * InternalPage)} `{!RangedCache C Ent (GlobalAddress * InternalPage)}.
Implicit Types w : SWorld (Q := Q) (C := C).

(** What an insert into an index of height [l] may need: a block for the item, pages
    for the split of every page on the path and for a new root, and a level for it. *)
Definition sroom w (l : nat) : Prop :=
  (S l < kMaxLevelOfTree)%nat ∧ (0 < nfree (w_slabs (kv w)) sizeof_KVItem)%nat ∧ (2 + l < nfree (w_slabs (kv w)) kInternalPageSize)%nat.

(** C7: inserting into a Sherman tree refines the update of the finite map of its
    items, whatever the insert has to split.  A thread alone, without cache and local
    locks, on an index of any height with the invariant [sgrow_inv] and with free
    blocks: [insert key value] returns true, and the tree then in the memories maps
    [key] to [value] and every other key as before.  Full pages were split up to the
    root, no page is full, no block is used twice, all locks are free, and the
    invariant holds again. *)
Theorem sherman_insert_refines fuel spins depth w l t key value :
  sgrow_inv w l t → sroom w l → key_min ≤ key < key_max → item_ok (mkItem key value) → (l < depth)%nat →
  ∃ w' l' t', insert (Ent := Ent) fuel spins depth key value w = Done true w' ∧ sgrow_inv w' l' t' ∧ (l' ≤ S l)%nat ∧
              scontents t' = <[key := value]> (scontents t).
Proof. intros Hinv (Hl & Hi & Hp) Hk Hok Hd. by apply sgrow_tree_run. Qed.

(** What [insert] stored is what [read] returns, and the other keys keep their
    values (values equal to [Value::min()] are reported as absent), also when the
    insert split pages and grew the tree. *)
Theorem sherman_insert_then_read fuel spins depth w l t key value key' :
  sgrow_inv w l t → sroom w l → key_min ≤ key < key_max → item_ok (mkItem key value) → (l < depth)%nat →
  key_min ≤ key' < key_max → (S l < Pos.to_nat fuel)%nat →
  ∃ w', (_ ← insert (Ent := Ent) fuel spins depth key value; read (Ent := Ent) fuel key') w =
        Done (visible (if decide (key = key') then Some value else scontents t !! key')) w'.
Proof.
  intros Hinv (Hl & Hi & Hp) Hkey Hok Hdep Hkey' Hf.
  destruct (sgrow_tree_run (Ent := Ent) fuel spins depth w l t key value Hinv Hkey Hok Hl Hdep Hi Hp) as (w1 & l' & t' & H1 & Hinv1 & Hl' & Hct).
  destruct (sread_tree_run (Ent := Ent) fuel w1 l' t' key' (siv_index _ _ _ (gi_inv _ _ _ Hinv1)) Hkey' ltac:(lia)) as (w2 & H2 & _).
  exists w2. rewrite (bind_done _ _ _ _ _ H1), H2, Hct. case_decide as He; [by rewrite He, lookup_insert_eq|by rewrite lookup_insert_ne].
Qed.
End theorems.

(** ** A concrete index whose root is about to split *)

Section demo.
#[local] Existing Instances demo_cfg small_cfg.
Abbreviation SW := (SWorld (Q := fifo) (C := page_cache)).

#[export] Instance page_fine_dec addrs x : Decision (page_fine addrs x).
Proof. unfold page_fine. apply _. Defined.
#[export] Instance pages_ok_dec ps : Decision (pages_ok ps).
Proof. unfold pages_ok. apply _. Defined.
#[export] Instance sroom_dec (w : SW) l : Decision (sroom w l).
Proof. unfold sroom. apply _. Defined.

Lemma small_cards : cards_ok.
Proof. split; [apply (bool_decide_unpack _); vm_compute; exact I..|]. vm_compute. reflexivity. Qed.

(** A new index and seven inserts: the next one fills a leaf and then the root. *)
Definition splain_world : option SW :=
  match sworld_init 2 4096 16 None None with
  | None => None
  | Some w =>
      match (_ ← initialize; for_each [(10, 1); (20, 2); (30, 3); (40, 4); (50, 5); (60, 6); (70, 7)] sinsert) w with
      | Done _ w' => Some w'
      | Fault _ _ => None
      end
  end.

Lemma splain_inv :
  ∃ w t, splain_world = Some w ∧ sgrow_inv w 1 t ∧ sroom w 1 ∧ scontents t !! 80 = None ∧ scontents t !! 30 = Some 3 ∧
         ¬ (∀ t0, sdescend 1 80 t = Some t0 → shas_room 80 t0).
Proof.
  assert (match splain_world with
          | Some w =>
              match sload_tree 3 (scl w) (sroot w) with
              | Some t => sinv_check w t && bool_decide (pages_ok (spages t)) && tracked (mgr (w_net (kv w))) && bool_decide (sroom w 1) &&
                          bool_decide (scontents t !! 80 = None) && bool_decide (scontents t !! 30 = Some 3) &&
                          match sdescend 1 80 t with Some t0 => bool_decide (¬ shas_room 80 t0) | None => false end
              | None => false
              end
          | None => false
          end = true) as H by (vm_compute; reflexivity).
  destruct splain_world as [w|]; [|done]. destruct (sload_tree _ _ _) as [t|]; [|done].
  rewrite !andb_true_iff, !bool_decide_eq_true in H. destruct H as ((((((H1 & H2) & H3) & H4) & H5) & H6) & H7).
  exists w, t. split; [done|]. split; [split; [by apply sinv_check_sound|apply small_cards|done|done]|]. split_and!; try done.
  intros Hr. destruct (sdescend 1 80 t) as [t0|] eqn:E; [|done]. apply bool_decide_eq_true in H7. by apply H7, Hr.
Qed.

Lemma sherman_insert_refines_witness :
  ∃ w t, splain_world = Some w ∧ sgrow_inv w 1 t ∧
  ∃ w' l' t', insert 20 3 10 80 8 w = Done true w' ∧ sgrow_inv w' l' t' ∧ (l' ≤ 2)%nat ∧ scontents t' = <[80 := 8]> (scontents t).
Proof.
  destruct splain_inv as (w & t & Hw & Hinv & Hroom & _). exists w, t. split; [exact Hw|]. split; [exact Hinv|].
  apply (sherman_insert_refines 20 3 10 w 1 t 80 8);
    [exact Hinv|exact Hroom|vm_compute; split; congruence|apply (bool_decide_unpack _); vm_compute; exact I|lia].
Defined.

Lemma sherman_insert_then_read_witness :
  ∃ w, splain_world = Some w ∧ (∃ w', (_ ← insert 20 3 10 80 8; read 20 80) w = Done (Some 8) w') ∧
       ∃ w', (_ ← insert 20 3 10 80 8; read 20 30) w = Done (Some 3) w'.
Proof.
  destruct splain_inv as (w & t & Hw & Hinv & Hroom & _ & H30 & _). exists w. split; [exact Hw|].
  assert (item_ok (mkItem 80 8)) as Hok by (apply (bool_decide_unpack _); vm_compute; exact I).
  assert (key_min ≤ 80 < key_max ∧ key_min ≤ 30 < key_max) as [H80r H30r] by (vm_compute; split; split; congruence).
  split.
  - apply (sherman_insert_then_read 20 3 10 w 1 t 80 8 80); [exact Hinv|exact Hroom|exact H80r|exact Hok|lia|exact H80r|lia].
  - destruct (sherman_insert_then_read 20 3 10 w 1 t 80 8 30) as (w' & H); [exact Hinv|exact Hroom|exact H80r|exact Hok|lia|exact H30r|lia|].
    rewrite decide_False, H30 in H by lia. exists w'. exact H.
Defined.
End demo.
