(* ===== verification/ShermanInit.v ===== *)
(** * From an empty Sherman index on

    [initialize] (src/kv_index/sherman_index.cpp) makes an index that satisfies the
    invariant of ShermanUpsert.v, and every history of inserts and reads after it
    behaves as a finite map. *)

From S2P Require Import Prelude GlobalAddress RdmaSim ThreadStats Queue MemoryServer Slab RdmaManager LocalLock KVBlock FaunusNode FaunusIndex FaunusTree FaunusRead FaunusFrame FaunusInsert FaunusUpsert FaunusInit ShermanNode ShermanIndex ShermanRead ShermanFrame ShermanInsert ShermanForest ShermanGrow ShermanUpsert.

Section init.
Context {cfg : FaunusConfig} {scfg : ShermanConfig}.
Context {Q : Type → Type} `{!ConcurrentQueue Q}.
Context {C Ent : Type} `{!NodeCache C Ent (GlobalAddress * InternalPage)} `{!RangedCache C Ent (GlobalAddress * InternalPage)}.
Abbreviation SW := (SWorld (Q := Q) (C := C)).
Implicit Types w : SW.

Definition root_page : LeafPage := lset_consistent (LeafPage_init 0).

Lemma root_page_shape (c : Cluster Q) : lshape c key_min key_max root_page [] ∧ occupied (lrecords root_page) = [].
Proof.
  assert (occupied (lrecords root_page) = []) as Ho.
  { unfold root_page, occupied. cbn [lrecords lset_consistent LeafPage_init]. generalize kLeafCardinality. intros n. by induction n. }
  split; [|done]. apply lshape_consistent. split; try done; [apply LeafPage_init_typed| |constructor].
  change (occupied (lrecords (LeafPage_init 0))) with (occupied (lrecords root_page)). rewrite Ho. constructor.
Qed.

(** A world before [initialize]: memories all zero, nothing allocated, blocks for the
    root pointer and the first page, and no free block at [Null] once the root pointer
    has its block. *)
Record sfresh w : Prop := mkSFresh {
  sf_sizes : sizes_ok ∧ kInternalPageSize = kLeafPageSize;
  sf_cards : cards_ok;
  sf_plain : plain w;
  sf_tracked : tracked (mgr (w_net (kv w))) = true;
  sf_fits : fits (scl w);
  sf_zero : zeroed (scl w);
  sf_alloc : local_inv (w_slabs (kv w), scl w) [];
  sf_root : (0 < nfree (w_slabs (kv w)) 8)%nat;
  sf_page : (0 < nfree (w_slabs (kv w)) kLeafPageSize)%nat;
  sf_null : ∀ x w', salloc 8 w = Done x w' → Forall (λ r, r.1 ≠ Null) (avail (w_slabs (kv w')))
}.

Lemma sinitialize_run w :
  sfresh w → ∃ a w', initialize w = Done true w' ∧ sgrow_inv w' 0 (SLeaf a root_page []).
Proof.
  intros [[Hsz Heq] Hcd Hpl Htr Hf Hz Hal Hn8 Hnp Hnull].
  destruct (nfree_slab _ _ _ _ Hal Hn8) as (sl8 & Hs8 & Hne8). destruct (nfree_slab _ _ _ _ Hal Hnp) as (slp & Hsp & Hnep).
  destruct (allocate_run (kv w) 8 sl8 [] Hs8 Hne8 Hal Hf) as (x & slabs1 & Ha1 & Hal1 & _ & Hx & _ & Hrx & Hoth & _).
  destruct (on_kv_moved (allocate 8) w x _ (scl w) slabs1 Ha1) as (w1 & H1 & Hm1); [done|]. specialize (Hnull x w1 H1).
  pose proof (plain_moved _ _ _ _ Hm1 Hpl) as Hpl1. pose proof (smoved_cl _ _ _ _ Hm1) as Hc1. pose proof (smoved_slabs _ _ _ _ Hm1) as Hs1.
  set (w2 := mkSWorld (set_root_pointer x (kv w1)) (local_lock_mgr_ w1) (local_others w1) (path_stack w1) (sherman_tag_ w1)).
  assert (plain w2) as Hpl2 by (by destruct Hpl1; split).
  assert (Z.of_nat kLeafPageSize ≠ 8) as Hn.
  { pose proof (length_enc_LeafPage _ Hsz (LeafPage_init_typed 0)) as Hl. unfold enc_LeafPage, enc_page in Hl. rewrite !length_app, !length_le_bytes in Hl. lia. }
  assert (w_slabs (kv w2) !! Z.of_nat kLeafPageSize = Some slp) as Hsp2.
  { change (w_slabs (kv w2)) with (w_slabs (kv w1)). by rewrite Hs1, Hoth. }
  destruct (local_allocate_run (kv w2) kLeafPageSize slp [(x, Z.of_nat 8)] Hsp2 Hnep) as (a & slabs2 & Ha2 & Hal2 & _ & Ha & H46 & Hra & _ & Hav).
  { change (w_slabs (kv w2)) with (w_slabs (kv w1)). change (cl (kv w2)) with (scl w1). by rewrite Hs1, Hc1. }
  { change (cl (kv w2)) with (scl w1). by rewrite Hc1. }
  destruct (on_kv_moved (on_alloc (local_allocate (Z.of_nat kLeafPageSize))) w2 a _ (scl w2) slabs2 Ha2) as (w3 & H3 & Hm3); [done|].
  change (cl (kv w2)) with (scl w1) in *. change (scl w2) with (scl w1) in *. rewrite Hc1 in *.
  pose proof (plain_moved _ _ _ _ Hm3 Hpl2) as Hpl3. pose proof (smoved_cl _ _ _ _ Hm3) as Hc3.
  destruct (root_page_shape (scl w)) as [Hls Hocc].
  assert (length (enc_LeafPage root_page) = kLeafPageSize) as Hlen by (apply length_enc_LeafPage; [done|apply Hls]).
  destruct (swrite_wrote w3 a (enc_LeafPage root_page)) as (w4 & H4 & Hw4); rewrite ?Hc3, ?Hlen; try done.
  { apply enc_LeafPage_bytes, zero_bytes. }
  rewrite Hlen in Hw4. pose proof (wr_agree _ _ _ _ _ Hw4) as Hag4. rewrite Hc3 in Hag4. pose proof (wrote_plain _ _ _ _ _ Hw4 Hpl3) as Hpl4.
  pose proof (alloc_apart _ _ _ _ Hal2) as Hd. apply Forall_cons_iff in Hd as [Hd _].
  assert (holds (scl w4) x (le_bytes 8 0)) as Hx0.
  { apply (ag_holds _ _ _ Hag4); [done|by apply (zeroed_holds _ _ 8)|]. by apply apart_one. }
  destruct (cas_run w4 x 0 a (pl_alone _ Hpl4) (wr_fits _ _ _ _ _ Hw4) Hx Hx0) as (w5 & H5 & Hw5); [unfold ga_ok, in_width; lia|].
  exists a, w5. unfold ga_ok, in_width in Ha. split.
  { unfold initialize. rewrite (bind_done _ _ _ _ _ H1). erewrite (bind_done _ _ w1 tt w2) by reflexivity. rewrite (bind_done _ _ _ _ _ H3).
    cbv zeta. rewrite (wrap_small 64 a) by (unfold in_width; lia). unfold ga_of_u64. rewrite (wrap_small 50 a) by done.
    rewrite (bind_done _ _ _ _ _ H4). cbn [assert_]. erewrite bind_done by reflexivity. rewrite (bind_done _ _ _ _ _ H5). by cbn [fst assert_]. }
  pose proof (wrote_plain _ _ _ _ _ Hw5 Hpl4) as Hpl5. pose proof (wrote_slabs _ _ _ _ _ Hw5) as Hs5.
  rewrite (wrote_slabs _ _ _ _ _ Hw4), (smoved_slabs _ _ _ _ Hm3) in Hs5.
  assert (root_offset_pointer_ (kv w5) = x) as Hrt.
  { by rewrite (smoved_root _ _ _ _ (wr_moved _ _ _ _ _ Hw5)), (smoved_root _ _ _ _ (wr_moved _ _ _ _ _ Hw4)), (smoved_root _ _ _ _ Hm3). }
  assert (tracked (mgr (w_net (kv w5))) = true) as Htr5.
  { rewrite (smoved_tracked _ _ _ _ (wr_moved _ _ _ _ _ Hw5)), (smoved_tracked _ _ _ _ (wr_moved _ _ _ _ _ Hw4)), (smoved_tracked _ _ _ _ Hm3).
    change (tracked (mgr (w_net (kv w2)))) with (tracked (mgr (w_net (kv w1)))). by rewrite (smoved_tracked _ _ _ _ Hm1). }
  change (w_slabs (kv w2)) with (w_slabs (kv w1)) in Hav. rewrite Hav in Hnull. apply Forall_cons_iff in Hnull as [Han Hnull].
  split; [|done| |done].
  - split; rewrite ?Hs5, ?Hrt; try done; [split; rewrite ?Hrt; try done| |].
    + apply Hpl5.
    + apply Hw5.
    + apply sstored_leaf_iff. split; [|split; [apply Z.eqb_refl|split; [done|apply root_page_shape]]].
      apply (ag_holds _ _ _ (wr_agree _ _ _ _ _ Hw5)); [done|apply Hw4|]. rewrite Hlen. apply apart_one. by symmetry.
    + unfold kMaxLevelOfTree. lia.
    + by rewrite (pl_cache _ Hpl5).
    + apply Hw5.
    + apply (wr_inv _ _ _ _ _ Hw5), (wr_inv _ _ _ _ _ Hw4). rewrite Hc3. cbn [sblocks]. rewrite Hocc. eapply local_inv_perm; [exact Hal2|apply perm_swap].
  - constructor; [|constructor]. split; [done|]. split; [|by left]. apply bool_decide_eq_true. rewrite Hocc. destruct Hcd. cbn [length]. lia.
Qed.

(** ** Histories *)

(** The level of the page the root pointer leads to. *)
Definition root_level w : nat :=
  let root := le_val (slice (Z.to_nat (offset (root_offset_pointer_ (kv w)))) 8 (region_of (scl w) (root_offset_pointer_ (kv w)))) in
  Z.to_nat (slevel (lhdr (dec_LeafPage (slice (Z.to_nat (offset root)) kLeafPageSize (region_of (scl w) root))))).

Lemma root_level_ok w l t : sgrow_inv w l t → root_level w = l.
Proof.
  intros [[[[Hsz Heq] _ Hr Hg Hst _ _] _ _ _ _ _] _ _ _]. unfold root_level. apply holds_slice in Hr. rewrite length_le_bytes in Hr. rewrite Hr.
  rewrite le_val_le_bytes. rewrite (Z.mod_small (saddr t)) by (change (256 ^ Z.of_nat 8) with (2 ^ 64); unfold ga_ok, in_width in Hg; lia). destruct t as [a p items|a p ts]; cbn [saddr].
  - assert (l = 0%nat) as -> by (by inversion Hst). apply sstored_leaf_iff in Hst as (Hh & _ & _ & Hls). apply holds_slice in Hh.
    destruct (dec_enc_LeafPage p Hsz (ls_typed _ _ _ _ _ Hls)) as [Hdec Hlen]. rewrite Hlen in Hh. by rewrite Hh, Hdec, (ls_level _ _ _ _ _ Hls).
  - destruct l as [|l]; [by inversion Hst|]. apply sstored_node_iff in Hst as (Hh & _ & _ & Hsh & _). apply holds_slice in Hh.
    destruct (dec_enc_InternalPage p Hsz (sh_typed _ _ _ _ _ Hsh)) as [_ Hlen]. rewrite Hlen, Heq in Hh.
    destruct (internal_as_leaf p Hsz Heq (sh_typed _ _ _ _ _ Hsh)) as (Hhd & _). rewrite Hh, Hhd, (sh_level _ _ _ _ _ Hsh). lia.
Qed.

Variables (fuel : positive) (spins depth : nat).

(** Runs of [initialize] and then of inserts and reads, as long as blocks and levels
    last; with the pairs inserted, the last one first. *)
Inductive shistory w0 : list (Z * Z) → SW → Prop :=
| h_initialize w : initialize w0 = Done true w → shistory w0 [] w
| h_insert kvs w key value r w' :
    shistory w0 kvs w → sroom w (root_level w) → (root_level w < depth)%nat → key_min ≤ key < key_max → item_ok (mkItem key value) →
    insert (Ent := Ent) fuel spins depth key value w = Done r w' → shistory w0 ((key, value) :: kvs) w'
| h_read kvs w key r w' :
    shistory w0 kvs w → (root_level w < Pos.to_nat fuel)%nat → key_min ≤ key < key_max → read (Ent := Ent) fuel key w = Done r w' → shistory w0 kvs w'.

Lemma shistory_inv w0 kvs w :
  sfresh w0 → shistory w0 kvs w → ∃ l t, sgrow_inv w l t ∧ scontents t = list_to_map kvs.
Proof.
  intros Hf. induction 1 as [w H|kvs w key value r w' _ (l & t & Hinv & Hct) (Hr1 & Hr2 & Hr3) Hd Hk Hok H|kvs w key r w' _ (l & t & Hinv & Hct) Hd Hk H].
  - destruct (sinitialize_run w0 Hf) as (a & w' & H' & Hinv). rewrite H in H'. injection H' as <-. by exists 0%nat, (SLeaf a root_page []).
  - rewrite (root_level_ok _ _ _ Hinv) in *.
    destruct (sgrow_tree_run (Ent := Ent) fuel spins depth w l t key value Hinv Hk Hok Hr1 Hd Hr2 Hr3) as (w2 & l' & t' & H' & Hinv' & _ & Hct').
    rewrite H in H'. injection H' as -> <-. exists l', t'. split; [done|]. by rewrite Hct', Hct.
  - rewrite (root_level_ok _ _ _ Hinv) in Hd. pose proof (gi_inv _ _ _ Hinv) as Hi0.
    destruct (sread_tree_run (Ent := Ent) fuel w l t key (siv_index _ _ _ Hi0) Hk Hd) as (w2 & H' & Hq & _ & Hn).
    rewrite H in H'. injection H' as -> <-. exists l, t. split; [|done]. eapply sgrow_inv_same; [|exact Hinv].
    pose proof (pl_cache _ (siv_plain _ _ _ Hi0)) as Hc0. apply squiet_moved; [done|]. by rewrite Hc0, Hn.
Qed.

(** C8: an index behaves as a finite map from [initialize] on: after any sequence of
    inserts and reads, by a thread alone without cache and local locks, a read returns
    the value inserted last for its key (values equal to [Value::min()] are reported
    as absent) and nothing for the other keys, and the next insert succeeds while
    blocks and levels last. *)
Theorem sherman_history w0 kvs w key value :
  sfresh w0 → shistory w0 kvs w → key_min ≤ key < key_max →
  ((root_level w < Pos.to_nat fuel)%nat → ∃ w', read (Ent := Ent) fuel key w = Done (visible ((list_to_map kvs : gmap Z Z) !! key)) w') ∧
  (sroom w (root_level w) → (root_level w < depth)%nat → item_ok (mkItem key value) →
   ∃ w', insert (Ent := Ent) fuel spins depth key value w = Done true w' ∧ shistory w0 ((key, value) :: kvs) w').
Proof.
  intros Hf Hh Hk. destruct (shistory_inv w0 kvs w Hf Hh) as (l & t & Hinv & Hct). rewrite (root_level_ok _ _ _ Hinv). split.
  - intros Hl. destruct (sread_tree_run (Ent := Ent) fuel w l t key (siv_index _ _ _ (gi_inv _ _ _ Hinv)) Hk Hl) as (w' & H & _).
    exists w'. by rewrite H, Hct.
  - intros (Hr1 & Hr2 & Hr3) Hd Hok.
    destruct (sgrow_tree_run (Ent := Ent) fuel spins depth w l t key value Hinv Hk Hok Hr1 Hd Hr2 Hr3) as (w' & _ & _ & H & _).
    exists w'. split; [done|]. by eapply h_insert; rewrite ?(root_level_ok _ _ _ Hinv).
Qed.
End init.

(** ** A concrete history *)

Section demo.
#[local] Existing Instances demo_cfg small_cfg.
Abbreviation SW := (SWorld (Q := fifo) (C := page_cache)).

Definition sfresh_check (w : SW) : bool :=
  match others (w_net (kv w)), local_lock_mgr_ w, faunus_cache_ (kv w) with [], None, None => true | _, _, _ => false end &&
  bool_decide (in_width 64 (sherman_tag_ w)) && tracked (mgr (w_net (kv w))) && alloc_check (w_slabs (kv w)) (scl w) &&
  forallb (λ s, forallb (Z.eqb 0) (rdma_ s)) (servers_ (scl w)) &&
  bool_decide (0 < nfree (w_slabs (kv w)) 8)%nat && bool_decide (0 < nfree (w_slabs (kv w)) kLeafPageSize)%nat &&
  match salloc 8 w with Done _ w' => bool_decide (Forall (λ r, r.1 ≠ Null) (avail (w_slabs (kv w')))) | Fault _ _ => false end.

Lemma sfresh_check_sound w : sfresh_check w = true → sfresh w.
Proof.
  unfold sfresh_check. rewrite !andb_true_iff, !bool_decide_eq_true.
  intros (((((((Hp & Htag) & Htr) & Hal) & Hz) & H8) & Hpg) & Hn). apply alloc_check_sound in Hal as [Hal Hf].
  split; try done; [apply small_sizes|apply small_cards| | |].
  - destruct (others (w_net (kv w))) eqn:Eo; [|done]. destruct (local_lock_mgr_ w) eqn:El; [done|].
    destruct (faunus_cache_ (kv w)) eqn:Ec; [done|]. by split.
  - rewrite forallb_forall in Hz. apply list.Forall_forall. intros s Hs%list_elem_of_In. specialize (Hz s Hs). rewrite forallb_forall in Hz.
    apply list.Forall_forall. intros b Hb%list_elem_of_In. specialize (Hz b Hb). lia.
  - intros x w' H. rewrite H in Hn. by apply bool_decide_eq_true in Hn.
Qed.

(** The inserts of a list, the last one first, with the conditions of a history. *)
Fixpoint replay (w0 : SW) (kvs : list (Z * Z)) : option SW :=
  match kvs with
  | [] => match initialize w0 with Done true w => Some w | _ => None end
  | (k, v) :: kvs' =>
      match replay w0 kvs' with
      | None => None
      | Some w =>
          if bool_decide (sroom w (root_level w)) && bool_decide (root_level w < 10)%nat && bool_decide (key_min ≤ k < key_max) &&
             bool_decide (item_ok (mkItem k v))
          then match insert 20 3 10 k v w with Done _ w' => Some w' | Fault _ _ => None end
          else None
      end
  end.

Lemma replay_history w0 kvs w : replay w0 kvs = Some w → shistory 20 3 10 w0 kvs w.
Proof.
  revert w. induction kvs as [|[k v] kvs IH]; intros w; cbn [replay].
  - destruct (initialize w0) as [[] w1|] eqn:E; [|done|done]. intros [= <-]. by apply h_initialize.
  - destruct (replay w0 kvs) as [w1|]; [|done]. destruct (_ && _) eqn:Eg; [|done].
    rewrite !andb_true_iff, !bool_decide_eq_true in Eg. destruct Eg as (((H1 & H2) & H3) & H4).
    destruct (insert 20 3 10 k v w1) as [r w2|] eqn:Ei; [|done]. intros [= <-]. eapply h_insert; [by apply IH|done..].
Qed.

(** Eight keys, after which the tree has two levels of internal pages, and a new value
    for one of them. *)
Definition demo_pairs : list (Z * Z) := [(30, 33); (80, 8); (70, 7); (60, 6); (50, 5); (40, 4); (30, 3); (20, 2); (10, 1)].

Lemma sherman_history_witness :
  ∃ w0 w, sworld_init 2 4096 16 None None = Some w0 ∧ shistory 20 3 10 w0 demo_pairs w ∧ root_level w = 2%nat ∧
    (∃ w', read 20 30 w = Done (Some 33) w') ∧ (∃ w', read 20 35 w = Done None w').
Proof.
  assert (match sworld_init 2 4096 16 None None with
          | Some w0 => sfresh_check w0 && match replay w0 demo_pairs with Some w => bool_decide (root_level w = 2)%nat | None => false end
          | None => false
          end = true) as H by (vm_compute; reflexivity).
  destruct (sworld_init 2 4096 16 None None) as [w0|]; [|discriminate H]. apply andb_true_iff in H as [Hf H].
  destruct (replay w0 demo_pairs) as [w|] eqn:Er; [|discriminate H]. apply sfresh_check_sound in Hf. apply replay_history in Er.
  apply bool_decide_eq_true in H. exists w0, w. split; [reflexivity|]. split; [exact Er|]. split; [exact H|]. split.
  - destruct (sherman_history 20 3 10 w0 demo_pairs w 30 0 Hf Er) as [Hr _]; [vm_compute; split; congruence|].
    destruct Hr as [w' Hr]; [rewrite H; lia|]. exists w'. exact Hr.
  - destruct (sherman_history 20 3 10 w0 demo_pairs w 35 0 Hf Er) as [Hr _]; [vm_compute; split; congruence|].
    destruct Hr as [w' Hr]; [rewrite H; lia|]. exists w'. exact Hr.
Defined.
End demo.
