(* ===== verification/Workload.v ===== *)
(** * The workload of the benchmark

    What a client thread of apps/kv_test.cpp does: the samplers of
    util/distribution.hpp, the keys and values of util/key_management.hpp, the
    choice of the operation of util/benchmark.hpp, the share of the warm-up, the
    barrier behind it and the loop of the measured operations.

    Doubles are the binary64 numbers of SpecFloat, with its correctly rounded
    operations.  [pow] of the C library, the random generators and distributions
    of <random> and the index the client works on are parameters. *)

From Stdlib Require Import SpecFloat.
From stdpp Require Import strings.
From S2P Require Import Prelude ArrayVar ThreadStats.
#[local] Open Scope Z_scope.

(** ** Doubles *)

Definition double : Type := spec_float.
Definition dadd : double → double → double := SFadd 53 1024.
Definition dsub : double → double → double := SFsub 53 1024.
Definition dmul : double → double → double := SFmul 53 1024.
Definition ddiv : double → double → double := SFdiv 53 1024.
(** [static_cast<double>] of an integer. *)
Definition of_size (n : Z) : double := binary_normalize 53 1024 n 0 false.
(** The literal n/d: the double nearest to it. *)
Definition dlit (n d : Z) : double := ddiv (of_size n) (of_size d).
Definition dopp : double → double := SFopp.
(** [std::numeric_limits<double>::min()] *)
Definition double_min : double := binary_normalize 53 1024 1 (-1022) false.
(** [static_cast<size_t>(std::floor(x))]; [None] where the conversion is undefined. *)
Definition floor_size (x : double) : option Z :=
  match x with
  | S754_zero _ => Some 0
  | S754_finite false m e => let v := Z.shiftl (Zpos m) e in if v <? 2 ^ 64 then Some v else None
  | _ => None
  end.

(** ** Configuration of the distribution and of the operation mix *)

Inductive Distribution := Uniform | Skewed.
#[global] Instance Distribution_eq_dec : EqDecision Distribution.
Proof. solve_decision. Defined.

Record DistributionConfig := mkDist { dist_type : Distribution; key_space : Z; zipf : double }.

(** The ratios of insert, read and delete of the named workloads. *)
Definition presets : list (string * (double * double * double)) :=
  [ ("write-only"%string, (dlit 1 1, dlit 0 1, dlit 0 1));
    ("write-intensive"%string, (dlit 5 10, dlit 5 10, dlit 0 1));
    ("read-intensive"%string, (dlit 5 100, dlit 95 100, dlit 0 1)) ].

Section workload.
(** [pow], a draw of [std::uniform_real_distribution(0, 1)] and a draw of
    [std::uniform_int_distribution(lo, hi)] with a generator in state [G]. *)
Context {G : Type} (pow : double → double → double) (next_real : G → double * G) (next_int : Z → Z → G → Z * G).
(** The bytes of a key and of a value. *)
Context (KEY_SIZE VALUE_SIZE : nat).

Definition draw_real : M G double := λ g, Done (next_real g).1 (next_real g).2.
Definition draw_int (lo hi : Z) : M G Z := λ g, Done (next_int lo hi g).1 (next_int lo hi g).2.

(** ** ZipfianSampler *)

Record ZipfianSampler := mkZipf {
  theta_ : double; alpha_ : double; zeta_2_theta_ : double;
  items_ : Z; zetan_ : double; eta_ : double
}.

(** The powers [i^-theta] for [n] numbers from [i] on, added to (or with [dsub]
    taken from) a sum. *)
Definition power_sum (op : double → double → double) (theta : double) (idxs : list Z) (sum : double) : double :=
  fold_left (λ s i, op s (pow (of_size i) (dopp theta))) idxs sum.

Definition harmonic (n : Z) (theta : double) : double :=
  if n =? 0 then of_size 0 else power_sum dadd theta (seqZ 1 n) (of_size 0).

Definition zipf_reset (z : ZipfianSampler) : ZipfianSampler :=
  mkZipf (theta_ z) (alpha_ z) (zeta_2_theta_ z) 0 (of_size 0) (of_size 0).
Definition ZipfianSampler_init (theta : double) : ZipfianSampler :=
  mkZipf theta (if SFeqb theta (of_size 0) then of_size 0 else ddiv (of_size 1) (dsub (of_size 1) theta)) (harmonic 2 theta)
    0 (of_size 0) (of_size 0).

(** The sum for [count] items, from the one for [items]; the indices go up from
    [items + 1] or down from [items]. *)
Definition zeta_update (theta : double) (items count : Z) (zetan : double) : double :=
  if items <? count then power_sum dadd theta (seqZ (items + 1) (count - items)) zetan
  else power_sum dsub theta (reverse (seqZ (count + 1) (items - count))) zetan.

Definition zipf_update_item_count (count : Z) (z : ZipfianSampler) : ZipfianSampler :=
  if count =? items_ z then z
  else if count =? 0 then zipf_reset z
  else
    let '(items, zetan) := if items_ z =? 0 then (1, of_size 1) else (items_ z, zetan_ z) in
    let zetan := zeta_update (theta_ z) items count zetan in
    if SFeqb (theta_ z) (of_size 0) then mkZipf (theta_ z) (alpha_ z) (zeta_2_theta_ z) count zetan (of_size 0)
    else
      let one_minus_theta := dsub (of_size 1) (theta_ z) in
      let denom_term := if 1 <? count then dsub (of_size 1) (pow (ddiv (of_size 2) (of_size count)) one_minus_theta) else of_size 1 in
      let numerator := dsub (of_size 1) (ddiv (zeta_2_theta_ z) zetan) in
      let numerator := if SFleb numerator (of_size 0) then double_min else numerator in
      mkZipf (theta_ z) (alpha_ z) (zeta_2_theta_ z) count zetan (ddiv denom_term numerator).

Definition zipf_sample (z : ZipfianSampler) : M G Z :=
  if items_ z =? 0 then mret 0
  else if SFeqb (theta_ z) (of_size 0) || (items_ z =? 1) then mret 0
  else
    u ← draw_real;
    let uz := dmul u (zetan_ z) in
    if SFltb uz (of_size 1) then mret 0
    else if SFltb uz (dadd (of_size 1) (pow (dlit 5 10) (theta_ z))) then mret (Z.min 1 (items_ z - 1))
    else
      match floor_size (dmul (of_size (items_ z)) (pow (dadd (dsub (dmul (eta_ z) u) (eta_ z)) (of_size 1)) (alpha_ z))) with
      | None => raise BadConversion
      | Some idx => mret (if items_ z <=? idx then items_ z - 1 else idx)
      end.

(** ** UniformSampler and KeySelectionSampler *)

Record UniformSampler := mkUniform { uniform_count_ : Z }.
Definition uniform_update_item_count (count : Z) (u : UniformSampler) : UniformSampler := mkUniform count.
Definition uniform_reset (u : UniformSampler) : UniformSampler := mkUniform 0.
Definition uniform_sample (u : UniformSampler) : M G Z :=
  if uniform_count_ u =? 0 then mret 0 else draw_int 0 (uniform_count_ u - 1).

Record KeySelectionSampler := mkSampler {
  sampler_type_ : Distribution; active_count_ : Z; zipf_sampler_ : ZipfianSampler; uniform_sampler_ : UniformSampler
}.
Definition KeySelectionSampler_init (config : DistributionConfig) : KeySelectionSampler :=
  mkSampler (dist_type config) 0 (ZipfianSampler_init (zipf config)) (mkUniform 0).
Definition update_active_count (count : Z) (s : KeySelectionSampler) : KeySelectionSampler :=
  match sampler_type_ s with
  | Skewed => mkSampler Skewed count (zipf_update_item_count count (zipf_sampler_ s)) (uniform_sampler_ s)
  | Uniform => mkSampler Uniform count (zipf_sampler_ s) (uniform_update_item_count count (uniform_sampler_ s))
  end.
Definition sample (s : KeySelectionSampler) : M G Z :=
  if active_count_ s =? 0 then mret 0
  else
    idx ← (match sampler_type_ s with Uniform => uniform_sample (uniform_sampler_ s) | Skewed => zipf_sample (zipf_sampler_ s) end);
    mret (if active_count_ s <=? idx then active_count_ s - 1 else idx).

(** ** Keys and values *)

(** The bytes of [raw], rotated by one byte per key byte. *)
Fixpoint key_bytes (n : nat) (raw : Z) : list Z :=
  match n with
  | O => []
  | S n' => u8 (Z.land raw 0xFF) :: key_bytes n' (Z.lor (Z.shiftr raw 8) (u64 (Z.shiftl raw 56)))
  end.
Definition key_multiplier : Z := 0x517CC1B727220A95.
Definition key_of_index (key_index : Z) : ArrayVar := key_bytes KEY_SIZE (u64 (key_index * key_multiplier)).

Definition sample_key_step (sampler : KeySelectionSampler) (key_space_size : Z) (_ : unit) : M G (unit + ArrayVar) :=
  key_index ← sample sampler;
  key_index ← (if key_space_size <=? key_index
               then if key_space_size =? 0 then raise DivideByZero else mret (key_index mod key_space_size)
               else mret key_index);
  let key := key_of_index key_index in
  mret (if av_eqb key (av_min KEY_SIZE) || av_eqb key (av_max KEY_SIZE) then inl tt else inr key).

(** At most [fuel] draws. *)
Definition sample_key_from_global_space (fuel : positive) (sampler : KeySelectionSampler) (key_space_size : Z) : M G ArrayVar :=
  r ← loop fuel (sample_key_step sampler key_space_size) tt;
  match r with inl _ => raise OutOfFuel | inr key => mret key end.

Fixpoint draw_bytes (n : nat) : M G (list Z) :=
  match n with
  | O => mret []
  | S n' => b ← draw_int 0 255; bs ← draw_bytes n'; mret (b :: bs)
  end.
Definition generate_random_value (fuel : positive) : M G ArrayVar :=
  r ← loop fuel (λ _ : unit, v ← draw_bytes VALUE_SIZE; mret (if av_eqb v (av_min VALUE_SIZE) then inl tt else inr v)) tt;
  match r with inl _ => raise OutOfFuel | inr v => mret v end.

(** ** The choice of the operation *)

Definition pick (operation_mix : double * double * double) (r : double) : OperationKind :=
  let '(insert, read, _) := operation_mix in
  let cumulative := dadd (of_size 0) insert in
  if SFltb r cumulative then Insert
  else if SFltb r (dadd cumulative read) then Read
  else Delete.
Definition weighted_pick (operation_mix : double * double * double) : M G OperationKind :=
  r ← draw_real; mret (pick operation_mix r).

(** ** A client *)

(** What a client needs of an index: [insert], [read], and the statistics tracker of
    the thread, which the index and the RDMA manager share. *)
Record KVIndex (X : Type) := mkKVIndex {
  kv_insert : Z → Z → M X bool;
  kv_read : Z → M X (option Z);
  kv_record : (ThreadStatsTracker → ThreadStatsTracker) → M X unit
}.

Record WorkerSummary := mkSummary {
  attempted : Z; succeeded : Z; elapsed_sec : double; attempted_throughput : double; succeeded_throughput : double
}.
Definition summary_init : WorkerSummary := mkSummary 0 0 (of_size 0) (of_size 0) (of_size 0).
Definition count_result (success : bool) (s : WorkerSummary) : WorkerSummary :=
  mkSummary (u64 (attempted s + 1)) (if success then u64 (succeeded s + 1) else succeeded s)
    (elapsed_sec s) (attempted_throughput s) (succeeded_throughput s).
(** After the loop; [elapsed] is the time it took, in seconds. *)
Definition finish_summary (elapsed : double) (s : WorkerSummary) : WorkerSummary :=
  if SFltb (of_size 0) elapsed
  then mkSummary (attempted s) (succeeded s) elapsed (ddiv (of_size (attempted s)) elapsed) (ddiv (of_size (succeeded s)) elapsed)
  else mkSummary (attempted s) (succeeded s) elapsed (attempted_throughput s) (succeeded_throughput s).

Section client.
Context {X : Type} (ix : KVIndex X).

(** The state of the client: the index, its generators, the latencies the clock
    will give, and the summary. *)
Record Client := mkClient {
  c_index : X; op_rng : G; value_rng : G; latencies : list Z; summary : WorkerSummary
}.
Definition on_index {A} (m : M X A) : M Client A :=
  zoom c_index (λ x c, mkClient x (op_rng c) (value_rng c) (latencies c) (summary c)) m.
Definition on_op_rng {A} (m : M G A) : M Client A :=
  zoom op_rng (λ g c, mkClient (c_index c) g (value_rng c) (latencies c) (summary c)) m.
Definition on_value_rng {A} (m : M G A) : M Client A :=
  zoom value_rng (λ g c, mkClient (c_index c) (op_rng c) g (latencies c) (summary c)) m.
(** The time between the two readings of the clock, in nanoseconds. *)
Definition latency : M Client Z := λ c,
  Done (hd 0 (latencies c)) (mkClient (c_index c) (op_rng c) (value_rng c) (tl (latencies c)) (summary c)).

(** An operation between [begin_operation] and [end_operation], recorded a second
    time by the recorder. *)
Definition recorded (kind : OperationKind) (op : M X bool) : M Client bool :=
  _ ← on_index (kv_record _ ix (begin_operation kind));
  ok ← on_index op;
  l ← latency;
  _ ← on_index (kv_record _ ix (end_operation l ok));
  _ ← on_index (kv_record _ ix (record_result kind l ok));
  mret ok.
Definition perform_put (key value : ArrayVar) : M Client bool := recorded Insert (kv_insert _ ix (be_val key) (be_val value)).
Definition perform_get (key : ArrayVar) : M Client bool :=
  recorded Read (v ← kv_read _ ix (be_val key); mret (match v with Some _ => true | None => false end)).

Definition warmup_per_client (warmup_total total_clients global_client_id : Z) : Z :=
  warmup_total / total_clients + (if global_client_id <? warmup_total mod total_clients then 1 else 0).

(** The first key of the warm-up; [b] is a random byte. *)
Definition first_warmup_key (cs_id b : Z) : ArrayVar := <[1%nat := u8 b]> (<[0%nat := u8 cs_id]> (av_add (av_min KEY_SIZE) 1)).

Fixpoint warmup (fuel : positive) (n : nat) (warmup_key : ArrayVar) : M Client unit :=
  match n with
  | O => on_index (kv_record _ ix (with_stats stats_reset))
  | S n' =>
      value ← on_value_rng (generate_random_value fuel);
      _ ← perform_put warmup_key value;
      warmup fuel n' (av_add warmup_key 1)
  end.

Definition on_summary (f : WorkerSummary → WorkerSummary) : M Client unit :=
  modify (λ c, mkClient (c_index c) (op_rng c) (value_rng c) (latencies c) (f (summary c))).

(** One measured operation. *)
Definition client_step (fuel : positive) (mix : double * double * double) (sampler : KeySelectionSampler) (space : Z) : M Client unit :=
  desired ← on_op_rng (weighted_pick mix);
  key ← on_op_rng (sample_key_from_global_space fuel sampler space);
  success ← (match desired with
             | Read => perform_get key
             | Delete => mret false
             | _ => value ← on_value_rng (generate_random_value fuel); perform_put key value
             end);
  on_summary (count_result success).

(** The loop of the measured operations and the summary. *)
Fixpoint client_loop (n : nat) (step : M Client unit) (elapsed : double) : M Client unit :=
  match n with
  | O => on_summary (finish_summary elapsed)
  | S n' => _ ← step; client_loop n' step elapsed
  end.
End client.
End workload.

(** ** The barrier behind the warm-up

    A client takes the mutex and counts itself.  The last one opens the barrier and
    notifies the condition variable, which wakes every client that is blocked on it.
    The others find the counter incomplete and block ([Waiting]), which gives the mutex
    up; only a notification, or the system for no reason at all, wakes a blocked client
    ([Woken]), which then takes the mutex again, looks at the counter and goes on or
    blocks again.  The critical sections are atomic steps. *)
Inductive place := WarmingUp | Waiting | Woken | Measuring.
#[global] Instance place_eq_dec : EqDecision place.
Proof. solve_decision. Defined.

Record Barrier := mkBarrier { warmup_counter : Z; rdma_sleep : bool; places : list place }.

Definition barrier_init (total_clients : nat) : Barrier := mkBarrier 0 false (replicate total_clients WarmingUp).

(** [warmup_cv.notify_all()]. *)
Definition notify_all (ps : list place) : list place := map (λ p, if decide (p = Waiting) then Woken else p) ps.

(** [arrive] is the code from [fetch_add] on, of the client [i]. *)
Definition arrive (total_clients : Z) (i : nat) (b : Barrier) : Barrier :=
  let count := warmup_counter b + 1 in
  if count =? total_clients then mkBarrier count true (notify_all (<[i := Measuring]> (places b)))
  else mkBarrier count (rdma_sleep b) (<[i := Waiting]> (places b)).

(** The predicate of [warmup_cv.wait], evaluated by the woken client [i]. *)
Definition recheck (total_clients : Z) (i : nat) (b : Barrier) : Barrier :=
  mkBarrier (warmup_counter b) (rdma_sleep b)
    (<[i := if warmup_counter b =? total_clients then Measuring else Waiting]> (places b)).

(** The steps of the program. *)
Inductive barrier_step (total_clients : Z) : Barrier → Barrier → Prop :=
  | step_arrive b i : places b !! i = Some WarmingUp → barrier_step total_clients b (arrive total_clients i b)
  | step_recheck b i : places b !! i = Some Woken → barrier_step total_clients b (recheck total_clients i b).

(** What can happen: steps of the program and spurious wake-ups. *)
Inductive barrier_event (total_clients : Z) : Barrier → Barrier → Prop :=
  | event_step b b' : barrier_step total_clients b b' → barrier_event total_clients b b'
  | event_spurious b i : places b !! i = Some Waiting →
      barrier_event total_clients b (mkBarrier (warmup_counter b) (rdma_sleep b) (<[i := Woken]> (places b))).

(** ** Keys *)

Section keys.
Context (KEY_SIZE : nat).
Implicit Types raw : Z.

Definition rotate (raw : Z) : Z := Z.lor (Z.shiftr raw 8) (u64 (Z.shiftl raw 56)).

Lemma rotate_spec raw : in_width 64 raw → rotate raw = raw / 256 + raw mod 256 * 2 ^ 56.
Proof.
  intros [H0 H1]. unfold rotate. rewrite shiftr_8, Z.shiftl_mul_pow2 by lia.
  assert (u64 (raw * 2 ^ 56) = raw mod 256 * 2 ^ 56) as ->.
  { unfold wrap. change (2 ^ 64) with (256 * 2 ^ 56). by rewrite Z.mul_mod_distr_r by lia. }
  pose proof (Z.mod_pos_bound raw 256 ltac:(lia)).
  assert (raw / 256 < 2 ^ 56) by (apply Z.div_lt_upper_bound; lia). pose proof (Z.div_pos raw 256 H0 ltac:(lia)).
  assert (Z.land (raw / 256) (raw mod 256 * 2 ^ 56) = 0) as Hl.
  { apply Z.bits_inj'. intros n Hn. rewrite Z.land_spec, Z.bits_0. destruct (Z.lt_ge_cases n 56).
    - by rewrite Z.mul_pow2_bits_low, andb_false_r by lia.
    - rewrite (Z.bits_above_log2 (raw / 256)); [done|done|]. destruct (Z.eq_dec (raw / 256) 0) as [->|]; [simpl; lia|].
      apply Z.log2_lt_pow2; [lia|]. apply (Z.lt_le_trans _ (2 ^ 56)); [done|]. apply Z.pow_le_mono_r; lia. }
  pose proof (Z.add_lor_land (raw / 256) (raw mod 256 * 2 ^ 56)). lia.
Qed.

Lemma rotate_width raw : in_width 64 raw → in_width 64 (rotate raw).
Proof.
  intros H. rewrite rotate_spec by done. destruct H as [H0 H1]. pose proof (Z.mod_pos_bound raw 256 ltac:(lia)).
  assert (raw / 256 < 2 ^ 56) by (apply Z.div_lt_upper_bound; lia). pose proof (Z.div_pos raw 256 H0 ltac:(lia)).
  unfold in_width. change (2 ^ 64) with (256 * 2 ^ 56). lia.
Qed.

Lemma key_bytes_ok n : ∀ raw, in_width 64 raw → av_ok n (key_bytes n raw).
Proof.
  induction n as [|n IH]; intros raw Hr; [by split|]. cbn [key_bytes]. fold (rotate raw).
  destruct (IH _ (rotate_width _ Hr)) as [H1 H2]. split; [cbn; by rewrite H1|]. constructor; [|done].
  rewrite u8_land_ff by apply Hr. apply mod_256_ok.
Qed.

Lemma key_of_index_ok i : av_ok KEY_SIZE (key_of_index KEY_SIZE i).
Proof. apply key_bytes_ok, wrap_in_width. lia. Qed.

(** The low bytes of a number do not depend on its high bytes. *)
Lemma le_bytes_add_high n x y : le_bytes n (x + y * 256 ^ Z.of_nat n) = le_bytes n x.
Proof.
  revert x y. induction n as [|n IH]; intros x y; [done|]. cbn [le_bytes].
  rewrite Nat2Z.inj_succ, Z.pow_succ_r by lia. replace (x + y * (256 * 256 ^ Z.of_nat n)) with (x + y * 256 ^ Z.of_nat n * 256) by lia.
  by rewrite Z.mod_add, Z.div_add, IH by lia.
Qed.

Lemma key_bytes_low n : ∀ raw, (n ≤ 8)%nat → in_width 64 raw → key_bytes n raw = le_bytes n raw.
Proof.
  induction n as [|n IH]; intros raw Hn Hr; [done|]. cbn [key_bytes le_bytes]. fold (rotate raw).
  rewrite u8_land_ff by apply Hr. f_equal. rewrite IH by (try lia; by apply rotate_width). rewrite rotate_spec by done.
  replace (2 ^ 56) with (2 ^ (8 * Z.of_nat (7 - n)) * 256 ^ Z.of_nat n).
  2:{ change 256 with (2 ^ 8). rewrite <-Z.pow_mul_r, <-Z.pow_add_r by lia. f_equal. lia. }
  by rewrite Z.mul_assoc, le_bytes_add_high.
Qed.

Lemma key_bytes_take m n : ∀ raw, (m ≤ n)%nat → take m (key_bytes n raw) = key_bytes m raw.
Proof.
  revert n. induction m as [|m IH]; intros [|n] raw H; [done|done|lia|]. cbn [key_bytes take]. f_equal. apply IH. lia.
Qed.

(** The multiplier has an inverse modulo 2^64. *)
Definition key_inverse : Z := 2323857671730065597.
Lemma multiplier_inverse i : in_width 64 i → u64 (u64 (i * key_multiplier) * key_inverse) = i.
Proof.
  intros Hi. unfold wrap. rewrite Z.mul_mod_idemp_l by lia. rewrite <-Z.mul_assoc.
  change (key_multiplier * key_inverse) with (2 ^ 64 * (key_multiplier * key_inverse / 2 ^ 64) + 1).
  rewrite Z.mul_add_distr_l, Z.mul_1_r, Z.add_comm, Z.mul_assoc, (Z.mul_comm i), <-Z.mul_assoc, Z.mul_comm, Z.mod_add by lia.
  by apply Z.mod_small.
Qed.

Lemma key_of_index_inj i j : (8 ≤ KEY_SIZE)%nat → in_width 64 i → in_width 64 j →
  key_of_index KEY_SIZE i = key_of_index KEY_SIZE j → i = j.
Proof.
  intros Hk Hi Hj He. rewrite <-(multiplier_inverse i Hi), <-(multiplier_inverse j Hj). do 2 f_equal.
  apply (f_equal (λ l, le_val (take 8 l))) in He. unfold key_of_index in He.
  rewrite !key_bytes_take, !key_bytes_low, !le_val_le_bytes in He by (lia || apply wrap_in_width; lia).
  rewrite !Z.mod_small in He; [done|apply (wrap_in_width 64); lia..].
Qed.

(** The keys the sampling loop does not accept. *)
Definition rejected (key : ArrayVar) : bool := av_eqb key (av_min KEY_SIZE) || av_eqb key (av_max KEY_SIZE).

Lemma key_of_zero : key_of_index KEY_SIZE 0 = av_min KEY_SIZE.
Proof. unfold key_of_index, av_min. induction KEY_SIZE as [|n IH]; [done|]. cbn [key_bytes replicate]. by f_equal. Qed.

Lemma zero_rejected : rejected (key_of_index KEY_SIZE 0) = true.
Proof.
  unfold rejected. rewrite key_of_zero. assert (av_ok KEY_SIZE (av_min KEY_SIZE)) as Hok.
  { split; [apply length_replicate|]. apply bytes_ok_replicate. unfold byte_ok, in_width. lia. }
  by rewrite (proj2 (av_eqb_true KEY_SIZE _ _ Hok Hok) eq_refl).
Qed.

(** The keys of a key space of [n] indices. *)
Definition space_keys (n : Z) : list ArrayVar := map (key_of_index KEY_SIZE) (seqZ 0 n).

Lemma space_keys_nodup n : (8 ≤ KEY_SIZE)%nat → n ≤ 2 ^ 64 → NoDup (space_keys n).
Proof.
  intros Hk Hn. unfold space_keys. apply NoDup_fmap_2_strong; [|apply NoDup_seqZ].
  intros i j Hi Hj. rewrite elem_of_seqZ in Hi, Hj. apply key_of_index_inj; [done|unfold in_width; lia..].
Qed.

Lemma rejected_extreme key : av_ok KEY_SIZE key → rejected key = true → key ∈ [av_min KEY_SIZE; av_max KEY_SIZE].
Proof.
  intros Hok. unfold rejected. rewrite orb_true_iff. rewrite !elem_of_cons.
  intros [H|H]; [left|right; left]; (eapply av_eqb_true; [done| |exact H]);
    (split; [apply length_replicate|apply bytes_ok_replicate; unfold byte_ok, in_width; lia]).
Qed.
End keys.

(** A filter and its complement. *)
Lemma length_filter_compl {A} (f : A → bool) (l : list A) :
  (length (filter (λ x, f x = true) l) + length (filter (λ x, f x = false) l) = length l)%nat.
Proof. induction l as [|x l IH]; [done|]. rewrite !filter_cons. destruct (f x); repeat case_decide; try done; cbn [length]; lia. Qed.

(** ** Sampling *)

Section sampling.
Context {G : Type} (pow : double → double → double) (next_real : G → double * G) (next_int : Z → Z → G → Z * G).
Context (KEY_SIZE : nat).
(** A draw of [std::uniform_int_distribution(lo, hi)] lies between its bounds. *)
Context (next_int_range : ∀ lo hi g, lo ≤ hi → lo ≤ (next_int lo hi g).1 ≤ hi).

(** The sampler of a client. *)
Definition client_sampler (config : DistributionConfig) : KeySelectionSampler :=
  update_active_count pow (key_space config) (KeySelectionSampler_init pow config).

Lemma zipf_items count z : items_ (zipf_update_item_count pow count z) = count.
Proof.
  unfold zipf_update_item_count. destruct (Z.eqb_spec count (items_ z)) as [->|]; [done|].
  destruct (Z.eqb_spec count 0) as [->|]; [done|]. destruct (items_ z =? 0); cbv iota beta; by destruct (SFeqb _ _).
Qed.

Lemma floor_size_nonneg x v : floor_size x = Some v → 0 ≤ v.
Proof.
  destruct x as [| | |[] m e]; cbn [floor_size]; try done; [intros [= <-]; lia|]. cbv zeta.
  destruct (_ <? _); [|done]. intros [= <-]. apply Z.shiftl_nonneg. lia.
Qed.

Lemma zipf_sample_range z g :
  0 < items_ z →
  match zipf_sample pow next_real z g with Done idx _ => 0 ≤ idx < items_ z | Fault f _ => f = BadConversion end.
Proof.
  intros Hn. unfold zipf_sample. rewrite (proj2 (Z.eqb_neq _ _)) by lia. destruct (_ || _); [cbn; lia|].
  erewrite bind_done by reflexivity. cbv zeta. destruct (SFltb _ _); [cbn; lia|]. destruct (SFltb _ _); [cbn; lia|].
  destruct (floor_size _) as [v|] eqn:E; [|done]. apply floor_size_nonneg in E. cbn.
  destruct (Z.leb_spec (items_ z) v); lia.
Qed.

(** The state after [n] draws of an index below [count], and draw [n]. *)
Fixpoint after_draws (count : Z) (g : G) (n : nat) : G :=
  match n with O => g | S n' => after_draws count (next_int 0 (count - 1) g).2 n' end.
Definition nth_draw (count : Z) (g : G) (n : nat) : Z := (next_int 0 (count - 1) (after_draws count g n)).1.

Lemma client_sample config g :
  0 < key_space config →
  match sample pow next_real next_int (client_sampler config) g with
  | Done idx g' => 0 ≤ idx < key_space config ∧
      (dist_type config = Uniform → idx = nth_draw (key_space config) g 0 ∧ g' = after_draws (key_space config) g 1) ∧
      (key_space config = 1 → idx = 0)
  | Fault f _ => f = BadConversion ∧ dist_type config = Skewed ∧ key_space config ≠ 1
  end.
Proof.
  intros Hc. unfold sample, client_sampler, update_active_count, KeySelectionSampler_init. cbn [sampler_type_].
  destruct (dist_type config); cbn [active_count_ sampler_type_ uniform_sampler_ zipf_sampler_].
  - rewrite (proj2 (Z.eqb_neq _ _)) by lia. unfold uniform_sample, uniform_update_item_count. cbn [uniform_count_].
    rewrite (proj2 (Z.eqb_neq _ _)) by lia. erewrite bind_done by reflexivity.
    pose proof (next_int_range 0 (key_space config - 1) g ltac:(lia)) as Hr. unfold nth_draw. cbn [after_draws].
    rewrite (proj2 (Z.leb_gt _ _)) by lia. split; [lia|]. split; [done|lia].
  - rewrite (proj2 (Z.eqb_neq _ _)) by lia. set (z := zipf_update_item_count _ _ _).
    assert (items_ z = key_space config) as Hi by apply zipf_items.
    pose proof (zipf_sample_range z g ltac:(lia)) as Hz. rewrite Hi in Hz. unfold mbind, M_bind.
    destruct (zipf_sample _ _ z g) as [idx g'|f g'] eqn:E.
    + cbn. rewrite (proj2 (Z.leb_gt _ _)) by lia. split; [lia|]. split; [done|lia].
    + split; [done|]. split; [done|]. intros H1. unfold zipf_sample in E. rewrite Hi, H1 in E.
      by rewrite orb_true_r in E.
Qed.

Lemma sample_key_step_accept config g idx g' :
  sample pow next_real next_int (client_sampler config) g = Done idx g' → idx < key_space config →
  sample_key_step pow next_real next_int KEY_SIZE (client_sampler config) (key_space config) tt g =
    Done (if rejected KEY_SIZE (key_of_index KEY_SIZE idx) then inl tt else inr (key_of_index KEY_SIZE idx)) g'.
Proof.
  intros Hs Hi. unfold sample_key_step. rewrite (bind_done _ _ _ _ _ Hs). rewrite (proj2 (Z.leb_gt _ _)) by lia.
  by erewrite bind_done by reflexivity.
Qed.

Lemma sample_key_loop config n : ∀ g fuel,
  dist_type config = Uniform → 0 < key_space config →
  (∀ m, (m < n)%nat → rejected KEY_SIZE (key_of_index KEY_SIZE (nth_draw (key_space config) g m)) = true) →
  rejected KEY_SIZE (key_of_index KEY_SIZE (nth_draw (key_space config) g n)) = false → (n < Pos.to_nat fuel)%nat →
  loop fuel (sample_key_step pow next_real next_int KEY_SIZE (client_sampler config) (key_space config)) tt g =
    Done (inr (key_of_index KEY_SIZE (nth_draw (key_space config) g n))) (after_draws (key_space config) g (S n)).
Proof.
  induction n as [|n IH]; intros g fuel Ht Hc Hrej Hacc Hf; pose proof (client_sample config g Hc) as Hs;
    (destruct (sample _ _ _ _ g) as [idx g'|] eqn:E; [|destruct Hs as (_ & Hs & _); congruence]);
    destruct Hs as (Hi & Hu & _); destruct (Hu Ht) as [-> ->]; pose proof (sample_key_step_accept config g _ _ E ltac:(lia)) as Hstep.
  - rewrite Hacc in Hstep. by apply loop_done.
  - rewrite (Hrej 0%nat) in Hstep by lia. rewrite loop_unroll, Hstep, decide_False by (intros ->; simpl in Hf; lia).
    change (after_draws (key_space config) g (S (S n))) with (after_draws (key_space config) (after_draws (key_space config) g 1) (S n)).
    change (nth_draw (key_space config) g (S n)) with (nth_draw (key_space config) (after_draws (key_space config) g 1) n) in *.
    apply IH; [done|done| |done|lia]. intros m Hm. apply (Hrej (S m)). lia.
Qed.

(** With one key in the key space every draw is rejected. *)
Lemma sample_key_loop_one config fuel : ∀ g,
  key_space config = 1 →
  ∃ g', loop fuel (sample_key_step pow next_real next_int KEY_SIZE (client_sampler config) (key_space config)) tt g = Done (inl tt) g'.
Proof.
  induction fuel as [|fuel IH] using Pos.peano_ind; intros g Hc; pose proof (client_sample config g ltac:(lia)) as Hs;
    (destruct (sample _ _ _ _ g) as [idx g1|] eqn:E; [|by destruct Hs as (_ & _ & Hs)]);
    destruct Hs as (Hi & _ & H0); rewrite (H0 Hc) in *; pose proof (sample_key_step_accept config g _ _ E ltac:(lia)) as Hstep;
    rewrite zero_rejected in Hstep.
  - exists g1. exact Hstep.
  - destruct (IH g1 Hc) as (g2 & H2). exists g2. rewrite loop_succ. by rewrite (bind_done _ _ _ _ _ Hstep).
Qed.
End sampling.

(** ** The share of the warm-up *)

Lemma sum_list_app l1 l2 : sum_list (l1 ++ l2) = sum_list l1 + sum_list l2.
Proof. induction l1 as [|x l1 IH]; cbn; [done|]. rewrite IH. lia. Qed.

(** The first [n] clients get [n] shares and the remainder as far as it goes. *)
Lemma warmup_first total clients n :
  0 < clients →
  sum_list (map (λ i, warmup_per_client total clients (Z.of_nat i)) (seq 0 n)) =
    Z.of_nat n * (total / clients) + Z.min (Z.of_nat n) (total mod clients).
Proof.
  intros Hc. pose proof (Z.mod_pos_bound total clients Hc). induction n as [|n IH]; [cbn; lia|].
  rewrite seq_S, map_app, sum_list_app, IH. cbn [map sum_list Nat.add]. unfold warmup_per_client.
  destruct (Z.ltb_spec (Z.of_nat n) (total mod clients)); lia.
Qed.

(** ** Theorems *)

Section theorems.
Context {G : Type} (pow : double → double → double) (next_real : G → double * G) (next_int : Z → Z → G → Z * G).
Context (KEY_SIZE : nat).
Context (next_int_range : ∀ lo hi g, lo ≤ hi → lo ≤ (next_int lo hi g).1 ≤ hi).

(** C38: the key space.  With keys of at least eight bytes, the [n] indices of a
    key space give [n] different keys, each a proper byte array.  Index 0 gives
    [Key::min()], which the sampler rejects, and only [Key::min()] and [Key::max()] are
    rejected, so the clients can work on [n - 1] different keys, or [n - 2] if some index
    gives [Key::max()]. *)
Theorem global_keys_distinct n :
  (8 ≤ KEY_SIZE)%nat → 0 < n ≤ 2 ^ 64 →
  let keys := space_keys KEY_SIZE n in
  NoDup keys ∧ Forall (av_ok KEY_SIZE) keys ∧ rejected KEY_SIZE (key_of_index KEY_SIZE 0) = true ∧
  n - 2 ≤ Z.of_nat (length (filter (λ k, rejected KEY_SIZE k = false) keys)) ≤ n - 1.
Proof.
  intros Hk Hn keys. pose proof (space_keys_nodup KEY_SIZE n Hk ltac:(lia)) as Hnd.
  assert (Forall (av_ok KEY_SIZE) keys) as Hok by (apply Forall_map, Forall_true; intros i; apply key_of_index_ok).
  split; [done|]. split; [done|]. split; [apply zero_rejected|].
  pose proof (length_filter_compl (rejected KEY_SIZE) keys) as Hlen.
  assert (length keys = Z.to_nat n) as Hn' by (unfold keys, space_keys; by rewrite length_map, length_seqZ).
  set (rej := filter (λ k, rejected KEY_SIZE k = true) keys) in *.
  assert (length rej ≤ 2)%nat.
  { apply (NoDup_incl_length (l' := [av_min KEY_SIZE; av_max KEY_SIZE])); [by apply NoDup_ListNoDup, list.NoDup_filter|].
    intros k Hin. apply list_elem_of_In, list_elem_of_filter in Hin as [Hr Hin]. apply list_elem_of_In, rejected_extreme; [|done].
    rewrite list.Forall_forall in Hok. by apply Hok. }
  assert (length rej ≠ 0%nat).
  { assert (key_of_index KEY_SIZE 0 ∈ rej) as Hin; [|by intros H0%nil_length_inv; rewrite H0 in Hin; apply not_elem_of_nil in Hin].
    apply list_elem_of_filter. split; [apply zero_rejected|]. apply list_elem_of_fmap_2, elem_of_seqZ. lia. }
  lia.
Qed.

(** C37: with a uniform distribution, sampling a key returns as soon as a draw
    gives an index whose key is not [Key::min()] or [Key::max()]: the result is the
    key of the first such draw [n], an index of the key space, after exactly
    [n + 1] draws. *)
Theorem sample_key_returns config g n fuel :
  dist_type config = Uniform → 0 < key_space config →
  (∀ m, (m < n)%nat → rejected KEY_SIZE (key_of_index KEY_SIZE (nth_draw next_int (key_space config) g m)) = true) →
  rejected KEY_SIZE (key_of_index KEY_SIZE (nth_draw next_int (key_space config) g n)) = false → (n < Pos.to_nat fuel)%nat →
  sample_key_from_global_space pow next_real next_int KEY_SIZE fuel (client_sampler pow config) (key_space config) g =
    Done (key_of_index KEY_SIZE (nth_draw next_int (key_space config) g n)) (after_draws next_int (key_space config) g (S n)) ∧
  0 ≤ nth_draw next_int (key_space config) g n < key_space config.
Proof.
  intros Ht Hc Hrej Hacc Hf. split.
  - unfold sample_key_from_global_space.
    by rewrite (bind_done _ _ _ _ _ (sample_key_loop pow next_real next_int KEY_SIZE next_int_range config n g fuel Ht Hc Hrej Hacc Hf)).
  - unfold nth_draw. pose proof (next_int_range 0 (key_space config - 1) (after_draws next_int (key_space config) g n) ltac:(lia)). lia.
Qed.

(** Index 0 gives the key [Key::min()], which the sampling loop rejects: the
    first item of the key space, the most frequent one of a skewed distribution, is
    never used, and with a key space of one key the loop never ends. *)
Theorem sample_key_stuck config g :
  rejected KEY_SIZE (key_of_index KEY_SIZE 0) = true ∧
  (key_space config = 1 → ∀ fuel, ∃ g',
     sample_key_from_global_space pow next_real next_int KEY_SIZE fuel (client_sampler pow config) (key_space config) g = Fault OutOfFuel g').
Proof.
  split; [apply zero_rejected|]. intros Hc fuel. unfold sample_key_from_global_space.
  destruct (sample_key_loop_one pow next_real next_int KEY_SIZE next_int_range config fuel g Hc) as (g' & H).
  exists g'. by rewrite (bind_done _ _ _ _ _ H).
Qed.

(** The index a client's sampler gives is an index of the key space, for either
    distribution and whatever [pow] computes; the only other outcome is the
    conversion of a number that no [size_t] can hold, in the skewed distribution. *)
Theorem sampler_in_range config g :
  0 < key_space config →
  match sample pow next_real next_int (client_sampler pow config) g with
  | Done idx _ => 0 ≤ idx < key_space config
  | Fault f _ => f = BadConversion ∧ dist_type config = Skewed
  end.
Proof.
  intros Hc. pose proof (client_sample pow next_real next_int next_int_range config g Hc) as H.
  destruct (sample _ _ _ _ g) as [idx g'|f g']; [by destruct H|]. by destruct H as (? & ? & _).
Qed.

(** The clients share the warm-up inserts: together they make exactly
    [warmup_total] of them, and the shares of two clients differ by at most one. *)
Theorem warmup_partition total clients :
  (0 < clients)%nat → 0 ≤ total →
  sum_list (map (λ i, warmup_per_client total (Z.of_nat clients) (Z.of_nat i)) (seq 0 clients)) = total ∧
  ∀ i, total / Z.of_nat clients ≤ warmup_per_client total (Z.of_nat clients) i ≤ total / Z.of_nat clients + 1.
Proof.
  intros Hc Ht. split.
  - rewrite warmup_first by lia. pose proof (Z.mod_pos_bound total (Z.of_nat clients) ltac:(lia)).
    pose proof (Z.div_mod total (Z.of_nat clients) ltac:(lia)). lia.
  - intros i. unfold warmup_per_client. destruct (_ <? _); lia.
Qed.

(** None of the named workloads ever picks a delete (whose handler is not
    implemented), although the ratios are added in floating point; the workload
    write-only picks only inserts. *)
Theorem presets_never_delete name mix r :
  (name, mix) ∈ presets → SFltb r (of_size 1) = true → pick mix r ≠ Delete ∧ (name = "write-only"%string → pick mix r = Insert).
Proof.
  intros Hin Hr. unfold presets in Hin. rewrite !elem_of_cons, elem_of_nil in Hin.
  assert (∀ c, c = of_size 1 → SFltb r c = true) as H1 by (by intros c ->).
  destruct Hin as [H|[H|[H|[]]]]; simplify_eq; unfold pick.
  - by rewrite (H1 (dadd (of_size 0) (dlit 1 1))) by (vm_compute; reflexivity).
  - rewrite (H1 (dadd (dadd (of_size 0) (dlit 5 10)) (dlit 5 10))) by (vm_compute; reflexivity).
    split; [by destruct (SFltb r (dadd (of_size 0) (dlit 5 10)))|discriminate].
  - rewrite (H1 (dadd (dadd (of_size 0) (dlit 5 100)) (dlit 95 100))) by (vm_compute; reflexivity).
    split; [by destruct (SFltb r (dadd (of_size 0) (dlit 5 100)))|discriminate].
Qed.
End theorems.

(** ** The barrier *)

Definition arrived (ps : list place) : nat := length (filter (λ p, p ≠ WarmingUp) ps).

Lemma arrived_insert ps i p q :
  ps !! i = Some p → q ≠ WarmingUp → arrived (<[i := q]> ps) = (arrived ps + if decide (p = WarmingUp) then 1 else 0)%nat.
Proof.
  unfold arrived. revert i. induction ps as [|x ps IH]; intros [|i] Hi Hq; cbn in Hi; simplify_eq.
  - cbn [insert list_insert]. rewrite filter_cons_True by done. case_decide as H.
    + rewrite filter_cons_False by (intros Hn; by apply Hn). cbn. lia.
    + rewrite filter_cons_True by done. cbn. lia.
  - change (<[S i := q]> (x :: ps)) with (x :: <[i := q]> ps).
    destruct (decide (x ≠ WarmingUp)); [rewrite !filter_cons_True by done; cbn; by rewrite (IH i Hi Hq)|].
    rewrite !filter_cons_False by done. by apply IH.
Qed.

Lemma arrived_le ps : (arrived ps ≤ length ps)%nat.
Proof. apply length_filter. Qed.

Lemma arrived_all ps : arrived ps = length ps → Forall (λ p, p ≠ WarmingUp) ps.
Proof.
  unfold arrived. induction ps as [|x ps IH]; intros H; [constructor|]. pose proof (arrived_le ps) as Hle. unfold arrived in Hle.
  destruct (decide (x ≠ WarmingUp)) as [Hx|Hx].
  - rewrite filter_cons_True in H by done. cbn in H. constructor; [done|]. apply IH. lia.
  - rewrite filter_cons_False in H by done. cbn in H. lia.
Qed.

Lemma arrived_missing ps : (arrived ps < length ps)%nat → ∃ i, ps !! i = Some WarmingUp.
Proof.
  unfold arrived. induction ps as [|x ps IH]; intros H; [cbn in H; lia|]. destruct (decide (x = WarmingUp)) as [->|Hx]; [by exists 0%nat|].
  rewrite filter_cons_True in H by done. cbn in H. destruct IH as [i Hi]; [lia|]. by exists (S i).
Qed.

Lemma arrived_cons p ps : arrived (p :: ps) = ((if decide (p = WarmingUp) then 0 else 1) + arrived ps)%nat.
Proof. unfold arrived. rewrite filter_cons. repeat case_decide; naive_solver. Qed.

Lemma arrived_notify ps : arrived (notify_all ps) = arrived ps.
Proof.
  induction ps as [|p ps IH]; [done|]. cbn [notify_all map]. fold (notify_all ps). rewrite !arrived_cons, IH. by destruct p.
Qed.

Lemma notify_all_lookup ps i p : notify_all ps !! i = Some p → p ≠ Waiting ∧ (p ≠ Woken → ps !! i = Some p).
Proof.
  unfold notify_all. rewrite list_lookup_fmap. destruct (ps !! i) as [q|]; [|done]. cbn. destruct q; intros [= <-]; by split.
Qed.

Record barrier_inv (total : nat) (b : Barrier) : Prop := mkBarrierInv {
  bi_clients : length (places b) = total;
  bi_counter : warmup_counter b = Z.of_nat (arrived (places b));
  bi_open : ∀ i, places b !! i = Some Measuring → warmup_counter b = Z.of_nat total;
  bi_woken : ∀ i, places b !! i = Some Waiting → warmup_counter b ≠ Z.of_nat total;
  bi_sleep : warmup_counter b = Z.of_nat total → (0 < total)%nat → rdma_sleep b = true
}.

Lemma barrier_inv_init total : barrier_inv total (barrier_init total).
Proof.
  assert (arrived (replicate total WarmingUp) = 0%nat) as H0.
  { unfold arrived. induction total as [|n IH]; [done|]. cbn [replicate]. rewrite filter_cons_False by (intros Hn; by apply Hn). exact IH. }
  split; cbn [places warmup_counter barrier_init].
  - apply length_replicate.
  - by rewrite H0.
  - intros i Hi. apply lookup_replicate_1 in Hi as [? _]. done.
  - intros i Hi. apply lookup_replicate_1 in Hi as [? _]. done.
  - lia.
Qed.

(** A client that has arrived moves on and the counter stays. *)
Lemma barrier_inv_move total b i p p' :
  barrier_inv total b → places b !! i = Some p → p ≠ WarmingUp → p' ≠ WarmingUp →
  (p' = Measuring → warmup_counter b = Z.of_nat total) → (p' = Waiting → warmup_counter b ≠ Z.of_nat total) →
  barrier_inv total (mkBarrier (warmup_counter b) (rdma_sleep b) (<[i := p']> (places b))).
Proof.
  intros [Hlen Hcnt Hopen Hwok Hsl] Hi Hp Hp' Hm Hw. pose proof (arrived_insert (places b) i p p' Hi Hp') as H1. rewrite decide_False in H1 by done.
  split; cbn [places warmup_counter rdma_sleep]; rewrite ?length_insert; try done; [lia|..];
    intros j Hj; apply list_lookup_insert_Some in Hj as [(_ & ? & _)|(_ & Hj)]; eauto.
Qed.

Lemma barrier_inv_arrive total b i : barrier_inv total b → places b !! i = Some WarmingUp → barrier_inv total (arrive (Z.of_nat total) i b).
Proof.
  intros [Hlen Hcnt Hopen Hwok Hsl] Hi.
  pose proof (arrived_insert (places b) i WarmingUp Measuring Hi ltac:(done)) as H1.
  pose proof (arrived_insert (places b) i WarmingUp Waiting Hi ltac:(done)) as H2. rewrite decide_True in H1, H2 by done.
  unfold arrive. cbv zeta. destruct (Z.eqb_spec (warmup_counter b + 1) (Z.of_nat total)) as [Ht|Ht];
    split; cbn [places warmup_counter rdma_sleep]; rewrite ?arrived_notify, ?length_map, ?length_insert; try done; try lia.
  - unfold notify_all. by rewrite length_map, length_insert.
  - by intros j [? _]%notify_all_lookup.
  - intros j Hj. apply list_lookup_insert_Some in Hj as [(_ & ? & _)|(_ & Hj)]; [done|]. specialize (Hopen j Hj).
    pose proof (arrived_le (<[i := Waiting]> (places b))) as Hle. rewrite length_insert in Hle. lia.
Qed.

Lemma barrier_inv_event total b b' : barrier_inv total b → barrier_event (Z.of_nat total) b b' → barrier_inv total b'.
Proof.
  intros Hinv He. destruct He as [b b1 Hs|b i Hi]; [destruct Hs as [b i Hi|b i Hi]|].
  - apply barrier_inv_arrive; assumption.
  - apply (barrier_inv_move _ _ _ _ _ Hinv Hi); [done|destruct (Z.eqb_spec (warmup_counter b) (Z.of_nat total)); done..].
  - by apply (barrier_inv_move _ _ _ _ _ Hinv Hi).
Qed.

Lemma barrier_inv_reachable total b : rtc (barrier_event (Z.of_nat total)) (barrier_init total) b → barrier_inv total b.
Proof.
  intros Hr. assert (∀ s s', rtc (barrier_event (Z.of_nat total)) s s' → barrier_inv total s → barrier_inv total s') as Hall.
  { induction 1; eauto using barrier_inv_event. }
  eapply Hall; [exact Hr|apply barrier_inv_init].
Qed.

(** How far the clients still are from measuring: every step of the program comes closer. *)
Definition remaining_of (total : nat) (p : place) : nat :=
  match p with WarmingUp => total + 3 | Woken => 2 | Waiting => 1 | Measuring => 0 end.
Definition remaining (total : nat) (ps : list place) : nat := sum_list_with (remaining_of total) ps.

Lemma remaining_insert total ps i p p' : ps !! i = Some p →
  (remaining total (<[i := p']> ps) + remaining_of total p = remaining total ps + remaining_of total p')%nat.
Proof.
  unfold remaining. revert i. induction ps as [|q ps IH]; intros i H; [done|]. destruct i as [|i]; [injection H as ->; cbn; lia|].
  specialize (IH i H). change (<[S i := p']> (q :: ps)) with (q :: <[i := p']> ps). cbn [sum_list_with]. lia.
Qed.
Lemma remaining_notify total ps : (remaining total (notify_all ps) ≤ remaining total ps + length ps)%nat.
Proof.
  unfold remaining. induction ps as [|p ps IH]; [cbn; lia|]. cbn [notify_all map]. fold (notify_all ps). cbn [sum_list_with length].
  destruct p; case_decide; cbn [remaining_of]; try done; lia.
Qed.
Lemma remaining_le total ps : (remaining total ps ≤ length ps * (total + 3))%nat.
Proof. unfold remaining. induction ps as [|p ps IH]; cbn; [lia|]. destruct p; cbn; lia. Qed.

Lemma barrier_step_closer total b b' :
  length (places b) = total → barrier_step (Z.of_nat total) b b' → (S (remaining total (places b')) ≤ remaining total (places b))%nat.
Proof.
  intros Hl Hs. destruct Hs as [b i Hi|b i Hi]; cbn [recheck places].
  - pose proof (remaining_insert total _ i WarmingUp Measuring Hi). pose proof (remaining_insert total _ i WarmingUp Waiting Hi).
    pose proof (remaining_notify total (<[i := Measuring]> (places b))) as Hn. rewrite length_insert in Hn. cbn [remaining_of] in *.
    unfold arrive. cbv zeta. destruct (_ =? _); cbn [places]; lia.
  - pose proof (remaining_insert total _ i Woken (if warmup_counter b =? Z.of_nat total then Measuring else Waiting) Hi) as H.
    destruct (_ =? _); cbn [remaining_of] in H; lia.
Qed.

Lemma barrier_steps_bound total n : ∀ b b',
  barrier_inv total b → nsteps (barrier_step (Z.of_nat total)) n b b' → (n ≤ remaining total (places b))%nat.
Proof.
  induction n as [|n IH]; intros b b' Hinv Hn; [lia|]. inversion Hn as [|? ? b1 ? Hs Hn']; subst.
  pose proof (barrier_step_closer total b b1 (bi_clients _ _ Hinv) Hs).
  pose proof (IH b1 b' (barrier_inv_event _ _ _ Hinv (event_step _ _ _ Hs)) Hn'). lia.
Qed.

(** C15: the barrier behind the warm-up.  Whatever the order in which the clients
    arrive and are scheduled, and with spurious wake-ups of the condition variable: no
    client starts its measured operations before every client has finished its warm-up,
    and the simulated delays are then on.  The barrier cannot hang: until all clients
    measure, some client can take a step of its own, without a spurious wake-up (a
    client that is blocked when the last one arrives has been notified), and from any
    state on, spurious wake-ups apart, the clients take at most [total * (total + 3)]
    steps, so that all of them end up measuring. *)
Theorem warmup_barrier total b :
  rtc (barrier_event (Z.of_nat total)) (barrier_init total) b →
  (∀ i, places b !! i = Some Measuring → Forall (λ p, p ≠ WarmingUp) (places b) ∧ rdma_sleep b = true) ∧
  (Forall (λ p, p = Measuring) (places b) ∨ ∃ b', barrier_step (Z.of_nat total) b b') ∧
  (∀ n b', nsteps (barrier_step (Z.of_nat total)) n b b' → (n ≤ total * (total + 3))%nat).
Proof.
  intros Hr. pose proof (barrier_inv_reachable total b Hr) as Hinv. pose proof Hinv as [Hlen Hcnt Hopen Hwok Hsl]. split; [|split].
  - intros i Hi. pose proof (Hopen i Hi) as Hc. pose proof (lookup_lt_Some _ _ _ Hi).
    split; [apply arrived_all; lia|apply Hsl; [done|lia]].
  - destruct (decide (arrived (places b) = total)) as [Ha|Ha].
    + destruct (decide (Forall (λ p, p = Measuring) (places b))) as [Hm|Hm]; [by left|right].
      apply not_Forall_Exists in Hm; [|apply _]. apply Exists_exists in Hm as (p & Hp & Hne).
      apply list_elem_of_In, list_elem_of_lookup in Hp as [i Hi].
      pose proof (arrived_all (places b) ltac:(lia)) as Hall. rewrite Forall_lookup in Hall. specialize (Hall i p Hi).
      destruct p; [by destruct Hall|destruct (Hwok i Hi); lia| |by destruct Hne]. eexists. apply (step_recheck _ b i Hi).
    + right. pose proof (arrived_le (places b)). destruct (arrived_missing (places b)) as [i Hi]; [lia|].
      eexists. by apply (step_arrive _ b i).
  - intros n b' Hn. pose proof (barrier_steps_bound total n b b' Hinv Hn). pose proof (remaining_le total (places b)). rewrite Hlen in *. lia.
Qed.

(** ** Concrete runs *)

(** A generator that counts. *)
Definition demo_int (lo hi g : Z) : Z * Z := (lo + g mod (hi - lo + 1), g + 1).
Definition demo_real (g : Z) : double * Z := (dlit 1 2, g + 1).
Definition demo_pow (x y : double) : double := x.
Lemma demo_int_range lo hi g : lo ≤ hi → lo ≤ (demo_int lo hi g).1 ≤ hi.
Proof. intros H. cbn. pose proof (Z.mod_pos_bound g (hi - lo + 1) ltac:(lia)). lia. Qed.

Lemma global_keys_distinct_witness :
  let keys := space_keys 8 6 in
  NoDup keys ∧ Forall (av_ok 8) keys ∧ rejected 8 (key_of_index 8 0) = true ∧
  4 ≤ Z.of_nat (length (filter (λ k, rejected 8 k = false) keys)) ≤ 5.
Proof. apply (global_keys_distinct 8 6); [lia|split; [reflexivity|discriminate]]. Defined.

(** The first draw is index 0, which is rejected, the second one index 1. *)
Lemma sample_key_returns_witness :
  sample_key_from_global_space demo_pow demo_real demo_int 8 20 (client_sampler demo_pow (mkDist Uniform 100 (dlit 99 100))) 100 0 =
    Done (key_of_index 8 1) 2 ∧ 0 ≤ 1 < 100.
Proof.
  apply (sample_key_returns demo_pow demo_real demo_int 8 demo_int_range (mkDist Uniform 100 (dlit 99 100)) 0 1 20);
    [reflexivity|reflexivity| |vm_compute; reflexivity|lia].
  intros [|m] Hm; [vm_compute; reflexivity|lia].
Defined.

Lemma sample_key_stuck_witness :
  rejected 8 (key_of_index 8 0) = true ∧
  ∀ fuel, ∃ g', sample_key_from_global_space demo_pow demo_real demo_int 8 fuel (client_sampler demo_pow (mkDist Skewed 1 (dlit 99 100))) 1 3 =
    Fault OutOfFuel g'.
Proof.
  destruct (sample_key_stuck demo_pow demo_real demo_int 8 demo_int_range (mkDist Skewed 1 (dlit 99 100)) 3) as [H1 H2].
  split; [exact H1|]. apply H2. reflexivity.
Defined.

(** Seven items: the sums and the formula are evaluated. *)
Lemma sampler_in_range_witness :
  match sample demo_pow demo_real demo_int (client_sampler demo_pow (mkDist Skewed 7 (dlit 99 100))) 5 with
  | Done idx _ => 0 ≤ idx < 7
  | Fault f _ => f = BadConversion ∧ Skewed = Skewed
  end.
Proof. apply (sampler_in_range demo_pow demo_real demo_int demo_int_range (mkDist Skewed 7 (dlit 99 100)) 5). reflexivity. Defined.

Lemma warmup_partition_witness :
  sum_list (map (λ i, warmup_per_client 1000 64 (Z.of_nat i)) (seq 0 64)) = 1000 ∧
  ∀ i, 1000 / 64 ≤ warmup_per_client 1000 64 i ≤ 1000 / 64 + 1.
Proof. apply (warmup_partition 1000 64); lia. Defined.

Lemma presets_never_delete_witness :
  pick (dlit 5 100, dlit 95 100, dlit 0 1) (dlit 97 100) ≠ Delete ∧
  ("read-intensive"%string = "write-only"%string → pick (dlit 5 100, dlit 95 100, dlit 0 1) (dlit 97 100) = Insert).
Proof.
  apply (presets_never_delete "read-intensive"%string); [|vm_compute; reflexivity].
  unfold presets. rewrite !elem_of_cons. right. right. left. reflexivity.
Defined.

Lemma warmup_barrier_witness :
  let b := mkBarrier 2 true [Woken; Measuring] in
  (∀ i, places b !! i = Some Measuring → Forall (λ p, p ≠ WarmingUp) (places b) ∧ rdma_sleep b = true) ∧
  (Forall (λ p, p = Measuring) (places b) ∨ ∃ b', barrier_step 2 b b') ∧
  (∀ n b', nsteps (barrier_step 2) n b b' → (n ≤ 10)%nat).
Proof.
  apply (warmup_barrier 2). eapply rtc_l; [apply event_step, (step_arrive _ _ 0%nat); reflexivity|].
  eapply rtc_l; [apply event_step, (step_arrive _ _ 1%nat); reflexivity|]. apply rtc_refl.
Defined.
