(* ===== verification/WorkloadClient.v ===== *)
(** * A client on the Sherman index

    The client of Workload.v working on the index of ShermanIndex.v: what it puts is
    what it gets.  The value generator never gives [Value::min()], which the index
    would report as absent. *)

From S2P Require Import Prelude GlobalAddress ArrayVar RdmaSim ThreadStats Queue MemoryServer Slab RdmaManager LocalLock KVBlock FaunusNode FaunusIndex FaunusTree FaunusRead FaunusFrame FaunusInsert ShermanNode ShermanIndex ShermanRead ShermanFrame ShermanInsert ShermanForest ShermanGrow ShermanUpsert Workload.

Section values.
Context {G : Type} (next_int : Z → Z → G → Z * G) (next_int_range : ∀ lo hi g, lo ≤ hi → lo ≤ (next_int lo hi g).1 ≤ hi).

Lemma draw_bytes_ok n : ∀ g, ∃ bs g', draw_bytes next_int n g = Done bs g' ∧ av_ok n bs.
Proof.
  induction n as [|n IH]; intros g; [by exists [], g|]. cbn [draw_bytes]. erewrite bind_done by reflexivity.
  destruct (IH (next_int 0 255 g).2) as (bs & g' & H & Hl & Hb). rewrite (bind_done _ _ _ _ _ H). eexists _, g'. split; [done|].
  split; [cbn; by rewrite Hl|]. constructor; [|done]. pose proof (next_int_range 0 255 g ltac:(lia)). unfold byte_ok, in_width. lia.
Qed.

(** The generated values are byte arrays other than [Value::min()]. *)
Lemma random_value_ok n fuel g v g' :
  generate_random_value next_int n fuel g = Done v g' → av_ok n v ∧ be_val v ≠ 0.
Proof.
  unfold generate_random_value. intros H. apply bind_inv in H as (r & g1 & Hl & Hr).
  assert (match r with inl _ => True | inr v => av_ok n v ∧ be_val v ≠ 0 end) as Hok.
  { eapply (loop_inv (λ _ _, True) (λ v _, av_ok n v ∧ be_val v ≠ 0)); [|exact I|exact Hl].
    intros [] g0 r0 g2 _ Hb. destruct (draw_bytes_ok n g0) as (bs & g3 & Hd & Hbs). rewrite (bind_done _ _ _ _ _ Hd) in Hb.
    injection Hb as <- _. assert (av_ok n (av_min n)) as Hmin.
    { split; [apply length_replicate|]. apply bytes_ok_replicate. unfold byte_ok, in_width. lia. }
    rewrite (av_eqb_val n), be_val_min by done. destruct (Z.eqb_spec (be_val bs) 0); [done|by split]. }
  destruct r; [done|]. by injection Hr as <- _.
Qed.
End values.

Section client_run.
Context {cfg : FaunusConfig} {scfg : ShermanConfig}.
Context {Q : Type → Type} `{!ConcurrentQueue Q}.
Context {C Ent : Type} `{!NodeCache C Ent (GlobalAddress * InternalPage)} `{!RangedCache C Ent (GlobalAddress * InternalPage)}.
Context {G : Type} (next_int : Z → Z → G → Z * G) (next_int_range : ∀ lo hi g, lo ≤ hi → lo ≤ (next_int lo hi g).1 ≤ hi).
Variables (fuel : positive) (spins depth : nat).
Abbreviation SW := (SWorld (Q := Q) (C := C)).

Definition sherman_kv : KVIndex SW :=
  mkKVIndex SW (insert (Ent := Ent) fuel spins depth) (read (Ent := Ent) fuel) (λ f, on_kv (stats_if f)).

Lemma record_run f (w : SW) : ∃ w', on_kv (stats_if f) w = Done tt w' ∧ smoved (scl w) (w_slabs (kv w)) w w'.
Proof. destruct (count_run f w) as (w' & H & Hq & Hc). exists w'. split; [done|]. by apply squiet_moved. Qed.

(** An operation that keeps [P] when only bookkeeping changes around it. *)
Lemma recorded_run kind op (c : Client (G := G) (X := SW)) ok (P0 P : SW → Prop) :
  (∀ w w', P0 w → smoved (scl w) (w_slabs (kv w)) w w' → P0 w') → (∀ w w', P w → smoved (scl w) (w_slabs (kv w)) w w' → P w') →
  P0 (c_index c) → (∀ w, P0 w → ∃ w', op w = Done ok w' ∧ P w') →
  ∃ c', recorded sherman_kv kind op c = Done ok c' ∧ P (c_index c') ∧ value_rng c' = value_rng c.
Proof.
  intros HP0 HP H0 Hop. unfold recorded, on_index, zoom. cbn [kv_record sherman_kv].
  destruct (record_run (begin_operation kind) (c_index c)) as (w1 & H1 & Hm1).
  destruct (Hop w1 (HP0 _ _ H0 Hm1)) as (w2 & H2 & Hp2).
  set (lat := hd 0 (latencies c)).
  destruct (record_run (end_operation lat ok) w2) as (w3 & H3 & Hm3). pose proof (HP _ _ Hp2 Hm3) as Hp3.
  destruct (record_run (record_result kind lat ok) w3) as (w4 & H4 & Hm4). pose proof (HP _ _ Hp3 Hm4) as Hp4.
  unfold mbind, M_bind. rewrite H1. cbn [c_index]. rewrite H2. cbn [c_index latency latencies]. fold lat. rewrite H3. cbn [c_index].
  rewrite H4. eexists. split; [reflexivity|]. by split.
Qed.

(** C9: what a client puts is what it gets: on an index of any height without cache
    and local locks that has free blocks, a put of a generated value and a get of the
    same key both return success, and the index then holds the generated value (which is
    never [Value::min()]).  What the two record in the statistics is the subject of
    Tally.v. *)
Theorem client_gets_what_it_puts (c : Client (G := G) (X := SW)) l t key v g' :
  sgrow_inv (c_index c) l t → sroom (c_index c) l → av_ok KEY_SIZE key → key ≠ av_max KEY_SIZE → (l < depth)%nat → (S l < Pos.to_nat fuel)%nat →
  generate_random_value next_int VALUE_SIZE fuel (value_rng c) = Done v g' →
  ∃ c', (value ← on_value_rng (generate_random_value next_int VALUE_SIZE fuel);
         put ← perform_put sherman_kv key value;
         got ← perform_get sherman_kv key; mret (put, got)) c = Done (true, true) c' ∧
    ∃ l' t', sgrow_inv (c_index c') l' t' ∧ scontents t' = <[be_val key := be_val v]> (scontents t).
Proof.
  intros Hinv Hroom [Hkl Hkb] Hmax Hdep Hfuel Hgen. destruct (random_value_ok next_int next_int_range _ _ _ _ _ Hgen) as [[Hvl Hvb] Hv0].
  pose proof (be_val_range key Hkb) as Hkr. pose proof (be_val_range v Hvb) as Hvr. rewrite Hkl in Hkr. rewrite Hvl in Hvr.
  assert (key_min ≤ be_val key < key_max) as Hk.
  { unfold key_min, key_max. assert (be_val key ≠ be_val (av_max KEY_SIZE)) as Hne'; [|rewrite be_val_max in Hne'; lia].
    intros He. apply Hmax, be_val_inj; [unfold av_max; by rewrite length_replicate|done| |done].
    apply bytes_ok_replicate. unfold byte_ok, in_width. lia. }
  set (c1 := mkClient (c_index c) (op_rng c) g' (latencies c) (summary c)).
  set (P0 := λ w : SW, sgrow_inv w l t ∧ sroom w l).
  set (P := λ w : SW, ∃ l' t', sgrow_inv w l' t' ∧ (l' ≤ S l)%nat ∧ scontents t' = <[be_val key := be_val v]> (scontents t)).
  assert (∀ w w', P w → smoved (scl w) (w_slabs (kv w)) w w' → P w') as HP.
  { intros w w' (l' & t' & Hi & Hc) Hm. exists l', t'. split; [|done]. by eapply sgrow_inv_same. }
  destruct (recorded_run Insert (kv_insert _ sherman_kv (be_val key) (be_val v)) c1 true P0 P) as (c2 & H2 & Hp2 & _); [|done|done| |].
  { intros w w' (Hi & Hs) Hm. split; [by eapply sgrow_inv_same|]. unfold sroom. by rewrite (smoved_slabs _ _ _ _ Hm). }
  { intros w (Hi & Hl & H0 & H1). cbn [kv_insert sherman_kv].
    destruct (sgrow_tree_run (Ent := Ent) fuel spins depth w l t (be_val key) (be_val v)) as (w' & l' & t' & H & Hrest); try done.
    exists w'. split; [done|]. by exists l', t'. }
  destruct (recorded_run Read (r ← kv_read _ sherman_kv (be_val key); mret (match r with Some _ => true | None => false end)) c2 true P P)
    as (c3 & H3 & Hp3 & _); [done|done|done| |].
  { intros w (l' & t' & Hi & Hl & Hc). cbn [kv_read sherman_kv]. pose proof (gi_inv _ _ _ Hi) as Hi0.
    destruct (sread_tree_run (Ent := Ent) fuel w l' t' (be_val key) (siv_index _ _ _ Hi0) Hk ltac:(lia)) as (w' & H & Hq & Hix & Hn).
    rewrite (bind_done _ _ _ _ _ H), Hc, lookup_insert_eq. cbn [visible]. unfold value_min. rewrite (proj2 (Z.eqb_neq _ _) Hv0).
    exists w'. split; [done|]. exists l', t'. split; [|done]. eapply sgrow_inv_same; [|exact Hi].
    pose proof (pl_cache _ (siv_plain _ _ _ Hi0)) as Hc0. apply squiet_moved; [done|]. by rewrite Hc0, Hn. }
  exists c3. split; [|destruct Hp3 as (l' & t' & Hi & _ & Hc); by exists l', t']. unfold on_value_rng, zoom. rewrite (bind_done _ _ c v c1) by (by rewrite Hgen).
  unfold perform_put. rewrite (bind_done _ _ _ _ _ H2). unfold perform_get. by rewrite (bind_done _ _ _ _ _ H3).
Qed.
End client_run.

Section demo.
#[local] Existing Instances demo_cfg small_cfg.

Lemma client_gets_what_it_puts_witness :
  ∃ w, splain_world = Some w ∧
  ∃ c', (value ← on_value_rng (generate_random_value demo_int VALUE_SIZE 20);
         put ← perform_put (sherman_kv 20 3 10) (be_bytes KEY_SIZE 80) value;
         got ← perform_get (sherman_kv 20 3 10) (be_bytes KEY_SIZE 80); mret (put, got)) (mkClient w 0 3 [] summary_init) =
        Done (true, true) c'.
Proof.
  destruct splain_inv as (w & t & Hw & Hinv & Hroom & _). exists w. split; [exact Hw|].
  destruct (client_gets_what_it_puts demo_int demo_int_range 20 3 10 (mkClient w 0 3 [] summary_init) 1 t (be_bytes KEY_SIZE 80)
    [3; 4; 5; 6; 7; 8; 9; 10] 11) as (c' & H & _);
    [exact Hinv|exact Hroom|split; [apply length_be_bytes|apply be_bytes_ok]|vm_compute; congruence|lia|lia|vm_compute; reflexivity|].
  exists c'. exact H.
Defined.
End demo.
