(* ===== verification/Config.v ===== *)
(** * The configuration

    The structures and [load_config] of config/config.hpp and the log levels of
    util/thread_logging.hpp.  The yaml-cpp library is an interface, the class [YAML]:
    what a subscript and the conversions give, or that they throw.  What is logged is
    kept as a list of notices. *)

From Stdlib Require Import SpecFloat Ascii.
From stdpp Require Import gmap strings.
From S2P Require Import Prelude Workload.
#[local] Open Scope Z_scope.

(** ** Strings *)

(** [std::tolower] of the C locale. *)
Definition tolower (c : ascii) : ascii :=
  let n := nat_of_ascii c in
  if ((65 <=? n) && (n <=? 90))%nat then ascii_of_nat (n + 32) else c.
Fixpoint to_lower (s : string) : string :=
  match s with
  | EmptyString => EmptyString
  | String c s' => String (tolower c) (to_lower s')
  end.

(** ** Log levels *)

Inductive LogLevel := LOG_ERROR | LOG_WARN | LOG_INFO | LOG_DEBUG.
#[global] Instance LogLevel_eq_dec : EqDecision LogLevel.
Proof. solve_decision. Defined.

Definition level_to_string (level : LogLevel) : string :=
  match level with LOG_ERROR => "ERR" | LOG_WARN => "WRN" | LOG_INFO => "INF" | LOG_DEBUG => "DBG" end.
(** [None] is the exception [std::invalid_argument]. *)
Definition log_level_from_string (level_str : string) : option LogLevel :=
  if String.eqb level_str "ERROR" then Some LOG_ERROR
  else if String.eqb level_str "WARN" || String.eqb level_str "WARNING" then Some LOG_WARN
  else if String.eqb level_str "INFO" then Some LOG_INFO
  else if String.eqb level_str "DEBUG" then Some LOG_DEBUG
  else None.

(** ** The structures *)

Definition parse_type (raw : string) : Distribution :=
  let lower := to_lower raw in
  if String.eqb lower "uniform" then Uniform
  else if String.eqb lower "skewed" then Skewed
  else Uniform.
Definition dist_to_string (type : Distribution) : string :=
  match type with Uniform => "uniform" | Skewed => "skewed" end.

Definition default_distribution : DistributionConfig := mkDist Uniform 1000000 (dlit 99 100).

Inductive IndexType := Faunus | Sherman.
#[global] Instance IndexType_eq_dec : EqDecision IndexType.
Proof. solve_decision. Defined.

Record IndexConfig := mkConfig {
  num_cs : Z; threads_per_cs : Z; num_ms : Z; mem_per_ms : Z; base_rtt_ns : Z;
  key_size : Z; value_size : Z; kv_per_thread : Z; initial_slabs_per_size : Z;
  log_level : LogLevel;
  cpu_binding_enabled : bool; cpu_binding_start_core : Z; cpu_isolation_required : bool;
  maintenance_cs : Z; threads_per_maintenance_cs : Z;
  total_ops : Z; ops_per_client : Z; warmup_inserts : Z;
  operation_mix : double * double * double;
  workload : string;
  index_type : IndexType; index : string;
  distribution : DistributionConfig;
  use_cache : bool; max_cs_cache_size_kb : Z; max_mcs_cache_size_kb : Z
}.

Definition default_config : IndexConfig :=
  mkConfig 8 8 8 (512 * 1024) 3000 8 8 1000 1024 LOG_INFO false 0 false 0 0 50000 0 1000
    (dlit 5 10, dlit 5 10, dlit 0 1) "" Faunus "faunus" default_distribution true 1024 1024.

(** ** yaml-cpp *)

(** [subscript node key] is [node[key]]: the inner option is whether the node is
    defined.  [None] of every operation is an exception. *)
Class YAML (Node : Type) := {
  LoadFile : string → option Node;
  subscript : Node → string → option (option Node);
  as_size : Node → option Z;
  as_bool : Node → option bool;
  as_string : Node → option string;
  as_double : Node → option double;
  as_mix : Node → option (gmap string double);
  as_size_range : ∀ n v, as_size n = Some v → in_width 64 v
}.

(** ** load_config *)

(** What is logged on the way. *)
Inductive notice :=
  | UnknownPreset (workload : string)
  | KeySpaceExpanded (minimum_space : Z)
  | BindingEnabled (start_core : Z).

Section load.
Context `{YAML Node}.
Abbreviation L := (M (list notice)).

Definition throws {A} (o : option A) : L A := match o with Some a => mret a | None => raise Thrown end.
Definition note (n : notice) : L unit := modify (λ l, l ++ [n]).
Definition defined (node : Node) (name : string) : L (option Node) := throws (subscript node name).
(** [if (node[name]) cfg.x = conv(node[name])], where [cfg.x] was [def]. *)
Definition field {A} (node : Node) (name : string) (conv : Node → option A) (def : A) : L A :=
  r ← defined node name; match r with None => mret def | Some n => throws (conv n) end.

Definition load_log_level (n : Node) : option LogLevel := s ← as_string n; log_level_from_string s.

Definition load_workload (node : Node) (def : string) : L string :=
  r ← defined node "workload";
  match r with Some n => throws (as_string n) | None => field node "preset" as_string def end.

Definition load_index (node : Node) (def : IndexType * string) : L (IndexType * string) :=
  r ← defined node "index";
  match r with
  | None => mret def
  | Some n =>
      raw ← throws (as_string n);
      let raw := to_lower raw in
      mret (if String.eqb raw "sherman" then Sherman else Faunus, raw)
  end.

Definition apply_preset (workload : string) (mix : double * double * double) : L (double * double * double) :=
  if String.eqb workload "" then mret mix
  else match list_find (λ p, p.1 = to_lower workload) presets with
       | Some (_, p) => mret p.2
       | None => _ ← note (UnknownPreset workload); mret mix
       end.

(** The switch and the sizes of the caches of the compute and maintenance servers. *)
Definition load_cache (node : Node) (enabled : bool) (cs mcs : Z) : L (bool * Z * Z) :=
  r ← defined node "cache";
  match r with
  | None => mret (enabled, cs, mcs)
  | Some cache_node =>
      enabled ← field cache_node "enabled" as_bool enabled;
      both ← field cache_node "max_size_kb" (λ n, Some <$> as_size n) None;
      let '(cs, mcs) := match both with Some v => (v, v) | None => (cs, mcs) end in
      mcs ← field cache_node "max_mcs_size_kb" as_size mcs;
      mret (enabled, cs, mcs)
  end.

Definition normalize_mix (mix : double * double * double) : double * double * double :=
  let '(i, r, d) := mix in
  let total := dadd (dadd i r) d in
  if SFleb total (of_size 0) then (of_size 1, of_size 0, of_size 0)
  else (ddiv i total, ddiv r total, ddiv d total).

Definition load_mix (node : Node) (mix : double * double * double) : L (double * double * double) :=
  r ← defined node "operation_mix";
  match r with
  | None => mret mix
  | Some n =>
      m ← throws (as_mix n);
      let '(i, r, d) := mix in
      let get_ratio key def := default def (m !! key) in
      mret (normalize_mix (get_ratio "insert" i, get_ratio "read" r, get_ratio "delete" d))
  end.

Definition load_distribution (node : Node) (d : DistributionConfig) : L DistributionConfig :=
  r ← defined node "distribution";
  match r with
  | None => mret d
  | Some dist_node =>
      t ← field dist_node "type" (λ n, parse_type <$> as_string n) (dist_type d);
      ks ← field dist_node "key_space" as_size (key_space d);
      z ← field dist_node "zipf" as_double (zipf d);
      mret (mkDist t ks z)
  end.

Definition kEpsilon : double := dlit 1 1000000.
Definition clamp_zipf (z : double) : double :=
  let z := if SFleb z (of_size 0) then dlit 5 10 else z in
  if SFleb (of_size 1) z then dsub (of_size 1) kEpsilon else z.
Definition clamp_distribution (d : DistributionConfig) : DistributionConfig :=
  match dist_type d with
  | Skewed => mkDist Skewed (key_space d) (clamp_zipf (zipf d))
  | Uniform => d
  end.

Definition expand_key_space (minimum_space : Z) (d : DistributionConfig) : L DistributionConfig :=
  if key_space d <? minimum_space
  then _ ← note (KeySpaceExpanded minimum_space); mret (mkDist (dist_type d) minimum_space (zipf d))
  else mret d.

Definition load_config (yaml_path : string) : L IndexConfig :=
  let cfg := default_config in
  node ← throws (LoadFile yaml_path);
  num_cs ← field node "num_cs" as_size (num_cs cfg);
  threads_per_cs ← field node "threads_per_cs" as_size (threads_per_cs cfg);
  num_ms ← field node "num_ms" as_size (num_ms cfg);
  mem_per_ms ← field node "mem_per_ms" as_size (mem_per_ms cfg);
  base_rtt_ns ← field node "base_rtt_ns" as_size (base_rtt_ns cfg);
  key_size ← field node "key_size" as_size (key_size cfg);
  value_size ← field node "value_size" as_size (value_size cfg);
  kv_per_thread ← field node "kv_per_thread" as_size (kv_per_thread cfg);
  initial_slabs_per_size ← field node "initial_slabs_per_size" as_size (initial_slabs_per_size cfg);
  log_level ← field node "log_level" load_log_level (log_level cfg);
  cpu_binding_enabled ← field node "cpu_binding_enabled" as_bool (cpu_binding_enabled cfg);
  cpu_binding_start_core ← field node "cpu_binding_start_core" as_size (cpu_binding_start_core cfg);
  cpu_isolation_required ← field node "cpu_isolation_required" as_bool (cpu_isolation_required cfg);
  maintenance_cs ← field node "maintenance_cs" as_size (maintenance_cs cfg);
  threads_per_maintenance_cs ← field node "threads_per_maintenance_cs" as_size (threads_per_maintenance_cs cfg);
  total_ops ← field node "total_ops" as_size (total_ops cfg);
  ops_per_client ← field node "ops_per_client" as_size (ops_per_client cfg);
  warmup_inserts ← field node "warmup_inserts" as_size (warmup_inserts cfg);
  workload ← load_workload node (workload cfg);
  '(index_type, index) ← load_index node (index_type cfg, index cfg);
  mix ← apply_preset workload (operation_mix cfg);
  '(use_cache, cs_kb, mcs_kb) ← load_cache node (use_cache cfg) (max_cs_cache_size_kb cfg) (max_mcs_cache_size_kb cfg);
  mix ← load_mix node mix;
  dist ← load_distribution node (distribution cfg);
  dist ← expand_key_space (u64 (warmup_inserts + ops_per_client)) (clamp_distribution dist);
  _ ← (if cpu_binding_enabled : bool then note (BindingEnabled cpu_binding_start_core) else mret tt);
  mret (mkConfig num_cs threads_per_cs num_ms mem_per_ms base_rtt_ns key_size value_size kv_per_thread
          initial_slabs_per_size log_level cpu_binding_enabled cpu_binding_start_core cpu_isolation_required
          maintenance_cs threads_per_maintenance_cs total_ops ops_per_client warmup_inserts mix workload
          index_type index dist use_cache cs_kb mcs_kb).
End load.

(** ** The clamp of the skew *)

Definition is_nan (x : double) : bool := match x with S754_nan => true | _ => false end.

Lemma SFcompare_flip x y : SFcompare y x = CompOpp <$> SFcompare x y.
Proof.
  destruct x as [sx|sx| |sx mx ex], y as [sy|sy| |sy my ey]; cbn [SFcompare]; try (by repeat case_match); try done.
  assert (Hm : Pos.compare_cont Eq my mx = CompOpp (Pos.compare_cont Eq mx my)) by apply (Pos.compare_antisym mx my).
  assert (He : Z.compare ey ex = CompOpp (Z.compare ex ey)) by apply Z.compare_antisym.
  destruct sx, sy; try done; cbn; rewrite ?He, ?Hm; destruct (Z.compare ex ey); cbn; by rewrite ?CompOpp_involutive.
Qed.

Lemma SFcompare_total x y : is_nan x = false → is_nan y = false → SFcompare x y ≠ None.
Proof. destruct x, y; cbn; intros ? ?; try done; repeat case_match; done. Qed.

(** For numbers, [!(x <= y)] is [y < x]. *)
Lemma not_SFleb x y : is_nan x = false → is_nan y = false → SFleb x y = false → SFltb y x = true.
Proof.
  intros Hx Hy. unfold SFleb, SFltb. rewrite (SFcompare_flip x y). pose proof (SFcompare_total x y Hx Hy).
  destruct (SFcompare x y) as [[]|]; done.
Qed.

Lemma clamp_zipf_in z : is_nan z = false →
  SFltb (of_size 0) (clamp_zipf z) = true ∧ SFltb (clamp_zipf z) (of_size 1) = true.
Proof.
  intros Hz. unfold clamp_zipf. destruct (SFleb z (of_size 0)) eqn:E0; cbn zeta.
  - split; vm_compute; reflexivity.
  - destruct (SFleb (of_size 1) z) eqn:E1; [split; vm_compute; reflexivity|].
    split; apply not_SFleb; try done.
Qed.

(** ** What a loaded configuration satisfies *)

(** The ratios are those of a preset, the default ones, or the result of [normalize_mix]. *)
Definition mix_ok (workload : string) (mix : double * double * double) : Prop :=
  mix = operation_mix default_config ∨ (to_lower workload, mix) ∈ presets ∨ ∃ given, mix = normalize_mix given.

Record config_ok (cfg : IndexConfig) : Prop := {
  co_sizes : Forall (in_width 64) [num_cs cfg; threads_per_cs cfg; num_ms cfg; mem_per_ms cfg; base_rtt_ns cfg;
    key_size cfg; value_size cfg; kv_per_thread cfg; initial_slabs_per_size cfg; cpu_binding_start_core cfg;
    maintenance_cs cfg; threads_per_maintenance_cs cfg; total_ops cfg; ops_per_client cfg; warmup_inserts cfg;
    max_cs_cache_size_kb cfg; max_mcs_cache_size_kb cfg; key_space (distribution cfg)];
  co_space : u64 (warmup_inserts cfg + ops_per_client cfg) ≤ key_space (distribution cfg);
  co_zipf : dist_type (distribution cfg) = Skewed → is_nan (zipf (distribution cfg)) = false →
    SFltb (of_size 0) (zipf (distribution cfg)) = true ∧ SFltb (zipf (distribution cfg)) (of_size 1) = true;
  co_index : index_type cfg = Sherman ↔ index cfg = "sherman"%string;
  co_mix : mix_ok (workload cfg) (operation_mix cfg)
}.

Section theorems.
Context `{YAML Node}.

Lemma throws_inv {A} (o : option A) w a w' : throws o w = Done a w' → o = Some a ∧ w' = w.
Proof. destruct o; cbn; [|done]. by intros [= -> ->]. Qed.

Lemma mret_inv {A} (a b : A) (w w' : list notice) : (mret a : M (list notice) A) w = Done b w' → a = b ∧ w = w'.
Proof. by intros [= -> ->]. Qed.

Lemma field_inv {A} (P : A → Prop) (node : Node) name conv def w v w' :
  P def → (∀ n v, conv n = Some v → P v) → field node name conv def w = Done v w' → P v.
Proof.
  intros Hd Hc (r & w1 & [Hr ->]%throws_inv & Hk)%bind_inv. destruct r as [n|]; [|by injection Hk as <- _].
  apply throws_inv in Hk as [Hk _]. by eapply Hc.
Qed.

Lemma load_index_inv (node : Node) def w r w' :
  (def.1 = Sherman ↔ def.2 = "sherman"%string) → load_index node def w = Done r w' → (r.1 = Sherman ↔ r.2 = "sherman"%string).
Proof.
  intros Hd (o & w1 & _ & Hk)%bind_inv. destruct o as [n|]; [|by injection Hk as <- _].
  apply bind_inv in Hk as (raw & w2 & _ & Hk). injection Hk as <- _. cbn.
  by destruct (String.eqb_spec (to_lower raw) "sherman").
Qed.

Lemma apply_preset_inv wl mix w r w' :
  apply_preset wl mix w = Done r w' → r = mix ∨ (to_lower wl, r) ∈ presets.
Proof.
  unfold apply_preset. destruct (String.eqb wl ""); [intros [= <- _]; by left|].
  destruct (list_find _ presets) as [[i [name m]]|] eqn:E; [|intros [= <- _]; by left].
  intros [= <- _]. right. apply list_find_Some in E as (Hl & Heq & _). cbn in Heq. subst name.
  by apply list_elem_of_lookup_2 in Hl.
Qed.

Lemma load_cache_inv (node : Node) e cs mcs w r w' :
  in_width 64 cs → in_width 64 mcs → load_cache node e cs mcs w = Done r w' → in_width 64 r.1.2 ∧ in_width 64 r.2.
Proof.
  intros Hcs Hmcs (o & w1 & _ & Hk)%bind_inv. destruct o as [n|]; [|by injection Hk as <- _].
  apply bind_inv in Hk as (e' & w2 & _ & Hk). apply bind_inv in Hk as (both & w3 & Hb & Hk).
  assert (Hboth : ∀ v, both = Some v → in_width 64 v).
  { revert Hb. apply (field_inv (λ o, ∀ v, o = Some v → in_width 64 v)); [done|].
    intros n0 o. destruct (as_size n0) eqn:E; cbn; [|done]. intros [= <-] v [= <-]. by eapply as_size_range. }
  assert (∃ cs' mcs', (match both with Some v => (v, v) | None => (cs, mcs) end) = (cs', mcs') ∧ in_width 64 cs' ∧ in_width 64 mcs')
    as (cs' & mcs' & E & H1 & H2) by (destruct both as [v|]; [exists v, v|exists cs, mcs]; auto).
  rewrite E in Hk. apply bind_inv in Hk as (m & w4 & Hm & Hk). injection Hk as <- _. split; [done|].
  apply (field_inv (in_width 64)) in Hm; [done|done|]. intros ? ? ?. by eapply as_size_range.
Qed.

Lemma load_mix_inv (node : Node) mix w r w' : load_mix node mix w = Done r w' → r = mix ∨ ∃ given, r = normalize_mix given.
Proof.
  intros (o & w1 & _ & Hk)%bind_inv. destruct o as [n|]; [|injection Hk as <- _; by left].
  apply bind_inv in Hk as (m & w2 & _ & Hk). destruct mix as [[i r'] d]. right.
  apply mret_inv in Hk as [<- _]. eexists. reflexivity.
Qed.

Lemma load_distribution_inv (node : Node) d w r w' :
  in_width 64 (key_space d) → load_distribution node d w = Done r w' → in_width 64 (key_space r).
Proof.
  intros Hd (o & w1 & _ & Hk)%bind_inv. destruct o as [n|]; [|by injection Hk as <- _].
  apply bind_inv in Hk as (t & w2 & _ & Hk). apply bind_inv in Hk as (ks & w3 & Hks & Hk).
  apply bind_inv in Hk as (z & w4 & _ & Hk). injection Hk as <- _. cbn.
  apply (field_inv (in_width 64)) in Hks; [done|done|]. intros ? ? ?. by eapply as_size_range.
Qed.

(** The clamp and the minimum applied to a distribution. *)
Definition dist_ok (minimum_space : Z) (d : DistributionConfig) : Prop :=
  in_width 64 (key_space d) ∧ minimum_space ≤ key_space d ∧
  (dist_type d = Skewed → is_nan (zipf d) = false → SFltb (of_size 0) (zipf d) = true ∧ SFltb (zipf d) (of_size 1) = true).

Lemma clamped_zipf_nan z : is_nan (clamp_zipf z) = false → is_nan z = false.
Proof. by destruct z. Qed.

Lemma expand_key_space_inv m d w r w' :
  in_width 64 m → in_width 64 (key_space d) → expand_key_space m (clamp_distribution d) w = Done r w' → dist_ok m r.
Proof.
  intros Hm Hd He.
  assert (Hz : ∀ ks, let d' := clamp_distribution d in dist_type (mkDist (dist_type d') ks (zipf d')) = Skewed →
    is_nan (zipf d') = false → SFltb (of_size 0) (zipf d') = true ∧ SFltb (zipf d') (of_size 1) = true).
  { intros ks d'. subst d'. unfold clamp_distribution. destruct (dist_type d) eqn:Ed; cbn [dist_type zipf].
    - rewrite Ed. discriminate.
    - intros _ Hn. apply clamp_zipf_in. by apply clamped_zipf_nan. }
  assert (Hks : key_space (clamp_distribution d) = key_space d) by (unfold clamp_distribution; by destruct (dist_type d)).
  unfold expand_key_space in He. rewrite Hks in He. destruct (Z.ltb_spec (key_space d) m) as [Hlt|Hge]; injection He as <- _.
  - split_and!; [done|cbn; lia|apply (Hz m)].
  - split_and!; [by rewrite Hks|by rewrite Hks|apply (Hz 0)].
Qed.

(** Go through the fields of [load_config], keeping that the numbers are of 64 bits. *)
Ltac load_fields Hk :=
  repeat match type of Hk with
  | (field _ _ as_size _ ≫= _) _ = _ =>
      let v := fresh "v" in let w := fresh "w" in let Hv := fresh "Hv" in
      apply bind_inv in Hk as (v & w & Hv & Hk);
      apply (field_inv (in_width 64)) in Hv; [|vm_compute; split; congruence|intros ? ? ?; by eapply as_size_range]
  | (field _ _ _ _ ≫= _) _ = _ =>
      let v := fresh "x" in let w := fresh "w" in apply bind_inv in Hk as (v & w & _ & Hk)
  | (throws _ ≫= _) _ = _ =>
      let v := fresh "node" in let w := fresh "w" in apply bind_inv in Hk as (v & w & _ & Hk)
  end.

(** C35: a configuration that loads is sane: every number fits 64 bits, the key space
    is at least the (wrapped) number of inserts of a client, the skew of a skewed
    distribution lies strictly between 0 and 1 unless the file gives a NaN, the index type is Sherman exactly for
    the name "sherman", and the operation mix is the default one, the preset that the
    workload names, or normalised. *)
Theorem load_config_sane path w cfg w' : load_config path w = Done cfg w' → config_ok cfg.
Proof.
  intros Hk. unfold load_config in Hk. cbv zeta in Hk. load_fields Hk.
  apply bind_inv in Hk as (wl & ? & _ & Hk). apply bind_inv in Hk as ([it ix] & ? & Hi & Hk).
  apply load_index_inv in Hi; [|done].
  apply bind_inv in Hk as (mix & ? & Hm%apply_preset_inv & Hk).
  apply bind_inv in Hk as ([[uc cs] mcs] & ? & Hc & Hk).
  apply load_cache_inv in Hc as [Hcs Hmcs]; [|vm_compute; split; congruence|vm_compute; split; congruence].
  apply bind_inv in Hk as (mix' & ? & Hm'%load_mix_inv & Hk).
  apply bind_inv in Hk as (d & ? & Hd & Hk). apply load_distribution_inv in Hd; [|vm_compute; split; congruence].
  apply bind_inv in Hk as (d' & ? & Hd' & Hk).
  apply expand_key_space_inv in Hd' as (Hks & Hmin & Hzipf); [|apply wrap_in_width; lia|done].
  apply bind_inv in Hk as ([] & ? & _ & Hk). injection Hk as <- _.
  split; cbn [num_cs threads_per_cs num_ms mem_per_ms base_rtt_ns key_size value_size kv_per_thread
    initial_slabs_per_size cpu_binding_start_core maintenance_cs threads_per_maintenance_cs total_ops ops_per_client
    warmup_inserts max_cs_cache_size_kb max_mcs_cache_size_kb distribution index_type index workload operation_mix]; try done.
  - repeat first [apply List.Forall_nil|apply List.Forall_cons]; done.
  - destruct Hm' as [->|?]; [|by right; right]. destruct Hm as [->|?]; [by left|by right; left].
Qed.
End theorems.

(** ** A concrete document *)

Inductive demo_node :=
  | DSize (v : Z) | DBool (v : bool) | DString (s : string) | DDouble (x : double)
  | DMap (l : list (string * demo_node)).

Definition demo_as_size (n : demo_node) : option Z :=
  match n with DSize v => if bool_decide (in_width 64 v) then Some v else None | _ => None end.
Lemma demo_size_range n v : demo_as_size n = Some v → in_width 64 v.
Proof. destruct n; cbn; try done. case_bool_decide; [|done]. by intros [= <-]. Qed.
Definition demo_mix (l : list (string * demo_node)) : gmap string double :=
  list_to_map (omap (λ e, match e.2 with DDouble x => Some (e.1, x) | _ => None end) l).

Definition demo_yaml (doc : demo_node) : YAML demo_node := {|
  LoadFile := λ path, if String.eqb path "run.yaml" then Some doc else None;
  subscript := λ n key, match n with
    | DMap l => Some (snd ∘ snd <$> list_find (λ e, e.1 = key) l)
    | _ => None
    end;
  as_size := demo_as_size;
  as_bool := λ n, match n with DBool b => Some b | _ => None end;
  as_string := λ n, match n with DString s => Some s | _ => None end;
  as_double := λ n, match n with DDouble x => Some x | _ => None end;
  as_mix := λ n, match n with DMap l => Some (demo_mix l) | _ => None end;
  as_size_range := demo_size_range
|}.

Definition demo_doc : demo_node := DMap
  [ ("num_cs", DSize 2); ("index", DString "Sherman"); ("workload", DString "Read-Intensive");
    ("ops_per_client", DSize 5000); ("log_level", DString "DEBUG");
    ("cache", DMap [("max_size_kb", DSize 64); ("max_mcs_size_kb", DSize 32)]);
    ("distribution", DMap [("type", DString "SKEWED"); ("key_space", DSize 100); ("zipf", DDouble (dlit 3 2))]) ]%string.

(** The key space is raised to the 6000 inserts of a client and the skew below 1. *)
Definition demo_config : IndexConfig :=
  mkConfig 2 8 8 (512 * 1024) 3000 8 8 1000 1024 LOG_DEBUG false 0 false 0 0 50000 5000 1000
    (dlit 5 100, dlit 95 100, dlit 0 1) "Read-Intensive" Sherman "sherman"
    (mkDist Skewed 6000 (dsub (of_size 1) kEpsilon)) true 64 32.

Lemma demo_loads :
  load_config (H := demo_yaml demo_doc) "run.yaml" [] = Done demo_config [KeySpaceExpanded 6000].
Proof. vm_compute. reflexivity. Qed.

Lemma load_config_sane_witness : config_ok demo_config.
Proof. apply (load_config_sane (H := demo_yaml demo_doc) "run.yaml" [] demo_config [KeySpaceExpanded 6000]). exact demo_loads. Defined.

(** A skew that is not a number is not clamped: a document can make [load_config]
    return a skewed distribution whose skew is NaN, so the bounds that the clamp is
    meant to give do not hold for every document. *)
Theorem nan_skew_not_clamped :
  let doc := DMap [("distribution", DMap [("type", DString "skewed"); ("zipf", DDouble S754_nan)])]%string in
  ∃ cfg, load_config (H := demo_yaml doc) "run.yaml" [] = Done cfg [] ∧
    dist_type (distribution cfg) = Skewed ∧ zipf (distribution cfg) = S754_nan.
Proof. eexists. split; [vm_compute; reflexivity|done]. Qed.

(** Errors: a file that cannot be opened, an entry that does not convert and an
    unknown log level throw. *)
Example load_config_errors :
  load_config (H := demo_yaml (DMap [])) "no.yaml" [] = Fault Thrown [] ∧
  load_config (H := demo_yaml (DMap [("num_cs"%string, DString "many")])) "run.yaml" [] = Fault Thrown [] ∧
  load_config (H := demo_yaml (DMap [("log_level"%string, DString "debug")])) "run.yaml" [] = Fault Thrown [] ∧
  load_config (H := demo_yaml (DSize 3)) "run.yaml" [] = Fault Thrown [].
Proof. split_and!; vm_compute; reflexivity. Qed.

Example parse_type_to_string t : parse_type (dist_to_string t) = t.
Proof. by destruct t. Qed.
