(* ===== verification/Servers.v ===== *)
(** * Compute servers and the cores they run on

    [CPUAffinity] of util/cpu_affinity.cpp, [ComputeServer] of rdma/compute_server.cpp
    and, from apps/kv_test.cpp, the check of the requested cores and their assignment
    to the servers.  The Linux calls are an interface, the class [Kernel]. *)

From stdpp Require Import gmap strings pretty.
From S2P Require Import Prelude ThreadStats Config.
#[local] Open Scope Z_scope.

(** ** CPUAffinity *)

(** What the calls of the kernel give to the calling thread, whose affinity mask is the
    state.  [sched_setaffinity mask] fails where it returns [None]; [isolated] is the
    first line of /sys/devices/system/cpu/isolated where the file opens. *)
Class Kernel := {
  get_nprocs : Z;
  sched_setaffinity : gset Z → option (gset Z);
  isolated : option string
}.

(** As documented in sched_setaffinity(2): the call fails when the mask has no core that is
    online, and the thread is then allowed on the cores of the mask that are. *)
Record kernel_ok (K : Kernel) (online : gset Z) : Prop := {
  ko_set : ∀ mask, sched_setaffinity mask = if decide (mask ∩ online = ∅) then None else Some (mask ∩ online);
  ko_online : ∀ c, c ∈ online → 0 ≤ c < get_nprocs
}.

Definition MAX_CPUS : Z := 1024.

Section affinity.
Context {K : Kernel}.

Definition get_cpu_count : Z := get_nprocs.

(** [CPU_SET] ignores a core outside of the 1024 bits of the mask. *)
Definition CPU_SET (core_id : Z) (mask : gset Z) : gset Z :=
  if core_id <? MAX_CPUS then {[ core_id ]} ∪ mask else mask.

Definition bind_to_core (core_id : Z) : M (gset Z) bool := λ current,
  match sched_setaffinity (CPU_SET core_id ∅) with
  | None => Done false current
  | Some mask => Done true mask
  end.

Fixpoint prefix_of (p s : string) : bool :=
  match p, s with
  | EmptyString, _ => true
  | String a p', String b s' => Ascii.eqb a b && prefix_of p' s'
  | String _ _, EmptyString => false
  end.
(** [s.find(p) != npos] *)
Fixpoint contains (p s : string) : bool :=
  prefix_of p s || match s with EmptyString => false | String _ s' => contains p s' end.

Definition is_core_busy (core_id : Z) : bool :=
  match isolated with
  | Some isolated_cores => if contains (pretty core_id) isolated_cores then false else false
  | None => false
  end.

(** Whether the core looks isolated is only logged. *)
Definition bind_to_core_exclusive (core_id : Z) : M (gset Z) bool :=
  ok ← bind_to_core core_id;
  if ok : bool then mret (if is_core_busy core_id then true else true) else mret false.

Definition get_current_affinity (current : gset Z) : list Z :=
  filter (λ i, i ∈ current) (seqZ 0 MAX_CPUS).

Definition is_supported : bool := true.

Fixpoint validate_cores (core_ids : list Z) : bool :=
  match core_ids with
  | [] => true
  | core_id :: rest => if get_cpu_count <=? core_id then false else validate_cores rest
  end.

Fixpoint check_core_isolation (core_ids : list Z) : bool :=
  match core_ids with
  | [] => true
  | core_id :: rest => if is_core_busy core_id then false else check_core_isolation rest
  end.

(** Numbers separated by commas. *)
Fixpoint comma_list (cores : list Z) : string :=
  match cores with
  | [] => ""
  | [c] => pretty c
  | c :: rest => (pretty c +:+ "," +:+ comma_list rest)%string
  end.

Definition describe_current_affinity (current : gset Z) : string :=
  match get_current_affinity current with
  | [] => "unknown/error"
  | [c] => ("core " +:+ pretty c)%string
  | cores => ("cores [" +:+ comma_list cores +:+ "]")%string
  end.

(** The advice that is logged when cores are not isolated. *)
Definition newline : string := String (Ascii.ascii_of_nat 10) "".
Definition core_range (required_cores : Z) : string := comma_list (seqZ 0 required_cores).
Definition get_isolation_recommendations (required_cores : Z) : string :=
  let nl := newline in
  ("CPU Isolation Recommendations for " +:+ pretty required_cores +:+ " cores:" +:+ nl +:+
   "==========================================" +:+ nl +:+
   "1. Kernel boot parameters (add to GRUB_CMDLINE_LINUX in /etc/default/grub):" +:+ nl +:+
   "   isolcpus=" +:+ core_range required_cores +:+ nl +:+
   "   nohz_full=" +:+ core_range required_cores +:+ nl +:+
   "   rcu_nocbs=" +:+ core_range required_cores +:+ nl +:+ nl +:+
   "2. After adding parameters, run:" +:+ nl +:+
   "   sudo update-grub && sudo reboot" +:+ nl +:+ nl +:+
   "3. Verify isolation after reboot:" +:+ nl +:+
   "   cat /proc/cmdline | grep isolcpus" +:+ nl +:+
   "   cat /sys/devices/system/cpu/isolated" +:+ nl +:+ nl +:+
   "4. Alternative: Use cgroups to limit other processes:" +:+ nl +:+
   "   echo 0 > /sys/fs/cgroup/cpuset/system.slice/cpuset.cpus" +:+ nl +:+
   "   # (requires systemd and cgroup configuration)" +:+ nl +:+ nl +:+
   "5. Runtime verification:" +:+ nl +:+
   "   - Monitor with: htop, top, or perf" +:+ nl +:+
   "   - Check for interrupts: cat /proc/interrupts" +:+ nl +:+
   "   - Verify exclusive binding: taskset -p <pid>" +:+ nl)%string.

(** ** The cores of the servers *)

(** Why the program refuses to start. *)
Inductive refusal := NotSupported | NotEnoughCores | NotIsolated.

Definition check_binding (config : IndexConfig) : option refusal :=
  if cpu_binding_enabled config then
    if negb is_supported then Some NotSupported
    else
      let available_cores := get_cpu_count in
      let required_cores := u64 (num_cs config + maintenance_cs config) in
      let max_core := u64 (u64 (cpu_binding_start_core config + required_cores) - 1) in
      if available_cores <=? max_core then Some NotEnoughCores
      else if cpu_isolation_required config then
        let required_core_ids := map (λ i, u64 (cpu_binding_start_core config + i)) (seqZ 0 required_cores) in
        if negb (check_core_isolation required_core_ids) then Some NotIsolated else None
      else None
  else None.

End affinity.

(** The core of a compute server and of a maintenance server. *)
Definition cs_core (config : IndexConfig) (cs_id : Z) : option Z :=
  if cpu_binding_enabled config then Some (u64 (cpu_binding_start_core config + cs_id)) else None.
Definition mcs_core (config : IndexConfig) (mcs_id : Z) : option Z :=
  if cpu_binding_enabled config then Some (u64 (u64 (cpu_binding_start_core config + num_cs config) + mcs_id)) else None.

(** ** ComputeServer *)

Section server.
Context {K : Kernel}.
(** The worker function: what a run of it as thread [i] can make of the thread's statistics. *)
Context (worker : nat → ThreadStats → ThreadStats → Prop).

(** A thread of the server, with its affinity: created, past the binding, finished. *)
Inductive thread := Created (mask : gset Z) | Running (mask : gset Z) | Finished (mask : gset Z).

Record ComputeServer := mkCS {
  id_ : Z; num_threads_ : nat; core_id_ : option Z; use_exclusive_binding_ : bool;
  stats_ : list ThreadStats; workers_ : list thread;
  joined_ : nat                                 (* threads that [join] has waited for *)
}.

Definition ComputeServer_init (id : Z) (num_threads : nat) (core_id : option Z) (exclusive : bool) : ComputeServer :=
  mkCS id num_threads core_id exclusive (replicate num_threads stats_init) [] 0.

Definition with_threads (stats : list ThreadStats) (workers : list thread) (joined : nat) (cs : ComputeServer) : ComputeServer :=
  mkCS (id_ cs) (num_threads_ cs) (core_id_ cs) (use_exclusive_binding_ cs) stats workers joined.

(** The binding of a thread; a failure is logged and the thread goes on. *)
Definition bind_thread (core_id : option Z) (exclusive : bool) (mask : gset Z) : gset Z :=
  match core_id with
  | None => mask
  | Some c =>
      match (if exclusive then bind_to_core_exclusive c else bind_to_core c) mask with
      | Done _ mask' => mask'
      | Fault _ mask' => mask'
      end
  end.

(** Steps of the server with its threads: [start] creates the next thread, a thread binds
    itself, its worker returns, and [join] waits for the next thread, which has finished. *)
Inductive server_step : ComputeServer → ComputeServer → Prop :=
  | step_create cs mask :
      (length (workers_ cs) < num_threads_ cs)%nat →
      server_step cs (with_threads (stats_ cs) (workers_ cs ++ [Created mask]) (joined_ cs) cs)
  | step_bind cs i mask :
      workers_ cs !! i = Some (Created mask) →
      server_step cs (with_threads (stats_ cs)
        (<[i := Running (bind_thread (core_id_ cs) (use_exclusive_binding_ cs) mask)]> (workers_ cs)) (joined_ cs) cs)
  | step_work cs i mask st st' :
      workers_ cs !! i = Some (Running mask) → stats_ cs !! i = Some st → worker i st st' →
      server_step cs (with_threads (<[i := st']> (stats_ cs)) (<[i := Finished mask]> (workers_ cs)) (joined_ cs) cs)
  | step_join cs mask :
      length (workers_ cs) = num_threads_ cs → workers_ cs !! joined_ cs = Some (Finished mask) →
      server_step cs (with_threads (stats_ cs) (workers_ cs) (joined_ cs + 1) cs).

(** [start] and [join] have returned. *)
Definition all_joined (cs : ComputeServer) : Prop := joined_ cs = num_threads_ cs ∧ length (workers_ cs) = num_threads_ cs.

(** What holds of thread [i]: its statistics are untouched until its worker returns, and
    are then what the worker made of the initial ones; from the binding on its affinity
    is the one that the binding left. *)
Definition thread_ok (cs : ComputeServer) (i : nat) (t : thread) (st : ThreadStats) : Prop :=
  match t with
  | Created _ => st = stats_init
  | Running mask => st = stats_init ∧ ∃ m0, mask = bind_thread (core_id_ cs) (use_exclusive_binding_ cs) m0
  | Finished mask => worker i stats_init st ∧ ∃ m0, mask = bind_thread (core_id_ cs) (use_exclusive_binding_ cs) m0
  end.

Record server_inv (id : Z) (n : nat) (core : option Z) (ex : bool) (cs : ComputeServer) : Prop := {
  sv_conf : (id_ cs, num_threads_ cs, core_id_ cs, use_exclusive_binding_ cs) = (id, n, core, ex);
  sv_stats : length (stats_ cs) = n;
  sv_workers : (length (workers_ cs) ≤ n)%nat;
  sv_fresh : ∀ i st, (length (workers_ cs) ≤ i)%nat → stats_ cs !! i = Some st → st = stats_init;
  sv_threads : ∀ i t st, workers_ cs !! i = Some t → stats_ cs !! i = Some st → thread_ok cs i t st;
  sv_joined : (joined_ cs ≤ length (workers_ cs))%nat;
  sv_done : ∀ i, (i < joined_ cs)%nat → ∃ mask, workers_ cs !! i = Some (Finished mask)
}.

Lemma server_init_inv id n core ex : server_inv id n core ex (ComputeServer_init id n core ex).
Proof.
  split; cbn; try done; try lia.
  - by rewrite length_replicate.
  - intros i st _ Hl. by apply lookup_replicate_1 in Hl as [-> _].
Qed.

Lemma server_step_inv id n core ex cs cs' : server_step cs cs' → server_inv id n core ex cs → server_inv id n core ex cs'.
Proof.
  intros Hstep [Hc Hs Hw Hf Ht Hj Hd]. injection Hc as Hid Hn Hcore Hex.
  destruct Hstep as [cs mask Hlt|cs i mask Hi|cs i mask st st' Hi Hst Hwk|cs mask Hl Hi];
    (split; cbn [with_threads id_ num_threads_ core_id_ use_exclusive_binding_ stats_ workers_ joined_];
     rewrite ?length_insert, ?length_app; cbn [length]; try congruence; try lia).
  - intros i st Hle. apply Hf. lia.
  - intros i t st Hl Hst. apply lookup_app_Some in Hl as [Hl|[Hge Hl]]; [by eapply Ht|].
    apply list_lookup_singleton_Some in Hl as [_ <-]. cbn. by eapply Hf.
  - intros i Hi. destruct (Hd i Hi) as [m Hm]. exists m. by apply lookup_app_l_Some.
  - exact Hf.
  - intros j t st Hl Hst. destruct (decide (i = j)) as [<-|Hne].
    + rewrite list_lookup_insert_eq in Hl by (by eapply lookup_lt_Some). injection Hl as <-.
      split; [exact (Ht _ _ _ Hi Hst)|by eexists].
    + rewrite list_lookup_insert_ne in Hl by done. exact (Ht _ _ _ Hl Hst).
  - intros j Hlt. destruct (Hd j Hlt) as [m Hm]. exists m. rewrite list_lookup_insert_ne; [done|]. congruence.
  - intros j st0 Hle Hl. apply lookup_lt_Some in Hi. rewrite list_lookup_insert_ne in Hl by lia. by eapply Hf.
  - intros j t st0 Hl Hst0. destruct (decide (i = j)) as [<-|Hne].
    + rewrite list_lookup_insert_eq in Hl by (by eapply lookup_lt_Some). injection Hl as <-.
      rewrite list_lookup_insert_eq in Hst0 by (by eapply lookup_lt_Some). injection Hst0 as <-.
      destruct (Ht _ _ _ Hi Hst) as [-> Hm]. done.
    + rewrite list_lookup_insert_ne in Hl by done. rewrite list_lookup_insert_ne in Hst0 by done. exact (Ht _ _ _ Hl Hst0).
  - intros j Hlt. destruct (Hd j Hlt) as [m Hm]. exists m. rewrite list_lookup_insert_ne; [done|]. congruence.
  - exact Hf.
  - exact Ht.
  - apply lookup_lt_Some in Hi. lia.
  - intros j Hlt. destruct (decide (j = joined_ cs)) as [->|]; [by eexists|]. apply Hd. lia.
Qed.

Lemma server_reachable_inv id n core ex cs : rtc server_step (ComputeServer_init id n core ex) cs → server_inv id n core ex cs.
Proof.
  intros Hr. pose proof (server_init_inv id n core ex) as Hi. revert Hi.
  induction Hr as [|x y z Hxy _ IH]; [done|]. intros Hi. by eapply IH, server_step_inv.
Qed.

(** A server whose threads can still do something is not stuck. *)
Lemma server_progress id n core ex cs :
  (∀ i st, ∃ st', worker i st st') → server_inv id n core ex cs → ¬ all_joined cs → ∃ cs', server_step cs cs'.
Proof.
  intros Hw [Hc Hs Hle Hf Ht Hj Hd] Hn. injection Hc as _ Hnum _ _.
  destruct (decide (length (workers_ cs) < num_threads_ cs)%nat) as [Hlt|Hge]; [eexists; by apply (step_create _ ∅)|].
  assert (Hlen : length (workers_ cs) = num_threads_ cs) by lia.
  assert (Hjl : (joined_ cs < length (workers_ cs))%nat). { destruct (decide (joined_ cs = num_threads_ cs)); [|lia]. by destruct Hn. }
  destruct (lookup_lt_is_Some_2 _ _ Hjl) as [t Hl].
  destruct (lookup_lt_is_Some_2 (stats_ cs) (joined_ cs)) as [st Hst]; [lia|].
  destruct t as [m|m|m].
  - eexists. by eapply step_bind.
  - destruct (Hw (joined_ cs) st) as [st' Hst']. eexists. by eapply step_work.
  - eexists. by eapply step_join.
Qed.
End server.

(** The steps of a run are bounded: each one moves a thread or [join] forward. *)
Definition thread_rank (t : thread) : nat := match t with Created _ => 3 | Running _ => 2 | Finished _ => 1 end.
Definition server_rank (cs : ComputeServer) : nat :=
  4 * (num_threads_ cs - length (workers_ cs)) + sum_list_with thread_rank (workers_ cs) + (num_threads_ cs - joined_ cs).

Lemma rank_insert l i t t' : l !! i = Some t → (thread_rank t' < thread_rank t)%nat →
  (sum_list_with thread_rank (<[i := t']> l) < sum_list_with thread_rank l)%nat.
Proof.
  revert i. induction l as [|x l IH]; intros [|i] Hl Hlt; try done.
  - injection Hl as ->. cbn. lia.
  - specialize (IH i Hl Hlt). change (<[S i := t']> (x :: l)) with (x :: <[i := t']> l). cbn [sum_list_with]. lia.
Qed.

Lemma server_step_rank `{Kernel} worker id n core ex cs cs' :
  server_inv worker id n core ex cs → server_step worker cs cs' → (server_rank cs' < server_rank cs)%nat.
Proof.
  intros [Hc _ Hle _ _ Hj _]. injection Hc as _ Hnum _ _. intros Hstep.
  destruct Hstep as [cs mask Hlt|cs i mask Hi|cs i mask st st' Hi Hst Hwk|cs mask Hl Hi]; unfold server_rank;
    cbn [with_threads num_threads_ workers_ joined_].
  - rewrite length_app, sum_list_with_app. cbn [length sum_list_with thread_rank]. lia.
  - rewrite length_insert. pose proof (rank_insert _ _ _ (Running (bind_thread (core_id_ cs) (use_exclusive_binding_ cs) mask)) Hi ltac:(cbn; lia)). lia.
  - rewrite length_insert. pose proof (rank_insert _ _ _ (Finished mask) Hi ltac:(cbn; lia)). lia.
  - apply lookup_lt_Some in Hi. lia.
Qed.

(** ** Theorems *)

Section affinity_theorems.
Context {K : Kernel} (online : gset Z) (HK : kernel_ok K online).

Lemma single_core c : c ∈ online → {[ c ]} ∩ online = ({[ c ]} : gset Z).
Proof. set_solver. Qed.

Lemma bind_to_core_eq c current :
  bind_to_core c current = if bool_decide (c ∈ online ∧ c < MAX_CPUS) then Done true {[ c ]} else Done false current.
Proof.
  unfold bind_to_core, CPU_SET. rewrite (ko_set _ _ HK). destruct (Z.ltb_spec c MAX_CPUS) as [Hlt|Hge].
  - rewrite union_empty_r_L. destruct (decide (c ∈ online)) as [Hin|Hout].
    + rewrite single_core by done. rewrite decide_False by set_solver. by rewrite bool_decide_true.
    + rewrite decide_True by set_solver. rewrite bool_decide_false by tauto. done.
  - rewrite decide_True by set_solver. rewrite bool_decide_false by lia. done.
Qed.

Lemma filter_single (l : list Z) c : NoDup l → c ∈ l → filter (λ i, i ∈ ({[ c ]} : gset Z)) l = [c].
Proof.
  induction l as [|x l IH]; intros Hnd Hin; [by apply not_elem_of_nil in Hin|].
  apply list.NoDup_cons in Hnd as [Hx Hnd]. rewrite filter_cons. destruct (decide (x ∈ ({[ c ]} : gset Z))) as [Hc|Hc].
  - assert (x = c) as -> by set_solver. f_equal.
    destruct (filter _ l) as [|y l'] eqn:E; [done|]. exfalso.
    assert (Hy : y ∈ filter (λ i, i ∈ ({[ c ]} : gset Z)) l) by (rewrite E; left).
    apply list_elem_of_filter in Hy as [Hy1 Hy2]. assert (y = c) as -> by set_solver. done.
  - apply IH; [done|]. apply elem_of_cons in Hin as [->|]; [|done]. exfalso. apply Hc. set_solver.
Qed.

(** Binding and asking agree: [bind_to_core] succeeds exactly for the online cores
    below 1024, a failure leaves the affinity as it was, and after a success
    [get_current_affinity] returns that core alone; the exclusive variant does the same. *)
Theorem bind_then_get_affinity c current :
  0 ≤ c →
  bind_to_core_exclusive c current = bind_to_core c current ∧
  ∃ ok mask, bind_to_core c current = Done ok mask ∧ (ok = true ↔ c ∈ online ∧ c < MAX_CPUS) ∧
    if ok : bool then get_current_affinity mask = [c] ∧ describe_current_affinity mask = ("core " +:+ pretty c)%string
    else mask = current.
Proof.
  intros Hc. unfold bind_to_core_exclusive, mbind, M_bind. rewrite bind_to_core_eq.
  case_bool_decide as Hin; (split; [by repeat case_match|]).
  - exists true, {[ c ]}. split; [done|split; [done|]]. unfold describe_current_affinity.
    assert (get_current_affinity {[ c ]} = [c]) as ->; [|done].
    apply filter_single; [apply NoDup_seqZ|]. apply elem_of_seqZ. destruct Hin as [_ Hlt]. unfold MAX_CPUS in *. lia.
  - exists false, current. split; [done|split; [|done]]. split; [done|]. intros ?. contradiction.
Qed.
End affinity_theorems.

(** The check of the isolation checks nothing: whatever the kernel reports as isolated,
    every core passes, so the program never refuses to start for a core that is not
    isolated, although the configuration requires it. *)
Theorem isolation_check_vacuous {K : Kernel} config cores :
  check_core_isolation cores = true ∧ check_binding config ≠ Some NotIsolated.
Proof.
  assert (Hc : ∀ l, check_core_isolation l = true).
  { induction l as [|c l IH]; [done|]. cbn. unfold is_core_busy. destruct isolated; [by destruct (contains _ _)|done]. }
  split; [apply Hc|]. unfold check_binding. rewrite Hc. cbn [negb]. by repeat case_match.
Qed.

Lemma omap_shift (a : Z) f n : (∀ i, 0 ≤ i < n → f i = Some (a + i)) → omap f (seqZ 0 n) = seqZ a n.
Proof.
  intros Hf. rewrite <-(Z.add_0_r a) at 1. rewrite <-fmap_add_seqZ.
  assert (Hl : ∀ i, i ∈ seqZ 0 n → 0 ≤ i < n) by (intros i Hi%elem_of_seqZ; lia).
  induction (seqZ 0 n) as [|x l IH]; [done|]. cbn. rewrite Hf by (apply Hl; left). rewrite IH; [done|].
  intros i Hi. apply Hl. by right.
Qed.

Lemma validate_cores_spec {K : Kernel} cores : validate_cores cores = true ↔ Forall (λ c, c < get_cpu_count) cores.
Proof.
  induction cores as [|c cores IH]; [by split|]. cbn [validate_cores]. rewrite Forall_cons_iff, <-IH.
  destruct (Z.leb_spec get_cpu_count c) as [Hle|Hlt]; [|tauto]. split; [done|]. lia.
Qed.

(** When the check of the binding passes, every compute and maintenance server is
    given a core of its own that exists (provided that the numbers of the configuration
    do not wrap around when they are added). *)
Theorem server_cores_exist_distinct {K : Kernel} config :
  config_ok config → cpu_binding_enabled config = true → check_binding config = None →
  cpu_binding_start_core config + num_cs config + maintenance_cs config < 2 ^ 64 →
  let cores := omap (cs_core config) (seqZ 0 (num_cs config)) ++ omap (mcs_core config) (seqZ 0 (maintenance_cs config)) in
  NoDup cores ∧ length cores = Z.to_nat (num_cs config + maintenance_cs config) ∧
  validate_cores cores = true.
Proof.
  intros Hok Hen Hchk Hsum cores. pose proof (co_sizes _ Hok) as Hs.
  assert (Hb : 0 ≤ num_cs config ∧ 0 ≤ maintenance_cs config ∧ 0 ≤ cpu_binding_start_core config).
  { rewrite list.Forall_forall in Hs. unfold in_width in Hs. split_and!; eapply Hs; set_solver. }
  destruct Hb as (H1 & H2 & H3). clear Hs.
  assert (Hcores : cores = seqZ (cpu_binding_start_core config) (num_cs config + maintenance_cs config)).
  { subst cores. rewrite seqZ_app by done. unfold cs_core, mcs_core. rewrite Hen.
    rewrite (omap_shift (cpu_binding_start_core config)), (omap_shift (cpu_binding_start_core config + num_cs config)); [done| |].
    - intros i Hi. f_equal. rewrite (wrap_small 64 (_ + num_cs config)) by (unfold in_width; lia). apply wrap_small. unfold in_width. lia.
    - intros i Hi. f_equal. apply wrap_small. unfold in_width. lia. }
  rewrite Hcores. split_and!; [apply NoDup_seqZ|apply length_seqZ|]. apply validate_cores_spec, list.Forall_forall.
  intros c Hc%elem_of_seqZ. unfold check_binding in Hchk. rewrite Hen in Hchk. cbn [negb is_supported] in Hchk.
  rewrite (wrap_small 64 (num_cs config + _)) in Hchk by (unfold in_width; lia).
  rewrite (wrap_small 64 (_ + (num_cs config + _))) in Hchk by (unfold in_width; lia).
  rewrite (wrap_small 64 (_ - 1)) in Hchk by (unfold in_width; lia).
  destruct (Z.leb_spec get_cpu_count (cpu_binding_start_core config + (num_cs config + maintenance_cs config) - 1)); [done|lia].
Qed.

Section server_theorems.
Context {K : Kernel} (worker : nat → ThreadStats → ThreadStats → Prop).

(** C36: when [join] of a compute server has returned, in whatever order its threads ran,
    every worker has run to its end exactly once on the statistics of its own thread,
    and with a core that is online and below [MAX_CPUS] (1024) its thread was on that core
    alone. *)
Theorem join_after_all_workers online id n core ex cs :
  kernel_ok K online → rtc (server_step worker) (ComputeServer_init id n core ex) cs → all_joined cs →
  length (stats_ cs) = n ∧
  ∀ i, (i < n)%nat → ∃ st mask, stats_ cs !! i = Some st ∧ worker i stats_init st ∧ workers_ cs !! i = Some (Finished mask) ∧
    ∀ c, core = Some c → c ∈ online → c < MAX_CPUS → mask = {[ c ]}.
Proof.
  intros HK Hr [Hj _]. destruct (server_reachable_inv _ _ _ _ _ _ Hr) as [Hc Hs _ _ Ht _ Hd].
  injection Hc as _ Hn Hcore Hex. split; [done|]. intros i Hi.
  destruct (Hd i) as [mask Hm]; [lia|]. destruct (lookup_lt_is_Some_2 (stats_ cs) i) as [st Hst]; [lia|].
  destruct (Ht _ _ _ Hm Hst) as [Hw [m0 ->]]. eexists st, _. split_and!; [done|done|exact Hm|].
  intros c -> Hon Hlt. rewrite Hcore. cbn. unfold bind_to_core_exclusive, mbind, M_bind.
  destruct (use_exclusive_binding_ cs); rewrite (bind_to_core_eq online HK), bool_decide_true by done; done.
Qed.

(** A compute server whose workers return does not hang: from every state a run can
    reach, a state is reachable in which [join] has returned, and no run is longer than
    five steps per thread. *)
Theorem join_returns id n core ex cs :
  (∀ i st, ∃ st', worker i st st') → rtc (server_step worker) (ComputeServer_init id n core ex) cs →
  (∃ cs', rtc (server_step worker) cs cs' ∧ all_joined cs') ∧
  ∀ k cs', nsteps (server_step worker) k (ComputeServer_init id n core ex) cs' → (k ≤ 5 * n)%nat.
Proof.
  intros Hw Hr. split.
  - pose proof (server_reachable_inv _ _ _ _ _ _ Hr) as Hi. clear Hr.
    remember (server_rank cs) as r eqn:Er. revert cs Hi Er.
    induction (lt_wf r) as [r _ IH]. intros cs Hi ->.
    destruct (decide (joined_ cs = num_threads_ cs ∧ length (workers_ cs) = num_threads_ cs)) as [Hd|Hd]; [by exists cs; split; [apply rtc_refl|]|].
    destruct (server_progress _ _ _ _ _ _ Hw Hi Hd) as [cs1 Hs].
    destruct (IH (server_rank cs1)) with (cs := cs1) as (cs' & Hr' & Hj); [by eapply server_step_rank|by eapply server_step_inv|done|].
    exists cs'. split; [by eapply rtc_l|done].
  - intros k cs' Hk.
    assert (Hrank : ∀ k c c', nsteps (server_step worker) k c c' → server_inv worker id n core ex c → (k + server_rank c' ≤ server_rank c)%nat).
    { clear. intros k c c'. induction 1 as [c|k x y z Hxy _ IH]; intros Hi; [lia|].
      pose proof (server_step_rank _ _ _ _ _ _ _ Hi Hxy). specialize (IH (server_step_inv _ _ _ _ _ _ _ Hxy Hi)). lia. }
    pose proof (Hrank _ _ _ Hk (server_init_inv _ _ _ _ _)) as H. unfold server_rank at 2 in H.
    cbn [ComputeServer_init num_threads_ workers_ joined_ sum_list_with length] in H. lia.
Qed.
End server_theorems.

(** ** A machine with four cores *)

Definition demo_online : gset Z := {[ 0; 1; 2; 3 ]}.
Definition demo_kernel : Kernel := {|
  get_nprocs := 4;
  sched_setaffinity := λ mask, if decide (mask ∩ demo_online = ∅) then None else Some (mask ∩ demo_online);
  isolated := Some "2-3"%string
|}.
Lemma demo_kernel_ok : kernel_ok demo_kernel demo_online.
Proof. split; [done|]. unfold demo_online. intros c Hc. cbn. set_solver by lia. Qed.

Lemma bind_then_get_affinity_witness :
  bind_to_core_exclusive (K := demo_kernel) 2 demo_online = bind_to_core (K := demo_kernel) 2 demo_online ∧
  ∃ ok mask, bind_to_core (K := demo_kernel) 2 demo_online = Done ok mask ∧ (ok = true ↔ 2 ∈ demo_online ∧ 2 < MAX_CPUS) ∧
    if ok : bool then get_current_affinity mask = [2] ∧ describe_current_affinity mask = ("core " +:+ pretty 2)%string
    else mask = demo_online.
Proof. apply (bind_then_get_affinity (K := demo_kernel) demo_online demo_kernel_ok 2 demo_online). lia. Defined.

(** Two compute servers and a maintenance server from core 1 on. *)
Definition demo_binding : IndexConfig :=
  mkConfig 2 8 8 (512 * 1024) 3000 8 8 1000 1024 LOG_INFO true 1 true 1 1 50000 0 1000
    (operation_mix default_config) "" Faunus "faunus" default_distribution true 1024 1024.
Lemma demo_binding_ok : config_ok demo_binding.
Proof.
  split; try done.
  - repeat first [apply List.Forall_nil|apply List.Forall_cons; [vm_compute; split; congruence|]].
  - by left.
Qed.

Lemma server_cores_exist_distinct_witness :
  NoDup [1; 2; 3] ∧ length [1; 2; 3] = 3%nat ∧ validate_cores (K := demo_kernel) [1; 2; 3] = true.
Proof.
  apply (server_cores_exist_distinct (K := demo_kernel) demo_binding); [exact demo_binding_ok|reflexivity|vm_compute; reflexivity|vm_compute; reflexivity].
Defined.

(** A server with one thread: created, bound to core 3, run, joined. *)
Definition demo_worker (i : nat) (st st' : ThreadStats) : Prop := st' = st.
Definition demo_server (workers : list thread) (joined : nat) : ComputeServer :=
  mkCS 0 1 (Some 3) true [stats_init] workers joined.
Lemma demo_run : rtc (server_step (K := demo_kernel) demo_worker) (ComputeServer_init 0 1 (Some 3) true) (demo_server [Finished {[ 3 ]}] 1).
Proof.
  eapply rtc_l; [apply (step_create _ _ demo_online); cbn; lia|].
  eapply rtc_l; [apply (step_bind _ _ 0 demo_online); reflexivity|].
  eapply rtc_l; [eapply (step_work _ _ 0 _ stats_init stats_init); reflexivity|].
  eapply rtc_l; [eapply (step_join _ _ {[ 3 ]}); [reflexivity|vm_compute; reflexivity]|].
  vm_compute. apply rtc_refl.
Qed.

Lemma join_after_all_workers_witness :
  length (stats_ (demo_server [Finished {[ 3 ]}] 1)) = 1%nat ∧
  ∀ i, (i < 1)%nat → ∃ st mask, stats_ (demo_server [Finished {[ 3 ]}] 1) !! i = Some st ∧ demo_worker i stats_init st ∧
    workers_ (demo_server [Finished {[ 3 ]}] 1) !! i = Some (Finished mask) ∧
    ∀ c, Some 3 = Some c → c ∈ demo_online → c < MAX_CPUS → mask = {[ c ]}.
Proof.
  apply (join_after_all_workers (K := demo_kernel) demo_worker demo_online 0 1 (Some 3) true);
    [exact demo_kernel_ok|exact demo_run|split; reflexivity].
Defined.

Lemma join_returns_witness :
  (∃ cs', rtc (server_step (K := demo_kernel) demo_worker) (demo_server [Finished {[ 3 ]}] 1) cs' ∧ all_joined cs') ∧
  ∀ k cs', nsteps (server_step (K := demo_kernel) demo_worker) k (ComputeServer_init 0 1 (Some 3) true) cs' → (k ≤ 5 * 1)%nat.
Proof.
  apply (join_returns (K := demo_kernel) demo_worker 0 1 (Some 3) true); [|exact demo_run].
  intros i st. exists st. reflexivity.
Defined.
