(* ===== verification/Percentiles.v ===== *)
(** * Latency percentiles (src/util/histogram_latency_sampler.hpp: the functions that
    read a histogram; src/util/benchmark.hpp: [PercentileCalculator])

    The percentile of a latency histogram, the list of its buckets, and the exact
    percentile of a vector of samples.  The theorems say how far the percentile of a
    histogram can be from the sample of that rank, and when it is not a number.

    Latencies are whole nanoseconds, as in the statistics; a [double] that the code
    computes from counters is the exact rational, with the two results of a division
    by zero as values of their own. *)

From Stdlib Require Import QArith Qround Lqa.
From stdpp Require Import sorting.
From S2P Require Import Prelude GlobalAddress RdmaSim ThreadStats.
Local Open Scope Z_scope.
Import Latency.

(** A result in double precision. *)
Inductive reading := Num (q : Q) | Infinite | NaN.

(** [x / y] for a counter [y]; [x] is a counter too. *)
Definition div_count (x y : Z) : reading :=
  if y =? 0 then (if x =? 0 then NaN else Infinite) else Num (inject_Z x / inject_Z y).

(** [lower + fraction * (upper - lower)]; every bucket has [lower < upper]. *)
Definition interpolate (lower upper : Z) (fraction : reading) : reading :=
  match fraction with
  | Num f => Num (inject_Z lower + f * inject_Z (upper - lower))
  | Infinite => Infinite
  | NaN => NaN
  end.

(** [MIN * 2^(i + 1/2)] in whole nanoseconds. *)
Definition get_bucket_center (bucket_idx : nat) : Z :=
  if (bucket_idx =? 0)%nat then MIN_LATENCY_NS / 2
  else Z.sqrt (MIN_LATENCY_NS ^ 2 * 2 ^ (2 * Z.of_nat bucket_idx + 1)).

(** The loop over the buckets [i] to 31, and the estimate behind it. *)
Fixpoint percentile_loop (h : HistogramLatencySampler) (target_rank cumulative : Z) (idxs : list nat) : reading :=
  match idxs with
  | [] => Num (inject_Z (get_bucket_upper_bound (NUM_BUCKETS - 1)) * 2)
  | i :: idxs' =>
      let bucket_count := buckets_ h !!! i in
      if target_rank <=? u64 (cumulative + bucket_count)
      then interpolate (get_bucket_lower_bound i) (get_bucket_upper_bound i)
             (div_count (u64 (target_rank - cumulative)) bucket_count)
      else percentile_loop h target_rank (u64 (cumulative + bucket_count)) idxs'
  end.

Definition calculate_percentile (percentile : Q) (h : HistogramLatencySampler) : reading :=
  let total := total_samples_ h in
  if total =? 0 then Num 0
  else percentile_loop h (Qfloor (percentile * inject_Z total)) 0 (seq 0 NUM_BUCKETS).

Definition calculate_standard_percentiles (h : HistogramLatencySampler) : reading * reading * reading :=
  (calculate_percentile (50 # 100) h, calculate_percentile (95 # 100) h, calculate_percentile (99 # 100) h).

Definition get_histogram (h : HistogramLatencySampler) : list (Z * Z) :=
  omap (λ i, let c := buckets_ h !!! i in
             if 0 <? c then Some (get_bucket_center i, c) else None) (seq 0 NUM_BUCKETS).

(** ** PercentileCalculator *)

(** [samples[i]]; an index outside of the vector is undefined behaviour. *)
Definition interpolated (samples : list Q) (p : Q) : option Q :=
  let index := (p * inject_Z (Z.of_nat (length samples) - 1))%Q in
  let lower := Z.to_nat (Qfloor index) in
  let upper := Nat.min (lower + 1) (length samples - 1) in
  let fraction := (index - inject_Z (Z.of_nat lower))%Q in
  lo ← samples !! lower; hi ← samples !! upper; mret (lo + fraction * (hi - lo))%Q.

#[global] Instance Qle_dec : RelDecision Qle.
Proof. intros x y. unfold Decision. destruct (Qlt_le_dec y x); [right; by apply Qlt_not_le|by left]. Defined.

(** The samples are sorted in place: the sorted vector is returned with the results. *)
Definition calculate (samples percentiles : list Q) : option (list Q * list Q) :=
  match samples with
  | [] => Some ([], replicate (length percentiles) 0%Q)
  | _ => let sorted := merge_sort Qle samples in
         results ← mapM (interpolated sorted) percentiles; mret (sorted, results)
  end.

Definition calculate_standard (samples : list Q) : option (list Q * (Q * Q * Q)) :=
  '(sorted, percentiles) ← calculate samples [50 # 100; 95 # 100; 99 # 100];
  p50 ← percentiles !! 0%nat; p95 ← percentiles !! 1%nat; p99 ← percentiles !! 2%nat;
  mret (sorted, (p50, p95, p99)).

(** ** What a histogram holds *)

(** A histogram after a sequence of samples. *)
Definition hist (samples : list Z) : HistogramLatencySampler :=
  fold_left (λ h x, add_sample x h) samples init.

Fixpoint count (P : Z → bool) (l : list Z) : Z :=
  match l with [] => 0 | x :: l' => (if P x then 1 else 0) + count P l' end.

(** The bucket of a latency; 32 stands for the overflow counter. *)
Definition slot (x : Z) : nat :=
  let i := get_bucket_index x in
  if (i =? NUM_BUCKETS - 1)%nat && (get_bucket_upper_bound i <? x) then NUM_BUCKETS else i.

Lemma count_nonneg P l : 0 ≤ count P l ≤ Z.of_nat (length l).
Proof. induction l as [|x l IH]; cbn [count length]; [lia|]. destruct (P x); lia. Qed.

Lemma count_app P l1 l2 : count P (l1 ++ l2) = count P l1 + count P l2.
Proof. induction l1 as [|x l1 IH]; cbn [count app]; [done|]. rewrite IH. lia. Qed.

Lemma count_mono (P P' : Z → bool) l :
  (∀ x, x ∈ l → P x = true → P' x = true) → count P l ≤ count P' l.
Proof.
  induction l as [|x l IH]; cbn [count]; intros H; [done|].
  assert (count P l ≤ count P' l) by (apply IH; intros; apply H; [by apply list_elem_of_further|done]).
  specialize (H x (list_elem_of_here _ _)). destruct (P x); [rewrite H by done; lia|destruct (P' x); lia].
Qed.

Lemma count_ext (P P' : Z → bool) l : (∀ x, x ∈ l → P x = P' x) → count P l = count P' l.
Proof.
  intros H. apply Z.le_antisymm; apply count_mono; intros x Hx; by rewrite (H x Hx).
Qed.

Lemma count_all (P : Z → bool) l : (∀ x, x ∈ l → P x = true) → count P l = Z.of_nat (length l).
Proof.
  induction l as [|x l IH]; cbn [count length]; intros H; [done|].
  rewrite IH by (intros; apply H; by apply list_elem_of_further).
  rewrite (H x) by apply list_elem_of_here. lia.
Qed.

Lemma count_split (P P1 P2 : Z → bool) l :
  (∀ x, (if P x then 1 else 0) = (if P1 x then 1 else 0) + (if P2 x then 1 else 0)) →
  count P l = count P1 l + count P2 l.
Proof. intros H. induction l as [|x l IH]; cbn [count]; [done|]. rewrite IH, H. lia. Qed.

Lemma count_perm (P : Z → bool) l1 l2 : l1 ≡ₚ l2 → count P l1 = count P l2.
Proof. induction 1; cbn [count]; lia. Qed.

Lemma add_sample_slot x h :
  add_sample x h =
    mk (if (slot x =? NUM_BUCKETS)%nat then buckets_ h else incr (slot x) (buckets_ h)) (u64 (total_samples_ h + 1))
       (if (slot x =? NUM_BUCKETS)%nat then u64 (overflow_samples_ h + 1) else overflow_samples_ h).
Proof.
  unfold add_sample, slot. destruct (_ && _); [by rewrite Nat.eqb_refl|].
  destruct (Nat.eqb_spec (get_bucket_index x) NUM_BUCKETS) as [H|]; [|done].
  pose proof (latency_bucket_lt x). lia.
Qed.

Lemma slot_le x : (slot x ≤ NUM_BUCKETS)%nat.
Proof. unfold slot. pose proof (latency_bucket_lt x). destruct (_ && _); lia. Qed.

(** Where a latency is counted. *)
Lemma slot_spec x :
  0 ≤ x →
  (slot x = O ∧ x < 1000) ∨
  ((1 ≤ slot x < NUM_BUCKETS)%nat ∧ 500 * 2 ^ Z.of_nat (slot x) ≤ x < 500 * 2 ^ (Z.of_nat (slot x) + 1) ∧ x ≤ 500 * 2 ^ 31) ∨
  (slot x = NUM_BUCKETS ∧ 500 * 2 ^ 31 < x).
Proof.
  intros Hx. unfold slot, get_bucket_index, get_bucket_upper_bound, NUM_BUCKETS, MIN_LATENCY_NS.
  destruct (Z.ltb_spec x 500) as [Hlt|Hge]; [left; simpl; lia|].
  assert (1 ≤ x / 500) as Hd by (apply Z.div_le_lower_bound; lia).
  destruct (Z.log2_spec (x / 500)) as [L1 L2]; [lia|].
  pose proof (Z.log2_nonneg (x / 500)) as L0. set (g := Z.log2 (x / 500)) in *.
  pose proof (Z.div_mod x 500) as Hm. pose proof (Z.mod_pos_bound x 500) as Hb.
  assert (500 * 2 ^ g ≤ x < 500 * 2 ^ (g + 1)) as Hr by (rewrite <-Z.add_1_r in L2; lia).
  destruct (Z_lt_le_dec g 31) as [Hg|Hg].
  - rewrite Nat.min_l by lia. rewrite (proj2 (Nat.eqb_neq _ _)) by lia. cbn [andb].
    rewrite Z2Nat.id by lia. destruct (decide (g = 0)) as [->|]; [left; simpl; lia|].
    right. left. assert (2 ^ (g + 1) ≤ 2 ^ 31) by (apply Z.pow_le_mono_r; lia). lia.
  - rewrite Nat.min_r by lia. cbn [Nat.eqb Nat.sub andb].
    assert (2 ^ 31 ≤ 2 ^ g) by (apply Z.pow_le_mono_r; lia).
    change (Z.of_nat 31) with 31. destruct (Z.ltb_spec (500 * 2 ^ 31) x); [right; right; done|].
    right. left. change (Z.of_nat 31) with 31. split; [lia|].
    assert (2 ^ (31 + 1) = 2 * 2 ^ 31) by reflexivity. lia.
Qed.

Lemma slot_mono x y : 0 ≤ x → x ≤ y → (slot x ≤ slot y)%nat.
Proof.
  intros H0 Hle. pose proof (slot_le x). unfold NUM_BUCKETS in *.
  destruct (slot_spec x H0) as [[-> _]|[[S1 R1]|[E1 R1]]]; [lia| |];
    destruct (slot_spec y ltac:(lia)) as [[E2 R2]|[[S2 R2]|[-> R2]]]; unfold NUM_BUCKETS in *; try lia.
  - exfalso. assert (2 ^ 1 ≤ 2 ^ Z.of_nat (slot x)) by (apply Z.pow_le_mono_r; lia). lia.
  - destruct (Nat.le_gt_cases (slot x) (slot y)); [done|exfalso].
    assert (2 ^ (Z.of_nat (slot y) + 1) ≤ 2 ^ Z.of_nat (slot x)) by (apply Z.pow_le_mono_r; lia). lia.
Qed.

(** The number of values that a classification [f] puts into class [i]. *)
Definition in_class (f : Z → nat) (i : nat) (l : list Z) : Z := count (λ x, (f x =? i)%nat) l.

Lemma in_class_app f i l1 l2 : in_class f i (l1 ++ l2) = in_class f i l1 + in_class f i l2.
Proof. apply count_app. Qed.

Lemma in_class_snoc f i l x : in_class f i (l ++ [x]) = in_class f i l + (if (f x =? i)%nat then 1 else 0).
Proof. rewrite in_class_app. unfold in_class. cbn [count]. lia. Qed.

Lemma in_class_range f i l : 0 ≤ in_class f i l ≤ Z.of_nat (length l).
Proof. apply count_nonneg. Qed.

(** Counters incremented one value at a time hold the sizes of the classes. *)
Lemma counters_spec f n l :
  Z.of_nat (length l) < 2 ^ 64 →
  fold_left (λ b x, incr (f x) b) l (replicate n 0) = map (λ i, in_class f i l) (seq 0 n).
Proof.
  induction l as [|x l IH] using rev_ind; intros Hlen.
  - cbn [fold_left]. unfold in_class. cbn [count]. clear. generalize 0%nat as k.
    induction n as [|n IH]; intros k; cbn [replicate seq map]; [done|]. by rewrite (IH (S k)).
  - rewrite length_app in Hlen. cbn [length] in Hlen. rewrite fold_left_app. cbn [fold_left]. rewrite IH by lia.
    unfold incr. apply list_eq. intros i. destruct (decide (i = f x)) as [->|Hne].
    + rewrite list_lookup_alter_eq, !list_lookup_fmap. destruct (seq 0 n !! f x) as [j|] eqn:Ej; [|done].
      apply lookup_seq in Ej as [-> _]. cbn [fmap option_fmap option_map Nat.add]. f_equal.
      rewrite in_class_snoc, Nat.eqb_refl. pose proof (in_class_range f (f x) l). rewrite wrap_small by (unfold in_width; lia). done.
    + rewrite list_lookup_alter_ne, !list_lookup_fmap by done. destruct (seq 0 n !! i) as [j|] eqn:Ej; [|done].
      apply lookup_seq in Ej as [-> _]. cbn [fmap option_fmap option_map Nat.add]. f_equal.
      rewrite in_class_snoc, (proj2 (Nat.eqb_neq (f x) i)) by lia. lia.
Qed.

(** The number of samples in a bucket, and below it. *)
Definition in_slot : nat → list Z → Z := in_class slot.
Definition below_slot (i : nat) (samples : list Z) : Z := count (λ x, (slot x <? i)%nat) samples.

Lemma in_slot_app i l1 l2 : in_slot i (l1 ++ l2) = in_slot i l1 + in_slot i l2.
Proof. apply count_app. Qed.

Lemma in_slot_range i l : 0 ≤ in_slot i l ≤ Z.of_nat (length l).
Proof. apply count_nonneg. Qed.

Lemma below_slot_S i l : below_slot (S i) l = below_slot i l + in_slot i l.
Proof.
  apply count_split. intros x. destruct (Nat.ltb_spec (slot x) (S i)), (Nat.ltb_spec (slot x) i),
    (Nat.eqb_spec (slot x) i); lia.
Qed.

Lemma below_slot_0 l : below_slot 0 l = 0.
Proof. unfold below_slot. induction l; cbn [count]; [done|]. by rewrite IHl. Qed.

Lemma below_slot_mono i j l : (i ≤ j)%nat → below_slot i l ≤ below_slot j l.
Proof. intros H. apply count_mono. intros x _. rewrite !Nat.ltb_lt. lia. Qed.

Lemma incr_beyond i (b : list Z) : (length b ≤ i)%nat → incr i b = b.
Proof.
  intros Hi. apply list_eq. intros j. unfold incr. destruct (decide (j = i)) as [->|Hne]; [|by rewrite list_lookup_alter_ne].
  by rewrite list_lookup_alter_eq, lookup_ge_None_2.
Qed.

Lemma add_samples_buckets l : ∀ h,
  length (buckets_ h) = NUM_BUCKETS →
  buckets_ (fold_left (λ h x, add_sample x h) l h) = fold_left (λ b x, incr (slot x) b) l (buckets_ h).
Proof.
  induction l as [|x l IH]; intros h Hl; cbn [fold_left]; [done|].
  assert (buckets_ (add_sample x h) = incr (slot x) (buckets_ h)) as Hx.
  { rewrite add_sample_slot. cbn [buckets_]. destruct (Nat.eqb_spec (slot x) NUM_BUCKETS) as [E|]; [|done].
    by rewrite incr_beyond by lia. }
  rewrite IH, Hx; [done|]. by rewrite Hx, length_incr.
Qed.

(** A histogram counts the samples of each bucket. *)
Lemma hist_counts l :
  Z.of_nat (length l) < 2 ^ 64 →
  hist l = mk (map (λ i, in_slot i l) (seq 0 NUM_BUCKETS)) (Z.of_nat (length l)) (in_slot NUM_BUCKETS l).
Proof.
  intros Hlen. assert (∀ h, h = mk (buckets_ h) (total_samples_ h) (overflow_samples_ h)) as Heta by (by intros []).
  rewrite (Heta (hist l)). unfold hist. f_equal.
  - rewrite add_samples_buckets by done. by apply counters_spec.
  - induction l as [|x l IH] using rev_ind; [done|]. rewrite length_app in *. cbn [length] in *.
    rewrite fold_left_app. cbn [fold_left]. rewrite add_sample_slot. cbn [total_samples_].
    rewrite IH, wrap_small by (unfold in_width; lia). lia.
  - induction l as [|x l IH] using rev_ind; [done|]. rewrite length_app in *. cbn [length] in *.
    rewrite fold_left_app. cbn [fold_left]. rewrite add_sample_slot. cbn [overflow_samples_]. rewrite IH by lia.
    pose proof (in_slot_range NUM_BUCKETS l). unfold in_slot in *. rewrite in_class_snoc.
    destruct (slot x =? NUM_BUCKETS)%nat; rewrite ?wrap_small by (unfold in_width; lia); lia.
Qed.

Lemma hist_bucket l i :
  Z.of_nat (length l) < 2 ^ 64 → (i < NUM_BUCKETS)%nat → buckets_ (hist l) !!! i = in_slot i l.
Proof.
  intros Hl Hi. rewrite hist_counts by done. cbn [buckets_].
  apply list_lookup_total_correct. rewrite list_lookup_fmap, lookup_seq_lt by done. done.
Qed.

(** The value reported for rank [r] in bucket [i]. *)
Definition rank_value (l : list Z) (i : nat) (r : Z) : Q :=
  (inject_Z (get_bucket_lower_bound i) +
   inject_Z (r - below_slot i l) / inject_Z (in_slot i l) *
   inject_Z (get_bucket_upper_bound i - get_bucket_lower_bound i))%Q.
Definition overflow_value : Q := (inject_Z (get_bucket_upper_bound (NUM_BUCKETS - 1)) * 2)%Q.

(** The loop stops in the bucket that holds the rank. *)
Lemma percentile_loop_spec l r k : ∀ i,
  (i + k = NUM_BUCKETS)%nat → Z.of_nat (length l) < 2 ^ 64 → below_slot i l < r < 2 ^ 64 →
  (∃ j, (j < NUM_BUCKETS)%nat ∧ below_slot j l < r ≤ below_slot (S j) l ∧
     percentile_loop (hist l) r (below_slot i l) (seq i k) = Num (rank_value l j r)) ∨
  (below_slot NUM_BUCKETS l < r ∧
   percentile_loop (hist l) r (below_slot i l) (seq i k) = Num overflow_value).
Proof.
  induction k as [|k IH]; intros i Hik Hl Hr; cbn [seq percentile_loop].
  - right. rewrite Nat.add_0_r in Hik. subst i. split; [lia|done].
  - rewrite hist_bucket by lia. rewrite <-below_slot_S.
    pose proof (count_nonneg (λ x, (slot x <? i)%nat) l) as B1. fold (below_slot i l) in B1.
    pose proof (count_nonneg (λ x, (slot x <? S i)%nat) l) as B2. fold (below_slot (S i) l) in B2.
    pose proof (below_slot_S i l) as BS.
    rewrite (wrap_small _ (below_slot (S i) l)) by (unfold in_width; lia).
    destruct (Z.leb_spec r (below_slot (S i) l)) as [Hle|Hgt].
    + left. exists i. split; [lia|]. split; [lia|]. rewrite wrap_small by (unfold in_width; lia).
      unfold div_count. rewrite (proj2 (Z.eqb_neq (in_slot i l) 0)) by lia. done.
    + apply IH; [lia|done|lia].
Qed.

Lemma bound_succ j : get_bucket_lower_bound (S j) = get_bucket_upper_bound j.
Proof.
  unfold get_bucket_lower_bound, get_bucket_upper_bound. cbn [Nat.eqb].
  by replace (Z.of_nat (S j) - 1) with (Z.of_nat j) by lia.
Qed.

Lemma bounds_lt i : 0 ≤ get_bucket_lower_bound i < get_bucket_upper_bound i.
Proof.
  destruct i as [|j]; [done|]. rewrite bound_succ. unfold get_bucket_upper_bound, MIN_LATENCY_NS.
  rewrite Nat2Z.inj_succ, Z.pow_succ_r by lia. pose proof (Z.pow_pos_nonneg 2 (Z.of_nat j)). lia.
Qed.

Lemma lower_bound_mono i j : (i ≤ j)%nat → get_bucket_lower_bound i ≤ get_bucket_lower_bound j.
Proof.
  induction 1 as [|j _ IH]; [done|]. rewrite bound_succ. pose proof (bounds_lt j). lia.
Qed.

(** ** The percentile of a histogram *)

(** The rank a percentile asks for. *)
Definition rank (p : Q) (l : list Z) : Z := Qfloor (p * inject_Z (Z.of_nat (length l))).

Lemma rank_range p l : (0 <= p <= 1)%Q → 0 ≤ rank p l ≤ Z.of_nat (length l).
Proof.
  intros [H0 H1]. unfold rank. set (n := Z.of_nat (length l)).
  assert (0 <= inject_Z n)%Q as Hn by (unfold n; change 0%Q with (inject_Z 0); rewrite <-Zle_Qle; lia).
  split.
  - rewrite <-(Qfloor_Z 0). apply Qfloor_resp_le. apply (Qmult_le_0_compat p (inject_Z n)); done.
  - transitivity (Qfloor (inject_Z n)); [|by rewrite Qfloor_Z]. apply Qfloor_resp_le.
    rewrite <-(Qmult_1_l (inject_Z n)) at 2. by apply Qmult_le_compat_r.
Qed.

Lemma rank_mono p p' l : (p <= p')%Q → rank p l ≤ rank p' l.
Proof.
  intros H. apply Qfloor_resp_le, Qmult_le_compat_r; [done|]. change 0%Q with (inject_Z 0). rewrite <-Zle_Qle. lia.
Qed.

Lemma calculate_percentile_spec l p :
  Z.of_nat (length l) < 2 ^ 64 → (p <= 1)%Q → 1 ≤ rank p l →
  (∃ j, (j < NUM_BUCKETS)%nat ∧ below_slot j l < rank p l ≤ below_slot (S j) l ∧
     calculate_percentile p (hist l) = Num (rank_value l j (rank p l))) ∨
  (below_slot NUM_BUCKETS l < rank p l ∧ calculate_percentile p (hist l) = Num overflow_value).
Proof.
  intros Hl Hp Hr. assert (rank p l ≤ Z.of_nat (length l)) as Hle.
  { etrans; [apply (rank_mono p 1); done|]. apply rank_range. split; [done|apply Qle_refl]. }
  unfold calculate_percentile. assert (total_samples_ (hist l) = Z.of_nat (length l)) as -> by (by rewrite hist_counts).
  rewrite (proj2 (Z.eqb_neq (Z.of_nat (length l)) 0)) by lia. fold (rank p l).
  pose proof (percentile_loop_spec l (rank p l) NUM_BUCKETS 0) as H. rewrite below_slot_0 in H.
  apply H; [done|done|lia].
Qed.

Lemma rank_value_bounds l j r :
  below_slot j l < r ≤ below_slot (S j) l →
  (inject_Z (get_bucket_lower_bound j) < rank_value l j r <= inject_Z (get_bucket_upper_bound j))%Q.
Proof.
  rewrite below_slot_S. intros Hr. unfold rank_value.
  set (d := r - below_slot j l). set (n := in_slot j l) in *. pose proof (bounds_lt j) as Hb.
  set (lo := get_bucket_lower_bound j) in *. set (hi := get_bucket_upper_bound j) in *.
  assert (0 < inject_Z d / inject_Z n <= 1)%Q as [F1 F2].
  { assert (0 < inject_Z n)%Q by (change 0%Q with (inject_Z 0); rewrite <-Zlt_Qlt; lia).
    assert (0 < inject_Z d)%Q by (change 0%Q with (inject_Z 0); rewrite <-Zlt_Qlt; lia).
    split; [by apply Qlt_shift_div_l; [|rewrite Qmult_0_l]|].
    apply Qle_shift_div_r; [done|]. rewrite Qmult_1_l, <-Zle_Qle. lia. }
  assert (0 < inject_Z (hi - lo))%Q as Hw by (change 0%Q with (inject_Z 0); rewrite <-Zlt_Qlt; lia).
  assert (inject_Z hi == inject_Z lo + inject_Z (hi - lo))%Q as Hhi by (rewrite <-inject_Z_plus; f_equiv; lia).
  rewrite Hhi. set (f := (inject_Z d / inject_Z n)%Q) in *. set (w := inject_Z (hi - lo)) in *. split; nra.
Qed.

Lemma rank_in_slot l x r :
  Forall (λ s, 0 ≤ s) l → 0 ≤ x → count (λ s, s <? x) l < r ≤ count (λ s, s <=? x) l →
  below_slot (slot x) l < r ≤ below_slot (S (slot x)) l.
Proof.
  intros Hl Hx Hr. rewrite list.Forall_forall in Hl. split.
  - eapply Z.le_lt_trans; [|apply Hr]. apply count_mono. intros s Hs. rewrite Nat.ltb_lt, Z.ltb_lt. intros H.
    destruct (Z_lt_le_dec s x) as [|Hle]; [done|]. pose proof (slot_mono x s Hx Hle). lia.
  - etrans; [apply Hr|]. apply count_mono. intros s Hs. rewrite Nat.ltb_lt, Z.leb_le. intros H.
    pose proof (slot_mono s x (Hl s Hs) H). lia.
Qed.

Lemma slot_unique l r i j :
  below_slot i l < r ≤ below_slot (S i) l → below_slot j l < r ≤ below_slot (S j) l → i = j.
Proof.
  intros Hi Hj. destruct (lt_eq_lt_dec i j) as [[H|]|H]; [exfalso|done|exfalso].
  - pose proof (below_slot_mono (S i) j l H). lia.
  - pose proof (below_slot_mono (S j) i l H). lia.
Qed.

(** C32: accuracy of the reported percentiles.  Let [x] be the sample of the rank that
    the percentile asks for.  The percentile of the histogram is a number: at most [x]
    and more than a quarter of it when [x] is between 1 microsecond and the last bucket
    (about 18 minutes), between 0 and 0.5 microseconds below that, and the fixed
    estimate above. *)
Theorem percentile_accuracy l p x :
  Forall (λ s, 0 ≤ s) l → Z.of_nat (length l) < 2 ^ 64 → (p <= 1)%Q → 0 ≤ x →
  count (λ s, s <? x) l < rank p l ≤ count (λ s, s <=? x) l →
  ∃ q, calculate_percentile p (hist l) = Num q ∧
    (x < 1000 → (0 < q <= 500)%Q) ∧
    (1000 ≤ x ≤ 500 * 2 ^ 31 → (inject_Z x / 4 < q <= inject_Z x)%Q) ∧
    (500 * 2 ^ 31 < x → (q == inject_Z (500 * 2 ^ 32))%Q).
Proof.
  intros Hl Hlen Hp Hx Hr. pose proof (count_nonneg (λ s, s <? x) l) as H0.
  pose proof (rank_in_slot l x _ Hl Hx Hr) as Hs.
  destruct (calculate_percentile_spec l p Hlen Hp) as [(j & Hj & Hin & ->)|[Hov ->]]; [lia| |];
    (eexists; split; [reflexivity|]).
  - pose proof (slot_unique _ _ _ _ Hin Hs). subst j. pose proof (rank_value_bounds l (slot x) _ Hs) as Hq.
    set (q := rank_value l (slot x) (rank p l)) in *. clearbody q.
    destruct (slot_spec x Hx) as [[E Hx1]|[(E & Hx1)|[E Hx1]]]; [| |exfalso; lia].
    + rewrite E in Hq. split_and!; [intros _; exact Hq|lia|lia].
    + destruct (slot x) as [|k]; [lia|]. rewrite bound_succ in Hq. unfold get_bucket_upper_bound, MIN_LATENCY_NS in Hq.
      assert (2 ^ 1 ≤ 2 ^ Z.of_nat (S k)) as Hpow by (apply Z.pow_le_mono_r; lia).
      rewrite Nat2Z.inj_succ, <-Z.add_1_r in *. rewrite !Z.pow_add_r in * by lia.
      split_and!; [lia| |lia]. intros _. destruct Hq as [Q1 Q2]. split.
      * eapply Qle_lt_trans; [|exact Q1]. apply Qle_shift_div_r; [done|]. change 4%Q with (inject_Z 4).
        rewrite <-inject_Z_mult, <-Zle_Qle. lia.
      * eapply Qle_trans; [exact Q2|]. rewrite <-Zle_Qle. lia.
  - assert (slot x = NUM_BUCKETS) as E.
    { destruct (decide (slot x < NUM_BUCKETS)%nat) as [Hlt|]; [|pose proof (slot_le x); lia].
      pose proof (below_slot_mono (S (slot x)) NUM_BUCKETS l Hlt). lia. }
    assert (500 * 2 ^ 31 < x) by (destruct (slot_spec x Hx) as [[? _]|[[? _]|[_ ?]]]; unfold NUM_BUCKETS in *; lia).
    split_and!; [lia|lia|]. intros _. reflexivity.
Qed.

Lemma percentile_accuracy_witness :
  let l := [1200; 90000; 3000; 700; 5000; 5000] in
  ∃ q, calculate_percentile (50 # 100) (hist l) = Num q ∧ (inject_Z 3000 / 4 < q <= inject_Z 3000)%Q.
Proof.
  intros l. destruct (percentile_accuracy l (50 # 100) 3000) as (q & E & _ & H & _).
  - apply Forall_forall. intros s Hs. repeat (destruct Hs as [<-|Hs]; [lia|]). destruct Hs.
  - reflexivity.
  - done.
  - lia.
  - vm_compute. done.
  - exists q. split; [exact E|]. apply H. split; [lia|]. vm_compute. discriminate.
Defined.

(** Percentiles are ordered.  For percentiles [p <= p'] of one histogram, the first
    of rank at least 1, the value reported for [p] is at most the one for [p']; so
    P50 is at most P95, and P95 at most P99. *)
Theorem percentile_mono l p p' :
  Z.of_nat (length l) < 2 ^ 64 → (p <= p')%Q → (p' <= 1)%Q → 1 ≤ rank p l →
  ∃ q q', calculate_percentile p (hist l) = Num q ∧ calculate_percentile p' (hist l) = Num q' ∧ (q <= q')%Q.
Proof.
  intros Hlen Hpp Hp' Hr. pose proof (rank_mono p p' l Hpp) as Hrr.
  destruct (calculate_percentile_spec l p Hlen) as [(i & Hi & Hin & ->)|[Hov ->]]; [by eapply Qle_trans|done| |];
    (destruct (calculate_percentile_spec l p' Hlen Hp') as [(j & Hj & Hjn & ->)|[Hov' ->]]; [lia| |]);
    (do 2 eexists; split; [reflexivity|split; [reflexivity|]]).
  - assert (i ≤ j)%nat as Hij.
    { destruct (Nat.le_gt_cases i j) as [|H]; [done|]. pose proof (below_slot_mono (S j) i l H). lia. }
    destruct (decide (i = j)) as [->|Hne].
    + unfold rank_value. rewrite below_slot_S in Hjn. pose proof (bounds_lt j).
      apply Qplus_le_r, Qmult_le_compat_r; [|change 0%Q with (inject_Z 0); rewrite <-Zle_Qle; lia].
      unfold Qdiv. apply Qmult_le_compat_r; [rewrite <-Zle_Qle; lia|].
      apply Qinv_le_0_compat. change 0%Q with (inject_Z 0). rewrite <-Zle_Qle. lia.
    + destruct (rank_value_bounds l i _ Hin) as [_ H1], (rank_value_bounds l j _ Hjn) as [H2 _].
      eapply Qle_trans; [exact H1|]. apply Qlt_le_weak. eapply Qle_lt_trans; [|exact H2].
      rewrite <-bound_succ, <-Zle_Qle. apply lower_bound_mono. lia.
  - destruct (rank_value_bounds l i _ Hin) as [_ H1]. eapply Qle_trans; [exact H1|].
    assert (get_bucket_upper_bound i ≤ get_bucket_upper_bound (NUM_BUCKETS - 1)) as H2
      by (rewrite <-!bound_succ; apply lower_bound_mono; lia).
    unfold overflow_value. rewrite Zle_Qle in H2. eapply Qle_trans; [exact H2|]. vm_compute. discriminate.
  - pose proof (below_slot_mono (S j) NUM_BUCKETS l Hj). lia.
  - apply Qle_refl.
Qed.

Lemma percentile_mono_witness :
  let h := hist [1200; 90000; 3000; 700; 5000; 5000] in
  ∃ q q', calculate_percentile (50 # 100) h = Num q ∧ calculate_percentile (99 # 100) h = Num q' ∧ (q <= q')%Q.
Proof.
  intros h. apply (percentile_mono [1200; 90000; 3000; 700; 5000; 5000] (50 # 100) (99 # 100));
    [reflexivity|vm_compute; discriminate..].
Defined.

(** A percentile of rank 0 divides by the count of the first bucket.  When fewer
    samples were taken than one over the percentile, the result is 0 if some sample
    is below 1 microsecond, and otherwise not a number: a single operation of 1.2
    microseconds gives three percentiles that are not numbers. *)
Theorem percentile_rank_zero l p :
  l ≠ [] → Z.of_nat (length l) < 2 ^ 64 → rank p l = 0 →
  (Forall (λ s, 1000 ≤ s) l → calculate_percentile p (hist l) = NaN) ∧
  (∀ s, s ∈ l → 0 ≤ s < 1000 → ∃ q, calculate_percentile p (hist l) = Num q ∧ (q == 0)%Q).
Proof.
  intros Hne Hlen Hr.
  assert (calculate_percentile p (hist l) =
          interpolate 0 MIN_LATENCY_NS (div_count 0 (in_slot 0 l))) as ->.
  { unfold calculate_percentile. assert (total_samples_ (hist l) = Z.of_nat (length l)) as -> by (by rewrite hist_counts).
    destruct l; [done|]. rewrite (proj2 (Z.eqb_neq _ 0)) by (cbn [length]; lia).
    fold (rank p (z :: l)). rewrite Hr. unfold NUM_BUCKETS at 1. cbn [seq percentile_loop].
    rewrite hist_bucket by (done || unfold NUM_BUCKETS; lia). pose proof (in_slot_range 0 (z :: l)).
    rewrite (wrap_small 64 (0 + _)) by (unfold in_width; lia).
    rewrite (proj2 (Z.leb_le 0 _)) by lia. reflexivity. }
  split.
  - intros Hall. rewrite list.Forall_forall in Hall. assert (in_slot 0 l = 0) as ->; [|reflexivity].
    unfold in_slot, in_class. rewrite (count_ext _ (λ _, false)); [clear; induction l; cbn [count]; lia|].
    intros s Hs. specialize (Hall s Hs). apply Nat.eqb_neq. intros E.
    destruct (slot_spec s) as [[_ ?]|[[? _]|[? _]]]; unfold NUM_BUCKETS in *; lia.
  - intros s Hs Hlt. unfold div_count.
    assert (1 ≤ in_slot 0 l) as H1.
    { apply list_elem_of_split in Hs as (l1 & l2 & ->). rewrite in_slot_app.
      pose proof (in_slot_range 0 l1). pose proof (in_slot_range 0 l2). unfold in_slot, in_class in *. cbn [count].
      assert (slot s = O) as ->; [|simpl; lia].
      destruct (slot_spec s) as [[E _]|[[? Hb]|[? Hb]]]; [lia|done| |lia].
      assert (2 ^ 1 ≤ 2 ^ Z.of_nat (slot s)) by (apply Z.pow_le_mono_r; lia). lia. }
    rewrite (proj2 (Z.eqb_neq _ 0)) by lia. eexists. split; [reflexivity|].
    unfold Qdiv. rewrite Qmult_0_l. reflexivity.
Qed.

Lemma percentile_rank_zero_witness :
  calculate_standard_percentiles (hist [1200]) = (NaN, NaN, NaN) ∧
  calculate_percentile (99 # 100) (hist [1200]) = NaN.
Proof.
  split; [reflexivity|]. apply (percentile_rank_zero [1200] (99 # 100)); [done|reflexivity|reflexivity|].
  constructor; [lia|constructor].
Defined.

(** ** The exact percentile *)

#[global] Instance Qle_total : Total Qle.
Proof. intros x y. destruct (Qlt_le_dec x y); [left; by apply Qlt_le_weak|by right]. Qed.

Lemma sorted_next (l : list Q) : ∀ i x y, Sorted Qle l → l !! i = Some x → l !! (i + 1)%nat = Some y → (x <= y)%Q.
Proof.
  induction l as [|z l IH]; intros [|i] x y Hs; [done..| |].
  - intros [= ->] Hy. inversion Hs as [|? ? _ Hd]. destruct Hd; [done|]. cbn in Hy. by simplify_eq.
  - intros Hx Hy. inversion Hs. by eapply (IH i).
Qed.

Lemma interpolated_spec sorted p :
  Sorted Qle sorted → sorted ≠ [] → (0 <= p <= 1)%Q →
  let k := Z.to_nat (Qfloor (p * inject_Z (Z.of_nat (length sorted) - 1))) in
  ∃ q lo hi, interpolated sorted p = Some q ∧ sorted !! k = Some lo ∧
    sorted !! Nat.min (k + 1) (length sorted - 1) = Some hi ∧ (lo <= q <= hi)%Q.
Proof.
  intros Hs Hne [P0 P1] k. set (n := Z.of_nat (length sorted) - 1) in *.
  assert (0 ≤ n) by (destruct sorted; [done|cbn [length] in n; lia]).
  assert (0 <= inject_Z n)%Q as Hn by (change 0%Q with (inject_Z 0); rewrite <-Zle_Qle; lia).
  set (idx := (p * inject_Z n)%Q) in *.
  assert (0 <= idx <= inject_Z n)%Q as [I0 I1] by (unfold idx; nra).
  assert (0 ≤ Qfloor idx ≤ n) as Hk.
  { rewrite <-(Qfloor_Z 0), <-(Qfloor_Z n). split; by apply Qfloor_resp_le. }
  pose proof (Qfloor_le idx) as F1. pose proof (Qlt_floor idx) as F2. rewrite inject_Z_plus in F2.
  change (inject_Z 1) with 1%Q in F2.
  destruct (lookup_lt_is_Some_2 sorted k) as [lo Hlo]; [unfold k; lia|].
  destruct (lookup_lt_is_Some_2 sorted (Nat.min (k + 1) (length sorted - 1))) as [hi Hhi]; [lia|].
  assert (lo <= hi)%Q as Hle.
  { destruct (decide (k + 1 ≤ length sorted - 1)%nat) as [Hm|Hm].
    - eapply (sorted_next _ k); [done|done|]. by rewrite Nat.min_l in Hhi by lia.
    - assert (Nat.min (k + 1) (length sorted - 1) = k) as Hmk by (unfold k in *; lia). rewrite Hmk, Hlo in Hhi. simplify_eq. apply Qle_refl. }
  exists (lo + (idx - inject_Z (Z.of_nat k)) * (hi - lo))%Q, lo, hi.
  unfold interpolated. fold n idx k. rewrite Hlo. cbn [mbind option_bind]. rewrite Hhi. cbn.
  split_and!; [done..| |]; (replace (Z.of_nat k) with (Qfloor idx) by (unfold k; lia)); nra.
Qed.

(** The exact percentiles.  [calculate] sorts the samples, never leaves the vector for
    percentiles between 0 and 1, and every result lies between the sample of its index
    and the next one. *)
Theorem calculate_spec samples ps :
  Forall (λ p, (0 <= p <= 1)%Q) ps → samples ≠ [] →
  ∃ sorted results, calculate samples ps = Some (sorted, results) ∧
    sorted ≡ₚ samples ∧ Sorted Qle sorted ∧
    Forall2 (λ p q, ∃ lo hi,
      let k := Z.to_nat (Qfloor (p * inject_Z (Z.of_nat (length samples) - 1))) in
      sorted !! k = Some lo ∧ sorted !! Nat.min (k + 1) (length samples - 1) = Some hi ∧ (lo <= q <= hi)%Q) ps results.
Proof.
  intros Hps Hne. pose proof (merge_sort_Permutation Qle samples) as Hperm.
  pose proof (Sorted_merge_sort Qle samples) as Hsort. set (sorted := merge_sort Qle samples) in *.
  assert (sorted ≠ []) as Hne' by (intros E; rewrite E in Hperm; by apply Permutation_nil in Hperm).
  assert (∃ rs, mapM (interpolated sorted) ps = Some rs) as [rs Hrs].
  { apply mapM_is_Some_2. eapply Forall_impl; [|exact Hps]. intros p Hp. change (is_Some (interpolated sorted p)).
    destruct (interpolated_spec sorted p Hsort Hne' Hp) as (q & _ & _ & -> & _). eauto. }
  exists sorted, rs. split_and!; [|done|done|].
  - unfold calculate. destruct samples; [done|]. fold sorted. by rewrite Hrs.
  - apply mapM_Some_1 in Hrs. rewrite <-(Permutation_length Hperm).
    clear -Hrs Hps Hsort Hne'. induction Hrs as [|p q ps rs Hq _ IH]; constructor; inversion Hps as [|? ? Hp Hps']; [|by apply IH].
    destruct (interpolated_spec sorted p Hsort Hne' Hp) as (q' & lo & hi & E & H1 & H2 & H3).
    rewrite Hq in E. simplify_eq. by exists lo, hi.
Qed.

Lemma calculate_spec_witness :
  ∃ sorted results, calculate [7; 3; 5]%Q [1 # 2; 1]%Q = Some (sorted, results) ∧ sorted ≡ₚ [7; 3; 5]%Q.
Proof.
  destruct (calculate_spec [7; 3; 5]%Q [1 # 2; 1]%Q) as (sorted & results & E & H & _).
  - constructor; [by vm_compute|constructor; [by vm_compute|constructor]].
  - done.
  - exists sorted, results. by split.
Defined.
