(* ===== verification/Tally.v ===== *)
(** * The statistics of a whole run of a client

    Between [begin_operation] and [end_operation] both indexes only add to the
    counters of the tracker: no handler of src/kv_index/faunus_index.cpp or
    src/kv_index/sherman_index.cpp, and nothing of the RDMA manager below them,
    changes the current operation, whether tracking is on, the number of successes and
    failures, or the latencies.  [AccountedIndex] is that promise of an index to its
    client, with the two indexes as instances; against it, the counts a client of
    src/apps/kv_test.cpp leaves behind after its warm-up and its measured loop. *)

From S2P Require Import Prelude GlobalAddress ArrayVar RdmaSim ThreadStats Percentiles Queue MemoryServer Slab RdmaManager LocalLock KVBlock FaunusNode FaunusIndex ShermanNode ShermanIndex ShermanRead ShermanUpsert Workload WorkloadClient.

(** ** The observation *)

(** What the operations of a kind leave in its entry: the successes, the failures and
    the latencies. *)
Definition op_of (e : OperationEntry) : Z * Z * Latency.HistogramLatencySampler :=
  (successes e, failures e, latency_samples e).
Abbreviation OpCounts := (list (Z * Z * Latency.HistogramLatencySampler)).
Definition op_counts_of (s : list OperationEntry) : OpCounts := map op_of s.

(** What the handlers leave alone. *)
Definition tally (t : ThreadStatsTracker) : OperationKind * bool * OpCounts :=
  (current_op_ t, tracking_active_ t, op_counts_of (stats_ t)).

Lemma counts_on_kind k f s : (∀ e, op_of (f e) = op_of e) → op_counts_of (on_kind k f s) = op_counts_of s.
Proof.
  intros Hf. apply list_eq. intros i. unfold on_kind, op_counts_of. rewrite !list_lookup_fmap.
  destruct (decide (i = kind_idx k)) as [->|Hne]; [|by rewrite list_lookup_alter_ne].
  rewrite list_lookup_alter_eq. destruct (s !! kind_idx k) as [e|]; [|done]. cbn. by rewrite Hf.
Qed.

Lemma tally_with_stats k f t : (∀ e, op_of (f e) = op_of e) → tally (with_stats (on_kind k f) t) = tally t.
Proof. intros Hf. unfold tally. cbn [with_stats stats_ current_op_ tracking_active_]. by rewrite counts_on_kind. Qed.

Lemma tally_count_op o t : tally (count_op o t) = tally t.
Proof. done. Qed.
Lemma tally_count_ops ops : ∀ t, tally (fold_left (λ t o, count_op o t) ops t) = tally t.
Proof. induction ops as [|o ops IH]; intros t; cbn; [done|]. by rewrite IH. Qed.
Lemma tally_record_rdma_op o t : tally (record_rdma_op o t) = tally t.
Proof. unfold record_rdma_op. by destruct (negb _). Qed.
Lemma tally_record_rdma_ops ops t : tally (record_rdma_ops ops t) = tally t.
Proof. unfold record_rdma_ops. destruct (negb _); [done|]. by rewrite tally_count_ops. Qed.
Lemma tally_record_cache_hit t : tally (record_cache_hit t) = tally t.
Proof. unfold record_cache_hit. destruct (tracking_active_ t); [|done]. apply tally_with_stats. by intros []. Qed.
Lemma tally_record_cache_miss t : tally (record_cache_miss t) = tally t.
Proof. unfold record_cache_miss. destruct (tracking_active_ t); [|done]. apply tally_with_stats. by intros []. Qed.
Lemma tally_record_retry t : tally (record_retry t) = tally t.
Proof. unfold record_retry. destruct (tracking_active_ t) eqn:E; [|done]. unfold tally. cbn. by rewrite E. Qed.
Lemma tally_record_lock h t : tally (record_local_lock_acquisition h t) = tally t.
Proof. unfold record_local_lock_acquisition. destruct (tracking_active_ t); [|done]. apply tally_with_stats. by intros []. Qed.
#[export] Hint Resolve tally_record_rdma_op tally_record_rdma_ops tally_record_cache_hit tally_record_cache_miss tally_record_retry
  tally_record_lock : keeps.

Section net.
Context {Q : Type → Type} `{!ConcurrentQueue Q}.

Definition mgr_tally (g : RDMAManager) : option (OperationKind * bool * OpCounts) := tally <$> thread_stats_tracker_ g.
Definition net_tally (n : Net Q) := mgr_tally (mgr n).

Lemma on_tracker_keeps f : (∀ t, tally (f t) = tally t) → keeps mgr_tally (on_tracker f).
Proof. intros Hf. apply keeps_modify. intros g. unfold mgr_tally. cbn. destruct (thread_stats_tracker_ g); cbn; by rewrite ?Hf. Qed.
Lemma sleep_keeps n : keeps mgr_tally (sleep_ns n).
Proof. apply keeps_modify. intros g. by destruct (sleep_enabled_ g). Qed.
Lemma delay_keeps i n : keeps mgr_tally (get_server_time_delay i n).
Proof. intros g a g'. rewrite get_server_time_delay_run. by intros [= _ <-]. Qed.
Lemma ensure_keeps t : keeps mgr_tally (ensure_thread_stats t).
Proof. intros g a g'. unfold ensure_thread_stats. destruct (_ !! _); by intros [= _ <-]. Qed.
Lemma add_stats_keeps i t n : keeps mgr_tally (add_stats i t n).
Proof. by apply keeps_modify. Qed.
Hint Resolve on_tracker_keeps sleep_keeps delay_keeps ensure_keeps add_stats_keeps : keeps.

Lemma on_mgr_keeps {A} (m : M RDMAManager A) : keeps mgr_tally m → keeps net_tally (on_mgr m).
Proof. by apply keeps_zoom. Qed.
Hint Resolve on_mgr_keeps : keeps.
Lemma interfere_keeps : keeps net_tally interfere.
Proof. intros n a n'. unfold interfere. destruct (others n); by intros [= _ <-]. Qed.
Lemma on_region_keeps {A} i (m : M memory A) : keeps net_tally (on_region i m).
Proof.
  intros n a n'. unfold on_region. destruct (_ !! _) as [s|]; [|done]. by destruct (m (rdma_ s)); [|done]; intros [= _ <-].
Qed.
Hint Resolve interfere_keeps on_region_keeps : keeps.
Lemma execute_keeps o : keeps net_tally (execute_rdma o).
Proof. unfold execute_rdma. keeps. Qed.
Hint Resolve execute_keeps : keeps.
Lemma perform_op_keeps o : keeps net_tally (perform_op o).
Proof. unfold perform_op. keeps. Qed.
Lemma batch_loop_keeps w s ops : ∀ n, keeps net_tally (batch_loop w s ops n).
Proof. induction ops as [|o ops IH]; intros n; cbn [batch_loop]; keeps. Qed.
Hint Resolve perform_op_keeps batch_loop_keeps : keeps.
Lemma perform_batch_keeps ops : keeps net_tally (perform_batch ops).
Proof. unfold perform_batch. keeps. Qed.
Hint Resolve perform_batch_keeps : keeps.
Lemma read_object_keeps a n : keeps net_tally (rdma_read_object a n).
Proof. unfold rdma_read_object. keeps. Qed.
Lemma write_object_keeps a b : keeps net_tally (rdma_write_object a b).
Proof. unfold rdma_write_object. keeps. Qed.
Lemma read_batch_keeps a n : keeps net_tally (rdma_read_batch a n).
Proof. unfold rdma_read_batch. keeps. Qed.
Lemma write_batch_keeps a b : keeps net_tally (rdma_write_batch a b).
Proof. unfold rdma_write_batch. keeps. Qed.
Lemma try_lock_keeps a : keeps net_tally (rdma_try_acquire_lock a).
Proof. unfold rdma_try_acquire_lock. keeps. Qed.
Lemma release_keeps a : keeps net_tally (rdma_release_lock a).
Proof. unfold rdma_release_lock. keeps. Qed.
Lemma cas_release_keeps a : keeps net_tally (rdma_cas_release_lock a).
Proof. unfold rdma_cas_release_lock. keeps. Qed.
End net.
#[export] Hint Resolve on_tracker_keeps on_mgr_keeps perform_op_keeps perform_batch_keeps read_object_keeps write_object_keeps
  read_batch_keeps write_batch_keeps try_lock_keeps release_keeps cas_release_keeps : keeps.

(** ** The Faunus index *)
Section faunus.
Context {cfg : FaunusConfig} {Q : Type → Type} `{!ConcurrentQueue Q}.
Context {C : Type}.
Abbreviation FW := (World Q C).

Definition world_tally (w : FW) := net_tally (w_net w).

Lemma on_net_keeps {A} (m : M (Net Q) A) : keeps net_tally m → keeps world_tally (on_net m).
Proof. by apply keeps_zoom. Qed.
Lemma on_rand_keeps {A} (m : M rand_state A) : keeps world_tally (on_rand m).
Proof. by apply keeps_zoom_free. Qed.
Lemma on_alloc_keeps {A} (m : M _ A) : keeps world_tally (on_alloc m).
Proof. by apply keeps_zoom_free. Qed.
Hint Resolve on_net_keeps on_rand_keeps on_alloc_keeps : keeps.

Lemma perform_keeps o : keeps world_tally (perform o).
Proof. unfold perform. keeps. Qed.
Lemma perform_all_keeps ops : keeps world_tally (perform_all ops).
Proof. unfold perform_all. keeps. Qed.
Lemma wread_keeps a n : keeps world_tally (FaunusIndex.read_object a n).
Proof. unfold FaunusIndex.read_object. keeps. Qed.
Lemma wwrite_keeps a b : keeps world_tally (FaunusIndex.write_object a b).
Proof. unfold FaunusIndex.write_object. keeps. Qed.
Lemma allocate_keeps n : keeps world_tally (allocate n).
Proof. unfold allocate. keeps. Qed.
Lemma free_keeps n a : keeps world_tally (free n a).
Proof. unfold free. keeps. Qed.
Lemma stats_if_keeps f : (∀ t, tally (f t) = tally t) → keeps world_tally (stats_if f).
Proof. intros Hf. unfold stats_if. keeps. Qed.
Lemma stats_keeps f : (∀ t, tally (f t) = tally t) → keeps world_tally (stats f).
Proof. intros Hf. unfold stats. keeps. Qed.
Hint Resolve perform_keeps perform_all_keeps wread_keeps wwrite_keeps allocate_keeps free_keeps stats_if_keeps stats_keeps : keeps.
End faunus.
#[export] Hint Resolve on_net_keeps on_rand_keeps on_alloc_keeps perform_keeps perform_all_keeps wread_keeps wwrite_keeps allocate_keeps
  free_keeps stats_if_keeps stats_keeps : keeps.

Section faunus_ops.
Context {cfg : FaunusConfig} {Q : Type → Type} `{!ConcurrentQueue Q}.
Context {C Ent : Type} `{!NodeCache C Ent (GlobalAddress * InternalNode)}.
Variables (fuel : positive) (depth : nat) (junk : Z) (local_ptr : Z).
Abbreviation FW := (World Q C).
Abbreviation obs := (world_tally (Q := Q) (C := C)).

Lemma search_cache_keeps k : keeps obs (search_cache (Ent := Ent) k).
Proof. intros w a w'. unfold search_cache. destruct (faunus_cache_ w); by intros [= _ <-]. Qed.
Lemma add_cache_keeps s e i : keeps obs (add_cache (Ent := Ent) s e i).
Proof. by apply keeps_modify. Qed.
Lemma invalidate_cache_keeps e : keeps obs (invalidate_cache (Ent := Ent) e).
Proof. destruct e; [by apply keeps_modify|]. apply keeps_ret. Qed.
Hint Resolve search_cache_keeps add_cache_keeps invalidate_cache_keeps : keeps.
Lemma root_keeps : keeps obs FaunusIndex.get_root_offset.
Proof. unfold FaunusIndex.get_root_offset. keeps. Qed.
Hint Resolve root_keeps : keeps.
Lemma update_root_keeps a : keeps obs (FaunusIndex.update_root_offset a).
Proof. unfold FaunusIndex.update_root_offset. keeps. Qed.
Hint Resolve update_root_keeps : keeps.
Lemma find_step_keeps k l s c st : keeps obs (find_step (Ent := Ent) k l s c st).
Proof. unfold find_step. keeps. Qed.
Hint Resolve find_step_keeps : keeps.
Lemma find_node_keeps k l s u : keeps obs (find_node (Ent := Ent) fuel k l s u).
Proof. unfold find_node. keeps. Qed.
Lemma candidates_keeps leaf fp i r : keeps obs (get_candidate_kvs leaf fp i r).
Proof. unfold get_candidate_kvs. keeps. Qed.
Hint Resolve find_node_keeps candidates_keeps : keeps.
Lemma try_update_step_keeps b n st : keeps obs (try_update_step b n st).
Proof. unfold try_update_step. keeps. Qed.
Hint Resolve try_update_step_keeps : keeps.
Lemma try_update_keeps b e n : keeps obs (try_update_kvblock fuel b e n).
Proof. unfold try_update_kvblock. keeps. Qed.
Lemma try_delete_keeps b e : keeps obs (try_delete_kvblock fuel local_ptr b e).
Proof. unfold try_delete_kvblock. keeps. Qed.
Hint Resolve try_update_keeps try_delete_keeps : keeps.
Lemma dupes_loop_keeps k a leaf n u cs : ∀ f, keeps obs (dupes_loop fuel local_ptr k a leaf n u cs f).
Proof. induction cs as [|[i kv] cs IH]; intros f; cbn [dupes_loop]; keeps. Qed.
Hint Resolve dupes_loop_keeps : keeps.
Lemma remove_dupes_keeps k a leaf n i r u : keeps obs (handle_local_remove_dupes fuel local_ptr k a leaf n i r u).
Proof. unfold handle_local_remove_dupes. keeps. Qed.
Hint Resolve remove_dupes_keeps : keeps.
Lemma read_attempt_keeps k st : keeps obs (read_attempt (Ent := Ent) fuel local_ptr k st).
Proof. unfold read_attempt. keeps. Qed.
Hint Resolve read_attempt_keeps : keeps.
Lemma faunus_read_keeps k : keeps obs (FaunusIndex.read (Ent := Ent) fuel local_ptr k).
Proof. unfold FaunusIndex.read. keeps. Qed.

Lemma trylock_keeps a : keeps obs (trylock_node a).
Proof. unfold trylock_node. keeps. Qed.
Lemma new_root_keeps k a l : keeps obs (setup_new_root k a l).
Proof. unfold setup_new_root. keeps. Qed.
Hint Resolve trylock_keeps new_root_keeps : keeps.
Lemma split_internal_keeps up a n k c : (∀ k a l, keeps obs (up k a l)) → keeps obs (split_internal_node junk up a n k c).
Proof. intros Hup. unfold split_internal_node. keeps. Qed.
Hint Resolve split_internal_keeps : keeps.
Lemma insert_internal_attempt_keeps up k a l st :
  (∀ k a l, keeps obs (up k a l)) → keeps obs (insert_internal_attempt (Ent := Ent) fuel junk up k a l st).
Proof. intros Hup. unfold insert_internal_attempt. keeps. Qed.
Hint Resolve insert_internal_attempt_keeps : keeps.
Lemma insert_internal_keeps n : ∀ k a l, keeps obs (insert_internal_entry (Ent := Ent) fuel junk n k a l).
Proof. induction n as [|n IH]; intros k a l; cbn [insert_internal_entry]; keeps. Qed.
Hint Resolve insert_internal_keeps : keeps.
Lemma split_leaf_keeps a : keeps obs (split_leaf (Ent := Ent) fuel depth junk a).
Proof. unfold split_leaf. keeps. Qed.
Hint Resolve split_leaf_keeps : keeps.
Lemma on_queue_keeps {A} i (m : M (Q FaunusMaintenanceRPC) A) : keeps obs (on_queue i m).
Proof. intros w a w'. unfold on_queue. destruct (_ !! _) as [q|]; [|done]. by destruct (m q); [|done]; intros [= _ <-]. Qed.
Hint Resolve on_queue_keeps : keeps.
Lemma request_keeps o a : keeps obs (request_smo o a).
Proof. unfold request_smo, num_maintenance_queues. keeps. Qed.
Lemma cache_access_keeps e : keeps obs (record_cache_access (Ent := Ent) e).
Proof. unfold record_cache_access. keeps. Qed.
Hint Resolve request_keeps cache_access_keeps : keeps.
Lemma insert_locate_keeps k kv a st : keeps obs (insert_locate (Ent := Ent) fuel k kv a st).
Proof. unfold insert_locate. keeps. Qed.
Lemma insert_finish_keeps k a l e : keeps obs (insert_finish (Ent := Ent) fuel depth junk local_ptr k a l e).
Proof. unfold insert_finish. keeps. Qed.
Hint Resolve insert_locate_keeps insert_finish_keeps : keeps.
Lemma insert_attempt_keeps k kv a b st : keeps obs (insert_attempt (Ent := Ent) fuel depth junk local_ptr k kv a b st).
Proof. unfold insert_attempt. keeps. Qed.
Hint Resolve insert_attempt_keeps : keeps.
Lemma faunus_insert_keeps k v : keeps obs (FaunusIndex.insert (Ent := Ent) fuel depth junk local_ptr k v).
Proof. unfold FaunusIndex.insert. keeps. Qed.
End faunus_ops.

(** ** The Sherman index *)
Section sherman.
Context {cfg : FaunusConfig} {scfg : ShermanConfig} {Q : Type → Type} `{!ConcurrentQueue Q}.
Context {C Ent : Type} `{!NodeCache C Ent (GlobalAddress * InternalPage)} `{!RangedCache C Ent (GlobalAddress * InternalPage)}.
Variables (fuel : positive) (spins depth : nat).

Definition sworld_tally (w : SWorld (Q := Q) (C := C)) := world_tally (kv w).
Abbreviation obs := sworld_tally.

Lemma on_kv_keeps {A} (m : M (World Q C) A) : keeps world_tally m → keeps obs (on_kv m).
Proof. by apply keeps_zoom. Qed.
Lemma on_locks_keeps {A} lm (m : M LocalLockManager A) : keeps obs (on_locks lm m).
Proof. intros w a w'. unfold on_locks. by destruct (m _); [|done]; intros [= _ <-]. Qed.
Hint Resolve on_kv_keeps on_locks_keeps : keeps.
Lemma sread_keeps a n : keeps obs (sread a n).
Proof. unfold sread. keeps. Qed.
Lemma swrite_keeps a b : keeps obs (swrite a b).
Proof. unfold swrite. keeps. Qed.
Lemma salloc_keeps n : keeps obs (salloc n).
Proof. unfold salloc. keeps. Qed.
Hint Resolve sread_keeps swrite_keeps salloc_keeps : keeps.
Lemma sroot_keeps : keeps obs get_root_offset.
Proof. unfold get_root_offset. keeps. Qed.
Lemma supdate_root_keeps a k b l o : keeps obs (update_root_offset a k b l o).
Proof. unfold update_root_offset. keeps. Qed.
Hint Resolve sroot_keeps supdate_root_keeps : keeps.
Lemma lock_step_keeps a t st : keeps obs (lock_step a t st).
Proof. unfold lock_step. keeps. Qed.
Hint Resolve lock_step_keeps : keeps.
Lemma slock_keeps a : keeps obs (try_lock_address fuel spins a).
Proof. unfold try_lock_address. keeps. Qed.
Lemma sunlock_keeps a : keeps obs (unlock_address a).
Proof. unfold unlock_address. keeps. Qed.
Hint Resolve slock_keeps sunlock_keeps : keeps.
Lemma lock_and_read_keeps a b n : keeps obs (lock_and_read_page fuel spins a b n).
Proof. unfold lock_and_read_page. keeps. Qed.
Lemma write_unlock_keeps p a b : keeps obs (write_page_and_unlock p a b).
Proof. unfold write_page_and_unlock. keeps. Qed.
Hint Resolve lock_and_read_keeps write_unlock_keeps : keeps.
Lemma scache_search_keeps k : keeps obs (scache_search (Ent := Ent) k).
Proof. intros w a w'. unfold scache_search. destruct (faunus_cache_ (kv w)); by intros [= _ <-]. Qed.
Lemma scache_add_keeps s e i : keeps obs (scache_add (Ent := Ent) s e i).
Proof. apply on_kv_keeps. by apply keeps_modify. Qed.
Lemma scache_invalidate_keeps e : keeps obs (scache_invalidate (Ent := Ent) e).
Proof. destruct e; [|apply keeps_ret]. apply on_kv_keeps. by apply keeps_modify. Qed.
Lemma has_cache_keeps : keeps obs has_cache.
Proof. apply keeps_gets. Qed.
Lemma push_path_keeps l a : keeps obs (push_path l a).
Proof. unfold push_path. destruct (_ <? _)%nat; [by apply keeps_modify|apply keeps_raise]. Qed.
Lemma before_keeps : keeps obs before_operation.
Proof. by apply keeps_modify. Qed.
Hint Resolve scache_search_keeps scache_add_keeps scache_invalidate_keeps has_cache_keeps push_path_keeps before_keeps : keeps.
Lemma leaf_scan_keeps k fp rs : keeps obs (leaf_scan k fp rs).
Proof. induction rs as [|r rs IH]; cbn [leaf_scan]; keeps. Qed.
Hint Resolve leaf_scan_keeps : keeps.
Lemma search_node_step_keeps a k r c u : keeps obs (search_node_step (Ent := Ent) a k r c u).
Proof. unfold search_node_step. keeps. Qed.
Hint Resolve search_node_step_keeps : keeps.
Lemma search_node_keeps a k r c : keeps obs (search_node (Ent := Ent) fuel a k r c).
Proof. unfold search_node. keeps. Qed.
Hint Resolve search_node_keeps : keeps.
Lemma to_internal_keeps n : ∀ a k v r l, keeps obs (insert_to_internal fuel spins n a k v r l).
Proof. induction n as [|n IH]; intros a k v r l; cbn [insert_to_internal]; keeps. Qed.
Hint Resolve to_internal_keeps : keeps.
Lemma up_step_keeps k v r l st : keeps obs (up_step (Ent := Ent) fuel spins depth k v r l st).
Proof. unfold up_step. keeps. Qed.
Hint Resolve up_step_keeps : keeps.
Lemma search_and_insert_keeps k v l : keeps obs (search_and_insert_to_internal (Ent := Ent) fuel spins depth k v l).
Proof. unfold search_and_insert_to_internal. keeps. Qed.
Lemma leaf_insert_scan_keeps k v fp rs : ∀ i n e, keeps obs (leaf_insert_scan k v fp rs i n e).
Proof. induction rs as [|r rs IH]; intros i n e; cbn [leaf_insert_scan]; keeps. Qed.
Lemma read_keys_keeps rs : keeps obs (read_keys rs).
Proof. induction rs as [|r rs IH]; cbn [read_keys]; keeps. Qed.
Hint Resolve search_and_insert_keeps leaf_insert_scan_keeps read_keys_keeps : keeps.
Lemma split_page_keeps a p n r l : keeps obs (split_leaf_page (Ent := Ent) fuel spins depth a p n r l).
Proof. unfold split_leaf_page. keeps. Qed.
Hint Resolve split_page_keeps : keeps.
Lemma to_leaf_keeps n : ∀ a k v r l c, keeps obs (insert_to_leaf (Ent := Ent) fuel spins depth n a k v r l c).
Proof. induction n as [|n IH]; intros a k v r l c; cbn [insert_to_leaf]; keeps. Qed.
Hint Resolve to_leaf_keeps : keeps.
Lemma insert_step_keeps k v r st : keeps obs (insert_step (Ent := Ent) fuel spins depth k v r st).
Proof. unfold insert_step. keeps. Qed.
Hint Resolve insert_step_keeps : keeps.
Lemma sherman_insert_keeps k v : keeps obs (insert (Ent := Ent) fuel spins depth k v).
Proof. unfold insert. keeps. Qed.
Lemma read_step_keeps k r st : keeps obs (read_step (Ent := Ent) fuel k r st).
Proof. unfold read_step. keeps. Qed.
Lemma read_start_keeps k r : keeps obs (read_start (Ent := Ent) k r).
Proof. unfold read_start. keeps. Qed.
Hint Resolve read_step_keeps read_start_keeps : keeps.
Lemma sherman_read_keeps k : keeps obs (read (Ent := Ent) fuel k).
Proof. unfold read. keeps. Qed.
End sherman.

(** ** What an index promises to the accounting of its client *)

Class AccountedIndex {X : Type} (ix : KVIndex X) := {
  tracker_of : X → option ThreadStatsTracker;
  record_tracker : ∀ f x u x', kv_record _ ix f x = Done u x' → tracker_of x' = f <$> tracker_of x;
  insert_tally : ∀ k v, keeps (λ x, tally <$> tracker_of x) (kv_insert _ ix k v);
  read_tally : ∀ k, keeps (λ x, tally <$> tracker_of x) (kv_read _ ix k)
}.

Definition faunus_kv {cfg : FaunusConfig} {Q : Type → Type} `{!ConcurrentQueue Q} {C Ent : Type}
    `{!NodeCache C Ent (GlobalAddress * InternalNode)} (fuel : positive) (depth : nat) (junk local_ptr : Z) : KVIndex (World Q C) :=
  mkKVIndex _ (FaunusIndex.insert (Ent := Ent) fuel depth junk local_ptr) (FaunusIndex.read (Ent := Ent) fuel local_ptr) stats_if.

#[export] Instance faunus_accounted {cfg : FaunusConfig} {Q : Type → Type} `{!ConcurrentQueue Q} {C Ent : Type}
    `{!NodeCache C Ent (GlobalAddress * InternalNode)} fuel depth junk local_ptr :
  AccountedIndex (faunus_kv (Q := Q) (C := C) (Ent := Ent) fuel depth junk local_ptr).
Proof.
  refine {| tracker_of := λ w, thread_stats_tracker_ (mgr (w_net w)) |}.
  - by intros f x u x' [= _ <-].
  - intros k v. apply faunus_insert_keeps.
  - intros k. apply faunus_read_keeps.
Defined.

#[export] Instance sherman_accounted {cfg : FaunusConfig} {scfg : ShermanConfig} {Q : Type → Type} `{!ConcurrentQueue Q} {C Ent : Type}
    `{!NodeCache C Ent (GlobalAddress * InternalPage)} `{!RangedCache C Ent (GlobalAddress * InternalPage)} fuel spins depth :
  AccountedIndex (sherman_kv (Q := Q) (C := C) (Ent := Ent) fuel spins depth).
Proof.
  refine {| tracker_of := λ w, thread_stats_tracker_ (mgr (w_net (kv w))) |}.
  - by intros f x u x' [= _ <-].
  - intros k v. apply sherman_insert_keeps.
  - intros k. apply sherman_read_keeps.
Defined.

(** ** The calls a client makes

    [log_index ix] is the index [ix] that also writes down the calls: which operation
    it was asked for and whether that reported success.  A client cannot tell it from
    [ix] ([run_logged] below). *)
Abbreviation Log := (list (OperationKind * bool)).

(** An index that writes down its calls. *)
Class LoggedIndex {X : Type} (ix : KVIndex X) := {
  calls_of : X → Log;
  record_calls : ∀ f, keeps calls_of (kv_record _ ix f);
  insert_calls : ∀ k v x b x', kv_insert _ ix k v x = Done b x' → calls_of x' = calls_of x ++ [(Insert, b)];
  read_calls : ∀ k x v x', kv_read _ ix k x = Done v x' → calls_of x' = calls_of x ++ [(Read, match v with Some _ => true | None => false end)]
}.

Definition logging {X A} (entry : A → OperationKind * bool) (m : M X A) : M (X * Log) A := λ s,
  match m s.1 with Done a x => Done a (x, s.2 ++ [entry a]) | Fault f x => Fault f (x, s.2) end.

Definition log_index {X} (ix : KVIndex X) : KVIndex (X * Log) :=
  mkKVIndex _ (λ k v, logging (pair Insert) (kv_insert _ ix k v))
    (λ k, logging (λ v, (Read, match v with Some _ => true | None => false end)) (kv_read _ ix k))
    (λ f, zoom fst (λ x s, (x, s.2)) (kv_record _ ix f)).

#[export] Instance log_logged {X} (ix : KVIndex X) : LoggedIndex (log_index ix).
Proof.
  refine {| calls_of := snd |}.
  - intros f. by apply keeps_zoom_free.
  - intros k v [x lg] b x'. cbn. unfold logging. by destruct (kv_insert _ ix k v _); [intros [= -> <-]|].
  - intros k [x lg] v x'. cbn. unfold logging. by destruct (kv_read _ ix k _); [intros [= -> <-]|].
Defined.

Lemma logging_keeps {X A B} (obs : X → B) e (m : M X A) : keeps obs m → keeps (λ s, obs s.1) (logging e m).
Proof. intros Hm [x lg] a x'. unfold logging. destruct (m _) as [? x1|] eqn:E; [|done]. intros [= _ <-]. by apply (Hm _ _ _ E). Qed.

#[export] Instance log_accounted {X} (ix : KVIndex X) `{!AccountedIndex ix} : AccountedIndex (log_index ix).
Proof.
  refine {| tracker_of := λ s, tracker_of s.1 |}.
  - intros f [x lg] u x'. cbn. unfold zoom. destruct (kv_record _ ix f _) eqn:E; [|done]. intros [= _ <-]. by apply record_tracker in E.
  - intros k v. apply (logging_keeps (λ x, tally <$> tracker_of x)), insert_tally.
  - intros k. apply (logging_keeps (λ x, tally <$> tracker_of x)), read_tally.
Defined.

(** ** The counts of one recorded operation *)

(** One more success, with its latency, or one more failure. *)
Definition bump (latency_ns : Z) (ok : bool) (c : Z * Z * Latency.HistogramLatencySampler) : Z * Z * Latency.HistogramLatencySampler :=
  let '(s, f, h) := c in if ok then (u64 (s + 1), f, Latency.add_sample latency_ns h) else (s, u64 (f + 1), h).

Lemma counts_record_operation k n ok s :
  op_counts_of (on_kind k (entry_record_operation n ok) s) = alter (bump n ok) (kind_idx k) (op_counts_of s).
Proof.
  apply list_eq. intros i. unfold on_kind, op_counts_of. rewrite !list_lookup_fmap.
  destruct (decide (i = kind_idx k)) as [->|Hne].
  - rewrite !list_lookup_alter_eq, list_lookup_fmap. destruct (s !! kind_idx k) as [e|]; [|done]. cbn.
    by destruct e, ok.
  - by rewrite !list_lookup_alter_ne, list_lookup_fmap by done.
Qed.

Lemma counts_rdma_types k (cs : list Z) l : ∀ s,
  op_counts_of (fold_left (λ s i, let c := cs !!! i in if 0 <? c then on_kind k (entry_record_rdma_operation i c) s else s) l s) =
  op_counts_of s.
Proof.
  induction l as [|i l IH]; intros s; cbn; [done|]. rewrite IH. destruct (0 <? _); [|done].
  apply counts_on_kind. intros []. unfold entry_record_rdma_operation. by case_match.
Qed.

Lemma counts_end_operation n ok t :
  tracking_active_ t = true →
  op_counts_of (stats_ (end_operation n ok t)) = alter (bump n ok) (kind_idx (current_op_ t)) (op_counts_of (stats_ t)).
Proof.
  intros Ht. unfold end_operation. rewrite Ht. cbn [negb stats_].
  rewrite !counts_on_kind by (by intros []). rewrite counts_rdma_types, counts_on_kind by (by intros []).
  apply counts_record_operation.
Qed.

Lemma counts_record_result k n ok t :
  op_counts_of (stats_ (record_result k n ok t)) = alter (bump n ok) (kind_idx k) (op_counts_of (stats_ t)).
Proof. apply counts_record_operation. Qed.

Lemma counts_reset s : op_counts_of (stats_reset s) = map (λ _, (0, 0, hist [])) s.
Proof. unfold op_counts_of, stats_reset. rewrite map_map. done. Qed.

(** A measured operation: the kind that was drawn, its latency and its result. *)
Abbreviation Event := (OperationKind * Z * bool)%type.

(** ** A client *)
Section client.
Context {X : Type} (ix : KVIndex X) `{!AccountedIndex ix} `{!LoggedIndex ix}.
Context {G : Type} (next_int : Z → Z → G → Z * G) (next_real : G → double * G) (pow : double → double → double) (KEY_SIZE VALUE_SIZE : nat).
Abbreviation CL := (Client (G := G) (X := X)).

Definition client_obs (c : CL) := (c_index c, summary c, latencies c).

Lemma op_rng_inv {A} (m : M G A) (c : CL) a c' :
  on_op_rng m c = Done a c' → m (op_rng c) = Done a (op_rng c') ∧ client_obs c' = client_obs c.
Proof. unfold on_op_rng, zoom. destruct (m _); [by intros [= -> <-]|done]. Qed.
Lemma value_rng_inv {A} (m : M G A) (c : CL) a c' :
  on_value_rng m c = Done a c' → client_obs c' = client_obs c ∧ op_rng c' = op_rng c.
Proof. unfold on_value_rng, zoom. destruct (m _); [by intros [= -> <-]|done]. Qed.

Lemma alter_twice {A} (f g : A → A) i (l : list A) : alter f i (alter g i l) = alter (f ∘ g) i l.
Proof.
  apply list_eq. intros j. destruct (decide (j = i)) as [->|Hne].
  - rewrite !list_lookup_alter_eq. by destruct (l !! i).
  - by rewrite !list_lookup_alter_ne by done.
Qed.

(** What a recorded call of the kind [kind] does to the client. *)
Record called (kind : OperationKind) (ok : bool) (c c' : CL) : Prop := mkCalled {
  cd_summary : summary c' = summary c;
  cd_rng : op_rng c' = op_rng c;
  cd_clock : latencies c' = tl (latencies c);
  cd_calls : calls_of (c_index c') = calls_of (c_index c) ++ [(kind, ok)];
  cd_counts : ∀ t, tracker_of (c_index c) = Some t → ∃ t', tracker_of (c_index c') = Some t' ∧
    let x := hd 0 (latencies c) in op_counts_of (stats_ t') = alter (bump x ok ∘ bump x ok) (kind_idx kind) (op_counts_of (stats_ t))
}.

(** A recorded operation is counted twice, and in nothing else. *)
Lemma recorded_called kind (op : M X bool) (c : CL) ok c' :
  keeps (λ x, tally <$> tracker_of x) op → (∀ x b x', op x = Done b x' → calls_of x' = calls_of x ++ [(kind, b)]) →
  recorded ix kind op c = Done ok c' → called kind ok c c'.
Proof.
  intros Hop Hcl. unfold recorded. intros (u1 & c1 & H1 & H)%bind_inv.
  apply bind_inv in H as (b & c2 & H2 & H). apply bind_inv in H as (l & c3 & H3 & H).
  apply bind_inv in H as (u4 & c4 & H4 & H). apply bind_inv in H as (u5 & c5 & H5 & [= -> <-]).
  unfold on_index, zoom in *. injection H3 as Hx <-. cbn [c_index] in *.
  destruct (kv_record _ ix (begin_operation kind) (c_index c)) as [? x1|] eqn:E1; [|done]. injection H1 as _ <-. cbn [c_index] in *.
  destruct (op x1) as [? x2|] eqn:E2; [|done]. injection H2 as -> <-. cbn [c_index latencies] in *.
  destruct (kv_record _ ix (end_operation l ok) x2) as [? x3|] eqn:E3; [|done]. injection H4 as _ <-. cbn [c_index] in *.
  destruct (kv_record _ ix (record_result kind l ok) x3) as [? x4|] eqn:E4; [|done]. injection H5 as _ <-.
  split; cbn [c_index summary op_rng latencies]; [done..| |].
  { by rewrite (record_calls _ _ _ _ E4), (record_calls _ _ _ _ E3), (Hcl _ _ _ E2), (record_calls _ _ _ _ E1). }
  intros t Ht. apply record_tracker in E1, E3, E4. rewrite Ht in E1. cbn in E1.
  pose proof (Hop _ _ _ E2) as Hk. cbn in Hk. rewrite E1 in Hk. cbn in Hk.
  destruct (tracker_of x2) as [t2|]; [|done]. cbn in Hk, E3. rewrite E3 in E4. cbn in E4.
  injection Hk as Hcur Hact Hst. eexists _. split; [exact E4|]. cbv zeta. rewrite Hx.
  rewrite counts_record_result, counts_end_operation by done.
  rewrite Hcur, Hst. cbn [stats_ begin_operation current_op_].
  apply alter_twice.
Qed.

Lemma perform_put_called key value (c : CL) ok c' : perform_put ix key value c = Done ok c' → called Insert ok c c'.
Proof. apply recorded_called; [apply insert_tally|apply insert_calls]. Qed.

Lemma perform_get_called key (c : CL) ok c' : perform_get ix key c = Done ok c' → called Read ok c c'.
Proof.
  apply recorded_called; [apply keeps_bind; [apply read_tally|intros; apply keeps_ret]|].
  intros x b x' (v & x1 & H & [= <- <-])%bind_inv. by apply read_calls in H.
Qed.

(** The measured operations so far: puts and gets, the latencies of the ones that
    succeeded, and deletes. *)
Record Progress := mkProgress { puts : Z; put_latencies : list Z; gets_ : Z; get_latencies : list Z; dels : Z }.
Definition puts_ok (p : Progress) : Z := Z.of_nat (length (put_latencies p)).
Definition gets_ok (p : Progress) : Z := Z.of_nat (length (get_latencies p)).
Definition tried (p : Progress) : Z := puts p + gets_ p + dels p.

(** Every latency is sampled twice. *)
Definition twice (l : list Z) : list Z := concat (map (λ x, [x; x]) l).

Lemma hist_twice l x : Latency.add_sample x (Latency.add_sample x (hist (twice l))) = hist (twice (l ++ [x])).
Proof. unfold twice, hist. by rewrite map_app, concat_app, fold_left_app. Qed.

(** The entry of a kind with [n] operations, of which those with latencies [l] succeeded. *)
Definition op_counts (n : Z) (l : list Z) : Z * Z * Latency.HistogramLatencySampler :=
  (2 * Z.of_nat (length l), 2 * (n - Z.of_nat (length l)), hist (twice l)).

Definition add_latency (ok : bool) (x : Z) (l : list Z) : list Z := if ok then l ++ [x] else l.

Lemma bump_twice x ok n l : Z.of_nat (length l) ≤ n → 2 * (n + 1) < 2 ^ 64 →
  (bump x ok ∘ bump x ok) (op_counts n l) = op_counts (n + 1) (add_latency ok x l).
Proof.
  intros Hn H. unfold compose, bump, op_counts, add_latency. destruct ok; rewrite ?hist_twice, ?length_app; cbn [length].
  - rewrite (wrap_small 64 (2 * Z.of_nat (length l) + 1)) by (unfold in_width; lia).
    rewrite wrap_small by (unfold in_width; lia). apply (f_equal2 pair); [apply (f_equal2 pair); lia|done].
  - rewrite (wrap_small 64 (2 * (n - Z.of_nat (length l)) + 1)) by (unfold in_width; lia).
    rewrite wrap_small by (unfold in_width; lia). apply (f_equal2 pair); [apply (f_equal2 pair); lia|done].
Qed.

(** One more operation; an update is a put. *)
Definition performed (kind : OperationKind) (latency_ns : Z) (ok : bool) (p : Progress) : Progress :=
  match kind with
  | Read => mkProgress (puts p) (put_latencies p) (gets_ p + 1) (add_latency ok latency_ns (get_latencies p)) (dels p)
  | Delete => mkProgress (puts p) (put_latencies p) (gets_ p) (get_latencies p) (dels p + 1)
  | _ => mkProgress (puts p + 1) (add_latency ok latency_ns (put_latencies p)) (gets_ p) (get_latencies p) (dels p)
  end.

Definition progress_counts (p : Progress) : OpCounts :=
  [op_counts (puts p) (put_latencies p); op_counts (gets_ p) (get_latencies p); op_counts 0 []; op_counts 0 []].

Definition progress_range (p : Progress) : Prop := 0 ≤ puts_ok p ≤ puts p ∧ 0 ≤ gets_ok p ≤ gets_ p ∧ 0 ≤ dels p.

Record accounted (p : Progress) (c : CL) : Prop := mkAccounted {
  ac_range : progress_range p;
  ac_counts : ∃ t, tracker_of (c_index c) = Some t ∧ op_counts_of (stats_ t) = progress_counts p;
  ac_attempted : attempted (summary c) = tried p;
  ac_succeeded : succeeded (summary c) = puts_ok p + gets_ok p
}.

Lemma progress_counts_put x ok p : progress_range p → 2 * (tried p + 1) < 2 ^ 64 →
  alter (bump x ok ∘ bump x ok) 0%nat (progress_counts p) = progress_counts (performed Insert x ok p).
Proof.
  intros Hr Hb. unfold progress_range, tried, puts_ok, gets_ok in *. unfold progress_counts. cbn [alter list_alter].
  by rewrite bump_twice by lia.
Qed.
Lemma progress_counts_get x ok p : progress_range p → 2 * (tried p + 1) < 2 ^ 64 →
  alter (bump x ok ∘ bump x ok) 1%nat (progress_counts p) = progress_counts (performed Read x ok p).
Proof.
  intros Hr Hb. unfold progress_range, tried, puts_ok, gets_ok in *. unfold progress_counts. cbn [alter list_alter].
  by rewrite bump_twice by lia.
Qed.

(** ** The measured operations of a run *)

(** The call of the index it makes: an update is a put, a delete makes none. *)
Definition call_of (e : Event) : option (OperationKind * bool) :=
  let '(kind, _, ok) := e in match kind with Read => Some (Read, ok) | Delete => None | _ => Some (Insert, ok) end.
Definition latency_of (e : Event) : option Z := let '(kind, x, _) := e in match kind with Delete => None | _ => Some x end.

(** The next [n] latencies of the clock. *)
Fixpoint clock_readings (n : nat) (clock : list Z) : list Z :=
  match n with O => [] | S n' => hd 0 clock :: clock_readings n' (tl clock) end.

(** The kinds that the generator of a client draws for [n] operations. *)
Fixpoint draws fuel mix sampler space (n : nat) (g : G) : list OperationKind :=
  match n with
  | O => []
  | S n' => match (k ← weighted_pick next_real mix;
                   _ ← sample_key_from_global_space pow next_real next_int KEY_SIZE fuel sampler space; mret k) g with
            | Done k g' => k :: draws fuel mix sampler space n' g'
            | Fault _ _ => []
            end
  end.

Definition count_event (e : Event) (p : Progress) : Progress := performed e.1.1 e.1.2 e.2 p.
Definition progress_of (es : list Event) : Progress := foldl (flip count_event) (mkProgress 0 [] 0 [] 0) es.

(** What the operation [e] does to the calls, the clock and the statistics. *)
Record operated (e : Event) (c c' : CL) : Prop := mkOperated {
  od_summary : summary c' = summary c;
  od_rng : op_rng c' = op_rng c;
  od_delete : e.1.1 = Delete → e.2 = false;
  od_calls : calls_of (c_index c') = calls_of (c_index c) ++ option_list (call_of e);
  od_latency : latency_of e = match call_of e with Some _ => Some (hd 0 (latencies c)) | None => None end;
  od_clock : latencies c' = match call_of e with Some _ => tl (latencies c) | None => latencies c end;
  od_counts : ∀ t p, tracker_of (c_index c) = Some t → op_counts_of (stats_ t) = progress_counts p → progress_range p →
    2 * (tried p + 1) < 2 ^ 64 → ∃ t', tracker_of (c_index c') = Some t' ∧ op_counts_of (stats_ t') = progress_counts (count_event e p)
}.

Lemma called_put kind ok (c c' : CL) : kind ≠ Read → kind ≠ Delete → called Insert ok c c' → operated (kind, hd 0 (latencies c), ok) c c'.
Proof.
  intros H1 H2 [? ? ? ? H]. split; try done; try (by destruct kind). intros t p Ht Hc Hr Hb.
  destruct (H t Ht) as (t' & Ht' & Hc'). exists t'. split; [done|]. rewrite Hc', Hc. cbv zeta. rewrite progress_counts_put by done. by destruct kind.
Qed.
Lemma called_get ok (c c' : CL) : called Read ok c c' → operated (Read, hd 0 (latencies c), ok) c c'.
Proof.
  intros [? ? ? ? H]. split; try done. intros t p Ht Hc Hr Hb. destruct (H t Ht) as (t' & Ht' & Hc'). exists t'. split; [done|].
  rewrite Hc', Hc. cbv zeta. by rewrite progress_counts_get.
Qed.

Lemma operated_before e (c0 c c' : CL) : client_obs c = client_obs c0 → op_rng c = op_rng c0 → operated e c c' → operated e c0 c'.
Proof. intros [= H1 H2 H3] H4 []. rewrite H1, H2, H3, H4 in *. by split. Qed.

(** The operation of a step. *)
Lemma client_op_operated fuel desired key (c : CL) ok c' :
  (match desired with
   | Read => perform_get ix key
   | Delete => mret false
   | _ => value ← on_value_rng (generate_random_value next_int VALUE_SIZE fuel); perform_put ix key value
   end) c = Done ok c' →
  ∃ x, operated (desired, x, ok) c c'.
Proof.
  assert (∀ kind, kind ≠ Read → kind ≠ Delete →
    (value ← on_value_rng (generate_random_value next_int VALUE_SIZE fuel); perform_put ix key value) c = Done ok c' →
    ∃ x, operated (kind, x, ok) c c') as Hput.
  { intros kind Hk1 Hk2 (v & c2 & H2 & H)%bind_inv. apply value_rng_inv in H2 as [H2 R2]. apply perform_put_called in H.
    eexists. eapply operated_before; [exact H2|exact R2|]. by apply called_put. }
  destruct desired.
  - by apply Hput.
  - intros H%perform_get_called. eexists. by apply called_get.
  - by apply Hput.
  - intros [= <- <-]. exists 0. split; cbn; try done; [by rewrite app_nil_r|]. intros t p Ht Hc _ _. by exists t.
Qed.

Lemma performed_spec desired x ok p : progress_range p → (desired = Delete → ok = false) →
  let p' := performed desired x ok p in
  progress_range p' ∧ tried p' = tried p + 1 ∧ puts_ok p' + gets_ok p' = puts_ok p + gets_ok p + (if ok then 1 else 0).
Proof.
  intros Hr Hd. cbv zeta. unfold progress_range, tried, puts_ok, gets_ok in *.
  destruct desired; cbn [performed puts put_latencies gets_ get_latencies dels]; unfold add_latency;
    [destruct ok; rewrite ?length_app; cbn [length]; lia..|]. rewrite Hd by done. lia.
Qed.

(** What the operations [es] have done. *)
Record measured p (es : list Event) (c c' : CL) : Prop := mkMeasured {
  me_accounted : accounted (foldl (flip count_event) p es) c';
  me_tried : tried (foldl (flip count_event) p es) = tried p + Z.of_nat (length es);
  me_calls : calls_of (c_index c') = calls_of (c_index c) ++ omap call_of es;
  me_clock : omap latency_of es = clock_readings (length (omap call_of es)) (latencies c)
}.

Lemma client_step_measured fuel mix sampler space p c u c' :
  accounted p c → 2 * (tried p + 1) < 2 ^ 64 →
  client_step pow next_real next_int KEY_SIZE VALUE_SIZE ix fuel mix sampler space c = Done u c' →
  ∃ e, accounted (count_event e p) c' ∧ tried (count_event e p) = tried p + 1 ∧
    (∀ n, draws fuel mix sampler space (S n) (op_rng c) = e.1.1 :: draws fuel mix sampler space n (op_rng c')) ∧
    calls_of (c_index c') = calls_of (c_index c) ++ option_list (call_of e) ∧
    latency_of e = (match call_of e with Some _ => Some (hd 0 (latencies c)) | None => None end) ∧
    latencies c' = match call_of e with Some _ => tl (latencies c) | None => latencies c end.
Proof.
  intros [Hr (t & Ht & Hc) Ha Hs] Hb. unfold client_step.
  intros (desired & c1 & H1 & H)%bind_inv. apply bind_inv in H as (key & c2 & H2 & H).
  apply bind_inv in H as (ok & c3 & H3 & [= _ <-]).
  apply op_rng_inv in H1 as [G1 [= X1 S1 L1]]. apply op_rng_inv in H2 as [G2 [= X2 S2 L2]].
  rewrite X1 in X2. rewrite S1 in S2. rewrite L1 in L2. rewrite <-X2 in Ht.
  destruct (client_op_operated _ _ _ _ _ _ H3) as (x & [O1 O2 O3 O4 O5 O6 O7]). rewrite ?X2, ?S2, ?L2 in *.
  destruct (O7 t p Ht Hc Hr Hb) as (t' & Ht' & Hc').
  destruct (performed_spec desired x ok p Hr O3) as (Hr' & Htr & Hok).
  assert (∀ n, draws fuel mix sampler space (S n) (op_rng c) = desired :: draws fuel mix sampler space n (op_rng c3)) as Hdr.
  { intros n. cbn [draws]. erewrite bind_done by exact G1. erewrite bind_done by exact G2. cbn. by rewrite O2. }
  exists (desired, x, ok). split; [|split; [exact Htr|split; [exact Hdr|by split_and!]]].
  unfold progress_range, tried in *.
  split; cbn [on_summary modify c_index summary count_result attempted succeeded]; [done|by exists t'| |].
  - rewrite O1, Ha, wrap_small by (unfold in_width; lia). done.
  - rewrite O1, Hs. rewrite wrap_small by (unfold in_width; lia). change (count_event (desired, x, ok) p) with (performed desired x ok p). destruct ok; lia.
Qed.

Lemma client_loop_measured fuel mix sampler space elapsed n : ∀ p c u c',
  accounted p c → 2 * (tried p + Z.of_nat n) < 2 ^ 64 →
  client_loop n (client_step pow next_real next_int KEY_SIZE VALUE_SIZE ix fuel mix sampler space) elapsed c = Done u c' →
  ∃ es, measured p es c c' ∧ map (λ e : Event, e.1.1) es = draws fuel mix sampler space n (op_rng c) ∧ length es = n.
Proof.
  induction n as [|n IH]; intros p c u c' Hac Hb; cbn [client_loop].
  - intros [= _ <-]. exists []. split; [|done]. split; cbn; [|lia|by rewrite app_nil_r|done]. destruct Hac as [Hr Hc Ha Hs].
    unfold finish_summary. split; cbn [c_index summary]; [done..| |]; by case_match.
  - intros (u1 & c1 & H1 & H)%bind_inv.
    destruct (client_step_measured _ _ _ _ _ _ _ _ Hac ltac:(lia) H1) as (e & Hac1 & Hp1 & Hdr & Hcl & Hla & Hck).
    destruct (IH _ c1 u c' Hac1 ltac:(lia) H) as (es & [M1 M2 M3 M4] & Hd & Hn). exists (e :: es). split; [|split; [|cbn; lia]].
    + split; [done| |rewrite M3, Hcl, <-app_assoc|]; cbn [foldl flip length omap list_omap].
      * rewrite M2. lia.
      * by destruct (call_of e).
      * rewrite Hla. destruct (call_of e); cbn [length clock_readings]; rewrite M4, Hck; done.
    + cbn [map]. by rewrite Hdr, Hd.
Qed.

(** The warm-up: it puts, and leaves no trace in the statistics. *)
Lemma warmup_called fuel n : ∀ key (c : CL) u c' t,
  tracker_of (c_index c) = Some t → length (stats_ t) = 4%nat →
  warmup next_int VALUE_SIZE ix fuel n key c = Done u c' →
  summary c' = summary c ∧ op_rng c' = op_rng c ∧ latencies c' = drop n (latencies c) ∧
  (∃ warm, calls_of (c_index c') = calls_of (c_index c) ++ warm ∧ length warm = n ∧ Forall (λ e, e.1 = Insert) warm) ∧
  ∃ t', tracker_of (c_index c') = Some t' ∧ op_counts_of (stats_ t') = progress_counts (mkProgress 0 [] 0 [] 0).
Proof.
  induction n as [|n IH]; intros key c u c' t Ht Hl; cbn [warmup].
  - unfold on_index, zoom. destruct (kv_record _ ix _ _) as [? x|] eqn:E; [|done]. intros [= _ <-]. do 3 (split; [done|]).
    split; [exists []; cbn [c_index]; by rewrite app_nil_r, (record_calls _ _ _ _ E)|].
    apply record_tracker in E. rewrite Ht in E. eexists. split; [exact E|]. cbn [with_stats stats_].
    rewrite counts_reset. destruct (stats_ t) as [|? [|? [|? [|? [|? ?]]]]]; done.
  - intros (v & c1 & H1 & H)%bind_inv. apply bind_inv in H as (ok & c2 & H2 & H).
    apply value_rng_inv in H1 as [[= X1 S1 L1] R1]. rewrite <-X1 in Ht.
    destruct (perform_put_called _ _ _ _ _ H2) as [S2 R2 L2 C2 N2]. destruct (N2 t Ht) as (t2 & Ht2 & Hc2).
    assert (length (stats_ t2) = 4%nat) as Hl2.
    { apply (f_equal length) in Hc2. rewrite length_alter in Hc2. unfold op_counts_of in Hc2. by rewrite !length_map, Hl in Hc2. }
    destruct (IH _ _ _ _ _ Ht2 Hl2 H) as (Hs & Hg & Hck & (warm & Hw & Hn & Hi) & Hrest). rewrite Hs, S2, S1, Hg, R2, R1, Hck, L2, L1.
    split; [done|]. split; [done|]. split; [by destruct (latencies c); [apply drop_nil|]|]. split; [|done].
    exists ((Insert, ok) :: warm). rewrite Hw, C2, X1, <-app_assoc. split; [done|]. split; [cbn; lia|by constructor].
Qed.

Lemma run_measured fuel nwarm key mix sampler space elapsed n (c : CL) u c' t :
  tracker_of (c_index c) = Some t → length (stats_ t) = 4%nat → summary c = summary_init → 2 * Z.of_nat n < 2 ^ 64 →
  (_ ← warmup next_int VALUE_SIZE ix fuel nwarm key;
   client_loop n (client_step pow next_real next_int KEY_SIZE VALUE_SIZE ix fuel mix sampler space) elapsed) c = Done u c' →
  ∃ warm es, calls_of (c_index c') = calls_of (c_index c) ++ warm ++ omap call_of es ∧
    length warm = nwarm ∧ Forall (λ e, e.1 = Insert) warm ∧
    map (λ e : Event, e.1.1) es = draws fuel mix sampler space n (op_rng c) ∧ length es = n ∧
    omap latency_of es = clock_readings (length (omap call_of es)) (drop nwarm (latencies c)) ∧
    accounted (progress_of es) c' ∧ tried (progress_of es) = Z.of_nat n.
Proof.
  intros Ht Hl Hs Hb (u1 & c1 & H1 & H)%bind_inv.
  destruct (warmup_called _ _ _ _ _ _ _ Ht Hl H1) as (Hs1 & Hg1 & Hck1 & (warm & Hw & Hnw & Hi) & Hc1).
  assert (accounted (mkProgress 0 [] 0 [] 0) c1) as Hac
    by (split; [unfold progress_range, puts_ok, gets_ok; cbn; lia|done|by rewrite Hs1, Hs..]).
  destruct (client_loop_measured _ _ _ _ _ _ _ _ _ _ Hac Hb H) as (es & [M1 M2 M3 M4] & Hd & Hn).
  exists warm, es. rewrite M3, Hw, <-app_assoc, Hd, Hg1, <-Hck1. split_and!; try done. rewrite <-Hn. exact M2.
Qed.
End client.

(** ** A client on an index and on the same index with a log *)
Section logged.
Context {X : Type} (ix : KVIndex X).
Context {G : Type} (next_int : Z → Z → G → Z * G) (next_real : G → double * G) (pow : double → double → double) (KEY_SIZE VALUE_SIZE : nat).
Abbreviation CL := (Client (G := G) (X := X)).
Abbreviation LCL := (Client (G := G) (X := X * Log)).

Definition with_log (lg : Log) (c : CL) : LCL := mkClient (c_index c, lg) (op_rng c) (value_rng c) (latencies c) (summary c).

(** [m'] does what [m] does, whatever is in the log. *)
Definition mirrors {A} (m : M CL A) (m' : M LCL A) : Prop :=
  ∀ c a c', m c = Done a c' → ∀ lg, ∃ lg', m' (with_log lg c) = Done a (with_log lg' c').

Lemma mirrors_bind {A B} (m : M CL A) m' (k : A → M CL B) k' :
  mirrors m m' → (∀ a, mirrors (k a) (k' a)) → mirrors (m ≫= k) (m' ≫= k').
Proof.
  intros Hm Hk c b c' (a & c1 & H1 & H2)%bind_inv lg. destruct (Hm _ _ _ H1 lg) as (lg1 & H1').
  destruct (Hk _ _ _ _ H2 lg1) as (lg2 & H2'). exists lg2. by erewrite bind_done by exact H1'.
Qed.
Lemma mirrors_ret {A} (a : A) : mirrors (mret a) (mret a).
Proof. intros c b c' [= <- <-] lg. by exists lg. Qed.
Lemma mirrors_op_rng {A} (m : M G A) : mirrors (on_op_rng m) (on_op_rng m).
Proof. intros c a c'. unfold on_op_rng, zoom. cbn. destruct (m _); [|done]. intros [= <- <-] lg. by exists lg. Qed.
Lemma mirrors_value_rng {A} (m : M G A) : mirrors (on_value_rng m) (on_value_rng m).
Proof. intros c a c'. unfold on_value_rng, zoom. cbn. destruct (m _); [|done]. intros [= <- <-] lg. by exists lg. Qed.
Lemma mirrors_latency : mirrors latency latency.
Proof. intros c a c' [= <- <-] lg. by exists lg. Qed.
Lemma mirrors_summary f : mirrors (on_summary f) (on_summary f).
Proof. intros c a c' [= <- <-] lg. by exists lg. Qed.
Lemma mirrors_record f : mirrors (on_index (kv_record _ ix f)) (on_index (kv_record _ (log_index ix) f)).
Proof. intros c a c'. unfold on_index, zoom. cbn. unfold zoom. cbn. destruct (kv_record _ ix f _); [|done]. intros [= <- <-] lg. by exists lg. Qed.
Lemma mirrors_logging {A} e (m : M X A) : mirrors (on_index m) (on_index (logging e m)).
Proof. intros c a c'. unfold on_index, zoom, logging. cbn. destruct (m _); [|done]. intros [= <- <-] lg. by eexists. Qed.

Lemma mirrors_put key value : mirrors (perform_put ix key value) (perform_put (log_index ix) key value).
Proof.
  unfold perform_put, recorded. repeat (apply mirrors_bind; [|intros ?]); auto using mirrors_ret, mirrors_record, mirrors_latency.
  apply (mirrors_logging (pair Insert)).
Qed.
Lemma mirrors_get key : mirrors (perform_get ix key) (perform_get (log_index ix) key).
Proof.
  unfold perform_get, recorded. repeat (apply mirrors_bind; [|intros ?]); auto using mirrors_ret, mirrors_record, mirrors_latency.
  intros c1 b1 c1'. unfold on_index, zoom, mbind, M_bind. cbn. unfold logging. cbn.
  destruct (kv_read _ ix _ _); [|done]. intros [= <- <-] lg. by eexists.
Qed.
Lemma mirrors_warmup fuel n : ∀ key, mirrors (warmup next_int VALUE_SIZE ix fuel n key) (warmup next_int VALUE_SIZE (log_index ix) fuel n key).
Proof.
  induction n as [|n IH]; intros key; cbn [warmup]; [apply mirrors_record|].
  apply mirrors_bind; [apply mirrors_value_rng|intros v]. apply mirrors_bind; [apply mirrors_put|intros _]. apply IH.
Qed.
Lemma mirrors_step fuel mix sampler space :
  mirrors (client_step pow next_real next_int KEY_SIZE VALUE_SIZE ix fuel mix sampler space)
    (client_step pow next_real next_int KEY_SIZE VALUE_SIZE (log_index ix) fuel mix sampler space).
Proof.
  unfold client_step. apply mirrors_bind; [apply mirrors_op_rng|intros desired]. apply mirrors_bind; [apply mirrors_op_rng|intros key].
  apply mirrors_bind; [|intros ok; apply mirrors_summary].
  destruct desired; [|apply mirrors_get| |apply mirrors_ret]; (apply mirrors_bind; [apply mirrors_value_rng|intros v; apply mirrors_put]).
Qed.
Lemma mirrors_loop n step step' elapsed : mirrors step step' → mirrors (client_loop n step elapsed) (client_loop n step' elapsed).
Proof. intros Hs. induction n as [|n IH]; cbn [client_loop]; [apply mirrors_summary|]. by apply mirrors_bind. Qed.

(** A run of a client: the warm-up and the measured loop. *)
Definition client_run {Y} (iy : KVIndex Y) fuel nwarm key mix sampler space elapsed n : M (Client (G := G) (X := Y)) unit :=
  _ ← warmup next_int VALUE_SIZE iy fuel nwarm key;
  client_loop n (client_step pow next_real next_int KEY_SIZE VALUE_SIZE iy fuel mix sampler space) elapsed.

Lemma run_logged fuel nwarm key mix sampler space elapsed n :
  mirrors (client_run ix fuel nwarm key mix sampler space elapsed n) (client_run (log_index ix) fuel nwarm key mix sampler space elapsed n).
Proof. apply mirrors_bind; [apply mirrors_warmup|]. intros _. apply mirrors_loop, mirrors_step. Qed.

(** C10: the counts of a whole run.  Take any run of a client on an index, of either
    kind: the warm-up and then [n] measured operations.  The same run on the index with a
    log goes the same way, and the log holds the calls of the index that were really
    made: [nwarm] inserts of the warm-up, and then the calls of the measured operations
    [es].  These have the [n] kinds the generator of the client draws, in order (an
    insert or an update calls [insert], a read calls [read], a delete calls nothing),
    with the results the index gave and the latencies the clock gave.  The summary and
    the statistics of the thread then agree with [es]: the summary counts the [n]
    attempts and the successes; every call of [insert] and every call of [read] is
    counted exactly twice among the successes or failures of the entry of its kind (once
    by the tracker, once by the recorder) and its latency is sampled twice if it
    succeeded; the warm-up left nothing; updates and deletes are never counted. *)
Theorem client_run_accounting `{!AccountedIndex ix} fuel nwarm key mix sampler space elapsed n (c : CL) u c' t :
  tracker_of (c_index c) = Some t → length (stats_ t) = 4%nat → summary c = summary_init → 2 * Z.of_nat n < 2 ^ 64 →
  client_run ix fuel nwarm key mix sampler space elapsed n c = Done u c' →
  ∃ warm es,
    client_run (log_index ix) fuel nwarm key mix sampler space elapsed n (with_log [] c) = Done u (with_log (warm ++ omap call_of es) c') ∧
    length warm = nwarm ∧ Forall (λ e, e.1 = Insert) warm ∧
    map (λ e : Event, e.1.1) es = draws next_int next_real pow KEY_SIZE fuel mix sampler space n (op_rng c) ∧ length es = n ∧
    omap latency_of es = clock_readings (length (omap call_of es)) (drop nwarm (latencies c)) ∧
    accounted ix (progress_of es) c'.
Proof.
  intros Ht Hl Hs Hb Hrun. destruct (run_logged _ _ _ _ _ _ _ _ _ _ _ Hrun []) as (lg & Hlog).
  destruct (run_measured (log_index ix) (AccountedIndex0 := log_accounted ix) next_int next_real pow KEY_SIZE VALUE_SIZE fuel nwarm key mix sampler space elapsed n
    (with_log [] c) u (with_log lg c') t Ht Hl Hs Hb Hlog)
    as (warm & es & H1 & H2 & H3 & H4 & H5 & H6 & [A1 A2 A3 A4] & _).
  cbn in H1. subst lg. exists warm, es. by split_and!.
Qed.
End logged.

(** ** A run on the Sherman index *)
Section demo.
#[local] Existing Instances demo_cfg small_cfg.

Definition demo_mix : double * double * double := (dlit 1 2, dlit 1 4, dlit 1 4).
Definition demo_quarter (g : Z) : double * Z := (dlit (g mod 4) 4, g + 1).
Abbreviation demo_kv := (sherman_kv (Q := fifo) (C := page_cache) (Ent := nat * (Z * Z)) 20 3 10).
Definition demo_client (w : SWorld (Q := fifo) (C := page_cache)) : Client (G := Z) := mkClient w 0 3 [] summary_init.
(** One operation of warm-up and four measured ones: two puts, a get and a delete. *)
Definition demo_client_run {Y} (iy : KVIndex Y) : M (Client (G := Z) (X := Y)) unit :=
  client_run demo_int demo_quarter demo_pow KEY_SIZE VALUE_SIZE iy 20 1 (first_warmup_key KEY_SIZE 0 7) demo_mix
    (client_sampler demo_pow (mkDist Uniform 100 (dlit 1 2))) 100 (of_size 1) 4.

Lemma client_run_accounting_witness :
  ∃ w c' warm es, splain_world = Some w ∧ demo_client_run demo_kv (demo_client w) = Done tt c' ∧
    demo_client_run (log_index demo_kv) (with_log [] (demo_client w)) = Done tt (with_log (warm ++ omap call_of es) c') ∧
    length warm = 1%nat ∧ length es = 4%nat ∧ accounted demo_kv (progress_of es) c'.
Proof.
  assert (match splain_world with
          | Some w => match demo_client_run demo_kv (demo_client w), thread_stats_tracker_ (mgr (w_net (kv w))) with
                      | Done _ _, Some t => (length (stats_ t) =? 4)%nat | _, _ => false end
          | None => false end = true) as H by (vm_compute; reflexivity).
  destruct splain_world as [w|]; [|discriminate]. exists w.
  destruct (demo_client_run demo_kv (demo_client w)) as [[] c'|] eqn:Hrun; [|discriminate].
  destruct (thread_stats_tracker_ (mgr (w_net (kv w)))) as [t|] eqn:Ht; [|discriminate].
  destruct (client_run_accounting demo_kv demo_int demo_quarter demo_pow KEY_SIZE VALUE_SIZE 20 1 (first_warmup_key KEY_SIZE 0 7) demo_mix
    (client_sampler demo_pow (mkDist Uniform 100 (dlit 1 2))) 100 (of_size 1) 4 (demo_client w) tt c' t)
    as (warm & es & H1 & H2 & _ & _ & H3 & _ & H4); [exact Ht|by apply Nat.eqb_eq|reflexivity|reflexivity|exact Hrun|].
  exists c', warm, es. split; [reflexivity|]. split; [reflexivity|]. split; [exact H1|]. split; [exact H2|]. split; [exact H3|exact H4].
Defined.
End demo.
