(* ===== verification/Report.v ===== *)
(** * The report of the benchmark program (src/apps/kv_test.cpp, [main] after the
    threads have joined; the names of operations of src/util/benchmark.hpp)

    What [main] computes from the statistics of the threads: the totals of the
    operations, cache accesses and local locks, the merged latency histograms with
    their percentiles, the merged histograms of the RDMA metrics, and the throughput.
    [std::cout] and the JSON files get these values; their text is not modelled.

    A thread is its [ThreadStats] and its [WorkerSummary], which the program keeps in
    two arrays indexed by server and thread.  The theorems: the totals agree with what
    the clients did, and merging histograms of threads gives the histogram of all
    their samples. *)

From stdpp Require Import strings.
From Stdlib Require Import QArith SpecFloat.
From S2P Require Import Prelude GlobalAddress ArrayVar RdmaSim ThreadStats Percentiles Workload Tally.
Local Open Scope Z_scope.

Definition operation_name (kind : OperationKind) : string :=
  match kind with Insert => "insert" | Read => "read" | Update => "update" | Delete => "delete" end.
(** [operation_name(size_t)]; an index that is no operation is [unknown]. *)
Definition operation_name_idx (idx : nat) : string :=
  match idx with 0 => operation_name Insert | 1 => operation_name Read | 2 => operation_name Update | 3 => operation_name Delete
  | _ => "unknown" end%nat.

Record Thread := mkThread { th_stats : list OperationEntry; th_summary : WorkerSummary }.
Abbreviation Servers := (list (list Thread)).

#[global] Instance entry_inhabited : Inhabited OperationEntry := populate entry_init.
Definition per_op (k : OperationKind) (s : list OperationEntry) : OperationEntry := s !!! kind_idx k.

(** The two nested loops over the servers and their threads. *)
Definition over {A B} (f : A → B → A) (servers : list (list B)) (acc : A) : A :=
  fold_left (λ a threads, fold_left f threads a) servers acc.

(** ** Totals of the operations *)

Record Totals := mkTotals {
  total_attempted : Z; total_succeeded : Z;
  sum_attempted_throughput : double; sum_succeeded_throughput : double;
  total_insert_count : Z; total_read_count : Z; total_update_count : Z; total_delete_count : Z
}.
Definition totals_init : Totals := mkTotals 0 0 (of_size 0) (of_size 0) 0 0 0 0.

(** [total_x_count += entry.successes + entry.failures] *)
Definition add_count (k : OperationKind) (s : list OperationEntry) (total : Z) : Z :=
  u64 (total + u64 (successes (per_op k s) + failures (per_op k s))).

Definition add_thread (t : Totals) (th : Thread) : Totals :=
  let summary := th_summary th in
  mkTotals (u64 (total_attempted t + attempted summary)) (u64 (total_succeeded t + succeeded summary))
    (dadd (sum_attempted_throughput t) (attempted_throughput summary))
    (dadd (sum_succeeded_throughput t) (succeeded_throughput summary))
    (add_count Insert (th_stats th) (total_insert_count t)) (add_count Read (th_stats th) (total_read_count t))
    (add_count Update (th_stats th) (total_update_count t)) (add_count Delete (th_stats th) (total_delete_count t)).

Definition collect_totals (compute_servers : Servers) : Totals :=
  over add_thread compute_servers totals_init.

(** [count / elapsed], and 0 when no time has passed. *)
Definition throughput (elapsed_seconds : double) (n : Z) : double :=
  if SFltb (of_size 0) elapsed_seconds then ddiv (of_size n) elapsed_seconds else of_size 0.

(** ** Cache and lock totals *)

Definition add_cache (acc : Z * Z) (s : list OperationEntry) : Z * Z :=
  fold_left (λ a e, (u64 (a.1 + CacheStats.hits_ (cache_stats e)), u64 (a.2 + CacheStats.misses_ (cache_stats e)))) s acc.

Definition cache_totals (compute_servers : Servers) (maintenance : list (list (list OperationEntry))) : Z * Z :=
  over add_cache maintenance
    (over (λ a th, add_cache a (th_stats th)) compute_servers (0, 0)).

Definition overall_hit_rate (c : Z * Z) : double :=
  if u64 (c.1 + c.2) =? 0 then of_size 0 else ddiv (of_size c.1) (of_size (u64 (c.1 + c.2))).

Definition add_locks (acc : Z * Z) (s : list OperationEntry) : Z * Z :=
  fold_left (λ a e, (u64 (a.1 + local_lock_acquisitions e), u64 (a.2 + local_lock_handovers e))) s acc.

Definition handover_rate (c : Z * Z) : double :=
  if 0 <? c.1 then ddiv (of_size c.2) (of_size c.1) else of_size 0.

(** The line of a server: its acquisitions and hand-overs, and their rate. *)
Definition server_locks (threads : list (list OperationEntry)) : Z * Z := fold_left add_locks threads (0, 0).
Definition lock_line (threads : list (list OperationEntry)) : Z * Z * double :=
  let c := server_locks threads in (c, handover_rate c).

Definition add_server_locks (acc : Z * Z) (threads : list (list OperationEntry)) : Z * Z :=
  let c := server_locks threads in (u64 (acc.1 + c.1), u64 (acc.2 + c.2)).

Definition lock_totals (compute_servers : Servers) (maintenance : list (list (list OperationEntry))) : Z * Z :=
  fold_left add_server_locks maintenance
    (fold_left (λ a ths, add_server_locks a (map th_stats ths)) compute_servers (0, 0)).

(** ** Merged latencies *)

(** Replays the histogram of a thread, bucket by bucket, into the merged one. *)
Definition merge_latency (merged h : Latency.HistogramLatencySampler) : Latency.HistogramLatencySampler :=
  fold_left (λ m b, Nat.iter (Z.to_nat b.2) (Latency.add_sample b.1) m) (get_histogram h) merged.

Definition merge_threads (k : OperationKind) (merged : Latency.HistogramLatencySampler) (compute_servers : Servers) :=
  over (λ m th, merge_latency m (latency_samples (per_op k (th_stats th)))) compute_servers merged.

Definition count_samples (k : OperationKind) (compute_servers : Servers) : Z :=
  over (λ n th, u64 (n + Latency.sample_count (latency_samples (per_op k (th_stats th))))) compute_servers 0.

Record AggregatedOpStats := mkAgg {
  agg_successes : Z; agg_failures : Z;
  p50_latency : reading; p95_latency : reading; p99_latency : reading; agg_sample_count : Z
}.
Definition agg_init : AggregatedOpStats := mkAgg 0 0 (Num 0) (Num 0) (Num 0) 0.

(** A thread whose JSON file cannot be opened ([opened] false) is left out of the
    sums: the [continue] skips them. *)
Definition agg_thread (opened : bool) (k : OperationKind) (a : AggregatedOpStats) (th : Thread) : AggregatedOpStats :=
  if opened then
    let e := per_op k (th_stats th) in
    mkAgg (u64 (agg_successes a + successes e)) (u64 (agg_failures a + failures e))
      (p50_latency a) (p95_latency a) (p99_latency a) (agg_sample_count a)
  else a.

Definition agg_counts (opened : nat → nat → bool) (k : OperationKind) (compute_servers : Servers) : AggregatedOpStats :=
  fold_left (λ a '(cs_id, ths),
    fold_left (λ a '(tid, th), agg_thread (opened cs_id tid) k a th) (imap pair ths) a)
    (imap pair compute_servers) agg_init.

Definition op_total (opened : nat → nat → bool) (k : OperationKind) (compute_servers : Servers) : AggregatedOpStats :=
  let a := agg_counts opened k compute_servers in
  let total_sample_count := count_samples k compute_servers in
  if 0 <? total_sample_count then
    let '(p50, p95, p99) := calculate_standard_percentiles (merge_threads k Latency.init compute_servers) in
    mkAgg (agg_successes a) (agg_failures a) p50 p95 p99 total_sample_count
  else a.

(** ** Latencies over all operations *)

Definition all_kinds : list OperationKind := [Insert; Read; Update; Delete].

Record GlobalLatency := mkGlobal {
  global_successes : Z; global_failures : Z; global_sample_count : Z;
  global_percentiles : option (reading * reading * reading)
}.

(** [null] when there is no sample. *)
Definition global_latency (opened : nat → nat → bool) (compute_servers : Servers) : GlobalLatency :=
  let op_totals := map (λ k, op_total opened k compute_servers) all_kinds in
  let n := fold_left (λ n a, u64 (n + agg_sample_count a)) op_totals 0 in
  let merged := fold_left (λ m k, merge_threads k m compute_servers) all_kinds Latency.init in
  mkGlobal (fold_left (λ n a, u64 (n + agg_successes a)) op_totals 0)
    (fold_left (λ n a, u64 (n + agg_failures a)) op_totals 0) n
    (if 0 <? n then Some (calculate_standard_percentiles merged) else None).

(** ** RDMA metrics *)

Definition merge_discrete (merged h : Discrete.DiscreteHistogram) : Discrete.DiscreteHistogram :=
  fold_left (λ m i, Nat.iter (Z.to_nat (Discrete.get_count (Z.of_nat i) h)) (Discrete.record (Z.of_nat i)) m)
    (seq 0 256) merged.

Definition merge_bytes (merged h : LogBytes.LogarithmicByteHistogram) : LogBytes.LogarithmicByteHistogram :=
  fold_left (λ m b, Nat.iter (Z.to_nat b.2) (LogBytes.record b.1) m) (LogBytes.get_distribution h) merged.

Record RdmaMetrics := mkMetrics {
  rtt_histogram : Discrete.DiscreteHistogram;
  rdma_op_histograms : list Discrete.DiscreteHistogram;
  bytes_read_histogram : LogBytes.LogarithmicByteHistogram;
  bytes_written_histogram : LogBytes.LogarithmicByteHistogram;
  retry_histogram : Discrete.DiscreteHistogram;
  metrics_cache : CacheStats.t
}.
Definition metrics_init : RdmaMetrics :=
  mkMetrics Discrete.init (replicate 4 Discrete.init) LogBytes.init LogBytes.init Discrete.init CacheStats.init.

(** The cache counts are placeholders: a hit and a miss for every thread. *)
Definition add_metrics (m : RdmaMetrics) (e : OperationEntry) : RdmaMetrics :=
  mkMetrics (merge_discrete (rtt_histogram m) (rtt_counts_per_op e))
    (zip_with merge_discrete (rdma_op_histograms m) (rdma_op_counts_per_op e))
    (merge_bytes (bytes_read_histogram m) (bytes_read_per_op e))
    (merge_bytes (bytes_written_histogram m) (bytes_written_per_op e))
    (merge_discrete (retry_histogram m) (retry_counts_per_op e))
    (CacheStats.record_miss (CacheStats.record_hit (metrics_cache m))).

Definition rdma_metrics (k : OperationKind) (compute_servers : Servers) : RdmaMetrics :=
  over (λ m th, add_metrics m (per_op k (th_stats th))) compute_servers metrics_init.

(** ** Loops over all threads *)

Lemma over_concat {A B} (f : A → B → A) ss : ∀ a, over f ss a = fold_left f (concat ss) a.
Proof.
  unfold over. induction ss as [|s ss IH]; intros a; cbn [fold_left concat]; [done|]. by rewrite fold_left_app, IH.
Qed.

(** A 64-bit sum. *)
Lemma fold_sum {A} (g : A → Z) l : ∀ a,
  in_width 64 a → fold_left (λ a x, u64 (a + g x)) l a = u64 (a + sum_list (map g l)).
Proof.
  induction l as [|x l IH]; intros a Ha; cbn [fold_left map sum_list].
  - by rewrite Z.add_0_r, wrap_small.
  - rewrite IH by (by apply wrap_in_width). rewrite wrap_add_l. f_equal. lia.
Qed.

Lemma fold_sum_0 {A} (g : A → Z) l n :
  sum_list (map g l) = n → in_width 64 n → fold_left (λ a x, u64 (a + g x)) l 0 = n.
Proof. intros <- Hn. rewrite fold_sum by (unfold in_width; lia). by apply wrap_small. Qed.

Lemma totals_fields l : ∀ t,
  total_attempted (fold_left add_thread l t) = fold_left (λ a th, u64 (a + attempted (th_summary th))) l (total_attempted t) ∧
  total_succeeded (fold_left add_thread l t) = fold_left (λ a th, u64 (a + succeeded (th_summary th))) l (total_succeeded t) ∧
  total_insert_count (fold_left add_thread l t) = fold_left (λ a th, add_count Insert (th_stats th) a) l (total_insert_count t) ∧
  total_read_count (fold_left add_thread l t) = fold_left (λ a th, add_count Read (th_stats th) a) l (total_read_count t) ∧
  total_update_count (fold_left add_thread l t) = fold_left (λ a th, add_count Update (th_stats th) a) l (total_update_count t) ∧
  total_delete_count (fold_left add_thread l t) = fold_left (λ a th, add_count Delete (th_stats th) a) l (total_delete_count t).
Proof. induction l as [|th l IH]; intros t; cbn [fold_left]; [done|]. apply (IH (add_thread t th)). Qed.

(** ** The totals are what the clients did *)

(** The statistics and the summary of a client after its run. *)
Definition thread_accounted (p : Progress) (th : Thread) : Prop :=
  progress_range p ∧ op_counts_of (th_stats th) = progress_counts p ∧
  attempted (th_summary th) = tried p ∧ succeeded (th_summary th) = puts_ok p + gets_ok p.

(** What the run of a client leaves is accounted. *)
Lemma accounted_thread {X G} (ix : KVIndex X) `{!AccountedIndex ix} p (c : Client (G := G) (X := X)) t :
  accounted ix p c → tracker_of (c_index c) = Some t → thread_accounted p (mkThread (stats_ t) (summary c)).
Proof.
  intros [Hr (t' & Ht' & Hc) Ha Hs] Ht. rewrite Ht in Ht'. injection Ht' as <-. by split_and!.
Qed.

(** The latencies of the successful operations of a kind. *)
Definition latencies (k : OperationKind) (p : Progress) : list Z :=
  match k with Insert => put_latencies p | Read => get_latencies p | _ => [] end.

Lemma op_counts_per_op k p s : op_counts_of s = progress_counts p →
  successes (per_op k s) = match k with Insert => 2 * puts_ok p | Read => 2 * gets_ok p | _ => 0 end ∧
  failures (per_op k s) = match k with Insert => 2 * (puts p - puts_ok p) | Read => 2 * (gets_ p - gets_ok p) | _ => 0 end ∧
  latency_samples (per_op k s) = hist (twice (latencies k p)).
Proof.
  unfold op_counts_of, progress_counts, op_of, op_counts, latencies. destruct s as [|e0 [|e1 [|e2 [|e3 [|]]]]]; try done.
  cbn [map]. intros [= H0 H0' L0 H1 H1' L1 H2 H2' L2 H3 H3' L3]. by destruct k.
Qed.

Definition sum_of (f : Progress → Z) (ps : list Progress) : Z := sum_list (map f ps).

Lemma Forall2_sum (f : Progress → Z) (g : Thread → Z) ps ths :
  Forall2 thread_accounted ps ths → (∀ p th, thread_accounted p th → g th = f p) → sum_list (map g ths) = sum_of f ps.
Proof.
  intros H Hg. unfold sum_of. induction H as [|p th ps ths Hp H IH]; cbn [map sum_list]; [done|]. by rewrite IH, (Hg _ _ Hp).
Qed.

Lemma sum_of_bounds (f : Progress → Z) ps :
  Forall progress_range ps → (∀ p, progress_range p → 0 ≤ f p ≤ tried p) → 0 ≤ sum_of f ps ≤ sum_of tried ps.
Proof.
  intros H Hf. unfold sum_of. induction H as [|p ps Hp H IH]; cbn [map sum_list]; [lia|]. specialize (Hf p Hp). lia.
Qed.

Lemma sum_of_plus (f g h : Progress → Z) ps : (∀ p, f p = g p + h p) → sum_of f ps = sum_of g ps + sum_of h ps.
Proof. intros H. unfold sum_of. induction ps as [|p ps IH]; cbn [map sum_list]; [done|]. rewrite IH, H. lia. Qed.

Lemma sum_of_twice (f : Progress → Z) ps : sum_of (λ p, 2 * f p) ps = 2 * sum_of f ps.
Proof. unfold sum_of. induction ps as [|p ps IH]; cbn [map sum_list]; [done|]. rewrite IH. lia. Qed.

Lemma accounted_range ps ths : Forall2 thread_accounted ps ths → Forall progress_range ps.
Proof. induction 1 as [|p th ps ths (Hp & _) H IH]; by constructor. Qed.

Lemma count_fold k l : ∀ a,
  fold_left (λ a th, add_count k (th_stats th) a) l a =
  fold_left (λ a th, u64 (a + (successes (per_op k (th_stats th)) + failures (per_op k (th_stats th))))) l a.
Proof. induction l as [|th l IH]; intros a; cbn [fold_left]; [done|]. unfold add_count at 2. by rewrite wrap_add_r, IH. Qed.

Lemma count_total k (f : Progress → Z) ps ths :
  Forall2 thread_accounted ps ths → 2 * sum_of tried ps < 2 ^ 64 →
  (∀ p, progress_range p → 0 ≤ f p ≤ tried p) →
  (∀ p th, thread_accounted p th → successes (per_op k (th_stats th)) + failures (per_op k (th_stats th)) = 2 * f p) →
  fold_left (λ a th, add_count k (th_stats th) a) ths 0 = 2 * sum_of f ps.
Proof.
  intros H Hb Hf Hg. pose proof (sum_of_bounds f ps (accounted_range _ _ H) Hf) as Hs.
  rewrite count_fold. apply fold_sum_0; [|unfold in_width; lia].
  rewrite <-sum_of_twice. by apply Forall2_sum.
Qed.

Lemma plain_total (g : Thread → Z) (f : Progress → Z) ps ths :
  Forall2 thread_accounted ps ths → 2 * sum_of tried ps < 2 ^ 64 →
  (∀ p, progress_range p → 0 ≤ f p ≤ tried p) → (∀ p th, thread_accounted p th → g th = f p) →
  fold_left (λ a th, u64 (a + g th)) ths 0 = sum_of f ps.
Proof.
  intros H Hb Hf Hg. pose proof (sum_of_bounds f ps (accounted_range _ _ H) Hf) as Hs.
  apply fold_sum_0; [by apply Forall2_sum|unfold in_width; lia].
Qed.

Lemma fold_imap {A B} (g : A → B → A) l : ∀ (f : nat → nat) a,
  fold_left (λ a '(i, x), g a x) (imap (λ i x, (f i, x)) l) a = fold_left g l a.
Proof. induction l as [|x l IH]; intros f a; cbn; [done|]. apply (IH (f ∘ S)). Qed.

Lemma agg_all k (compute_servers : Servers) :
  agg_counts (λ _ _, true) k compute_servers = fold_left (agg_thread true k) (concat compute_servers) agg_init.
Proof.
  unfold agg_counts. rewrite <-over_concat. unfold over.
  rewrite <-(fold_imap (λ a ths, fold_left (agg_thread true k) ths a) compute_servers (λ i, i)).
  generalize agg_init. change (imap (λ i x, (i, x)) compute_servers) with (imap pair compute_servers).
  generalize (imap pair compute_servers). intros l. induction l as [|[i ths] l IH]; intros a; cbn [fold_left]; [done|].
  rewrite <-IH. f_equal. apply (fold_imap (agg_thread true k) ths (λ i, i)).
Qed.

Lemma agg_fields k l : ∀ a,
  agg_successes (fold_left (agg_thread true k) l a) =
    fold_left (λ n th, u64 (n + successes (per_op k (th_stats th)))) l (agg_successes a) ∧
  agg_failures (fold_left (agg_thread true k) l a) =
    fold_left (λ n th, u64 (n + failures (per_op k (th_stats th)))) l (agg_failures a).
Proof. induction l as [|th l IH]; intros a; cbn [fold_left]; [done|]. apply (IH (agg_thread true k a th)). Qed.

Lemma op_total_successes k f ps (compute_servers : Servers) :
  Forall2 thread_accounted ps (concat compute_servers) → 2 * sum_of tried ps < 2 ^ 64 →
  (∀ p, progress_range p → 0 ≤ f p ≤ tried p) → (∀ p th, thread_accounted p th → successes (per_op k (th_stats th)) = 2 * f p) →
  agg_successes (op_total (λ _ _, true) k compute_servers) = 2 * sum_of f ps.
Proof.
  intros H Hb Hf Hk. assert (agg_successes (op_total (λ _ _, true) k compute_servers) =
    agg_successes (agg_counts (λ _ _, true) k compute_servers)) as ->.
  { unfold op_total. destruct (0 <? _); [|done]. by destruct (calculate_standard_percentiles _) as [[? ?] ?]. }
  rewrite agg_all. rewrite (proj1 (agg_fields k _ _)). cbn [agg_init agg_successes].
  pose proof (sum_of_bounds f ps (accounted_range _ _ H) Hf) as Hs.
  apply fold_sum_0; [|unfold in_width; lia]. rewrite <-sum_of_twice. by apply Forall2_sum.
Qed.

(** C30: the totals of the report.  When every thread ends as the run of its client leaves
    it and the counts fit in 64 bits, the attempts and successes are the ones of all
    clients together, the counts of inserts and reads are twice the puts and gets that
    were made, and no update or delete is counted; so the operation counts are twice
    the attempts, less two for every delete that was attempted.  When every file could
    be written, the successes of the two kinds add up to twice the successes. *)
Theorem report_totals (compute_servers : Servers) ps :
  Forall2 thread_accounted ps (concat compute_servers) → 2 * sum_of tried ps < 2 ^ 64 →
  let t := collect_totals compute_servers in
  total_attempted t = sum_of tried ps ∧ total_succeeded t = sum_of puts_ok ps + sum_of gets_ok ps ∧
  total_insert_count t = 2 * sum_of puts ps ∧ total_read_count t = 2 * sum_of gets_ ps ∧
  total_update_count t = 0 ∧ total_delete_count t = 0 ∧
  total_insert_count t + total_read_count t + 2 * sum_of dels ps = 2 * total_attempted t ∧
  agg_successes (op_total (λ _ _, true) Insert compute_servers) +
  agg_successes (op_total (λ _ _, true) Read compute_servers) = 2 * total_succeeded t.
Proof.
  intros H Hb t. unfold t, collect_totals. rewrite over_concat.
  destruct (totals_fields (concat compute_servers) totals_init) as (-> & -> & -> & -> & -> & ->).
  cbn [totals_init total_attempted total_succeeded total_insert_count total_read_count total_update_count total_delete_count].
  rewrite (op_total_successes Insert puts_ok ps), (op_total_successes Read gets_ok ps)
    by (done || (unfold progress_range, tried; intros; cbn beta; lia) ||
        (intros p th (_ & Hc & _); (apply (op_counts_per_op Insert p _ Hc) || apply (op_counts_per_op Read p _ Hc)))).
  assert (∀ k p th, thread_accounted p th → successes (per_op k (th_stats th)) + failures (per_op k (th_stats th)) =
            2 * (match k with Insert => puts p | Read => gets_ p | _ => 0 end)) as Hk.
  { intros k p th (_ & Hc & _). destruct (op_counts_per_op k p _ Hc) as (-> & -> & _). destruct k; lia. }
  rewrite (plain_total _ tried ps) by (done || (unfold progress_range, tried; lia) || by intros p th (_ & _ & ? & _)).
  rewrite (plain_total _ (λ p, puts_ok p + gets_ok p) ps)
    by (done || (unfold progress_range, tried; lia) || by intros p th (_ & _ & _ & ?)).
  rewrite (count_total Insert puts ps), (count_total Read gets_ ps), (count_total Update (λ _, 0) ps), (count_total Delete (λ _, 0) ps)
    by (done || (unfold progress_range, tried; intros; cbn beta; lia) || apply (Hk Insert) || apply (Hk Read) || apply (Hk Update) || apply (Hk Delete)).
  assert (sum_of (λ _ : Progress, 0) ps = 0) as -> by (clear; unfold sum_of; induction ps; cbn [map sum_list]; lia).
  assert (sum_of tried ps = sum_of (λ p, puts p + gets_ p) ps + sum_of dels ps) as Ht by (by apply sum_of_plus).
  rewrite (sum_of_plus (λ p, puts p + gets_ p) puts gets_) in Ht by done.
  rewrite (sum_of_plus (λ p, puts_ok p + gets_ok p) puts_ok gets_ok) by done. split_and!; lia.
Qed.

(** ** Merging histograms *)

Lemma iter_fold {A} (f : A → Z → A) x n : ∀ a, Nat.iter n (λ a, f a x) a = fold_left f (replicate n x) a.
Proof.
  induction n as [|n IH]; intros a; [done|]. cbn [replicate fold_left]. by rewrite <-IH, Nat.iter_succ_r.
Qed.

(** The values a histogram replays: [c i] times the value [v i] of each bucket. *)
Definition replay (c v : nat → Z) (js : list nat) : list Z := concat (map (λ i, replicate (Z.to_nat (c i)) (v i)) js).

Lemma replay_loop {A} (f : A → Z → A) c v js : ∀ a,
  fold_left (λ a i, Nat.iter (Z.to_nat (c i)) (λ a, f a (v i)) a) js a = fold_left f (replay c v js) a.
Proof.
  unfold replay. induction js as [|i js IH]; intros a; cbn [fold_left map concat]; [done|].
  rewrite fold_left_app, IH. f_equal. apply iter_fold.
Qed.

(** Buckets that hold nothing are skipped by the lists of buckets. *)
Lemma replay_omap {A} (f : A → Z → A) c v js : ∀ a, (∀ i, 0 ≤ c i) →
  fold_left (λ a b, Nat.iter (Z.to_nat b.2) (λ a, f a b.1) a) (omap (λ i, if 0 <? c i then Some (v i, c i) else None) js) a =
  fold_left f (replay c v js) a.
Proof.
  intros a Hc. rewrite <-replay_loop. revert a. induction js as [|i js IH]; intros a; [done|]. cbn [omap list_omap fold_left].
  destruct (Z.ltb_spec 0 (c i)) as [Hi|Hi]; [apply IH|]. replace (c i) with 0 by (specialize (Hc i); lia). apply IH.
Qed.

Lemma count_replicate P n x : count P (replicate n x) = if P x then Z.of_nat n else 0.
Proof. induction n as [|n IH]; cbn [replicate count]; [by destruct (P x)|]. rewrite IH. destruct (P x); lia. Qed.

(** A replay puts as many values into a class as the bucket of that number holds. *)
Lemma replay_class f c v n j : (∀ i, 0 ≤ c i) → (∀ i, (i < n)%nat → f (v i) = i) →
  in_class f j (replay c v (seq 0 n)) = if (j <? n)%nat then c j else 0.
Proof.
  intros Hc. induction n as [|n IH]; intros Hf; [done|]. rewrite seq_S. unfold replay in *. rewrite map_app, concat_app, in_class_app.
  rewrite IH by (intros; apply Hf; lia). cbn [map concat Nat.add]. rewrite app_nil_r. unfold in_class. rewrite count_replicate, Hf by lia.
  rewrite Z2Nat.id by done. destruct (Nat.eqb_spec n j), (Nat.ltb_spec j n), (Nat.ltb_spec j (S n)); subst; lia.
Qed.

Lemma in_class_concat f j ls : in_class f j (concat ls) = sum_list (map (in_class f j) ls).
Proof. induction ls as [|l ls IH]; cbn [concat map sum_list]; [done|]. by rewrite in_class_app, IH. Qed.

(** All values are in the first [n] classes. *)
Lemma class_total f n l : (∀ x, x ∈ l → (f x < n)%nat) → sum_list (map (λ i, in_class f i l) (seq 0 n)) = Z.of_nat (length l).
Proof.
  intros Hf. rewrite <-(count_all (λ x, (f x <? n)%nat) l) by (intros x Hx; apply Nat.ltb_lt; by apply Hf). clear Hf.
  induction n as [|n IH]; [by induction l as [|? ? IHl]; cbn in *|]. rewrite seq_S, map_app, sum_list_app, IH. cbn [map sum_list Nat.add].
  symmetry. rewrite Z.add_0_r. apply count_split. intros x.
  destruct (Nat.ltb_spec (f x) (S n)), (Nat.ltb_spec (f x) n), (Nat.eqb_spec (f x) n); lia.
Qed.

Lemma length_classes f n l l' :
  (∀ x, x ∈ l → (f x < n)%nat) → (∀ x, x ∈ l' → (f x < n)%nat) →
  (∀ i, (i < n)%nat → in_class f i l = in_class f i l') → length l = length l'.
Proof.
  intros Hl Hl' H. apply Nat2Z.inj. rewrite <-(class_total f n l), <-(class_total f n l') by done. f_equal.
  apply map_ext_in. intros i Hi%in_seq. apply H. lia.
Qed.

Lemma replay_ext c c' v n : (∀ i, (i < n)%nat → c i = c' i) → replay c v (seq 0 n) = replay c' v (seq 0 n).
Proof. intros H. unfold replay. f_equal. apply map_ext_in. intros i Hi%in_seq. rewrite H by lia. done. Qed.

Lemma fold_merge {A} (merge : A → list Z → A) (f : A → Z → A) (rep : list Z → list Z) sss : ∀ a,
  (∀ a l, l ∈ sss → merge a l = fold_left f (rep l) a) → fold_left merge sss a = fold_left f (concat (map rep sss)) a.
Proof.
  induction sss as [|l sss IH]; intros a H; cbn [fold_left map concat]; [done|].
  rewrite fold_left_app, <-H by apply list_elem_of_here. apply IH. intros. apply H. by apply list_elem_of_further.
Qed.

Lemma length_concat_elem {A} (l : list A) sss : l ∈ sss → (length l ≤ length (concat sss))%nat.
Proof. intros (s1 & s2 & ->)%list_elem_of_split. rewrite concat_app, length_app. cbn. rewrite length_app. lia. Qed.

(** Replaying keeps every class when it does so for each list. *)
Lemma classes_concat f j (rep : list Z → list Z) sss :
  (∀ l, l ∈ sss → in_class f j (rep l) = in_class f j l) → in_class f j (concat (map rep sss)) = in_class f j (concat sss).
Proof.
  intros H. rewrite !in_class_concat, map_map. f_equal. apply map_ext_in. intros l Hl%list_elem_of_In. by apply H.
Qed.

(** *** Latencies *)

Lemma center_slot i : (i < 31)%nat → slot (get_bucket_center i) = i.
Proof. intros Hi. do 31 (destruct i as [|i]; [vm_compute; reflexivity|]). lia. Qed.

Lemma hist_bucket_nonneg l i : Z.of_nat (length l) < 2 ^ 64 → 0 ≤ Latency.buckets_ (hist l) !!! i.
Proof.
  intros Hl. destruct (decide (i < Latency.NUM_BUCKETS)%nat) as [Hi|Hi].
  - rewrite hist_bucket by done. apply in_slot_range.
  - rewrite list_lookup_total_alt, lookup_ge_None_2; [done|]. rewrite hist_counts by done. cbn [Latency.buckets_].
    rewrite length_map, length_seq. lia.
Qed.

Definition replayed_latencies (l : list Z) : list Z := replay (λ i, in_slot i l) get_bucket_center (seq 0 31).

(** Latencies below the last bucket. *)
Definition small_latency (x : Z) : Prop := 0 ≤ x < 500 * 2 ^ 31.

Lemma small_slot x : small_latency x → (slot x < 31)%nat.
Proof.
  intros [H0 H]. unfold Latency.NUM_BUCKETS in *. destruct (slot_spec x H0) as [[-> _]|[[S R]|[_ R]]]; [lia| |lia].
  destruct (decide (slot x = 31%nat)) as [E|]; [|unfold Latency.NUM_BUCKETS in *; lia]. rewrite E in R.
  change (Z.of_nat 31) with 31 in R. lia.
Qed.

Lemma small_in_slot l j : Forall small_latency l → (31 ≤ j)%nat → in_slot j l = 0.
Proof.
  intros Hl Hj. unfold in_slot, in_class. induction Hl as [|x l Hx Hl IH]; cbn [count]; [done|].
  pose proof (small_slot x Hx). rewrite (proj2 (Nat.eqb_neq (slot x) j)) by lia. done.
Qed.

Lemma replayed_in_slot l j : Forall small_latency l → in_slot j (replayed_latencies l) = in_slot j l.
Proof.
  intros Hl. unfold replayed_latencies. unfold in_slot at 1.
  rewrite replay_class by (apply center_slot || (intros; apply in_slot_range)).
  destruct (Nat.ltb_spec j 31); [done|]. by rewrite small_in_slot.
Qed.

Lemma merge_latency_replay m l :
  Z.of_nat (length l) < 2 ^ 64 → Forall small_latency l →
  merge_latency m (hist l) = fold_left (λ h x, Latency.add_sample x h) (replayed_latencies l) m.
Proof.
  intros Hlen Hl. unfold merge_latency, get_histogram.
  rewrite (replay_omap (λ h x, Latency.add_sample x h)) by (intros; by apply hist_bucket_nonneg). f_equal.
  rewrite (replay_ext _ (λ i, in_slot i l)) by (intros; by apply hist_bucket).
  unfold replayed_latencies, replay, Latency.NUM_BUCKETS. rewrite (seq_S 31 0), map_app, concat_app. cbn [map concat Nat.add].
  rewrite small_in_slot by (done || lia). by rewrite app_nil_r.
Qed.

Lemma hist_ext l l' :
  Z.of_nat (length l) < 2 ^ 64 → length l = length l' → (∀ j, in_slot j l = in_slot j l') → hist l = hist l'.
Proof.
  intros Hl He H. rewrite !hist_counts by lia. rewrite He, H. f_equal. apply map_ext. intros. by rewrite H.
Qed.

Lemma slots_length l l' : (∀ j, in_slot j l = in_slot j l') → length l = length l'.
Proof.
  intros H. apply (length_classes slot (S Latency.NUM_BUCKETS)); [intros x _; pose proof (slot_le x); lia..|]. intros; apply H.
Qed.

Lemma merge_all_latencies sss :
  Z.of_nat (length (concat sss)) < 2 ^ 64 → Forall (Forall small_latency) sss →
  fold_left (λ m l, merge_latency m (hist l)) sss Latency.init = hist (concat sss).
Proof.
  intros Hlen Hs. rewrite list.Forall_forall in Hs.
  assert (∀ j, in_slot j (concat (map replayed_latencies sss)) = in_slot j (concat sss)) as Hj.
  { intros j. apply classes_concat. intros l Hl. apply replayed_in_slot. by apply Hs. }
  rewrite (fold_merge _ (λ h x, Latency.add_sample x h) replayed_latencies).
  - apply hist_ext; [|by apply slots_length|done]. by rewrite (slots_length _ _ Hj).
  - intros m l Hl. pose proof (length_concat_elem l sss Hl). apply merge_latency_replay; [lia|by apply Hs].
Qed.

(** *** Counts per operation *)

Definition dhist (l : list Z) : Discrete.DiscreteHistogram := fold_left (λ h x, Discrete.record x h) l Discrete.init.

Lemma record_samples_run l : ∀ h,
  fold_left (λ h x, Discrete.record x h) l h =
    Discrete.mk (fold_left (λ b x, incr (Discrete.bucket_idx x) b) l (Discrete.buckets_ h))
      (fold_left (λ n _, u64 (n + 1)) l (Discrete.total_samples_ h)).
Proof. induction l as [|x l IH]; intros h; cbn [fold_left]; [by destruct h|]. by rewrite IH. Qed.

Lemma total_run (l : list Z) : Z.of_nat (length l) < 2 ^ 64 → fold_left (λ n _, u64 (n + 1)) l 0 = Z.of_nat (length l).
Proof.
  intros Hl. apply (fold_sum_0 (λ _, 1)); [|unfold in_width; lia]. clear Hl.
  induction l as [|x l IH]; cbn [map sum_list length]; [done|]. rewrite IH. lia.
Qed.

Lemma dhist_counts l : Z.of_nat (length l) < 2 ^ 64 →
  dhist l = Discrete.mk (map (λ i, in_class Discrete.bucket_idx i l) (seq 0 256)) (Z.of_nat (length l)).
Proof.
  intros Hl. unfold dhist. rewrite record_samples_run. cbn [Discrete.init Discrete.buckets_ Discrete.total_samples_].
  rewrite total_run by done. f_equal. by apply counters_spec.
Qed.

Lemma bucket_idx_lt x : (Discrete.bucket_idx x < 256)%nat.
Proof. unfold Discrete.bucket_idx, Discrete.NUM_BUCKETS. lia. Qed.
Lemma bucket_idx_of_nat i : (i < 256)%nat → Discrete.bucket_idx (Z.of_nat i) = i.
Proof. intros Hi. unfold Discrete.bucket_idx, Discrete.NUM_BUCKETS. lia. Qed.

Definition replayed_counts (l : list Z) : list Z := replay (λ i, in_class Discrete.bucket_idx i l) Z.of_nat (seq 0 256).

Lemma replayed_counts_class l j : in_class Discrete.bucket_idx j (replayed_counts l) = in_class Discrete.bucket_idx j l.
Proof.
  unfold replayed_counts. rewrite replay_class by (apply bucket_idx_of_nat || (intros; apply in_class_range)).
  destruct (Nat.ltb_spec j 256) as [|Hj]; [done|]. symmetry. unfold in_class. clear -Hj.
  induction l as [|x l IH]; cbn [count]; [done|]. pose proof (bucket_idx_lt x).
  rewrite (proj2 (Nat.eqb_neq (Discrete.bucket_idx x) j)) by lia. done.
Qed.

Lemma merge_discrete_replay m l : Z.of_nat (length l) < 2 ^ 64 →
  merge_discrete m (dhist l) = fold_left (λ h x, Discrete.record x h) (replayed_counts l) m.
Proof.
  intros Hl. unfold merge_discrete.
  rewrite (replay_loop (λ h x, Discrete.record x h) (λ i, Discrete.get_count (Z.of_nat i) (dhist l)) Z.of_nat). f_equal.
  unfold replayed_counts. apply replay_ext. intros i Hi. unfold Discrete.get_count. rewrite bucket_idx_of_nat, dhist_counts by done.
  cbn [Discrete.buckets_]. apply list_lookup_total_correct. rewrite list_lookup_fmap, lookup_seq_lt by done. done.
Qed.

Lemma merge_all_discrete sss : Z.of_nat (length (concat sss)) < 2 ^ 64 →
  fold_left (λ m l, merge_discrete m (dhist l)) sss Discrete.init = dhist (concat sss).
Proof.
  intros Hlen.
  assert (∀ j, in_class Discrete.bucket_idx j (concat (map replayed_counts sss)) = in_class Discrete.bucket_idx j (concat sss)) as Hj.
  { intros j. apply classes_concat. intros l _. apply replayed_counts_class. }
  assert (length (concat (map replayed_counts sss)) = length (concat sss)) as HL.
  { apply (length_classes Discrete.bucket_idx 256); [intros; apply bucket_idx_lt..|]. intros; apply Hj. }
  rewrite (fold_merge _ (λ h x, Discrete.record x h) replayed_counts).
  - fold (dhist (concat (map replayed_counts sss))). rewrite !dhist_counts by lia. rewrite HL. f_equal. apply map_ext. intros. apply Hj.
  - intros m l Hl. pose proof (length_concat_elem l sss Hl). apply merge_discrete_replay. lia.
Qed.

(** *** Bytes *)

Definition bhist (l : list Z) : LogBytes.LogarithmicByteHistogram := fold_left (λ h x, LogBytes.record x h) l LogBytes.init.

Lemma record_bytes_run l : ∀ h,
  fold_left (λ h x, LogBytes.record x h) l h =
    LogBytes.mk (fold_left (λ b x, incr (LogBytes.get_bucket_index x) b) l (LogBytes.buckets_ h))
      (fold_left (λ n _, u64 (n + 1)) l (LogBytes.total_samples_ h)) (fold_left (λ n x, u64 (n + x)) l (LogBytes.total_bytes_ h)).
Proof. induction l as [|x l IH]; intros h; cbn [fold_left]; [by destruct h|]. by rewrite IH. Qed.

Lemma bhist_counts l : Z.of_nat (length l) < 2 ^ 64 →
  bhist l = LogBytes.mk (map (λ i, in_class LogBytes.get_bucket_index i l) (seq 0 32)) (Z.of_nat (length l)) (u64 (sum_list l)).
Proof.
  intros Hl. unfold bhist. rewrite record_bytes_run. cbn [LogBytes.init LogBytes.buckets_ LogBytes.total_samples_ LogBytes.total_bytes_].
  rewrite total_run, fold_sum, map_id by (done || unfold in_width; lia). f_equal. by apply counters_spec.
Qed.

Lemma byte_class i : (i < 32)%nat → LogBytes.get_bucket_index (LogBytes.bucket_value i) = i.
Proof. intros Hi. by apply (log_bucket_spec 0 i). Qed.

Lemma byte_index_lt x : (LogBytes.get_bucket_index x < 32)%nat.
Proof.
  unfold LogBytes.get_bucket_index. destruct (x =? 0); [lia|].
  destruct (bucket_loop_bounds LogBytes.NUM_BUCKETS 0 x) as [H _]; unfold LogBytes.NUM_BUCKETS in *; [lia|lia|by left|lia].
Qed.

Definition replayed_bytes (l : list Z) : list Z := replay (λ i, in_class LogBytes.get_bucket_index i l) LogBytes.bucket_value (seq 0 32).

Lemma replayed_bytes_class l j :
  in_class LogBytes.get_bucket_index j (replayed_bytes l) = in_class LogBytes.get_bucket_index j l.
Proof.
  unfold replayed_bytes. rewrite replay_class by (apply byte_class || (intros; apply in_class_range)).
  destruct (Nat.ltb_spec j 32) as [|Hj]; [done|]. symmetry. unfold in_class.
  induction l as [|x l IH]; cbn [count]; [done|]. pose proof (byte_index_lt x).
  rewrite (proj2 (Nat.eqb_neq (LogBytes.get_bucket_index x) j)) by lia. done.
Qed.

Lemma merge_bytes_replay m l : Z.of_nat (length l) < 2 ^ 64 →
  merge_bytes m (bhist l) = fold_left (λ h x, LogBytes.record x h) (replayed_bytes l) m.
Proof.
  intros Hl. unfold merge_bytes, LogBytes.get_distribution.
  assert (∀ i, (i < 32)%nat → LogBytes.buckets_ (bhist l) !!! i = in_class LogBytes.get_bucket_index i l) as Hb.
  { intros i Hi. rewrite bhist_counts by done. cbn [LogBytes.buckets_]. apply list_lookup_total_correct.
    rewrite list_lookup_fmap, lookup_seq_lt by done. done. }
  rewrite (replay_omap (λ h x, LogBytes.record x h)).
  - f_equal. by apply replay_ext.
  - intros i. destruct (decide (i < 32)%nat) as [Hi|Hi]; [rewrite Hb by done; apply in_class_range|].
    rewrite list_lookup_total_alt, lookup_ge_None_2; [done|]. rewrite bhist_counts by done. cbn [LogBytes.buckets_].
    rewrite length_map, length_seq. lia.
Qed.

Lemma sum_replicate n x : sum_list (replicate n x) = Z.of_nat n * x.
Proof. induction n as [|n IH]; cbn [replicate sum_list]; [lia|]. rewrite IH. lia. Qed.

(** The sum of the replayed values: every value is replaced by the one of its bucket. *)
Lemma sum_replay f (v : nat → Z) n l : (∀ x, x ∈ l → (f x < n)%nat) →
  sum_list (replay (λ i, in_class f i l) v (seq 0 n)) = sum_list (map (λ x, v (f x)) l).
Proof.
  intros Hf. assert (∀ l c, (∀ i, 0 ≤ c i) → sum_list (replay c v l) = sum_list (map (λ i, c i * v i) l)) as Hs.
  { clear. intros l c Hc. unfold replay. induction l as [|i l IH]; cbn [map concat sum_list]; [done|].
    rewrite sum_list_app, sum_replicate, IH, Z2Nat.id by done. done. }
  rewrite Hs by (intros; apply in_class_range). clear Hs.
  induction l as [|x l IH]; cbn [map sum_list].
  - generalize (seq 0 n). intros js. induction js as [|i js IH]; cbn [map sum_list]; [done|]. unfold in_class at 1. cbn [count]. lia.
  - rewrite <-IH by (intros; apply Hf; by apply list_elem_of_further). specialize (Hf x (list_elem_of_here _ _)).
    clear IH. assert (∀ n, sum_list (map (λ i, in_class f i (x :: l) * v i) (seq 0 n)) =
      (if (f x <? n)%nat then v (f x) else 0) + sum_list (map (λ i, in_class f i l * v i) (seq 0 n))) as H.
    { clear. induction n as [|n IH]; [done|]. rewrite !seq_S, !map_app, !sum_list_app, IH. cbn [map sum_list Nat.add].
      unfold in_class. cbn [count]. destruct (Nat.ltb_spec (f x) n), (Nat.ltb_spec (f x) (S n)), (Nat.eqb_spec (f x) n); subst; lia. }
    rewrite H, (proj2 (Nat.ltb_lt (f x) n)) by done. done.
Qed.

(** Sizes that the buckets represent up to a factor of two. *)
Definition byte_size (x : Z) : Prop := x = 0 ∨ 2 ≤ x ≤ 2 ^ 31.

Lemma bucket_value_bounds x : byte_size x → x ≤ LogBytes.bucket_value (LogBytes.get_bucket_index x) ≤ 2 * x.
Proof.
  intros Hx. destruct (decide (x = 0)) as [->|Hne]; [done|]. destruct Hx as [|Hx]; [done|].
  destruct (log_bucket_index_bounds x) as (B1 & B2 & B3); [lia|]. set (b := LogBytes.get_bucket_index x) in *.
  assert (x ≤ 2 ^ Z.of_nat b) as B2' by (destruct B2 as [|B2]; [done|rewrite B2; change (Z.of_nat 31) with 31; lia]).
  destruct B3 as [B3|B3]; [rewrite B3 in B2'; simpl in B2'; lia|].
  unfold LogBytes.bucket_value. destruct (Nat.eqb_spec b 0) as [E|E]; [rewrite E in B2'; simpl in B2'; lia|].
  rewrite Z.shiftl_1_l, wrap_small.
  - split; [done|]. replace (Z.of_nat b) with (Z.of_nat b - 1 + 1) by lia. rewrite Z.pow_add_r by lia. lia.
  - split; [apply Z.pow_nonneg; lia|apply Z.pow_lt_mono_r; lia].
Qed.

Lemma bucket_values_sum l : Forall byte_size l →
  sum_list l ≤ sum_list (map (λ x, LogBytes.bucket_value (LogBytes.get_bucket_index x)) l) ≤ 2 * sum_list l.
Proof.
  induction 1 as [|x l Hx Hl IH]; cbn [map sum_list]; [lia|]. pose proof (bucket_value_bounds x Hx). lia.
Qed.

Lemma merge_all_bytes sss :
  Z.of_nat (length (concat sss)) < 2 ^ 64 → Forall (Forall byte_size) sss → 2 * sum_list (concat sss) < 2 ^ 64 →
  let m := fold_left (λ m l, merge_bytes m (bhist l)) sss LogBytes.init in
  LogBytes.buckets_ m = LogBytes.buckets_ (bhist (concat sss)) ∧
  LogBytes.total_samples_ m = LogBytes.total_samples_ (bhist (concat sss)) ∧
  LogBytes.total_bytes_ (bhist (concat sss)) ≤ LogBytes.total_bytes_ m ≤ 2 * LogBytes.total_bytes_ (bhist (concat sss)).
Proof.
  intros Hlen Hs Hsum m.
  assert (Forall byte_size (concat sss)) as Hc by (clear -Hs; induction Hs; cbn [concat]; [constructor|by apply Forall_app]).
  set (f := LogBytes.get_bucket_index) in *. set (rs := concat (map replayed_bytes sss)).
  assert (∀ j, in_class f j rs = in_class f j (concat sss)) as Hj.
  { intros j. apply classes_concat. intros l _. apply replayed_bytes_class. }
  assert (length rs = length (concat sss)) as HL by (apply (length_classes f 32); intros; (apply byte_index_lt || apply Hj)).
  assert (sum_list rs = sum_list (map (λ x, LogBytes.bucket_value (f x)) (concat sss))) as HS.
  { clear. unfold rs. induction sss as [|l sss IH]; cbn [map concat]; [done|]. rewrite map_app, !sum_list_app, IH. f_equal.
    apply sum_replay. intros x _. apply byte_index_lt. }
  assert (m = bhist rs) as ->.
  { unfold m. rewrite (fold_merge _ (λ h x, LogBytes.record x h) replayed_bytes); [done|]. intros h l Hl.
    pose proof (length_concat_elem l sss Hl). apply merge_bytes_replay. lia. }
  pose proof (bucket_values_sum _ Hc) as Hb. fold f in Hb. rewrite <-HS in Hb.
  assert (0 ≤ sum_list (concat sss)) by (clear -Hc; induction Hc as [|x l Hx Hl IH]; cbn [sum_list]; [|destruct Hx]; lia).
  rewrite !bhist_counts by lia. cbn [LogBytes.buckets_ LogBytes.total_samples_ LogBytes.total_bytes_]. rewrite HL.
  split; [apply map_ext; intros; apply Hj|]. split; [done|]. rewrite !wrap_small by (unfold in_width; lia). done.
Qed.

(** ** The report *)

(** Comparing terms, the loops over the buckets are unfolded last. *)
#[local] Opaque merge_discrete merge_bytes merge_latency hist dhist bhist.
#[local] Strategy 1000 [merge_discrete merge_bytes merge_latency hist dhist bhist].

Lemma fold_map_Forall2 {A B C} (R : B → C → Prop) (f : A → C → A) (g : A → B → A) bs cs : ∀ a,
  Forall2 R bs cs → (∀ a b c, R b c → f a c = g a b) → fold_left f cs a = fold_left g bs a.
Proof.
  intros a H Hfg. revert a. induction H as [|b c bs cs Hbc _ IH]; intros a; cbn [fold_left]; [done|]. by rewrite IH, (Hfg a b c Hbc).
Qed.

Definition latencies_of (k : OperationKind) (l : list Z) (th : Thread) : Prop :=
  latency_samples (per_op k (th_stats th)) = hist l.

Lemma length_elem_sum (sss : list (list Z)) : sum_list (map (λ l, Z.of_nat (length l)) sss) = Z.of_nat (length (concat sss)).
Proof. induction sss as [|l sss IH]; cbn [map sum_list concat]; [done|]. rewrite IH, length_app. lia. Qed.

Lemma merge_threads_hist k m sss (compute_servers : Servers) :
  Forall2 (latencies_of k) sss (concat compute_servers) →
  merge_threads k m compute_servers = fold_left (λ m l, merge_latency m (hist l)) sss m.
Proof. intros H. unfold merge_threads. rewrite over_concat. eapply fold_map_Forall2; [exact H|]. intros a l th Hl. by rewrite Hl. Qed.

Lemma count_samples_hist k sss (compute_servers : Servers) :
  Forall2 (latencies_of k) sss (concat compute_servers) → Z.of_nat (length (concat sss)) < 2 ^ 64 →
  count_samples k compute_servers = Z.of_nat (length (concat sss)).
Proof.
  intros H Hlen. unfold count_samples. rewrite over_concat.
  rewrite (fold_map_Forall2 (λ l th, latencies_of k l th ∧ l ∈ sss) _ (λ n l, u64 (n + Z.of_nat (length l))) sss).
  - apply fold_sum_0; [apply length_elem_sum|unfold in_width; lia].
  - apply Forall2_same_length_lookup_2; [by eapply Forall2_length|]. intros i l th Hl Hth. split; [by eapply Forall2_lookup_lr|].
    by eapply list_elem_of_lookup_2.
  - intros n l th [Hl Hin]. rewrite Hl. unfold Latency.sample_count. pose proof (length_concat_elem l sss Hin).
    rewrite hist_counts by lia. done.
Qed.

(** C29: the reported latencies are those of all threads together.  When the latencies of
    the threads are the histograms of their samples, none of which reaches the last
    bucket, merging them gives the histogram of all samples of all threads, and the
    percentiles and the number of samples the report shows are those of that
    histogram. *)
Theorem report_latencies (compute_servers : Servers) k sss opened :
  Forall2 (latencies_of k) sss (concat compute_servers) → Forall (Forall small_latency) sss →
  0 < Z.of_nat (length (concat sss)) < 2 ^ 64 →
  merge_threads k Latency.init compute_servers = hist (concat sss) ∧
  let a := op_total opened k compute_servers in
  agg_sample_count a = Z.of_nat (length (concat sss)) ∧
  (p50_latency a, p95_latency a, p99_latency a) = calculate_standard_percentiles (hist (concat sss)).
Proof.
  intros H Hs Hlen. rewrite (merge_threads_hist _ _ _ _ H), merge_all_latencies by (done || lia). split; [done|]. cbv zeta.
  unfold op_total. rewrite (count_samples_hist _ _ _ H), (merge_threads_hist _ _ _ _ H), merge_all_latencies by (done || lia).
  by rewrite (proj2 (Z.ltb_lt 0 _)) by lia.
Qed.

Lemma fold_proj {A B E} (proj : A → B) (f : A → E → A) (g : B → E → B) l : ∀ a,
  (∀ a e, proj (f a e) = g (proj a) e) → proj (fold_left f l a) = fold_left g l (proj a).
Proof. intros a H. revert a. induction l as [|e l IH]; intros a; cbn [fold_left]; [done|]. by rewrite IH, H. Qed.

Lemma metrics_fields l m :
  rtt_histogram (fold_left add_metrics l m) = fold_left (λ h e, merge_discrete h (rtt_counts_per_op e)) l (rtt_histogram m) ∧
  retry_histogram (fold_left add_metrics l m) = fold_left (λ h e, merge_discrete h (retry_counts_per_op e)) l (retry_histogram m) ∧
  bytes_read_histogram (fold_left add_metrics l m) = fold_left (λ h e, merge_bytes h (bytes_read_per_op e)) l (bytes_read_histogram m).
Proof. split_and!; apply fold_proj; intros a e; unfold add_metrics; reflexivity. Qed.

Lemma rdma_metrics_fold k (compute_servers : Servers) :
  rdma_metrics k compute_servers = fold_left add_metrics (map (λ th, per_op k (th_stats th)) (concat compute_servers)) metrics_init.
Proof.
  unfold rdma_metrics. rewrite over_concat. generalize metrics_init.
  induction (concat compute_servers) as [|th l IH]; intros m; cbn [map fold_left]; [done|]. apply IH.
Qed.

(** The reported RDMA metrics.  When the histograms of the entries hold their samples,
    the merged histograms of round trips and retries are those of all samples; the
    merged histograms of bytes have the right buckets and number of samples, but their
    total, and so the average, is counted from the bounds of the buckets: it is between
    the bytes transferred and twice that number for sizes of 0 or from 2 to [2^31]. *)
Theorem report_metrics (compute_servers : Servers) k rtts retries reads :
  let es := map (λ th, per_op k (th_stats th)) (concat compute_servers) in
  Forall2 (λ l e, rtt_counts_per_op e = dhist l) rtts es → Forall2 (λ l e, retry_counts_per_op e = dhist l) retries es →
  Forall2 (λ l e, bytes_read_per_op e = bhist l) reads es →
  Z.of_nat (length (concat rtts)) < 2 ^ 64 → Z.of_nat (length (concat retries)) < 2 ^ 64 → Z.of_nat (length (concat reads)) < 2 ^ 64 →
  Forall (Forall byte_size) reads → 2 * sum_list (concat reads) < 2 ^ 64 →
  let m := rdma_metrics k compute_servers in
  rtt_histogram m = dhist (concat rtts) ∧ retry_histogram m = dhist (concat retries) ∧
  LogBytes.get_distribution (bytes_read_histogram m) = LogBytes.get_distribution (bhist (concat reads)) ∧
  LogBytes.total_samples_ (bytes_read_histogram m) = Z.of_nat (length (concat reads)) ∧
  sum_list (concat reads) ≤ LogBytes.total_bytes_ (bytes_read_histogram m) ≤ 2 * sum_list (concat reads).
Proof.
  intros es H1 H2 H3 L1 L2 L3 Hb Hsum m. unfold m. rewrite rdma_metrics_fold. fold es.
  destruct (metrics_fields es metrics_init) as (-> & -> & ->). cbn [metrics_init rtt_histogram retry_histogram bytes_read_histogram].
  rewrite (fold_map_Forall2 _ (λ h e, merge_discrete h (rtt_counts_per_op e)) (λ h l, merge_discrete h (dhist l)) _ _ _ H1) by congruence.
  rewrite (fold_map_Forall2 _ (λ h e, merge_discrete h (retry_counts_per_op e)) (λ h l, merge_discrete h (dhist l)) _ _ _ H2) by congruence.
  rewrite (fold_map_Forall2 _ (λ h e, merge_bytes h (bytes_read_per_op e)) (λ h l, merge_bytes h (bhist l)) _ _ _ H3) by congruence.
  rewrite !merge_all_discrete by done. destruct (merge_all_bytes reads L3 Hb Hsum) as (B1 & B2 & B3).
  assert (Forall byte_size (concat reads)) as Hc by (clear -Hb; induction Hb; cbn [concat]; [constructor|by apply Forall_app]).
  assert (0 ≤ sum_list (concat reads)) by (clear -Hc; induction Hc as [|x l Hx Hl IH]; cbn [sum_list]; [|destruct Hx]; lia).
  rewrite bhist_counts in B2, B3 by done. cbn [LogBytes.total_samples_ LogBytes.total_bytes_] in B2, B3.
  rewrite wrap_small in B3 by (unfold in_width; lia).
  split_and!; [done..| |done|apply B3|apply B3]. unfold LogBytes.get_distribution. by rewrite B1.
Qed.

(** ** Examples *)

(** A thread that made one successful put, and one that failed to get and to delete. *)
Definition demo_thread1 : Thread :=
  mkThread (stats_ (perform_recorded Insert 1200 true (λ t, t) (tracker_init stats_init Read))) (count_result true summary_init).
Definition demo_thread2 : Thread :=
  mkThread (stats_ (perform_recorded Read 5000 false (λ t, t) (tracker_init stats_init Read)))
    (count_result false (count_result false summary_init)).

Lemma report_totals_witness :
  let t := collect_totals [[demo_thread1]; [demo_thread2]] in
  total_attempted t = 3 ∧ total_insert_count t + total_read_count t + 2 * 1 = 2 * total_attempted t.
Proof.
  intros t. destruct (report_totals [[demo_thread1]; [demo_thread2]] [mkProgress 1 [1200] 0 [] 0; mkProgress 0 [] 1 [] 1])
    as (H1 & _ & _ & _ & _ & _ & H2 & _).
  - constructor; [|constructor; [|constructor]];
      (split; [unfold progress_range, puts_ok, gets_ok; cbn; lia|split; [vm_compute; reflexivity|split; vm_compute; reflexivity]]).
  - reflexivity.
  - split; [exact H1|exact H2].
Defined.

Lemma report_latencies_witness :
  merge_threads Insert Latency.init [[demo_thread1]; [demo_thread2]] = hist [1200; 1200].
Proof.
  apply (report_latencies [[demo_thread1]; [demo_thread2]] Insert [[1200; 1200]; []] (λ _ _, true)).
  - constructor; [vm_compute; reflexivity|constructor; [vm_compute; reflexivity|constructor]].
  - constructor; [|constructor; [constructor|constructor]].
    constructor; [|constructor; [|constructor]]; unfold small_latency; lia.
  - cbn. lia.
Defined.

Lemma report_metrics_witness :
  rtt_histogram (rdma_metrics Read [[demo_thread1]; [demo_thread2]]) = dhist [0].
Proof.
  destruct (report_metrics [[demo_thread1]; [demo_thread2]] Read [[]; [0]] [[]; [0]] [[]; [0]]) as [H _].
  1-3: (apply Forall2_cons; [vm_compute; reflexivity|apply Forall2_cons; [vm_compute; reflexivity|apply Forall2_nil]]).
  1-3: vm_compute; reflexivity.
  - constructor; [constructor|constructor; [|constructor]]. constructor; [by left|constructor].
  - vm_compute. reflexivity.
  - exact H.
Defined.
