(* ===== verification/Runtime.v ===== *)
(** * Waiting, profiling and logging (src/util/precise_sleep.hpp, src/util/profiler.hpp
    and .cpp, src/util/thread_logging.hpp, and the profile of the report in
    src/apps/kv_test.cpp)

    [sleep_microseconds] on a clock that advances between two readings, and the
    profiler of the build with [ENABLE_PROFILING]: per-thread tables of sections that
    are published into a global one.  (Without that definition the profiler does
    nothing and the report has no sections.)  A log is the messages of each thread;
    the time and the number of the thread that stand before a message are left out,
    and so is the directory of the files. *)

From stdpp Require Import sorting strings gmap.
From Stdlib Require Import QArith Qround Lqa.
From S2P Require Import Prelude ThreadStats Workload Config.
Local Open Scope Z_scope.

(** ** Sleeping *)

(** The time in nanoseconds, and what passes until each of the next readings. *)
Record Clock := mkClock { time : Z; ticks : nat → Z; reads : nat }.

Definition advance (d : Z) (c : Clock) : Clock := mkClock (time c + d + ticks c (reads c)) (ticks c) (S (reads c)).

(** [high_resolution_clock::now()] *)
Definition now : M Clock Z := λ c, let c' := advance 0 c in Done (time c') c'.

(** [std::this_thread::sleep_for]: blocks for at least the duration. *)
Definition sleep_for (ns : Z) : M Clock unit := λ c, Done tt (advance ns c).

(** At most [polls] readings. *)
Fixpoint busy_wait_until (polls : nat) (target : Z) : M Clock unit :=
  match polls with
  | O => raise OutOfFuel
  | S polls' => t ← now; if t <? target then busy_wait_until polls' target else mret tt
  end.

Definition sleep_microseconds (polls : nat) (duration_us : Q) : M Clock unit :=
  if Qle_bool duration_us 0 then mret tt
  else
    start ← now;
    let target := start + Qfloor (duration_us * 1000) in
    if negb (Qle_bool 50 duration_us) then busy_wait_until polls target
    else
      let sleep_us := (duration_us - 15)%Q in
      _ ← (if negb (Qle_bool sleep_us 0) then sleep_for (Qfloor sleep_us * 1000) else mret tt);
      busy_wait_until polls target.

Definition sleep_nanoseconds (polls : nat) (duration_ns : Z) : M Clock unit :=
  sleep_microseconds polls (inject_Z duration_ns / 1000).

Definition precise_sleep_ns : nat → Z → M Clock unit := sleep_nanoseconds.

(** *** Waiting is exact up to one reading of the clock *)

(** Every reading takes between 1 and [delta] nanoseconds. *)
Definition ticking (delta : Z) (c : Clock) : Prop := ∀ n, 1 ≤ ticks c n ≤ delta.

Lemma busy_wait_run delta target polls : ∀ c,
  ticking delta c → target ≤ time c + Z.of_nat polls → time c ≤ target → (0 < polls)%nat →
  ∃ c', busy_wait_until polls target c = Done tt c' ∧ target ≤ time c' ≤ target + delta.
Proof.
  induction polls as [|n IH]; intros c Ht Hn Hle Hpos; [lia|]. cbn [busy_wait_until].
  pose proof (Ht (reads c)) as Hr. set (c1 := advance 0 c).
  assert (time c1 = time c + ticks c (reads c)) as Hc1 by (cbn; lia).
  rewrite (bind_done _ _ c (time c1) c1) by reflexivity.
  destruct (Z.ltb_spec (time c1) target) as [Hlt|Hge]; [|exists c1; split; [done|lia]].
  apply IH; [done|lia..].
Qed.

Lemma Qfloor_thousand n : Qfloor (inject_Z n / 1000 * 1000) = n.
Proof. rewrite <-(Qfloor_Z n) at 2. apply Qfloor_comp. field. Qed.

(** A precise sleep lasts what it says.  When the clock advances by 1 to [delta]
    nanoseconds between two readings and the scheduler wakes the thread within that
    time, with [delta] at most the 15 microseconds kept for the busy wait, then a sleep
    of [n] nanoseconds ends between [n] and [n + delta] nanoseconds after its first
    reading of the clock, for short and long sleeps; and it returns after at most [n]
    readings. *)
Theorem precise_sleep_accurate delta n polls c :
  ticking delta c → delta ≤ 15000 → 0 < n ≤ Z.of_nat polls →
  ∃ c', precise_sleep_ns polls n c = Done tt c' ∧
    let start := time c + ticks c (reads c) in start + n ≤ time c' ≤ start + n + delta.
Proof.
  intros Ht Hd [Hn Hp]. unfold precise_sleep_ns, sleep_nanoseconds, sleep_microseconds.
  assert (0 < inject_Z n)%Q as Hq by (change 0%Q with (inject_Z 0); rewrite <-Zlt_Qlt; lia).
  assert (0 < inject_Z n / 1000)%Q as Hq' by (apply Qlt_shift_div_l; [done|]; by rewrite Qmult_0_l).
  destruct (Qle_bool (inject_Z n / 1000) 0) eqn:E.
  { apply Qle_bool_iff in E. exfalso. by apply (Qlt_not_le _ _ Hq'). }
  set (c1 := advance 0 c). assert (time c1 = time c + ticks c (reads c)) as Hc1 by (cbn; lia).
  rewrite (bind_done _ _ c (time c1) c1) by reflexivity. cbv zeta. rewrite Qfloor_thousand, <-Hc1.
  assert (ticking delta c1) as Ht1 by done. assert (inject_Z n == inject_Z n / 1000 * 1000)%Q as Hx by field.
  set (x := (inject_Z n / 1000)%Q) in *. clearbody x.
  destruct (Qle_bool 50 x) eqn:E50; cbn [negb].
  2:{ apply (busy_wait_run delta); [done|lia..]. }
  apply Qle_bool_iff in E50.
  destruct (Qle_bool (x - 15) 0) eqn:E0; cbn [negb]; [apply Qle_bool_iff in E0; exfalso; lra|].
  set (us := Qfloor (x - 15)). pose proof (Qfloor_le (x - 15)) as Hf. fold us in Hf.
  assert (us * 1000 ≤ n - 15000) as Hus.
  { replace (n - 15000) with (n + (-15000)) by lia. rewrite Zle_Qle, inject_Z_mult, inject_Z_plus.
    change (inject_Z 1000) with 1000%Q. change (inject_Z (-15000)) with (-15000 # 1)%Q. lra. }
  assert (0 ≤ us) as Hus0.
  { unfold us. rewrite <-(Qfloor_Z 0). apply Qfloor_resp_le. change (inject_Z 0) with 0%Q. lra. }
  set (c2 := advance (us * 1000) c1). rewrite (bind_done _ _ c1 tt c2) by reflexivity.
  pose proof (Ht1 (reads c1)) as Hr. assert (time c2 = time c1 + us * 1000 + ticks c1 (reads c1)) as Hc2 by done.
  apply (busy_wait_run delta); [done|lia..].
Qed.

Lemma precise_sleep_accurate_witness :
  let c := mkClock 1000 (λ _, 40) 0 in
  ∃ c', precise_sleep_ns (Z.to_nat 60001) 60000 c = Done tt c' ∧ 61040 ≤ time c' ≤ 61080.
Proof.
  intros c. destruct (precise_sleep_accurate 40 60000 (Z.to_nat 60001) c) as (c' & H & Ht).
  - intros n. cbn. lia.
  - lia.
  - lia.
  - exists c'. split; [exact H|]. cbn in Ht. lia.
Defined.

(** ** The profiler *)

Record ProfileStats := mkPS { ps_count : Z; ps_total_ns : Z }.
Definition ps_zero : ProfileStats := mkPS 0 0.

Definition average_ns (s : ProfileStats) : Q :=
  if ps_count s =? 0 then 0%Q else (inject_Z (ps_total_ns s) / inject_Z (ps_count s))%Q.

(** [std::unordered_map<std::string, ProfileStats>]; [at_ name] is what [table[name]] holds. *)
Abbreviation Table := (gmap string ProfileStats).
Definition at_ (name : string) (t : Table) : ProfileStats := default ps_zero (t !! name).

(** [count += s.count; total_ns += s.total_ns] on the entry of a section. *)
Definition add_entry (name : string) (s : ProfileStats) (t : Table) : Table :=
  <[name := mkPS (u64 (ps_count (at_ name t) + ps_count s)) (u64 (ps_total_ns (at_ name t) + ps_total_ns s))]> t.

(** The tables of the threads and the global one. *)
Record Profile := mkProfile { tls_profile : list Table; global_stats : Table }.
Definition profile_init (threads : nat) : Profile := mkProfile (replicate threads ∅) ∅.

Definition add_sample (t : nat) (name : string) (duration_ns : Z) (p : Profile) : Profile :=
  mkProfile (alter (add_entry name (mkPS 1 duration_ns)) t (tls_profile p)) (global_stats p).

Definition publish_thread_stats (t : nat) (p : Profile) : Profile :=
  match tls_profile p !! t with
  | None => p
  | Some tls =>
      if decide (tls = ∅) then p
      else mkProfile (<[t := ∅]> (tls_profile p)) (map_fold add_entry (global_stats p) tls)
  end.

Definition snapshot (t : nat) (p : Profile) : Table * Profile :=
  let p' := publish_thread_stats t p in (global_stats p', p').

Definition profiler_reset (p : Profile) : Profile := mkProfile (tls_profile p) ∅.

(** The sections of the report: by decreasing total time, at most 50. *)
Definition longer : relation (string * ProfileStats) := λ a b, ps_total_ns b.2 ≤ ps_total_ns a.2.
#[global] Instance longer_dec : RelDecision longer.
Proof. intros a b. unfold longer. apply _. Defined.
Definition top_sections (sections : list (string * ProfileStats)) : list (string * ProfileStats) :=
  take (Nat.min 50 (length sections)) (merge_sort longer sections).

(** *** No sample is lost *)

Inductive profile_event := Sample (t : nat) (name : string) (duration_ns : Z) | Publish (t : nat).
Definition profile_step (p : Profile) (e : profile_event) : Profile :=
  match e with Sample t name d => add_sample t name d p | Publish t => publish_thread_stats t p end.
Definition event_thread (e : profile_event) : nat := match e with Sample t _ _ | Publish t => t end.

(** What the samples of a section add up to. *)
Definition sampled (name : string) (e : profile_event) : Z * Z :=
  match e with Sample _ n d => if decide (n = name) then (1, d) else (0, 0) | Publish _ => (0, 0) end.

Lemma sum_map_alter {A} (g : A → Z) (h : A → A) i (l : list A) x :
  l !! i = Some x → sum_list (map g (alter h i l)) = sum_list (map g l) + (g (h x) - g x).
Proof.
  revert i. induction l as [|y l IH]; intros [|i] Hi; simplify_eq/=; [lia|].
  change (list_alter h i l) with (alter h i l). rewrite (IH i Hi). lia.
Qed.

(** Both numbers of an entry at once, as a function of the table. *)
Section conserved.
Context (field : ProfileStats → Z) (name : string).
Hypothesis field_zero : field ps_zero = 0.
Hypothesis field_add : ∀ a b, field (mkPS (u64 (ps_count a + ps_count b)) (u64 (ps_total_ns a + ps_total_ns b))) = u64 (field a + field b).

Lemma at_add_entry n s t :
  u64 (field (at_ name (add_entry n s t))) = u64 (field (at_ name t) + (if decide (n = name) then field s else 0)).
Proof.
  unfold add_entry, at_. destruct (decide (n = name)) as [->|Hne].
  - rewrite lookup_insert_eq. cbn [from_option id]. rewrite field_add. apply wrap_idemp. lia.
  - rewrite lookup_insert_ne by done. f_equal. lia.
Qed.

Lemma at_merge (t g : Table) : u64 (field (at_ name (map_fold add_entry g t))) = u64 (field (at_ name g) + field (at_ name t)).
Proof.
  apply (map_fold_weak_ind (λ r m, u64 (field (at_ name r)) = u64 (field (at_ name g) + field (at_ name m)))).
  - unfold at_ at 3. rewrite lookup_empty. cbn [from_option id]. rewrite field_zero. f_equal. lia.
  - intros n s m r Hn IH. rewrite at_add_entry, <-wrap_add_l, IH, wrap_add_l. f_equal. unfold at_.
    destruct (decide (n = name)) as [->|Hne].
    + rewrite lookup_insert_eq, Hn. cbn [from_option id]. rewrite field_zero. lia.
    + rewrite lookup_insert_ne by done. lia.
Qed.

Definition everywhere (p : Profile) : Z := field (at_ name (global_stats p)) + sum_list (map (λ t, field (at_ name t)) (tls_profile p)).

Lemma step_everywhere p e :
  (event_thread e < length (tls_profile p))%nat →
  u64 (everywhere (profile_step p e)) =
    u64 (everywhere p + (match e with Sample _ n d => if decide (n = name) then field (mkPS 1 d) else 0 | Publish _ => 0 end)).
Proof.
  intros Ht. destruct (lookup_lt_is_Some_2 _ _ Ht) as [tb Htb]. unfold everywhere.
  destruct e as [t n d|t]; cbn [profile_step event_thread] in *.
  - cbn [add_sample tls_profile global_stats]. rewrite (sum_map_alter _ _ _ _ _ Htb).
    set (a := field (at_ name tb)). set (g := field (at_ name (global_stats p))). set (s := sum_list _).
    replace (g + (s + (_ - a))) with (g + s - a + field (at_ name (add_entry n (mkPS 1 d) tb))) by lia.
    rewrite <-wrap_add_r, at_add_entry, wrap_add_r. fold a. f_equal. lia.
  - unfold publish_thread_stats. rewrite Htb. destruct (decide (tb = ∅)) as [->|Hne]; [f_equal; lia|].
    cbn [tls_profile global_stats]. rewrite list_insert_alter, (sum_map_alter _ _ _ _ _ Htb).
    set (a := field (at_ name tb)). set (g := field (at_ name (global_stats p))). set (s := sum_list _).
    assert (field (at_ name ∅) = 0) as -> by (unfold at_; rewrite lookup_empty; exact field_zero).
    replace (_ + (s + (0 - a))) with (s - a + field (at_ name (map_fold add_entry (global_stats p) tb))) by lia.
    rewrite <-wrap_add_r, at_merge, wrap_add_r. fold a g. f_equal. lia.
Qed.

Lemma length_step p e : length (tls_profile (profile_step p e)) = length (tls_profile p).
Proof.
  destruct e as [t n d|t]; cbn [profile_step]; [apply length_alter|]. unfold publish_thread_stats.
  destruct (_ !! _); [|done]. destruct (decide _); [done|]. apply length_insert.
Qed.

Definition sampled_sum (evs : list profile_event) : Z :=
  sum_list (map (λ e, match e with Sample _ n d => if decide (n = name) then field (mkPS 1 d) else 0 | Publish _ => 0 end) evs).

Lemma run_everywhere evs : ∀ p,
  Forall (λ e, (event_thread e < length (tls_profile p))%nat) evs →
  u64 (everywhere (fold_left profile_step evs p)) = u64 (everywhere p + sampled_sum evs).
Proof.
  unfold sampled_sum. induction evs as [|e evs IH]; intros p Hf; cbn [fold_left map sum_list]; [f_equal; lia|].
  apply Forall_cons_iff in Hf as [He Hf]. rewrite IH by (by rewrite length_step).
  rewrite <-wrap_add_l, step_everywhere, wrap_add_l by done. f_equal. lia.
Qed.

Lemma everywhere_init n : everywhere (profile_init n) = 0.
Proof.
  unfold everywhere, profile_init. cbn [tls_profile global_stats].
  assert (field (at_ name ∅) = 0) as H0 by (unfold at_; rewrite lookup_empty; exact field_zero). rewrite H0.
  induction n as [|n IH]; cbn [replicate map sum_list]; [done|]. rewrite H0. lia.
Qed.

Lemma everywhere_published p : Forall (λ t, t = ∅) (tls_profile p) → everywhere p = field (at_ name (global_stats p)).
Proof.
  unfold everywhere. intros H. assert (field (at_ name ∅) = 0) as H0 by (unfold at_; rewrite lookup_empty; exact field_zero).
  induction H as [|t l -> Hl IH]; cbn [map sum_list]; [lia|]. rewrite H0. lia.
Qed.
End conserved.

(** Profiling loses nothing.  Whatever the threads sample and publish, in any order,
    once every thread has published its table the global entry of a section holds the
    number of its samples and the sum of their durations (as 64-bit counters). *)
Theorem profile_complete threads evs name :
  Forall (λ e, (event_thread e < threads)%nat) evs →
  let p := fold_left profile_step evs (profile_init threads) in
  Forall (λ t, t = ∅) (tls_profile p) →
  u64 (ps_count (at_ name (global_stats p))) = u64 (sum_list (map (λ e, (sampled name e).1) evs)) ∧
  u64 (ps_total_ns (at_ name (global_stats p))) = u64 (sum_list (map (λ e, (sampled name e).2) evs)).
Proof.
  intros Hf p Hp. assert (Forall (λ e, (event_thread e < length (tls_profile (profile_init threads)))%nat) evs) as Hf'
    by (cbn; by rewrite length_replicate).
  split.
  - rewrite <-(everywhere_published ps_count name eq_refl p Hp). unfold p.
    rewrite run_everywhere, everywhere_init by (done || (intros; reflexivity)). f_equal. unfold sampled_sum. rewrite Z.add_0_l. f_equal.
    apply map_ext. intros [t n d|t]; cbn; [by destruct (decide _)|done].
  - rewrite <-(everywhere_published ps_total_ns name eq_refl p Hp). unfold p.
    rewrite run_everywhere, everywhere_init by (done || (intros; reflexivity)). f_equal. unfold sampled_sum. rewrite Z.add_0_l. f_equal.
    apply map_ext. intros [t n d|t]; cbn; [by destruct (decide _)|done].
Qed.

Lemma profile_complete_witness :
  let evs := [Sample 0 "read" 30; Sample 1 "read" 12; Publish 1; Sample 0 "write" 7; Sample 1 "read" 5; Publish 0; Publish 1] in
  let p := fold_left profile_step evs (profile_init 2) in
  u64 (ps_total_ns (at_ "read" (global_stats p))) = 47.
Proof.
  intros evs p. destruct (profile_complete 2 evs "read") as [_ H].
  - unfold evs. repeat (constructor; [cbn; lia|]). constructor.
  - constructor; [vm_compute; reflexivity|]. constructor; [vm_compute; reflexivity|constructor].
  - exact H.
Defined.

#[global] Instance longer_total : Total longer.
Proof. intros a b. unfold longer. lia. Qed.
#[global] Instance longer_trans : Transitive longer.
Proof. intros a b c. unfold longer. lia. Qed.

(** The report shows the sections with the largest total times: they are sections of
    the profile, at most 50, in decreasing order, and no section that is left out took
    longer than one that is shown. *)
Theorem top_sections_spec sections :
  ∃ hidden, sections ≡ₚ top_sections sections ++ hidden ∧ length (top_sections sections) = Nat.min 50 (length sections) ∧
    StronglySorted longer (top_sections sections) ∧ ∀ a b, a ∈ top_sections sections → b ∈ hidden → longer a b.
Proof.
  pose proof (merge_sort_Permutation longer sections) as Hp.
  assert (StronglySorted longer (merge_sort longer sections)) as Hs by (apply Sorted_StronglySorted; [apply _|apply Sorted_merge_sort, _]).
  set (n := Nat.min 50 (length sections)). exists (drop n (merge_sort longer sections)). unfold top_sections. fold n.
  rewrite <-(take_drop n (merge_sort longer sections)) in Hs. apply StronglySorted_app in Hs as (Hc & Hs & _).
  split; [by rewrite take_drop, Hp|]. split; [|by split].
  rewrite length_take, (Permutation_length Hp). lia.
Qed.

(** ** Logging *)

Definition level_num (l : LogLevel) : Z := match l with LOG_ERROR => 0 | LOG_WARN => 1 | LOG_INFO => 2 | LOG_DEBUG => 3 end.

(** A file: whether its stream is open, and its lines. *)
Record LogFile := mkLogFile { is_open : bool; log_lines : list (string * string) }.
(** The level, and [thread_log_streams()] by thread. *)
Record Logs := mkLogs { current_level : LogLevel; streams : gmap nat LogFile }.

Definition set_log_level (l : LogLevel) (g : Logs) : Logs := mkLogs l (streams g).

Definition setup_thread_log (tid : nat) (g : Logs) : Logs :=
  mkLogs (current_level g) (<[tid := mkLogFile true []]> (streams g)).

Definition close_thread_log (tid : nat) (g : Logs) : Logs :=
  mkLogs (current_level g) (alter (λ f, mkLogFile false (log_lines f)) tid (streams g)).

(** A closed stream takes nothing. *)
Definition append_line (line : string * string) (f : LogFile) : LogFile :=
  if is_open f then mkLogFile true (log_lines f ++ [line]) else f.

Definition log (tid : nat) (level : LogLevel) (message : string) (g : Logs) : Logs :=
  if level_num level <=? level_num (current_level g) then
    let g := match streams g !! tid with None => setup_thread_log tid g | Some _ => g end in
    mkLogs (current_level g) (alter (append_line (level_to_string level, message)) tid (streams g))
  else g.

(** The lines of a thread; a thread without a file has none. *)
Definition lines_of (tid : nat) (g : Logs) : list (string * string) :=
  match streams g !! tid with Some f => log_lines f | None => [] end.
Definition writable (tid : nat) (g : Logs) : Prop := ∀ f, streams g !! tid = Some f → is_open f = true.

(** What a sequence of calls writes for a thread. *)
Definition logged (tid : nat) (threshold : LogLevel) (calls : list (nat * LogLevel * string)) : list (string * string) :=
  omap (λ '(t, l, m), if (t =? tid)%nat && (level_num l <=? level_num threshold) then Some (level_to_string l, m) else None) calls.

Lemma log_step tid t level message g :
  writable tid g →
  let g' := log t level message g in
  current_level g' = current_level g ∧ writable tid g' ∧
  lines_of tid g' = lines_of tid g ++ logged tid (current_level g) [(t, level, message)].
Proof.
  intros Hw g'. unfold g', log, logged. cbn [omap list_omap].
  destruct (Z.leb_spec (level_num level) (level_num (current_level g))) as [Hl|Hl].
  2:{ rewrite andb_false_r. by rewrite app_nil_r. }
  rewrite andb_true_r. unfold lines_of, writable in *. destruct (Nat.eqb_spec t tid) as [->|Hne].
  - destruct (streams g !! tid) as [f|] eqn:E; cbn [current_level streams setup_thread_log].
    + specialize (Hw f eq_refl). rewrite lookup_alter_eq, E. cbn [fmap option_fmap option_map]. unfold append_line. rewrite Hw.
      split; [done|]. split; [by intros ? [= <-]|done].
    + rewrite lookup_alter_eq, lookup_insert_eq. cbn. split; [done|]. split; [by intros ? [= <-]|done].
  - assert (streams (match streams g !! t with None => setup_thread_log t g | Some _ => g end) !! tid = streams g !! tid) as Hs.
    { destruct (streams g !! t); [done|]. cbn. by rewrite lookup_insert_ne. }
    cbn [streams current_level]. rewrite lookup_alter_ne, Hs, app_nil_r by done.
    split; [by destruct (streams g !! t)|]. split; [done|done].
Qed.

(** What is logged.  Whatever the threads log, a thread whose file is not closed has
    gained exactly its own messages of the current level or a more severe one, in the
    order of its calls. *)
Theorem log_complete tid calls g :
  writable tid g →
  lines_of tid (fold_left (λ g '(t, l, m), log t l m g) calls g) = lines_of tid g ++ logged tid (current_level g) calls.
Proof.
  revert g. induction calls as [|[[t l] m] calls IH]; intros g Hw; cbn [fold_left]; [by rewrite app_nil_r|].
  destruct (log_step tid t l m g Hw) as (Hc & Hw' & Hl). rewrite IH, Hl, Hc by done. rewrite <-app_assoc. f_equal.
  unfold logged. cbn [omap list_omap]. by destruct (_ && _).
Qed.

Lemma log_complete_witness :
  let g := mkLogs LOG_INFO ∅ in
  lines_of 1 (fold_left (λ g '(t, l, m), log t l m g)
    [(1%nat, LOG_WARN, "a"); (2%nat, LOG_INFO, "b"); (1%nat, LOG_DEBUG, "c"); (1%nat, LOG_INFO, "d")] g) = [("WRN", "a"); ("INF", "d")].
Proof.
  intros g. rewrite (log_complete 1 _ g); [vm_compute; reflexivity|]. intros f Hf. discriminate Hf.
Defined.
