(* ===== verification/ReportJson.v ===== *)
(** * The files of the report (src/apps/kv_test.cpp: the JSON file of a thread,
    summary.json and profiling.json)

    The values written to the files, as trees with the names in the order of the
    source; white space and the three digits of a number are not modelled, and averages
    are rational numbers.  A latency
    is written as the number [calculate_percentile] gives, which need not be a number:
    the theorem says that it always is one in the files of a run, because every
    successful operation is sampled twice. *)

From stdpp Require Import sorting strings gmap.
From Stdlib Require Import QArith Qround Lqa SpecFloat.
From S2P Require Import Prelude GlobalAddress ArrayVar RdmaSim ThreadStats RdmaManager Percentiles Workload Tally Report Config Runtime.
Local Open Scope Z_scope.

Inductive json :=
  | JNull
  | JInt (n : Z)
  | JDouble (d : double)
  | JQ (q : Q)
  | JLatency (r : reading)
  | JString (s : string)
  | JList (l : list json)
  | JObject (fields : list (string * json)).

(** The three percentiles of a histogram, or three times [null]. *)
Definition percentile_fields (ps : option (reading * reading * reading)) : list (string * json) :=
  match ps with
  | Some (p50, p95, p99) =>
      [("p50_latency_us", JLatency p50); ("p95_latency_us", JLatency p95); ("p99_latency_us", JLatency p99)]
  | None => [("p50_latency_us", JNull); ("p95_latency_us", JNull); ("p99_latency_us", JNull)]
  end.

(** ** The file of a thread *)

Definition entry_json (e : OperationEntry) : json :=
  JObject ([("successes", JInt (successes e)); ("failures", JInt (failures e))] ++
    percentile_fields (if Latency.has_samples (latency_samples e)
                       then Some (calculate_standard_percentiles (latency_samples e)) else None) ++
    [("sample_count", JInt (Latency.sample_count (latency_samples e)));
     ("cache_hits", JInt (CacheStats.hits_ (cache_stats e))); ("cache_misses", JInt (CacheStats.misses_ (cache_stats e)));
     ("local_lock_acquisitions", JInt (local_lock_acquisitions e)); ("local_lock_handovers", JInt (local_lock_handovers e))]).

Definition thread_json (cs_id tid : Z) (th : Thread) : json :=
  let summary := th_summary th in
  JObject [("compute_server", JInt cs_id); ("thread", JInt tid);
    ("attempted", JInt (attempted summary)); ("succeeded", JInt (succeeded summary));
    ("elapsed_sec", JDouble (elapsed_sec summary));
    ("attempted_ops_per_sec", JDouble (attempted_throughput summary));
    ("succeeded_ops_per_sec", JDouble (succeeded_throughput summary));
    ("operations", JObject (map (λ k, (operation_name k, entry_json (per_op k (th_stats th)))) all_kinds))].

(** ** summary.json *)

Definition section_json (s : ProfileStats) : json :=
  JObject [("count", JInt (ps_count s)); ("total_ns", JInt (ps_total_ns s)); ("avg_ns", JQ (average_ns s))].

Definition agg_json (a : AggregatedOpStats) : json :=
  JObject ([("successes", JInt (agg_successes a)); ("failures", JInt (agg_failures a))] ++
    percentile_fields (if 0 <? agg_sample_count a then Some (p50_latency a, p95_latency a, p99_latency a) else None) ++
    [("sample_count", JInt (agg_sample_count a))]).

Definition global_json (g : GlobalLatency) : json :=
  JObject ([("successes", JInt (global_successes g)); ("failures", JInt (global_failures g))] ++
    percentile_fields (global_percentiles g) ++ [("sample_count", JInt (global_sample_count g))]).

(** [write_throughput_entry] *)
Definition throughput_entry (elapsed_seconds : double) (attempted_count success_count : Z) : json :=
  JObject [("attempted_ops_per_sec", JDouble (throughput elapsed_seconds attempted_count));
           ("succeeded_ops_per_sec", JDouble (throughput elapsed_seconds success_count))].

Definition throughput_json (opened : nat → nat → bool) (elapsed_seconds : double) (compute_servers : Servers) : json :=
  let t := collect_totals compute_servers in
  let entry k n := (operation_name k, throughput_entry elapsed_seconds n (agg_successes (op_total opened k compute_servers))) in
  JObject [("window_sec", JDouble elapsed_seconds);
    ("attempted_ops_per_sec", JDouble (throughput elapsed_seconds (total_attempted t)));
    ("succeeded_ops_per_sec", JDouble (throughput elapsed_seconds (total_succeeded t)));
    ("per_operation", JObject [entry Insert (total_insert_count t); entry Read (total_read_count t);
                               entry Update (total_update_count t); entry Delete (total_delete_count t)])].

(** The entries, evictions and invalid ranges are never counted, and the list of
    servers is empty. *)
Definition cache_json (c : Z * Z) : json :=
  JObject [("total_hits", JInt c.1); ("total_misses", JInt c.2); ("total_hit_rate", JDouble (overall_hit_rate c));
    ("total_entries", JInt 0); ("total_evictions", JInt 0); ("total_invalid_ranges", JInt 0); ("per_cs", JList [])].

Definition distribution_json (d : list (Z * Z)) : json :=
  JList (map (λ '(v, c), JObject [("value", JInt v); ("count", JInt c)]) d).

Definition discrete_json (h : Discrete.DiscreteHistogram) : json :=
  JObject [("average", JQ (Discrete.get_average h)); ("total_samples", JInt (Discrete.total_samples_ h));
    ("histogram", distribution_json (Discrete.get_distribution h))].

Definition metrics_json (m : RdmaMetrics) : json :=
  JObject [("rtt_distribution", discrete_json (rtt_histogram m));
    ("rdma_ops_per_operation",
      JObject (zip_with (λ name h, (name, discrete_json h)) ["READ"; "WRITE"; "CAS"; "FAA"] (rdma_op_histograms m)));
    ("bytes_transferred",
      JObject [("read_avg_bytes", JQ (LogBytes.get_average_bytes (bytes_read_histogram m)));
        ("read_total_bytes", JInt (LogBytes.total_bytes_ (bytes_read_histogram m)));
        ("read_histogram", distribution_json (LogBytes.get_distribution (bytes_read_histogram m)));
        ("written_avg_bytes", JQ (LogBytes.get_average_bytes (bytes_written_histogram m)));
        ("written_total_bytes", JInt (LogBytes.total_bytes_ (bytes_written_histogram m)));
        ("written_histogram", distribution_json (LogBytes.get_distribution (bytes_written_histogram m)))]);
    ("retry_distribution", discrete_json (retry_histogram m))].

Definition locks_json (c : Z * Z) : json :=
  JObject [("total_acquisitions", JInt c.1); ("total_handovers", JInt c.2); ("handover_rate", JDouble (handover_rate c))].

(** [rdma_stats.op_counts] and [total_rtt_ns] of [collect_stats]. *)
Definition rdma_json (m : RDMAManager) : json :=
  let '(op_counts, total_rtt_ns, _) := collect_stats m in
  JObject [("total_rtt_ms", JDouble (ddiv (of_size total_rtt_ns) (of_size 1000000))); ("op_counts", JList (map JInt op_counts))].

Definition summary_json (opened : nat → nat → bool) (elapsed_seconds : double) (compute_servers : Servers)
    (maintenance : list (list (list OperationEntry))) (profiler_sections : list (string * ProfileStats)) (m : RDMAManager) : json :=
  let t := collect_totals compute_servers in
  JObject [("total_attempted", JInt (total_attempted t)); ("total_succeeded", JInt (total_succeeded t));
    ("elapsed_sec", JDouble elapsed_seconds);
    ("operation_counts",
      JObject [("insert", JInt (total_insert_count t)); ("read", JInt (total_read_count t));
               ("update", JInt (total_update_count t)); ("delete", JInt (total_delete_count t))]);
    ("profiling", JObject (map (λ '(name, s), (name, section_json s)) profiler_sections));
    ("per_client_throughput",
      JObject [("sum_attempted_ops_per_sec", JDouble (sum_attempted_throughput t));
               ("sum_succeeded_ops_per_sec", JDouble (sum_succeeded_throughput t))]);
    ("per_operation_latency", JObject (map (λ k, (operation_name k, agg_json (op_total opened k compute_servers))) all_kinds));
    ("global_latency", global_json (global_latency opened compute_servers));
    ("rdma", rdma_json m);
    ("throughput", throughput_json opened elapsed_seconds compute_servers);
    ("cache", cache_json (cache_totals compute_servers maintenance));
    ("per_operation_rdma_metrics", JObject (map (λ k, (operation_name k, metrics_json (rdma_metrics k compute_servers))) all_kinds));
    ("local_locks", locks_json (lock_totals compute_servers maintenance))].

(** ** profiling.json: the sections by name, when there are any *)

Definition by_name : relation (string * ProfileStats) := λ a b, String.leb a.1 b.1 = true.
#[global] Instance by_name_dec : RelDecision by_name.
Proof. intros a b. unfold by_name. apply _. Defined.

Definition profiling_json (profiler_sections : list (string * ProfileStats)) : option json :=
  match profiler_sections with
  | [] => None
  | _ =>
      Some (JObject [("sections", JList (map (λ '(name, s),
        JObject [("name", JString name); ("count", JInt (ps_count s)); ("total_ns", JInt (ps_total_ns s));
          ("total_ms", JDouble (ddiv (of_size (ps_total_ns s)) (of_size 1000000))); ("avg_ns", JQ (average_ns s))])
        (merge_sort by_name profiler_sections)))])
  end.

(** ** Latencies are numbers *)

(** Comparing terms, the loops over the buckets are unfolded last. *)
#[local] Opaque merge_latency hist calculate_percentile Discrete.get_distribution LogBytes.get_distribution.
#[local] Strategy 1000 [merge_latency hist calculate_percentile Discrete.get_distribution LogBytes.get_distribution].

(** Every latency in the tree is a number. *)
Fixpoint numeric (j : json) : bool :=
  match j with
  | JLatency r => match r with Num _ => true | _ => false end
  | JList l => forallb numeric l
  | JObject fields => forallb (λ f, numeric f.2) fields
  | _ => true
  end.

Lemma percentile_number l p : Z.of_nat (length l) < 2 ^ 64 → (1 # 2 <= p)%Q → (p <= 1)%Q → (2 ≤ length l)%nat →
  ∃ q, calculate_percentile p (hist l) = Num q.
Proof.
  intros Hl H1 H2 Hn. assert (1 ≤ rank p l) as Hr.
  { unfold rank. rewrite <-(Qfloor_Z 1). apply Qfloor_resp_le. change (inject_Z 1) with 1%Q.
    assert (2 <= inject_Z (Z.of_nat (length l)))%Q as Hq by (change 2%Q with (inject_Z 2); rewrite <-Zle_Qle; lia). nra. }
  destruct (calculate_percentile_spec l p Hl H2 Hr) as [(j & _ & _ & ->)|[_ ->]]; by eexists.
Qed.

Lemma standard_numbers l : Z.of_nat (length l) < 2 ^ 64 → (2 ≤ length l)%nat →
  ∃ a b c, calculate_standard_percentiles (hist l) = (Num a, Num b, Num c).
Proof.
  intros Hl Hn. unfold calculate_standard_percentiles.
  destruct (percentile_number l (50 # 100) Hl) as [a ->]; [done|done|done|].
  destruct (percentile_number l (95 # 100) Hl) as [b ->]; [done|done|done|].
  destruct (percentile_number l (99 # 100) Hl) as [c ->]; [done|done|done|]. by exists a, b, c.
Qed.

(** The three percentiles of a histogram with no sample or at least two. *)
Lemma percentiles_numeric l (has : bool) : Z.of_nat (length l) < 2 ^ 64 → length l ≠ 1%nat → (has = true → l ≠ []) →
  forallb (λ f : string * json, numeric f.2)
    (percentile_fields (if has then Some (calculate_standard_percentiles (hist l)) else None)) = true.
Proof.
  intros Hl H1 Hhas. destruct has; [|done]. specialize (Hhas eq_refl).
  destruct (standard_numbers l Hl) as (a & b & c & ->); [|done]. destruct l as [|x [|y l]]; cbn in *; [done|done|lia].
Qed.

Lemma numeric_object fields : numeric (JObject fields) = forallb (λ f, numeric f.2) fields.
Proof. done. Qed.

Lemma numeric_map {A} (g : A → string * json) l : (∀ a, numeric (g a).2 = true) → numeric (JObject (map g l)) = true.
Proof. intros H. rewrite numeric_object. induction l as [|a l IH]; cbn [map forallb]; [done|]. by rewrite H. Qed.

Lemma numeric_list {A} (g : A → json) l : (∀ a, numeric (g a) = true) → numeric (JList (map g l)) = true.
Proof. intros H. cbn [numeric]. induction l as [|a l IH]; cbn [map forallb]; [done|]. by rewrite H. Qed.

Lemma numeric_distribution d : numeric (distribution_json d) = true.
Proof. unfold distribution_json. apply numeric_list. by intros []. Qed.

Lemma numeric_discrete h : numeric (discrete_json h) = true.
Proof. unfold discrete_json. rewrite numeric_object. cbn [forallb snd]. by rewrite numeric_distribution. Qed.

Lemma numeric_metrics m : numeric (metrics_json m) = true.
Proof.
  unfold metrics_json. rewrite numeric_object. cbn [forallb snd]. rewrite !numeric_discrete, !numeric_object. cbn [forallb snd].
  rewrite !numeric_distribution. cbn [numeric andb]. rewrite !andb_true_r.
  generalize ["READ"; "WRITE"; "CAS"; "FAA"]. intros names. generalize (rdma_op_histograms m).
  induction names as [|n names IH]; intros [|h hs]; cbn [zip_with forallb snd]; try done. by rewrite IH, numeric_discrete.
Qed.

(** ** The latencies of accounted threads *)

Definition samples (k : OperationKind) (ps : list Progress) : list (list Z) := map (λ p, twice (latencies k p)) ps.
Definition short_run (p : Progress) : Prop := Forall small_latency (put_latencies p) ∧ Forall small_latency (get_latencies p).

Lemma twice_length l : length (twice l) = (2 * length l)%nat.
Proof. unfold twice. induction l as [|x l IH]; cbn [map concat]; [done|]. rewrite length_app, IH. cbn [length]. lia. Qed.

Lemma twice_small l : Forall small_latency l → Forall small_latency (twice l).
Proof. unfold twice. induction 1 as [|x l Hx Hl IH]; cbn [map concat app]; [constructor|]. constructor; [done|]. by constructor. Qed.

Lemma samples_length k ps : Z.of_nat (length (concat (samples k ps))) = 2 * sum_of (λ p, Z.of_nat (length (latencies k p))) ps.
Proof.
  rewrite <-sum_of_twice. unfold samples, sum_of. induction ps as [|p ps IH]; cbn [map concat sum_list]; [done|].
  rewrite length_app, twice_length. lia.
Qed.

Lemma samples_small k ps : Forall short_run ps → Forall (Forall small_latency) (samples k ps).
Proof.
  unfold samples. induction 1 as [|p ps [H1 H2] Hps IH]; cbn [map]; [constructor|].
  constructor; [|done]. apply twice_small. by destruct k; cbn [latencies].
Qed.

Lemma accounted_samples k ps ths : Forall2 thread_accounted ps ths → Forall2 (latencies_of k) (samples k ps) ths.
Proof.
  unfold samples. induction 1 as [|p th ps ths (_ & Hc & _) H IH]; cbn [map]; [constructor|]. constructor; [|done].
  by apply op_counts_per_op.
Qed.

(** The samples of all kinds together fit in a counter. *)
Lemma samples_total ps : Forall progress_range ps →
  Z.of_nat (length (concat (concat (map (λ k, samples k ps) all_kinds)))) ≤ 2 * sum_of tried ps.
Proof.
  intros Hr. cbn [all_kinds map concat]. rewrite app_nil_r, !concat_app, !length_app, !Nat2Z.inj_add, !samples_length.
  pose proof (sum_of_bounds (λ p, puts_ok p + gets_ok p) ps Hr) as Hb.
  rewrite (sum_of_plus _ puts_ok gets_ok) in Hb by done.
  assert (∀ ps : list Progress, sum_of (λ p, Z.of_nat (@length Z [])) ps = 0) as H0
    by (intros qs; unfold sum_of; induction qs as [|q qs IH]; cbn [map sum_list]; [done|by rewrite IH]).
  cbn [latencies]. rewrite !H0. unfold puts_ok, gets_ok in Hb.
  destruct Hb as [_ Hb]; [intros p; unfold progress_range, tried, puts_ok, gets_ok; lia|]. lia.
Qed.

Lemma agg_counts_samples opened k (compute_servers : Servers) : agg_sample_count (agg_counts opened k compute_servers) = 0.
Proof.
  assert (∀ i ths a, agg_sample_count (fold_left (λ a '(tid, th), agg_thread (opened i tid) k a th) ths a) = agg_sample_count a) as Hin.
  { intros i ths. induction ths as [|[j th] ths IH]; intros a; cbn [fold_left]; [done|]. rewrite IH. unfold agg_thread. by case_match. }
  unfold agg_counts. change 0 with (agg_sample_count agg_init). generalize agg_init.
  induction (imap pair compute_servers) as [|[i ths] l IH]; intros a; cbn [fold_left]; [done|]. by rewrite IH, Hin.
Qed.

Section files.
Context (compute_servers : Servers) (ps : list Progress) (opened : nat → nat → bool).
Hypothesis Hps : Forall2 thread_accounted ps (concat compute_servers).
Hypothesis Hsmall : Forall short_run ps.
Hypothesis Hfit : 2 * sum_of tried ps < 2 ^ 64.

Lemma kind_length k : Z.of_nat (length (concat (samples k ps))) < 2 ^ 64.
Proof.
  pose proof (samples_total ps (accounted_range _ _ Hps)) as Ht. cbn [all_kinds map concat] in Ht.
  rewrite app_nil_r, !concat_app, !length_app, !Nat2Z.inj_add in Ht. destruct k; lia.
Qed.

Lemma kind_even k : length (concat (samples k ps)) ≠ 1%nat.
Proof. pose proof (samples_length k ps). lia. Qed.

Lemma op_total_count k : agg_sample_count (op_total opened k compute_servers) = Z.of_nat (length (concat (samples k ps))).
Proof.
  unfold op_total. rewrite (count_samples_hist _ _ _ (accounted_samples k _ _ Hps)) by apply kind_length.
  destruct (Z.ltb_spec 0 (Z.of_nat (length (concat (samples k ps))))).
  - by destruct (calculate_standard_percentiles _) as [[? ?] ?].
  - rewrite agg_counts_samples. lia.
Qed.

Lemma agg_numeric k : numeric (agg_json (op_total opened k compute_servers)) = true.
Proof.
  pose proof (kind_length k) as Hl. pose proof (kind_even k) as He. pose proof (accounted_samples k _ _ Hps) as Hk.
  unfold agg_json. rewrite op_total_count.
  destruct (Z.ltb_spec 0 (Z.of_nat (length (concat (samples k ps))))) as [Hp|Hp]; [|done].
  unfold op_total. rewrite (count_samples_hist _ _ _ Hk), (merge_threads_hist _ _ _ _ Hk), merge_all_latencies
    by (done || by apply samples_small).
  rewrite (proj2 (Z.ltb_lt 0 _)) by done.
  by destruct (standard_numbers (concat (samples k ps))) as (a & b & c & ->); [done|lia|].
Qed.

Lemma global_merged : fold_left (λ m k, merge_threads k m compute_servers) all_kinds Latency.init =
  hist (concat (concat (map (λ k, samples k ps) all_kinds))).
Proof.
  pose proof (samples_total ps (accounted_range _ _ Hps)) as Ht.
  rewrite <-merge_all_latencies; [|lia|].
  - cbn [all_kinds map concat fold_left]. rewrite app_nil_r, !fold_left_app.
    by rewrite <-!(merge_threads_hist _ _ _ _ (accounted_samples _ _ _ Hps)).
  - cbn [all_kinds map concat]. rewrite app_nil_r, !Forall_app. split_and!; by apply samples_small.
Qed.

Lemma global_count : global_sample_count (global_latency opened compute_servers) =
  Z.of_nat (length (concat (concat (map (λ k, samples k ps) all_kinds)))).
Proof.
  pose proof (samples_total ps (accounted_range _ _ Hps)) as Ht. cbn [all_kinds map concat] in *.
  rewrite app_nil_r, !concat_app, !length_app, !Nat2Z.inj_add in Ht. rewrite app_nil_r, !concat_app, !length_app, !Nat2Z.inj_add.
  unfold global_latency. cbn [global_sample_count]. apply (fold_sum_0 agg_sample_count); [|unfold in_width; lia].
  cbn [all_kinds map sum_list]. rewrite !op_total_count. lia.
Qed.

Lemma global_numeric : numeric (global_json (global_latency opened compute_servers)) = true.
Proof.
  pose proof global_count as Hc. pose proof (samples_total ps (accounted_range _ _ Hps)) as Ht.
  set (l := concat (concat (map (λ k, samples k ps) all_kinds))) in *.
  assert (global_percentiles (global_latency opened compute_servers) =
    if 0 <? Z.of_nat (length l) then Some (calculate_standard_percentiles (hist l)) else None) as Hp.
  { rewrite <-Hc. unfold l. rewrite <-global_merged. reflexivity. }
  unfold global_json. rewrite numeric_object, !forallb_app, Hp. cbn [forallb snd numeric andb]. rewrite andb_true_r.
  apply percentiles_numeric; [lia| |].
  - unfold l. cbn [all_kinds map concat]. rewrite app_nil_r, !concat_app, !length_app.
    pose proof (samples_length Insert ps). pose proof (samples_length Read ps). pose proof (samples_length Update ps).
    pose proof (samples_length Delete ps). lia.
  - intros H%Z.ltb_lt E. by rewrite E in H.
Qed.
End files.

Lemma thread_numeric cs_id tid p th : thread_accounted p th → 2 * tried p < 2 ^ 64 → numeric (thread_json cs_id tid th) = true.
Proof.
  intros (Hr & Hc & _) Hfit. unfold thread_json. cbv zeta. rewrite numeric_object. cbn [forallb snd].
  rewrite numeric_map; [done|]. intros k. cbn [snd]. unfold entry_json. rewrite numeric_object, !forallb_app.
  destruct (op_counts_per_op k p _ Hc) as (_ & _ & ->).
  assert (Z.of_nat (length (twice (latencies k p))) ≤ 2 * tried p) as Hl.
  { rewrite twice_length. unfold progress_range, tried, puts_ok, gets_ok in *. destruct k; cbn [latencies length]; lia. }
  rewrite percentiles_numeric; [done|lia|rewrite twice_length; lia|]. intros H E. by rewrite E in H.
Qed.

Lemma tried_sum p ps : Forall progress_range ps → p ∈ ps → tried p ≤ sum_of tried ps.
Proof.
  intros Hr (l1 & l2 & ->)%list_elem_of_split. apply Forall_app in Hr as [H1 [_ H2]%Forall_cons_iff].
  pose proof (sum_of_bounds (λ _, 0) l1 H1). pose proof (sum_of_bounds (λ _, 0) l2 H2).
  unfold sum_of in *. rewrite map_app, sum_list_app. cbn [map sum_list].
  assert (∀ p, progress_range p → 0 ≤ 0 ≤ tried p) as Ht by (unfold progress_range, tried; lia).
  specialize (H Ht). specialize (H0 Ht). lia.
Qed.

(** C31: the latencies in the files of a run are numbers.  When every thread ends as the
    run of its client leaves it, no successful operation took as long as the last bucket
    of the histograms, and the counts fit in 64 bits, every latency in summary.json and
    in the files of the threads is a number: an operation that succeeded was sampled
    twice, and the percentiles of at least two samples are numbers, while those of a
    single one need not be. *)
Theorem report_files_numeric (compute_servers : Servers) ps opened elapsed_seconds maintenance profiler_sections m cs_id tid :
  Forall2 thread_accounted ps (concat compute_servers) → Forall short_run ps → 2 * sum_of tried ps < 2 ^ 64 →
  numeric (summary_json opened elapsed_seconds compute_servers maintenance profiler_sections m) = true ∧
  Forall (λ th, numeric (thread_json cs_id tid th) = true) (concat compute_servers).
Proof.
  intros Hps Hs Hfit. split.
  - unfold summary_json. cbv zeta. rewrite numeric_object. cbn [forallb snd].
    rewrite (global_numeric _ _ opened Hps Hs Hfit).
    rewrite (numeric_map (λ k, (operation_name k, agg_json _))) by (intros; by apply agg_numeric with ps).
    rewrite (numeric_map (λ k, (operation_name k, metrics_json _))) by (intros; apply numeric_metrics).
    rewrite (numeric_map (λ '(name, s), (name, section_json s))) by (by intros []).
    unfold rdma_json. destruct (collect_stats m) as [[cs t] z].
    rewrite (numeric_object [_; ("op_counts", _)]). cbn [forallb snd]. by rewrite (numeric_list JInt).
  - apply list.Forall_forall. intros th (i & Hth)%list_elem_of_lookup.
    destruct (Forall2_lookup_r _ _ _ _ _ Hps Hth) as (p & Hp & Hac). eapply thread_numeric; [exact Hac|].
    pose proof (tried_sum p ps (accounted_range _ _ Hps) (list_elem_of_lookup_2 _ _ _ Hp)). lia.
Qed.

(** A single sample, as [record_operation] alone would leave it, has no median. *)
Example single_sample_not_numeric : numeric (entry_json (entry_record_operation 1200 true entry_init)) = false.
Proof. vm_compute. reflexivity. Qed.

Lemma report_files_numeric_witness :
  numeric (summary_json (λ _ _, true) (of_size 1) [[demo_thread1]; [demo_thread2]] [] [] (manager_init 1 Z.of_nat)) = true.
Proof.
  apply (report_files_numeric [[demo_thread1]; [demo_thread2]] [mkProgress 1 [1200] 0 [] 0; mkProgress 0 [] 1 [] 1]
    (λ _ _, true) (of_size 1) [] [] (manager_init 1 Z.of_nat) 0 0).
  - constructor; [|constructor; [|constructor]];
      (split; [unfold progress_range, puts_ok, gets_ok; cbn; lia|split; [vm_compute; reflexivity|split; vm_compute; reflexivity]]).
  - constructor; [|constructor; [|constructor]]; (split; cbn; [|constructor]).
    + constructor; [unfold small_latency; lia|constructor].
    + constructor.
  - reflexivity.
Defined.
