(* ===== verification/CacheBench.v ===== *)
(** * The benchmark of the range cache (src/cache/bench.cpp)

    The options, the iteration of a worker (a writer adds ranges and now and then
    removes one, a reader searches and checks that the entry it gets covers the key),
    and the totals with the exit code.  [Bench] is the shared cache with the
    thread-local variables of every worker, the shared counter of added ranges, and the
    local counters and the program points of the workers; a run is a sequence of steps
    of the workers in any order.  One operation of the cache is one step, and so is the
    check of the entry that a search has returned, so other workers run between the
    search of an iteration and its check or its removal; what happens inside the
    operations of the cache when they overlap is in RangeEpoch.v.

    The clock that ends the loop, the short pauses and the reporter thread only decide
    how many steps there are; [getopt] and [std::stoul] have turned the command
    line into the options below. *)

From S2P Require Import Prelude Queue MemoryServer Slab SimpleAllocator RangeCache RangeSpec ThreadStats.

(** [read_ratio] and [sampling_ms] are left out: they decide nothing. *)
Record Config := mkConfig { threads : Z; writers : Z; duration_s : Z; max_entries : Z }.
Definition config_init : Config := mkConfig 8 8 10 (Z.shiftl 1 14).

(** An option with its number; [OptRatio] sets [read_ratio]. *)
Inductive option_arg :=
  | OptThreads (n : Z) | OptWriters (n : Z) | OptDuration (n : Z) | OptEntries (n : Z) | OptRatio | OptHelp | OptUnknown.

Fixpoint parse (opts : list option_arg) (cfg : Config) : Z + Config :=
  match opts with
  | [] => inr cfg
  | o :: opts' =>
      match o with
      | OptThreads n => parse opts' (mkConfig (u32 n) (writers cfg) (duration_s cfg) (max_entries cfg))
      | OptWriters n => parse opts' (mkConfig (threads cfg) (u32 n) (duration_s cfg) (max_entries cfg))
      | OptDuration n => parse opts' (mkConfig (threads cfg) (writers cfg) (u32 n) (max_entries cfg))
      | OptEntries n => parse opts' (mkConfig (threads cfg) (writers cfg) (duration_s cfg) n)
      | OptRatio => parse opts' cfg
      | OptHelp => inl 0
      | OptUnknown => inl 1
      end
  end.

(** The exit code, or the configuration the workers run with. *)
Definition configure (opts : list option_arg) : Z + Config :=
  match parse opts config_init with
  | inl code => inl code
  | inr cfg =>
      if (threads cfg =? 0) || (threads cfg <? writers cfg) then inl 1
      else inr (if 64 <? threads cfg then mkConfig 64 (writers cfg) (duration_s cfg) (max_entries cfg) else cfg)
  end.

(** The roles of the workers. *)
Definition is_writer (cfg : Config) (tid : nat) : bool := Z.of_nat tid <? writers cfg.

Section bench.
Context {Q : Type → Type} `{!ConcurrentQueue Q} {L : Type} `{!SkipList L} {S : Type} `{!ChunkAllocator S}.
Abbreviation CW := (CacheWorld (Q := Q) (L := L) (S := S) (Item := Z)).

Definition KEY_SPACE : Z := Z.shiftl 1 30.
Definition RANGE_LEN : Z := 256.

(** The thread-local variables of the cache. *)
Record Tls := mkTls { t_record : option nat; t_counter : Z; t_xorshift : Z }.
Definition load_tls (t : Tls) (w : CW) : CW :=
  set_xorshift (t_xorshift t) (random_device w) (set_counter (t_counter t) (set_tls (t_record t) w)).
Definition save_tls (w : CW) : Tls := mkTls (tls_tr_ w) (tls_local_access_counter_ w) (tls_xorshift_state_ w).

Record Locals := mkLocals { local_ops : Z; local_hits : Z; local_misses : Z; local_errors : Z }.

(** Where a worker is: before an iteration; before the [add] of a writer, its search and
    its [invalidate]; before the check of a reader. *)
Inductive bench_pc := Ready | ToAdd (base : Z) | ToSearch | ToRemove (ent : Z) | ToCheck (k ent : Z).

Record Worker := mkWorker { w_tls : Tls; w_locals : Locals; w_pc : bench_pc }.

Record Bench := mkBench { cache : CW; global_adds : Z; workers : list Worker }.

Definition bench_init (c : CW) (n : nat) : Bench := mkBench c 0 (replicate n (mkWorker (mkTls None 0 0) (mkLocals 0 0 0 0) Ready)).

(** A cache operation of the worker [tid]. *)
Definition on_cache {A} (tid : nat) (m : M CW A) : M Bench A := λ b,
  match workers b !! tid with
  | None => Fault OutOfBounds b
  | Some wk =>
      let put c := mkBench c (global_adds b) (<[tid := mkWorker (save_tls c) (w_locals wk) (w_pc wk)]> (workers b)) in
      match m (load_tls (w_tls wk) (cache b)) with
      | Done a c => Done a (put c)
      | Fault f c => Fault f (put c)
      end
  end.

(** Counting, and going on at another point. *)
Definition on_worker (tid : nat) (f : Locals → Locals) (pc : bench_pc) : M Bench unit :=
  modify (λ b, mkBench (cache b) (global_adds b) (alter (λ wk, mkWorker (w_tls wk) (f (w_locals wk)) pc) tid (workers b))).

Definition add_op (l : Locals) : Locals := mkLocals (u64 (local_ops l + 1)) (local_hits l) (local_misses l) (local_errors l).
Definition add_hit (l : Locals) : Locals := mkLocals (local_ops l) (u64 (local_hits l + 1)) (local_misses l) (local_errors l).
Definition add_miss (l : Locals) : Locals := mkLocals (local_ops l) (local_hits l) (u64 (local_misses l + 1)) (local_errors l).
Definition add_error (l : Locals) : Locals := mkLocals (local_ops l) (local_hits l) (local_misses l) (u64 (local_errors l + 1)).

(** [global_adds.fetch_add(1)] *)
Definition fetch_add : M Bench Z := λ b, Done (global_adds b) (mkBench (cache b) (u64 (global_adds b + 1)) (workers b)).

(** The steps of a writer; [dice] is the random number that decides about a removal,
    [k] the random key to look for. *)
Definition writer_start (tid : nat) : M Bench unit := n ← fetch_add; on_worker tid id (ToAdd (n mod KEY_SPACE)).
Definition writer_add (tid : nat) (base dice : Z) : M Bench unit :=
  _ ← on_cache tid (add base (base + RANGE_LEN) base);
  on_worker tid add_op (if Z.land dice 0xff =? 0 then ToSearch else Ready).
Definition writer_search (tid : nat) (k : Z) : M Bench unit :=
  ent ← on_cache tid (search k);
  on_worker tid id (match ent with None => Ready | Some off => ToRemove off end).
Definition writer_remove (tid : nat) (ent : Z) : M Bench unit :=
  _ ← on_cache tid (invalidate (Some ent)); on_worker tid id Ready.

(** The steps of a reader with the random key [k]. *)
Definition reader_search (tid : nat) (k : Z) : M Bench unit :=
  ent ← on_cache tid (search k);
  match ent with
  | None => on_worker tid (add_miss ∘ add_op) Ready
  | Some off => on_worker tid add_op (ToCheck k off)
  end.
Definition reader_check (tid : nat) (k ent : Z) : M Bench unit :=
  e ← on_cache tid (load_entry ent);
  on_worker tid (if negb ((start e <=? k) && (k <? end_ e)) then add_error else add_hit) Ready.

(** A step of a worker: its number and the random numbers it draws, if it does. *)
Definition worker_step (cfg : Config) (i : nat * Z * Z) : M Bench unit :=
  let '(tid, dice, k) := i in
  b ← get;
  match w_pc <$> workers b !! tid with
  | None => raise OutOfBounds
  | Some Ready => if is_writer cfg tid then writer_start tid else reader_search tid k
  | Some (ToAdd base) => writer_add tid base dice
  | Some ToSearch => writer_search tid k
  | Some (ToRemove ent) => writer_remove tid ent
  | Some (ToCheck key ent) => reader_check tid key ent
  end.

Fixpoint run (cfg : Config) (schedule : list (nat * Z * Z)) : M Bench unit :=
  match schedule with
  | [] => mret tt
  | i :: schedule' => _ ← worker_step cfg i; run cfg schedule'
  end.

(** The totals of the workers, and the exit code. *)
Definition totals (b : Bench) : Locals :=
  fold_left (λ t wk, let l := w_locals wk in
    mkLocals (u64 (local_ops t + local_ops l)) (u64 (local_hits t + local_hits l)) (u64 (local_misses t + local_misses l))
      (u64 (local_errors t + local_errors l))) (workers b) (mkLocals 0 0 0 0).
Definition exit_code (b : Bench) : Z := if 0 <? local_errors (totals b) then 2 else 0.

(** ** The entries that are not yet reclaimed *)

(** The entry at [off] covers the key and its slab is not free. *)
Definition found (w : CW) (k off : Z) : Prop :=
  off ∈ listed w ++ retired w ∧ ∃ e, entries_at w !! off = Some e ∧ start e ≤ k < end_ e.

(** Between [w] and [w'] no slab was reclaimed: what was found is still there. *)
Definition kept (w w' : CW) : Prop := ∀ k off, found w k off → found w' k off.

#[export] Instance kept_preorder : PreOrder kept.
Proof. split; [by intros w k off|]. intros w1 w2 w3 H1 H2 k off H. by apply H2, H1. Qed.

Lemma load_tls_same t w : same_core w (load_tls t w).
Proof. by split. Qed.

Lemma same_kept w w' : same_core w w' → kept w w' ∧ free_offsets w' = free_offsets w.
Proof.
  intros [H1 H2 H3 _ H5]. unfold kept, found, listed, retired, free_offsets. rewrite H1, H2, H3, H5. by split.
Qed.

(** An operation that reclaims nothing. *)
Record gentle (used : nat) (w w' : CW) : Prop := mkGentle {
  gt_inv : rc_inv [] w';
  gt_kept : kept w w';
  gt_free : (length (free_offsets w) ≤ used + length (free_offsets w'))%nat
}.

Lemma search_gentle k w : rc_inv [] w →
  ∃ r w', search k w = Done r w' ∧ gentle 0 w w' ∧ match r with None => True | Some off => found w' k off end.
Proof.
  intros Hi. destruct (search_run k w Hi) as (r & w' & H & Hi' & _ & Hk & Hr). exists r, w'. split; [done|].
  pose proof (search_places _ _ _ _ H) as [= Hl Hq Hs].
  assert (listed w' ++ retired w' = listed w ++ retired w) as Hp by (unfold listed, retired; congruence). split.
  - split; [done| |unfold free_offsets; by rewrite Hs]. intros k' off [Hin (e & He & Hc)]. split; [by rewrite Hp|].
    destruct (Hk off e He) as (e' & He' & H1 & H2 & _). exists e'. by rewrite H1, H2.
  - destruct (sl_find_le k (list_ (rc w))) as [n|] eqn:E; [|by subst r]. destruct Hr as (e & He & ->).
    destruct (_ && _) eqn:Hc; [|done]. apply andb_true_iff in Hc as [H1%Z.leb_le H2%Z.ltb_lt]. split.
    + rewrite Hp. destruct (sl_find_le_some _ _ _ E) as (s & Hin & _). apply elem_of_app. left. apply list_elem_of_fmap. by exists (s, n).
    + destruct (Hk n e He) as (e' & He' & Hs' & Ht' & _). exists e'. by rewrite Hs', Ht'.
Qed.

Lemma add_gentle s t i w : rc_inv [] w → free_offsets w ≠ [] → ∃ w', add s t i w = Done tt w' ∧ gentle 1 w w'.
Proof.
  intros Hi Hf. destruct (add_effect w s t i Hi Hf) as (off & w' & H & Hi' & _ & [_ Ho Hfr Hl Hr]). exists w'. split; [done|].
  split; [done| |apply Permutation_length in Hfr; cbn in Hfr; lia]. intros k n [Hin Hc].
  assert (n ≠ off) as Hne.
  { intros ->. pose proof (inv_nodup _ _ Hi) as Hnd. rewrite app_nil_l, app_assoc in Hnd. apply list.NoDup_app in Hnd as (_ & Hd & _).
    apply (Hd off Hin). rewrite Hfr. apply list_elem_of_here. }
  split; [|by rewrite Ho]. rewrite Hl, Hr. by apply list_elem_of_further.
Qed.

Lemma invalidate_gentle off w : rc_inv [] w → ∃ w', invalidate (Some off) w = Done tt w' ∧ gentle 0 w w'.
Proof.
  intros Hi. destruct (invalidate_effect off w Hi) as (w' & H & Hi' & _ & [He Hf Hl Hr]). exists w'. split; [done|].
  split; [done| |by rewrite Hf]. intros k n. unfold found. rewrite He.
  assert (listed w ++ retired w ≡ₚ listed w' ++ retired w') as ->; [|done].
  destruct (decide _); [rewrite Hl, Hr; apply Permutation_middle|by rewrite Hl, Hr].
Qed.

(** ** Steps *)

(** A step of the worker [tid] that leaves it at [wk']. *)
Definition steps_to (tid : nat) (wk' : Worker) (b b' : Bench) : Prop := workers b' = <[tid := wk']> (workers b).

Lemma on_worker_run tid f pc b wk :
  workers b !! tid = Some wk → ∃ b', on_worker tid f pc b = Done tt b' ∧ cache b' = cache b ∧
    steps_to tid (mkWorker (w_tls wk) (f (w_locals wk)) pc) b b'.
Proof.
  intros Hwk. eexists. split; [reflexivity|]. split; [done|]. unfold steps_to. cbn [workers].
  rewrite <-(list_insert_id _ _ _ Hwk) at 1. apply list_eq. intros j.
  pose proof (lookup_lt_Some _ _ _ Hwk). destruct (decide (j = tid)) as [->|Hne].
  - by rewrite list_lookup_alter_eq, !list_lookup_insert_eq.
  - by rewrite list_lookup_alter_ne, !list_lookup_insert_ne.
Qed.

(** A cache operation and what the worker does with its result, when the operation
    returns. *)
Lemma on_cache_run {A} tid (m : M CW A) (f : A → Locals → Locals) (pc : A → bench_pc) b wk a w' :
  workers b !! tid = Some wk → m (load_tls (w_tls wk) (cache b)) = Done a w' →
  ∃ b', (a ← on_cache tid m; on_worker tid (f a) (pc a)) b = Done tt b' ∧ cache b' = w' ∧
    steps_to tid (mkWorker (save_tls w') (f a (w_locals wk)) (pc a)) b b'.
Proof.
  intros Hwk Hm. unfold on_cache. set (b1 := mkBench w' (global_adds b) (<[tid := mkWorker (save_tls w') (w_locals wk) (w_pc wk)]> (workers b))).
  destruct (on_worker_run tid (f a) (pc a) b1 (mkWorker (save_tls w') (w_locals wk) (w_pc wk))) as (b' & H & Hc & Hs).
  { cbn. apply list_lookup_insert_eq. by eapply lookup_lt_Some. }
  exists b'. split; [|split; [done|]].
  - rewrite (bind_done _ _ b a b1); [done|]. by rewrite Hwk, Hm.
  - unfold steps_to in *. rewrite Hs. cbn [b1 workers w_locals w_tls]. by rewrite list_insert_insert_eq.
Qed.

Lemma on_cache_gentle {A} tid (m : M CW A) f pc b wk used (R : A → CW → Prop) :
  workers b !! tid = Some wk → rc_inv [] (cache b) →
  (∀ w, rc_inv [] w → free_offsets w = free_offsets (cache b) → ∃ a w', m w = Done a w' ∧ gentle used w w' ∧ R a w') →
  ∃ a b' tls, (a ← on_cache tid m; on_worker tid (f a) (pc a)) b = Done tt b' ∧ gentle used (cache b) (cache b') ∧ R a (cache b') ∧
    steps_to tid (mkWorker tls (f a (w_locals wk)) (pc a)) b b'.
Proof.
  intros Hwk Hi Hm. pose proof (load_tls_same (w_tls wk) (cache b)) as Hsame. destruct (same_kept _ _ Hsame) as [Hk Hf].
  destruct (Hm _ (inv_same _ _ _ Hsame Hi) Hf) as (a & w' & H & [G1 G2 G3] & HR).
  destruct (on_cache_run tid m f pc b wk a w' Hwk H) as (b' & Hb & Hc & Hs). exists a, b', (save_tls w'). rewrite Hc.
  split; [done|]. split; [|by split]. split; [done|by etrans|]. by rewrite <-Hf.
Qed.

(** ** A run without reclaiming finds no errors *)

(** The counters of a worker: no errors, and for a reader one hit or miss per search,
    but for the one it has not checked yet. *)
Definition locals_ok (writer : bool) (wk : Worker) : Prop :=
  let l := w_locals wk in
  local_errors l = 0 ∧
  if writer then local_hits l = 0 ∧ local_misses l = 0
  else u64 (local_ops l) = u64 (local_hits l + local_misses l + match w_pc wk with ToCheck _ _ => 1 | _ => 0 end).

(** Where a worker can be, and that the entry a reader will check covers its key. *)
Definition pc_ok (writer : bool) (w : CW) (pc : bench_pc) : Prop :=
  match pc with
  | Ready => True
  | ToCheck k off => writer = false ∧ found w k off
  | _ => writer = true
  end.

Record bench_ok (cfg : Config) (room : nat) (b : Bench) : Prop := mkBenchOk {
  ok_cache : rc_inv [] (cache b);
  ok_room : (room ≤ length (free_offsets (cache b)))%nat;
  ok_workers : ∀ tid wk, workers b !! tid = Some wk → locals_ok (is_writer cfg tid) wk ∧ pc_ok (is_writer cfg tid) (cache b) (w_pc wk)
}.

Lemma ok_step cfg tid wk' b b' used room :
  bench_ok cfg (used + room) b → steps_to tid wk' b b' → gentle used (cache b) (cache b') →
  locals_ok (is_writer cfg tid) wk' → pc_ok (is_writer cfg tid) (cache b') (w_pc wk') →
  bench_ok cfg room b' ∧ length (workers b') = length (workers b).
Proof.
  intros [Hi Hr Hw] Hs [G1 G2 G3] Hl Hp. split; [|by rewrite Hs, length_insert]. split; [done|lia|].
  intros t wk Ht. rewrite Hs in Ht. apply list_lookup_insert_Some in Ht as [(-> & <- & _)|(_ & Ht)]; [done|].
  destruct (Hw t wk Ht) as [H1 H2]. split; [done|]. unfold pc_ok in *. destruct (w_pc wk); try done. destruct H2 as [? ?]. split; [done|by apply G2].
Qed.

Lemma gentle_refl w : rc_inv [] w → gentle 0 w w.
Proof. by split. Qed.

Lemma worker_step_ok cfg tid dice k b room :
  bench_ok cfg ((if is_writer cfg tid then 1 else 0) + room) b → (tid < length (workers b))%nat →
  ∃ b', worker_step cfg (tid, dice, k) b = Done tt b' ∧ bench_ok cfg room b' ∧ length (workers b') = length (workers b).
Proof.
  intros Hok Ht. destruct (lookup_lt_is_Some_2 _ _ Ht) as [wk Hwk]. pose proof Hok as [Hi Hr Hw].
  destruct (Hw tid wk Hwk) as [[Herr Hcnt] Hpc]. unfold worker_step. erewrite bind_done by reflexivity. rewrite Hwk. cbn [fmap option_fmap option_map].
  assert (∀ used b' tls f pc, (used ≤ if is_writer cfg tid then 1 else 0)%nat → steps_to tid (mkWorker tls (f (w_locals wk)) pc) b b' →
    gentle used (cache b) (cache b') → locals_ok (is_writer cfg tid) (mkWorker tls (f (w_locals wk)) pc) → pc_ok (is_writer cfg tid) (cache b') pc →
    bench_ok cfg room b' ∧ length (workers b') = length (workers b)) as Hend.
  { intros used b' tls f pc Hu Hs Hg Hl Hp. eapply (ok_step cfg tid _ b b' used room); try done. destruct Hok. split; [done|lia|done]. }
  unfold pc_ok in Hpc. destruct (w_pc wk) as [|base| |ent|key ent] eqn:Epc.
  - destruct (is_writer cfg tid) eqn:Ew.
    + set (b1 := mkBench (cache b) (u64 (global_adds b + 1)) (workers b)).
      destruct (on_worker_run tid id (ToAdd (global_adds b mod KEY_SPACE)) b1 wk Hwk) as (b' & H & Hc & Hs).
      exists b'. split; [exact H|]. eapply (Hend 0%nat b' _ id); [lia|exact Hs|rewrite Hc; by apply gentle_refl|by split|done].
    + destruct (on_cache_gentle tid (search k) (λ r, match r with None => add_miss ∘ add_op | Some _ => add_op end)
        (λ r, match r with None => Ready | Some off => ToCheck k off end) b wk 0
        (λ r w', match r with None => True | Some off => found w' k off end) Hwk Hi) as (r & b' & tls & H & Hg & HR & Hs).
      { intros w Hiw _. by apply search_gentle. }
      exists b'. split.
      { rewrite <-H. unfold reader_search, mbind, M_bind. destruct (on_cache tid (search k) b) as [[off|] ?|]; done. }
      destruct r as [off|].
      * eapply (Hend 0%nat b' tls add_op); [lia|exact Hs|done| |by split]. split; [done|]. cbn.
        rewrite wrap_idemp, <-wrap_add_l, Hcnt, wrap_add_l by lia. f_equal. lia.
      * eapply (Hend 0%nat b' tls (add_miss ∘ add_op)); [lia|exact Hs|done| |done]. split; [done|]. cbn.
        rewrite wrap_idemp, Z.add_0_r, wrap_add_r, <-wrap_add_l, Hcnt, wrap_add_l by lia. f_equal. lia.
  - rewrite Hpc in *. destruct (on_cache_gentle tid (add base (base + RANGE_LEN) base) (λ _, add_op)
      (λ _, if Z.land dice 0xff =? 0 then ToSearch else Ready) b wk 1 (λ _ _, True) Hwk Hi) as ([] & b' & tls & H & Hg & _ & Hs).
    { intros w Hiw Hf. destruct (add_gentle base (base + RANGE_LEN) base w Hiw) as (w' & H & Hg); [|by exists tt, w'].
      rewrite Hf. intros H0. rewrite H0 in Hr. cbn in Hr. lia. }
    exists b'. split; [exact H|]. eapply (Hend 1%nat b' tls add_op); [lia|exact Hs|done|by split|by destruct (_ =? _)].
  - rewrite Hpc in *. destruct (on_cache_gentle tid (search k) (λ _, id) (λ r, match r with None => Ready | Some off => ToRemove off end)
      b wk 0 (λ _ _, True) Hwk Hi) as (r & b' & tls & H & Hg & _ & Hs).
    { intros w Hiw _. destruct (search_gentle k w Hiw) as (r & w' & H & Hg & _). by exists r, w'. }
    exists b'. split; [exact H|]. eapply (Hend 0%nat b' tls id); [lia|exact Hs|done|by split|by destruct r].
  - rewrite Hpc in *. destruct (on_cache_gentle tid (invalidate (Some ent)) (λ _, id) (λ _, Ready) b wk 0 (λ _ _, True) Hwk Hi)
      as ([] & b' & tls & H & Hg & _ & Hs).
    { intros w Hiw _. destruct (invalidate_gentle ent w Hiw) as (w' & H & Hg). by exists tt, w'. }
    exists b'. split; [exact H|]. eapply (Hend 0%nat b' tls id); [lia|exact Hs|done|by split|done].
  - destruct Hpc as [Hwr [Hin (e & He & Hk1 & Hk2)]]. rewrite Hwr in *.
    set (wl := load_tls (w_tls wk) (cache b)).
    destruct (on_cache_run tid (load_entry ent) (λ e, if negb ((start e <=? key) && (key <? end_ e)) then add_error else add_hit) (λ _, Ready) b wk e wl Hwk)
      as (b' & H & Hc & Hs).
    { unfold load_entry. fold wl. change (entries_at wl) with (entries_at (cache b)). by rewrite He. }
    rewrite (proj2 (Z.leb_le _ _) Hk1), (proj2 (Z.ltb_lt _ _) Hk2) in Hs. cbn [andb negb] in Hs.
    exists b'. split; [exact H|]. pose proof (load_tls_same (w_tls wk) (cache b)) as Hsame. destruct (same_kept _ _ Hsame) as [Hkp Hf].
    eapply (Hend 0%nat b' _ add_hit); [lia|exact Hs| | |done].
    + rewrite Hc. split; [by eapply inv_same|done|]. fold wl in Hf. by rewrite Hf.
    + split; [done|]. cbn. rewrite Hcnt, Z.add_0_r, wrap_add_l by lia. f_equal. lia.
Qed.

Lemma bench_init_ok cfg c n : rc_inv [] c → bench_ok cfg (length (free_offsets c)) (bench_init c n).
Proof.
  intros Hi. split; [done|done|]. intros tid wk H. apply lookup_replicate in H as [-> _].
  split; [|done]. split; [done|]. by destruct (is_writer cfg tid).
Qed.

(** The steps of writers in a schedule. *)
Definition writer_steps (cfg : Config) (schedule : list (nat * Z * Z)) : nat :=
  length (filter (λ i : nat * Z * Z, is_writer cfg i.1.1 = true) schedule).

Lemma run_ok cfg schedule : ∀ b room,
  bench_ok cfg (writer_steps cfg schedule + room) b → Forall (λ i, (i.1.1 < length (workers b))%nat) schedule →
  ∃ b', run cfg schedule b = Done tt b' ∧ bench_ok cfg room b' ∧ length (workers b') = length (workers b).
Proof.
  induction schedule as [|[[tid dice] k] schedule IH]; intros b room Hb Hs; [by exists b|]. apply Forall_cons_iff in Hs as [Hi Hs].
  destruct (worker_step_ok cfg tid dice k b (writer_steps cfg schedule + room)) as (b1 & H1 & Hb1 & Hl1); [|done|].
  { unfold writer_steps in Hb. rewrite filter_cons in Hb. cbn [fst] in Hb. destruct (is_writer cfg tid); case_decide; try done; exact Hb. }
  cbn [run]. rewrite (bind_done _ _ _ _ _ H1).
  destruct (IH b1 room Hb1) as (b2 & H2 & Hb2 & Hl2); [by rewrite Hl1|]. exists b2. split; [done|]. split; [done|]. by rewrite Hl2.
Qed.

Lemma no_errors_total (ws : list Worker) : Forall (λ wk, local_errors (w_locals wk) = 0) ws → ∀ t, local_errors t = 0 →
  local_errors (fold_left (λ t wk, let l := w_locals wk in
    mkLocals (u64 (local_ops t + local_ops l)) (u64 (local_hits t + local_hits l)) (u64 (local_misses t + local_misses l))
      (u64 (local_errors t + local_errors l))) ws t) = 0.
Proof. induction 1 as [|wk ws Hwk Hws IH]; intros t Ht; [done|]. apply IH. cbn [local_errors]. by rewrite Ht, Hwk. Qed.

(** C33: when the benchmark reports no errors.  Any number of workers take steps in any
    order, and other workers add, search and remove between the search of a worker and
    the check of the entry it got.  If the cache starts with at least as many free slabs
    as there are steps of writers, so that no [add] has to evict or reclaim, every step
    returns, the cache keeps its invariant, the entry a reader got still covers its key
    when the reader checks it, every search of a reader is counted as one hit or one
    miss, and the exit code is 0.  (Without that condition an entry can be reclaimed
    before it is checked: [bench_outcomes_witness] is such a run.) *)
Theorem bench_finds_no_errors cfg (c : CW) n schedule :
  rc_inv [] c → Forall (λ i, (i.1.1 < n)%nat) schedule → (writer_steps cfg schedule ≤ length (free_offsets c))%nat →
  ∃ b, run cfg schedule (bench_init c n) = Done tt b ∧ rc_inv [] (cache b) ∧ exit_code b = 0 ∧
    ∀ tid wk, workers b !! tid = Some wk → locals_ok (is_writer cfg tid) wk.
Proof.
  intros Hi Hs Hf. destruct (run_ok cfg schedule (bench_init c n) 0) as (b & H & [Hb _ Hl] & _).
  { destruct (bench_init_ok cfg c n Hi). split; [done|cbn; lia|done]. }
  { cbn. by rewrite length_replicate. }
  exists b. split; [done|]. split; [done|]. split; [|intros tid wk Hw; by destruct (Hl tid wk Hw)].
  unfold exit_code, totals. rewrite no_errors_total; [done| |done].
  apply list.Forall_forall. intros wk (tid & Hw)%list_elem_of_lookup. by destruct (Hl tid wk Hw) as [[]].
Qed.
(** ** Any run *)

Lemma on_cache_total {A} tid (m : M CW A) f pc b wk :
  workers b !! tid = Some wk → rc_inv [] (cache b) → (∀ w, rc_inv [] w → ∃ a w', m w = Done a w' ∧ rc_inv [] w') →
  ∃ b', (a ← on_cache tid m; on_worker tid (f a) (pc a)) b = Done tt b' ∧ rc_inv [] (cache b') ∧ length (workers b') = length (workers b).
Proof.
  intros Hwk Hi Hm. destruct (Hm _ (inv_same _ _ _ (load_tls_same (w_tls wk) (cache b)) Hi)) as (a & w' & H & Hi').
  destruct (on_cache_run tid m f pc b wk a w' Hwk H) as (b' & Hb & <- & Hs). exists b'. by rewrite Hs, length_insert.
Qed.

(** The reader [tid] is about to check an entry that is gone. *)
Definition dangling (f : fault) (b : Bench) : Prop :=
  f = NullPointer ∧ ∃ tid wk k ent, workers b !! tid = Some wk ∧ w_pc wk = ToCheck k ent ∧ entries_at (cache b) !! ent = None.

Lemma worker_step_outcome cfg i b :
  rc_inv [] (cache b) → (i.1.1 < length (workers b))%nat →
  match worker_step cfg i b with
  | Done _ b' => rc_inv [] (cache b') ∧ length (workers b') = length (workers b)
  | Fault f b' => rc_inv [] (cache b') ∧ dangling f b'
  end.
Proof.
  destruct i as [[tid dice] k]. cbn [fst]. intros Hi Ht. destruct (lookup_lt_is_Some_2 _ _ Ht) as [wk Hwk].
  unfold worker_step. erewrite bind_done by reflexivity. rewrite Hwk. cbn [fmap option_fmap option_map].
  destruct (w_pc wk) as [|base| |ent|key ent] eqn:Epc.
  - destruct (is_writer cfg tid).
    + set (b1 := mkBench (cache b) (u64 (global_adds b + 1)) (workers b)).
      destruct (on_worker_run tid id (ToAdd (global_adds b mod KEY_SPACE)) b1 wk Hwk) as (b' & H & Hc & Hs).
      assert (writer_start tid b = Done tt b') as -> by exact H. by rewrite Hc, Hs, length_insert.
    + destruct (on_cache_total tid (search k) (λ r, match r with None => add_miss ∘ add_op | Some _ => add_op end)
        (λ r, match r with None => Ready | Some off => ToCheck k off end) b wk Hwk Hi (search_ok k)) as (b' & H & Hi' & Hl).
      assert (reader_search tid k b = Done tt b') as ->; [|done].
      rewrite <-H. unfold reader_search, mbind, M_bind. destruct (on_cache tid (search k) b) as [[off|] ?|]; done.
  - destruct (on_cache_total tid (add base (base + RANGE_LEN) base) (λ _, add_op) (λ _, if Z.land dice 0xff =? 0 then ToSearch else Ready)
      b wk Hwk Hi (add_ok _ _ _)) as (b' & H & Hi' & Hl). unfold writer_add. by rewrite H.
  - destruct (on_cache_total tid (search k) (λ _, id) (λ r, match r with None => Ready | Some off => ToRemove off end) b wk Hwk Hi (search_ok k))
      as (b' & H & Hi' & Hl). unfold writer_search. by rewrite H.
  - destruct (on_cache_total tid (invalidate (Some ent)) (λ _, id) (λ _, Ready) b wk Hwk Hi (invalidate_ok _)) as (b' & H & Hi' & Hl).
    unfold writer_remove. by rewrite H.
  - set (wl := load_tls (w_tls wk) (cache b)). pose proof (load_tls_same (w_tls wk) (cache b)) as Hsame. fold wl in Hsame.
    destruct (entries_at (cache b) !! ent) as [e|] eqn:He.
    + destruct (on_cache_run tid (load_entry ent) (λ e, if negb ((start e <=? key) && (key <? end_ e)) then add_error else add_hit) (λ _, Ready) b wk e wl Hwk)
        as (b' & H & Hc & Hs); [unfold load_entry; fold wl; cbv beta; change (entries_at wl) with (entries_at (cache b)); by rewrite He|].
      unfold reader_check. rewrite H, Hc, Hs, length_insert. split; [by eapply inv_same|done].
    + assert (on_cache tid (load_entry ent) b =
        Fault NullPointer (mkBench wl (global_adds b) (<[tid := mkWorker (save_tls wl) (w_locals wk) (w_pc wk)]> (workers b)))) as H.
      { unfold on_cache, load_entry. rewrite Hwk. fold wl. change (entries_at wl) with (entries_at (cache b)). by rewrite He. }
      unfold reader_check, mbind, M_bind. rewrite H. cbn [cache]. split; [by eapply inv_same|]. split; [done|].
      eexists tid, _, key, ent. cbn [workers cache]. split; [by apply list_lookup_insert_eq|]. split; [exact Epc|exact He].
Qed.

End bench.

(** The accepted configurations.  With a configuration the program runs at least one and
    at most 64 workers; it refuses to start without workers or with more writers than
    workers, and stops with the usage for a request for help or an unknown option. *)
Theorem configure_spec opts :
  match configure opts with
  | inr cfg => 1 ≤ threads cfg ≤ 64 ∧ 0 ≤ writers cfg
  | inl code => code = 0 ∧ OptHelp ∈ opts ∨ code = 1
  end.
Proof.
  assert (∀ os c, 0 ≤ threads c → 0 ≤ writers c → match parse os c with
    | inr cfg => 0 ≤ threads cfg ∧ 0 ≤ writers cfg | inl code => code = 0 ∧ OptHelp ∈ os ∨ code = 1 end) as H.
  { induction os as [|o os IH]; intros c H1 H2; [done|]. cbn [parse].
    assert (∀ c', 0 ≤ threads c' → 0 ≤ writers c' → match parse os c' with
      | inr cfg => 0 ≤ threads cfg ∧ 0 ≤ writers cfg | inl code => code = 0 ∧ OptHelp ∈ o :: os ∨ code = 1 end) as IH'.
    { intros c' H1' H2'. specialize (IH c' H1' H2'). destruct (parse os c') as [code|]; [|done].
      destruct IH as [[? ?]|?]; [left; split; [done|by apply list_elem_of_further]|by right]. }
    destruct o as [x|x|x|x| | |]; try (apply IH'; cbn [threads writers]; first [done | apply (wrap_in_width 32 x); lia]).
    - left. split; [done|apply list_elem_of_here].
    - by right. }
  unfold configure. specialize (H opts config_init). destruct (parse opts config_init) as [code|cfg]; [apply H; done|].
  destruct H as [H1 H2]; [done|done|]. destruct (Z.eqb_spec (threads cfg) 0); cbn [orb]; [by right|].
  destruct (Z.ltb_spec (threads cfg) (writers cfg)); [by right|]. destruct (Z.ltb_spec 64 (threads cfg)); cbn [threads writers]; lia.
Qed.

(** An empty cache of [n] entries. *)
Definition demo_bench_cache (n : Z) : option (CacheWorld (Q := fifo) (L := list (Z * Z)) (S := SimpleAllocator (H := Z)) (Item := Z)) :=
  match RangeCache_init 64 n 64 8 (mkSimple ∅ 4096) with
  | Some r => Some (mkCW r ∅ [] 1 0 None 0 0 4660 (λ n, Z.of_nat (7 * n + 3)))
  | None => None
  end.

(** Worker 0 adds a range, worker 1 finds it, worker 0 removes it, worker 1 checks. *)
Definition demo_schedule : list (nat * Z * Z) :=
  [(0%nat, 0, 0); (0%nat, 256, 0); (1%nat, 0, 5); (0%nat, 0, 7); (0%nat, 0, 0); (1%nat, 0, 0); (1%nat, 0, 9)].

Lemma bench_finds_no_errors_witness :
  ∃ w b, demo_bench_cache 8 = Some w ∧ run (mkConfig 2 1 10 8) demo_schedule (bench_init w 2) = Done tt b ∧ exit_code b = 0.
Proof.
  assert (match demo_bench_cache 8 with Some w => rc_check w && (length (free_offsets w) =? 8)%nat | None => false end = true) as H
    by (vm_compute; reflexivity).
  destruct (demo_bench_cache 8) as [w|]; [|discriminate H]. apply andb_true_iff in H as [H1 H2%Nat.eqb_eq]. exists w.
  destruct (bench_finds_no_errors (mkConfig 2 1 10 8) w 2 demo_schedule) as (b & H & _ & He & _).
  - by apply rc_check_sound.
  - repeat (constructor; [cbn; lia|]). constructor.
  - rewrite H2. apply (bool_decide_unpack _). vm_compute. exact I.
  - exists b. split; [reflexivity|]. split; [exact H|exact He].
Defined.

(** With two slabs: between the search of worker 1 and its check, worker 0 removes the
    entry and adds three more ranges, for which the slab is reclaimed and used again.
    The reader counts an error, and the program exits with 2. *)
Definition demo_race : list (nat * Z * Z) :=
  [(0%nat, 0, 0); (0%nat, 256, 0); (1%nat, 0, 0); (0%nat, 0, 0); (0%nat, 0, 0);
   (0%nat, 0, 0); (0%nat, 1, 0); (0%nat, 0, 0); (0%nat, 1, 0); (0%nat, 0, 0); (0%nat, 1, 0); (1%nat, 0, 0)].

